(* ===== verification/_CoqProject ===== *)
-Q . S2P
Prelude.v
Bytes.v
U256.v
AuxPow.v
CauxPow.v
TxParse.v
Abi.v
Text.v
Verify.v
Swap.v
Strs.v
Config.v
ConfigThm.v
Http.v
Json.v
ChainRpc.v
ChainRpcSpec.v
ChainRpcThm.v
Resolve.v
Db.v
DbSpec.v
DbThm.v
Stats.v
Split.v
Ingest.v
IngestSpec.v
IngestSync.v
IngestThm.v
Tasks.v
Metrics.v
Sound.v
MetricsThm.v
P2p.v
P2pThm.v
Server.v
Security.v
Api.v
ApiThm.v
ServerThm.v
ApiErrors.v
System.v
Uplink.v
Promises.v
Answers.v
Threads.v
Process.v
Served.v
Races.v
Wasm.v
Explain.v
Sha2.v
Fixtures.v
UnitTests.v
StoreTests.v
