(* ===== verification/Prelude.v ===== *)
(** * PSob indexer: verification library

    The PSob indexer follows chains that are merge-mined with Litecoin.  For each
    configured chain it polls an Electrs node for block headers that carry an
    AuxPoW witness, verifies that the witness commits to the header in a Litecoin
    block, stores the block under that parent, finds the parents that anchor
    blocks of several chains ("sibling groups"), resolves the height of the parent
    on Litecoin, and serves blocks, proofs, sibling groups and co-settlement
    receipts over a REST API; swap intents are exchanged over the API and a gossip
    mesh.  The crate [common] is shared with the zero-knowledge guest, which runs
    the same verification over a chain of headers and parses the deposit and
    payout transactions, and with a WASM verifier for wallets; [chain-rpc] builds
    the guest's input.

    ** Parts and files

    Shared:
    - [Prelude]: [Result] as a monad, counted loops, sorting by a boolean order,
      tactics.  [Bytes]: fixed-width integers, slices, little- and big-endian.
      [Text], [Strs], [Json]: decimal text, [str], [serde_json::Value].

    Verification core ([crates/common/src]):
    - [U256]: 256-bit work and compact targets ([block_work], [expand_target]).
    - [AuxPow]: the Merkle fold, [AuxPow], [BlockHeader],
      [verify_auxpow_commitment], [verify_psob_chain].
    - [CauxPow]: [cauxpow.rs], the wire parser, and the inverse of it that
      [tests/support/mod.rs] uses.  [TxParse]: [parse_deposit_outputs],
      [parse_withdrawal_outputs].  [Abi]: the journals.

    Node:
    - [Verify]: [src/verify.rs].  [Swap]: [src/swap.rs].  [Config]: [src/config.rs].
    - [Http], [ChainRpc]: [crates/chain-rpc/src/lib.rs]; [Resolve]:
      [src/resolve.rs].
    - [Db], [Stats]: [src/db.rs], a call at a time; [Split]: every call as the
      sequence of its sections, the operations that are atomic.
    - [Ingest]: [src/ingest.rs], a round of a chain at a time; [Tasks]: the same
      loop as a state machine whose step makes one call; [Threads]: the sections of
      each step.  [Uplink]: the construction of the services of the ingestor.
    - [P2p]: [src/p2p/mod.rs] and [src/p2p/swarm.rs].
    - [Server] (handlers, as sequences of sections), [Security] (middleware), [Api]
      (routes): [src/server.rs].  [Metrics]: [src/metrics.rs] and the places that
      count.
    - [System]: [src/main.rs] with whole rounds, turns and requests.  [Process]: the
      same process at the granularity of a section, with failing transactions,
      stops and restarts; [Sound]: what holds of the store there; [Promises] and
      [Answers]: what the replies are worth there.  [Races]: what two calls can do
      to each other.

    Tools and tests:
    - [Wasm]: [crates/psob-wasm/src/lib.rs].  [Explain]:
      [src/bin/psob-explain.rs].
    - [Sha2], [Fixtures], [UnitTests], [StoreTests]: the unit tests of the
      repository, run on the model with the real hash function and real blocks.

    A file [X] holds data and operations; [XSpec] and [XSync] the lemmas about
    them; [XThm] ([ApiThm], [ServerThm], [ApiErrors] for the API, [Served] for the
    process) the theorems and their instances at concrete inputs.  For the small
    components one file holds all.

    ** How the code is modelled

    A [[u8; n]], [Vec<u8>] or [&[u8]] is a byte list; a machine integer is a [Z]
    whose wrap-around, checked and saturating operations are written out, as in
    a release build; a [String] is the string of its UTF-8 bytes.  A [Result] is
    [Result]; a panic is the [None] of an outer [option], where one is reachable.
    Five monads carry the effects: [M] is a step over the database (state and
    error; the outcomes of its next transactions are part of the state); [Steps] a
    sequence of sections, between which other threads run; [H] a handler, a sequence
    of sections over the database and the gossip handle that ends in a reply or an
    [ApiError]; [HttpM] a step over the log of requests and sleeps; and [Result]
    itself.  The database is its Redb tables with serialized values, and the caches
    beside them.

    A section is an operation on one entry of a [DashMap], with what is done under
    its lock, a read transaction, a write transaction (Redb has one writer), an
    insertion into the set of announced parents, or a message sent to the mesh.  An
    iteration over a map lists its keys in one section and reads each entry in
    another, so an entry inserted meanwhile is not seen.  A list of keys that the code
    reads while it holds the writer is read before the transaction, which only adds
    interleavings.

    Third-party code is a parameter with the laws that are used, as a class:
    [Sha256] (a digest has 32 bytes), [HexCodec] (decoding inverts encoding),
    [Secp256k1], [Codec] (bincode and serde_json: round trips), [Decode],
    [DecodeSummary], [GossipCodec], [ErrorText], [Prometheus] (the collectors, as
    documented).  The environment of the process,
    the file system, TOML, the clock, the nodes, the explorers, the peers and the
    clients are arguments, without assumptions unless a theorem names one
    (an honest node, an explorer that serves some paths).

    Two invariants of the store connect the parts.  [ingest_inv] ([IngestSpec],
    with [coherent] of [DbSpec]) is strong: caches and tables agree, the chains are
    linked up to their cursors; whole rounds keep it, the API and the swarm are
    proved to change the order book only, and [System] composes them.  [sound]
    ([Sound]) is weak: every block cached or durable was verified, a block is listed
    under a parent only if its witness is in it, a parent has a height only if an
    explorer said so, an intent in the book was validated; every single section
    keeps it, whatever the others and the transactions do, and so does opening the
    tables again; [Process] composes those.  [secure] is the judgement on sections
    that says so, [promises] the one on handlers; each has one rule for each way to
    compose, and a hint database.

    ** What the theorems show

    - The process, however the sections interleave ([Served]): a block that is
      served verifies, for the node, for the guest and for whoever recomputes it
      from the response; every answer is backed by verified blocks and reported
      heights; what is published is honest; no ingest task dies, and with the swarm's
      help alone it comes back to its poll.
    - The lemmas that make the levels one model: run alone, the sections of a call
      are the call (the instances [is_call] and [is_query] of [Split]), those of a
      step are the step ([Threads.run_task]), and the steps of a task are its round
      ([Tasks.round_goes]).  In company two calls can do what neither does alone
      ([Races]).
    - Ingestion: the store is safe whatever the network answers, and converges to the
      chain of an honest node; classification and the announcement of sibling groups.
    - Metrics: the instrumented loop is the loop, its counters say what happened, and
      a scrape shows the store.
    - The API: co-settlement is decided by the shared parent and its token
      determines the legs; the verification endpoint agrees with the guest; the
      failures a request can have, over a coherent store; who
      passes the gate and how often ([Security]); posted and gossiped intents are
      validated before they are stored, and nothing else of the store can be
      reached from outside ([ServerThm], [ApiErrors], [P2pThm]).
    - The commitment check against an abstract specification, that a coinbase
      commits to one block of a chain per slot (or yields a hash collision), the
      guest's header chain, the agreement of the four verifiers (node fast path,
      node report, guest, WASM).
    - Parsers: the wire parser and the transaction parsers accept exactly the
      serializations of abstract objects, with their meaning; round trips.
    - Arithmetic: work and targets against integer arithmetic.
    - Storage: an invariant of every state that callers with discipline reach, the
      functional behaviour of insertion, rollback and pruning, the refinement of the caches by what a
      reopened database holds, the groups of shared parents.
    - Clients: when the cap of the backoff is below the last [u64], requests
      terminate within their retry policy and resolution never fails; it finds only
      what an explorer said of that block; payouts and witnesses are exactly what the
      explorer serves.
    - Configuration: a configuration that loads is well formed; a printed chain
      list is read back.  Swap intents: the validation rules, and the signed text
      determines every signed field.

    ** Fuel and bounds

    No definition has fuel that can run out: the retry loops recurse on the
    retries left (the code's [max_retries]), the page loop on the pages left, the
    parsers on the count they have read ([repeat_Z], which stops at the first
    error), and the others on their data.  A task's loop is a step relation: that a
    round ends is a theorem.  [usize] is 64 bits in the node, the guest's input
    builder and the tools; the parser is a definition over its width ([CauxPow.Usize]),
    and [Wasm] takes 32 bits, the width of the target that crate is built for.  An
    input is in memory ([len ≤ usize_max], or below 2^32 in [Wasm]) where a theorem
    needs it.  The channel to the mesh holds 1000 messages ([P2p.CHANNEL_CAPACITY]); a
    section that sends waits while it is full ([Process.waits]).

    A delay before a retry is a random number below [capped as u64 + 1]
    ([Bytes.jittered]): with base and cap at the last [u64] of milliseconds, which the
    environment can set, the range is empty and [fastrand] panics.  The model has the
    panic in the three places that compute a delay ([Http.backoff], [Resolve],
    [Ingest.backoff_delay]), and the theorems that need its absence ask for a cap
    below the last [u64].  A [Node] of [Ingest] gives the answers of clients that
    return; one that panics ends its task there, which the same bound excludes.

    ** Not modelled

    - [src/lib.rs]: module declarations.  Logging, the text of a scrape and of the
      explain tool.
    - The frameworks: tokio's scheduling and signals, axum's extraction and
      rendering, libp2p's transports and its behaviour builder, OpenAPI.  The
      builders of HTTP clients.
    - The unit tests that sign, parse TOML or need the network.
    - A [len] of a map is one section; the shards of a [DashMap], and blocking on
      them, are not modelled.  Nothing is said of fairness: that a task comes back
      says that some schedule of it and of the swarm brings it back.
    - The functional theorems of the storage and of the handlers assume the strong
      invariant, and whole calls.  It does not survive a restart with parents not yet
      classified ([DbThm.reopen_correct] says what is lost, and
      [DbThm.rollback_after_restart_stale_index] what follows), nor a failed
      transaction ([DbThm.insert_blocks_fault]), nor a rollback that meets an
      insertion under the same parent ([Races.rollback_loses_parent]).
    - Reads of Redb never fail, nor does allocation, but for a capacity that
      overflows in [ChainRpc.build_proof_input]. *)

From stdpp Require Export base tactics option list numbers sorting.
From Stdlib Require Export ZArith Lia.

Set Default Proof Using "Type".

(** ** Results

    [Result E A] is Rust's [Result<A, E>]; the error type comes first so that
    [Result E] is a monad and the code's [?] reads as stdpp's [x ← e; k]. *)

Inductive Result (E A : Type) : Type :=
  | Ok (a : A)
  | Err (e : E).
Arguments Ok {E A} a.
Arguments Err {E A} e.

#[export] Instance Result_ret {E} : MRet (Result E) := λ A a, Ok a.
#[export] Instance Result_bind {E} : MBind (Result E) :=
  λ A B f m, match m with Ok a => f a | Err e => Err e end.
#[export] Instance Result_fmap {E} : FMap (Result E) :=
  λ A B f m, match m with Ok a => Ok (f a) | Err e => Err e end.

(** [is_ok] is [Result::is_ok]. *)
Definition is_ok {E A} (r : Result E A) : bool :=
  match r with Ok _ => true | Err _ => false end.

(** [ok_or o e] is [Option::ok_or]: the [?] on an option inside a function that
    returns a [Result]. *)
Definition ok_or {E A} (o : option A) (e : E) : Result E A :=
  match o with Some a => Ok a | None => Err e end.

(** [map_err f r] is [Result::map_err]. *)
Definition map_err {E F A} (f : E → F) (r : Result E A) : Result F A :=
  match r with Ok a => Ok a | Err e => Err (f e) end.

(** [result_ok r] is [Result::ok]. *)
Definition result_ok {E A} (r : Result E A) : option A :=
  match r with Ok a => Some a | Err _ => None end.

#[export] Instance Result_eq_dec {E A} `{EqDecision E, EqDecision A} :
  EqDecision (Result E A).
Proof. solve_decision. Defined.

Section result_lemmas.
Context {E A B : Type}.
Implicit Types (m : Result E A) (f : A → Result E B).

Lemma bind_Ok (f : A → Result E B) (m : Result E A) b :
    (m ≫= f) = Ok b ↔ ∃ a, m = Ok a ∧ f a = Ok b.
Proof. destruct m; simpl; split; [eauto|intros (?&[=->]&?)|done|intros (?&?&?)]; done. Qed.

Lemma bind_Err (f : A → Result E B) (m : Result E A) e :
    (m ≫= f) = Err e ↔ m = Err e ∨ ∃ a, m = Ok a ∧ f a = Err e.
Proof. destruct m; simpl; split; [eauto|intros [|(?&[=->]&?)]|intros [=->]; auto|intros [[=->]|(?&?&?)]]; done. Qed.

Lemma ok_or_Ok (o : option A) (e : E) a : ok_or o e = Ok a ↔ o = Some a.
Proof. destruct o; simpl; split; congruence. Qed.
End result_lemmas.

(** [simplify_result] splits every hypothesis [_ ≫= _ = Ok _] (and its option
    counterpart) into its steps. *)
Ltac simplify_result :=
  repeat match goal with
  | H : (_ ≫= _) = Ok _ |- _ => apply bind_Ok in H; destruct H as (?&?&H)
  | H : (_ ≫= _) = Some _ |- _ => apply bind_Some in H; destruct H as (?&?&H)
  | H : ok_or _ _ = Ok _ |- _ => apply ok_or_Ok in H
  | H : Ok _ = Ok _ |- _ => injection H; clear H; intros
  | H : Err _ = Ok _ |- _ => discriminate H
  | H : Ok _ = Err _ |- _ => discriminate H
  | H : mret _ = _ |- _ => unfold mret, Result_ret, option_ret in H
  | _ => progress simplify_eq/=
  end.

(** ** Bounded loops

    [repeat_Z n f s] is [for _ in 0..n { s = f(s)?; }] with a machine-width trip
    count.  It recurses on the binary representation of [n] and stops at the first
    error, so a huge count read from hostile input costs only the iterations
    that succeed; [repeat_Z_nat] relates it to the unary loop the proofs use. *)

Fixpoint repeat_nat {E S} (n : nat) (f : S → Result E S) (s : S) : Result E S :=
  match n with
  | O => Ok s
  | Datatypes.S n => s' ← f s; repeat_nat n f s'
  end.

Fixpoint repeat_pos {E S} (p : positive) (f : S → Result E S) (s : S) : Result E S :=
  match p with
  | xH => f s
  | xO p => s' ← repeat_pos p f s; repeat_pos p f s'
  | xI p => s1 ← f s; s2 ← repeat_pos p f s1; repeat_pos p f s2
  end.

Definition repeat_Z {E S} (n : Z) (f : S → Result E S) (s : S) : Result E S :=
  match n with Zpos p => repeat_pos p f s | _ => Ok s end.

Section loops.
Context {E S : Type} (f : S → Result E S).

Lemma repeat_nat_add n m s :
    repeat_nat (n + m) f s = (repeat_nat n f s ≫= repeat_nat m f).
Proof.
    revert s; induction n as [|n IH]; intros s; [done|]; simpl.
    destruct (f s) as [s'|e]; [apply IH | done].
Qed.

Lemma repeat_pos_nat p s : repeat_pos p f s = repeat_nat (Pos.to_nat p) f s.
Proof.
    revert s; induction p as [p IH|p IH|]; intros s.
    - replace (Pos.to_nat p~1) with (1 + (Pos.to_nat p + Pos.to_nat p))%nat by lia.
      rewrite (repeat_nat_add 1). cbn [repeat_pos repeat_nat].
      destruct (f s) as [s'|e]; [|done]. cbv [mbind Result_bind].
      rewrite IH, repeat_nat_add.
      destruct (repeat_nat _ f s'); [apply IH | done].
    - replace (Pos.to_nat p~0) with (Pos.to_nat p + Pos.to_nat p)%nat by lia.
      rewrite repeat_nat_add. cbn [repeat_pos]. rewrite IH.
      destruct (repeat_nat _ f s); [apply IH | done].
    - change (Pos.to_nat 1) with 1%nat. cbn. by destruct (f s).
Qed.

Lemma repeat_Z_nat n s : repeat_Z n f s = repeat_nat (Z.to_nat n) f s.
Proof. destruct n; [done | apply repeat_pos_nat | done]. Qed.

(** Loop invariants: a property kept by every successful iteration holds when
      the loop ends. *)
Lemma repeat_nat_inv (P : S → Prop) n s s' :
    (∀ a b, P a → f a = Ok b → P b) →
    P s → repeat_nat n f s = Ok s' → P s'.
Proof.
    intros Hstep; revert s; induction n as [|n IH]; intros s Hs; simpl.
    - by intros [= <-].
    - intros (a & Ha & Hr)%bind_Ok. eauto.
Qed.

Lemma repeat_Z_inv (P : S → Prop) n s s' :
    (∀ a b, P a → f a = Ok b → P b) →
    P s → repeat_Z n f s = Ok s' → P s'.
Proof. rewrite repeat_Z_nat. apply repeat_nat_inv. Qed.

(** An error of the loop is the error of one of its iterations. *)
Lemma repeat_nat_Err n s e :
    repeat_nat n f s = Err e → ∃ a, f a = Err e.
Proof.
    revert s; induction n as [|n IH]; intros s; simpl; [done|].
    intros [?|(a & ? & ?)]%bind_Err; eauto.
Qed.

Lemma repeat_Z_Err n s e : repeat_Z n f s = Err e → ∃ a, f a = Err e.
Proof. rewrite repeat_Z_nat. apply repeat_nat_Err. Qed.

(** A loop whose every iteration consumes at least [c] of a measure that never
      goes below zero cannot succeed more often than the measure allows. *)
Lemma repeat_nat_measure (mu : S → Z) c n s s' :
    (∀ a b, f a = Ok b → mu b + c ≤ mu a)%Z →
    repeat_nat n f s = Ok s' → (mu s' + Z.of_nat n * c ≤ mu s)%Z.
Proof.
    intros Hstep; revert s; induction n as [|n IH]; intros s; simpl.
    - intros [= ->]; lia.
    - intros (a & Ha%Hstep & Hr%IH)%bind_Ok. lia.
Qed.
End loops.

(** The same loop in a function that returns an [Option]. *)
Definition repeat_opt {S} (n : Z) (f : S → option S) (s : S) : option S :=
  result_ok (repeat_Z n (λ s, ok_or (f s) ()) s).

Lemma result_ok_bind {E A B} (m : Result E A) (f : A → Result E B) :
  result_ok (m ≫= f) = (a ← result_ok m; result_ok (f a)).
Proof. by destruct m. Qed.

Lemma result_ok_ok_or {E A} (o : option A) (e : E) : result_ok (ok_or o e) = o.
Proof. by destruct o. Qed.

Lemma result_ok_map_err {E F A} (f : E → F) (r : Result E A) : result_ok (map_err f r) = result_ok r.
Proof. by destruct r. Qed.

Lemma result_ok_Some {E A} (r : Result E A) a : result_ok r = Some a ↔ r = Ok a.
Proof. destruct r; simpl; split; congruence. Qed.

Lemma repeat_result_ok {E F S T} (f : S → Result E S) (g : T → Result F T) (h : S → T) (P : S → Prop) n s :
  (∀ a, P a → result_ok (g (h a)) = h <$> result_ok (f a)) →
  (∀ a b, P a → f a = Ok b → P b) → P s →
  result_ok (repeat_nat n g (h s)) = h <$> result_ok (repeat_nat n f s).
Proof.
  intros Hgf HP. revert s. induction n as [|n IH]; intros s Hs; [done|]. cbn [repeat_nat].
  rewrite !result_ok_bind, Hgf by done. destruct (f s) as [s'|] eqn:Hfs; [|done]. cbn.
  apply IH. eauto.
Qed.

(** ** Stable sorting

    [sort_by le l] is [slice::sort_by] (and [sort_by_key]): a stable sort for the
    comparison [le]. *)

Fixpoint sort_insert {A} (le : A → A → bool) (x : A) (l : list A) : list A :=
  match l with
  | [] => [x]
  | y :: l => if le x y then x :: y :: l else y :: sort_insert le x l
  end.

Definition sort_by {A} (le : A → A → bool) (l : list A) : list A := foldr (sort_insert le) [] l.

Lemma sort_insert_Permutation {A} (le : A → A → bool) x l : sort_insert le x l ≡ₚ x :: l.
Proof.
  induction l as [|y l IH]; [done|]. cbn. destruct (le x y); [done|].
  rewrite IH. apply Permutation_swap.
Qed.

Lemma sort_by_Permutation {A} (le : A → A → bool) l : sort_by le l ≡ₚ l.
Proof.
  induction l as [|x l IH]; [done|]. cbn. rewrite sort_insert_Permutation. by constructor.
Qed.

Lemma elem_of_sort_by {A} (le : A → A → bool) x l : x ∈ sort_by le l ↔ x ∈ l.
Proof. by rewrite (sort_by_Permutation le l). Qed.

Lemma length_sort_by {A} (le : A → A → bool) l : length (sort_by le l) = length l.
Proof. by rewrite (sort_by_Permutation le l). Qed.

Lemma sort_by_StronglySorted {A} (le : A → A → bool) l :
  (∀ x y, le x y = true ∨ le y x = true) →
  (∀ x y z, le x y = true → le y z = true → le x z = true) →
  StronglySorted (λ x y, le x y = true) (sort_by le l).
Proof.
  intros Htot Htr. induction l as [|x l IH]; [constructor|]. cbn.
  assert (∀ k, StronglySorted (λ x y, le x y = true) k →
               StronglySorted (λ x y, le x y = true) (sort_insert le x k)) as Hins; [|by apply Hins].
  induction 1 as [|y k Hk IHk Hall]; cbn; [by repeat constructor|].
  destruct (le x y) eqn:Hxy.
  - constructor; [by constructor|]. constructor; [done|].
    eapply Forall_impl; [exact Hall|]. cbn. eauto.
  - constructor; [done|]. rewrite sort_insert_Permutation. constructor; [|done].
    destruct (Htot x y); congruence.
Qed.

(** ** Tactics shared by the components *)

(** [case_bool] reflects the boolean tests of the code in the goal or the
    hypotheses into propositions and drops the impossible branches. *)
Ltac reflect_bools :=
  repeat match goal with
  | H : _ && _ = true |- _ => apply andb_true_iff in H; destruct H
  | H : _ || _ = false |- _ => apply orb_false_iff in H; destruct H
  | H : negb _ = true |- _ => apply negb_true_iff in H
  | H : negb _ = false |- _ => apply negb_false_iff in H
  | H : (_ =? _)%Z = true |- _ => apply Z.eqb_eq in H
  | H : (_ =? _)%Z = false |- _ => apply Z.eqb_neq in H
  | H : (_ <? _)%Z = true |- _ => apply Z.ltb_lt in H
  | H : (_ <? _)%Z = false |- _ => apply Z.ltb_ge in H
  | H : (_ <=? _)%Z = true |- _ => apply Z.leb_le in H
  | H : (_ <=? _)%Z = false |- _ => apply Z.leb_gt in H
  | H : (_ >? _)%Z = true |- _ => rewrite Z.gtb_ltb in H; apply Z.ltb_lt in H
  | H : (_ >? _)%Z = false |- _ => rewrite Z.gtb_ltb in H; apply Z.ltb_ge in H
  | H : (_ >=? _)%Z = true |- _ => rewrite Z.geb_leb in H; apply Z.leb_le in H
  | H : (_ >=? _)%Z = false |- _ => rewrite Z.geb_leb in H; apply Z.leb_gt in H
  | H : bool_decide _ = true |- _ => apply bool_decide_eq_true in H
  | H : bool_decide _ = false |- _ => apply bool_decide_eq_false in H
  end.
