(* ===== verification/Bytes.v ===== *)
(** * Bytes, fixed-width integers and slices

    The vocabulary every component shares: Rust's [u8] is the Standard Library's
    [byte], a [&[u8]], [Vec<u8>] or [[u8; n]] is a [list byte] (the length of a
    fixed array is a hypothesis where it matters), a [u16]/[u32]/[u64]/[usize]
    is a [Z] whose wrap-around is written out ([usize]: 64 bits).  The
    last part is the jitter of a backoff, with the panic of its empty range. *)

From Stdlib Require Export Strings.Byte.
From S2P Require Export Prelude.

#[local] Open Scope Z_scope.

Abbreviation byte := Init.Byte.byte.
Abbreviation bytes := (list byte).

#[export] Instance byte_eq_dec : EqDecision byte := Byte.byte_eq_dec.

(** ** Bytes as numbers *)

Definition b2z (b : byte) : Z := Z.of_N (Byte.to_N b).

(** [z as u8]: truncation modulo 256. *)
Definition z2b (z : Z) : byte := default x00 (Byte.of_N (Z.to_N (z mod 256))).

Lemma b2z_range b : 0 ≤ b2z b < 256.
Proof. unfold b2z. pose proof (Byte.to_N_bounded b). lia. Qed.

Lemma z2b_b2z b : z2b (b2z b) = b.
Proof.
  unfold z2b. rewrite Z.mod_small by apply b2z_range.
  unfold b2z. by rewrite N2Z.id, Byte.of_to_N.
Qed.

Lemma b2z_z2b z : b2z (z2b z) = z mod 256.
Proof.
  unfold z2b, b2z. pose proof (Z.mod_pos_bound z 256 eq_refl).
  destruct (Byte.of_N (Z.to_N (z mod 256))) as [b|] eqn:E; simpl.
  - apply Byte.to_of_N in E. rewrite E. lia.
  - apply Byte.of_N_None_iff in E. lia.
Qed.

Lemma b2z_inj a b : b2z a = b2z b → a = b.
Proof. intros H. by rewrite <-(z2b_b2z a), <-(z2b_b2z b), H. Qed.

(** ** Machine-width integers *)

Definition u16_max : Z := 2 ^ 16 - 1.
Definition u32_max : Z := 2 ^ 32 - 1.
Definition u64_max : Z := 2 ^ 64 - 1.
Definition usize_max : Z := u64_max.

Definition is_u32 (z : Z) : Prop := 0 ≤ z ≤ u32_max.
Definition is_u64 (z : Z) : Prop := 0 ≤ z ≤ u64_max.

Definition u32_wrap (z : Z) : Z := z mod 2 ^ 32.
Definition u64_wrap (z : Z) : Z := z mod 2 ^ 64.
Definition u32_wrapping_add (a b : Z) : Z := u32_wrap (a + b).
Definition u32_wrapping_mul (a b : Z) : Z := u32_wrap (a * b).

(** [a.checked_add(b)] at 64 bits ([u64] and [usize]). *)
Definition u64_checked_add (a b : Z) : option Z :=
  if a + b <=? u64_max then Some (a + b) else None.

(** [a.saturating_sub(b)] and [a.saturating_add(b)] at 64 bits. *)
Definition saturating_sub (a b : Z) : Z := Z.max 0 (a - b).
Definition u64_saturating_add (a b : Z) : Z := Z.min u64_max (a + b).

Lemma u32_wrap_range z : 0 ≤ u32_wrap z < 2 ^ 32.
Proof. apply Z.mod_pos_bound; lia. Qed.

(** ** Lengths and slices *)

Definition len {A} (l : list A) : Z := Z.of_nat (length l).

Lemma len_nonneg {A} (l : list A) : 0 ≤ len l.
Proof. unfold len; lia. Qed.
Lemma len_nil {A} : len (@nil A) = 0.
Proof. done. Qed.
Lemma len_cons {A} (x : A) l : len (x :: l) = 1 + len l.
Proof. unfold len; simpl; lia. Qed.
Lemma len_app {A} (l k : list A) : len (l ++ k) = len l + len k.
Proof. unfold len; rewrite length_app; lia. Qed.

(** [&l[a..b]] for in-range bounds. *)
Definition slice {A} (l : list A) (a b : Z) : list A :=
  take (Z.to_nat (b - a)) (drop (Z.to_nat a) l).

(** [l.get(a..b)]: [None] out of range. *)
Definition get_range {A} (l : list A) (a b : Z) : option (list A) :=
  if (a <=? b) && (b <=? len l) then Some (slice l a b) else None.

(** [l[i]] where the code has checked the bound: the default is never read. *)
Definition byte_at (l : bytes) (i : Z) : byte := nth (Z.to_nat i) l x00.

Lemma slice_app_l {A} (l k : list A) a b :
  0 ≤ a → b ≤ len l → slice (l ++ k) a b = slice l a b.
Proof.
  intros Ha0 Hb. unfold slice, len in *.
  destruct (decide (length l ≤ Z.to_nat a)%nat) as [Ha|Ha].
  - replace (Z.to_nat (b - a)) with 0%nat by lia. by rewrite !take_0.
  - rewrite drop_app_le by lia. apply take_app_le. rewrite length_drop. lia.
Qed.

Lemma slice_app_r {A} (l k : list A) a b :
  len l ≤ a → slice (l ++ k) a b = slice k (a - len l) (b - len l).
Proof.
  intros Ha. unfold slice, len in *. rewrite drop_app_ge by lia.
  f_equal; [lia|]. f_equal; lia.
Qed.

Lemma slice_all {A} (l : list A) : slice l 0 (len l) = l.
Proof.
  unfold slice, len. rewrite Z.sub_0_r, Nat2Z.id.
  change (Z.to_nat 0) with 0%nat. rewrite drop_0. by rewrite take_ge.
Qed.

(** The window that starts where [l] ends and spans exactly [m]. *)
Lemma slice_middle {A} (l m r : list A) a b :
  a = len l → b = len l + len m → slice (l ++ m ++ r) a b = m.
Proof.
  intros -> ->. rewrite slice_app_r by lia.
  rewrite slice_app_l by lia.
  replace (len l - len l) with 0 by lia.
  replace (len l + len m - len l) with (len m) by lia. apply slice_all.
Qed.

Lemma length_slice {A} (l : list A) a b :
  0 ≤ a → a ≤ b → b ≤ len l → length (slice l a b) = Z.to_nat (b - a).
Proof. unfold slice, len. intros. rewrite length_take, length_drop. lia. Qed.

Lemma get_range_Some {A} (l s : list A) a b :
  get_range l a b = Some s ↔ a ≤ b ∧ b ≤ len l ∧ s = slice l a b.
Proof.
  unfold get_range. destruct (a <=? b) eqn:Ha, (b <=? len l) eqn:Hb;
    simpl; reflect_bools; split; [intros [=<-]; auto|intros (_&_&->); done|..];
    try done; intros (?&?&?); lia.
Qed.

Lemma get_range_length {A} (l s : list A) a b :
  0 ≤ a → get_range l a b = Some s → len s = b - a.
Proof.
  intros ? (?&?&->)%get_range_Some. unfold len. rewrite length_slice; lia.
Qed.

Lemma get_range_middle {A} (l m r : list A) a b :
  a = len l → b = len l + len m → get_range (l ++ m ++ r) a b = Some m.
Proof.
  intros Ha Hb. apply get_range_Some. rewrite (slice_middle l m r) by done.
  pose proof (len_nonneg l). pose proof (len_nonneg m). pose proof (len_nonneg r).
  rewrite !len_app. repeat split; lia.
Qed.

Lemma get_range_middle_eq {A} (w l m r : list A) a b :
  w = l ++ m ++ r → a = len l → b = len l + len m → get_range w a b = Some m.
Proof. intros ->. apply get_range_middle. Qed.

(** ** Little- and big-endian integers

    [le_num] is [from_le_bytes], [le_bytes n] is [to_le_bytes] of an [n]-byte
    integer; [be_num]/[be_bytes] are their big-endian counterparts. *)

Fixpoint le_num (l : bytes) : Z :=
  match l with [] => 0 | b :: t => b2z b + 256 * le_num t end.

Fixpoint le_bytes (n : nat) (z : Z) : bytes :=
  match n with O => [] | S n => z2b z :: le_bytes n (z / 256) end.

Fixpoint be_num (l : bytes) : Z :=
  match l with [] => 0 | b :: t => b2z b * 256 ^ len t + be_num t end.

Definition be_bytes (n : nat) (z : Z) : bytes := rev (le_bytes n z).

Lemma pow256_pos n : 0 ≤ n → 0 < 256 ^ n.
Proof. intros. by apply Z.pow_pos_nonneg. Qed.

Lemma pow256_succ {A} (x : A) l : 256 ^ len (x :: l) = 256 * 256 ^ len l.
Proof. rewrite len_cons, Z.pow_add_r; [done|lia|apply len_nonneg]. Qed.

Lemma pow256_S n : 256 ^ Z.of_nat (S n) = 256 * 256 ^ Z.of_nat n.
Proof. rewrite Nat2Z.inj_succ, Z.pow_succ_r; lia. Qed.

Lemma le_num_range l : 0 ≤ le_num l < 256 ^ len l.
Proof.
  induction l as [|b l IH]; [done|]. rewrite pow256_succ. simpl.
  pose proof (b2z_range b). lia.
Qed.

Lemma length_le_bytes n z : length (le_bytes n z) = n.
Proof. revert z; induction n; intros; simpl; auto. Qed.

Lemma len_le_bytes n z : len (le_bytes n z) = Z.of_nat n.
Proof. unfold len. by rewrite length_le_bytes. Qed.

Lemma le_num_bytes n z : le_num (le_bytes n z) = z mod 256 ^ Z.of_nat n.
Proof.
  revert z; induction n as [|n IH]; intros z.
  - simpl. by rewrite Z.mod_1_r.
  - cbn [le_bytes le_num]. rewrite IH, pow256_S, b2z_z2b.
    pose proof (pow256_pos (Z.of_nat n) ltac:(lia)).
    rewrite (Z.rem_mul_r z 256) by lia. done.
Qed.

Lemma le_bytes_num l : le_bytes (length l) (le_num l) = l.
Proof.
  induction l as [|b l IH]; [done|]. simpl.
  replace (b2z b + 256 * le_num l) with (b2z b + le_num l * 256) by lia.
  rewrite Z.div_add, (Z.div_small (b2z b)) by (try apply b2z_range; lia).
  rewrite Z.add_0_l, IH. f_equal.
  apply b2z_inj. rewrite b2z_z2b, Z.mod_add, Z.mod_small; [done|apply b2z_range|lia].
Qed.

Lemma le_num_inj l k : length l = length k → le_num l = le_num k → l = k.
Proof. intros Hl Hn. by rewrite <-(le_bytes_num l), <-(le_bytes_num k), Hl, Hn. Qed.

Lemma le_num_app l k : le_num (l ++ k) = le_num l + 256 ^ len l * le_num k.
Proof.
  induction l as [|b l IH].
  - change (len (@nil byte)) with 0. simpl. lia.
  - rewrite pow256_succ. simpl. lia.
Qed.

Lemma be_num_rev l : be_num l = le_num (rev l).
Proof.
  induction l as [|b l IH]; [done|]. simpl. rewrite le_num_app, IH. simpl.
  unfold len. rewrite length_rev. lia.
Qed.

Lemma be_num_app l k : be_num (l ++ k) = be_num l * 256 ^ len k + be_num k.
Proof.
  induction l as [|b l IH]; [simpl; lia|]. simpl. rewrite IH, len_app, Z.pow_add_r.
  - lia.
  - apply len_nonneg.
  - apply len_nonneg.
Qed.

Lemma be_num_range l : 0 ≤ be_num l < 256 ^ len l.
Proof.
  rewrite be_num_rev. pose proof (le_num_range (rev l)) as H.
  unfold len in *. by rewrite length_rev in H.
Qed.

Lemma length_be_bytes n z : length (be_bytes n z) = n.
Proof. unfold be_bytes. by rewrite length_rev, length_le_bytes. Qed.

Lemma len_be_bytes n z : len (be_bytes n z) = Z.of_nat n.
Proof. unfold len. by rewrite length_be_bytes. Qed.

Lemma be_num_bytes n z : be_num (be_bytes n z) = z mod 256 ^ Z.of_nat n.
Proof. unfold be_bytes. by rewrite be_num_rev, rev_involutive, le_num_bytes. Qed.

Lemma be_bytes_num l : be_bytes (length l) (be_num l) = l.
Proof.
  unfold be_bytes. rewrite be_num_rev, <-(length_rev l), le_bytes_num.
  apply rev_involutive.
Qed.

Lemma be_num_inj l k : length l = length k → be_num l = be_num k → l = k.
Proof. intros Hl Hn. by rewrite <-(be_bytes_num l), <-(be_bytes_num k), Hl, Hn. Qed.

(** A value that fits its width survives the trip through its bytes. *)
Lemma le_num_bytes_small n z :
  0 ≤ z < 256 ^ Z.of_nat n → le_num (le_bytes n z) = z.
Proof. intros. rewrite le_num_bytes. by apply Z.mod_small. Qed.

Lemma be_num_bytes_small n z :
  0 ≤ z < 256 ^ Z.of_nat n → be_num (be_bytes n z) = z.
Proof. intros. rewrite be_num_bytes. by apply Z.mod_small. Qed.

(** The two widths the wire formats use. *)
Definition u32_le_bytes (z : Z) : bytes := le_bytes 4 z.
Definition u64_le_bytes (z : Z) : bytes := le_bytes 8 z.

Lemma le_num_u32 z : is_u32 z → le_num (le_bytes 4 z) = z.
Proof. unfold is_u32, u32_max. intros. apply le_num_bytes_small. simpl. lia. Qed.
Lemma le_num_u64 z : is_u64 z → le_num (le_bytes 8 z) = z.
Proof. unfold is_u64, u64_max. intros. apply le_num_bytes_small. simpl. lia. Qed.
Lemma be_num_u32 z : is_u32 z → be_num (be_bytes 4 z) = z.
Proof. unfold is_u32, u32_max. intros. apply be_num_bytes_small. simpl. lia. Qed.
Lemma be_num_u64 z : is_u64 z → be_num (be_bytes 8 z) = z.
Proof. unfold is_u64, u64_max. intros. apply be_num_bytes_small. simpl. lia. Qed.

(** Hint database of the byte layer: lengths and ranges that side conditions
    keep asking for. *)
Create HintDb bytes discriminated.
#[export] Hint Resolve b2z_range le_num_range be_num_range u32_wrap_range
  len_nonneg length_le_bytes length_be_bytes len_le_bytes len_be_bytes : bytes.
Create Rewrite HintDb len.
#[export] Hint Rewrite @len_app @len_cons @len_nil len_le_bytes len_be_bytes : len.

(** ** The jitter of a backoff

    Of both clients and of the ingest loop; the cap is in milliseconds. *)

(** [fastrand::u64(0..capped.as_millis() as u64 + 1)]: the addition wraps, and an empty
    range is a panic. *)
Definition jitter_range (capped : Z) : Z := u64_wrap (u64_wrap capped + 1).
Definition jittered (capped random : Z) : option Z :=
  if jitter_range capped =? 0 then None else Some (random mod jitter_range capped).

(** The jitter stays under the cap; the range is empty exactly when the cap is the
    last [u64], modulo the width. *)
Lemma jittered_bound capped random ms : 0 ≤ capped → jittered capped random = Some ms → 0 ≤ ms ≤ capped.
Proof.
  unfold jittered, jitter_range. intros Hc. destruct (_ =? 0) eqn:Hz; [done|]. reflect_bools. intros [= <-].
  pose proof (Z.mod_pos_bound (u64_wrap capped + 1) (2 ^ 64)) as Hw. unfold u64_wrap in *.
  pose proof (Z.mod_le capped (2 ^ 64)). pose proof (Z.mod_le (capped mod 2 ^ 64 + 1) (2 ^ 64)).
  pose proof (Z.mod_pos_bound capped (2 ^ 64)).
  pose proof (Z.mod_pos_bound random ((capped mod 2 ^ 64 + 1) mod 2 ^ 64)). lia.
Qed.
Lemma jittered_Some capped random : 0 ≤ capped < u64_max → ∃ ms, jittered capped random = Some ms.
Proof.
  intros Hc. unfold jittered, jitter_range, u64_wrap, u64_max in *.
  rewrite (Z.mod_small capped), Z.mod_small by lia. destruct (_ =? 0) eqn:Hz; [reflect_bools; lia|by eexists].
Qed.
Lemma jittered_None capped random : 0 ≤ capped → jittered capped random = None → u64_max ≤ capped.
Proof.
  intros Hc Hn. destruct (decide (capped < u64_max)) as [Hlt|]; [|lia].
  destruct (jittered_Some capped random) as [ms Hs]; [lia|]. congruence.
Qed.
Lemma jittered_empty random : jittered u64_max random = None.
Proof. reflexivity. Qed.
