(* ===== verification/U256.v ===== *)
(** * 256-bit chain work and compact targets

    The big-endian 256-bit arithmetic of [crates/common/src/lib.rs]: addition,
    increment, shift, comparison, subtraction, long division, [block_work], and
    the compact-target decoder [expand_target] with its comparison
    [target_leq].  A [[u8; 32]] is a byte list; the loops [for i in (0..32).rev()]
    are right folds.  The theorems relate every routine to the integers through
    [be_num]. *)

From S2P Require Export Bytes.

#[local] Open Scope Z_scope.

Definition zero32 : bytes := replicate 32 x00.
Definition two256 : Z := 256 ^ 32.

(** ** Operations *)

Definition u256_add_step (p : byte * byte) (st : Z * bytes) : Z * bytes :=
  let s := b2z p.1 + b2z p.2 + st.1 in
  (Z.shiftr s 8, z2b (Z.land s 255) :: st.2).

Definition u256_add_be (acc addend : bytes) : bytes :=
  (foldr u256_add_step (0, []) (zip acc addend)).2.

(** The flag is [true] while the loop has not returned, that is, while the
    increment still carries. *)
Fixpoint u256_add_one (value : bytes) : bytes * bool :=
  match value with
  | [] => ([], true)
  | b :: t =>
      let '(t', carrying) := u256_add_one t in
      if carrying then (z2b (b2z b + 1) :: t', 255 <? b2z b + 1)
      else (b :: t', false)
  end.

Definition u256_shl1_step (b : byte) (st : Z * bytes) : Z * bytes :=
  let new_carry := Z.shiftr (b2z b) 7 in
  (new_carry, z2b (Z.lor (Z.land (Z.shiftl (b2z b) 1) 255) st.1) :: st.2).

Definition u256_shl1 (v : bytes) : bytes := (foldr u256_shl1_step (0, []) v).2.

Fixpoint u256_ge (a b : bytes) : bool :=
  match a, b with
  | x :: a, y :: b => if b2z x =? b2z y then u256_ge a b else b2z x >? b2z y
  | _, _ => true
  end.

Definition u256_sub_step (p : byte * byte) (st : Z * bytes) : Z * bytes :=
  let diff := b2z p.1 - b2z p.2 - st.1 in
  if diff <? 0 then (1, z2b (diff + 256) :: st.2) else (0, z2b diff :: st.2).

Definition u256_sub (a b : bytes) : bytes :=
  (foldr u256_sub_step (0, []) (zip a b)).2.

(** One round of the long division, at bit [i] from the top. *)
Definition u256_divmod_step (num den : bytes) (st : bytes * bytes) (i : nat) :
    bytes * bytes :=
  let '(q, r) := st in
  let r := u256_shl1 r in
  let byte := (i / 8)%nat in
  let bit := 7 - Z.of_nat (i mod 8)%nat in
  let r := if Z.land (Z.shiftr (b2z (byte_at num (Z.of_nat byte))) bit) 1 =? 1
           then alter (λ b, z2b (Z.lor (b2z b) 1)) 31%nat r else r in
  if u256_ge r den
  then (alter (λ b, z2b (Z.lor (b2z b) (Z.shiftl 1 bit))) byte q, u256_sub r den)
  else (q, r).

(** [None] is the panic of [assert!(den != [0u8; 32])]. *)
Definition u256_divmod (num den : bytes) : option (bytes * bytes) :=
  if decide (den = zero32) then None
  else Some (foldl (u256_divmod_step num den) (zero32, zero32) (seq 0 256)).

Definition not_bytes (l : bytes) : bytes := map (λ b, z2b (255 - b2z b)) l.

(** [None] is a panic inside [u256_divmod]; [block_work_total] rules it out. *)
Definition block_work (target_be : bytes) : option bytes :=
  let '(denom, denom_overflow) := u256_add_one target_be in
  if denom_overflow then Some (<[31%nat := x01]> zero32)
  else
    let num := not_bytes target_be in
    '(q, _) ← u256_divmod num denom;
    let '(work, _) := u256_add_one q in
    Some work.

Definition expand_target (bits : Z) : option bytes :=
  let size := Z.shiftr bits 24 in
  let word := Z.land bits 0x007fffff in
  if word =? 0 then None
  else if negb (Z.land bits 0x00800000 =? 0) then None
  else if (34 <? size) || ((0xff <? word) && (33 <? size))
          || ((0xffff <? word) && (32 <? size)) then None
  else
    if size <=? 3 then
      let w := Z.shiftr word (8 * (3 - size)) in
      Some (<[31%nat := z2b w]> (<[30%nat := z2b (Z.shiftr w 8)]>
              (<[29%nat := z2b (Z.shiftr w 16)]> zero32)))
    else
      let lsb := Z.to_nat (34 - size) in
      let target := <[lsb := z2b word]> zero32 in
      let target := if (1 <=? lsb)%nat
                    then <[(lsb - 1)%nat := z2b (Z.shiftr word 8)]> target else target in
      let target := if (2 <=? lsb)%nat
                    then <[(lsb - 2)%nat := z2b (Z.shiftr word 16)]> target else target in
      Some target.

Fixpoint target_leq (a b : bytes) : bool :=
  match a, b with
  | x :: a, y :: b => if b2z x =? b2z y then target_leq a b else b2z x <? b2z y
  | _, _ => true
  end.

(** ** Value lemmas of the primitive loops *)

Lemma land_255 z : Z.land z 255 = z mod 256.
Proof. change 255 with (Z.ones 8). by rewrite Z.land_ones. Qed.

Lemma shiftr_8 z : Z.shiftr z 8 = z / 256.
Proof. by rewrite Z.shiftr_div_pow2. Qed.

Lemma be_num_zero32 : be_num zero32 = 0.
Proof. done. Qed.

Lemma length_zero32 : length zero32 = 32%nat.
Proof. done. Qed.

Lemma len32 (l : bytes) : length l = 32%nat → len l = 32.
Proof. unfold len. by intros ->. Qed.

Lemma u256_add_fold a b :
  length a = length b →
  let '(c, out) := foldr u256_add_step (0, []) (zip a b) in
  length out = length a ∧ 0 ≤ c ≤ 1 ∧
  be_num out + c * 256 ^ len a = be_num a + be_num b.
Proof.
  revert b; induction a as [|x a IH]; intros [|y b] Hl; try done.
  injection Hl as Hl. specialize (IH b Hl). cbn [zip zip_with foldr].
  destruct (foldr _ _ _) as [c out]. destruct IH as (Hlen & Hc & IH).
  cbn [u256_add_step fst snd be_num]. rewrite land_255, shiftr_8, b2z_z2b, Z.mod_mod by lia.
  pose proof (b2z_range x). pose proof (b2z_range y).
  split; [by simpl; rewrite Hlen|]. split.
  { split; [apply Z.div_pos; lia|]. apply Z.lt_succ_r, Z.div_lt_upper_bound; lia. }
  rewrite pow256_succ.
  replace (len out) with (len a) by (unfold len; congruence).
  replace (len b) with (len a) by (unfold len; congruence).
  pose proof (Z.div_mod (b2z x + b2z y + c) 256 ltac:(lia)). nia.
Qed.

Lemma u256_add_one_spec v :
  let '(out, carry) := u256_add_one v in
  length out = length v ∧
  be_num out + (if carry then 256 ^ len v else 0) = be_num v + 1.
Proof.
  induction v as [|b v IH]; [done|]. cbn [u256_add_one].
  destruct (u256_add_one v) as [out carry]. destruct IH as [Hlen IH].
  assert (len out = len v) as Hl by (unfold len; congruence).
  destruct carry; cbn [be_num]; rewrite Hl, ?pow256_succ;
    (split; [simpl; congruence|]); [|lia].
  rewrite b2z_z2b. pose proof (b2z_range b).
  destruct (255 <? b2z b + 1) eqn:E; reflect_bools.
  - assert (b2z b = 255) as -> by lia. change ((255 + 1) mod 256) with 0. lia.
  - rewrite Z.mod_small by lia. lia.
Qed.

Lemma shl1_byte b c :
  0 ≤ c ≤ 1 →
  b2z (z2b (Z.lor (Z.land (Z.shiftl (b2z b) 1) 255) c))
  + 256 * Z.shiftr (b2z b) 7 = 2 * b2z b + c.
Proof. intros Hc. assert (c = 0 ∨ c = 1) as [->| ->] by lia; by destruct b. Qed.

Lemma u256_shl1_fold v :
  let '(c, out) := foldr u256_shl1_step (0, []) v in
  length out = length v ∧ 0 ≤ c ≤ 1 ∧ be_num out + c * 256 ^ len v = 2 * be_num v.
Proof.
  induction v as [|b v IH]; [done|]. cbn [foldr].
  destruct (foldr _ _ _) as [c out]. destruct IH as (Hlen & Hc & IH).
  cbn [u256_shl1_step fst snd be_num]. split; [simpl; congruence|].
  replace (len out) with (len v) by (unfold len; congruence).
  rewrite pow256_succ. pose proof (shl1_byte b c Hc). pose proof (b2z_range b).
  split; [|nia].
  rewrite Z.shiftr_div_pow2 by lia. change (2 ^ 7) with 128.
  split; [apply Z.div_pos; lia|]. apply Z.lt_succ_r, Z.div_lt_upper_bound; lia.
Qed.

Lemma be_num_cons_compare x y a b :
  length a = length b →
  (b2z x < b2z y → be_num (x :: a) < be_num (y :: b)) ∧
  (b2z x = b2z y → be_num (x :: a) - be_num (y :: b) = be_num a - be_num b).
Proof.
  intros Hl. cbn [be_num]. replace (len b) with (len a) by (unfold len; congruence).
  pose proof (be_num_range a). pose proof (be_num_range b).
  assert (len b = len a) as Hlen by (unfold len; congruence). rewrite Hlen in *.
  split; intros; nia.
Qed.

Lemma u256_ge_spec a b :
  length a = length b → u256_ge a b = (be_num b <=? be_num a).
Proof.
  revert b; induction a as [|x a IH]; intros [|y b] Hl; try done.
  injection Hl as Hl. cbn [u256_ge].
  destruct (be_num_cons_compare x y a b Hl) as [Hlt Heq].
  destruct (be_num_cons_compare y x b a (eq_sym Hl)) as [Hgt _].
  destruct (b2z x =? b2z y) eqn:E; reflect_bools.
  - rewrite (IH b Hl). apply eq_true_iff_eq. rewrite !Z.leb_le. lia.
  - rewrite Z.gtb_ltb. apply eq_true_iff_eq. rewrite Z.leb_le, Z.ltb_lt. lia.
Qed.

Lemma target_leq_spec a b :
  length a = length b → target_leq a b = (be_num a <=? be_num b).
Proof.
  revert b; induction a as [|x a IH]; intros [|y b] Hl; try done.
  injection Hl as Hl. cbn [target_leq].
  destruct (be_num_cons_compare x y a b Hl) as [Hlt Heq].
  destruct (be_num_cons_compare y x b a (eq_sym Hl)) as [Hgt _].
  destruct (b2z x =? b2z y) eqn:E; reflect_bools.
  - rewrite (IH b Hl). apply eq_true_iff_eq. rewrite !Z.leb_le. lia.
  - apply eq_true_iff_eq. rewrite Z.leb_le, Z.ltb_lt. lia.
Qed.

Lemma u256_sub_fold a b :
  length a = length b →
  let '(c, out) := foldr u256_sub_step (0, []) (zip a b) in
  length out = length a ∧ 0 ≤ c ≤ 1 ∧
  be_num out - c * 256 ^ len a = be_num a - be_num b.
Proof.
  revert b; induction a as [|x a IH]; intros [|y b] Hl; try done.
  injection Hl as Hl. specialize (IH b Hl). cbn [zip zip_with foldr].
  destruct (foldr _ _ _) as [c out]. destruct IH as (Hlen & Hc & IH).
  unfold u256_sub_step. cbn [fst snd]. pose proof (b2z_range x). pose proof (b2z_range y).
  assert (len out = len a) as Ho by (unfold len; congruence).
  assert (len b = len a) as Hb by (unfold len; congruence).
  destruct (b2z x - b2z y - c <? 0) eqn:E; reflect_bools; cbn [be_num];
    rewrite b2z_z2b, Z.mod_small, pow256_succ, Ho, Hb by lia;
    (split; [simpl; congruence|]); nia.
Qed.

(** ** Bytes and bits of a big-endian number *)

Lemma be_num_alter f k l x :
  l !! k = Some x →
  be_num (alter f k l)
  = be_num l + (b2z (f x) - b2z x) * 256 ^ (len l - 1 - Z.of_nat k).
Proof.
  revert k; induction l as [|b l IH]; intros k Hk; [done|].
  destruct k as [|k]; simpl in Hk.
  - injection Hk as ->. change (alter f 0%nat (x :: l)) with (f x :: l).
    cbn [be_num]. rewrite len_cons. change (Z.of_nat 0) with 0.
    replace (1 + len l - 1 - 0) with (len l) by lia. lia.
  - change (alter f (S k) (b :: l)) with (b :: alter f k l). cbn [be_num].
    rewrite (IH k Hk), len_cons.
    replace (len (alter f k l)) with (len l) by (unfold len; by rewrite length_alter).
    replace (1 + len l - 1 - Z.of_nat (S k)) with (len l - 1 - Z.of_nat k) by lia. lia.
Qed.

Lemma be_num_byte k l x :
  l !! k = Some x →
  b2z x = (be_num l / 256 ^ (len l - 1 - Z.of_nat k)) mod 256.
Proof.
  intros Hk. pose proof (lookup_lt_Some _ _ _ Hk) as Hlt.
  rewrite <-(take_drop_middle l k x Hk) at 1. rewrite be_num_app. cbn [be_num].
  assert (len l - 1 - Z.of_nat k = len (drop (S k) l)) as ->.
  { unfold len. rewrite length_drop. lia. }
  rewrite len_cons. set (n := len (drop (S k) l)). set (t := be_num (take k l)).
  pose proof (be_num_range (drop (S k) l)) as Hr. fold n in Hr.
  assert (0 ≤ n) by apply len_nonneg.
  replace (t * 256 ^ (1 + n) + (b2z x * 256 ^ n + be_num (drop (S k) l)))
    with (be_num (drop (S k) l) + (t * 256 + b2z x) * 256 ^ n)
    by (rewrite Z.pow_add_r by lia; lia).
  rewrite Z.div_add, Z.div_small, Z.add_0_l by lia.
  rewrite Z.add_comm, Z.mod_add by lia. rewrite Z.mod_small; [done|apply b2z_range].
Qed.

Lemma byte_bit l k x j :
  l !! k = Some x → 0 ≤ j < 8 →
  Z.testbit (b2z x) j = Z.testbit (be_num l) (8 * (len l - 1 - Z.of_nat k) + j).
Proof.
  intros Hk Hj. rewrite (be_num_byte k l x Hk).
  pose proof (lookup_lt_Some _ _ _ Hk) as Hlt.
  assert (0 ≤ len l - 1 - Z.of_nat k) by (unfold len; lia).
  change 256 with (2 ^ 8). rewrite <-Z.pow_mul_r by lia.
  rewrite Z.mod_pow2_bits_low by lia. rewrite Z.div_pow2_bits by lia. f_equal; lia.
Qed.

Lemma shiftr_land_1 z j :
  (Z.land (Z.shiftr z j) 1 =? 1) = Z.testbit z j.
Proof.
  change 1 with (Z.ones 1) at 1. rewrite Z.land_ones by lia. change (2 ^ 1) with 2.
  rewrite <-Z.bit0_mod. rewrite Z.shiftr_spec by lia. rewrite Z.add_0_l.
  by destruct (Z.testbit z j).
Qed.

Lemma set_bit_byte b j :
  0 ≤ j < 8 → Z.testbit (b2z b) j = false →
  b2z (z2b (Z.lor (b2z b) (Z.shiftl 1 j))) = b2z b + 2 ^ j.
Proof.
  intros Hj.
  assert (j = 0 ∨ j = 1 ∨ j = 2 ∨ j = 3 ∨ j = 4 ∨ j = 5 ∨ j = 6 ∨ j = 7) as Hc by lia.
  destruct Hc as [->|[->|[->|[->|[->|[->|[->| ->]]]]]]]; by destruct b.
Qed.

Lemma testbit_0_mul a n k : 0 ≤ k < n → Z.testbit (a * 2 ^ n) k = false.
Proof. intros. apply Z.mul_pow2_bits_low. lia. Qed.

(** ** Long division *)

Section divmod.
Context (num den : bytes).
Context (Hnum : length num = 32%nat) (Hden : length den = 32%nat).
Context (Hpos : 0 < be_num den).

#[local] Abbreviation N := (be_num num).
#[local] Abbreviation D := (be_num den).

(** After [i] rounds the remainder and the quotient are those of the top [i]
      bits of the numerator. *)
Definition divmod_inv (i : nat) (st : bytes * bytes) : Prop :=
    let P := N / 2 ^ (256 - Z.of_nat i) in
    length st.1 = 32%nat ∧ length st.2 = 32%nat ∧
    be_num st.2 = P mod D ∧ be_num st.1 = P / D * 2 ^ (256 - Z.of_nat i).

Lemma prefix_bound i :
    (i ≤ 256)%nat → 0 ≤ N / 2 ^ (256 - Z.of_nat i) < 2 ^ Z.of_nat i.
Proof.
    intros Hi. pose proof (be_num_range num) as [H0 H1]. rewrite len32 in H1 by done.
    split; [apply Z.div_pos; lia|]. apply Z.div_lt_upper_bound; [lia|].
    rewrite <-Z.pow_add_r by lia.
    replace (256 - Z.of_nat i + Z.of_nat i) with 256 by lia. done.
Qed.

Lemma prefix_step i :
    (i < 256)%nat →
    N / 2 ^ (256 - Z.of_nat (S i))
    = 2 * (N / 2 ^ (256 - Z.of_nat i)) + Z.b2z (Z.testbit N (255 - Z.of_nat i)).
Proof.
    intros Hi. set (k := 255 - Z.of_nat i).
    replace (256 - Z.of_nat (S i)) with k by lia.
    replace (256 - Z.of_nat i) with (k + 1) by lia.
    rewrite Z.pow_add_r, <-Z.div_div by lia. change (2 ^ 1) with 2.
    rewrite <-(Z.add_0_l k) at 3. rewrite <-Z.div_pow2_bits by lia.
    rewrite Z.bit0_mod. apply Z.div_mod. lia.
Qed.

Lemma shl1_value r :
    length r = 32%nat → be_num r < 2 ^ 255 →
    length (u256_shl1 r) = 32%nat ∧ be_num (u256_shl1 r) = 2 * be_num r.
Proof.
    intros Hr Hlt. pose proof (u256_shl1_fold r) as H. unfold u256_shl1.
    destruct (foldr _ _ r) as [c out]; simpl. destruct H as (Hl & Hc & Hv).
    split; [lia|]. rewrite len32 in Hv by done.
    pose proof (be_num_range out). change (256 ^ 32) with (2 * 2 ^ 255) in Hv. nia.
Qed.

(** [r |= 1] on an even remainder adds one. *)
Lemma or_one_value r :
    length r = 32%nat → Z.even (be_num r) = true →
    be_num (alter (λ b, z2b (Z.lor (b2z b) 1)) 31%nat r) = be_num r + 1.
Proof.
    intros Hr Heven.
    destruct (lookup_lt_is_Some_2 r 31) as [x Hx]; [lia|].
    rewrite (be_num_alter _ _ _ x Hx), len32 by done.
    change 1 with (Z.shiftl 1 0) at 1. rewrite set_bit_byte.
    - change (256 ^ (32 - 1 - Z.of_nat 31)) with 1. lia.
    - lia.
    - rewrite (byte_bit r 31 x 0 Hx), len32 by (done || lia).
      change (8 * _ + 0) with 0. rewrite Z.bit0_odd, <-Z.negb_even, Heven. done.
Qed.

(** [q[i / 8] |= 1 << (7 - i % 8)] on a clear bit adds [2 ^ (255 - i)]. *)
Lemma or_bit_value q i :
    (i < 256)%nat → length q = 32%nat →
    Z.testbit (be_num q) (255 - Z.of_nat i) = false →
    be_num (alter (λ b, z2b (Z.lor (b2z b) (Z.shiftl 1 (7 - Z.of_nat (i mod 8)%nat))))
              (i / 8)%nat q)
    = be_num q + 2 ^ (255 - Z.of_nat i).
Proof.
    intros Hi Hq Hbit.
    pose proof (Nat.div_mod_eq i 8) as Hdm.
    pose proof (Nat.mod_upper_bound i 8 ltac:(lia)) as Hmod.
    destruct (lookup_lt_is_Some_2 q (i / 8)%nat) as [x Hx]; [lia|].
    rewrite (be_num_alter _ _ _ x Hx), len32 by done.
    rewrite set_bit_byte; [|lia|].
    - change 256 with (2 ^ 8). rewrite <-Z.pow_mul_r by lia.
      replace (b2z x + 2 ^ (7 - Z.of_nat (i mod 8)) - b2z x)
        with (2 ^ (7 - Z.of_nat (i mod 8))) by lia.
      rewrite <-Z.pow_add_r by lia. f_equal. f_equal. lia.
    - rewrite (byte_bit q _ x _ Hx), len32 by (done || lia).
      rewrite <-Hbit. f_equal. lia.
Qed.

Lemma num_bit i :
    (i < 256)%nat →
    (Z.land (Z.shiftr (b2z (byte_at num (Z.of_nat (i / 8))))
                      (7 - Z.of_nat (i mod 8)%nat)) 1 =? 1)
    = Z.testbit N (255 - Z.of_nat i).
Proof.
    intros Hi.
    pose proof (Nat.div_mod_eq i 8) as Hdm.
    pose proof (Nat.mod_upper_bound i 8 ltac:(lia)) as Hmod.
    destruct (lookup_lt_is_Some_2 num (i / 8)%nat) as [x Hx]; [lia|].
    unfold byte_at. rewrite Nat2Z.id, (nth_lookup_Some num _ x00 x Hx).
    rewrite shiftr_land_1, (byte_bit num _ x _ Hx), len32 by (done || lia).
    f_equal. lia.
Qed.

(** The shifted-in bit of the numerator: the running remainder doubles and
      takes it. *)
Lemma take_bit_value i r :
    (i < 256)%nat → length r = 32%nat → be_num r ≤ N / 2 ^ (256 - Z.of_nat i) →
    let r1 := u256_shl1 r in
    let e := Z.testbit N (255 - Z.of_nat i) in
    let r2 := if e then alter (λ b, z2b (Z.lor (b2z b) 1)) 31%nat r1 else r1 in
    length r2 = 32%nat ∧ be_num r2 = 2 * be_num r + Z.b2z e.
Proof.
    intros Hi Hr Hle r1 e r2. pose proof (prefix_bound i ltac:(lia)) as HP.
    destruct (shl1_value r Hr) as [Hr1 Hv1].
    { eapply Z.le_lt_trans; [apply Hle|]. eapply Z.lt_le_trans; [apply HP|].
      apply Z.pow_le_mono_r; lia. }
    unfold r2, r1. destruct e; cbn [Z.b2z]; [|split; [done|lia]].
    rewrite length_alter. split; [done|]. rewrite or_one_value, Hv1; [lia|done|].
    rewrite Hv1, Z.even_mul. done.
Qed.

Lemma sub_value r :
    length r = 32%nat → D ≤ be_num r →
    length (u256_sub r den) = 32%nat ∧ be_num (u256_sub r den) = be_num r - D.
Proof.
    intros Hr Hle. pose proof (u256_sub_fold r den ltac:(congruence)) as Hsub.
    unfold u256_sub. destruct (foldr _ _ (zip r den)) as [c out]; cbn [snd].
    destruct Hsub as (Hlo & Hc & Hvo). rewrite len32 in Hvo by done.
    pose proof (be_num_range out) as Hro. rewrite len32 in Hro by lia.
    split; [lia | nia].
Qed.

Lemma divmod_step_inv i st :
    (i < 256)%nat → divmod_inv i st → divmod_inv (S i) (u256_divmod_step num den st i).
Proof.
    destruct st as [q r]. intros Hi (Hq & Hr & Hrem & Hquo).
    cbn [fst snd] in Hq, Hr, Hrem, Hquo. pose proof (prefix_bound i ltac:(lia)) as HP.
    pose proof (Z.mod_pos_bound (N / 2 ^ (256 - Z.of_nat i)) D Hpos) as HR.
    pose proof (Z.div_mod (N / 2 ^ (256 - Z.of_nat i)) D ltac:(lia)) as HDM.
    unfold u256_divmod_step. rewrite num_bit by done.
    destruct (take_bit_value i r Hi Hr) as [Hr2 Hv2].
    { rewrite Hrem. apply Z.mod_le; lia. }
    cbv zeta in Hr2, Hv2 |- *.
    set (e := Z.testbit N (255 - Z.of_nat i)) in *.
    set (r2 := if e then _ else _) in *.
    pose proof (prefix_step i Hi) as HS. fold e in HS.
    set (P := N / 2 ^ (256 - Z.of_nat i)) in *. rewrite (u256_ge_spec r2 den) by congruence.
    assert (0 ≤ Z.b2z e ≤ 1) as He by (destruct e; simpl; lia).
    assert (2 ^ (256 - Z.of_nat i) = 2 * 2 ^ (255 - Z.of_nat i)) as Hpow.
    { rewrite <-Z.pow_succ_r by lia. f_equal. lia. }
    unfold divmod_inv. rewrite HS.
    replace (256 - Z.of_nat (S i)) with (255 - Z.of_nat i) by lia.
    destruct (D <=? be_num r2) eqn:Hcmp; reflect_bools; cbn [fst snd].
    - destruct (sub_value r2 Hr2 Hcmp) as [Hlo Hvo].
      assert ((2 * P + Z.b2z e) / D = 2 * (P / D) + 1) as Hd.
      { symmetry. apply (Z.div_unique_pos _ _ _ (be_num (u256_sub r2 den))); lia. }
      rewrite length_alter, or_bit_value by (try done; rewrite Hquo; apply testbit_0_mul; lia).
      rewrite Z.mod_eq, Hquo, Hd by lia. repeat split; [done..|lia|lia].
    - assert ((2 * P + Z.b2z e) / D = 2 * (P / D)) as Hd.
      { symmetry. apply (Z.div_unique_pos _ _ _ (be_num r2)); lia. }
      rewrite Z.mod_eq, Hquo, Hd by lia. repeat split; [done..|lia|lia].
Qed.

Lemma divmod_loop_inv n st i :
    (i + n ≤ 256)%nat → divmod_inv i st →
    divmod_inv (i + n) (foldl (u256_divmod_step num den) st (seq i n)).
Proof.
    revert st i; induction n as [|n IH]; intros st i Hi Hst.
    - by rewrite Nat.add_0_r.
    - cbn [seq foldl]. rewrite <-Nat.add_succ_comm.
      apply IH; [lia|]. apply divmod_step_inv; [lia|done].
Qed.

Lemma u256_divmod_spec :
    ∃ q r, u256_divmod num den = Some (q, r) ∧
           length q = 32%nat ∧ length r = 32%nat ∧
           be_num q = N / D ∧ be_num r = N mod D.
Proof.
    unfold u256_divmod. destruct (decide (den = zero32)) as [->|_].
    { rewrite be_num_zero32 in Hpos. lia. }
    destruct (foldl _ _ _) as [q r] eqn:E. exists q, r. split; [done|].
    pose proof (divmod_loop_inv 256 (zero32, zero32) 0 ltac:(lia)) as H.
    rewrite E in H. destruct H as (Hq & Hr & Hrem & Hquo).
    - pose proof (be_num_range num) as Hn. rewrite len32 in Hn by done.
      unfold divmod_inv. change (256 - Z.of_nat 0) with 256.
      change (256 ^ 32) with (2 ^ 256) in Hn. rewrite Z.div_small by done. done.
    - cbn [fst snd] in *. change (256 - Z.of_nat (0 + 256)) with 0 in *.
      change (2 ^ 0) with 1 in *. rewrite Z.div_1_r in Hrem, Hquo.
      repeat split; [done..|lia|done].
Qed.
End divmod.

(** ** Functional correctness *)

Lemma be_num_not_bytes l : be_num (not_bytes l) = 256 ^ len l - 1 - be_num l.
Proof.
  induction l as [|b l IH]; [done|]. rewrite pow256_succ. cbn [not_bytes map be_num].
  fold (not_bytes l). rewrite IH.
  assert (len (not_bytes l) = len l) as ->.
  { unfold len, not_bytes. by rewrite length_map. }
  rewrite b2z_z2b, Z.mod_small by (pose proof (b2z_range b); lia). lia.
Qed.

Lemma block_work_value t :
  length t = 32%nat →
  ∃ w, block_work t = Some w ∧ length w = 32%nat ∧
       be_num w = (two256 / (be_num t + 1)) mod two256.
Proof.
  intros Ht. unfold block_work. pose proof (u256_add_one_spec t) as Hone.
  destruct (u256_add_one t) as [denom ov]. destruct Hone as [Hdl Hdv].
  pose proof (be_num_range t) as Hr. rewrite len32 in Hr, Hdv by done. fold two256 in *.
  pose proof (be_num_range denom) as Hdr. rewrite len32 in Hdr by lia. fold two256 in Hdr.
  destruct ov.
  - eexists. split; [done|]. split; [done|].
    assert (be_num t + 1 = two256) as -> by lia. done.
  - destruct (u256_divmod_spec (not_bytes t) denom) as (q & r & Hdm & Hq & _ & Hqv & _).
    { unfold not_bytes. by rewrite length_map. }
    { lia. } { lia. }
    rewrite Hdm. simpl. pose proof (u256_add_one_spec q) as Hw.
    destruct (u256_add_one q) as [w ov]. exists w. split; [done|].
    destruct Hw as [Hwl Hwv]. split; [lia|].
    rewrite len32 in Hwv by done. fold two256 in Hwv.
    rewrite Hqv, be_num_not_bytes, len32 in Hwv by done. fold two256 in Hwv.
    replace (be_num denom) with (be_num t + 1) in Hwv by lia.
    assert ((two256 - 1 - be_num t) / (be_num t + 1) = two256 / (be_num t + 1) - 1) as Hd.
    { replace (two256 - 1 - be_num t) with (two256 + (-1) * (be_num t + 1)) by lia.
      rewrite Z.div_add by lia. lia. }
    rewrite Hd in Hwv. pose proof (be_num_range w) as Hwr.
    rewrite len32 in Hwr by lia. fold two256 in Hwr.
    destruct ov.
    + apply (Z.mod_unique_pos _ _ 1); lia.
    + rewrite Z.mod_small; lia.
Qed.

(** ** Compact targets *)

(** The number a compact encoding denotes ([arith_uint256::SetCompact]). *)
Definition compact_size (bits : Z) : Z := bits / 2 ^ 24.
Definition compact_word (bits : Z) : Z := bits mod 2 ^ 23.
Definition compact_value (bits : Z) : Z :=
  if compact_size bits <=? 3
  then compact_word bits / 256 ^ (3 - compact_size bits)
  else compact_word bits * 256 ^ (compact_size bits - 3).

Definition compact_valid (bits : Z) : Prop :=
  compact_word bits ≠ 0 ∧ Z.testbit bits 23 = false ∧ compact_value bits < two256.

Lemma be_num_insert_zero l k c :
  l !! k = Some x00 →
  be_num (<[k := c]> l) = be_num l + b2z c * 256 ^ (len l - 1 - Z.of_nat k).
Proof.
  intros Hk. pose proof (be_num_alter (λ _, c) k l x00 Hk) as H.
  change (b2z x00) with 0 in H. rewrite Z.sub_0_r in H. rewrite <-H. f_equal.
  clear H. revert k Hk. induction l as [|b l IH]; intros [|k] Hk; try done.
  change (b :: <[k := c]> l = b :: alter (λ _, c) k l). by rewrite IH.
Qed.

Lemma zero32_lookup k : (k < 32)%nat → zero32 !! k = Some x00.
Proof. intros. unfold zero32. by apply lookup_replicate_2. Qed.

(** The fields of a compact encoding, as the code masks them out. *)
Lemma compact_fields bits :
  is_u32 bits →
  Z.shiftr bits 24 = compact_size bits ∧ Z.land bits 0x007fffff = compact_word bits ∧
  0 ≤ compact_size bits < 256 ∧ 0 ≤ compact_word bits < 2 ^ 23.
Proof.
  unfold is_u32, u32_max, compact_size, compact_word. intros Hb.
  rewrite Z.shiftr_div_pow2 by lia. change 0x007fffff with (Z.ones 23).
  rewrite Z.land_ones by lia. repeat split; try done; try apply Z.mod_pos_bound; try lia.
  - apply Z.div_pos; lia.
  - apply Z.div_lt_upper_bound; lia.
Qed.

Lemma compact_sign bits :
  (Z.land bits 0x00800000 =? 0) = negb (Z.testbit bits 23).
Proof.
  apply eq_true_iff_eq. rewrite Z.eqb_eq, negb_true_iff.
  change 0x00800000 with (2 ^ 23). split.
  - intros H. apply (f_equal (λ z, Z.testbit z 23)) in H.
    rewrite Z.land_spec, Z.pow2_bits_true, Z.bits_0, andb_true_r in H by lia. done.
  - intros H. apply Z.bits_inj'. intros n Hn. rewrite Z.land_spec, Z.bits_0.
    destruct (decide (n = 23)) as [->|]; [by rewrite H|].
    rewrite Z.pow2_bits_false by lia. by rewrite andb_false_r.
Qed.

(** The mantissa as the three bytes the code stores. *)
Lemma word_bytes w :
  0 ≤ w < 2 ^ 24 →
  w = b2z (z2b w) + 256 * b2z (z2b (Z.shiftr w 8)) + 65536 * b2z (z2b (Z.shiftr w 16)).
Proof.
  intros Hw. rewrite !b2z_z2b, !Z.shiftr_div_pow2 by lia.
  change (2 ^ 8) with 256. change (2 ^ 16) with (256 * 256).
  rewrite <-Z.div_div by lia.
  pose proof (Z.div_mod w 256 ltac:(lia)).
  pose proof (Z.div_mod (w / 256) 256 ltac:(lia)).
  rewrite (Z.mod_small (w / 256 / 256)); [lia|].
  rewrite Z.div_div by lia. split; [apply Z.div_pos; lia|].
  apply Z.div_lt_upper_bound; lia.
Qed.

(** Storing the three bytes of a word at [k], [k - 1], [k - 2] of a zero array. *)
Lemma be_num_store3 k c0 c1 c2 :
  (2 ≤ k < 32)%nat →
  be_num (<[(k - 2)%nat := c2]> (<[(k - 1)%nat := c1]> (<[k := c0]> zero32)))
  = (b2z c0 + 256 * b2z c1 + 65536 * b2z c2) * 256 ^ (31 - Z.of_nat k).
Proof.
  intros Hk.
  rewrite be_num_insert_zero;
    [|rewrite !list_lookup_insert_ne by lia; apply zero32_lookup; lia].
  rewrite be_num_insert_zero;
    [|rewrite !list_lookup_insert_ne by lia; apply zero32_lookup; lia].
  rewrite be_num_insert_zero by (apply zero32_lookup; lia).
  unfold len. rewrite !length_insert, length_zero32, be_num_zero32.
  replace (Z.of_nat 32 - 1 - Z.of_nat k) with (31 - Z.of_nat k) by lia.
  replace (Z.of_nat 32 - 1 - Z.of_nat (k - 1)) with (31 - Z.of_nat k + 1) by lia.
  replace (Z.of_nat 32 - 1 - Z.of_nat (k - 2)) with (31 - Z.of_nat k + 2) by lia.
  rewrite !Z.pow_add_r by lia. change (256 ^ 1) with 256. change (256 ^ 2) with 65536. lia.
Qed.

(** The overflow guard of the code is exactly "the value needs more than 256
    bits". *)
Lemma compact_overflow_guard size word :
  0 ≤ size < 256 → 0 < word < 2 ^ 23 → 3 < size →
  ((34 <? size) || ((0xff <? word) && (33 <? size)) || ((0xffff <? word) && (32 <? size)))
  = (two256 <=? word * 256 ^ (size - 3)).
Proof.
  intros Hs Hw Hs3. apply eq_true_iff_eq.
  rewrite !orb_true_iff, !andb_true_iff, !Z.ltb_lt, Z.leb_le. unfold two256.
  destruct (decide (34 < size)).
  { split; [intros _|lia].
    pose proof (Z.pow_le_mono_r 256 32 (size - 3) ltac:(lia) ltac:(lia)). nia. }
  destruct (decide (size = 34)) as [->|]; [change (34 - 3) with 31; lia|].
  destruct (decide (size = 33)) as [->|]; [change (33 - 3) with 30; lia|].
  split; [lia|]. intros H. exfalso.
  pose proof (Z.pow_le_mono_r 256 (size - 3) 29 ltac:(lia) ltac:(lia)). nia.
Qed.

Lemma compact_small_guard size word :
  size ≤ 3 →
  ((34 <? size) || ((0xff <? word) && (33 <? size)) || ((0xffff <? word) && (32 <? size)))
  = false.
Proof.
  intros. apply not_true_iff_false. rewrite !orb_true_iff, !andb_true_iff, !Z.ltb_lt. lia.
Qed.

Lemma compact_small_shift size word :
  size ≤ 3 → Z.shiftr word (8 * (3 - size)) = word / 256 ^ (3 - size).
Proof. intros. by rewrite Z.shiftr_div_pow2, Z.pow_mul_r by lia. Qed.

Lemma zero_byte w n : 0 ≤ w < 2 ^ n → 0 ≤ n → z2b (Z.shiftr w n) = x00.
Proof. intros Hw Hn. by rewrite Z.shiftr_div_pow2, Z.div_small by lia. Qed.

(** The bytes the code stores for a mantissa of a large target. *)
Lemma expand_large_value size word :
  3 < size ≤ 34 → 0 < word < 2 ^ 23 → word * 256 ^ (size - 3) < two256 →
  let lsb := Z.to_nat (34 - size) in
  let target := <[lsb := z2b word]> zero32 in
  let target := if (1 <=? lsb)%nat
                then <[(lsb - 1)%nat := z2b (Z.shiftr word 8)]> target else target in
  let target := if (2 <=? lsb)%nat
                then <[(lsb - 2)%nat := z2b (Z.shiftr word 16)]> target else target in
  be_num target = word * 256 ^ (size - 3).
Proof.
  intros Hs Hw Hlt. cbv zeta. unfold two256 in Hlt.
  pose proof (word_bytes word ltac:(lia)) as Hbytes.
  destruct (decide (size = 34)) as [->|].
  { change (34 - 3) with 31 in *. change (Z.to_nat (34 - 34)) with 0%nat. cbn [Nat.leb].
    rewrite be_num_insert_zero by done. rewrite b2z_z2b, Z.mod_small by lia. done. }
  destruct (decide (size = 33)) as [->|].
  { change (33 - 3) with 30 in *. change (Z.to_nat (34 - 33)) with 1%nat.
    cbn [Nat.leb Nat.sub].
    rewrite (zero_byte word 16) in Hbytes by lia. change (b2z x00) with 0 in Hbytes.
    rewrite 2!be_num_insert_zero by done.
    change (len (<[1%nat := z2b word]> zero32)) with 32. change (len zero32) with 32.
    change (32 - 1 - Z.of_nat 1) with 30. change (32 - 1 - Z.of_nat 0) with 31.
    rewrite be_num_zero32. change (256 ^ 31) with (256 * 256 ^ 30). lia. }
  destruct (Nat.leb_spec 1 (Z.to_nat (34 - size))); [|lia].
  destruct (Nat.leb_spec 2 (Z.to_nat (34 - size))); [|lia].
  rewrite be_num_store3 by lia. rewrite <-Hbytes. do 2 f_equal. lia.
Qed.

Lemma expand_small_value w :
  0 ≤ w < 2 ^ 24 →
  be_num (<[31%nat := z2b w]> (<[30%nat := z2b (Z.shiftr w 8)]>
            (<[29%nat := z2b (Z.shiftr w 16)]> zero32))) = w.
Proof.
  intros Hw. rewrite (list_insert_insert_ne _ 30 29), (list_insert_insert_ne _ 31 29),
    (list_insert_insert_ne _ 31 30) by lia.
  rewrite (be_num_store3 31) by lia. change (256 ^ _) with 1. rewrite (word_bytes w) at 4 by done. lia.
Qed.

Lemma be_bytes32_of t v : length t = 32%nat → be_num t = v → t = be_bytes 32 v.
Proof. intros Hl <-. rewrite <-Hl at 1. by rewrite be_bytes_num. Qed.

#[export] Instance compact_valid_dec bits : Decision (compact_valid bits).
Proof. unfold compact_valid. apply _. Defined.

(** The decoder, completely: valid encodings give the big-endian target they
    denote, everything else is rejected. *)
Lemma expand_target_spec bits :
  is_u32 bits →
  expand_target bits
  = if decide (compact_valid bits) then Some (be_bytes 32 (compact_value bits)) else None.
Proof.
  intros Hb. destruct (compact_fields bits Hb) as (Hs & Hw & Hsr & Hwr).
  unfold expand_target. rewrite Hs, Hw, compact_sign, negb_involutive.
  destruct (decide (compact_valid bits)) as [(Hv0 & Hv1 & Hv2)|Hv];
    unfold compact_valid, compact_value in *;
    set (size := compact_size bits) in *; set (word := compact_word bits) in *.
  - rewrite Hv1. destruct (word =? 0) eqn:E0; reflect_bools; [done|].
    destruct (size <=? 3) eqn:E3; reflect_bools.
    + rewrite compact_small_guard by done. f_equal.
      apply be_bytes32_of; [by rewrite !length_insert|].
      rewrite compact_small_shift by lia. apply expand_small_value.
      pose proof (pow256_pos (3 - size) ltac:(lia)).
      split; [apply Z.div_pos; lia|]. apply Z.div_lt_upper_bound; nia.
    + rewrite compact_overflow_guard by lia.
      destruct (two256 <=? _) eqn:Eo; reflect_bools; [lia|]. f_equal.
      apply be_bytes32_of; [by repeat case_match; rewrite ?length_insert|].
      apply expand_large_value; [|lia|lia].
      destruct (decide (34 < size)); [|lia].
      pose proof (Z.pow_le_mono_r 256 32 (size - 3) ltac:(lia) ltac:(lia)).
      unfold two256 in Eo. nia.
  - destruct (word =? 0) eqn:E0; reflect_bools; [done|].
    destruct (Z.testbit bits 23) eqn:E23; [done|].
    destruct (size <=? 3) eqn:E3; reflect_bools.
    + exfalso. apply Hv. split_and!; [done..|].
      pose proof (pow256_pos (3 - size) ltac:(lia)). unfold two256.
      apply Z.div_lt_upper_bound; nia.
    + rewrite compact_overflow_guard by lia.
      destruct (two256 <=? _) eqn:Eo; reflect_bools; [done|].
      exfalso. by apply Hv.
Qed.

Lemma u256_add_be_value a b :
  length a = 32%nat → length b = 32%nat →
  length (u256_add_be a b) = 32%nat ∧
  be_num (u256_add_be a b) = (be_num a + be_num b) mod two256.
Proof.
  intros Ha Hb. pose proof (u256_add_fold a b ltac:(congruence)) as H.
  unfold u256_add_be. destruct (foldr _ _ _) as [c out]; cbn [snd].
  destruct H as (Hl & Hc & Hv). rewrite len32 in Hv by done. fold two256 in Hv.
  pose proof (be_num_range out) as Hr. rewrite len32 in Hr by lia. fold two256 in Hr.
  split; [lia|]. apply (Z.mod_unique_pos _ _ c); lia.
Qed.

Lemma be_bytes_zero n : be_bytes n 0 = replicate n x00.
Proof.
  apply be_num_inj; [by rewrite length_be_bytes, length_replicate|].
  rewrite be_num_bytes, Z.mod_0_l by (pose proof (pow256_pos (Z.of_nat n)); lia).
  induction n as [|n IH]; [done|]. cbn [replicate be_num]. change (b2z x00) with 0. lia.
Qed.

(** ** Properties *)

(** C23: compact targets.  On every 32-bit [nBits], [expand_target] succeeds
    exactly on the encodings whose mantissa is non-zero, whose sign bit is clear
    and whose value fits 256 bits, and it then returns the 32-byte big-endian
    form of [mantissa * 256 ^ (size - 3)]; in particular none of its array
    stores goes out of range, the sizes 33 and 34 included. *)
Theorem expand_target_correct (bits : Z) (t : bytes) (Hbits : is_u32 bits) :
  expand_target bits = Some t ↔
  compact_valid bits ∧ t = be_bytes 32 (compact_value bits).
Proof.
  rewrite (expand_target_spec bits Hbits).
  destruct (decide (compact_valid bits)); split;
    [intros [= <-]; done | intros [_ ->]; done | done | tauto].
Qed.

Lemma expand_target_correct_witness :
  is_u32 0x1e0fffff ∧
  be_num (be_bytes 32 (compact_value 0x1e0fffff)) = 0xfffff * 256 ^ 27 ∧
  (expand_target 0x1e0fffff = Some (be_bytes 32 (compact_value 0x1e0fffff)) ↔
   compact_valid 0x1e0fffff ∧
   be_bytes 32 (compact_value 0x1e0fffff) = be_bytes 32 (compact_value 0x1e0fffff)).
Proof.
  assert (is_u32 0x1e0fffff) as H by (unfold is_u32, u32_max; lia).
  split; [exact H|]. split; [vm_compute; reflexivity|].
  exact (expand_target_correct 0x1e0fffff _ H).
Defined.

(** C40: per-header work.  For a 32-byte target [t], [block_work] never panics and
    returns [floor(2^256 / (t + 1))] in 32 big-endian bytes, reduced modulo
    [2^256]: the reduction only matters for [t = 0], where the work wraps to
    zero. *)
Theorem block_work_correct (t : bytes) (Ht : length t = 32%nat) :
  ∃ w, block_work t = Some w ∧ length w = 32%nat ∧
       (be_num t ≠ 0 → be_num w = 2 ^ 256 / (be_num t + 1)) ∧
       (be_num t = 0 → w = zero32).
Proof.
  destruct (block_work_value t Ht) as (w & Hw & Hl & Hv).
  exists w. split_and!; [done|done| |]; intros H0.
  - rewrite Hv. apply Z.mod_small. pose proof (be_num_range t).
    split; [apply Z.div_pos; unfold two256; lia|].
    apply Z.div_lt_upper_bound; unfold two256; nia.
  - apply be_num_inj; [done|]. rewrite Hv, H0. vm_compute. done.
Qed.

Lemma block_work_correct_witness :
  length (be_bytes 32 0xffff) = 32%nat ∧
  ∃ w, block_work (be_bytes 32 0xffff) = Some w ∧ length w = 32%nat ∧
       (be_num (be_bytes 32 0xffff) ≠ 0 →
        be_num w = 2 ^ 256 / (be_num (be_bytes 32 0xffff) + 1)) ∧
       (be_num (be_bytes 32 0xffff) = 0 → w = zero32).
Proof. split; [reflexivity|]. exact (block_work_correct (be_bytes 32 0xffff) eq_refl). Defined.

(** The bit-at-a-time long division is Euclidean division: on 32-byte
    operands it panics exactly on a zero denominator and otherwise returns the
    quotient and the remainder in 32 bytes each. *)
Theorem u256_divmod_correct (num den : bytes)
    (Hnum : length num = 32%nat) (Hden : length den = 32%nat) :
  (den = zero32 → u256_divmod num den = None) ∧
  (den ≠ zero32 →
   u256_divmod num den = Some (be_bytes 32 (be_num num / be_num den),
                               be_bytes 32 (be_num num mod be_num den))).
Proof.
  split; intros Hz.
  - unfold u256_divmod. by rewrite decide_True.
  - pose proof (be_num_range den) as Hr.
    destruct (decide (be_num den = 0)) as [H0|H0].
    { destruct Hz. apply be_num_inj; done. }
    destruct (u256_divmod_spec num den Hnum Hden ltac:(lia)) as (q & r & -> & Hq & Hr' & Hqv & Hrv).
    by rewrite (be_bytes32_of q _ Hq Hqv), (be_bytes32_of r _ Hr' Hrv).
Qed.

Lemma u256_divmod_correct_witness :
  length (be_bytes 32 1000) = 32%nat ∧ be_bytes 32 7 ≠ zero32 ∧
  u256_divmod (be_bytes 32 1000) (be_bytes 32 7)
  = Some (be_bytes 32 (be_num (be_bytes 32 1000) / be_num (be_bytes 32 7)),
          be_bytes 32 (be_num (be_bytes 32 1000) mod be_num (be_bytes 32 7))).
Proof.
  assert (be_bytes 32 7 ≠ zero32) as H by (vm_compute; discriminate).
  split; [reflexivity|]. split; [exact H|].
  exact (proj2 (u256_divmod_correct (be_bytes 32 1000) (be_bytes 32 7) eq_refl eq_refl) H).
Defined.

(** The zero target.  The decoder's documentation says a zero target is
    rejected, but only a zero mantissa is: a mantissa that the right shift of a
    small size empties is accepted, with the zero target as its value.  These are
    exactly the encodings below. *)
Theorem expand_target_zero_accepted (bits : Z) (Hbits : is_u32 bits) :
  expand_target bits = Some zero32 ↔
  compact_word bits ≠ 0 ∧ Z.testbit bits 23 = false ∧
  compact_size bits < 3 ∧ compact_word bits < 256 ^ (3 - compact_size bits).
Proof.
  rewrite (expand_target_spec bits Hbits).
  destruct (compact_fields bits Hbits) as (_ & _ & Hs & Hw).
  rewrite <-(be_bytes_zero 32 : be_bytes 32 0 = zero32).
  assert (∀ v, 0 ≤ v < two256 → (be_bytes 32 v = be_bytes 32 0 ↔ v = 0)) as Hinj.
  { intros v Hv. split; [|by intros ->]. intros H%(f_equal be_num).
    rewrite !be_num_bytes in H. unfold two256 in Hv.
    rewrite !Z.mod_small in H by (change (Z.of_nat 32) with 32; lia). done. }
  pose proof (pow256_pos (3 - compact_size bits)) as Hp1.
  pose proof (pow256_pos (compact_size bits - 3)) as Hp2.
  destruct (decide (compact_valid bits)) as [(Hv0 & Hv1 & Hv2)|Hv];
    unfold compact_valid, compact_value in *;
    destruct (compact_size bits <=? 3) eqn:E3; reflect_bools.
  - assert (0 ≤ compact_word bits / 256 ^ (3 - compact_size bits)).
    { apply Z.div_pos; lia. }
    rewrite (inj_iff Some), Hinj by done. rewrite Z.div_small_iff by lia.
    split; [|lia]. intros [Hlt|]; [|lia]. split_and!; [done..| |lia].
    destruct (decide (compact_size bits = 3)) as [E|]; [|lia].
    rewrite E in Hlt. change (256 ^ (3 - 3)) with 1 in Hlt. lia.
  - rewrite (inj_iff Some), Hinj by nia. split; [nia|lia].
  - split; [done|]. intros (?&?&?&?). destruct Hv. split_and!; [done..|].
    unfold two256. apply Z.div_lt_upper_bound; nia.
  - split; [done|lia].
Qed.

Lemma expand_target_zero_accepted_witness :
  is_u32 0x01000001 ∧
  (expand_target 0x01000001 = Some zero32 ↔
   compact_word 0x01000001 ≠ 0 ∧ Z.testbit 0x01000001 23 = false ∧
   compact_size 0x01000001 < 3 ∧
   compact_word 0x01000001 < 256 ^ (3 - compact_size 0x01000001)) ∧
  expand_target 0x01000001 = Some zero32.
Proof.
  assert (is_u32 0x01000001) as H by (unfold is_u32, u32_max; lia).
  split; [exact H|]. split; [exact (expand_target_zero_accepted 0x01000001 H)|].
  vm_compute. reflexivity.
Defined.

(** Cumulative work is addition modulo [2^256], and the target comparison is
    the order of the integers. *)
Theorem u256_add_be_target_leq_correct (a b : bytes)
    (Ha : length a = 32%nat) (Hb : length b = 32%nat) :
  length (u256_add_be a b) = 32%nat ∧
  be_num (u256_add_be a b) = (be_num a + be_num b) mod 2 ^ 256 ∧
  target_leq a b = (be_num a <=? be_num b).
Proof.
  destruct (u256_add_be_value a b Ha Hb). split_and!; [done|done|].
  apply target_leq_spec. congruence.
Qed.

Lemma u256_add_be_target_leq_correct_witness :
  let a := be_bytes 32 (2 ^ 256 - 1) in let b := be_bytes 32 5 in
  length (u256_add_be a b) = 32%nat ∧
  be_num (u256_add_be a b) = (be_num a + be_num b) mod 2 ^ 256 ∧
  target_leq a b = (be_num a <=? be_num b).
Proof.
  exact (u256_add_be_target_leq_correct (be_bytes 32 (2 ^ 256 - 1)) (be_bytes 32 5)
           eq_refl eq_refl).
Defined.
