(* ===== verification/AuxPow.v ===== *)
(** * Merged-mining commitments and the sibling-proof header chain

    [crates/common/src/lib.rs], the AuxPoW part: the hash and the Merkle fold,
    the [AuxPow] witness and the 80-byte [BlockHeader] with their field readers,
    [get_expected_index], [find_subslice], [verify_auxpow_commitment] and
    [verify_psob_chain].  SHA-256 is the [sha2] crate's: it is a parameter (class
    [Sha256]) of which only the digest length is assumed.

    A Rust panic is the [None] of an outer [option]. *)

From stdpp Require Export strings.
From S2P Require Export U256.

#[local] Open Scope Z_scope.

(** ** Hashing *)

(** [sha2::Sha256::digest]; the digest is a [GenericArray<u8, 32>]. *)
Class Sha256 := {
  sha256 : bytes → bytes;
  length_sha256 : ∀ data, length (sha256 data) = 32%nat
}.

(** A concrete function of the right type, which the witnesses compute with. *)
Definition toy_sha256 (data : bytes) : bytes :=
  le_bytes 32 ((le_num data + 1) * 1000003 + len data).

Lemma length_toy_sha256 data : length (toy_sha256 data) = 32%nat.
Proof. apply length_le_bytes. Qed.

Definition toy_hash : Sha256 := {| sha256 := toy_sha256; length_sha256 := length_toy_sha256 |}.

(** ** Constants *)

Definition CHAIN_POW_LIMIT_BITS : Z := 0x1e0fffff.
Definition LTC_POW_LIMIT_BITS : Z := 0x1e0fffff.
Definition LTC_CHAIN_ID : Z := 8192.
Definition AUXPOW_MAGIC : bytes := [xfa; xbe; x6d; x6d].

(** ** Data *)

Record AuxPow := mkAuxPow {
  coinbase_tx : bytes;
  parent_merkle_branch : list bytes;
  parent_index : Z;
  chain_merkle_branch : list bytes;
  chain_index : Z;
  parent_header : bytes
}.

Record BlockHeader := mkBlockHeader {
  raw : bytes;
  aux : option AuxPow
}.

#[export] Instance AuxPow_eq_dec : EqDecision AuxPow.
Proof. solve_decision. Defined.
#[export] Instance BlockHeader_eq_dec : EqDecision BlockHeader.
Proof. solve_decision. Defined.

(** ** Operations *)

(** [u32::from_le_bytes] of four indexed bytes: [None] is the index panic. *)
Definition index_u32_le (l : bytes) (off : Z) : option Z :=
  le_num <$> get_range l off (off + 4).

(** [copy_from_slice(&l[off..off + 32])] into a [[u8; 32]]. *)
Definition index_32 (l : bytes) (off : Z) : option bytes := get_range l off (off + 32).

(** [a << n] on a [u32] in a release build: the shift amount is masked. *)
Definition u32_shl (a n : Z) : Z := u32_wrap (Z.shiftl a (n mod 32)).

Definition parent_merkle_root (a : AuxPow) : option bytes :=
  if len (parent_header a) <? 80 then None
  else Some (slice (parent_header a) 36 68).

Definition parent_chain_id (a : AuxPow) : option Z :=
  v ← get_range (parent_header a) 0 4;
  Some (Z.shiftr (le_num v) 16).

Definition version (h : BlockHeader) : option Z := index_u32_le (raw h) 0.
Definition chain_id (h : BlockHeader) : option Z := v ← version h; Some (Z.shiftr v 16).
Definition bits (h : BlockHeader) : option Z := index_u32_le (raw h) 72.
Definition prev_hash (h : BlockHeader) : option bytes := index_32 (raw h) 4.
Definition merkle_root (h : BlockHeader) : option bytes := index_32 (raw h) 36.

Definition get_expected_index (nonce chain_id height : Z) : Z :=
  let rand := nonce in
  let rand := u32_wrapping_add (u32_wrapping_mul rand 1103515245) 12345 in
  let rand := u32_wrapping_add rand chain_id in
  let rand := u32_wrapping_add (u32_wrapping_mul rand 1103515245) 12345 in
  rand mod (u32_shl 1 height).

(** [w == needle] for the window that starts [hay]. *)
Definition starts_with (hay needle : bytes) : bool :=
  bool_decide (take (length needle) hay = needle).

Fixpoint find_subslice (hay needle : bytes) : option nat :=
  if starts_with hay needle then Some O
  else match hay with
       | [] => None
       | _ :: t => S <$> find_subslice t needle
       end.

Section hashed.
Context `{Sha256}.

Definition sha256d (data : bytes) : bytes :=
  let first := sha256 data in
  let second := sha256 first in
  second.

Fixpoint merkle_fold_branch (leaf : bytes) (branch : list bytes) (index : Z) : bytes :=
  match branch with
  | [] => leaf
  | sib :: branch =>
      let buf := if Z.land index 1 =? 0 then leaf ++ sib else sib ++ leaf in
      merkle_fold_branch (sha256d buf) branch (Z.shiftr index 1)
  end.

Definition verify_auxpow_commitment (aux_block_hash : bytes) (a : AuxPow) (chain_id : Z) : bool :=
  if negb (parent_index a =? 0) then false else
  match parent_chain_id a with
  | Some pid =>
      if negb (pid =? chain_id) && (pid =? LTC_CHAIN_ID) then
        match parent_merkle_root a with
        | None => false
        | Some parent_root =>
            let cb_txid := sha256d (coinbase_tx a) in
            if negb (bool_decide
                 (merkle_fold_branch cb_txid (parent_merkle_branch a) (parent_index a)
                  = parent_root)) then false else
            let height := len (chain_merkle_branch a) in
            if 30 <? height then false else
            let chain_root :=
              merkle_fold_branch aux_block_hash (chain_merkle_branch a) (chain_index a) in
            let needle := rev chain_root in
            let cb := coinbase_tx a in
            match find_subslice cb AUXPOW_MAGIC with
            | None => false
            | Some magic_at =>
                match find_subslice (drop (magic_at + 1) cb) AUXPOW_MAGIC with
                | Some _ => false
                | None =>
                    let root_pos := Z.of_nat magic_at + len AUXPOW_MAGIC in
                    match get_range cb root_pos (root_pos + 40) with
                    | None => false
                    | Some tail =>
                        if negb (bool_decide (slice tail 0 32 = needle)) then false else
                        let n_size := le_num (slice tail 32 36) in
                        if negb (n_size =? u32_shl 1 height) then false else
                        let n_nonce := le_num (slice tail 36 40) in
                        chain_index a =? get_expected_index n_nonce chain_id height
                    end
                end
            end
        end
      else false
  | None => false
  end.

(** One iteration of the header loop: [prev_expected] to the next one. *)
Definition psob_step (pow_limit : bytes) (cid : Z) (prev_expected : bytes) (header : BlockHeader) :
    option (Result string bytes) :=
  if negb (len (raw header) =? 80) then Some (Err "block header must be 80 bytes"%string) else
  hid ← chain_id header;
  if negb (hid =? cid) then Some (Err "header chain id mismatch"%string) else
  prev ← prev_hash header;
  if negb (bool_decide (prev = prev_expected)) then Some (Err "broken header chain link"%string) else
  b ← bits header;
  match expand_target b with
  | None => Some (Err "invalid nBits encoding"%string)
  | Some target =>
      if negb (target_leq target pow_limit) then Some (Err "target easier than powLimit"%string) else
      let id := sha256d (raw header) in
      match aux header with
      | None => Some (Err "auxpow witness required for PoW"%string)
      | Some a =>
          if negb (verify_auxpow_commitment id a cid)
          then Some (Err "auxpow commitment invalid"%string)
          else if negb (len (parent_header a) =? 80)
          then Some (Err "parent header must be 80 bytes"%string)
          else Some (Ok id)
      end
  end.

Fixpoint psob_loop (pow_limit : bytes) (cid : Z) (prev_expected : bytes)
    (headers : list BlockHeader) : option (Result string unit) :=
  match headers with
  | [] => Some (Ok ())
  | header :: headers =>
      r ← psob_step pow_limit cid prev_expected header;
      match r with
      | Err e => Some (Err e)
      | Ok id => psob_loop pow_limit cid id headers
      end
  end.

(** The outer [option] is the panic of the field readers. *)
Definition verify_psob_chain (headers : list BlockHeader) (checkpoint_hash : bytes)
    (cid pow_limit_bits : Z) : option (Result string unit) :=
  match headers with
  | [] => Some (Err "empty header chain"%string)
  | _ =>
      match expand_target pow_limit_bits with
      | None => Some (Err "invalid pow_limit_bits encoding"%string)
      | Some pow_limit => psob_loop pow_limit cid checkpoint_hash headers
      end
  end.
End hashed.

(** ** Substring search *)

(** The byte strings that surround an occurrence of [needle] in [hay]. *)
Definition occurs (needle hay pre post : bytes) : Prop := hay = pre ++ needle ++ post.

Lemma starts_with_iff hay needle :
  starts_with hay needle = true ↔ ∃ post, hay = needle ++ post.
Proof.
  unfold starts_with. rewrite bool_decide_eq_true. split.
  - intros H. exists (drop (length needle) hay). rewrite <-H at 1. by rewrite take_drop.
  - intros [post ->]. apply take_app_length.
Qed.

Lemma find_subslice_Some hay needle i :
  find_subslice hay needle = Some i →
  (∃ post, occurs needle hay (take i hay) post ∧ (i ≤ length hay)%nat) ∧
  (∀ pre post, occurs needle hay pre post → (i ≤ length pre)%nat).
Proof.
  unfold occurs. revert i. induction hay as [|b hay IH]; intros i; cbn [find_subslice];
    destruct (starts_with _ needle) eqn:E.
  - apply starts_with_iff in E as [post E]. intros [= <-]. split; [|lia].
    exists post. split; [by rewrite take_0|simpl; lia].
  - done.
  - apply starts_with_iff in E as [post E]. intros [= <-]. split; [|lia].
    exists post. split; [by rewrite take_0|simpl; lia].
  - intros (j & Hj & ->)%fmap_Some.
    destruct (IH j Hj) as [(post & Hp & Hle) Hmin]. split.
    + exists post. cbn [take app length]. split; [by f_equal|lia].
    + intros [|c pre] post' Heq.
      * assert (starts_with (b :: hay) needle = true); [|congruence].
        apply starts_with_iff. eauto.
      * injection Heq as -> Heq. apply Hmin in Heq. simpl. lia.
Qed.

Lemma find_subslice_None hay needle pre post :
  find_subslice hay needle = None → ¬ occurs needle hay pre post.
Proof.
  unfold occurs. revert pre. induction hay as [|b hay IH]; intros pre; cbn [find_subslice];
    destruct (starts_with _ needle) eqn:E; try done; intros Hn Heq.
  - destruct pre; [|done]. apply not_true_iff_false in E. apply E, starts_with_iff. eauto.
  - apply fmap_None in Hn. destruct pre as [|c pre].
    + apply not_true_iff_false in E. apply E, starts_with_iff. eauto.
    + injection Heq as -> Heq. by apply (IH pre).
Qed.

Lemma find_subslice_occurs hay needle pre post :
  occurs needle hay pre post → ∃ i, find_subslice hay needle = Some i.
Proof.
  intros Ho. destruct (find_subslice hay needle) eqn:E; [eauto|].
  by apply (find_subslice_None _ _ pre post) in E.
Qed.

(** The code's test for a single magic: the first occurrence, and none in what
    follows its first byte. *)
Lemma find_subslice_unique hay needle i :
  needle ≠ [] →
  find_subslice hay needle = Some i ∧ find_subslice (drop (i + 1) hay) needle = None ↔
  ∃ pre post, occurs needle hay pre post ∧ length pre = i ∧
              ∀ pre' post', occurs needle hay pre' post' → pre' = pre.
Proof.
  intros Hne. unfold occurs. split.
  - intros [Hf Hn]. destruct (find_subslice_Some _ _ _ Hf) as [(post & Hp & Hi) Hmin].
    exists (take i hay), post. split_and!; [done|rewrite length_take; lia|].
    intros pre' post' Hp'. pose proof (Hmin _ _ Hp') as Hle.
    assert (take (length pre') hay = pre') as Ht.
    { rewrite Hp'. apply take_app_length. }
    destruct (decide (length pre' = i)) as [<-|Hneq]; [done|].
    exfalso. eapply (find_subslice_None _ _ (drop (i + 1) pre') post'); [exact Hn|].
    unfold occurs. rewrite Hp'. apply drop_app_le. lia.
  - intros (pre & post & Hp & Hl & Huniq).
    destruct (find_subslice_occurs hay needle pre post Hp) as [j Hj].
    destruct (find_subslice_Some _ _ _ Hj) as [(post' & Hp' & Hj') _].
    assert (j = i) as ->.
    { apply Huniq in Hp' as Hpre. rewrite <-Hl, <-Hpre, length_take. lia. }
    split; [done|]. destruct (find_subslice (drop (i + 1) hay) needle) as [k|] eqn:E; [|done].
    destruct (find_subslice_Some _ _ _ E) as [(post2 & Hp2 & _) _]. exfalso.
    unfold occurs in *.
    assert (hay = (take (i + 1) hay ++ take k (drop (i + 1) hay)) ++ needle ++ post2) as Hocc.
    { rewrite <-app_assoc, <-Hp2. symmetry. apply take_drop. }
    apply Huniq in Hocc. apply (f_equal length) in Hocc.
    rewrite length_app, length_take, Hl in Hocc.
    destruct needle as [|n0 needle]; [done|].
    rewrite Hp, !length_app in Hocc. simpl in Hocc. lia.
Qed.

(** ** The commitment, as a specification *)

Lemma u32_shl_1 h : 0 ≤ h ≤ 30 → u32_shl 1 h = 2 ^ h ∧ is_u32 (2 ^ h).
Proof.
  intros Hh. unfold u32_shl, u32_wrap, is_u32, u32_max.
  rewrite (Z.mod_small h) by lia. rewrite Z.shiftl_mul_pow2, Z.mul_1_l by lia.
  pose proof (Z.pow_le_mono_r 2 h 30 ltac:(lia) ltac:(lia)).
  pose proof (Z.pow_pos_nonneg 2 h ltac:(lia) ltac:(lia)).
  rewrite Z.mod_small by lia. split; [done|lia].
Qed.

Lemma get_expected_index_range nonce cid h :
  0 ≤ h ≤ 30 → 0 ≤ get_expected_index nonce cid h < 2 ^ h.
Proof.
  intros Hh. unfold get_expected_index. destruct (u32_shl_1 h Hh) as [-> _].
  apply Z.mod_pos_bound, Z.pow_pos_nonneg; lia.
Qed.

(** The forty bytes after the magic: root, size and nonce. *)
Lemma tail_split (t root : bytes) n m :
  length root = 32%nat → is_u32 n → is_u32 m →
  (len t = 40 ∧ slice t 0 32 = root ∧ le_num (slice t 32 36) = n ∧
   le_num (slice t 36 40) = m) ↔
  t = root ++ le_bytes 4 n ++ le_bytes 4 m.
Proof.
  intros Hr Hn Hm. apply len32 in Hr. split.
  - intros (Hl & H0 & H1 & H2).
    assert (∀ a b, 0 ≤ a ≤ b → b ≤ 40 → len (slice t a b) = b - a) as Hs.
    { intros a b Ha Hb. unfold len. rewrite length_slice; lia. }
    rewrite <-(slice_all t), Hl, <-H1, <-H2, <-H0.
    assert (∀ a b, len (slice t a b) = 4 → le_bytes 4 (le_num (slice t a b)) = slice t a b) as Hle.
    { intros a b Hab. rewrite <-(le_bytes_num (slice t a b)) at 2. f_equal.
      unfold len in Hab. lia. }
    rewrite !Hle by (apply Hs; lia).
    unfold slice. change (Z.to_nat (40 - 0)) with (32 + (4 + 4))%nat.
    rewrite <-!take_take_drop, !drop_drop. done.
  - intros ->. rewrite !len_app, Hr, !len_le_bytes.
    split_and!; [done| | |].
    + rewrite slice_app_l by lia. rewrite <-Hr. apply slice_all.
    + rewrite (slice_middle root) by (rewrite ?len_le_bytes; lia). by apply le_num_u32.
    + rewrite slice_app_r, slice_app_r by (rewrite ?len_le_bytes; lia).
      rewrite Hr, len_le_bytes. replace (36 - 32 - Z.of_nat 4) with 0 by lia.
      replace (40 - 32 - Z.of_nat 4) with (len (le_bytes 4 m)) by (rewrite len_le_bytes; lia).
      rewrite slice_all. by apply le_num_u32.
Qed.

Section hashed_lemmas.
Context `{Sha256}.

Lemma length_sha256d data : length (sha256d data) = 32%nat.
Proof. apply length_sha256. Qed.

Lemma length_merkle_fold leaf branch index :
  length leaf = 32%nat → length (merkle_fold_branch leaf branch index) = 32%nat.
Proof.
  revert leaf index; induction branch as [|sib branch IH]; intros leaf index Hl; [done|].
  cbn [merkle_fold_branch]. apply IH, length_sha256d.
Qed.

(** What [verify_auxpow_commitment] promises: the rules of [CAuxPow::check]
    without reference to how they are tested. *)
Record commits (h : bytes) (a : AuxPow) (cid : Z) : Prop := {
  commits_index : parent_index a = 0;
  commits_parent : 80 ≤ len (parent_header a);
  commits_ltc : le_num (slice (parent_header a) 0 4) / 2 ^ 16 = LTC_CHAIN_ID;
  commits_strict : cid ≠ LTC_CHAIN_ID;
  commits_coinbase :
    merkle_fold_branch (sha256d (coinbase_tx a)) (parent_merkle_branch a) 0
    = slice (parent_header a) 36 68;
  commits_height : len (chain_merkle_branch a) ≤ 30;
  commits_magic : ∃ pre nonce post,
    let root := merkle_fold_branch h (chain_merkle_branch a) (chain_index a) in
    let height := len (chain_merkle_branch a) in
    occurs AUXPOW_MAGIC (coinbase_tx a) pre
      (rev root ++ le_bytes 4 (2 ^ height) ++ le_bytes 4 nonce ++ post) ∧
    is_u32 nonce ∧
    (∀ pre' post', occurs AUXPOW_MAGIC (coinbase_tx a) pre' post' → pre' = pre) ∧
    chain_index a = get_expected_index nonce cid height
}.

(** The code's reading of the coinbase tail agrees with the specification's. *)
Lemma coinbase_tail_iff cb root cid idx height :
  length root = 32%nat → 0 ≤ height ≤ 30 →
  match find_subslice cb AUXPOW_MAGIC with
  | None => false
  | Some magic_at =>
      match find_subslice (drop (magic_at + 1) cb) AUXPOW_MAGIC with
      | Some _ => false
      | None =>
          let root_pos := Z.of_nat magic_at + len AUXPOW_MAGIC in
          match get_range cb root_pos (root_pos + 40) with
          | None => false
          | Some tail =>
              if negb (bool_decide (slice tail 0 32 = root)) then false else
              let n_size := le_num (slice tail 32 36) in
              if negb (n_size =? u32_shl 1 height) then false else
              let n_nonce := le_num (slice tail 36 40) in
              idx =? get_expected_index n_nonce cid height
          end
      end
  end = true ↔
  ∃ pre nonce post,
    occurs AUXPOW_MAGIC cb pre (root ++ le_bytes 4 (2 ^ height) ++ le_bytes 4 nonce ++ post) ∧
    is_u32 nonce ∧
    (∀ pre' post', occurs AUXPOW_MAGIC cb pre' post' → pre' = pre) ∧
    idx = get_expected_index nonce cid height.
Proof.
  intros Hr Hh. destruct (u32_shl_1 height Hh) as [Hsh H32]. rewrite Hsh. split.
  - destruct (find_subslice cb AUXPOW_MAGIC) as [i|] eqn:Hf; [|done].
    destruct (find_subslice (drop (i + 1) cb) _) eqn:Hn; [done|]. cbv zeta.
    destruct (proj1 (find_subslice_unique cb AUXPOW_MAGIC i ltac:(done)) (conj Hf Hn))
      as (pre & post & Ho & Hl & Huniq).
    destruct (get_range _ _ _) as [tail|] eqn:Hg; [|done].
    pose proof Hg as Htl. apply get_range_length in Htl; [|unfold len; lia].
    apply get_range_Some in Hg as (_ & Hb & ->).
    set (tail := slice cb _ _) in *.
    destruct (negb (bool_decide _)) eqn:E1; [done|]. 
    destruct (negb (_ =? 2 ^ height)) eqn:E2; [done|]. intros E3. reflect_bools.
    assert (is_u32 (le_num (slice tail 36 40))) as Hnonce.
    { pose proof (le_num_range (slice tail 36 40)) as Hlr. unfold len in Hlr.
      rewrite length_slice in Hlr by lia. unfold is_u32, u32_max.
      change (256 ^ Z.of_nat (Z.to_nat (40 - 36))) with (2 ^ 32) in Hlr. lia. }
    assert (tail = root ++ le_bytes 4 (2 ^ height) ++ le_bytes 4 (le_num (slice tail 36 40)))
      as Ht by (apply tail_split; split_and?; done || lia).
    exists pre, (le_num (slice tail 36 40)), (drop 40 post). split_and!; [|done|done|done].
    unfold occurs in *. rewrite Ho at 1. f_equal. f_equal.
    rewrite <-(take_drop 40 post) at 1. rewrite !app_assoc. f_equal.
    rewrite <-!app_assoc, <-Ht. unfold tail. rewrite Ho, app_assoc.
    assert (Z.of_nat i + len AUXPOW_MAGIC = len (pre ++ AUXPOW_MAGIC)) as ->.
    { rewrite len_app. unfold len. lia. }
    rewrite slice_app_r, Z.sub_diag by lia. unfold slice.
    replace (Z.to_nat (_ - 0)) with 40%nat by lia.
    change (Z.to_nat 0) with 0%nat. by rewrite drop_0.
  - intros (pre & nonce & post & Ho & Hn & Huniq & ->).
    destruct (proj2 (find_subslice_unique cb AUXPOW_MAGIC (length pre) ltac:(done))) as [-> ->].
    { eauto. }
    cbv zeta. unfold occurs in Ho.
    set (t := root ++ le_bytes 4 (2 ^ height) ++ le_bytes 4 nonce).
    assert (cb = (pre ++ AUXPOW_MAGIC) ++ t ++ post) as Hcb.
    { rewrite Ho. unfold t. by rewrite <-!app_assoc. }
    rewrite (get_range_middle_eq cb (pre ++ AUXPOW_MAGIC) t post).
    + destruct (proj2 (tail_split t root (2 ^ height) nonce Hr H32 Hn) eq_refl)
        as (_ & -> & -> & ->).
      rewrite bool_decide_eq_true_2, Z.eqb_refl by done. simpl. apply Z.eqb_refl.
    + done.
    + rewrite len_app. unfold len. lia.
    + unfold t. rewrite !len_app, !len_le_bytes, (len32 root Hr). unfold len. lia.
Qed.

Lemma verify_auxpow_spec h a cid :
  length h = 32%nat → verify_auxpow_commitment h a cid = true ↔ commits h a cid.
Proof.
  intros Hh. unfold verify_auxpow_commitment.
  set (root := merkle_fold_branch h (chain_merkle_branch a) (chain_index a)).
  assert (length (rev root) = 32%nat) as Hroot.
  { rewrite length_rev. by apply length_merkle_fold. }
  destruct (parent_index a =? 0) eqn:Ei; reflect_bools; cbn [negb];
    [|split; [done|intros []; done]].
  rewrite Ei. unfold parent_chain_id, parent_merkle_root.
  destruct (decide (80 ≤ len (parent_header a))) as [Hlen|Hlen].
  2:{ split; [|by intros []]. destruct (_ ≫= _); [|done].
      destruct (_ && _); [|done]. destruct (_ <? 80) eqn:E; [done|]. reflect_bools. lia. }
  destruct (len (parent_header a) <? 80) eqn:E80; reflect_bools; [lia|].
  assert (get_range (parent_header a) 0 4 = Some (slice (parent_header a) 0 4)) as ->.
  { apply get_range_Some. split_and!; [lia|lia|done]. }
  cbn [mbind option_bind]. rewrite Z.shiftr_div_pow2 by lia.
  set (pid := le_num (slice (parent_header a) 0 4) / 2 ^ 16).
  destruct (negb (pid =? cid) && (pid =? LTC_CHAIN_ID)) eqn:Ep.
  2:{ split; [done|]. intros [_ _ Hl Hs _ _ _]. fold pid in Hl.
      rewrite Hl, Z.eqb_refl, andb_true_r in Ep. reflect_bools. lia. }
  reflect_bools.
  destruct (negb (bool_decide _)) eqn:Ef; reflect_bools.
  { split; [done|]. by intros []. }
  destruct (30 <? len (chain_merkle_branch a)) eqn:Eh; reflect_bools.
  { split; [done|]. intros []. lia. }
  etrans; [apply coinbase_tail_iff; [done|pose proof (len_nonneg (chain_merkle_branch a)); lia]|].
  split.
  - intros Hm. split; [done|done|done|lia|done|done|exact Hm].
  - intros []. done.
Qed.

(** ** Binding: what a coinbase commits to *)

(** The hash preimages met while folding. *)
Fixpoint fold_inputs (leaf : bytes) (branch : list bytes) (index : Z) : list bytes :=
  match branch with
  | [] => []
  | sib :: branch =>
      let buf := if Z.land index 1 =? 0 then leaf ++ sib else sib ++ leaf in
      buf :: fold_inputs (sha256d buf) branch (Z.shiftr index 1)
  end.

(** A collision of [sha256d] between two given sets of inputs: two different
    members, of equal digests. *)
Definition collides (X Y : list bytes) : Prop :=
  ∃ x y, x ∈ X ∧ y ∈ Y ∧ x ≠ y ∧ sha256d x = sha256d y.

Lemma collides_cons x y X Y : collides X Y → collides (x :: X) (y :: Y).
Proof. intros (a & b & Ha & Hb & ?). exists a, b. split_and!; [by right|by right|tauto..]. Qed.

Lemma merkle_fold_binding leaf1 leaf2 branch1 branch2 index :
  length leaf1 = 32%nat → length leaf2 = 32%nat →
  Forall (λ b : bytes, length b = 32%nat) branch1 → Forall (λ b : bytes, length b = 32%nat) branch2 →
  length branch1 = length branch2 →
  merkle_fold_branch leaf1 branch1 index = merkle_fold_branch leaf2 branch2 index →
  (leaf1 = leaf2 ∧ branch1 = branch2) ∨
  collides (fold_inputs leaf1 branch1 index) (fold_inputs leaf2 branch2 index).
Proof.
  revert leaf1 leaf2 branch2 index. induction branch1 as [|s1 branch1 IH];
    intros leaf1 leaf2 [|s2 branch2] index Hl1 Hl2 Hb1 Hb2 Hlen Heq; try done; [by left|].
  inversion Hb1 as [|?? Hs1 Hb1']; inversion Hb2 as [|?? Hs2 Hb2']; subst.
  injection Hlen as Hlen. cbn [merkle_fold_branch fold_inputs] in *.
  set (buf1 := if Z.land index 1 =? 0 then leaf1 ++ s1 else s1 ++ leaf1) in *.
  set (buf2 := if Z.land index 1 =? 0 then leaf2 ++ s2 else s2 ++ leaf2) in *.
  destruct (IH (sha256d buf1) (sha256d buf2) branch2 (Z.shiftr index 1)) as [[Hsha ->]|Hc];
    [apply length_sha256d..|done|done|done|done| |right; by apply collides_cons].
  destruct (decide (buf1 = buf2)) as [Hbuf|Hne].
  - left. unfold buf1, buf2 in Hbuf. destruct (Z.land index 1 =? 0);
      apply app_inj_1 in Hbuf as [-> ->]; done || congruence.
  - right. exists buf1, buf2. split_and!; [by left|by left|done|done].
Qed.

(** The byte arrays of the witness have their Rust types' lengths. *)
Record auxpow_wf (a : AuxPow) : Prop := {
  wf_parent_branch : Forall (λ b : bytes, length b = 32%nat) (parent_merkle_branch a);
  wf_chain_branch : Forall (λ b : bytes, length b = 32%nat) (chain_merkle_branch a)
}.

Lemma commits_single_slot h1 h2 a1 a2 cid :
  length h1 = 32%nat → length h2 = 32%nat →
  commits h1 a1 cid → commits h2 a2 cid → coinbase_tx a1 = coinbase_tx a2 →
  length (chain_merkle_branch a1) = length (chain_merkle_branch a2) ∧
  chain_index a1 = chain_index a2 ∧
  merkle_fold_branch h1 (chain_merkle_branch a1) (chain_index a1)
  = merkle_fold_branch h2 (chain_merkle_branch a2) (chain_index a2).
Proof.
  intros Hh1 Hh2 [_ _ _ _ _ Hht1 Hm1] [_ _ _ _ _ Hht2 Hm2] Hcb.
  destruct Hm1 as (pre & n1 & post1 & Ho1 & Hn1 & Hu1 & Hi1).
  destruct Hm2 as (pre2 & n2 & post2 & Ho2 & Hn2 & Hu2 & Hi2).
  assert (pre2 = pre) as -> by (rewrite <-Hcb in Ho2; by eapply Hu1).
  unfold occurs in *. rewrite Hcb, Ho2 in Ho1. apply app_inv_head, app_inv_head in Ho1.
  pose proof (len_nonneg (chain_merkle_branch a1)). pose proof (len_nonneg (chain_merkle_branch a2)).
  destruct (u32_shl_1 (len (chain_merkle_branch a1)) ltac:(lia)) as [_ Hp1].
  destruct (u32_shl_1 (len (chain_merkle_branch a2)) ltac:(lia)) as [_ Hp2].
  apply app_inj_1 in Ho1 as [Hroot Ho1]; [|by rewrite !length_rev, !length_merkle_fold].
  apply app_inj_1 in Ho1 as [Hsize Ho1]; [|by rewrite !length_le_bytes].
  apply app_inj_1 in Ho1 as [Hnonce _]; [|by rewrite !length_le_bytes].
  apply (f_equal le_num) in Hsize, Hnonce. rewrite !le_num_u32 in Hsize, Hnonce by done.
  apply Z.pow_inj_r in Hsize; [|lia..]. apply rev_inj in Hroot.
  split_and!; [unfold len in Hsize; lia|by rewrite Hi1, Hi2, Hsize, Hnonce|done].
Qed.
End hashed_lemmas.

(** ** The header chain *)

Section psob_lemmas.
Context `{Sha256}.

(** One header as the chain rules want it, after [prev], with parent limit
    [limit] (a number). *)
Record header_ok (limit : Z) (cid : Z) (prev : bytes) (h : BlockHeader) : Prop := {
  header_len : len (raw h) = 80;
  header_chain_id : le_num (slice (raw h) 0 4) / 2 ^ 16 = cid;
  header_link : slice (raw h) 4 36 = prev;
  header_bits : compact_valid (le_num (slice (raw h) 72 76));
  header_limit : compact_value (le_num (slice (raw h) 72 76)) ≤ limit;
  header_aux : ∃ a, aux h = Some a ∧ commits (sha256d (raw h)) a cid ∧
                    len (parent_header a) = 80
}.

(** A chain from the block hash [prev] to the block hash [tip]. *)
Inductive psob_linked (limit cid : Z) : bytes → list BlockHeader → bytes → Prop :=
  | linked_nil prev : psob_linked limit cid prev [] prev
  | linked_cons prev h hs tip :
      header_ok limit cid prev h →
      psob_linked limit cid (sha256d (raw h)) hs tip →
      psob_linked limit cid prev (h :: hs) tip.

Lemma psob_linked_app limit cid prev hs1 hs2 tip :
  psob_linked limit cid prev (hs1 ++ hs2) tip ↔
  ∃ mid, psob_linked limit cid prev hs1 mid ∧ psob_linked limit cid mid hs2 tip.
Proof.
  revert prev. induction hs1 as [|h hs1 IH]; intros prev; cbn [app]; split.
  - intros Hl. exists prev. split; [constructor|done].
  - intros (mid & Hn & Hl). by inversion Hn; subst.
  - intros Hl. inversion Hl as [|???? Hok Hr]; subst. apply IH in Hr as (mid & ? & ?).
    exists mid. split; [by constructor|done].
  - intros (mid & Hn & Hl). inversion Hn; subst. constructor; [done|]. apply IH. eauto.
Qed.

(** The field readers never panic on an 80-byte header. *)
Lemma header_fields h :
  len (raw h) = 80 →
  chain_id h = Some (le_num (slice (raw h) 0 4) / 2 ^ 16) ∧
  prev_hash h = Some (slice (raw h) 4 36) ∧
  bits h = Some (le_num (slice (raw h) 72 76)) ∧
  is_u32 (le_num (slice (raw h) 72 76)).
Proof.
  intros Hl. unfold chain_id, version, prev_hash, bits, index_u32_le, index_32.
  assert (∀ a b, a ≤ b → b ≤ 80 → get_range (raw h) a b = Some (slice (raw h) a b)) as Hg.
  { intros. apply get_range_Some. split_and!; [lia|lia|done]. }
  change (0 + 4) with 4. change (4 + 32) with 36. change (72 + 4) with 76.
  rewrite !Hg by lia. cbn [fmap option_fmap option_map mbind option_bind].
  rewrite Z.shiftr_div_pow2 by lia. split_and!; [done..|].
  pose proof (le_num_range (slice (raw h) 72 76)) as Hr. unfold len in Hr.
  rewrite length_slice in Hr by lia. unfold is_u32, u32_max.
  change (256 ^ Z.of_nat (Z.to_nat (76 - 72))) with (2 ^ 32) in Hr. lia.
Qed.

Lemma target_leq_compact b1 b2 :
  compact_valid b1 → compact_valid b2 → is_u32 b1 → is_u32 b2 →
  target_leq (be_bytes 32 (compact_value b1)) (be_bytes 32 (compact_value b2))
  = (compact_value b1 <=? compact_value b2).
Proof.
  intros [_ [_ Hv1]] [_ [_ Hv2]] H1 H2.
  assert (∀ b, is_u32 b → 0 ≤ compact_value b) as Hpos.
  { intros b Hb. destruct (compact_fields b Hb) as (_ & _ & ? & ?). unfold compact_value.
    destruct (compact_size b <=? 3) eqn:E; reflect_bools.
    - apply Z.div_pos; [lia|]. apply pow256_pos. lia.
    - apply Z.mul_nonneg_nonneg; [lia|]. apply Z.lt_le_incl, pow256_pos. lia. }
  rewrite target_leq_spec by (by rewrite !length_be_bytes).
  rewrite !be_num_bytes_small; [done|..]; (split; [by apply Hpos|done]).
Qed.

Lemma psob_step_spec plb cid prev h :
  is_u32 plb → compact_valid plb →
  (∃ r, psob_step (be_bytes 32 (compact_value plb)) cid prev h = Some r) ∧
  (∀ id, psob_step (be_bytes 32 (compact_value plb)) cid prev h = Some (Ok id) ↔
         id = sha256d (raw h) ∧ header_ok (compact_value plb) cid prev h).
Proof.
  intros Hplb Hpv. unfold psob_step.
  destruct (len (raw h) =? 80) eqn:El; reflect_bools; cbn [negb];
    [|split; [eauto|]; split; [done|by intros [_ []]]].
  destruct (header_fields h El) as (-> & -> & -> & Hb32). cbn [mbind option_bind].
  destruct (negb (_ =? cid)) eqn:Ec; reflect_bools;
    [split; [eauto|]; split; [done|by intros [_ []]]|].
  destruct (negb (bool_decide _)) eqn:Ep; reflect_bools;
    [split; [eauto|]; split; [done|by intros [_ []]]|].
  rewrite expand_target_spec by done.
  destruct (decide (compact_valid _)) as [Hbv|Hbv];
    [|split; [eauto|]; split; [done|by intros [_ []]]].
  rewrite target_leq_compact by done.
  destruct (negb (_ <=? _)) eqn:Et; reflect_bools;
    [split; [eauto|]; split; [done|intros [_ []]; lia]|].
  destruct (aux h) as [a|] eqn:Ea;
    [|split; [eauto|]; split; [done|intros [_ [_ _ _ _ _ (a & Ha & _)]]; congruence]].
  pose proof (verify_auxpow_spec (sha256d (raw h)) a cid (length_sha256d _)) as Hver.
  destruct (verify_auxpow_commitment _ a cid) eqn:Ev; cbn [negb].
  2:{ split; [eauto|]. split; [done|]. intros [_ [_ _ _ _ _ (a' & Ha & Hc & _)]].
      assert (a' = a) as -> by congruence. apply Hver in Hc. done. }
  destruct (len (parent_header a) =? 80) eqn:E80; reflect_bools; cbn [negb].
  2:{ split; [eauto|]. split; [done|]. intros [_ [_ _ _ _ _ (a' & Ha & _ & ?)]]. congruence. }
  split; [eauto|]. intros id. split; [|by intros [-> _]]. intros [= <-].
  split; [done|]. split; [done..|]. exists a. split_and!; [done|by apply Hver|done].
Qed.

Lemma psob_loop_spec plb cid prev hs :
  is_u32 plb → compact_valid plb →
  (∃ r, psob_loop (be_bytes 32 (compact_value plb)) cid prev hs = Some r) ∧
  (psob_loop (be_bytes 32 (compact_value plb)) cid prev hs = Some (Ok ()) ↔
   ∃ tip, psob_linked (compact_value plb) cid prev hs tip).
Proof.
  intros Hplb Hpv. revert prev. induction hs as [|h hs IH]; intros prev; cbn [psob_loop].
  - split; [eauto|]. split; [|done]. intros _. exists prev. constructor.
  - destruct (psob_step_spec plb cid prev h Hplb Hpv) as [[r Hr] Hok].
    rewrite Hr in Hok |- *. cbn [mbind option_bind]. destruct r as [id|e].
    + destruct (proj1 (Hok id) eq_refl) as [-> Hh]. destruct (IH (sha256d (raw h))) as [Hex Hiff].
      split; [done|]. rewrite Hiff. split.
      * intros [tip Ht]. exists tip. by constructor.
      * intros [tip Ht]. inversion Ht; subst. eauto.
    + split; [eauto|]. split; [done|]. intros [tip Ht]. inversion Ht as [|???? Hh _]; subst.
      discriminate (proj2 (Hok (sha256d (raw h))) (conj eq_refl Hh)).
Qed.

Lemma verify_psob_chain_spec hs cp cid plb :
  is_u32 plb →
  (∃ r, verify_psob_chain hs cp cid plb = Some r) ∧
  (verify_psob_chain hs cp cid plb = Some (Ok ()) ↔
   hs ≠ [] ∧ compact_valid plb ∧ ∃ tip, psob_linked (compact_value plb) cid cp hs tip).
Proof.
  intros Hplb. unfold verify_psob_chain.
  destruct hs as [|h hs]; [split; [eauto|split; [done|by intros []]]|].
  rewrite expand_target_spec by done. destruct (decide (compact_valid plb)) as [Hv|Hv].
  - destruct (psob_loop_spec plb cid cp (h :: hs) Hplb Hv) as [Hex Hiff]. split; [done|].
    rewrite Hiff. split; [intros Ht; by split_and!|tauto].
  - split; [eauto|]. split; [done|tauto].
Qed.

Lemma psob_linked_tip limit cid prev hs h tip :
  psob_linked limit cid prev (hs ++ [h]) tip → tip = sha256d (raw h).
Proof.
  intros (mid & _ & Hl)%psob_linked_app. inversion Hl as [|???? _ Hn]; subst.
  by inversion Hn.
Qed.
End psob_lemmas.

(** ** Properties *)

(** C18: AuxPoW verification.  For a 32-byte block hash, [verify_auxpow_commitment]
    accepts exactly the witnesses that satisfy the merged-mining rules: the
    coinbase is at index 0 and folds to the parent header's Merkle root, the
    parent is Litecoin and not the aux chain itself, and the coinbase contains the
    magic exactly once, followed by the reversed chain root that the block hash
    folds to, by [2 ^ height] and by a nonce that pins the chain index. *)
Theorem verify_auxpow_commitment_correct `{Sha256} (h : bytes) (a : AuxPow) (cid : Z)
    (Hh : length h = 32%nat) :
  verify_auxpow_commitment h a cid = true ↔ commits h a cid.
Proof. exact (verify_auxpow_spec h a cid Hh). Qed.

(** A merged-mining witness for [h], for the witnesses below. *)
Definition sample_aux `{Sha256} (h : bytes) (cid nonce : Z) : AuxPow :=
  let sib := replicate 32 x07 in
  let idx := get_expected_index nonce cid 1 in
  let root := merkle_fold_branch h [sib] idx in
  let cb := [x01; x02; xfa] ++ AUXPOW_MAGIC ++ rev root ++ le_bytes 4 2 ++ le_bytes 4 nonce ++ [x09] in
  let parent_root := merkle_fold_branch (sha256d cb) [sib; root] 0 in
  mkAuxPow cb [sib; root] 0 [sib] idx
    (le_bytes 4 (LTC_CHAIN_ID * 2 ^ 16 + 2) ++ replicate 32 x00 ++ parent_root ++ replicate 12 x00).

Definition sample_header `{Sha256} (prev : bytes) (cid : Z) : BlockHeader :=
  let r := le_bytes 4 (cid * 2 ^ 16 + 4) ++ prev ++ replicate 32 x05 ++ le_bytes 4 1700000000
           ++ le_bytes 4 0x1e0ffff0 ++ le_bytes 4 0 in
  mkBlockHeader r (Some (sample_aux (sha256d r) cid 77)).

Lemma verify_auxpow_commitment_correct_witness :
  length (replicate 32 x03) = 32%nat ∧
  @commits toy_hash (replicate 32 x03) (@sample_aux toy_hash (replicate 32 x03) 8224 77) 8224.
Proof.
  split; [reflexivity|].
  apply (@verify_auxpow_commitment_correct toy_hash (replicate 32 x03) _ 8224 eq_refl).
  vm_compute. reflexivity.
Defined.

(** C39: one parent, one block.  Two accepted witnesses that share a coinbase, for
    the same chain id, are for the same block, at the same index, with the same
    branch, unless two of the 64-byte buffers hashed while folding them are a
    collision of double SHA-256: a parent's work cannot be counted for two
    different blocks of a chain. *)
Theorem verify_auxpow_one_block_per_coinbase `{Sha256} (h1 h2 : bytes) (a1 a2 : AuxPow) (cid : Z)
    (Hh1 : length h1 = 32%nat) (Hh2 : length h2 = 32%nat)
    (Hwf1 : auxpow_wf a1) (Hwf2 : auxpow_wf a2)
    (Hv1 : verify_auxpow_commitment h1 a1 cid = true)
    (Hv2 : verify_auxpow_commitment h2 a2 cid = true)
    (Hcb : coinbase_tx a1 = coinbase_tx a2) :
  (h1 = h2 ∧ chain_merkle_branch a1 = chain_merkle_branch a2 ∧ chain_index a1 = chain_index a2) ∨
  collides (fold_inputs h1 (chain_merkle_branch a1) (chain_index a1))
           (fold_inputs h2 (chain_merkle_branch a2) (chain_index a2)).
Proof.
  apply verify_auxpow_spec in Hv1, Hv2; [|done..].
  destruct (commits_single_slot h1 h2 a1 a2 cid) as (Hl & Hi & Hroot); [done..|].
  rewrite Hi in Hroot |- *. destruct Hwf1, Hwf2.
  destruct (merkle_fold_binding h1 h2 _ _ _ Hh1 Hh2 wf_chain_branch0 wf_chain_branch1 Hl Hroot)
    as [[-> ->]|?]; auto.
Qed.

Lemma verify_auxpow_one_block_per_coinbase_witness :
  let h := replicate 32 x03 in let a := @sample_aux toy_hash h 8224 77 in
  @verify_auxpow_commitment toy_hash h a 8224 = true ∧ auxpow_wf a ∧
  ((h = h ∧ chain_merkle_branch a = chain_merkle_branch a ∧ chain_index a = chain_index a) ∨
   @collides toy_hash (@fold_inputs toy_hash h (chain_merkle_branch a) (chain_index a))
     (@fold_inputs toy_hash h (chain_merkle_branch a) (chain_index a))).
Proof.
  intros h a.
  assert (@verify_auxpow_commitment toy_hash h a 8224 = true) as Hv by (vm_compute; reflexivity).
  assert (auxpow_wf a) as Hwf by (split; repeat constructor; vm_compute; reflexivity).
  split; [exact Hv|]. split; [exact Hwf|].
  exact (@verify_auxpow_one_block_per_coinbase toy_hash h h a a 8224 eq_refl eq_refl
           Hwf Hwf Hv Hv eq_refl).
Defined.

(** C21: chain verification.  [verify_psob_chain] never panics, and it accepts
    exactly the non-empty header lists that link, header by header, from the
    checkpoint hash to some tip, each header being 80 bytes with the chain id, a
    valid target no easier than the limit and a committed AuxPoW witness with an
    80-byte parent. *)
Theorem verify_psob_chain_correct `{Sha256} (hs : list BlockHeader) (cp : bytes) (cid plb : Z)
    (Hplb : is_u32 plb) :
  (∃ r, verify_psob_chain hs cp cid plb = Some r) ∧
  (verify_psob_chain hs cp cid plb = Some (Ok ()) ↔
   hs ≠ [] ∧ compact_valid plb ∧ ∃ tip, psob_linked (compact_value plb) cid cp hs tip).
Proof. exact (verify_psob_chain_spec hs cp cid plb Hplb). Qed.

Definition sample_chain `{Sha256} : list BlockHeader :=
  let h1 := sample_header (replicate 32 x00) 8224 in
  let h2 := sample_header (sha256d (raw h1)) 8224 in [h1; h2].

Lemma verify_psob_chain_correct_witness :
  is_u32 CHAIN_POW_LIMIT_BITS ∧
  ∃ tip, @psob_linked toy_hash (compact_value CHAIN_POW_LIMIT_BITS) 8224 (replicate 32 x00)
           (@sample_chain toy_hash) tip.
Proof.
  assert (is_u32 CHAIN_POW_LIMIT_BITS) as Hb
    by (unfold is_u32, u32_max, CHAIN_POW_LIMIT_BITS; lia).
  split; [exact Hb|].
  apply (@verify_psob_chain_correct toy_hash (@sample_chain toy_hash) (replicate 32 x00) 8224
           CHAIN_POW_LIMIT_BITS Hb).
  vm_compute. reflexivity.
Defined.

(** Chains compose.  A window of headers verifies from a checkpoint exactly
    when its two halves do, the second from the hash of the first one's last
    header: verifying a long range block by block, or from an intermediate
    checkpoint, is the same as verifying it at once. *)
Theorem verify_psob_chain_composes `{Sha256} (hs1 hs2 : list BlockHeader) (h : BlockHeader)
    (cp : bytes) (cid plb : Z) (Hplb : is_u32 plb) (Hne : hs2 ≠ []) :
  verify_psob_chain ((hs1 ++ [h]) ++ hs2) cp cid plb = Some (Ok ()) ↔
  verify_psob_chain (hs1 ++ [h]) cp cid plb = Some (Ok ()) ∧
  verify_psob_chain hs2 (sha256d (raw h)) cid plb = Some (Ok ()).
Proof.
  rewrite !(proj2 (verify_psob_chain_spec _ _ _ _ Hplb)). split.
  - intros (_ & Hv & tip & (mid & H1 & H2)%psob_linked_app).
    pose proof (psob_linked_tip _ _ _ _ _ _ H1) as ->.
    split; (split; [by destruct hs1 || exact Hne|eauto]).
  - intros [(_ & Hv & mid & H1) (_ & _ & tip & H2)]. split; [by destruct hs1|].
    split; [done|]. exists tip. apply psob_linked_app. exists mid. split; [done|].
    by rewrite (psob_linked_tip _ _ _ _ _ _ H1).
Qed.

Lemma verify_psob_chain_composes_witness :
  let h1 := @sample_header toy_hash (replicate 32 x00) 8224 in
  let h2 := @sample_header toy_hash (@sha256d toy_hash (raw h1)) 8224 in
  is_u32 LTC_POW_LIMIT_BITS ∧
  @verify_psob_chain toy_hash [h2] (@sha256d toy_hash (raw h1)) 8224 LTC_POW_LIMIT_BITS
  = Some (Ok ()).
Proof.
  intros h1 h2.
  assert (is_u32 LTC_POW_LIMIT_BITS) as Hb
    by (unfold is_u32, u32_max, LTC_POW_LIMIT_BITS; lia).
  split; [exact Hb|].
  assert (@verify_psob_chain toy_hash [h1; h2] (replicate 32 x00) 8224 LTC_POW_LIMIT_BITS
          = Some (Ok ())) as Hv by (vm_compute; reflexivity).
  exact (proj2 (proj1 (@verify_psob_chain_composes toy_hash [] [h2] h1 (replicate 32 x00) 8224
           LTC_POW_LIMIT_BITS Hb ltac:(discriminate)) Hv)).
Defined.
