(* ===== verification/CauxPow.v ===== *)
(** * The CAuxPow wire parser

    [crates/common/src/cauxpow.rs]: the byte cursor, the transaction walker that
    strips the SegWit witness, the Merkle-branch reader with its allocation
    guard, the canonical varint writer and [parse_auxpow].  The theorems relate
    the parser to a serializer of abstract transactions and witnesses: round trip
    (both serializations of the coinbase), soundness, and stability under
    re-serialization.

    A parser is a function from a cursor to an error or a value with the next
    cursor; its counted loops are [repeat_Z].  The width of [usize] is the class
    [Usize]: 64 bits on the node, 32 in the wallet's module ([Wasm]). *)

From stdpp Require Export pretty.
From S2P Require Export AuxPow.

#[local] Open Scope Z_scope.

Definition HEADER_LEN : Z := 80.

Inductive AuxPowParseError :=
  | TruncatedHeader (l : Z)
  | Truncated (m : string)
  | BadCoinbase (m : string)
  | MissingParentHeader
  | NoAuxPow
  | BadBranch (m : string).

#[export] Instance AuxPowParseError_eq_dec : EqDecision AuxPowParseError.
Proof. solve_decision. Defined.

(** [impl Display for AuxPowParseError]. *)
Definition display_parse_error (e : AuxPowParseError) : string :=
  match e with
  | TruncatedHeader l =>
      "header truncated: " +:+ pretty l +:+ " bytes, need " +:+ pretty HEADER_LEN
  | Truncated m => "auxpow truncated: " +:+ m
  | BadCoinbase m => "bad coinbase transaction: " +:+ m
  | MissingParentHeader => "auxpow wire ends before the 80-byte parent header"
  | NoAuxPow => "no CAuxPow witness after the 80-byte header"
  | BadBranch m => "bad auxpow merkle branch: " +:+ m
  end.

(** The width of [usize], a cast to it and its checked addition. *)
Class Usize := usize_bits : Z.
Definition as_usize `{U : Usize} (n : Z) : Z := n mod 2 ^ usize_bits.
Definition usize_checked_add `{U : Usize} (a b : Z) : option Z :=
  if a + b <=? 2 ^ usize_bits - 1 then Some (a + b) else None.

Record Cursor := mkCursor { cb : bytes; cp : Z }.

Abbreviation AuxPowParseResult := (Result AuxPowParseError).

(** ** Operations *)

Section parser.
Context `{U : Usize}.

Definition take_bytes (c : Cursor) (n : Z) : AuxPowParseResult (bytes * Cursor) :=
  end_ ← ok_or (usize_checked_add (cp c) n)
           (Truncated ("offset overflow at " +:+ pretty (cp c) +:+ "+" +:+ pretty n));
  if len (cb c) <? end_
  then Err (Truncated (pretty (cp c) +:+ ".." +:+ pretty end_ +:+ " of " +:+ pretty (len (cb c))))
  else Ok (slice (cb c) (cp c) end_, mkCursor (cb c) end_).

Definition u32_le (c : Cursor) : AuxPowParseResult (Z * Cursor) :=
  '(s, c) ← take_bytes c 4; Ok (le_num s, c).

Definition hash32 (c : Cursor) : AuxPowParseResult (bytes * Cursor) := take_bytes c 32.

Definition varint (c : Cursor) : AuxPowParseResult (Z * Cursor) :=
  '(s, c) ← take_bytes c 1;
  let n := byte_at s 0 in
  if decide (n = xff) then '(s, c) ← take_bytes c 8; Ok (le_num s, c)
  else if decide (n = xfe) then '(s, c) ← take_bytes c 4; Ok (le_num s, c)
  else if decide (n = xfd) then '(s, c) ← take_bytes c 2; Ok (le_num s, c)
  else Ok (b2z n, c).

Definition write_varint (out : bytes) (n : Z) : bytes :=
  if n <? 0xfd then out ++ [z2b n]
  else if n <=? u16_max then out ++ [xfd] ++ le_bytes 2 n
  else if n <=? u32_max then out ++ [xfe] ++ le_bytes 4 n
  else out ++ [xff] ++ le_bytes 8 n.

(** The bodies of the input, output and witness loops. *)
Definition take_input (st : bytes * Cursor) : AuxPowParseResult (bytes * Cursor) :=
  let '(legacy, c) := st in
  '(prevout, c) ← take_bytes c 36;
  let legacy := legacy ++ prevout in
  '(sl, c) ← varint c;
  let sl := as_usize sl in
  let legacy := write_varint legacy sl in
  '(script, c) ← map_err (λ _, BadCoinbase "scriptSig overruns") (take_bytes c sl);
  let legacy := legacy ++ script in
  '(sequence, c) ← take_bytes c 4;
  Ok (legacy ++ sequence, c).

Definition take_output (st : bytes * Cursor) : AuxPowParseResult (bytes * Cursor) :=
  let '(legacy, c) := st in
  '(value, c) ← take_bytes c 8;
  let legacy := legacy ++ value in
  '(sl, c) ← varint c;
  let sl := as_usize sl in
  let legacy := write_varint legacy sl in
  '(spk, c) ← map_err (λ _, BadCoinbase "scriptPubKey overruns") (take_bytes c sl);
  Ok (legacy ++ spk, c).

Definition take_item (c : Cursor) : AuxPowParseResult Cursor :=
  '(sl, c) ← varint c;
  '(_, c) ← take_bytes c (as_usize sl);
  Ok c.

Definition take_witness (c : Cursor) : AuxPowParseResult Cursor :=
  '(nitems, c) ← varint c;
  repeat_Z nitems take_item c.

(** The SegWit marker: [nin] and whether a witness follows the outputs. *)
Definition take_counts (c : Cursor) : AuxPowParseResult (Z * bool * Cursor) :=
  '(nin, c) ← varint c;
  if nin =? 0 then
    '(flag, c) ← take_bytes c 1;
    if negb (bool_decide (flag = [x01]))
    then Err (BadCoinbase "zero inputs (segwit marker without flag 0x01)")
    else
      '(nin, c) ← varint c;
      if nin =? 0 then Err (BadCoinbase "zero inputs") else Ok (nin, true, c)
  else Ok (nin, false, c).

Definition take_tx (c : Cursor) : AuxPowParseResult (bytes * Z * Cursor) :=
  '(version, c) ← take_bytes c 4;
  '(nin, segwit, c) ← take_counts c;
  let legacy := write_varint version nin in
  '(legacy, c) ← repeat_Z nin take_input (legacy, c);
  '(nout, c) ← varint c;
  let legacy := write_varint legacy nout in
  '(legacy, c) ← repeat_Z nout take_output (legacy, c);
  c ← (if segwit : bool then repeat_Z nin take_witness c else Ok c);
  '(locktime, c) ← take_bytes c 4;
  Ok (legacy ++ locktime, cp c, c).

Definition branch_step (st : list bytes * Cursor) : AuxPowParseResult (list bytes * Cursor) :=
  let '(out, c) := st in
  '(h, c) ← hash32 c;
  Ok (out ++ [h], c).

Definition branch (c : Cursor) : AuxPowParseResult (list bytes * Cursor) :=
  '(n, c) ← varint c;
  let n := as_usize n in
  if Z.shiftl 1 20 <? n
  then Err (BadBranch ("branch length " +:+ pretty n +:+ " exceeds maximum ("
                       +:+ pretty (Z.shiftl 1 20) +:+ "), likely malformed"))
  else repeat_Z n branch_step ([], c).

Definition parse_auxpow (full : bytes) : AuxPowParseResult (bytes * AuxPow) :=
  if len full <? HEADER_LEN then Err (TruncatedHeader (len full)) else
  let base := slice full 0 HEADER_LEN in
  if len full =? HEADER_LEN then Err NoAuxPow else
  let c := mkCursor full HEADER_LEN in
  '(coinbase_tx, cb_end, c) ← take_tx c;
  '(_hash_block, c) ← hash32 c;
  '(parent_merkle_branch, c) ← branch c;
  '(parent_index, c) ← u32_le c;
  '(chain_merkle_branch, c) ← branch c;
  '(chain_index, c) ← u32_le c;
  '(parent_header, c) ← map_err (λ _, MissingParentHeader) (take_bytes c HEADER_LEN);
  Ok (base, mkAuxPow coinbase_tx parent_merkle_branch parent_index chain_merkle_branch
              chain_index parent_header).

Definition parse_header_with_auxpow (full : bytes) : AuxPowParseResult (BlockHeader * AuxPow) :=
  '(base, a) ← parse_auxpow full;
  Ok (mkBlockHeader base (Some a), a).
End parser.

(** The node is built for 64 bits, the wallet's module for wasm32. *)
#[export] Instance usize64 : Usize := 64.
Definition usize32 : Usize := 32.

Lemma as_usize_id n : is_u64 n → as_usize n = n.
Proof. intros Hn. apply Z.mod_small. unfold is_u64, u64_max in Hn. unfold usize_bits, usize64. lia. Qed.
Lemma usize_checked_add_64 a b : usize_checked_add a b = u64_checked_add a b.
Proof. reflexivity. Qed.

(** ** Relational semantics of the cursor parsers

    [parses f R]: on a buffer that fits an allocation, [f] succeeds with [v]
    exactly when the unread input starts with some [w] that [R v] relates, and it
    consumes that [w].  Both directions are in the statement, so soundness and
    completeness of the composed parsers come from the same lemmas. *)

Definition cursor_at (pre rest : bytes) : Cursor := mkCursor (pre ++ rest) (len pre).

Definition parses {A} (f : Cursor → AuxPowParseResult (A * Cursor)) (R : A → bytes → Prop) : Prop :=
  ∀ pre rest v c', len (pre ++ rest) ≤ usize_max →
    f (cursor_at pre rest) = Ok (v, c') ↔
    ∃ w rest', R v w ∧ rest = w ++ rest' ∧ c' = cursor_at (pre ++ w) rest'.

Definition seqR {A B} (R : A → bytes → Prop) (S : A → B → bytes → Prop) (u : B) (w : bytes) : Prop :=
  ∃ v w1 w2, w = w1 ++ w2 ∧ R v w1 ∧ S v u w2.

(** Reading exactly [n] bytes, and returning without reading. *)
Definition takeR (n : Z) (s w : bytes) : Prop := w = s ∧ len s = n.
Definition retR {A} (v u : A) (w : bytes) : Prop := u = v ∧ w = [].

Lemma parses_iff {A} f (R R' : A → bytes → Prop) :
  parses f R → (∀ v w, R v w ↔ R' v w) → parses f R'.
Proof.
  intros Hf HR pre rest v c' Hl. rewrite (Hf pre rest v c' Hl).
  by setoid_rewrite HR.
Qed.

Lemma parses_ret {A} (v : A) : parses (λ c, Ok (v, c)) (retR v).
Proof.
  unfold retR.
  intros pre rest u c' _. split.
  - intros [= <- <-]. exists [], rest. by rewrite app_nil_r.
  - intros (w & rest' & [-> ->] & -> & ->). by rewrite app_nil_r.
Qed.

Lemma parses_err {A} (e : Cursor → AuxPowParseError) :
  parses (λ c, Err (e c)) (λ (_ : A) _, False).
Proof. intros pre rest v c' _. split; [done|]. by intros (?&?&?&_). Qed.

Lemma parses_bind {A B} f (g : A → Cursor → AuxPowParseResult (B * Cursor)) R S :
  parses f R → (∀ v w, R v w → parses (g v) (S v)) →
  parses (λ c, '(v, c) ← f c; g v c) (seqR R S).
Proof.
  intros Hf Hg pre rest u c' Hl. split.
  - intros ([v c1] & H1 & H2)%bind_Ok.
    apply Hf in H1 as (w1 & rest1 & HR & -> & ->); [|done].
    rewrite app_assoc in Hl. apply (Hg v w1 HR) in H2 as (w2 & rest2 & HS & -> & ->); [|done].
    exists (w1 ++ w2), rest2. rewrite <-!app_assoc. split_and!; [|done|done].
    by exists v, w1, w2.
  - intros (w & rest' & (v & w1 & w2 & -> & HR & HS) & -> & ->).
    apply bind_Ok. exists (v, cursor_at (pre ++ w1) (w2 ++ rest')). split.
    + apply Hf; [done|]. exists w1, (w2 ++ rest'). by rewrite <-app_assoc.
    + apply (Hg v w1 HR); [by rewrite <-!app_assoc in *|]. exists w2, rest'. by rewrite <-!app_assoc.
Qed.

Lemma parses_case {A} (b : bool) f g (R S : A → bytes → Prop) :
  (b = true → parses f R) → (b = false → parses g S) →
  parses (λ c, if b then f c else g c) (λ v w, if b then R v w else S v w).
Proof. destruct b; auto. Qed.

Lemma parses_decide {A} (P : Prop) `{Decision P} f g (R S : A → bytes → Prop) :
  parses f R → parses g S →
  parses (λ c, if decide P then f c else g c) (λ v w, if decide P then R v w else S v w).
Proof. destruct (decide P); auto. Qed.

Lemma parses_map_err {A} (h : AuxPowParseError → AuxPowParseError) f (R : A → bytes → Prop) :
  parses f R → parses (λ c, map_err h (f c)) R.
Proof.
  intros Hf pre rest v c' Hl. rewrite <-(Hf pre rest v c' Hl).
  destruct (f _); simpl; [done|]. by split.
Qed.

Lemma parses_take n : 0 ≤ n → parses (λ c, take_bytes c n) (takeR n).
Proof.
  unfold takeR.
  intros Hn pre rest s c' Hl. unfold take_bytes, cursor_at. rewrite usize_checked_add_64. unfold u64_checked_add. cbn [cb cp].
  unfold usize_max in Hl. split.
  - destruct (_ <=? u64_max) eqn:E; reflect_bools; [|done]. cbn [ok_or mbind Result_bind].
    destruct (_ <? _) eqn:E2; reflect_bools; [done|]. intros [= <- <-].
    rewrite slice_app_r, Z.sub_diag by lia. rewrite len_app in E2.
    exists (slice rest 0 (len pre + n - len pre)), (drop (Z.to_nat n) rest).
    assert (slice rest 0 (len pre + n - len pre) = take (Z.to_nat n) rest) as ->.
    { unfold slice. change (Z.to_nat 0) with 0%nat. rewrite drop_0. f_equal. lia. }
    assert (len (take (Z.to_nat n) rest) = n) as Ht.
    { unfold len in *. rewrite length_take. lia. }
    split_and!; [done|done|by rewrite take_drop|].
    rewrite <-app_assoc, take_drop, len_app, Ht. done.
  - intros (w & rest' & [-> <-] & -> & ->). rewrite !len_app in Hl.
    pose proof (len_nonneg rest').
    destruct (_ <=? u64_max) eqn:E; reflect_bools; [|lia]. cbn [ok_or mbind Result_bind].
    destruct (_ <? _) eqn:E2; reflect_bools; [rewrite !len_app in E2; lia|].
    rewrite (slice_middle pre s rest') by done. by rewrite <-app_assoc, len_app.
Qed.

(** Counted loops over an accumulator: the items read, in order, pushed one by
    one by an operation that may refuse. *)
Fixpoint fold_opt {A I} (push : A → I → option A) (acc : A) (items : list I) : option A :=
  match items with
  | [] => Some acc
  | i :: items => acc ← push acc i; fold_opt push acc items
  end.

Lemma fold_opt_total {A I} (push : A → I → A) acc items :
  fold_opt (λ a i, Some (push a i)) acc items = Some (foldl push acc items).
Proof. revert acc; induction items as [|i items IH]; intros acc; [done|apply IH]. Qed.

Lemma parses_loop_opt {A I} (step : A * Cursor → AuxPowParseResult (A * Cursor))
    (push : A → I → option A) (item : I → bytes → Prop) n acc :
  (∀ acc, parses (λ c, step (acc, c)) (λ acc' w, ∃ i, item i w ∧ push acc i = Some acc')) →
  0 ≤ n →
  parses (λ c, repeat_Z n step (acc, c))
    (λ acc' w, ∃ items ws, len items = n ∧ Forall2 item items ws ∧ w = concat ws ∧
                           fold_opt push acc items = Some acc').
Proof.
  intros Hstep Hn pre rest v c' Hl. rewrite repeat_Z_nat.
  rewrite <-(Z2Nat.id n Hn). rewrite Nat2Z.id. set (k := Z.to_nat n). clearbody k. clear n Hn.
  revert acc pre rest Hl. induction k as [|k IH]; intros acc pre rest Hl; cbn [repeat_nat].
  - split.
    + intros [= <- <-]. exists [], rest. rewrite app_nil_r. split_and!; [|done|done].
      exists [], []. repeat split. constructor.
    + intros (w & rest' & (items & ws & Hk & HF & -> & Hf) & -> & ->).
      destruct items; [|unfold len in Hk; simpl in Hk; lia]. inversion HF; subst.
      injection Hf as ->. by rewrite app_nil_r.
  - split.
    + intros ([acc1 c1] & H1 & H2)%bind_Ok.
      apply Hstep in H1 as (w1 & rest1 & (i & Hi & Hp) & -> & ->); [|done].
      rewrite app_assoc in Hl.
      apply IH in H2 as (w2 & rest2 & (items & ws & Hk & HF & -> & Hf) & -> & ->); [|done].
      exists (w1 ++ concat ws), rest2. rewrite <-!app_assoc. split_and!; [|done|done].
      exists (i :: items), (w1 :: ws). rewrite len_cons.
      split_and!; [lia|by constructor|done|]. cbn [fold_opt]. by rewrite Hp.
    + intros (w & rest' & (items & ws & Hk & HF & -> & Hf) & -> & ->).
      destruct items as [|i items]; [unfold len in Hk; simpl in Hk; lia|].
      inversion HF as [|? w1 ? ws' Hi HF']; subst. rewrite len_cons in Hk. cbn [concat] in *.
      cbn [fold_opt] in Hf. apply bind_Some in Hf as (acc1 & Hp & Hf).
      rewrite <-app_assoc in Hl |- *.
      apply bind_Ok. exists (acc1, cursor_at (pre ++ w1) (concat ws' ++ rest')). split.
      * apply Hstep; [done|]. exists w1, (concat ws' ++ rest'). split; [by exists i|done].
      * apply IH; [by rewrite <-app_assoc|]. exists (concat ws'), rest'. rewrite <-!app_assoc.
        split_and!; [|done|done]. exists items, ws'. split_and!; [lia|done..].
Qed.

Lemma parses_loop {A I} (step : A * Cursor → AuxPowParseResult (A * Cursor))
    (push : A → I → A) (item : I → bytes → Prop) n acc :
  (∀ acc, parses (λ c, step (acc, c)) (λ acc' w, ∃ i, item i w ∧ acc' = push acc i)) →
  0 ≤ n →
  parses (λ c, repeat_Z n step (acc, c))
    (λ acc' w, ∃ items ws, len items = n ∧ Forall2 item items ws ∧ w = concat ws ∧
                           acc' = foldl push acc items).
Proof.
  intros Hstep Hn. eapply parses_iff.
  - apply (parses_loop_opt step (λ a i, Some (push a i)) item); [|done].
    intros acc'. eapply parses_iff; [apply Hstep|]. intros v w. cbn beta.
    split; intros (i & ? & ?); exists i; (split; [done|congruence]).
  - intros v w. split; intros (items & ws & ? & ? & ? & Hf); exists items, ws;
      rewrite fold_opt_total in *; (split_and!; [done..|congruence]).
Qed.

(** ** The wire grammar *)

(** The encodings [varint] accepts for [n]: the canonical one and the longer
    ones. *)
Definition varint_enc (n : Z) (w : bytes) : Prop :=
  (0 ≤ n < 0xfd ∧ w = [z2b n]) ∨ (0 ≤ n ≤ u16_max ∧ w = xfd :: le_bytes 2 n) ∨
  (is_u32 n ∧ w = xfe :: le_bytes 4 n) ∨ (is_u64 n ∧ w = xff :: le_bytes 8 n).

Record TxIn := mkTxIn { prevout : bytes; script_sig : bytes; in_sequence : bytes }.
Record TxOut := mkTxOut { out_value : bytes; script_pubkey : bytes }.
Record LegacyTx := mkTx { tx_version : bytes; tx_ins : list TxIn; tx_outs : list TxOut; tx_locktime : bytes }.

Definition varint_bytes (n : Z) : bytes := write_varint [] n.

(** The canonical legacy serialization. *)
Definition in_bytes (i : TxIn) : bytes :=
  prevout i ++ varint_bytes (len (script_sig i)) ++ script_sig i ++ in_sequence i.
Definition out_bytes (o : TxOut) : bytes :=
  out_value o ++ varint_bytes (len (script_pubkey o)) ++ script_pubkey o.
Definition tx_bytes (t : LegacyTx) : bytes :=
  tx_version t ++ varint_bytes (len (tx_ins t)) ++ concat (map in_bytes (tx_ins t))
  ++ varint_bytes (len (tx_outs t)) ++ concat (map out_bytes (tx_outs t)) ++ tx_locktime t.

(** What may stand on the wire for an input, an output, a witness item, the
    witness of an input, and a transaction. *)
Definition in_wire (i : TxIn) (w : bytes) : Prop :=
  len (prevout i) = 36 ∧ len (in_sequence i) = 4 ∧
  ∃ v, varint_enc (len (script_sig i)) v ∧ w = prevout i ++ v ++ script_sig i ++ in_sequence i.
Definition out_wire (o : TxOut) (w : bytes) : Prop :=
  len (out_value o) = 8 ∧
  ∃ v, varint_enc (len (script_pubkey o)) v ∧ w = out_value o ++ v ++ script_pubkey o.
Definition item_wire (i w : bytes) : Prop := ∃ v, varint_enc (len i) v ∧ w = v ++ i.
Definition wit_wire (items : list bytes) (w : bytes) : Prop :=
  ∃ v ws, varint_enc (len items) v ∧ Forall2 item_wire items ws ∧ w = v ++ concat ws.

(** The start of the transaction: a non-zero input count, or the SegWit marker
    and flag and then one. *)
Definition counts_wire (r : Z * bool) (w : bytes) : Prop :=
  r.1 ≠ 0 ∧ if r.2 then ∃ m v, varint_enc 0 m ∧ varint_enc r.1 v ∧ w = m ++ [x01] ++ v
            else varint_enc r.1 w.

Definition tx_wire (t : LegacyTx) (segwit : bool) (w : bytes) : Prop :=
  len (tx_version t) = 4 ∧ len (tx_locktime t) = 4 ∧
  ∃ vi wi vo wo wits ww,
    counts_wire (len (tx_ins t), segwit) vi ∧ Forall2 in_wire (tx_ins t) wi ∧
    varint_enc (len (tx_outs t)) vo ∧ Forall2 out_wire (tx_outs t) wo ∧
    (if segwit then len wits = len (tx_ins t) else wits = []) ∧
    Forall2 wit_wire wits ww ∧
    w = tx_version t ++ vi ++ concat wi ++ vo ++ concat wo ++ concat ww ++ tx_locktime t.

Lemma write_varint_app out n : write_varint out n = out ++ varint_bytes n.
Proof.
  unfold varint_bytes, write_varint. repeat case_match; by rewrite ?app_nil_l.
Qed.

Lemma varint_bytes_enc n : is_u64 n → varint_enc n (varint_bytes n).
Proof.
  unfold is_u64. intros Hn. unfold varint_bytes, write_varint, varint_enc.
  destruct (n <? 0xfd) eqn:E1; reflect_bools; [left; split; [lia|done]|].
  destruct (n <=? u16_max) eqn:E2; reflect_bools; [right; left; split; [lia|done]|].
  destruct (n <=? u32_max) eqn:E3; reflect_bools; [right; right; left|right; right; right];
    (split; [|done]); [unfold is_u32; lia|done].
Qed.

Lemma varint_enc_range n w : varint_enc n w → is_u64 n.
Proof.
  unfold varint_enc, is_u64, is_u32, u64_max, u32_max, u16_max. intuition lia.
Qed.

Lemma varint_enc_zero : varint_enc 0 [x00].
Proof. left. done. Qed.

Lemma take_enc k s : len s = Z.of_nat k → s = le_bytes k (le_num s) ∧ 0 ≤ le_num s < 256 ^ Z.of_nat k.
Proof.
  intros Hs. split; [|rewrite <-Hs; apply le_num_range].
  rewrite <-(le_bytes_num s) at 1. f_equal. unfold len in Hs. lia.
Qed.

(** The multi-byte arms of [varint]. *)
Lemma parses_varint_arm (k : nat) :
  parses (λ c, '(s, c) ← take_bytes c (Z.of_nat k); Ok (le_num s, c))
    (λ n w, 0 ≤ n < 256 ^ Z.of_nat k ∧ w = le_bytes k n).
Proof.
  eapply parses_iff.
  - apply (parses_bind _ (λ s c, Ok (le_num s, c))); [apply parses_take; lia|].
    intros s w _. apply parses_ret.
  - intros n w. unfold seqR, takeR, retR. split.
    + intros (s & w1 & w2 & -> & [-> Hs] & [-> ->]). rewrite app_nil_r.
      destruct (take_enc k s Hs). done.
    + intros [Hn ->]. exists (le_bytes k n), (le_bytes k n), [].
      rewrite app_nil_r, len_le_bytes. split_and!; [done..| |done].
      by rewrite le_num_bytes_small.
Qed.

Lemma parses_varint : parses varint varint_enc.
Proof.
  eapply parses_iff.
  - unfold varint.
    apply (parses_bind _ (λ s c,
      if decide (byte_at s 0 = xff) then '(s, c) ← take_bytes c 8; Ok (le_num s, c)
      else if decide (byte_at s 0 = xfe) then '(s, c) ← take_bytes c 4; Ok (le_num s, c)
      else if decide (byte_at s 0 = xfd) then '(s, c) ← take_bytes c 2; Ok (le_num s, c)
      else Ok (b2z (byte_at s 0), c))); [apply parses_take; lia|].
    intros s w _. apply parses_decide; [apply (parses_varint_arm 8)|].
    apply parses_decide; [apply (parses_varint_arm 4)|].
    apply parses_decide; [apply (parses_varint_arm 2)|]. apply parses_ret.
  - intros n w. unfold seqR, takeR, retR, varint_enc, is_u32, is_u64, u16_max, u32_max, u64_max. split.
    + intros (s & w1 & w2 & -> & [-> Hs] & Hw).
      destruct s as [|b [|]]; [done| |unfold len in Hs; simpl in Hs; lia].
      change (byte_at [b] 0) with b in Hw.
      repeat case_decide; subst; destruct Hw as [Hn ->].
      * right; right; right. change (256 ^ Z.of_nat 8) with (2 ^ 64) in Hn. split; [lia|done].
      * right; right; left. change (256 ^ Z.of_nat 4) with (2 ^ 32) in Hn. split; [lia|done].
      * right; left. change (256 ^ Z.of_nat 2) with (2 ^ 16) in Hn. split; [lia|done].
      * left. rewrite Hn, z2b_b2z. split; [|done]. pose proof (b2z_range b).
        assert (∀ x, b ≠ x → b2z b ≠ b2z x) as Hne by (intros x Hx Hb; by apply b2z_inj in Hb).
        pose proof (Hne xff H). pose proof (Hne xfe H0). pose proof (Hne xfd H1).
        change (b2z xff) with 255 in *. change (b2z xfe) with 254 in *.
        change (b2z xfd) with 253 in *. lia.
    + intros [[Hn ->]|[[Hn ->]|[[Hn ->]|[Hn ->]]]].
      * exists [z2b n], [z2b n], []. split; [done|]. split; [done|].
        change (byte_at [z2b n] 0) with (z2b n).
        assert (b2z (z2b n) = n) as Hb by (rewrite b2z_z2b, Z.mod_small; lia).
        assert (∀ x, 0xfd ≤ b2z x → z2b n ≠ x) as Hne by (intros x Hx Hz; rewrite Hz in Hb; lia).
        rewrite !decide_False by (apply Hne; vm_compute; done). by rewrite Hb.
      * exists [xfd], [xfd], (le_bytes 2 n). split; [done|]. split; [done|].
        change (byte_at [xfd] 0) with xfd. repeat case_decide; try done. split; [simpl; lia|done].
      * exists [xfe], [xfe], (le_bytes 4 n). split; [done|]. split; [done|].
        change (byte_at [xfe] 0) with xfe. repeat case_decide; try done. split; [simpl; lia|done].
      * exists [xff], [xff], (le_bytes 8 n). split; [done|]. split; [done|].
        change (byte_at [xff] 0) with xff. repeat case_decide; try done. split; [simpl; lia|done].
Qed.

(** ** The transaction walker *)

Lemma varint_nonneg n w : varint_enc n w → 0 ≤ n.
Proof. intros H%varint_enc_range. unfold is_u64 in H. lia. Qed.

Ltac parse_take := apply parses_take; lia.

(** An input read field by field, and an output. *)
Lemma seq_in_wire {A} (ret : bytes → bytes → bytes → A) u w :
  seqR (takeR 36) (λ po, seqR varint_enc (λ sl, seqR (takeR sl) (λ sc, seqR (takeR 4)
    (λ sq, retR (ret po sc sq))))) u w ↔
  ∃ i, in_wire i w ∧ u = ret (prevout i) (script_sig i) (in_sequence i).
Proof.
  unfold seqR, takeR, retR, in_wire. split.
  - intros (po & ? & ? & -> & [-> Hpo] & sl & ve & ? & -> & Hv & sc & ? & ? & -> & [-> <-]
            & sq & ? & ? & -> & [-> Hsq] & -> & ->).
    exists (mkTxIn po sc sq). rewrite app_nil_r. cbn [prevout script_sig in_sequence]. eauto 10.
  - intros ([po sc sq] & (Hpo & Hsq & ve & Hv & ->) & ->).
    cbn [prevout script_sig in_sequence] in *.
    exists po, po, (ve ++ sc ++ sq). split_and!; [done..|].
    exists (len sc), ve, (sc ++ sq). split_and!; [done..|].
    exists sc, sc, sq. split_and!; [done..|]. exists sq, sq, []. by rewrite app_nil_r.
Qed.

Lemma seq_out_wire {A} (ret : bytes → bytes → A → Prop) u w :
  seqR (takeR 8) (λ va, seqR varint_enc (λ sl, seqR (takeR sl)
    (λ sc u w, ret va sc u ∧ w = []))) u w ↔
  ∃ o, out_wire o w ∧ ret (out_value o) (script_pubkey o) u.
Proof.
  unfold seqR, takeR, out_wire. split.
  - intros (va & ? & ? & -> & [-> Hva] & sl & ve & ? & -> & Hv & sc & ? & ? & -> & [-> <-] & Hr & ->).
    exists (mkTxOut va sc). rewrite app_nil_r. cbn [out_value script_pubkey]. eauto 10.
  - intros ([va sc] & (Hva & ve & Hv & ->) & Hr). cbn [out_value script_pubkey] in *.
    exists va, va, (ve ++ sc). split_and!; [done..|].
    exists (len sc), ve, sc. split_and!; [done..|]. exists sc, sc, []. by rewrite app_nil_r.
Qed.

Lemma parses_take_input acc :
  parses (λ c, take_input (acc, c)) (λ acc' w, ∃ i, in_wire i w ∧ acc' = acc ++ in_bytes i).
Proof.
  eapply parses_iff; [|intros acc' w; etrans;
    [apply (seq_in_wire (λ po sc sq, ((write_varint (acc ++ po) (len sc)) ++ sc) ++ sq))|]].
  - unfold take_input. eapply parses_bind; [parse_take|]. intros po _ _.
    eapply parses_bind; [apply parses_varint|]. intros sl w Hw. rewrite (as_usize_id sl) by (by eapply varint_enc_range).
    apply varint_nonneg in Hw. cbv zeta.
    eapply parses_bind; [by apply parses_map_err, parses_take|]. intros sc w' [_ <-].
    eapply parses_bind; [parse_take|]. intros sq _ _. apply parses_ret.
  - unfold in_bytes. split; intros (i & Hi & ->); exists i; (split; [done|]);
      by rewrite write_varint_app, <-!app_assoc.
Qed.

Lemma parses_take_output acc :
  parses (λ c, take_output (acc, c)) (λ acc' w, ∃ o, out_wire o w ∧ acc' = acc ++ out_bytes o).
Proof.
  eapply parses_iff; [|intros acc' w; etrans;
    [apply (seq_out_wire (λ va sc u, u = (write_varint (acc ++ va) (len sc)) ++ sc))|]].
  - unfold take_output. eapply parses_bind; [parse_take|]. intros value _ _.
    eapply parses_bind; [apply parses_varint|]. intros sl w Hw. rewrite (as_usize_id sl) by (by eapply varint_enc_range).
    apply varint_nonneg in Hw. cbv zeta.
    eapply parses_bind; [by apply parses_map_err, parses_take|]. intros spk w' [_ <-].
    apply parses_ret.
  - unfold out_bytes. split; intros (i & Hi & ->); exists i; (split; [done|]);
      by rewrite write_varint_app, <-!app_assoc.
Qed.

(** Parsers that only move the cursor, as parsers of [unit]. *)
Definition unit_parser (f : Cursor → AuxPowParseResult Cursor) (c : Cursor) :
    AuxPowParseResult (unit * Cursor) := c ← f c; Ok ((), c).

Lemma repeat_unit n f c :
  unit_parser (repeat_Z n f) c = repeat_Z n (λ st : unit * Cursor, unit_parser f st.2) ((), c).
Proof.
  unfold unit_parser. rewrite !repeat_Z_nat. generalize (Z.to_nat n) as k. intros k. revert c.
  induction k as [|k IH]; intros c; [done|]. cbn [repeat_nat snd].
  destruct (f c) as [c1|]; [|done]. cbn. rewrite <-IH. done.
Qed.

Lemma parses_item : parses (unit_parser take_item) (λ _ w, ∃ i, item_wire i w).
Proof.
  assert (parses (λ c, '(sl, c) ← varint c; '(_, c) ← take_bytes c (as_usize sl); Ok ((), c))
            (λ _ w, ∃ i, item_wire i w)) as H.
  { eapply parses_iff.
    - eapply parses_bind; [apply parses_varint|]. intros sl w Hw. rewrite (as_usize_id sl) by (by eapply varint_enc_range).
      apply varint_nonneg in Hw. eapply parses_bind; [by apply parses_take|]. intros sc _ _. apply parses_ret.
    - intros u w. unfold seqR, takeR, retR, item_wire. split.
      + intros (sl & ve & ? & -> & Hv & sc & ? & ? & -> & [-> <-] & -> & ->).
        rewrite app_nil_r. eauto.
      + intros (sc & ve & Hv & ->). exists (len sc), ve, sc. split_and!; [done..|].
        exists sc, sc, []. rewrite app_nil_r. by destruct u. }
  intros pre rest u c' Hl. rewrite <-(H pre rest u c' Hl). unfold unit_parser, take_item.
  destruct (varint _) as [[]|]; [|done]. cbn. by destruct (take_bytes _ _) as [[]|].
Qed.

Lemma parses_unit_loop f (item : bytes → Prop) n :
  parses (unit_parser f) (λ _ w, item w) → 0 ≤ n →
  parses (unit_parser (repeat_Z n f)) (λ _ w, ∃ ws, len ws = n ∧ Forall item ws ∧ w = concat ws).
Proof.
  intros Hf Hn. eapply parses_iff.
  - intros pre rest u c' Hl. rewrite repeat_unit. revert pre rest u c' Hl.
    apply (parses_loop (λ st : unit * Cursor, unit_parser f st.2) (λ _ _, ()) (λ (_ : unit) w, item w) n ()); [|done].
    intros []. eapply parses_iff; [exact Hf|]. intros [] w. split; [by exists ()|by intros (?&?&?)].
  - intros [] w. split.
    + intros (items & ws & Hl & HF & -> & _). exists ws. split_and!; [|by eapply Forall2_Forall_r; [|apply Forall_true]|done].
      apply Forall2_length in HF. unfold len in *. lia.
    + intros (ws & Hl & HF & ->). exists (replicate (length ws) ()), ws. split_and!; [| |done|].
      * unfold len in *. by rewrite length_replicate.
      * clear -HF. induction HF; constructor; auto.
      * by destruct (foldl _ _ _).
Qed.

Lemma Forall_exists_Forall2 {A B} (R : A → B → Prop) (ws : list B) :
  Forall (λ w, ∃ i, R i w) ws ↔ ∃ items, Forall2 R items ws.
Proof.
  split.
  - induction 1 as [|w ws [i Hi] _ [items IH]]; [by exists []|]. exists (i :: items). by constructor.
  - intros [items HF]. induction HF; constructor; eauto.
Qed.

Lemma parses_witness : parses (unit_parser take_witness) (λ _ w, ∃ items, wit_wire items w).
Proof.
  assert (parses (λ c, '(n, c) ← varint c; unit_parser (repeat_Z n take_item) c)
            (λ _ w, ∃ items, wit_wire items w)) as H.
  { eapply parses_iff.
    - eapply parses_bind; [apply parses_varint|]. intros n w Hn%varint_nonneg.
      apply parses_unit_loop; [apply parses_item|done].
    - intros u w. unfold seqR, takeR, retR, wit_wire. split.
      + intros (n & ve & ? & -> & Hv & ws & <- & HF & ->).
        apply Forall_exists_Forall2 in HF as [items HF].
        assert (len ws = len items) as Hl by (apply Forall2_length in HF; unfold len; lia).
        rewrite Hl in Hv. eauto 10.
      + intros (items & ve & ws & Hv & HF & ->).
        assert (len ws = len items) as Hl by (apply Forall2_length in HF; unfold len; lia).
        exists (len items), ve, (concat ws). split_and!; [done..|]. exists ws.
        split_and!; [done| |done]. apply Forall_exists_Forall2. eauto. }
  intros pre rest u c' Hl. rewrite <-(H pre rest u c' Hl). unfold unit_parser, take_witness.
  by destruct (varint _) as [[]|].
Qed.

Lemma parses_counts : parses (λ c, take_counts c) counts_wire.
Proof.
  eapply parses_iff.
  - unfold take_counts. eapply parses_bind; [apply parses_varint|]. intros nin _ _.
    apply (parses_case (nin =? 0)); intros _.
    + eapply parses_bind; [parse_take|]. intros flag _ _.
      apply (parses_case (negb (bool_decide (flag = [x01])))); intros _; [apply parses_err|].
      eapply parses_bind; [apply parses_varint|]. intros nin' _ _.
      apply (parses_case (nin' =? 0)); intros _; [apply parses_err|apply parses_ret].
    + apply parses_ret.
  - intros [n sw] w. unfold seqR, takeR, retR, counts_wire; cbn [fst snd]. split.
    + intros (nin & w1 & ? & -> & Hv & Hw). destruct (nin =? 0) eqn:E0; reflect_bools.
      * destruct Hw as (flag & ? & ? & -> & [-> _] & Hw).
        destruct (negb _) eqn:Ef; [done|]. reflect_bools.
        destruct Hw as (nin' & w2 & ? & -> & Hv2 & Hw).
        destruct (nin' =? 0) eqn:E1; reflect_bools; [done|]. destruct Hw as [[= -> ->] ->].
        split; [done|]. subst. exists w1, w2. by rewrite app_nil_r.
      * destruct Hw as [[= -> ->] ->]. rewrite app_nil_r. done.
    + intros [Hn Hw]. destruct sw.
      * destruct Hw as (m & v & Hm & Hv & ->). exists 0, m, ([x01] ++ v). split_and!; [done..|].
        cbn [Z.eqb]. exists [x01], [x01], v. split_and!; [done..|].
        rewrite bool_decide_eq_true_2 by done. cbn [negb]. exists n, v, [].
        rewrite app_nil_r. split_and!; [done..|]. by rewrite (proj2 (Z.eqb_neq _ _) Hn).
      * exists n, w, []. rewrite app_nil_r. split_and!; [done..|].
        by rewrite (proj2 (Z.eqb_neq _ _) Hn).
Qed.

(** [take_tx] without the redundant end offset it also returns. *)
Definition take_tx_body (c : Cursor) : AuxPowParseResult (bytes * Cursor) :=
  '(version, c) ← take_bytes c 4;
  '(r, c) ← take_counts c;
  '(legacy, c) ← repeat_Z r.1 take_input (write_varint version r.1, c);
  '(nout, c) ← varint c;
  '(legacy, c) ← repeat_Z nout take_output (write_varint legacy nout, c);
  '(_, c) ← (if r.2 : bool then unit_parser (repeat_Z r.1 take_witness) c else Ok ((), c));
  '(locktime, c) ← take_bytes c 4;
  Ok (legacy ++ locktime, c).

Lemma take_tx_eq c : take_tx c = ('(l, c) ← take_tx_body c; Ok (l, cp c, c)).
Proof.
  unfold take_tx, take_tx_body, unit_parser. cbv [mbind Result_bind].
  destruct (take_bytes c 4) as [[ve c1]|]; [|done].
  destruct (take_counts c1) as [[[nin sw] c2]|]; [|done]. cbn [fst snd].
  destruct (repeat_Z nin take_input _) as [[l3 c3]|]; [|done].
  destruct (varint c3) as [[nout c4]|]; [|done].
  destruct (repeat_Z nout take_output _) as [[l5 c5]|]; [|done].
  destruct sw; [destruct (repeat_Z nin take_witness c5) as [c6|]; [|done]|];
    by destruct (take_bytes _ 4) as [[]|].
Qed.

Lemma foldl_push_concat {I} (enc : I → bytes) acc items :
  foldl (λ a i, a ++ enc i) acc items = acc ++ concat (map enc items).
Proof.
  revert acc; induction items as [|i items IH]; intros acc; cbn [foldl map concat].
  - by rewrite app_nil_r.
  - by rewrite IH, app_assoc.
Qed.

(** The witness section: a stack per input behind the marker, else nothing. *)
Lemma witnesses_iff (segwit : bool) n w (u : unit) :
  (if segwit then ∃ ws, len ws = n ∧ Forall (λ w, ∃ items, wit_wire items w) ws ∧ w = concat ws
   else u = () ∧ w = []) ↔
  ∃ wits ww, (if segwit then len wits = n else wits = []) ∧ Forall2 wit_wire wits ww ∧ w = concat ww.
Proof.
  destruct segwit; split.
  - intros (ws & Hl & HF & ->). apply Forall_exists_Forall2 in HF as [wits HF]. exists wits, ws.
    split_and!; [|done|done]. apply Forall2_length in HF. unfold len in *. lia.
  - intros (wits & ws & Hl & HF & ->). exists ws. split_and!; [|apply Forall_exists_Forall2; eauto|done].
    apply Forall2_length in HF. unfold len in *. lia.
  - intros [_ ->]. by exists [], [].
  - intros (wits & ww & -> & HF & ->). inversion HF. by destruct u.
Qed.

Lemma parses_tx_body :
  parses (λ c, take_tx_body c) (λ l w, ∃ t segwit, tx_wire t segwit w ∧ l = tx_bytes t).
Proof.
  eapply parses_iff.
  - unfold take_tx_body. eapply parses_bind; [parse_take|]. intros version _ _.
    eapply parses_bind; [apply parses_counts|]. intros r wc [Hn0 Hc].
    assert (0 ≤ r.1) as Hn.
    { destruct (r.2); [destruct Hc as (?&?&_&Hc&_)|]; by apply varint_nonneg in Hc. }
    eapply parses_bind.
    { apply (parses_loop take_input (λ a i, a ++ in_bytes i) in_wire); [apply parses_take_input|done]. }
    intros legacy _ _. eapply parses_bind; [apply parses_varint|]. intros nout wo Hno%varint_nonneg.
    eapply parses_bind.
    { apply (parses_loop take_output (λ a i, a ++ out_bytes i) out_wire); [apply parses_take_output|done]. }
    intros legacy' _ _. eapply parses_bind.
    { apply (parses_case (r.2) (unit_parser (repeat_Z r.1 take_witness)) (λ c, Ok ((), c)));
        intros _; [|apply parses_ret].
      apply parses_unit_loop; [apply parses_witness|done]. }
    intros u _ _. eapply parses_bind; [parse_take|]. intros lt _ _. apply parses_ret.
  - intros l w. unfold seqR, takeR, retR, tx_wire. split.
    + intros (ve & ? & ? & -> & [-> Hve] & [nin sw] & wc & ? & -> & Hc & legacy & ? & ? & -> &
              (ins & wi & Hli & Hi & -> & ->) & nout & vo & ? & -> & Hvo & legacy' & ? & ? & -> &
              (outs & wo & Hlo & Ho & -> & ->) & [] & wwit & ? & -> & Hwit & lt & ? & ? & -> &
              [-> Hlt] & -> & ->).
      cbn [fst snd] in *. subst nin nout. rewrite !foldl_push_concat, !write_varint_app.
      apply witnesses_iff in Hwit as (wits & ww & Hw1 & Hw2 & ->).
      exists (mkTx ve ins outs lt), sw. unfold tx_bytes. cbn [tx_version tx_ins tx_outs tx_locktime].
      rewrite !app_nil_r, <-!app_assoc. split; [|done]. split_and!; [done|done|].
      exists wc, wi, vo, wo, wits, ww. by split_and!.
    + intros ([ve ins outs lt] & sw & (Hve & Hlt & vi & wi & vo & wo & wits & ww & Hc & Hi & Hvo & Ho & Hw1 & Hw2 & ->) & ->).
      unfold tx_bytes. cbn [tx_version tx_ins tx_outs tx_locktime] in *.
      exists ve, ve, (vi ++ concat wi ++ vo ++ concat wo ++ concat ww ++ lt). split_and!; [done..|].
      exists (len ins, sw), vi, (concat wi ++ vo ++ concat wo ++ concat ww ++ lt).
      split_and!; [done..|]. cbn [fst snd].
      eexists _, (concat wi), (vo ++ concat wo ++ concat ww ++ lt).
      split_and!; [done|by exists ins, wi|].
      exists (len outs), vo, (concat wo ++ concat ww ++ lt). split_and!; [done..|].
      eexists _, (concat wo), (concat ww ++ lt). split_and!; [done|by exists outs, wo|].
      exists tt, (concat ww), lt. split_and!; [done|apply witnesses_iff; by exists wits, ww|].
      exists lt, lt, []. rewrite app_nil_r. split_and!; [done|done|done| |done].
      by rewrite !foldl_push_concat, !write_varint_app, <-!app_assoc.
Qed.

(** ** Branches and the witness *)

Definition branch_wire (bs : list bytes) (w : bytes) : Prop :=
  len bs ≤ 2 ^ 20 ∧ Forall (λ b : bytes, len b = 32) bs ∧
  ∃ v, varint_enc (len bs) v ∧ w = v ++ concat bs.

Definition aux_wire (a : AuxPow) (w : bytes) : Prop :=
  is_u32 (parent_index a) ∧ is_u32 (chain_index a) ∧ len (parent_header a) = HEADER_LEN ∧
  ∃ t segwit wt hash_block w1 w2,
    tx_wire t segwit wt ∧ coinbase_tx a = tx_bytes t ∧ len hash_block = 32 ∧
    branch_wire (parent_merkle_branch a) w1 ∧ branch_wire (chain_merkle_branch a) w2 ∧
    w = wt ++ hash_block ++ w1 ++ le_bytes 4 (parent_index a) ++ w2
        ++ le_bytes 4 (chain_index a) ++ parent_header a.

Lemma foldl_snoc (acc items : list bytes) : foldl (λ out h, out ++ [h]) acc items = acc ++ items.
Proof.
  revert acc; induction items as [|h items IH]; intros acc; cbn [foldl]; [by rewrite app_nil_r|].
  by rewrite IH, <-app_assoc.
Qed.

Lemma parses_branch : parses (λ c, branch c) branch_wire.
Proof.
  eapply parses_iff.
  - unfold branch. eapply parses_bind; [apply parses_varint|]. intros n w Hn.
    rewrite (as_usize_id n) by (by eapply varint_enc_range). apply varint_nonneg in Hn. cbv zeta.
    apply (parses_case (Z.shiftl 1 20 <? n)); intros _; [apply parses_err|].
    apply (parses_loop branch_step (λ out h, out ++ [h]) (λ h w, w = h ∧ len h = 32)); [|done].
    intros acc. eapply parses_iff.
    + unfold branch_step. eapply parses_bind; [apply parses_take; lia|]. intros h _ _.
      apply parses_ret.
    + intros out w1. unfold seqR, takeR, retR. split.
      * intros (h & ? & ? & -> & [-> Hh] & -> & ->). exists h. by rewrite app_nil_r.
      * intros (h & [-> Hh] & ->). exists h, h, []. by rewrite app_nil_r.
  - intros bs w. unfold seqR, takeR, retR, branch_wire. change (Z.shiftl 1 20) with (2 ^ 20).
    assert (∀ (items ws : list bytes), Forall2 (λ h w, w = h ∧ len h = 32) items ws ↔
              ws = items ∧ Forall (λ b : bytes, len b = 32) items) as HF2.
    { intros items ws. split.
      - induction 1 as [|h w' items ws [-> Hh] _ [-> IH]]; [done|]. split; [done|by constructor].
      - intros [-> HF]. induction HF; constructor; auto. }
    assert (∀ items : list bytes, foldl (λ out h, out ++ [h]) [] items = items) as Hfold.
    { intros items. apply (foldl_snoc [] items). }
    split.
    + intros (n & ve & ? & -> & Hv & Hw). destruct (2 ^ 20 <? n) eqn:E; reflect_bools; [done|].
      destruct Hw as (items & ws & <- & HF & -> & ->). apply HF2 in HF as [-> HF].
      rewrite Hfold. eauto.
    + intros (Hl & HF & ve & Hv & ->). exists (len bs), ve, (concat bs). split_and!; [done..|].
      destruct (2 ^ 20 <? len bs) eqn:E; reflect_bools; [lia|].
      exists bs, bs. split_and!; [done|by apply HF2|done|by rewrite Hfold].
Qed.

Lemma parses_u32 : parses (λ c, u32_le c) (λ n w, is_u32 n ∧ w = le_bytes 4 n).
Proof.
  eapply parses_iff; [apply (parses_varint_arm 4)|]. intros n w. cbv beta.
  change (256 ^ Z.of_nat 4) with (2 ^ 32). unfold is_u32, u32_max. split; intros [? ->]; (split; [lia|done]).
Qed.

Definition parse_aux_body (c : Cursor) : AuxPowParseResult (AuxPow * Cursor) :=
  '(coinbase_tx, c) ← take_tx_body c;
  '(_, c) ← hash32 c;
  '(parent_merkle_branch, c) ← branch c;
  '(parent_index, c) ← u32_le c;
  '(chain_merkle_branch, c) ← branch c;
  '(chain_index, c) ← u32_le c;
  '(parent_header, c) ← map_err (λ _, MissingParentHeader) (take_bytes c HEADER_LEN);
  Ok (mkAuxPow coinbase_tx parent_merkle_branch parent_index chain_merkle_branch
        chain_index parent_header, c).

Lemma parse_auxpow_eq full :
  HEADER_LEN < len full →
  parse_auxpow full
  = ('(a, _) ← parse_aux_body (cursor_at (slice full 0 80) (drop 80 full));
     Ok (slice full 0 80, a)).
Proof.
  intros Hl. unfold parse_auxpow.
  destruct (len full <? HEADER_LEN) eqn:E1; reflect_bools; [lia|].
  destruct (len full =? HEADER_LEN) eqn:E2; reflect_bools; [lia|].
  assert (slice full 0 HEADER_LEN = take 80 full) as Ht.
  { unfold slice. change (Z.to_nat 0) with 0%nat. by rewrite drop_0. }
  change (slice full 0 80) with (slice full 0 HEADER_LEN).
  assert (cursor_at (slice full 0 HEADER_LEN) (drop 80 full) = mkCursor full HEADER_LEN) as ->.
  { unfold cursor_at. rewrite Ht, take_drop. f_equal. unfold len, HEADER_LEN in *.
    rewrite length_take. lia. }
  rewrite take_tx_eq. unfold parse_aux_body. cbv [mbind Result_bind].
  destruct (take_tx_body _) as [[l c1]|]; [|done].
  destruct (hash32 _) as [[hb c2]|]; [|done]. destruct (branch _) as [[b1 c3]|]; [|done].
  destruct (u32_le _) as [[i1 c4]|]; [|done]. destruct (branch _) as [[b2 c5]|]; [|done].
  destruct (u32_le _) as [[i2 c6]|]; [|done]. by destruct (map_err _ _) as [[]|].
Qed.

Lemma parses_aux_body : parses (λ c, parse_aux_body c) aux_wire.
Proof.
  eapply parses_iff.
  - unfold parse_aux_body. eapply parses_bind; [apply parses_tx_body|]. intros cbt _ _.
    eapply parses_bind; [apply parses_take; lia|]. intros hb _ _.
    eapply parses_bind; [apply parses_branch|]. intros b1 _ _.
    eapply parses_bind; [apply parses_u32|]. intros i1 _ _.
    eapply parses_bind; [apply parses_branch|]. intros b2 _ _.
    eapply parses_bind; [apply parses_u32|]. intros i2 _ _.
    eapply parses_bind; [by apply parses_map_err, parses_take|]. intros ph _ _. apply parses_ret.
  - intros a w. unfold seqR, takeR, retR, aux_wire. split.
    + intros (cbt & wt & ? & -> & (t & sw & Ht & ->) & hb & ? & ? & -> & [-> Hhb] & b1 & w1 & ? & -> & Hb1
              & i1 & ? & ? & -> & [Hi1 ->] & b2 & w2 & ? & -> & Hb2 & i2 & ? & ? & -> & [Hi2 ->]
              & ph & ? & ? & -> & [-> Hph] & -> & ->).
      cbn [parent_index chain_index parent_header coinbase_tx parent_merkle_branch chain_merkle_branch].
      rewrite app_nil_r. refine (conj Hi1 (conj Hi2 (conj Hph _))).
      exists t, sw, wt, hb, w1, w2. by split_and!.
    + destruct a as [cbt b1 i1 b2 i2 ph].
      cbn [parent_index chain_index parent_header coinbase_tx parent_merkle_branch chain_merkle_branch].
      intros (Hi1 & Hi2 & Hph & t & sw & wt & hb & w1 & w2 & Ht & -> & Hhb & Hb1 & Hb2 & ->).
      exists (tx_bytes t), wt. eexists. split_and!; [done|by exists t, sw|].
      exists hb, hb. eexists. split_and!; [done..|].
      exists b1, w1. eexists. split_and!; [done..|].
      exists i1, (le_bytes 4 i1). eexists. refine (conj eq_refl (conj (conj Hi1 eq_refl) _)).
      exists b2, w2. eexists. split_and!; [done..|].
      exists i2, (le_bytes 4 i2). eexists. refine (conj eq_refl (conj (conj Hi2 eq_refl) _)).
      exists ph, ph, []. rewrite app_nil_r. by split_and!.
Qed.

Lemma len_slice {A} (l : list A) a b : 0 ≤ a ≤ b → b ≤ len l → len (slice l a b) = b - a.
Proof. intros. unfold len. rewrite length_slice; lia. Qed.

Lemma parse_auxpow_iff full base a :
  len full ≤ usize_max →
  parse_auxpow full = Ok (base, a) ↔
  len base = HEADER_LEN ∧ ∃ w rest, aux_wire a w ∧ full = base ++ w ++ rest.
Proof.
  intros Hfull. destruct (decide (HEADER_LEN < len full)) as [Hl|Hl].
  - rewrite parse_auxpow_eq by done.
    assert (slice full 0 80 ++ drop 80 full = full) as Hsplit.
    { unfold slice. change (Z.to_nat 0) with 0%nat. rewrite drop_0. apply take_drop. }
    unfold HEADER_LEN in *. split.
    + intros ([a' c'] & Hp & [= <- ->])%bind_Ok.
      apply parses_aux_body in Hp as (w & rest & Hw & Hd & _); [|by rewrite Hsplit].
      split; [rewrite len_slice; lia|]. exists w, rest. by rewrite <-Hd, Hsplit.
    + intros (Hb & w & rest & Hw & Heq).
      assert (slice full 0 80 = base) as ->.
      { rewrite Heq, slice_app_l by lia. rewrite <-Hb. apply slice_all. }
      assert (drop 80 full = w ++ rest) as ->.
      { rewrite Heq. apply drop_app_length'. unfold len in Hb. lia. }
      apply bind_Ok. exists (a, cursor_at (base ++ w) rest). split; [|done].
      apply parses_aux_body; [by rewrite <-Heq|]. by exists w, rest.
  - split.
    + unfold parse_auxpow. destruct (len full <? HEADER_LEN) eqn:E1; [done|].
      destruct (len full =? HEADER_LEN) eqn:E2; [done|]. reflect_bools. lia.
    + intros (Hb & w & rest & (_ & _ & Hph & t & sw & wt & hb & w1 & w2 & _ & _ & _ & _ & _ & ->) & ->).
      rewrite !len_app, Hph in Hl. unfold HEADER_LEN in *.
      pose proof (len_nonneg wt). pose proof (len_nonneg hb). pose proof (len_nonneg w1).
      pose proof (len_nonneg w2). pose proof (len_nonneg rest).
      rewrite !len_le_bytes in Hl. lia.
Qed.

(** ** Serialization *)

(** A transaction whose fields have the widths of the format and whose lengths
    are machine sizes; the witnesses, one per input, likewise. *)
Definition is_size {A} (l : list A) : Prop := is_u64 (len l).
Record tx_wf (t : LegacyTx) : Prop := {
  tx_wf_version : len (tx_version t) = 4;
  tx_wf_locktime : len (tx_locktime t) = 4;
  tx_wf_nonempty : tx_ins t ≠ [];
  tx_wf_ins : is_size (tx_ins t);
  tx_wf_outs : is_size (tx_outs t);
  tx_wf_in : Forall (λ i, len (prevout i) = 36 ∧ len (in_sequence i) = 4 ∧ is_size (script_sig i)) (tx_ins t);
  tx_wf_out : Forall (λ o, len (out_value o) = 8 ∧ is_size (script_pubkey o)) (tx_outs t)
}.
Definition wits_wf (t : LegacyTx) (wits : list (list bytes)) : Prop :=
  len wits = len (tx_ins t) ∧ Forall (λ items, is_size items ∧ Forall is_size items) wits.

(** The SegWit serialization (BIP 144) of a transaction with its witnesses. *)
Definition item_bytes (i : bytes) : bytes := varint_bytes (len i) ++ i.
Definition wit_bytes (items : list bytes) : bytes :=
  varint_bytes (len items) ++ concat (map item_bytes items).
Definition tx_segwit_bytes (t : LegacyTx) (wits : list (list bytes)) : bytes :=
  tx_version t ++ ([x00; x01] ++ varint_bytes (len (tx_ins t))) ++ concat (map in_bytes (tx_ins t))
  ++ varint_bytes (len (tx_outs t)) ++ concat (map out_bytes (tx_outs t))
  ++ concat (map wit_bytes wits) ++ tx_locktime t.

Definition branch_bytes (bs : list bytes) : bytes := varint_bytes (len bs) ++ concat bs.

(** The rest of the payload after the coinbase. *)
Definition aux_tail (a : AuxPow) (hash_block : bytes) : bytes :=
  hash_block ++ branch_bytes (parent_merkle_branch a) ++ le_bytes 4 (parent_index a)
  ++ branch_bytes (chain_merkle_branch a) ++ le_bytes 4 (chain_index a) ++ parent_header a.

(** [reserialize_wire] of the test support library: the payload of a parsed
    witness, the coinbase in the form the parser keeps. *)
Definition reserialize_wire (hdr : bytes) (a : AuxPow) (hash_block : bytes) : bytes :=
  hdr ++ coinbase_tx a ++ aux_tail a hash_block.

Lemma Forall2_map_r {A B} (R : A → B → Prop) (f : A → B) l :
  Forall (λ a, R a (f a)) l → Forall2 R l (map f l).
Proof. induction 1; constructor; auto. Qed.

Lemma len_pos_ne {A} (l : list A) : l ≠ [] → len l ≠ 0.
Proof. destruct l; [done|]. unfold len; simpl. lia. Qed.

Lemma wit_wire_bytes items : is_size items → Forall is_size items → wit_wire items (wit_bytes items).
Proof.
  intros Hs HF. exists (varint_bytes (len items)), (map item_bytes items).
  split_and!; [by apply varint_bytes_enc| |done]. apply Forall2_map_r.
  eapply Forall_impl; [exact HF|]. intros i Hi. exists (varint_bytes (len i)).
  split; [by apply varint_bytes_enc|done].
Qed.

Lemma ins_wire t : tx_wf t → Forall2 in_wire (tx_ins t) (map in_bytes (tx_ins t)).
Proof.
  intros [_ _ _ _ _ Hi _]. apply Forall2_map_r. eapply Forall_impl; [exact Hi|].
  intros i (?&?&?). split_and!; [done|done|]. exists (varint_bytes (len (script_sig i))).
  split; [by apply varint_bytes_enc|done].
Qed.

Lemma outs_wire t : tx_wf t → Forall2 out_wire (tx_outs t) (map out_bytes (tx_outs t)).
Proof.
  intros [_ _ _ _ _ _ Ho]. apply Forall2_map_r. eapply Forall_impl; [exact Ho|].
  intros o (?&?). split; [done|]. exists (varint_bytes (len (script_pubkey o))).
  split; [by apply varint_bytes_enc|done].
Qed.

Lemma tx_wire_legacy t : tx_wf t → tx_wire t false (tx_bytes t).
Proof.
  intros Hwf. pose proof (ins_wire t Hwf). pose proof (outs_wire t Hwf). destruct Hwf.
  split; [done|]. split; [done|].
  exists (varint_bytes (len (tx_ins t))), (map in_bytes (tx_ins t)),
    (varint_bytes (len (tx_outs t))), (map out_bytes (tx_outs t)), [], [].
  split_and!; [|done|by apply varint_bytes_enc|done|done|constructor|done].
  split; [by apply len_pos_ne|by apply varint_bytes_enc].
Qed.

Lemma tx_wire_segwit t wits : tx_wf t → wits_wf t wits → tx_wire t true (tx_segwit_bytes t wits).
Proof.
  intros Hwf [Hl HF]. pose proof (ins_wire t Hwf). pose proof (outs_wire t Hwf). destruct Hwf.
  split; [done|]. split; [done|].
  exists ([x00; x01] ++ varint_bytes (len (tx_ins t))), (map in_bytes (tx_ins t)),
    (varint_bytes (len (tx_outs t))), (map out_bytes (tx_outs t)), wits, (map wit_bytes wits).
  split_and!; [|done|by apply varint_bytes_enc|done|done| |done].
  - split; [by apply len_pos_ne|]. exists [x00], (varint_bytes (len (tx_ins t))).
    split_and!; [apply varint_enc_zero|by apply varint_bytes_enc|done].
  - apply Forall2_map_r. eapply Forall_impl; [exact HF|]. intros items [? ?]. by apply wit_wire_bytes.
Qed.

(** What is on the wire is well-formed. *)
Lemma tx_wire_wf t segwit w : tx_wire t segwit w → tx_wf t.
Proof.
  intros (Hv & Hlt & vi & wi & vo & wo & wits & ww & [Hn Hc] & Hi & Hvo & Ho & _ & _ & _).
  cbn [fst snd] in *. split; [done|done| | | | |].
  - intros Hnil. by rewrite Hnil in Hn.
  - unfold is_size. destruct segwit; [destruct Hc as (?&?&_&Hc&_)|]; by eapply varint_enc_range.
  - by eapply varint_enc_range.
  - clear -Hi. induction Hi as [|i wi' ii ws (?&?&?&?&_) _ IH]; constructor; [|done].
    split_and!; [done|done|by eapply varint_enc_range].
  - clear -Ho. induction Ho as [|o wo' oo ws (?&?&?&_) _ IH]; constructor; [|done].
    split; [done|by eapply varint_enc_range].
Qed.

(** A witness the format can carry. *)
Record aux_wf (a : AuxPow) : Prop := {
  aux_wf_pbranch : len (parent_merkle_branch a) ≤ 2 ^ 20;
  aux_wf_cbranch : len (chain_merkle_branch a) ≤ 2 ^ 20;
  aux_wf_lengths : auxpow_wf a;
  aux_wf_pindex : is_u32 (parent_index a);
  aux_wf_cindex : is_u32 (chain_index a);
  aux_wf_parent : len (parent_header a) = HEADER_LEN
}.

Lemma branch_wire_bytes (bs : list bytes) :
  len bs ≤ 2 ^ 20 → Forall (λ b : bytes, length b = 32%nat) bs → branch_wire bs (branch_bytes bs).
Proof.
  intros Hl HF. split; [done|]. split.
  - eapply Forall_impl; [exact HF|]. intros b Hb. unfold len. by rewrite Hb.
  - exists (varint_bytes (len bs)). split; [|done]. apply varint_bytes_enc.
    unfold is_u64, u64_max. pose proof (len_nonneg bs). lia.
Qed.

Lemma aux_wire_tail a t segwit wt hash_block :
  aux_wf a → tx_wire t segwit wt → coinbase_tx a = tx_bytes t → len hash_block = 32 →
  aux_wire a (wt ++ aux_tail a hash_block).
Proof.
  intros [Hp Hc [Hpl Hcl] Hpi Hci Hph] Ht Hcb Hhb. refine (conj Hpi (conj Hci (conj Hph _))).
  exists t, segwit, wt, hash_block, (branch_bytes (parent_merkle_branch a)),
    (branch_bytes (chain_merkle_branch a)).
  split_and!; [apply Ht..|done|done|by apply branch_wire_bytes|by apply branch_wire_bytes|done].
Qed.

Lemma aux_wire_wf a w : aux_wire a w → aux_wf a ∧ ∃ t, tx_wf t ∧ coinbase_tx a = tx_bytes t.
Proof.
  intros (Hpi & Hci & Hph & t & sw & wt & hb & w1 & w2 & Ht & Hcb & _ & (Hp & HpF & _) & (Hc & HcF & _) & _).
  assert (∀ bs, Forall (λ b : bytes, len b = 32) bs → Forall (λ b : bytes, length b = 32%nat) bs) as HF.
  { intros bs H. eapply Forall_impl; [exact H|]. intros b. unfold len. lia. }
  split; [|exists t; split; [by eapply tx_wire_wf|done]]. by split; [| |split; apply HF| | |].
Qed.

(** ** Size bounds *)

Lemma varint_enc_shortest n v : varint_enc n v → len (varint_bytes n) ≤ len v.
Proof.
  unfold varint_enc, varint_bytes, write_varint. intros Hv.
  assert (∀ k (b : byte), len (b :: le_bytes k n) = 1 + Z.of_nat k) as Hk.
  { intros k b. by rewrite len_cons, len_le_bytes. }
  assert (∀ k (b : byte), len ([] ++ [b] ++ le_bytes k n) = 1 + Z.of_nat k) as Hk' by apply Hk.
  destruct (n <? 0xfd) eqn:E1; reflect_bools.
  { change (len ([] ++ [z2b n])) with 1.
    destruct Hv as [[? ->]|[[? ->]|[[? ->]|[? ->]]]]; rewrite ?Hk; unfold len; simpl; lia. }
  destruct (n <=? u16_max) eqn:E2; reflect_bools; rewrite ?Hk'.
  { destruct Hv as [[? ->]|[[? ->]|[[? ->]|[? ->]]]]; rewrite ?Hk; lia. }
  destruct (n <=? u32_max) eqn:E3; reflect_bools; rewrite ?Hk'.
  { destruct Hv as [[? ->]|[[? ->]|[[? ->]|[? ->]]]]; rewrite ?Hk; lia. }
  destruct Hv as [[? ->]|[[? ->]|[[? ->]|[? ->]]]]; rewrite ?Hk; unfold is_u32 in *; lia.
Qed.

Lemma concat_shorter {I} (enc : I → bytes) (wire : I → bytes → Prop) items ws :
  (∀ i w, wire i w → len (enc i) ≤ len w) → Forall2 wire items ws →
  len (concat (map enc items)) ≤ len (concat ws).
Proof.
  intros Hw. induction 1 as [|i w items ws Hi _ IH]; [done|]. cbn [map concat].
  rewrite !len_app. apply Hw in Hi. lia.
Qed.

Lemma tx_bytes_shortest t segwit w : tx_wire t segwit w → len (tx_bytes t) ≤ len w.
Proof.
  intros (_ & _ & vi & wi & vo & wo & wits & ww & [_ Hc] & Hi & Hvo%varint_enc_shortest & Ho & _ & _ & ->).
  cbn [fst snd] in Hc. unfold tx_bytes. rewrite !len_app.
  assert (len (varint_bytes (len (tx_ins t))) ≤ len vi) as Hvi.
  { destruct segwit; [|by apply varint_enc_shortest].
    destruct Hc as (m & v & _ & Hv%varint_enc_shortest & ->). rewrite !len_app.
    pose proof (len_nonneg m). pose proof (len_nonneg [x01]). lia. }
  assert (len (concat (map in_bytes (tx_ins t))) ≤ len (concat wi)) as Hwi.
  { eapply concat_shorter; [|exact Hi]. intros i w (_ & _ & v & Hv%varint_enc_shortest & ->).
    unfold in_bytes. rewrite !len_app. lia. }
  assert (len (concat (map out_bytes (tx_outs t))) ≤ len (concat wo)) as Hwo.
  { eapply concat_shorter; [|exact Ho]. intros o w (_ & v & Hv%varint_enc_shortest & ->).
    unfold out_bytes. rewrite !len_app. lia. }
  pose proof (len_nonneg (concat ww)). lia.
Qed.

Lemma reserialize_shortest base a hash_block w rest :
  aux_wire a w → len hash_block = 32 →
  len (reserialize_wire base a hash_block) ≤ len (base ++ w ++ rest).
Proof.
  intros (_ & _ & _ & t & sw & wt & hb & w1 & w2 & Ht%tx_bytes_shortest & Hcb & Hhb &
          (_ & _ & v1 & Hv1%varint_enc_shortest & ->) & (_ & _ & v2 & Hv2%varint_enc_shortest & ->) & ->) Hb.
  unfold reserialize_wire, aux_tail, branch_bytes. rewrite Hcb, !len_app, !len_le_bytes.
  pose proof (len_nonneg rest). lia.
Qed.

Lemma parse_reserialized base a t segwit wt hash_block rest :
  len base = HEADER_LEN → aux_wf a → tx_wire t segwit wt → coinbase_tx a = tx_bytes t →
  len hash_block = 32 → len (base ++ (wt ++ aux_tail a hash_block) ++ rest) ≤ usize_max →
  parse_auxpow (base ++ (wt ++ aux_tail a hash_block) ++ rest) = Ok (base, a).
Proof.
  intros Hbase Ha Ht Hcb Hhb Hl. apply parse_auxpow_iff; [done|]. split; [done|].
  exists (wt ++ aux_tail a hash_block), rest. split; [|done]. by eapply aux_wire_tail.
Qed.

(** ** Properties *)

(** C19: the wire grammar.  On any buffer that fits in memory, [parse_auxpow]
    succeeds exactly on the payloads that are an 80-byte header followed by a
    CAuxPow witness of the grammar [aux_wire] (varints of any accepted length, a
    legacy or SegWit coinbase with at least one input, branches of at most
    [2 ^ 20] hashes) and by arbitrary further bytes, and it returns the header
    and the witness that the bytes denote, the coinbase in its canonical
    no-witness serialization. *)
Theorem parse_auxpow_correct (full base : bytes) (a : AuxPow)
    (Hfull : len full ≤ usize_max) :
  parse_auxpow full = Ok (base, a) ↔
  len base = HEADER_LEN ∧ ∃ w rest, aux_wire a w ∧ full = base ++ w ++ rest.
Proof. exact (parse_auxpow_iff full base a Hfull). Qed.

(** A coinbase with one input, two outputs and a witness, and its payloads. *)
Definition sample_tx : LegacyTx :=
  mkTx (le_bytes 4 1) [mkTxIn (replicate 36 x11) [x03; x01; x02; x03] (replicate 4 xff)]
    [mkTxOut (le_bytes 8 5000) [x51]; mkTxOut (le_bytes 8 0) (x6a :: replicate 36 xaa)]
    (le_bytes 4 0).
Definition sample_wits : list (list bytes) := [[replicate 32 x00]].
Definition sample_witness : AuxPow :=
  mkAuxPow (tx_bytes sample_tx) [replicate 32 x01; replicate 32 x02] 0 [replicate 32 x03] 1
    (replicate 80 x07).

Lemma parse_auxpow_correct_witness :
  let full := replicate 80 x09 ++ tx_segwit_bytes sample_tx sample_wits
              ++ aux_tail sample_witness (replicate 32 x0a) ++ [x00] in
  len full ≤ usize_max ∧
  len (replicate 80 x09) = HEADER_LEN ∧ ∃ w rest, aux_wire sample_witness w ∧
    full = replicate 80 x09 ++ w ++ rest.
Proof.
  intros full. assert (len full ≤ usize_max) as Hl by (vm_compute; discriminate).
  split; [exact Hl|].
  apply (parse_auxpow_correct full (replicate 80 x09) sample_witness Hl).
  vm_compute. reflexivity.
Defined.

(** Round trip and witness stripping.  The payload built from a header, a
    well-formed transaction and a witness parses back to that header and
    witness, followed or not by other bytes, whether the coinbase is serialized
    in the legacy form or with its SegWit witnesses: both give the same
    [coinbase_tx], the one whose double SHA-256 is the txid. *)
Theorem parse_auxpow_roundtrip (base : bytes) (a : AuxPow) (t : LegacyTx)
    (wits : list (list bytes)) (hash_block rest : bytes)
    (Hbase : len base = HEADER_LEN) (Ha : aux_wf a) (Ht : tx_wf t) (Hw : wits_wf t wits)
    (Hcb : coinbase_tx a = tx_bytes t) (Hhb : len hash_block = 32)
    (Hfit : len (base ++ (tx_segwit_bytes t wits ++ aux_tail a hash_block) ++ rest) ≤ usize_max) :
  parse_auxpow (base ++ (tx_bytes t ++ aux_tail a hash_block) ++ rest) = Ok (base, a) ∧
  parse_auxpow (base ++ (tx_segwit_bytes t wits ++ aux_tail a hash_block) ++ rest) = Ok (base, a).
Proof.
  split.
  - eapply parse_reserialized; [done|done|by apply tx_wire_legacy|done|done|].
    pose proof (tx_bytes_shortest t true _ (tx_wire_segwit t wits Ht Hw)).
    rewrite !len_app in *. lia.
  - by eapply parse_reserialized; [..|by apply tx_wire_segwit| | |].
Qed.

Lemma parse_auxpow_roundtrip_witness :
  len (replicate 80 x09) = HEADER_LEN ∧ aux_wf sample_witness ∧ tx_wf sample_tx ∧
  wits_wf sample_tx sample_wits ∧
  parse_auxpow (replicate 80 x09 ++ (tx_bytes sample_tx ++ aux_tail sample_witness (replicate 32 x0a)) ++ [])
  = Ok (replicate 80 x09, sample_witness).
Proof.
  assert (aux_wf sample_witness) as Ha.
  { split; [vm_compute; discriminate|vm_compute; discriminate| | | |reflexivity].
    - split; repeat constructor.
    - split; vm_compute; discriminate.
    - split; vm_compute; discriminate. }
  assert (tx_wf sample_tx) as Ht.
  { split; [reflexivity|reflexivity|discriminate|split; vm_compute; discriminate|
      split; vm_compute; discriminate| |]; repeat constructor; vm_compute; discriminate. }
  assert (wits_wf sample_tx sample_wits) as Hw.
  { split; [reflexivity|]. repeat constructor; vm_compute; discriminate. }
  split; [reflexivity|]. split; [exact Ha|]. split; [exact Ht|]. split; [exact Hw|].
  apply (parse_auxpow_roundtrip (replicate 80 x09) sample_witness sample_tx sample_wits
           (replicate 32 x0a) [] eq_refl Ha Ht Hw eq_refl eq_refl).
  vm_compute. discriminate.
Defined.

(** Stability.  Whatever payload [parse_auxpow] accepts, re-serializing its
    result (with any 32-byte [hashBlock]) gives a payload that is no longer than
    the input and that parses to the same result: the varint lengths, the SegWit
    witness and the trailing bytes the parser drops never matter, and the parsed
    witness never holds more bytes than were received. *)
Theorem parse_auxpow_stable (full base hash_block : bytes) (a : AuxPow)
    (Hfull : len full ≤ usize_max) (Hhb : len hash_block = 32)
    (Hparse : parse_auxpow full = Ok (base, a)) :
  len (reserialize_wire base a hash_block) ≤ len full ∧
  parse_auxpow (reserialize_wire base a hash_block) = Ok (base, a) ∧
  auxpow_wf a ∧ len (parent_header a) = HEADER_LEN.
Proof.
  apply parse_auxpow_iff in Hparse as (Hbase & w & rest & Hw & ->); [|done].
  pose proof (reserialize_shortest base a hash_block w rest Hw Hhb) as Hle.
  destruct (aux_wire_wf a w Hw) as (Ha & t & Ht & Hcb).
  refine (conj Hle (conj _ (conj (aux_wf_lengths a Ha) (aux_wf_parent a Ha)))).
  unfold reserialize_wire in *. rewrite Hcb in *.
  rewrite <-(app_nil_r (tx_bytes t ++ _)) in Hle |- *.
  eapply parse_reserialized; [done|done|by apply tx_wire_legacy|done|done|lia].
Qed.

Lemma parse_auxpow_stable_witness :
  let full := replicate 80 x09 ++ tx_segwit_bytes sample_tx sample_wits
              ++ aux_tail sample_witness (replicate 32 x0a) ++ [x00] in
  parse_auxpow full = Ok (replicate 80 x09, sample_witness) ∧
  parse_auxpow (reserialize_wire (replicate 80 x09) sample_witness (replicate 32 x00))
  = Ok (replicate 80 x09, sample_witness).
Proof.
  intros full.
  assert (parse_auxpow full = Ok (replicate 80 x09, sample_witness)) as Hp by (vm_compute; reflexivity).
  split; [exact Hp|].
  apply (parse_auxpow_stable full (replicate 80 x09) (replicate 32 x00) sample_witness
           ltac:(vm_compute; discriminate) eq_refl Hp).
Defined.
