(* ===== verification/TxParse.v ===== *)
(** * Deposit and payout transaction parsing

    [crates/common/src/lib.rs]: [read_varint], [parse_deposit_outputs] and
    [parse_withdrawal_outputs], the structure-aware walks over a legacy
    transaction that decide what a deposit or a payout pays and to whom.  They
    work on an offset into the transaction; the proofs relate them to the cursor
    parsers of [CauxPow] and through them to the abstract transactions there. *)

From S2P Require Export CauxPow.

#[local] Open Scope Z_scope.

(** ** Operations *)

Definition read_varint (tx : bytes) (p : Z) : option (Z * Z) :=
  n ← tx !! Z.to_nat p;
  if decide (n = xfd) then b ← get_range tx (p + 1) (p + 3); Some (le_num b, p + 3)
  else if decide (n = xfe) then b ← get_range tx (p + 1) (p + 5); Some (le_num b, p + 5)
  else if decide (n = xff) then b ← get_range tx (p + 1) (p + 9); Some (le_num b, p + 9)
  else Some (b2z n, p + 1).

(** [if p > tx.len() { return None }]. *)
Definition within (tx : bytes) (p : Z) : option Z := if len tx <? p then None else Some p.

(** The body of the deposit's input loop; the state is the loop index, whether
    the first prevout is the null one, and the offset. *)
Definition deposit_input (tx : bytes) (st : Z * bool * Z) : option (Z * bool * Z) :=
  let '(i, coinbase_prevout, p) := st in
  coinbase_prevout ←
    (if i =? 0 then
       txid ← get_range tx p (p + 32);
       v ← get_range tx (p + 32) (p + 36);
       let vout := le_num v in
       Some ((vout =? 0xffffffff) && forallb (λ b, bool_decide (b = x00)) txid)
     else Some coinbase_prevout);
  p ← u64_checked_add p 36;
  p ← within tx p;
  '(slen, np) ← read_varint tx p;
  p ← u64_checked_add np slen;
  p ← u64_checked_add p 4;
  p ← within tx p;
  Some (i + 1, coinbase_prevout, p).

(** [OP_DUP OP_HASH160 <hash> OP_EQUALVERIFY OP_CHECKSIG], as the code tests it. *)
Definition is_p2pkh (script hash160 : bytes) : bool :=
  (len script =? 25) && bool_decide (byte_at script 0 = x76) &&
  bool_decide (byte_at script 1 = xa9) && bool_decide (byte_at script 2 = x14) &&
  bool_decide (byte_at script 23 = x88) && bool_decide (byte_at script 24 = xac) &&
  bool_decide (slice script 3 23 = hash160).

(** The recipient of an [OP_RETURN <20 bytes>] output, plain or nested. *)
Definition op_return_recipient (script : bytes) : option bytes :=
  if ((len script =? 22) && bool_decide (byte_at script 0 = x6a)
        && bool_decide (byte_at script 1 = x14))
     || ((len script =? 24) && bool_decide (byte_at script 0 = x6a)
           && bool_decide (byte_at script 1 = x16) && bool_decide (byte_at script 2 = x6a)
           && bool_decide (byte_at script 3 = x14))
  then let offset := if len script =? 22 then 2 else 4 in
       Some (slice script offset (offset + 20))
  else None.

(** Reading one output: its value, its script and the offset after it. *)
Definition read_output (tx : bytes) (p : Z) : option (Z * bytes * Z) :=
  v ← get_range tx p (p + 8);
  let value := le_num v in
  '(slen, np) ← read_varint tx (p + 8);
  end_ ← u64_checked_add np slen;
  script ← get_range tx np end_;
  Some (value, script, end_).

(** What an output does to the custody sum and the recipient. *)
Definition deposit_push (custody_hash160 : bytes) (st : Z * option bytes) (value : Z) (script : bytes) :
    option (Z * option bytes) :=
  let '(custody_sats, recipient) := st in
  if is_p2pkh script custody_hash160 then
    custody_sats ← u64_checked_add custody_sats value;
    Some (custody_sats, recipient)
  else match recipient with
       | None => Some (custody_sats, op_return_recipient script)
       | Some _ => Some (custody_sats, recipient)
       end.

Definition deposit_output (custody_hash160 tx : bytes) (st : Z * option bytes * Z) :
    option (Z * option bytes * Z) :=
  let '(acc, p) := st in
  '(value, script, p) ← read_output tx p;
  acc ← deposit_push custody_hash160 acc value script;
  Some (acc, p).

Definition parse_deposit_outputs (tx custody_hash160 : bytes) : option (Z * bytes) :=
  p ← within tx 4;
  '(vin_count, np) ← read_varint tx p;
  let p := np in
  if vin_count =? 0 then None else
  '(_, coinbase_prevout, p) ← repeat_opt vin_count (deposit_input tx) (0, false, p);
  if (vin_count =? 1) && (coinbase_prevout : bool) then None else
  '(vout_count, np) ← read_varint tx p;
  let p := np in
  if vout_count =? 0 then None else
  '(custody_sats, recipient, p) ←
    repeat_opt vout_count (deposit_output custody_hash160 tx) (0, None, p);
  p ← u64_checked_add p 4;
  if negb (p =? len tx) then None else
  if (custody_sats : Z) =? 0 then None else
  r ← recipient;
  Some (custody_sats, r).

(** The payout parser: its input loop, its output test and the whole. *)
Definition withdrawal_input (tx : bytes) (st : unit * Z) : option (unit * Z) :=
  let '(_, p) := st in
  p ← u64_checked_add p 36;
  p ← within tx p;
  '(slen, np) ← read_varint tx p;
  p ← u64_checked_add np slen;
  p ← u64_checked_add p 4;
  p ← within tx p;
  Some ((), p).

Definition op_return_withdrawal (script : bytes) : option bytes :=
  if (len script =? 34) && bool_decide (byte_at script 0 = x6a)
     && bool_decide (byte_at script 1 = x20)
  then Some (slice script 2 34) else None.

Definition withdrawal_push (recipient_hash160 : bytes) (st : option Z * option bytes)
    (value : Z) (script : bytes) : option (option Z * option bytes) :=
  let '(payout, withdrawal_id) := st in
  if bool_decide (payout = None) && is_p2pkh script recipient_hash160
  then Some (Some value, withdrawal_id)
  else match withdrawal_id with
       | None => Some (payout, op_return_withdrawal script)
       | Some _ => Some (payout, withdrawal_id)
       end.

Definition withdrawal_output (recipient_hash160 tx : bytes) (st : option Z * option bytes * Z) :
    option (option Z * option bytes * Z) :=
  let '(acc, p) := st in
  '(value, script, p) ← read_output tx p;
  acc ← withdrawal_push recipient_hash160 acc value script;
  Some (acc, p).

Definition parse_withdrawal_outputs (tx recipient_hash160 : bytes) : option (Z * bytes) :=
  p ← within tx 4;
  '(vin_count, np) ← read_varint tx p;
  let p := np in
  if vin_count =? 0 then None else
  '(_, p) ← repeat_opt vin_count (withdrawal_input tx) ((), p);
  '(vout_count, np) ← read_varint tx p;
  let p := np in
  if vout_count =? 0 then None else
  '(payout, withdrawal_id, p) ←
    repeat_opt vout_count (withdrawal_output recipient_hash160 tx) (None, None, p);
  p ← u64_checked_add p 4;
  if negb (p =? len tx) then None else
  payout ← payout;
  withdrawal_id ← withdrawal_id;
  Some (payout, withdrawal_id).

(** ** Offset parsers as cursor parsers *)

Definition lift {A} (f : bytes → Z → option (A * Z)) (c : Cursor) : AuxPowParseResult (A * Cursor) :=
  match f (cb c) (cp c) with
  | Some (v, p) => Ok (v, mkCursor (cb c) p)
  | None => Err NoAuxPow
  end.

Definition oparses {A} (f : bytes → Z → option (A * Z)) (R : A → bytes → Prop) : Prop :=
  parses (lift f) R.

Lemma oparses_Some {A} f (R : A → bytes → Prop) pre rest v p :
  oparses f R → len (pre ++ rest) ≤ usize_max →
  f (pre ++ rest) (len pre) = Some (v, p) ↔
  ∃ w rest', R v w ∧ rest = w ++ rest' ∧ p = len (pre ++ w).
Proof.
  intros Hf Hl. transitivity (lift f (cursor_at pre rest) = Ok (v, mkCursor (pre ++ rest) p)).
  { unfold lift, cursor_at; cbn [cb cp]. destruct (f _ _) as [[]|]; split; congruence. }
  rewrite (Hf pre rest v _ Hl). split.
  - intros (w & rest' & HR & -> & [= _ ->]). eauto.
  - intros (w & rest' & HR & -> & ->). exists w, rest'. split_and!; [done|done|].
    unfold cursor_at. by rewrite app_assoc.
Qed.

Lemma parses_ext {A} f g (R : A → bytes → Prop) :
  (∀ pre rest, len (pre ++ rest) ≤ usize_max →
    result_ok (f (cursor_at pre rest)) = result_ok (g (cursor_at pre rest))) →
  parses g R → parses f R.
Proof.
  intros Heq Hg pre rest v c' Hl. rewrite <-(Hg pre rest v c' Hl).
  by rewrite <-!result_ok_Some, Heq.
Qed.

Lemma result_ok_lift {A} (f : bytes → Z → option (A * Z)) c :
  result_ok (lift f c) = ('(v, p) ← f (cb c) (cp c); Some (v, mkCursor (cb c) p)).
Proof. unfold lift. by destruct (f _ _) as [[]|]. Qed.

Lemma oparses_iff {A} f (R R' : A → bytes → Prop) :
  oparses f R → (∀ v w, R v w ↔ R' v w) → oparses f R'.
Proof. apply parses_iff. Qed.

Lemma oparses_ret {A} (v : A) : oparses (λ _ p, Some (v, p)) (retR v).
Proof. eapply parses_ext; [|apply parses_ret]. intros. by rewrite result_ok_lift. Qed.

Lemma oparses_none {A} : oparses (λ _ _, @None (A * Z)) (λ _ _, False).
Proof. apply (parses_err (λ _, NoAuxPow)). Qed.

Lemma oparses_bind {A B} f (g : A → bytes → Z → option (B * Z)) R S :
  oparses f R → (∀ v w, R v w → oparses (g v) (S v)) →
  oparses (λ tx p, '(v, p) ← f tx p; g v tx p) (seqR R S).
Proof.
  intros Hf Hg. eapply parses_ext; [|apply (parses_bind (lift f) (λ v, lift (g v)) R S Hf Hg)].
  intros pre rest _. cbv beta. rewrite result_ok_bind, !result_ok_lift.
  destruct (f _ _) as [[v p]|]; [|done]. cbn. by rewrite result_ok_lift.
Qed.

Lemma oparses_case {A} (b : bool) f g (R S : A → bytes → Prop) :
  (b = true → oparses f R) → (b = false → oparses g S) →
  oparses (λ tx p, if b then f tx p else g tx p) (λ v w, if b then R v w else S v w).
Proof. destruct b; auto. Qed.

Ltac case_range :=
  match goal with |- context [@get_range byte ?l ?a ?b] => by destruct (@get_range byte l a b) end.

(** The three ways the code reads: a slice, a skip, a varint. *)
Lemma take_bytes_get c n :
  0 ≤ cp c → 0 ≤ n → len (cb c) ≤ usize_max →
  result_ok (take_bytes c n)
  = (s ← get_range (cb c) (cp c) (cp c + n); Some (s, mkCursor (cb c) (cp c + n))).
Proof.
  intros Hp Hn Hl. unfold take_bytes, get_range. rewrite usize_checked_add_64. unfold u64_checked_add. unfold usize_max in Hl.
  destruct (cp c + n <=? u64_max) eqn:E1; reflect_bools; cbn [ok_or mbind Result_bind].
  - destruct (cp c <=? cp c + n) eqn:E2; reflect_bools; [|lia]. cbn [andb].
    destruct (len (cb c) <? cp c + n) eqn:E3; reflect_bools.
    + destruct (cp c + n <=? len (cb c)) eqn:E4; reflect_bools; [lia|done].
    + destruct (cp c + n <=? len (cb c)) eqn:E4; reflect_bools; [done|lia].
  - destruct (cp c + n <=? len (cb c)) eqn:E4; reflect_bools; [lia|]. by rewrite andb_false_r.
Qed.

Lemma oparses_get n :
  0 ≤ n → oparses (λ tx p, s ← get_range tx p (p + n); Some (s, p + n)) (takeR n).
Proof.
  intros Hn. eapply parses_ext; [|by apply parses_take].
  intros pre rest Hl. cbv beta. rewrite result_ok_lift.
  rewrite take_bytes_get; [|apply len_nonneg|exact Hn|exact Hl].
  cbn [cb cp cursor_at]. case_range.
Qed.

Lemma oparses_skip {A} n (k : bytes → Z → option (A * Z)) R :
  0 ≤ n → oparses k R →
  oparses (λ tx p, p ← u64_checked_add p n; p ← within tx p; k tx p)
    (seqR (takeR n) (λ _, R)).
Proof.
  intros Hn Hk. eapply parses_ext.
  2:{ apply (parses_bind (λ c, take_bytes c n) (λ _, lift k)); [by apply parses_take|done]. }
  intros pre rest Hl. cbv beta. rewrite result_ok_bind, result_ok_lift.
  unfold take_bytes, within. change (usize_checked_add ?a ?b) with (u64_checked_add a b). cbn [cb cp cursor_at].
  destruct (u64_checked_add _ n); [|done]. cbn.
  destruct (len (pre ++ rest) <? _); [done|]. cbn. by rewrite result_ok_lift.
Qed.

(** Skipping [n] and then [m] bytes with one bound check. *)
Lemma oparses_skip2 {A} n m (k : bytes → Z → option (A * Z)) R :
  0 ≤ n → 0 ≤ m → oparses k R →
  oparses (λ tx p, p ← u64_checked_add p n; p ← u64_checked_add p m; p ← within tx p; k tx p)
    (seqR (takeR n) (λ _, seqR (takeR m) (λ _, R))).
Proof.
  intros Hn Hm Hk. eapply parses_ext.
  2:{ apply (oparses_skip n _ _ Hn (oparses_skip m k R Hm Hk)). }
  intros pre rest Hl. rewrite !result_ok_lift. f_equal. cbn [cb cp cursor_at].
  unfold u64_checked_add, within. pose proof (len_nonneg pre). unfold usize_max in Hl.
  destruct (len pre + n <=? u64_max) eqn:E1; reflect_bools; [|done]. cbn.
  destruct (len (pre ++ rest) <? len pre + n) eqn:E2; reflect_bools; [|done]. cbn.
  destruct (_ <=? u64_max); [|done]. cbn.
  destruct (_ <? len pre + n + m) eqn:E3; reflect_bools; [done|lia].
Qed.

Lemma get_range_1 (l : bytes) p : 0 ≤ p → get_range l p (p + 1) = ((λ b, [b]) <$> l !! Z.to_nat p).
Proof.
  intros Hp. unfold get_range, slice. replace (Z.to_nat (p + 1 - p)) with 1%nat by lia.
  destruct (p <=? p + 1) eqn:E1; reflect_bools; [|lia]. cbn [andb].
  destruct (l !! Z.to_nat p) as [b|] eqn:Hb.
  - pose proof (lookup_lt_Some _ _ _ Hb). destruct (p + 1 <=? len l) eqn:E; reflect_bools.
    + by rewrite (drop_S _ _ _ Hb).
    + unfold len in E. lia.
  - apply lookup_ge_None in Hb. destruct (p + 1 <=? len l) eqn:E; reflect_bools; [|done].
    unfold len in E. lia.
Qed.

Lemma oparses_varint : oparses read_varint varint_enc.
Proof.
  eapply parses_ext; [|apply parses_varint]. intros pre rest Hl. rewrite result_ok_lift.
  unfold read_varint, varint. pose proof (len_nonneg pre) as Hp.
  rewrite result_ok_bind, take_bytes_get; [|exact Hp|lia|exact Hl]. cbn [cb cp cursor_at].
  rewrite get_range_1 by done.
  destruct ((pre ++ rest) !! _) as [n|] eqn:Hn; [|done].
  cbn [fmap option_fmap option_map mbind option_bind].
  change (byte_at [n] 0) with n. pose proof Hp as Hp1.
  assert (∀ k, 0 ≤ k →
    (x ← get_range (pre ++ rest) (len pre + 1) (len pre + 1 + k);
     Some (le_num x, mkCursor (pre ++ rest) (len pre + 1 + k)))
    = result_ok ('(s, c) ← take_bytes (mkCursor (pre ++ rest) (len pre + 1)) k; Ok (le_num s, c))) as Hk.
  { intros k Hk. rewrite result_ok_bind, take_bytes_get; [|cbn; lia|lia|exact Hl]. cbn [cb cp].
    case_range. }
  destruct (decide (n = xfd)) as [->|].
  { rewrite decide_False, decide_False by done. etrans; [|apply (Hk 2); lia].
    replace (len pre + 1 + 2) with (len pre + 3) by lia. case_range. }
  destruct (decide (n = xfe)) as [->|].
  { rewrite decide_False by done. etrans; [|apply (Hk 4); lia].
    replace (len pre + 1 + 4) with (len pre + 5) by lia. case_range. }
  destruct (decide (n = xff)) as [->|]; [|done].
  etrans; [|apply (Hk 8); lia].
  replace (len pre + 1 + 8) with (len pre + 9) by lia. case_range.
Qed.

(** Counted loops. *)
Lemma oparses_loop {A I} (step : bytes → A * Z → option (A * Z)) (push : A → I → option A)
    (item : I → bytes → Prop) n acc :
  (∀ acc, oparses (λ tx p, step tx (acc, p)) (λ acc' w, ∃ i, item i w ∧ push acc i = Some acc')) →
  0 ≤ n →
  oparses (λ tx p, repeat_opt n (step tx) (acc, p))
    (λ acc' w, ∃ items ws, len items = n ∧ Forall2 item items ws ∧ w = concat ws ∧
                           fold_opt push acc items = Some acc').
Proof.
  intros Hstep Hn.
  set (lstep := λ st : A * Cursor, lift (λ tx p, step tx (st.1, p)) st.2).
  eapply parses_ext; [|apply (parses_loop_opt lstep push item n acc); [|done]].
  - intros pre rest Hl. cbv beta. rewrite result_ok_lift. cbn [cb cp cursor_at].
    unfold repeat_opt. rewrite !repeat_Z_nat. symmetry.
    etrans; [apply (repeat_result_ok (λ s, ok_or (step (pre ++ rest) s) ()) lstep
      (λ '(a, p), (a, mkCursor (pre ++ rest) p)) (λ _, True) _ (acc, len pre))|].
    + intros [a p] _. unfold lstep. cbn [fst snd]. rewrite result_ok_lift, result_ok_ok_or.
      cbn [cb cp]. by destruct (step _ _) as [[]|].
    + done.
    + done.
    + by destruct (result_ok _) as [[]|].
  - intros acc'. exact (Hstep acc').
Qed.

(** ** The loop bodies *)

(** The null prevout of a coinbase, as the code tests it. *)
Definition is_null_prevout (po : bytes) : bool :=
  (le_num (slice po 32 36) =? 0xffffffff) && forallb (λ b, bool_decide (b = x00)) (slice po 0 32).

Lemma slice_slice {A} (l : list A) a b c d :
  0 ≤ a → 0 ≤ c → d ≤ b - a → slice (slice l a b) c d = slice l (a + c) (a + d).
Proof.
  intros. unfold slice. rewrite skipn_firstn_comm, firstn_firstn, drop_drop.
  f_equal; [lia|]. f_equal. lia.
Qed.

(** The first iteration peeks at the prevout it then skips. *)
Lemma deposit_input_eq tx p i cbp :
  0 ≤ p → len tx ≤ usize_max →
  deposit_input tx (i, cbp, p)
  = ('(po, p) ← (s ← get_range tx p (p + 36); Some (s, p + 36));
     '(slen, np) ← read_varint tx p;
     p ← u64_checked_add np slen;
     p ← u64_checked_add p 4;
     p ← within tx p;
     Some ((i + 1, if i =? 0 then is_null_prevout po else cbp), p)).
Proof.
  intros Hp Hl. unfold deposit_input, u64_checked_add, usize_max in *.
  destruct (decide (p + 36 <= len tx)) as [Hfit|Hfit].
  - assert (∀ a b, p ≤ a ≤ b → b ≤ p + 36 → get_range tx a b = Some (slice tx a b)) as Hg.
    { intros. apply get_range_Some. split_and!; [lia|lia|done]. }
    assert (within tx (p + 36) = Some (p + 36)) as Hw.
    { unfold within. destruct (len tx <? p + 36) eqn:E; reflect_bools; [lia|done]. }
    rewrite !Hg by lia.
    destruct (p + 36 <=? u64_max) eqn:E1; reflect_bools; [|lia].
    cbn [mbind option_bind]. unfold is_null_prevout. rewrite !slice_slice by lia.
    rewrite Z.add_0_r. destruct (i =? 0); cbn [mbind option_bind]; by rewrite Hw.
  - assert (get_range tx p (p + 36) = None) as ->.
    { unfold get_range. destruct (p + 36 <=? len tx) eqn:E; reflect_bools; [lia|].
      by rewrite andb_false_r. }
    cbn [mbind option_bind].
    assert (∀ c : option bool, (c' ← c; p' ← (if p + 36 <=? u64_max then Some (p + 36) else None);
               p' ← within tx p'; '(slen, np) ← read_varint tx p';
               p' ← (if np + slen <=? u64_max then Some (np + slen) else None);
               p' ← (if p' + 4 <=? u64_max then Some (p' + 4) else None);
               p' ← within tx p'; Some (i + 1, c', p')) = None) as Hc; [|apply Hc].
    intros [c|]; [|done]. cbn [mbind option_bind]. destruct (p + 36 <=? u64_max); [|done].
    cbn. unfold within. destruct (len tx <? p + 36) eqn:E; reflect_bools; [done|lia].
Qed.

Lemma oparses_ext {A} f g (R : A → bytes → Prop) :
  (∀ tx p, 0 ≤ p → len tx ≤ usize_max → f tx p = g tx p) → oparses g R → oparses f R.
Proof.
  intros Heq. apply parses_ext. intros pre rest Hl. rewrite !result_ok_lift.
  cbn [cb cp cursor_at]. by rewrite Heq by auto using len_nonneg.
Qed.

Definition deposit_seen (st : Z * bool) (i : TxIn) : Z * bool :=
  (st.1 + 1, if st.1 =? 0 then is_null_prevout (prevout i) else st.2).

Lemma oparses_deposit_input st :
  oparses (λ tx p, deposit_input tx (st, p))
    (λ st' w, ∃ i, in_wire i w ∧ Some (deposit_seen st i) = Some st').
Proof.
  destruct st as [k cbp]. eapply oparses_ext; [intros tx p Hp Hl; by apply deposit_input_eq|].
  eapply oparses_iff; [|intros st' w; etrans;
    [apply (seq_in_wire (λ po _ _, (k + 1, if k =? 0 then is_null_prevout po else cbp)))|]].
  - apply (oparses_bind _ (λ po tx p, '(slen, np) ← read_varint tx p;
      p ← u64_checked_add np slen; p ← u64_checked_add p 4; p ← within tx p;
      Some ((k + 1, if k =? 0 then is_null_prevout po else cbp), p))); [by apply oparses_get|].
    intros po _ _.
    apply (oparses_bind _ (λ slen tx np, p ← u64_checked_add np slen; p ← u64_checked_add p 4;
      p ← within tx p; Some ((k + 1, if k =? 0 then is_null_prevout po else cbp), p)));
      [apply oparses_varint|]. intros slen w Hs%varint_nonneg.
    apply oparses_skip2; [done|lia|]. apply oparses_ret.
  - unfold deposit_seen. cbn [fst snd].
    split; intros (i & Hi & Heq); exists i; (split; [done|congruence]).
Qed.

Lemma oparses_withdrawal_input st :
  oparses (λ tx p, withdrawal_input tx (st, p)) (λ st' w, ∃ i, in_wire i w ∧ Some () = Some st').
Proof.
  eapply oparses_iff; [|intros st' w; etrans; [apply (seq_in_wire (λ _ _ _, ()))|]].
  - unfold withdrawal_input. apply oparses_skip; [lia|].
    apply (oparses_bind _ (λ slen tx np, p ← u64_checked_add np slen; p ← u64_checked_add p 4;
      p ← within tx p; Some ((), p))); [apply oparses_varint|]. intros slen w Hs%varint_nonneg.
    apply oparses_skip2; [done|lia|]. apply oparses_ret.
  - split; intros (i & Hi & Heq); exists i; (split; [done|congruence]).
Qed.

(** A slice whose end is computed with an overflow check. *)
Lemma oparses_get_checked {A} n (k : bytes → bytes → Z → option (A * Z)) R :
  0 ≤ n → (∀ s, oparses (k s) (R s)) →
  oparses (λ tx p, end_ ← u64_checked_add p n; s ← get_range tx p end_; k s tx end_)
    (seqR (takeR n) R).
Proof.
  intros Hn Hk. eapply oparses_ext.
  2:{ apply (oparses_bind (λ tx p, s ← get_range tx p (p + n); Some (s, p + n)) k);
        [by apply oparses_get|done]. }
  intros tx p Hp Hl. unfold u64_checked_add, usize_max in *.
  destruct (p + n <=? u64_max) eqn:E; reflect_bools; cbn [mbind option_bind].
  - by destruct (@get_range byte tx p (p + n)).
  - unfold get_range. destruct (p + n <=? len tx) eqn:E2; reflect_bools; [lia|].
    by rewrite andb_false_r.
Qed.

Lemma oparses_output {A} (push : A → Z → bytes → option A) acc :
  oparses (λ tx p, '(value, script, p) ← read_output tx p;
                   acc ← push acc value script; Some (acc, p))
    (λ acc' w, ∃ o, out_wire o w ∧ push acc (le_num (out_value o)) (script_pubkey o) = Some acc').
Proof.
  eapply oparses_ext with (g := λ tx p,
    '(v, p) ← (s ← get_range tx p (p + 8); Some (s, p + 8));
    '(slen, np) ← read_varint tx p;
    end_ ← u64_checked_add np slen;
    script ← get_range tx np end_;
    match push acc (le_num v) script with Some acc => Some (acc, end_) | None => None end).
  { intros tx p _ _. unfold read_output. destruct (@get_range byte tx p (p + 8)); [|done].
    cbn [mbind option_bind]. destruct (read_varint tx (p + 8)) as [[sl np]|]; [|done].
    cbn [mbind option_bind]. destruct (u64_checked_add np sl); [|done]. cbn [mbind option_bind].
    case_range. }
  eapply oparses_iff; [|intros acc' w;
    apply (seq_out_wire (λ va sc u, push acc (le_num va) sc = Some u))].
  apply (oparses_bind _ (λ v tx p, '(slen, np) ← read_varint tx p;
    end_ ← u64_checked_add np slen; script ← get_range tx np end_;
    match push acc (le_num v) script with Some acc => Some (acc, end_) | None => None end));
    [by apply oparses_get|]. intros v _ _.
  apply (oparses_bind _ (λ slen tx np, end_ ← u64_checked_add np slen; script ← get_range tx np end_;
    match push acc (le_num v) script with Some acc => Some (acc, end_) | None => None end));
    [apply oparses_varint|]. intros slen w Hs%varint_nonneg.
  apply (oparses_get_checked slen (λ script tx p, match push acc (le_num v) script with
     Some acc => Some (acc, p) | None => None end)); [done|]. intros script.
  destruct (push acc (le_num v) script) as [acc'|].
  - eapply oparses_iff; [apply oparses_ret|]. intros u w1. unfold retR. intuition congruence.
  - eapply oparses_iff; [apply oparses_none|]. intros u w1. intuition congruence.
Qed.

(** ** The walk both parsers share *)

Definition walk {B A} (inp : bytes → B * Z → option (B * Z)) (b0 : B) (stop : Z → B → bool)
    (out : bytes → A * Z → option (A * Z)) (a0 : A) (tx : bytes) (p : Z) : option (A * Z) :=
  p ← u64_checked_add p 4;
  p ← within tx p;
  '(vin, p) ← read_varint tx p;
  if vin =? 0 then None else
  '(b, p) ← repeat_opt vin (inp tx) (b0, p);
  if stop vin b : bool then None else
  '(vout, p) ← read_varint tx p;
  if vout =? 0 then None else repeat_opt vout (out tx) (a0, p).

(** A transaction up to its locktime. *)
Definition prefix_wire (t : LegacyTx) (w : bytes) : Prop :=
  len (tx_version t) = 4 ∧ tx_ins t ≠ [] ∧
  ∃ vi wi vo wo,
    varint_enc (len (tx_ins t)) vi ∧ Forall2 in_wire (tx_ins t) wi ∧
    varint_enc (len (tx_outs t)) vo ∧ Forall2 out_wire (tx_outs t) wo ∧
    w = tx_version t ++ vi ++ concat wi ++ vo ++ concat wo.

Lemma len_0_nil {A} (l : list A) : len l = 0 ↔ l = [].
Proof. destruct l; unfold len; simpl; split; intros; done || lia. Qed.

Lemma tx_wire_prefix t w :
  tx_wire t false w ↔ len (tx_locktime t) = 4 ∧ ∃ w', prefix_wire t w' ∧ w = w' ++ tx_locktime t.
Proof.
  unfold tx_wire, prefix_wire, counts_wire; cbn [fst snd].
  assert (len (tx_ins t) ≠ 0 ↔ tx_ins t ≠ []) as Hnil
    by (split; intros Hx Hy; by apply Hx, len_0_nil).
  split.
  - intros (Hv & Hl & vi & wi & vo & wo & wits & ww & [Hne%Hnil Hvi] & Hi & Hvo & Ho & -> & Hw & ->).
    inversion Hw; subst. split; [done|].
    exists (tx_version t ++ vi ++ concat wi ++ vo ++ concat wo).
    split; [eauto 15|]. by rewrite <-!app_assoc.
  - intros (Hl & w' & (Hv & Hne & vi & wi & vo & wo & Hvi & Hi & Hvo & Ho & ->) & ->).
    split; [done|]. split; [done|]. exists vi, wi, vo, wo, [], [].
    split_and!; [by apply Hnil|done..|]. by rewrite <-!app_assoc.
Qed.

Section walk.
Context {B A : Type} (inp : bytes → B * Z → option (B * Z)) (b0 : B) (stop : Z → B → bool).
Context (out : bytes → A * Z → option (A * Z)) (a0 : A).
Context (seen : B → TxIn → B) (push : A → TxOut → option A).
Context (Hinp : ∀ b, oparses (λ tx p, inp tx (b, p))
                       (λ b' w, ∃ i, in_wire i w ∧ Some (seen b i) = Some b')).
Context (Hout : ∀ a, oparses (λ tx p, out tx (a, p))
                       (λ a' w, ∃ o, out_wire o w ∧ push a o = Some a')).

Lemma oparses_walk :
  oparses (walk inp b0 stop out a0)
    (λ a w, ∃ t, prefix_wire t w ∧ stop (len (tx_ins t)) (foldl seen b0 (tx_ins t)) = false ∧
                 tx_outs t ≠ [] ∧ fold_opt push a0 (tx_outs t) = Some a).
Proof.
  eapply oparses_iff.
  - unfold walk. apply (oparses_skip 4); [lia|].
    apply (oparses_bind _ (λ vin tx p, if vin =? 0 then None else
      '(b, p) ← repeat_opt vin (inp tx) (b0, p); if stop vin b : bool then None else
      '(vout, p) ← read_varint tx p; if vout =? 0 then None else repeat_opt vout (out tx) (a0, p)));
      [apply oparses_varint|]. intros vin w Hvin%varint_nonneg.
    apply (oparses_case (vin =? 0)); intros _; [apply oparses_none|].
    apply (oparses_bind (λ tx p, repeat_opt vin (inp tx) (b0, p)) (λ b tx p,
      if stop vin b : bool then None else
      '(vout, p) ← read_varint tx p; if vout =? 0 then None else repeat_opt vout (out tx) (a0, p)));
      [apply (oparses_loop inp (λ b i, Some (seen b i)) in_wire); [apply Hinp|done]|].
    intros b _ _. apply (oparses_case (stop vin b)); intros _; [apply oparses_none|].
    apply (oparses_bind _ (λ vout tx p, if vout =? 0 then None else repeat_opt vout (out tx) (a0, p)));
      [apply oparses_varint|]. intros vout w' Hvout%varint_nonneg.
    apply (oparses_case (vout =? 0)); intros _; [apply oparses_none|].
    apply (oparses_loop out push out_wire); [apply Hout|done].
  - intros a w. unfold seqR, prefix_wire. split.
    + intros (ve & ? & ? & -> & [-> Hve] & vin & vi & ? & -> & Hvi & Hw).
      destruct (vin =? 0) eqn:E0; [done|]. reflect_bools.
      destruct Hw as (b & ? & ? & -> & (ins & wi & <- & Hi & -> & Hseen) & Hw).
      rewrite fold_opt_total in Hseen. injection Hseen as <-.
      destruct (stop _ _) eqn:Es; [done|].
      destruct Hw as (vout & vo & ? & -> & Hvo & Hw). destruct (vout =? 0) eqn:E1; [done|]. reflect_bools.
      destruct Hw as (outs & wo & <- & Ho & -> & Hf).
      assert (ins ≠ []) by (by intros ->). assert (outs ≠ []) by (by intros ->).
      exists (mkTx ve ins outs []).
      cbn [tx_version tx_ins tx_outs]. split_and!; [done|done| |done|done|done].
      exists vi, wi, vo, wo. by split_and!.
    + intros ([ve ins outs lt] & (Hve & Hne & vi & wi & vo & wo & Hvi & Hi & Hvo & Ho & ->) & Hs & Hno & Hf).
      cbn [tx_version tx_ins tx_outs] in *.
      exists ve, ve, (vi ++ concat wi ++ vo ++ concat wo). split; [done|]. split; [done|].
      exists (len ins), vi, (concat wi ++ vo ++ concat wo). split_and!; [done..|].
      destruct (len ins =? 0) eqn:E0; reflect_bools; [by apply len_0_nil in E0|].
      exists (foldl seen b0 ins), (concat wi), (vo ++ concat wo).
      split_and!; [done|exists ins, wi; rewrite fold_opt_total; by split_and!|].
      rewrite Hs. exists (len outs), vo, (concat wo). split_and!; [done..|].
      destruct (len outs =? 0) eqn:E1; reflect_bools; [by apply len_0_nil in E1|].
      exists outs, wo. by split_and!.
Qed.

(** The end of both parsers: four bytes of locktime and nothing else. *)
Lemma walk_whole tx a :
  len tx ≤ usize_max →
  (∃ p, walk inp b0 stop out a0 tx 0 = Some (a, p) ∧ p + 4 = len tx) ↔
  ∃ t, tx_wire t false tx ∧ stop (len (tx_ins t)) (foldl seen b0 (tx_ins t)) = false ∧
       tx_outs t ≠ [] ∧ fold_opt push a0 (tx_outs t) = Some a.
Proof.
  intros Hl. pose proof (λ p, oparses_Some _ _ [] tx a p oparses_walk Hl) as Hw.
  change ([] ++ tx) with tx in Hw. change (len (@nil byte)) with 0 in Hw. split.
  - intros (p & (w & rest & (t & Ht & Hs & Hno & Hf) & -> & ->)%Hw & Hp).
    change ([] ++ w) with w in Hp. rewrite len_app in Hp.
    exists (mkTx (tx_version t) (tx_ins t) (tx_outs t) rest). cbn [tx_ins tx_outs].
    split_and!; [|done|done|done]. apply tx_wire_prefix. cbn [tx_locktime].
    split; [lia|]. by exists w.
  - intros (t & (Hlt & w & Hpre & ->)%tx_wire_prefix & Hs & Hno & Hf).
    exists (len w). split.
    + apply Hw. exists w, (tx_locktime t). split; [by exists t|done].
    + rewrite len_app. lia.
Qed.
End walk.

(** ** Unambiguity of the grammar *)

Definition prefix_free {A} (R : A → bytes → Prop) : Prop :=
  ∀ v v' w w' r r', R v w → R v' w' → len (w ++ r) ≤ usize_max →
    w ++ r = w' ++ r' → v = v' ∧ w = w' ∧ r = r'.

Lemma parses_prefix_free {A} f (R : A → bytes → Prop) : parses f R → prefix_free R.
Proof.
  intros Hf v v' w w' r r' HR HR' Hl Heq.
  assert (f (cursor_at [] (w ++ r)) = Ok (v, cursor_at w r)) as H1.
  { apply Hf; [done|]. by exists w, r. }
  assert (f (cursor_at [] (w ++ r)) = Ok (v', cursor_at w' r')) as H2.
  { apply Hf; [done|]. exists w', r'. by rewrite Heq. }
  rewrite H1 in H2. injection H2 as -> _ Hlen.
  apply app_inj_1 in Heq as [-> ->]; [done|]. unfold len in Hlen. lia.
Qed.

Lemma fits_tail (a b : bytes) m : len (a ++ b) ≤ m → len b ≤ m.
Proof. rewrite len_app. pose proof (len_nonneg a). lia. Qed.

Lemma in_wire_prefix_free : prefix_free in_wire.
Proof.
  intros [p s q] [p' s' q'] w w' r r' (Hp & Hq & v & Hv & ->) (Hp' & Hq' & v' & Hv' & ->) Hl Heq.
  cbn [prevout script_sig in_sequence] in *. rewrite <-!app_assoc in *.
  apply app_inj_1 in Heq as [<- Heq]; [|unfold len in *; lia].
  apply fits_tail in Hl.
  destruct (parses_prefix_free _ _ parses_varint _ _ _ _ _ _ Hv Hv' Hl Heq)
    as (Hs & <- & Heq2).
  apply app_inj_1 in Heq2 as [<- Heq2]; [|unfold len in *; lia].
  apply app_inj_1 in Heq2 as [<- Heq2]; [done|unfold len in *; lia].
Qed.

Lemma out_wire_prefix_free : prefix_free out_wire.
Proof.
  intros [p s] [p' s'] w w' r r' (Hp & v & Hv & ->) (Hp' & v' & Hv' & ->) Hl Heq.
  cbn [out_value script_pubkey] in *. rewrite <-!app_assoc in *.
  apply app_inj_1 in Heq as [<- Heq]; [|unfold len in *; lia].
  apply fits_tail in Hl.
  destruct (parses_prefix_free _ _ parses_varint _ _ _ _ _ _ Hv Hv' Hl Heq)
    as (Hs & <- & Heq2).
  apply app_inj_1 in Heq2 as [<- Heq2]; [done|unfold len in *; lia].
Qed.

Lemma list_prefix_free {I} (R : I → bytes → Prop) items items' ws ws' r r' :
  prefix_free R → Forall2 R items ws → Forall2 R items' ws' →
  length items = length items' → len (concat ws ++ r) ≤ usize_max →
  concat ws ++ r = concat ws' ++ r' → items = items' ∧ concat ws = concat ws' ∧ r = r'.
Proof.
  intros HR HF. revert items' ws'. induction HF as [|i w items ws Hi HF IH];
    intros items' ws' HF' Hlen Hl Heq; inversion HF' as [|i' w' items2 ws2 Hi' HF2]; subst; try done.
  injection Hlen as Hlen. cbn [concat] in *. rewrite <-!app_assoc in *.
  destruct (HR _ _ _ _ _ _ Hi Hi' Hl Heq) as (<- & <- & Heq2).
  apply fits_tail in Hl.
  destruct (IH _ _ HF2 Hlen Hl Heq2) as (-> & -> & ->). done.
Qed.

Lemma tx_wire_unambiguous t t' w :
  tx_wire t false w → tx_wire t' false w → len w ≤ usize_max → t = t'.
Proof.
  destruct t as [ve ins outs lt], t' as [ve' ins' outs' lt'].
  intros (Hlt & wp & (Hve & _ & vi & wi & vo & wo & Hvi & Hi & Hvo & Ho & ->) & ->)%tx_wire_prefix.
  intros (Hlt' & wp & (Hve' & _ & vi' & wi' & vo' & wo' & Hvi' & Hi' & Hvo' & Ho' & ->) & Heq)%tx_wire_prefix Hl.
  cbn [tx_version tx_ins tx_outs tx_locktime] in *. rewrite <-!app_assoc in *.
  apply app_inj_1 in Heq as [<- Heq]; [|unfold len in *; lia].
  apply fits_tail in Hl.
  destruct (parses_prefix_free _ _ parses_varint _ _ _ _ _ _ Hvi Hvi' Hl Heq) as (Hni & <- & Heq2).
  apply fits_tail in Hl.
  destruct (list_prefix_free _ _ _ _ _ _ _ in_wire_prefix_free Hi Hi'
              ltac:(unfold len in *; lia) Hl Heq2) as (<- & _ & Heq3).
  apply fits_tail in Hl.
  destruct (parses_prefix_free _ _ parses_varint _ _ _ _ _ _ Hvo Hvo' Hl Heq3) as (Hno & <- & Heq4).
  apply fits_tail in Hl.
  by destruct (list_prefix_free _ _ _ _ _ _ _ out_wire_prefix_free Ho Ho'
              ltac:(unfold len in *; lia) Hl Heq4) as (<- & _ & <-).
Qed.

(** ** The outputs: what they pay and to whom *)

Definition p2pkh_script (hash160 : bytes) : bytes := [x76; xa9; x14] ++ hash160 ++ [x88; xac].

(** [split_script] splits a script of a known length into its bytes and evaluates
    the tests on them. *)
Ltac split_script :=
  match goal with
  | H : len ?s = _ |- _ =>
      unfold len in H; repeat (destruct s as [|? s]; [simpl in H; lia|]);
      destruct s; [|simpl in H; lia]
  end;
  repeat match goal with E : byte_at _ _ = _ |- _ => cbv in E; subst end.

Lemma is_p2pkh_iff script hash160 :
  length hash160 = 20%nat → is_p2pkh script hash160 = true ↔ script = p2pkh_script hash160.
Proof.
  intros Hh. unfold is_p2pkh. split.
  - intros H. reflect_bools. subst hash160.
    split_script. done.
  - intros ->. do 20 (destruct hash160 as [|? hash160]; [done|]). destruct hash160; [|done].
    cbn. by rewrite !bool_decide_eq_true_2.
Qed.

Lemma op_return_recipient_iff script r :
  op_return_recipient script = Some r ↔
  length r = 20%nat ∧ (script = [x6a; x14] ++ r ∨ script = [x6a; x16; x6a; x14] ++ r).
Proof.
  unfold op_return_recipient. split.
  - destruct (_ || _) eqn:E; [|done]. intros [= <-]. apply orb_true_iff in E as [E|E]; reflect_bools.
    + split_script. split; [done|by left].
    + split_script. split; [done|by right].
  - intros [Hr [->| ->]]; do 20 (destruct r as [|? r]; [done|]); (destruct r; [|done]); done.
Qed.

Lemma op_return_withdrawal_iff script r :
  op_return_withdrawal script = Some r ↔ length r = 32%nat ∧ script = [x6a; x20] ++ r.
Proof.
  unfold op_return_withdrawal. split.
  - destruct (_ && _) eqn:E; [|done]. intros [= <-]. reflect_bools.
    split_script. done.
  - intros [Hr ->]. do 32 (destruct r as [|? r]; [done|]). destruct r; [|done]. done.
Qed.

(** The sum of the outputs to a P2PKH script, the first such output, and the
    first binding. *)
Definition paid_to (hash160 : bytes) (outs : list TxOut) : Z :=
  foldr (λ o s, (if decide (script_pubkey o = p2pkh_script hash160)
                 then le_num (out_value o) else 0) + s) 0 outs.
Definition first_paid_to (hash160 : bytes) (outs : list TxOut) : option Z :=
  head (omap (λ o, if decide (script_pubkey o = p2pkh_script hash160)
                   then Some (le_num (out_value o)) else None) outs).
Definition first_bound (bind : bytes → option bytes) (outs : list TxOut) : option bytes :=
  head (omap (bind ∘ script_pubkey) outs).

(** A generation transaction: one input, the null prevout. *)
Definition is_coinbase (t : LegacyTx) : bool :=
  match tx_ins t with
  | [i] => bool_decide (prevout i = replicate 32 x00 ++ replicate 4 xff)
  | _ => false
  end.

Lemma paid_to_nonneg h outs : 0 ≤ paid_to h outs.
Proof.
  induction outs as [|o outs IH]; [done|]. cbn [paid_to foldr]. fold (paid_to h outs).
  pose proof (le_num_range (out_value o)). destruct (decide _); lia.
Qed.

Lemma p2pkh_no_recipient h : length h = 20%nat → op_return_recipient (p2pkh_script h) = None.
Proof. intros Hh. do 20 (destruct h as [|? h]; [done|]). by destruct h. Qed.

Lemma p2pkh_no_withdrawal h : length h = 20%nat → op_return_withdrawal (p2pkh_script h) = None.
Proof. intros Hh. do 20 (destruct h as [|? h]; [done|]). by destruct h. Qed.

Lemma is_p2pkh_decide script h :
  length h = 20%nat → is_p2pkh script h = bool_decide (script = p2pkh_script h).
Proof.
  intros Hh. apply eq_true_iff_eq. rewrite bool_decide_eq_true. by apply is_p2pkh_iff.
Qed.

Definition push_out {A} (push : A → Z → bytes → option A) (a : A) (o : TxOut) : option A :=
  push a (le_num (out_value o)) (script_pubkey o).

Lemma push_out_eq {A} (push : A → Z → bytes → option A) a o :
  push_out push a o = push a (le_num (out_value o)) (script_pubkey o).
Proof. done. Qed.

Definition or_else {A} (o o' : option A) : option A := match o with Some a => Some a | None => o' end.

Lemma first_bound_cons bind o outs :
  first_bound bind (o :: outs) = or_else (bind (script_pubkey o)) (first_bound bind outs).
Proof. unfold first_bound, compose. cbn. by destruct (bind (script_pubkey o)). Qed.

Lemma or_else_assoc {A} (a b c : option A) : or_else a (or_else b c) = or_else (or_else a b) c.
Proof. by destruct a. Qed.

Lemma or_else_None_r {A} (a : option A) : or_else a None = a.
Proof. by destruct a. Qed.

Lemma deposit_push_step h st v script :
  length h = 20%nat →
  deposit_push h st v script
  = if decide (script = p2pkh_script h)
    then c ← u64_checked_add st.1 v; Some (c, st.2)
    else Some (st.1, or_else st.2 (op_return_recipient script)).
Proof.
  intros Hh. destruct st as [s r]. unfold deposit_push. rewrite is_p2pkh_decide by done.
  cbn [fst snd]. destruct (decide (script = p2pkh_script h)) as [E|E].
  - by rewrite bool_decide_eq_true_2 by done.
  - rewrite bool_decide_eq_false_2 by done. by destruct r.
Qed.

Lemma deposit_fold h outs s r res :
  length h = 20%nat → 0 ≤ s ≤ u64_max →
  fold_opt (push_out (deposit_push h)) (s, r) outs = Some res ↔
  s + paid_to h outs ≤ u64_max ∧ res = (s + paid_to h outs, or_else r (first_bound op_return_recipient outs)).
Proof.
  intros Hh. revert s r. induction outs as [|o outs IH]; intros s r Hs.
  - cbn. rewrite Z.add_0_r, or_else_None_r. split; [intros [= <-]; split; [lia|done]|].
    by intros [_ ->].
  - cbn [fold_opt]. rewrite push_out_eq, deposit_push_step by done.
    rewrite first_bound_cons. cbn [paid_to foldr fst snd]. fold (paid_to h outs).
    pose proof (paid_to_nonneg h outs). pose proof (le_num_range (out_value o)) as Hv.
    destruct (decide (script_pubkey o = p2pkh_script h)) as [He|He].
    + rewrite He, p2pkh_no_recipient by done. cbn [or_else]. unfold u64_checked_add.
      destruct (s + le_num (out_value o) <=? u64_max) eqn:E; reflect_bools; cbn [mbind option_bind].
      * by rewrite IH, Z.add_assoc by lia.
      * split; [done|]. intros [? _]. lia.
    + cbn [mbind option_bind]. by rewrite IH, Z.add_0_l, or_else_assoc by lia.
Qed.

Lemma withdrawal_push_step h st v script :
  length h = 20%nat →
  withdrawal_push h st v script
  = Some (or_else st.1 (if decide (script = p2pkh_script h) then Some v else None),
          or_else st.2 (op_return_withdrawal script)).
Proof.
  intros Hh. destruct st as [[p|] w]; unfold withdrawal_push;
    rewrite is_p2pkh_decide by done; cbn [fst snd or_else].
  - rewrite bool_decide_eq_false_2 by done. by destruct w.
  - rewrite (bool_decide_eq_true_2 (None = None)) by done. cbn [andb].
    destruct (decide (script = p2pkh_script h)) as [->|E].
    + by rewrite bool_decide_eq_true_2, p2pkh_no_withdrawal, or_else_None_r by done.
    + rewrite bool_decide_eq_false_2 by done. by destruct w.
Qed.

Lemma withdrawal_fold h outs p w :
  length h = 20%nat →
  fold_opt (push_out (withdrawal_push h)) (p, w) outs
  = Some (or_else p (first_paid_to h outs), or_else w (first_bound op_return_withdrawal outs)).
Proof.
  intros Hh. revert p w. induction outs as [|o outs IH]; intros p w.
  - cbn. by rewrite !or_else_None_r.
  - cbn [fold_opt]. rewrite push_out_eq, withdrawal_push_step by done.
    cbn [mbind option_bind fst snd]. rewrite IH, first_bound_cons, <-!or_else_assoc.
    do 3 f_equal. unfold first_paid_to. cbn. by destruct (decide _).
Qed.

(** The null prevout, and a single input that has it. *)
Lemma is_null_prevout_iff po :
  len po = 36 → is_null_prevout po = bool_decide (po = replicate 32 x00 ++ replicate 4 xff).
Proof.
  intros Hl. apply eq_true_iff_eq. rewrite bool_decide_eq_true. unfold is_null_prevout. split.
  - intros H. reflect_bools. rewrite forallb_forall in H0.
    assert (slice po 0 32 = replicate 32 x00) as H32.
    { symmetry. apply replicate_as_elem_of. split; [rewrite length_slice; lia|].
      intros x Hx%list_elem_of_In%H0. by reflect_bools. }
    assert (slice po 32 36 = replicate 4 xff) as H4.
    { apply le_num_inj; [rewrite length_slice; [done|lia..]|]. done. }
    rewrite <-H32, <-H4. unfold slice. change (Z.to_nat (36 - 32)) with 4%nat.
    change (Z.to_nat 0) with 0%nat. rewrite drop_0. change (Z.to_nat (32 - 0)) with 32%nat.
    change (Z.to_nat 32) with 32%nat.
    rewrite (take_ge (drop 32 po)) by (rewrite length_drop; unfold len in Hl; lia).
    by rewrite take_drop.
  - intros ->. done.
Qed.

Lemma deposit_seen_spec ins k b :
  0 < k → foldl deposit_seen (k, b) ins = (k + len ins, b).
Proof.
  revert k. induction ins as [|i ins IH]; intros k Hk; [unfold len; simpl; by rewrite Z.add_0_r|].
  cbn [foldl]. unfold deposit_seen at 2. cbn [fst snd].
  destruct (k =? 0) eqn:E; reflect_bools; [lia|]. rewrite IH, len_cons by lia. f_equal. lia.
Qed.

Lemma deposit_stop t w :
  tx_wire t false w →
  (len (tx_ins t) =? 1) && (foldl deposit_seen (0, false) (tx_ins t)).2 = is_coinbase t.
Proof.
  intros (_ & _ & ? & wi & ? & ? & ? & ? & _ & Hi & _). unfold is_coinbase.
  destruct (tx_ins t) as [|i [|j ins]]; [done| |].
  - inversion Hi as [|? ? ? ? (Hp & _)]; subst. by apply is_null_prevout_iff.
  - rewrite !len_cons. pose proof (len_nonneg ins).
    destruct (_ =? 1) eqn:E; reflect_bools; [lia|done].
Qed.

(** ** Functional correctness *)

(** What a deposit and a payout transaction mean. *)
Definition deposit_meaning (t : LegacyTx) (custody : bytes) : option (Z * bytes) :=
  let s := paid_to custody (tx_outs t) in
  if is_coinbase t || (s =? 0) || (u64_max <? s) then None
  else r ← first_bound op_return_recipient (tx_outs t); Some (s, r).

Definition withdrawal_meaning (t : LegacyTx) (recipient : bytes) : option (Z * bytes) :=
  p ← first_paid_to recipient (tx_outs t);
  w ← first_bound op_return_withdrawal (tx_outs t);
  Some (p, w).

Lemma parse_deposit_walk tx h s r :
  len tx ≤ usize_max →
  parse_deposit_outputs tx h = Some (s, r) ↔
  s ≠ 0 ∧ ∃ p, walk deposit_input (0, false) (λ vin b, (vin =? 1) && b.2)
                 (deposit_output h) (0, None) tx 0 = Some (s, Some r, p) ∧ p + 4 = len tx.
Proof.
  intros Hl. unfold usize_max in Hl.
  assert (parse_deposit_outputs tx h
    = ('(acc, p) ← walk deposit_input (0, false) (λ vin b, (vin =? 1) && b.2)
                     (deposit_output h) (0, None) tx 0;
       p ← u64_checked_add p 4; if negb (p =? len tx) then None else
       if acc.1 =? 0 then None else r ← acc.2; Some (acc.1, r))) as ->.
  { unfold parse_deposit_outputs, walk. change (u64_checked_add 0 4) with (Some 4).
    cbn [mbind option_bind]. destruct (within tx 4); [|done]. cbn [mbind option_bind].
    destruct (read_varint _ _) as [[vin np]|]; [|done]. cbn [mbind option_bind].
    destruct (vin =? 0); [done|]. destruct (repeat_opt _ _ _) as [[[i b] p]|]; [|done].
    cbn [mbind option_bind snd]. destruct (_ && b); [done|].
    destruct (read_varint _ _) as [[vout np2]|]; [|done]. cbn [mbind option_bind].
    destruct (vout =? 0); [done|]. by destruct (repeat_opt _ _ _) as [[[s' r'] p']|]. }
  destruct (walk _ _ _ _ _ _ _) as [[[s' r'] p']|]; cbn [mbind option_bind fst snd];
    [|split; [done|by intros (_ & p & ? & _)]].
  unfold u64_checked_add. split.
  - destruct (_ <=? u64_max); [|done]. cbn [mbind option_bind].
    destruct (negb _) eqn:E1; [done|]. destruct (s' =? 0) eqn:E2; [done|].
    destruct r' as [r'|]; [|done]. intros [= <- <-]. reflect_bools. eauto.
  - intros (Hs & p & [= -> -> ->] & Hp). destruct (p + 4 <=? u64_max) eqn:E1; reflect_bools; [|lia].
    cbn [mbind option_bind]. rewrite Hp, Z.eqb_refl. cbn [negb].
    destruct (s =? 0) eqn:E2; reflect_bools; done.
Qed.

Lemma parse_deposit_iff tx h s r :
  length h = 20%nat → len tx ≤ usize_max →
  parse_deposit_outputs tx h = Some (s, r) ↔
  ∃ t, tx_wire t false tx ∧ deposit_meaning t h = Some (s, r).
Proof.
  intros Hh Hl. rewrite parse_deposit_walk by done.
  rewrite (walk_whole _ _ _ _ _ deposit_seen (push_out (deposit_push h)) oparses_deposit_input
             (oparses_output (deposit_push h)) tx (s, Some r) Hl).
  unfold deposit_meaning. split.
  - intros (Hs & t & Hw & Hst & Hno & Hf). exists t. split; [done|].
    rewrite (deposit_stop t tx Hw) in Hst. rewrite Hst.
    apply deposit_fold in Hf as [Hmax [= -> Hr]]; [|done|unfold u64_max; lia].
    rewrite Z.add_0_l in *. cbn [or_else] in Hr. rewrite <-Hr. cbn [orb].
    destruct (_ =? 0) eqn:E0; reflect_bools; [done|].
    destruct (u64_max <? _) eqn:E1; reflect_bools; [lia|done].
  - intros (t & Hw & Hm). destruct (is_coinbase t) eqn:Hc; [done|]. cbn [orb] in Hm.
    destruct (_ =? 0) eqn:E0; [done|]. destruct (u64_max <? _) eqn:E1; [done|]. cbn [orb] in Hm.
    apply bind_Some in Hm as (r' & Hr & [= <- <-]). reflect_bools.
    split; [done|]. exists t. split_and!; [done|by rewrite (deposit_stop t tx Hw)| |].
    + intros Hnil. by rewrite Hnil in Hr.
    + apply deposit_fold; [done|unfold u64_max; lia|]. rewrite Z.add_0_l, Hr. split; [lia|done].
Qed.

Lemma parse_withdrawal_iff tx h s r :
  length h = 20%nat → len tx ≤ usize_max →
  parse_withdrawal_outputs tx h = Some (s, r) ↔
  ∃ t, tx_wire t false tx ∧ withdrawal_meaning t h = Some (s, r).
Proof.
  intros Hh Hl.
  transitivity (∃ p, walk withdrawal_input () (λ _ _, false) (withdrawal_output h) (None, None) tx 0
                     = Some (Some s, Some r, p) ∧ p + 4 = len tx).
  { unfold usize_max in Hl.
    assert (parse_withdrawal_outputs tx h
      = ('(acc, p) ← walk withdrawal_input () (λ _ _, false) (withdrawal_output h) (None, None) tx 0;
         p ← u64_checked_add p 4; if negb (p =? len tx) then None else
         s ← acc.1; r ← acc.2; Some (s, r))) as ->.
    { unfold parse_withdrawal_outputs, walk. change (u64_checked_add 0 4) with (Some 4).
      cbn [mbind option_bind]. destruct (within tx 4); [|done]. cbn [mbind option_bind].
      destruct (read_varint _ _) as [[vin np]|]; [|done]. cbn [mbind option_bind].
      destruct (vin =? 0); [done|]. destruct (repeat_opt _ _ _) as [[u p]|]; [|done].
      cbn [mbind option_bind]. destruct (read_varint _ _) as [[vout np2]|]; [|done].
      cbn [mbind option_bind]. destruct (vout =? 0); [done|].
      by destruct (repeat_opt _ _ _) as [[[s' r'] p']|]. }
    destruct (walk _ _ _ _ _ _ _) as [[[s' r'] p']|]; cbn [mbind option_bind fst snd];
      [|split; [done|by intros (p & ? & _)]].
    unfold u64_checked_add. split.
    - destruct (_ <=? u64_max); [|done]. cbn [mbind option_bind].
      destruct (negb _) eqn:E1; [done|]. reflect_bools.
      destruct s' as [s'|], r' as [r'|]; try done. intros [= <- <-]. eauto.
    - intros (p & [= -> -> ->] & Hp). destruct (p + 4 <=? u64_max) eqn:E1; reflect_bools; [|lia].
      cbn [mbind option_bind]. by rewrite Hp, Z.eqb_refl. }
  rewrite (walk_whole _ _ _ _ _ (λ _ _, ()) (push_out (withdrawal_push h)) oparses_withdrawal_input
             (oparses_output (withdrawal_push h)) tx (Some s, Some r) Hl).
  unfold withdrawal_meaning. setoid_rewrite withdrawal_fold; [|done..]. cbn [or_else].
  split.
  - intros (t & Hw & _ & _ & [= Hs Hr]). exists t. by rewrite Hs, Hr.
  - intros (t & Hw & (p & Hp & (w & Hr & [= -> ->])%bind_Some)%bind_Some). exists t.
    rewrite Hp, Hr. split_and!; [done|done| |done]. intros Hnil. by rewrite Hnil in Hr.
Qed.

Lemma functional_meaning {X} (parse : option X) (meaning : LegacyTx → option X) tx :
  len tx ≤ usize_max →
  (∀ x, parse = Some x ↔ ∃ t, tx_wire t false tx ∧ meaning t = Some x) →
  ∀ t, tx_wire t false tx → parse = meaning t.
Proof.
  intros Hl Hiff t Ht. apply option_eq. intros x. rewrite Hiff. split; [|eauto].
  intros (t' & Ht' & Hx). by rewrite (tx_wire_unambiguous t t' tx).
Qed.

(** ** Properties *)

(** C20: deposits.  For a 20-byte custody hash and a buffer that fits in memory,
    [parse_deposit_outputs] returns an amount and a recipient exactly when the
    whole buffer is one legacy transaction with at least one input, it is not a
    coinbase, its outputs pay the custody script a non-zero total that fits 64
    bits, and some output binds a recipient: the amount is that total and the
    recipient that of the first binding output. *)
Theorem parse_deposit_correct (tx custody : bytes) (s : Z) (r : bytes)
    (Hcustody : length custody = 20%nat) (Hfit : len tx ≤ usize_max) :
  parse_deposit_outputs tx custody = Some (s, r) ↔
  ∃ t, tx_wire t false tx ∧ is_coinbase t = false ∧
       s = paid_to custody (tx_outs t) ∧ 0 < s ≤ u64_max ∧
       first_bound op_return_recipient (tx_outs t) = Some r.
Proof.
  rewrite parse_deposit_iff by done. unfold deposit_meaning.
  split; intros (t & Hw & Hm); exists t; (split; [done|]).
  - pose proof (paid_to_nonneg custody (tx_outs t)).
    destruct (is_coinbase t); [done|]. destruct (_ =? 0) eqn:E0; [done|].
    destruct (u64_max <? _) eqn:E1; [done|]. reflect_bools. cbn [orb] in Hm.
    apply bind_Some in Hm as (r' & Hr & [= <- <-]). split_and!; [done|done|lia|lia|done].
  - destruct Hm as (-> & -> & Hs & ->). destruct (_ =? 0) eqn:E0; reflect_bools; [lia|].
    destruct (u64_max <? _) eqn:E1; reflect_bools; [lia|done].
Qed.

(** A deposit whose input script contains a forged custody payment. *)
Definition sample_custody : bytes := replicate 20 xcc.
Definition sample_recipient : bytes := replicate 20 xee.
Definition sample_deposit (script : bytes) : LegacyTx :=
  mkTx (le_bytes 4 1) [mkTxIn (replicate 36 x11) script (replicate 4 xff)]
    [mkTxOut (le_bytes 8 700) (p2pkh_script sample_custody);
     mkTxOut (le_bytes 8 50) (p2pkh_script (replicate 20 x01));
     mkTxOut (le_bytes 8 0) ([x6a; x14] ++ sample_recipient);
     mkTxOut (le_bytes 8 300) (p2pkh_script sample_custody)]
    (le_bytes 4 0).

Lemma parse_deposit_correct_witness :
  let tx := tx_bytes (sample_deposit (p2pkh_script sample_custody)) in
  length sample_custody = 20%nat ∧ len tx ≤ usize_max ∧
  ∃ t, tx_wire t false tx ∧ is_coinbase t = false ∧
       1000 = paid_to sample_custody (tx_outs t) ∧ 0 < 1000 ≤ u64_max ∧
       first_bound op_return_recipient (tx_outs t) = Some sample_recipient.
Proof.
  intros tx. assert (len tx ≤ usize_max) as Hl by (vm_compute; discriminate).
  split; [reflexivity|]. split; [exact Hl|].
  apply (parse_deposit_correct tx sample_custody 1000 sample_recipient eq_refl Hl).
  vm_compute. reflexivity.
Defined.

(** Inputs cannot forge a deposit.  Two serialized transactions with the same
    outputs, both or neither of them a coinbase, parse to the same result: the
    version, the input scripts, the prevouts, the sequences and the locktime have
    no influence on the amount or the recipient. *)
Theorem parse_deposit_ignores_inputs (t1 t2 : LegacyTx) (tx1 tx2 custody : bytes)
    (Hcustody : length custody = 20%nat)
    (Hfit1 : len tx1 ≤ usize_max) (Hfit2 : len tx2 ≤ usize_max)
    (H1 : tx_wire t1 false tx1) (H2 : tx_wire t2 false tx2)
    (Houts : tx_outs t1 = tx_outs t2) (Hcb : is_coinbase t1 = is_coinbase t2) :
  parse_deposit_outputs tx1 custody = parse_deposit_outputs tx2 custody.
Proof.
  rewrite (functional_meaning (parse_deposit_outputs tx1 custody) (λ t, deposit_meaning t custody)
             tx1 Hfit1 (λ '(s, r), parse_deposit_iff tx1 custody s r Hcustody Hfit1) t1 H1).
  rewrite (functional_meaning (parse_deposit_outputs tx2 custody) (λ t, deposit_meaning t custody)
             tx2 Hfit2 (λ '(s, r), parse_deposit_iff tx2 custody s r Hcustody Hfit2) t2 H2).
  unfold deposit_meaning. by rewrite Houts, Hcb.
Qed.

Lemma parse_deposit_ignores_inputs_witness :
  let t1 := sample_deposit (p2pkh_script sample_custody) in
  let t2 := sample_deposit [] in
  tx_wire t1 false (tx_bytes t1) ∧ tx_wire t2 false (tx_bytes t2) ∧
  parse_deposit_outputs (tx_bytes t1) sample_custody
  = parse_deposit_outputs (tx_bytes t2) sample_custody.
Proof.
  intros t1 t2.
  assert (∀ s, is_size s → tx_wf (sample_deposit s)) as Hwf.
  { intros s Hs. split; [reflexivity|reflexivity|discriminate|split; vm_compute; discriminate|
      split; vm_compute; discriminate| |].
    - constructor; [|constructor]. split; [reflexivity|]. split; [reflexivity|exact Hs].
    - repeat constructor; vm_compute; discriminate. }
  assert (tx_wire t1 false (tx_bytes t1)) as H1.
  { apply tx_wire_legacy, Hwf. split; vm_compute; discriminate. }
  assert (tx_wire t2 false (tx_bytes t2)) as H2.
  { apply tx_wire_legacy, Hwf. split; vm_compute; discriminate. }
  split; [exact H1|]. split; [exact H2|].
  exact (parse_deposit_ignores_inputs t1 t2 (tx_bytes t1) (tx_bytes t2) sample_custody eq_refl
           ltac:(vm_compute; discriminate) ltac:(vm_compute; discriminate) H1 H2 eq_refl eq_refl).
Defined.

(** C8: payouts.  [parse_withdrawal_outputs] succeeds exactly on a buffer that is
    one legacy transaction with an input, an output to the recipient's P2PKH
    script and an [OP_RETURN] of 32 bytes; the amount is that of the first such
    payment and the id that of the first such binding. *)
Theorem parse_withdrawal_correct (tx recipient : bytes) (s : Z) (id : bytes)
    (Hrecipient : length recipient = 20%nat) (Hfit : len tx ≤ usize_max) :
  parse_withdrawal_outputs tx recipient = Some (s, id) ↔
  ∃ t, tx_wire t false tx ∧ first_paid_to recipient (tx_outs t) = Some s ∧
       first_bound op_return_withdrawal (tx_outs t) = Some id.
Proof.
  rewrite parse_withdrawal_iff by done. unfold withdrawal_meaning.
  split; intros (t & Hw & Hm); exists t; (split; [done|]).
  - by apply bind_Some in Hm as (p & Hp & (w & Hr & [= -> ->])%bind_Some).
  - destruct Hm as [-> ->]. done.
Qed.

Lemma parse_withdrawal_correct_witness :
  let tx := tx_bytes (mkTx (le_bytes 4 1) [mkTxIn (replicate 36 x11) [] (replicate 4 xff)]
    [mkTxOut (le_bytes 8 700) (p2pkh_script sample_custody);
     mkTxOut (le_bytes 8 0) ([x6a; x20] ++ replicate 32 x44);
     mkTxOut (le_bytes 8 900) (p2pkh_script sample_custody)] (le_bytes 4 0)) in
  length sample_custody = 20%nat ∧ len tx ≤ usize_max ∧
  ∃ t, tx_wire t false tx ∧ first_paid_to sample_custody (tx_outs t) = Some 700 ∧
       first_bound op_return_withdrawal (tx_outs t) = Some (replicate 32 x44).
Proof.
  intros tx. assert (len tx ≤ usize_max) as Hl by (vm_compute; discriminate).
  split; [reflexivity|]. split; [exact Hl|].
  apply (parse_withdrawal_correct tx sample_custody 700 (replicate 32 x44) eq_refl Hl).
  vm_compute. reflexivity.
Defined.
