(* ===== verification/Abi.v ===== *)
(** * The proof journals and their ABI encoding

    [crates/common/src/lib.rs]: [Journal] and [WithdrawalJournal], the public
    outputs of the peg-in and peg-out proofs, with their fixed-layout ABI
    encoders and decoders.  The theorems: layout, round trips, injectivity, and
    what a decoder accepts beyond canonical encodings. *)

From S2P Require Export AuxPow.

#[local] Open Scope Z_scope.

(** ** Buffer writes *)

(** [out[off..off + src.len()].copy_from_slice(&src)] inside the buffer. *)
Definition blit {A} (out : list A) (off : Z) (src : list A) : list A :=
  take (Z.to_nat off) out ++ src ++ drop (Z.to_nat (off + len src)) out.

(** ** Data *)

Module Journal.
Record t := mk {
  deposit_block_hash : bytes;
  deposit_txid : bytes;
  amount_sats : Z;
  recipient : bytes;
  confirmations : Z;
  checkpoint_hash : bytes;
  pow_limit_bits : Z;
  proven_work : bytes;
  custody_hash160 : bytes;
  custody_epoch : Z;
  chain_id : Z
}.

Definition abi_encode (j : t) : bytes :=
  let out := replicate 352 x00 in
  let out := blit out 0 (deposit_block_hash j) in
  let out := blit out 32 (deposit_txid j) in
  let out := blit out 88 (be_bytes 8 (amount_sats j)) in
  let out := blit out 108 (recipient j) in
  let out := blit out 156 (be_bytes 4 (confirmations j)) in
  let out := blit out 160 (checkpoint_hash j) in
  let out := blit out 220 (be_bytes 4 (pow_limit_bits j)) in
  let out := blit out 224 (proven_work j) in
  let out := blit out 256 (custody_hash160 j) in
  let out := blit out 312 (be_bytes 8 (custody_epoch j)) in
  let out := blit out 348 (be_bytes 4 (chain_id j)) in
  out.

Definition abi_decode (data : bytes) : Result string t :=
  if negb (len data =? 352) then Err "journal must be 352 bytes"%string else
  let arr32 := λ o, slice data o (o + 32) in
  let deposit_block_hash := slice data 0 32 in
  let deposit_txid := slice data 32 64 in
  let amount_sats := be_num (slice data 88 96) in
  let recipient := slice data 108 128 in
  let confirmations := be_num (slice data 156 160) in
  let checkpoint_hash := arr32 160 in
  let pow_limit_bits := be_num (slice data 220 224) in
  let proven_work := arr32 224 in
  let custody_hash160 := slice data 256 276 in
  let custody_epoch := be_num (slice data 312 320) in
  let chain_id := be_num (slice data 348 352) in
  Ok (mk deposit_block_hash deposit_txid amount_sats recipient confirmations checkpoint_hash
        pow_limit_bits proven_work custody_hash160 custody_epoch chain_id).

(** The values of the Rust field types. *)
Record wf (j : t) : Prop := {
  wf_block : len (deposit_block_hash j) = 32;
  wf_txid : len (deposit_txid j) = 32;
  wf_amount : is_u64 (amount_sats j);
  wf_recipient : len (recipient j) = 20;
  wf_conf : is_u32 (confirmations j);
  wf_checkpoint : len (checkpoint_hash j) = 32;
  wf_limit : is_u32 (pow_limit_bits j);
  wf_work : len (proven_work j) = 32;
  wf_custody : len (custody_hash160 j) = 20;
  wf_epoch : is_u64 (custody_epoch j);
  wf_chain : is_u32 (chain_id j)
}.
End Journal.
#[export] Instance Journal_eq_dec : EqDecision Journal.t.
Proof. solve_decision. Defined.

(** A Solidity word: the bytes, right-aligned. *)
Definition word_from_be (b : bytes) : bytes := blit (replicate 32 x00) (32 - len b) b.

Module WithdrawalJournal.
Record t := mk {
  withdrawal_id : bytes;
  recipient_hash160 : bytes;
  payout_sats : Z;
  checkpoint_hash : bytes;
  confirmations : Z;
  pow_limit_bits : Z;
  proven_work : bytes;
  chain_id : Z
}.

Definition abi_encode (j : t) : bytes :=
  let out := withdrawal_id j in
  let out := out ++ recipient_hash160 j in
  let out := out ++ replicate 12 x00 in
  let out := out ++ word_from_be (be_bytes 8 (payout_sats j)) in
  let out := out ++ checkpoint_hash j in
  let out := out ++ word_from_be (be_bytes 4 (confirmations j)) in
  let out := out ++ word_from_be (be_bytes 4 (pow_limit_bits j)) in
  let out := out ++ proven_work j in
  let out := out ++ word_from_be (be_bytes 4 (chain_id j)) in
  out.

Definition abi_decode (data : bytes) : Result string t :=
  if negb (len data =? 256) then Err "withdrawal journal must be 256 bytes"%string else
  let arr32 := λ o, slice data o (o + 32) in
  let recipient_hash160 := slice data 32 52 in
  Ok (mk (arr32 0) recipient_hash160 (be_num (slice data 88 96)) (arr32 96)
        (be_num (slice data 156 160)) (be_num (slice data 188 192)) (arr32 192)
        (be_num (slice data 252 256))).

Record wf (j : t) : Prop := {
  wf_id : len (withdrawal_id j) = 32;
  wf_recipient : len (recipient_hash160 j) = 20;
  wf_payout : is_u64 (payout_sats j);
  wf_checkpoint : len (checkpoint_hash j) = 32;
  wf_conf : is_u32 (confirmations j);
  wf_limit : is_u32 (pow_limit_bits j);
  wf_work : len (proven_work j) = 32;
  wf_chain : is_u32 (chain_id j)
}.
End WithdrawalJournal.
#[export] Instance WithdrawalJournal_eq_dec : EqDecision WithdrawalJournal.t.
Proof. solve_decision. Defined.

(** ** Slices of written buffers *)

Section blit.
Context {A : Type}.
Implicit Types l s : list A.

Lemma len_blit l off s : 0 ≤ off → off + len s ≤ len l → len (blit l off s) = len l.
Proof.
  intros H0 Hl. unfold blit. rewrite !len_app. unfold len in *.
  rewrite length_take, length_drop. lia.
Qed.

Lemma slice_blit_same l off s a b :
  0 ≤ off → off + len s ≤ len l → a = off → b = off + len s → slice (blit l off s) a b = s.
Proof.
  intros H0 Hl -> ->. unfold blit.
  assert (len (take (Z.to_nat off) l) = off) as Ht.
  { unfold len in *. rewrite length_take. lia. }
  apply slice_middle; lia.
Qed.

Lemma slice_blit_before l off s a b :
  0 ≤ a → b ≤ off → off + len s ≤ len l → slice (blit l off s) a b = slice l a b.
Proof.
  intros Ha Hb Hl. unfold blit.
  assert (len (take (Z.to_nat off) l) = Z.max 0 off) as Ht.
  { unfold len in *. rewrite length_take. lia. }
  rewrite slice_app_l by lia. unfold slice.
  rewrite skipn_firstn_comm, firstn_firstn. f_equal. lia.
Qed.

Lemma slice_blit_after l off s a b :
  0 ≤ off → off + len s ≤ a → off + len s ≤ len l → slice (blit l off s) a b = slice l a b.
Proof.
  intros H0 Ha Hl. unfold blit.
  assert (len (take (Z.to_nat off) l) = off) as Ht.
  { unfold len in *. rewrite length_take. lia. }
  pose proof (len_nonneg s). rewrite slice_app_r by lia. rewrite slice_app_r by lia. rewrite Ht.
  unfold slice. rewrite drop_drop. f_equal; [lia|]. f_equal. lia.
Qed.

(** Two lists are equal when their segments between cuts are. *)
Fixpoint eq_segments (l k : list A) (a : Z) (cuts : list Z) : Prop :=
  match cuts with
  | [] => len l = a ∧ len k = a
  | b :: cuts => a ≤ b ∧ slice l a b = slice k a b ∧ eq_segments l k b cuts
  end.

Lemma slice_cut l a b : 0 ≤ a ≤ b → drop (Z.to_nat a) l = slice l a b ++ drop (Z.to_nat b) l.
Proof.
  intros. unfold slice. rewrite <-(take_drop (Z.to_nat (b - a)) (drop (Z.to_nat a) l)) at 1.
  rewrite drop_drop. do 2 f_equal. lia.
Qed.

Lemma eq_segments_eq l k cuts : eq_segments l k 0 cuts → l = k.
Proof.
  assert (∀ a, 0 ≤ a → eq_segments l k a cuts → drop (Z.to_nat a) l = drop (Z.to_nat a) k) as H.
  { induction cuts as [|b cuts IH]; intros a Ha; cbn [eq_segments].
    - intros [Hl Hk]. unfold len in *. by rewrite !drop_ge by lia.
    - intros (Hab & Hs & Hr). rewrite (slice_cut l a b), (slice_cut k a b) by lia.
      rewrite Hs. f_equal. apply IH; [lia|done]. }
  intros Hs%H; [|lia]. by change (Z.to_nat 0) with 0%nat in Hs; rewrite !drop_0 in Hs.
Qed.
End blit.

Lemma slice_zeros n a b : 0 ≤ a ≤ b → b ≤ Z.of_nat n → slice (replicate n x00) a b = replicate (Z.to_nat (b - a)) x00.
Proof.
  intros. unfold slice. rewrite drop_replicate, take_replicate. f_equal. lia.
Qed.

Lemma len_replicate {A} n (x : A) : len (replicate n x) = Z.of_nat n.
Proof. unfold len. by rewrite length_replicate. Qed.

(** [name_writes n] names the buffers of a chain of writes over a buffer of [n]
    bytes, with their lengths; [read_writes] then reads a slice of the last. *)
Ltac name_writes n :=
  repeat match goal with
  | |- context [blit ?d ?o ?s] =>
      is_var d;
      let d' := fresh "d" in let E := fresh "Ewrite" in
      remember (blit d o s) as d' eqn:E;
      assert (len d' = n) by (rewrite E, len_blit; rewrite ?len_be_bytes; lia)
  end.
Ltac read_writes :=
  repeat match goal with
  | E : ?d = blit _ _ _ |- slice ?d _ _ = _ =>
      rewrite E;
      first [ rewrite slice_blit_same by (rewrite ?len_be_bytes; lia)
            | rewrite slice_blit_before by (rewrite ?len_be_bytes; lia)
            | rewrite slice_blit_after by (rewrite ?len_be_bytes; lia) ]
  end.

Section journal.
Import Journal.
Context (j : t) (Hwf : wf j).

Lemma journal_slices :
  let d := abi_encode j in
  len d = 352 ∧
  slice d 0 32 = deposit_block_hash j ∧ slice d 32 64 = deposit_txid j ∧
  slice d 64 88 = replicate 24 x00 ∧
  slice d 88 96 = be_bytes 8 (amount_sats j) ∧ slice d 96 108 = replicate 12 x00 ∧
  slice d 108 128 = recipient j ∧ slice d 128 156 = replicate 28 x00 ∧
  slice d 156 160 = be_bytes 4 (confirmations j) ∧ slice d 160 192 = checkpoint_hash j ∧
  slice d 192 220 = replicate 28 x00 ∧ slice d 220 224 = be_bytes 4 (pow_limit_bits j) ∧
  slice d 224 256 = proven_work j ∧ slice d 256 276 = custody_hash160 j ∧
  slice d 276 312 = replicate 36 x00 ∧ slice d 312 320 = be_bytes 8 (custody_epoch j) ∧
  slice d 320 348 = replicate 28 x00 ∧ slice d 348 352 = be_bytes 4 (chain_id j).
Proof.
  destruct Hwf. cbv zeta. unfold abi_encode.
  assert (len (replicate 352 x00) = 352) as H0 by apply len_replicate.
  assert (∀ a b, 0 ≤ a ≤ b → b ≤ 352 →
    slice (replicate 352 x00) a b = replicate (Z.to_nat (b - a)) x00) as Hz
    by (intros; by apply slice_zeros).
  remember (replicate 352 x00) as d0 eqn:E0. clear E0. name_writes 352.
  split; [done|]. split_and!; read_writes; done || (rewrite Hz by lia; done).
Qed.
End journal.

(** ** Words of the withdrawal journal *)

Lemma word_from_be_eq n z : (n ≤ 32)%nat → word_from_be (be_bytes n z) = replicate (32 - n) x00 ++ be_bytes n z.
Proof.
  intros Hn. unfold word_from_be, blit. rewrite len_be_bytes, take_replicate, drop_replicate.
  replace (Z.to_nat (32 - Z.of_nat n + Z.of_nat n)) with 32%nat by lia.
  rewrite Nat.sub_diag. cbn [replicate]. rewrite app_nil_r. do 2 f_equal. lia.
Qed.

Lemma slice_whole {A} (l : list A) a b : a = 0 → b = len l → slice l a b = l.
Proof. intros -> ->. apply slice_all. Qed.

Section withdrawal.
Import WithdrawalJournal.
Context (j : t) (Hwf : wf j).

Lemma withdrawal_slices :
  let d := abi_encode j in
  len d = 256 ∧
  slice d 0 32 = withdrawal_id j ∧ slice d 32 52 = recipient_hash160 j ∧
  slice d 52 88 = replicate 36 x00 ∧ slice d 88 96 = be_bytes 8 (payout_sats j) ∧
  slice d 96 128 = checkpoint_hash j ∧ slice d 128 156 = replicate 28 x00 ∧
  slice d 156 160 = be_bytes 4 (confirmations j) ∧ slice d 160 188 = replicate 28 x00 ∧
  slice d 188 192 = be_bytes 4 (pow_limit_bits j) ∧ slice d 192 224 = proven_work j ∧
  slice d 224 252 = replicate 28 x00 ∧ slice d 252 256 = be_bytes 4 (chain_id j).
Proof.
  destruct Hwf. cbv zeta.
  set (z12 := replicate 12 x00). set (z24 := replicate 24 x00). set (z28 := replicate 28 x00).
  assert (len z12 = 12 ∧ len z24 = 24 ∧ len z28 = 28) as (L12 & L24 & L28) by done.
  assert (replicate 36 x00 = z12 ++ z24) as -> by done.
  assert (abi_encode j = withdrawal_id j ++ recipient_hash160 j ++ z12 ++ z24 ++
    be_bytes 8 (payout_sats j) ++ checkpoint_hash j ++ z28 ++ be_bytes 4 (confirmations j) ++
    z28 ++ be_bytes 4 (pow_limit_bits j) ++ proven_work j ++ z28 ++ be_bytes 4 (chain_id j)) as ->.
  { unfold abi_encode. rewrite !word_from_be_eq by lia. by rewrite <-!app_assoc. }
  clearbody z12 z24 z28.
  assert (∀ n z, len (be_bytes n z) = Z.of_nat n) as Lb by apply len_be_bytes.
  pose proof (Lb 8%nat (payout_sats j)). pose proof (Lb 4%nat (confirmations j)).
  pose proof (Lb 4%nat (pow_limit_bits j)). pose proof (Lb 4%nat (chain_id j)). clear Lb.
  generalize dependent (be_bytes 8 (payout_sats j)). intros b1 Hb1.
  generalize dependent (be_bytes 4 (confirmations j)). intros b2 Hb2.
  generalize dependent (be_bytes 4 (pow_limit_bits j)). intros b3 Hb3.
  generalize dependent (be_bytes 4 (chain_id j)). intros b4 Hb4.
  split; [rewrite !len_app; lia|].
  split_and!;
    repeat first
      [ rewrite slice_whole by (rewrite ?len_app; lia); reflexivity
      | rewrite (app_assoc z12 z24), slice_app_l by (rewrite ?len_app; lia)
      | rewrite slice_app_l by (rewrite ?len_app; lia)
      | rewrite slice_app_r by lia ].
Qed.
End withdrawal.

(** ** Round trips *)

Lemma be_num_slice_u32 (d : bytes) a b : 0 ≤ a → b = a + 4 → b ≤ len d → is_u32 (be_num (slice d a b)).
Proof.
  intros Ha -> Hl. pose proof (be_num_range (slice d a (a + 4))) as Hr. unfold len in Hr.
  rewrite length_slice in Hr by lia. unfold is_u32, u32_max.
  replace (Z.to_nat (a + 4 - a)) with 4%nat in Hr by lia. change (256 ^ Z.of_nat 4) with (2 ^ 32) in Hr. lia.
Qed.

Lemma be_num_slice_u64 (d : bytes) a b : 0 ≤ a → b = a + 8 → b ≤ len d → is_u64 (be_num (slice d a b)).
Proof.
  intros Ha -> Hl. pose proof (be_num_range (slice d a (a + 8))) as Hr. unfold len in Hr.
  rewrite length_slice in Hr by lia. unfold is_u64, u64_max.
  replace (Z.to_nat (a + 8 - a)) with 8%nat in Hr by lia. change (256 ^ Z.of_nat 8) with (2 ^ 64) in Hr. lia.
Qed.

Lemma be_bytes_slice (d : bytes) n a b :
  0 ≤ a → b = a + Z.of_nat n → b ≤ len d → be_bytes n (be_num (slice d a b)) = slice d a b.
Proof.
  intros Ha -> Hl. rewrite <-(be_bytes_num (slice d a (a + Z.of_nat n))) at 2. f_equal.
  rewrite length_slice by lia. lia.
Qed.

Lemma len_slice' (d : bytes) a b : 0 ≤ a ≤ b → b ≤ len d → len (slice d a b) = b - a.
Proof. intros. unfold len. rewrite length_slice; lia. Qed.

Section journal_roundtrip.
Import Journal.

Lemma journal_decode_encode j : wf j → abi_decode (abi_encode j) = Ok j.
Proof.
  intros Hwf. destruct (journal_slices j Hwf) as
    (Hl & S1 & S2 & _ & S3 & _ & S4 & _ & S5 & S6 & _ & S7 & S8 & S9 & _ & S10 & _ & S11).
  unfold abi_decode. cbv zeta. change (160 + 32) with 192. change (224 + 32) with 256.
  rewrite Hl, S1, S2, S3, S4, S5, S6, S7, S8, S9, S10, S11. destruct Hwf.
  rewrite !be_num_u64, !be_num_u32 by done. by destruct j.
Qed.

Lemma journal_decode_wf d j : abi_decode d = Ok j → wf j ∧ len d = 352.
Proof.
  unfold abi_decode. destruct (len d =? 352) eqn:E; reflect_bools; cbn [negb]; [|done].
  intros [= <-]. split; [|done].
  split; cbn [deposit_block_hash deposit_txid amount_sats recipient confirmations checkpoint_hash
              pow_limit_bits proven_work custody_hash160 custody_epoch chain_id];
    first [rewrite len_slice'; lia|apply be_num_slice_u64; lia|apply be_num_slice_u32; lia].
Qed.

Definition zero_padded (d : bytes) : Prop :=
  slice d 64 88 = replicate 24 x00 ∧ slice d 96 108 = replicate 12 x00 ∧
  slice d 128 156 = replicate 28 x00 ∧ slice d 192 220 = replicate 28 x00 ∧
  slice d 276 312 = replicate 36 x00 ∧ slice d 320 348 = replicate 28 x00.

Lemma journal_canonical d j : abi_decode d = Ok j → abi_encode j = d ↔ zero_padded d.
Proof.
  intros Hd. destruct (journal_decode_wf d j Hd) as [Hwf Hl].
  destruct (journal_slices j Hwf) as
    (Hle & S1 & S2 & P1 & S3 & P2 & S4 & P3 & S5 & S6 & P4 & S7 & S8 & S9 & P5 & S10 & P6 & S11).
  unfold zero_padded. split; [by intros <-|]. intros (Q1 & Q2 & Q3 & Q4 & Q5 & Q6).
  unfold abi_decode in Hd. rewrite Hl in Hd. injection Hd as <-.
  cbn [deposit_block_hash deposit_txid amount_sats recipient confirmations checkpoint_hash
       pow_limit_bits proven_work custody_hash160 custody_epoch chain_id] in *.
  change (160 + 32) with 192 in *. change (224 + 32) with 256 in *.
  rewrite (be_bytes_slice d 8) in S3, S10 by lia.
  rewrite (be_bytes_slice d 4) in S5, S7, S11 by lia.
  apply (eq_segments_eq _ _ [32; 64; 88; 96; 108; 128; 156; 160; 192; 220; 224; 256; 276; 312; 320; 348; 352]).
  cbn [eq_segments]. split_and!; try lia; congruence.
Qed.
End journal_roundtrip.

Section withdrawal_roundtrip.
Import WithdrawalJournal.

Lemma withdrawal_decode_encode j : wf j → abi_decode (abi_encode j) = Ok j.
Proof.
  intros Hwf. destruct (withdrawal_slices j Hwf) as
    (Hl & S1 & S2 & _ & S3 & S4 & _ & S5 & _ & S6 & S7 & _ & S8).
  unfold abi_decode. cbv zeta. change (0 + 32) with 32. change (96 + 32) with 128.
  change (192 + 32) with 224. rewrite Hl, S1, S2, S3, S4, S5, S6, S7, S8. destruct Hwf.
  rewrite !be_num_u64, !be_num_u32 by done. by destruct j.
Qed.

Lemma withdrawal_decode_wf d j : abi_decode d = Ok j → wf j ∧ len d = 256.
Proof.
  unfold abi_decode. destruct (len d =? 256) eqn:E; reflect_bools; cbn [negb]; [|done].
  intros [= <-]. split; [|done].
  split; cbn [withdrawal_id recipient_hash160 payout_sats checkpoint_hash confirmations
              pow_limit_bits proven_work chain_id];
    first [rewrite len_slice'; lia|apply be_num_slice_u64; lia|apply be_num_slice_u32; lia].
Qed.

Definition wzero_padded (d : bytes) : Prop :=
  slice d 52 88 = replicate 36 x00 ∧ slice d 128 156 = replicate 28 x00 ∧
  slice d 160 188 = replicate 28 x00 ∧ slice d 224 252 = replicate 28 x00.

Lemma withdrawal_canonical d j : abi_decode d = Ok j → abi_encode j = d ↔ wzero_padded d.
Proof.
  intros Hd. destruct (withdrawal_decode_wf d j Hd) as [Hwf Hl].
  destruct (withdrawal_slices j Hwf) as
    (Hle & S1 & S2 & P1 & S3 & S4 & P2 & S5 & P3 & S6 & S7 & P4 & S8).
  unfold wzero_padded. split; [by intros <-|]. intros (Q1 & Q2 & Q3 & Q4).
  unfold abi_decode in Hd. rewrite Hl in Hd. injection Hd as <-.
  cbn [withdrawal_id recipient_hash160 payout_sats checkpoint_hash confirmations
       pow_limit_bits proven_work chain_id] in *.
  change (0 + 32) with 32 in *. change (96 + 32) with 128 in *. change (192 + 32) with 224 in *.
  rewrite (be_bytes_slice d 8) in S3 by lia.
  rewrite (be_bytes_slice d 4) in S5, S6, S8 by lia.
  apply (eq_segments_eq _ _ [32; 52; 88; 96; 128; 156; 160; 188; 192; 224; 252; 256]).
  cbn [eq_segments]. split_and!; try lia; congruence.
Qed.
End withdrawal_roundtrip.

(** ** Properties *)

(** The peg-in journal.  A journal of well-typed fields encodes to 352 bytes
    (eleven words) and decodes back to itself; a buffer decodes exactly when it
    is 352 bytes long, always to a well-typed journal, and it is that journal's
    encoding exactly when its padding bytes are zero. *)
Theorem journal_abi_roundtrip (j : Journal.t) (Hwf : Journal.wf j) :
  len (Journal.abi_encode j) = 352 ∧
  Journal.abi_decode (Journal.abi_encode j) = Ok j ∧
  (∀ d, (∃ j', Journal.abi_decode d = Ok j') ↔ len d = 352) ∧
  (∀ d j', Journal.abi_decode d = Ok j' →
     Journal.wf j' ∧ (Journal.abi_encode j' = d ↔ zero_padded d)).
Proof.
  split_and!.
  - by destruct (journal_slices j Hwf).
  - by apply journal_decode_encode.
  - intros d. split; [by intros [j' [_ H]%journal_decode_wf]|]. intros Hl.
    unfold Journal.abi_decode. rewrite Hl. eauto.
  - intros d j' Hd. split; [by eapply journal_decode_wf|by apply journal_canonical].
Qed.

Definition sample_journal : Journal.t :=
  Journal.mk (replicate 32 x01) (replicate 32 x02) 1000000 (replicate 20 x03) 6
    (replicate 32 x04) CHAIN_POW_LIMIT_BITS (be_bytes 32 123456789) (replicate 20 x05) 3 8224.

Lemma journal_abi_roundtrip_witness :
  Journal.wf sample_journal ∧
  Journal.abi_decode (Journal.abi_encode sample_journal) = Ok sample_journal.
Proof.
  assert (Journal.wf sample_journal) as Hwf.
  { split; first [reflexivity|vm_compute; split; discriminate]. }
  split; [exact Hwf|]. exact (proj1 (proj2 (journal_abi_roundtrip sample_journal Hwf))).
Defined.

(** The peg-out journal.  The same of [WithdrawalJournal], whose encoding is
    256 bytes (eight words), its [bytes20] recipient left-aligned. *)
Theorem withdrawal_abi_roundtrip (j : WithdrawalJournal.t) (Hwf : WithdrawalJournal.wf j) :
  len (WithdrawalJournal.abi_encode j) = 256 ∧
  WithdrawalJournal.abi_decode (WithdrawalJournal.abi_encode j) = Ok j ∧
  (∀ d, (∃ j', WithdrawalJournal.abi_decode d = Ok j') ↔ len d = 256) ∧
  (∀ d j', WithdrawalJournal.abi_decode d = Ok j' →
     WithdrawalJournal.wf j' ∧ (WithdrawalJournal.abi_encode j' = d ↔ wzero_padded d)).
Proof.
  split_and!.
  - by destruct (withdrawal_slices j Hwf).
  - by apply withdrawal_decode_encode.
  - intros d. split; [by intros [j' [_ H]%withdrawal_decode_wf]|]. intros Hl.
    unfold WithdrawalJournal.abi_decode. rewrite Hl. eauto.
  - intros d j' Hd. split; [by eapply withdrawal_decode_wf|by apply withdrawal_canonical].
Qed.

Definition sample_withdrawal : WithdrawalJournal.t :=
  WithdrawalJournal.mk (replicate 32 x01) (replicate 20 x02) 777 (replicate 32 x04) 6
    CHAIN_POW_LIMIT_BITS (be_bytes 32 99) 8224.

Lemma withdrawal_abi_roundtrip_witness :
  WithdrawalJournal.wf sample_withdrawal ∧
  WithdrawalJournal.abi_decode (WithdrawalJournal.abi_encode sample_withdrawal) = Ok sample_withdrawal.
Proof.
  assert (WithdrawalJournal.wf sample_withdrawal) as Hwf.
  { split; first [reflexivity|vm_compute; split; discriminate]. }
  split; [exact Hwf|]. exact (proj1 (proj2 (withdrawal_abi_roundtrip sample_withdrawal Hwf))).
Defined.
