(* ===== verification/Text.v ===== *)
(** * Decimal text

    What the program relies on when it prints numbers and reads them back:
    [u64::to_string] is stdpp's [pretty] on non-negative integers,
    [str::parse::<u64>] is [parse_u64], and [format!] is concatenation.  The
    lemmas: the round trip, and that a delimiter which cannot occur in a field
    separates it unambiguously. *)

From stdpp Require Export strings pretty.
From Stdlib Require Export Ascii.
From S2P Require Export Bytes.

#[local] Open Scope Z_scope.

(** ** Parsing *)

Definition digit_value (c : ascii) : option Z :=
  let n := Z.of_N (N_of_ascii c) in
  if (48 <=? n) && (n <=? 57) then Some (n - 48) else None.

Fixpoint parse_digits (acc : Z) (s : string) : option Z :=
  match s with
  | EmptyString => Some acc
  | String c s => d ← digit_value c; parse_digits (acc * 10 + d) s
  end.

(** [s.parse::<u64>().ok()] for the maximum [u64_max], [u32] likewise: an optional
    sign, at least one digit, no overflow. *)
Definition parse_uint (max : Z) (s : string) : option Z :=
  let t := match s with String c t => if decide (c = "+"%char) then t else s | _ => s end in
  match t with
  | EmptyString => None
  | _ => v ← parse_digits 0 t; if v <=? max then Some v else None
  end.
Definition parse_u64 : string → option Z := parse_uint u64_max.
Definition parse_u32 : string → option Z := parse_uint u32_max.

(** ** Characters of printed numbers *)

Fixpoint all_chars (P : ascii → Prop) (s : string) : Prop :=
  match s with EmptyString => True | String c s => P c ∧ all_chars P s end.

Definition is_digit (c : ascii) : Prop := is_Some (digit_value c).

Lemma all_chars_impl (P Q : ascii → Prop) s :
  (∀ c, P c → Q c) → all_chars P s → all_chars Q s.
Proof. intros HPQ. induction s; cbn; [done|]. intros [? ?]; auto. Qed.

Lemma pretty_N_char_digit n :
  (n < 10)%N → digit_value (pretty_N_char n) = Some (Z.of_N n).
Proof.
  intros Hn. assert (n = 0 ∨ n = 1 ∨ n = 2 ∨ n = 3 ∨ n = 4 ∨ n = 5 ∨ n = 6 ∨ n = 7 ∨ n = 8 ∨ n = 9)%N
    as Hc by lia. by destruct Hc as [->|[->|[->|[->|[->|[->|[->|[->|[->| ->]]]]]]]]].
Qed.

Lemma pretty_go_digits x s : all_chars is_digit s → all_chars is_digit (pretty_N_go x s).
Proof.
  revert s. induction (N.lt_wf_0 x) as [x _ IH]; intros s Hs.
  destruct (decide (x = 0)%N) as [->|Hx]; [by rewrite pretty_N_go_0|].
  rewrite pretty_N_go_step by lia. apply IH; [by apply N.div_lt; lia|]. split; [|done].
  eexists. by apply pretty_N_char_digit, N.mod_lt.
Qed.

Lemma parse_pretty_go x s acc :
  ∃ k, parse_digits acc (pretty_N_go x s) = parse_digits (acc * 10 ^ Z.of_nat k + Z.of_N x) s.
Proof.
  revert s acc. induction (N.lt_wf_0 x) as [x _ IH]; intros s acc.
  destruct (decide (x = 0)%N) as [->|Hx].
  { exists 0%nat. rewrite pretty_N_go_0. change (10 ^ Z.of_nat 0) with 1. f_equal. lia. }
  rewrite pretty_N_go_step by lia.
  destruct (IH (x / 10)%N ltac:(apply N.div_lt; lia)
              (String (pretty_N_char (x mod 10)) s) acc) as [k Hk].
  exists (S k). rewrite Hk. cbn [parse_digits].
  rewrite pretty_N_char_digit by (by apply N.mod_lt). cbn [mbind option_bind]. f_equal.
  rewrite Nat2Z.inj_succ, Z.pow_succ_r by lia.
  rewrite N2Z.inj_div, N2Z.inj_mod by done.
  pose proof (Z.div_mod (Z.of_N x) 10 ltac:(lia)). change (Z.of_N 10) with 10. lia.
Qed.

Lemma pretty_Z_nonneg n : 0 ≤ n → pretty n = pretty (Z.to_N n).
Proof. intros. destruct n; [done|done|lia]. Qed.

Lemma pretty_digits (n : Z) : 0 ≤ n → all_chars is_digit (pretty n) ∧ pretty n ≠ EmptyString.
Proof.
  intros Hn. rewrite pretty_Z_nonneg by done. unfold pretty, pretty_N.
  destruct (decide (Z.to_N n = 0)%N) as [|Hx]; [split; [split; [by eexists|done]|done]|].
  split; [by apply pretty_go_digits|]. intros He.
  destruct (parse_pretty_go (Z.to_N n) "" 0) as [k Hk]. rewrite He in Hk.
  cbn in Hk. injection Hk as Hk. lia.
Qed.

(** [v.to_string().parse() == Ok(v)]. *)
Lemma parse_pretty max n : 0 ≤ n ≤ max → parse_uint max (pretty n) = Some n.
Proof.
  intros Hn. destruct (pretty_digits n) as [Hd He]; [lia|].
  assert (parse_digits 0 (pretty n) = Some n) as Hp.
  { rewrite pretty_Z_nonneg by lia. unfold pretty, pretty_N.
    destruct (decide (Z.to_N n = 0)%N) as [He0|Hx]; [by assert (n = 0) as -> by lia|].
    destruct (parse_pretty_go (Z.to_N n) "" 0) as [k ->]. cbn [parse_digits]. f_equal. lia. }
  unfold parse_uint. destruct (pretty n) as [|c s]; [done|].
  destruct Hd as [[d Hd] _]. rewrite decide_False by (by intros ->).
  rewrite Hp. cbn. destruct (n <=? max) eqn:E; reflect_bools; [done|lia].
Qed.

Lemma parse_uint_range max s n : 0 ≤ max → parse_uint max s = Some n → 0 ≤ n ≤ max.
Proof.
  intros Hmax. unfold parse_uint.
  assert (∀ t acc v, 0 ≤ acc → parse_digits acc t = Some v → 0 ≤ v) as Hpos.
  { induction t as [|c t IH]; intros acc v Hacc; cbn [parse_digits]; [by intros [= <-]|].
    unfold digit_value. destruct (_ && _) eqn:E; [|done]. cbn [mbind option_bind].
    reflect_bools. intros H1%IH; lia. }
  set (t := match s with EmptyString => s | _ => _ end). destruct t as [|c t']; [done|].
  intros (v & Hv%Hpos & Hle)%bind_Some; [|lia].
  destruct (v <=? max) eqn:E; reflect_bools; [|done]. injection Hle as <-. lia.
Qed.

(** ** Delimited fields *)

Lemma split_unique (c : ascii) (s1 s2 r1 r2 : string) :
  all_chars (.≠ c) s1 → all_chars (.≠ c) s2 →
  s1 +:+ String c r1 = s2 +:+ String c r2 → s1 = s2 ∧ r1 = r2.
Proof.
  revert s2. induction s1 as [|a s1 IH]; intros [|b s2] H1 H2; cbn in *.
  - by intros [= ->].
  - intros [= <- _]. by destruct H2.
  - intros [= -> _]. by destruct H1.
  - intros [= -> Hr]. destruct (IH s2) as [-> ->]; [tauto|tauto|done|done].
Qed.

Lemma digits_no (c : ascii) n : ¬ is_digit c → 0 ≤ n → all_chars (.≠ c) (pretty n).
Proof.
  intros Hc Hn. eapply all_chars_impl; [|by apply pretty_digits]. by intros a Ha ->.
Qed.

(** A printed number followed by a non-digit. *)
Lemma number_unique (c : ascii) (n m : Z) (r1 r2 : string) :
  ¬ is_digit c → 0 ≤ n → 0 ≤ m →
  pretty n +:+ String c r1 = pretty m +:+ String c r2 → n = m ∧ r1 = r2.
Proof.
  intros Hc Hn Hm Heq. apply split_unique in Heq as [Hp ->]; [|by apply digits_no..].
  split; [|done]. by apply (inj pretty).
Qed.

Lemma string_app_assoc (a b c : string) : a +:+ (b +:+ c) = (a +:+ b) +:+ c.
Proof. induction a as [|x a IH]; [done|].
  change (String x (a +:+ (b +:+ c)) = String x ((a +:+ b) +:+ c)). by rewrite IH.
Qed.

Lemma string_app_inj_l (a b c : string) : a +:+ b = a +:+ c → b = c.
Proof. induction a as [|x a IH]; cbn; [done|]. intros [= H]. auto. Qed.
