(* ===== verification/Verify.v ===== *)
(** * Light verification

    [src/verify.rs]: the per-step checks ([check_header_format], [verify_proof1],
    [verify_proof2]), the detailed report ([verify_aux_header], [verify_header],
    [verify_auxpow_wire], [verify_wire_block]) and the ingestor's fast path
    [light_verify].  The theorems: both paths accept exactly the blocks that
    satisfy the header rules and the merged-mining commitment, hence agree with
    each other and with the guest's [verify_psob_chain].

    [hex::encode] is a parameter (class [HexCodec]). *)

From S2P Require Export CauxPow.

#[local] Open Scope Z_scope.

(** ** Text *)

(** The [hex] crate. *)
Class HexCodec := {
  hex_encode : bytes → string;
  hex_decode : string → Result string bytes;
  hex_decode_encode : ∀ b, hex_decode (hex_encode b) = Ok b
}.

(** One lower-case hexadecimal digit, and [{:08x}] of a [u32]. *)
Definition hex_digit (n : Z) : Ascii.ascii :=
  Ascii.ascii_of_N (Z.to_N (if n <? 10 then 48 + n else 87 + n)).
Definition fmt_08x (n : Z) : string :=
  foldr (λ i s, String (hex_digit (Z.land (Z.shiftr n (4 * i)) 15)) s) EmptyString
    [7; 6; 5; 4; 3; 2; 1; 0].

(** [{:?}] of an [Option<u32>]. *)
Definition fmt_option (o : option Z) : string :=
  match o with Some p => "Some(" +:+ pretty p +:+ ")" | None => "None" end.

(** ** Data *)

Record StepResult := mkStep { step_ok : bool; step_error : option string }.

Definition StepResult_ok : StepResult := mkStep true None.
Definition StepResult_err (msg : string) : StepResult := mkStep false (Some msg).

Record Proof2Outcome := mkProof2 {
  p2_proof2 : StepResult;
  p2_anti_grind : StepResult;
  p2_committed : option bytes;
  p2_n_size : Z;
  p2_nonce : Z
}.

Record VerificationReport := mkReport {
  valid : bool;
  report_chain_id : Z;
  block_hash : string;
  parent_hash : string;
  report_parent_chain_id : option Z;
  header_format : StepResult;
  proof1_coinbase_to_parent_root : StepResult;
  proof2_aux_to_chain_root : StepResult;
  anti_grind_lcg_slot : StepResult;
  chain_root_hex : string;
  coinbase_root_hex : string;
  chain_branch_depth : Z;
  report_chain_index : Z;
  n_size : Z;
  nonce : Z;
  fatal_error : option string
}.

Record AuxBlock := mkAuxBlock { ab_base : bytes; ab_aux : AuxPow; ab_wire : bytes }.

(** ** Operations *)

Definition failed (chain_id : Z) (fatal : string) : VerificationReport :=
  let skipped := StepResult_err "skipped: fatal parse error" in
  mkReport false chain_id "" "" None (StepResult_err fatal) skipped skipped skipped "" "" 0 0 0 0
    (Some fatal).

Definition check_header_format (base : bytes) (chain_id pow_limit_bits : Z) : StepResult :=
  if negb (len base =? 80)
  then StepResult_err ("header must be 80 bytes, got " +:+ pretty (len base)) else
  let version := le_num (slice base 0 4) in
  let got_chain := Z.shiftr version 16 in
  if negb (got_chain =? chain_id)
  then StepResult_err ("chain id " +:+ pretty got_chain +:+ " != expected " +:+ pretty chain_id) else
  let bits := le_num (slice base 72 76) in
  match expand_target bits with
  | None => StepResult_err ("invalid nBits 0x" +:+ fmt_08x bits +:+ " (cannot decode)")
  | Some target =>
      match expand_target pow_limit_bits with
      | None => StepResult_err ("invalid powLimitBits 0x" +:+ fmt_08x pow_limit_bits)
      | Some pow_limit =>
          if negb (target_leq target pow_limit)
          then StepResult_err ("target easier than powLimit (nBits 0x" +:+ fmt_08x bits +:+ ")")
          else StepResult_ok
      end
  end.

Definition hash_display `{HexCodec} (le : bytes) : string := hex_encode (rev le).

Section checks.
Context `{Sha256} `{HexCodec}.

Definition verify_proof1 (a : AuxPow) (chain_id : Z) : StepResult :=
  if negb (parent_index a =? 0)
  then StepResult_err ("coinbase must be at parent index 0, got " +:+ pretty (parent_index a)) else
  if negb (match parent_chain_id a with Some pid => negb (pid =? chain_id) | None => false end)
  then
    let pid := match parent_chain_id a with Some p => pretty p | None => "unparseable"%string end in
    StepResult_err ("parent chain id " +:+ pid +:+ " equals aux chain id — self-merge rejected")
  else
  if negb (bool_decide (parent_chain_id a = Some LTC_CHAIN_ID))
  then StepResult_err ("parent chain id " +:+ fmt_option (parent_chain_id a)
                       +:+ " is not Litecoin mainnet (8192)") else
  match parent_merkle_root a with
  | None => StepResult_err "parent header too short for merkle root"
  | Some parent_root =>
      let cb_txid := sha256d (coinbase_tx a) in
      let folded := merkle_fold_branch cb_txid (parent_merkle_branch a) (parent_index a) in
      if negb (bool_decide (folded = parent_root))
      then StepResult_err "coinbase txid does not fold to the parent block's merkle root"
      else StepResult_ok
  end.

Definition verify_proof2 (aux_block_hash : bytes) (a : AuxPow) (chain_id : Z) : Proof2Outcome :=
  let depth := len (chain_merkle_branch a) in
  if 30 <? depth then
    mkProof2 (StepResult_err ("merkle branch depth " +:+ pretty depth +:+ " exceeds maximum (30)"))
      (StepResult_err "skipped: merkle branch depth exceeds maximum (30)") None 0 0
  else
  let chain_root := merkle_fold_branch aux_block_hash (chain_merkle_branch a) (chain_index a) in
  let root_reversed := rev chain_root in
  let cb := coinbase_tx a in
  match find_subslice cb AUXPOW_MAGIC with
  | None =>
      mkProof2 (StepResult_err "merged-mining magic fabe6d6d not found in coinbase")
        (StepResult_err "skipped: coinbase has no AuxPoW commitment") None 0 0
  | Some magic_at =>
      match find_subslice (drop (magic_at + 1) cb) AUXPOW_MAGIC with
      | Some _ =>
          mkProof2 (StepResult_err "more than one merged-mining magic in the coinbase")
            (StepResult_err "ambiguous AuxPoW commitment") None 0 0
      | None =>
          let root_pos := Z.of_nat magic_at + len AUXPOW_MAGIC in
          match get_range cb root_pos (root_pos + 40) with
          | None =>
              mkProof2 (StepResult_err "truncated AuxPoW commitment after magic")
                (StepResult_err "skipped") None 0 0
          | Some tail =>
              let committed := slice tail 0 32 in
              let n_size := le_num (slice tail 32 36) in
              let nonce := le_num (slice tail 36 40) in
              if negb (bool_decide (committed = root_reversed)) then
                mkProof2 (StepResult_err "computed chain root ≠ root committed in parent coinbase")
                  (StepResult_err "skipped") None n_size nonce
              else
              let grill :=
                if negb (n_size =? u32_shl 1 depth)
                then StepResult_err ("anti-grind size " +:+ pretty n_size +:+ " != 2^" +:+ pretty depth)
                else if negb (chain_index a =? get_expected_index nonce chain_id depth)
                then StepResult_err ("chain index " +:+ pretty (chain_index a)
                       +:+ " violates LCG slot (nonce " +:+ pretty nonce +:+ ", chain_id "
                       +:+ pretty chain_id +:+ ", depth " +:+ pretty depth +:+ ")")
                else StepResult_ok in
              mkProof2 StepResult_ok grill (Some committed) n_size nonce
          end
      end
  end.

Definition verify_aux_header (base : bytes) (a : AuxPow) (chain_id pow_limit_bits : Z) :
    VerificationReport :=
  let fmt := check_header_format base chain_id pow_limit_bits in
  let depth := len (chain_merkle_branch a) in
  if negb (step_ok fmt) then
    mkReport false chain_id "" "" None fmt StepResult_ok StepResult_ok StepResult_ok "" ""
      depth (chain_index a) 0 0 None
  else
  let bh := sha256d base in
  let proof1 := verify_proof1 a chain_id in
  let out := verify_proof2 bh a chain_id in
  let root_hex := match p2_committed out with
                  | Some committed => hex_encode (rev committed) | None => ""%string end in
  mkReport
    (step_ok fmt && step_ok proof1 && step_ok (p2_proof2 out) && step_ok (p2_anti_grind out))
    chain_id (hash_display bh) (hash_display (sha256d (parent_header a))) (parent_chain_id a)
    fmt proof1 (p2_proof2 out) (p2_anti_grind out) root_hex root_hex
    depth (chain_index a) (p2_n_size out) (p2_nonce out) None.

Definition verify_auxpow_wire (wire : bytes) (chain_id pow_limit_bits : Z) :
    AuxPowParseResult VerificationReport :=
  '(base, a) ← parse_auxpow wire;
  Ok (verify_aux_header base a chain_id pow_limit_bits).

Definition light_verify (base : bytes) (a : AuxPow) (chain_id pow_limit_bits : Z) :
    Result string bytes :=
  if negb (step_ok (check_header_format base chain_id pow_limit_bits))
  then Err "header format checks failed"%string else
  let block_hash := sha256d base in
  if negb (step_ok (verify_proof1 a chain_id))
  then Err "proof 1 (coinbase → parent root) failed"%string else
  let out := verify_proof2 block_hash a chain_id in
  if negb (step_ok (p2_proof2 out)) then Err "proof 2 (aux → chain root) failed"%string else
  if negb (step_ok (p2_anti_grind out)) then Err "anti-grind LCG slot check failed"%string else
  Ok block_hash.

Definition verify_header (header : BlockHeader) (chain_id pow_limit_bits : Z) : VerificationReport :=
  match aux header with
  | Some a => verify_aux_header (raw header) a chain_id pow_limit_bits
  | None => failed chain_id "header has no AuxPoW witness (PSob requires merge-mined blocks)"
  end.

Definition AuxBlock_from_wire (wire : bytes) : AuxPowParseResult AuxBlock :=
  '(base, a) ← parse_auxpow wire;
  Ok (mkAuxBlock base a wire).

Definition AuxBlock_header (b : AuxBlock) : BlockHeader := mkBlockHeader (ab_base b) (Some (ab_aux b)).
Definition AuxBlock_block_hash (b : AuxBlock) : bytes := sha256d (ab_base b).
Definition AuxBlock_parent_hash (b : AuxBlock) : bytes := sha256d (parent_header (ab_aux b)).
Definition AuxBlock_block_hash_display (b : AuxBlock) : string := hash_display (AuxBlock_block_hash b).
Definition AuxBlock_parent_hash_display (b : AuxBlock) : string := hash_display (AuxBlock_parent_hash b).

Definition verify_wire_block (wire : bytes) (chain_id pow_limit_bits : Z) :
    AuxPowParseResult (AuxBlock * VerificationReport) :=
  aux_block ← AuxBlock_from_wire wire;
  let report := verify_aux_header (ab_base aux_block) (ab_aux aux_block) chain_id pow_limit_bits in
  Ok (aux_block, report).
End checks.

(** ** What the checks promise *)

(** The header rules, with the limit as compact bits. *)
Record header_rules (base : bytes) (cid plb : Z) : Prop := {
  rules_len : len base = 80;
  rules_chain : le_num (slice base 0 4) / 2 ^ 16 = cid;
  rules_bits : compact_valid (le_num (slice base 72 76));
  rules_plb : compact_valid plb;
  rules_limit : compact_value (le_num (slice base 72 76)) ≤ compact_value plb
}.

Lemma slice_u32 (l : bytes) a b : 0 ≤ a → b = a + 4 → b ≤ len l → is_u32 (le_num (slice l a b)).
Proof.
  intros Ha -> Hl. pose proof (le_num_range (slice l a (a + 4))) as Hr. unfold len in Hr.
  rewrite length_slice in Hr by lia. unfold is_u32, u32_max.
  replace (Z.to_nat (a + 4 - a)) with 4%nat in Hr by lia. change (256 ^ Z.of_nat 4) with (2 ^ 32) in Hr. lia.
Qed.

Lemma check_header_format_spec base cid plb :
  is_u32 plb → step_ok (check_header_format base cid plb) = true ↔ header_rules base cid plb.
Proof.
  intros Hplb. unfold check_header_format.
  destruct (len base =? 80) eqn:El; reflect_bools; cbn [negb]; [|split; [done|by intros []]].
  rewrite Z.shiftr_div_pow2 by lia.
  destruct (_ / 2 ^ 16 =? cid) eqn:Ec; reflect_bools; cbn [negb]; [|split; [done|by intros []]].
  assert (is_u32 (le_num (slice base 72 76))) as Hb by (apply slice_u32; lia).
  rewrite !expand_target_spec by done.
  destruct (decide (compact_valid (le_num _))) as [Hv|Hv]; [|split; [done|by intros []]].
  destruct (decide (compact_valid plb)) as [Hp|Hp]; [|split; [done|by intros []]].
  rewrite target_leq_compact by done.
  destruct (_ <=? _) eqn:Et; reflect_bools; cbn [negb].
  - by split.
  - split; [done|]. intros []. lia.
Qed.

Section specs.
Context `{Sha256} `{HexCodec}.

(** The two halves of [commits] that the proofs check. *)
Lemma proof1_spec a cid :
  step_ok (verify_proof1 a cid) = true ↔
  parent_index a = 0 ∧ parent_chain_id a = Some LTC_CHAIN_ID ∧ cid ≠ LTC_CHAIN_ID ∧
  parent_merkle_root a = Some (merkle_fold_branch (sha256d (coinbase_tx a)) (parent_merkle_branch a) 0).
Proof.
  unfold verify_proof1.
  destruct (parent_index a =? 0) eqn:Ei; reflect_bools; cbn [negb]; [|split; [done|by intros [? _]]].
  rewrite Ei.
  destruct (parent_chain_id a) as [pid|]; [|split; [done|by intros (_&?&_)]].
  destruct (pid =? cid) eqn:Ep; reflect_bools; cbn [negb].
  { split; [done|]. intros (_ & [= ->] & ? & _). congruence. }
  destruct (bool_decide (Some pid = _)) eqn:El; reflect_bools; cbn [negb].
  2:{ split; [done|]. by intros (_ & ? & _). }
  injection El as ->.
  destruct (parent_merkle_root a) as [root|]; [|split; [done|by intros (_&_&_&?)]].
  destruct (bool_decide _) eqn:Ef; reflect_bools; cbn [negb]; subst.
  - split; [|done]. intros _. split_and!; [done|done|congruence|done].
  - split; [done|]. intros (_ & _ & _ & [= ?]). congruence.
Qed.

Lemma commits_proofs h a cid :
  length h = 32%nat →
  commits h a cid ↔
  step_ok (verify_proof1 a cid) = true ∧
  step_ok (p2_proof2 (verify_proof2 h a cid)) = true ∧
  step_ok (p2_anti_grind (verify_proof2 h a cid)) = true.
Proof.
  intros Hh. rewrite <-(verify_auxpow_spec h a cid Hh), proof1_spec.
  unfold verify_auxpow_commitment, verify_proof2.
  destruct (parent_index a =? 0) eqn:Ei; reflect_bools; cbn [negb];
    [|split; [done|by intros ((?&_)&_)]].
  rewrite Ei.
  destruct (parent_chain_id a) as [pid|]; [|split; [done|by intros ((_&?&_)&_)]].
  destruct (negb (pid =? cid) && (pid =? LTC_CHAIN_ID)) eqn:Ep.
  2:{ split; [done|]. intros ((_ & [= ->] & Hs & _) & _).
      rewrite Z.eqb_refl, andb_true_r in Ep. reflect_bools. congruence. }
  reflect_bools.
  destruct (parent_merkle_root a) as [root|]; [|split; [done|by intros ((_&_&_&?)&_)]].
  destruct (bool_decide (_ = root)) eqn:Ef; reflect_bools; cbn [negb].
  2:{ split; [done|]. intros ((_ & _ & _ & [= ?]) & _). congruence. }
  assert (0 = 0 ∧ Some pid = Some LTC_CHAIN_ID ∧ cid ≠ LTC_CHAIN_ID ∧
          Some root = Some (merkle_fold_branch (sha256d (coinbase_tx a)) (parent_merkle_branch a) 0)) as Hp1.
  { split_and!; congruence. }
  destruct (30 <? _); [split; [done|by intros (_&?&_)]|].
  destruct (find_subslice (coinbase_tx a) _) as [i|]; [|split; [done|by intros (_&?&_)]].
  destruct (find_subslice (drop _ _) _); [split; [done|by intros (_&?&_)]|]. cbv zeta.
  destruct (get_range _ _ _) as [tail|]; [|split; [done|by intros (_&?&_)]].
  destruct (bool_decide _); cbn [negb]; [|split; [done|by intros (_&?&_)]].
  cbn [p2_proof2 p2_anti_grind]. destruct (_ =? u32_shl 1 _); cbn [negb];
    [|split; [done|by intros (_&_&?)]].
  destruct (chain_index a =? _); cbn [negb]; [|split; [done|by intros (_&_&?)]]. done.
Qed.

Lemma light_verify_spec base a cid plb h :
  is_u32 plb →
  light_verify base a cid plb = Ok h ↔
  h = sha256d base ∧ header_rules base cid plb ∧ commits (sha256d base) a cid.
Proof.
  intros Hplb. rewrite <-check_header_format_spec by done.
  rewrite commits_proofs by apply length_sha256d. unfold light_verify.
  destruct (step_ok (check_header_format _ _ _)); cbn [negb]; [|split; [done|by intros (_&?&_)]].
  destruct (step_ok (verify_proof1 _ _)); cbn [negb]; [|split; [done|by intros (_&_&?&_)]].
  destruct (step_ok (p2_proof2 _)); cbn [negb]; [|split; [done|by intros (_&_&_&?&_)]].
  destruct (step_ok (p2_anti_grind _)); cbn [negb]; [|split; [done|by intros (_&_&_&_&?)]].
  split; [by intros [= <-]|by intros [-> _]].
Qed.

Lemma report_valid_light base a cid plb :
  valid (verify_aux_header base a cid plb) = is_ok (light_verify base a cid plb).
Proof.
  unfold verify_aux_header, light_verify.
  destruct (step_ok (check_header_format _ _ _)); cbn [negb]; [|done]. cbn [valid andb].
  destruct (step_ok (verify_proof1 _ _)); cbn [negb andb]; [|done].
  destruct (step_ok (p2_proof2 _)); cbn [negb andb]; [|done].
  by destruct (step_ok (p2_anti_grind _)).
Qed.

Lemma light_psob base a cid plb prev :
  is_u32 plb → slice base 4 36 = prev → len (parent_header a) = 80 →
  verify_psob_chain [mkBlockHeader base (Some a)] prev cid plb = Some (Ok ()) ↔
  light_verify base a cid plb = Ok (sha256d base).
Proof.
  intros Hplb Hprev Hph. rewrite (proj2 (verify_psob_chain_spec _ _ _ _ Hplb)).
  rewrite light_verify_spec by done. split.
  - intros (_ & Hv & tip & Hl). inversion Hl as [|???? Hok _]; subst.
    destruct Hok as [H1 H2 _ H3 H4 (a' & [= <-] & Hc & _)]. cbn [raw] in *.
    split; [done|]. split; [by split|done].
  - intros (_ & [H1 H2 H3 H4 H5] & Hc). split; [done|]. split; [done|].
    exists (sha256d base). constructor; [|constructor].
    split; cbn [raw aux]; try done. by exists a.
Qed.

Lemma proof2_committed_root base a cid :
  let out := verify_proof2 base a cid in
  (step_ok (p2_proof2 out) = true ↔ is_Some (p2_committed out)) ∧
  ∀ c, p2_committed out = Some c →
       c = rev (merkle_fold_branch base (chain_merkle_branch a) (chain_index a)).
Proof.
  cbv zeta. unfold verify_proof2. set (root := merkle_fold_branch _ _ _).
  assert (∀ e g n m, let out := mkProof2 (StepResult_err e) g None n m in
    (step_ok (p2_proof2 out) = true ↔ is_Some (p2_committed out)) ∧
    ∀ c, p2_committed out = Some c → c = rev root) as Herr.
  { intros e g n m. cbv zeta. split; [|done]. split; [done|]. by intros [? ?]. }
  destruct (30 <? _); [apply Herr|].
  destruct (find_subslice (coinbase_tx a) _) as [i|]; [|apply Herr].
  destruct (find_subslice (drop _ _) _); [apply Herr|]. cbv zeta.
  destruct (get_range _ _ _) as [tail|]; [|apply Herr].
  destruct (bool_decide _) eqn:E; cbn [negb]; [|apply Herr]. reflect_bools.
  cbn [p2_proof2 p2_committed]. split; [split; [eauto|done]|]. by intros c [= <-].
Qed.
End specs.

(** A concrete codec, which the witnesses compute with. *)
Definition nibble (c : Ascii.ascii) : option Z :=
  let n := Z.of_N (Ascii.N_of_ascii c) in
  if (48 <=? n) && (n <=? 57) then Some (n - 48)
  else if (97 <=? n) && (n <=? 102) then Some (n - 87)
  else if (65 <=? n) && (n <=? 70) then Some (n - 55) else None.

Fixpoint hex_enc (b : bytes) : string :=
  match b with
  | [] => EmptyString
  | x :: b => String (hex_digit (b2z x / 16)) (String (hex_digit (b2z x mod 16)) (hex_enc b))
  end.

Fixpoint hex_dec (s : string) : option bytes :=
  match s with
  | EmptyString => Some []
  | String c1 (String c2 s) =>
      h ← nibble c1; l ← nibble c2; b ← hex_dec s; Some (z2b (16 * h + l) :: b)
  | _ => None
  end.

Lemma hex_dec_enc b : hex_dec (hex_enc b) = Some b.
Proof.
  induction b as [|x b IH]; [done|]. cbn [hex_enc hex_dec]. rewrite IH. by destruct x.
Qed.

Definition plain_hex : HexCodec :=
  {| hex_encode := hex_enc;
     hex_decode s := ok_or (hex_dec s) "invalid hex"%string;
     hex_decode_encode b := f_equal (λ o, ok_or o "invalid hex"%string) (hex_dec_enc b) |}.

(** ** Properties *)

(** The fast path.  [light_verify] returns [Ok] exactly when the header rules
    (length, chain id, a valid target no easier than a valid limit) and the
    merged-mining commitment hold, and then returns the double SHA-256 of the
    header. *)
Theorem light_verify_correct `{Sha256} (base h : bytes) (a : AuxPow) (cid plb : Z)
    (Hplb : is_u32 plb) :
  light_verify base a cid plb = Ok h ↔
  h = sha256d base ∧ header_rules base cid plb ∧ commits (sha256d base) a cid.
Proof. exact (light_verify_spec base a cid plb h Hplb). Qed.

Definition sample_base : bytes := raw (@sample_header toy_hash (replicate 32 x00) 8224).
Definition sample_base_aux : AuxPow := @sample_aux toy_hash (@sha256d toy_hash sample_base) 8224 77.

Lemma light_verify_correct_witness :
  is_u32 CHAIN_POW_LIMIT_BITS ∧ header_rules sample_base 8224 CHAIN_POW_LIMIT_BITS ∧
  @commits toy_hash (@sha256d toy_hash sample_base) sample_base_aux 8224.
Proof.
  assert (is_u32 CHAIN_POW_LIMIT_BITS) as Hb
    by (unfold is_u32, u32_max, CHAIN_POW_LIMIT_BITS; lia).
  split; [exact Hb|].
  assert (@light_verify toy_hash sample_base sample_base_aux 8224 CHAIN_POW_LIMIT_BITS
          = Ok (@sha256d toy_hash sample_base)) as Hv by (vm_compute; reflexivity).
  exact (proj2 (proj1 (@light_verify_correct toy_hash sample_base _ sample_base_aux 8224
           CHAIN_POW_LIMIT_BITS Hb) Hv)).
Defined.

(** C24: the report.  The report's verdict is the fast path's on every input, it
    is [true] exactly when the rules and the commitment hold, and then every step
    is [ok], nothing is fatal and the hashes shown are those of the header and of
    the parent header, in display order, and the root the coinbase commits to, in
    the order the fold computes it (the display order is the reverse). *)
Theorem verify_aux_header_correct `{Sha256} `{HexCodec} (base : bytes) (a : AuxPow) (cid plb : Z)
    (Hplb : is_u32 plb) :
  let r := verify_aux_header base a cid plb in
  valid r = is_ok (light_verify base a cid plb) ∧
  (valid r = true ↔ header_rules base cid plb ∧ commits (sha256d base) a cid) ∧
  (valid r = true →
     step_ok (header_format r) && step_ok (proof1_coinbase_to_parent_root r)
       && step_ok (proof2_aux_to_chain_root r) && step_ok (anti_grind_lcg_slot r) = true ∧
     fatal_error r = None ∧ report_parent_chain_id r = Some LTC_CHAIN_ID ∧
     block_hash r = hash_display (sha256d base) ∧
     parent_hash r = hash_display (sha256d (parent_header a)) ∧
     coinbase_root_hex r = hex_encode
       (merkle_fold_branch (sha256d base) (chain_merkle_branch a) (chain_index a))).
Proof.
  cbv zeta. rewrite report_valid_light. split; [done|].
  assert (is_ok (light_verify base a cid plb) = true ↔
          header_rules base cid plb ∧ commits (sha256d base) a cid) as Hiff.
  { pose proof (light_verify_spec base a cid plb (sha256d base) Hplb) as Hl. split.
    - destruct (light_verify base a cid plb) as [h|] eqn:E; [|done]. intros _.
      by apply light_verify_spec in E as (_ & ?).
    - intros Hr. by rewrite (proj2 Hl (conj eq_refl Hr)). }
  split; [exact Hiff|]. intros [Hr Hc]%Hiff.
  apply commits_proofs in Hc as (H1 & H2 & H3); [|apply length_sha256d].
  apply check_header_format_spec in Hr; [|done].
  unfold verify_aux_header. rewrite Hr. cbn [negb header_format proof1_coinbase_to_parent_root
    proof2_aux_to_chain_root anti_grind_lcg_slot fatal_error report_parent_chain_id block_hash
    parent_hash coinbase_root_hex]. rewrite Hr, H1, H2, H3.
  destruct (proof2_committed_root (sha256d base) a cid) as [Hs Hroot].
  apply Hs in H2 as [c Hcm]. rewrite Hcm, (Hroot c Hcm).
  apply proof1_spec in H1 as (_ & -> & _). by rewrite rev_involutive.
Qed.

Lemma verify_aux_header_correct_witness :
  is_u32 CHAIN_POW_LIMIT_BITS ∧
  valid (@verify_aux_header toy_hash plain_hex sample_base sample_base_aux 8224 CHAIN_POW_LIMIT_BITS)
  = true ∧
  fatal_error (@verify_aux_header toy_hash plain_hex sample_base sample_base_aux 8224
                 CHAIN_POW_LIMIT_BITS) = None.
Proof.
  assert (is_u32 CHAIN_POW_LIMIT_BITS) as Hb
    by (unfold is_u32, u32_max, CHAIN_POW_LIMIT_BITS; lia).
  split; [exact Hb|].
  assert (valid (@verify_aux_header toy_hash plain_hex sample_base sample_base_aux 8224
            CHAIN_POW_LIMIT_BITS) = true) as Hv by (vm_compute; reflexivity).
  split; [exact Hv|].
  exact (proj1 (proj2 (proj2 (proj2 (@verify_aux_header_correct toy_hash plain_hex sample_base
           sample_base_aux 8224 CHAIN_POW_LIMIT_BITS Hb)) Hv))).
Defined.

(** C22: the indexer agrees with the guest.  Whatever wire payload parses, the
    report of [verify_wire_block] is valid exactly when the guest's chain check
    accepts the one-header chain of that block from its own previous hash: the
    untrusted indexer neither serves a block the proof system would reject nor
    rejects one it would accept. *)
Theorem verify_wire_block_agrees_with_guest `{Sha256} `{HexCodec} (wire : bytes) (cid plb : Z)
    (b : AuxBlock) (r : VerificationReport)
    (Hplb : is_u32 plb) (Hfit : len wire ≤ usize_max)
    (Hparse : verify_wire_block wire cid plb = Ok (b, r)) :
  ab_wire b = wire ∧
  (valid r = true ↔
   verify_psob_chain [AuxBlock_header b] (slice (ab_base b) 4 36) cid plb = Some (Ok ())).
Proof.
  unfold verify_wire_block, AuxBlock_from_wire in Hparse.
  apply bind_Ok in Hparse as (b' & ([base a] & Hp & [= <-])%bind_Ok & [= <- <-]).
  split; [done|]. cbn [ab_base ab_aux AuxBlock_header].
  apply parse_auxpow_iff in Hp as (_ & w & rest & Hw & _); [|done].
  destruct (aux_wire_wf a w Hw) as [Ha _].
  unfold AuxBlock_header. cbn [ab_base ab_aux].
  rewrite report_valid_light, (light_psob base a cid plb _ Hplb eq_refl (aux_wf_parent a Ha)).
  destruct (light_verify base a cid plb) as [h|] eqn:E; [|done].
  split; [|done]. intros _. by apply light_verify_spec in E as [-> _].
Qed.

Definition sample_wire : bytes :=
  let t := mkTx (le_bytes 4 1) [mkTxIn (replicate 36 x11) [] (replicate 4 xff)] [] (le_bytes 4 0) in
  reserialize_wire (raw (@sample_header toy_hash (replicate 32 x00) 8224))
    (mkAuxPow (tx_bytes t) [] 0 [] 0 (replicate 80 x00)) (replicate 32 x00).

Lemma verify_wire_block_agrees_with_guest_witness :
  is_u32 CHAIN_POW_LIMIT_BITS ∧ len sample_wire ≤ usize_max ∧
  ∃ b r, @verify_wire_block toy_hash plain_hex sample_wire 8224 CHAIN_POW_LIMIT_BITS = Ok (b, r) ∧
         ab_wire b = sample_wire.
Proof.
  assert (is_u32 CHAIN_POW_LIMIT_BITS) as Hb
    by (unfold is_u32, u32_max, CHAIN_POW_LIMIT_BITS; lia).
  assert (len sample_wire ≤ usize_max) as Hl by (vm_compute; discriminate).
  split; [exact Hb|]. split; [exact Hl|].
  destruct (@verify_wire_block toy_hash plain_hex sample_wire 8224 CHAIN_POW_LIMIT_BITS)
    as [[b r]|e] eqn:E; [|vm_compute in E; discriminate E].
  exists b, r. split; [reflexivity|].
  exact (proj1 (@verify_wire_block_agrees_with_guest toy_hash plain_hex sample_wire 8224
           CHAIN_POW_LIMIT_BITS b r Hb Hl E)).
Defined.
