(* ===== verification/Swap.v ===== *)
(** * Swap intents

    [src/swap.rs] and the intent record of [src/p2p/mod.rs]: the envelope
    validation of [psob-swap/1] intents, the canonical JSON that is signed, and
    the signature check.  The theorems: what an accepted intent satisfies, and
    that the signed text determines every signed field.

    [secp256k1] is a parameter (class [Secp256k1]), as are the clock and the
    [PSOB_REQUIRE_SIGNATURES] environment variable (arguments).  A Rust [String]
    is the string of its UTF-8 bytes. *)

From stdpp Require Export gmap sets.
From S2P Require Export Text Verify.

#[local] Open Scope Z_scope.

(** ** Data *)

Record SwapIntentMessage := mkIntent {
  protocol : string;
  intent_version : Z;
  intent_id : string;
  maker_pubkey : string;
  from_chain : Z;
  to_chain : Z;
  from_amount : Z;
  to_amount : Z;
  maker_receive_address : string;
  timestamp : Z;
  expiry : Z;
  settlement : string;
  adaptor_point : string;
  maker_npub : string;
  maker_refund_address : string;
  signature : string
}.

#[export] Instance SwapIntentMessage_eq_dec : EqDecision SwapIntentMessage.
Proof. solve_decision. Defined.

Definition SUPPORTED_PROTOCOLS : list string := ["psob-swap"%string].
Definition SUPPORTED_VERSIONS : list Z := [1].
Definition SUPPORTED_SETTLEMENTS : list string := ["adaptor-v1"%string].

(** One constructor per [bail!] and [anyhow!]. *)
Inductive SwapError :=
  | UnsupportedProtocol (p : string)
  | UnsupportedVersion (v : Z)
  | UnsupportedSettlement (s : string)
  | SameChain
  | UnknownFromChain (c : Z)
  | UnknownToChain (c : Z)
  | ZeroAmount
  | TimestampInFuture
  | AlreadyExpired
  | WindowTooLong
  | InvalidReceiveAddress
  | PubkeyNotHex
  | PubkeyLength
  | AdaptorNotHex
  | AdaptorLength
  | SignatureNotHex
  | SignatureLength
  | BadPubkey (e : string)
  | BadSignature (e : string)
  | VerificationFailed (e : string).

(** The [secp256k1] crate: parsing and verification. *)
Class Secp256k1 := {
  PublicKey : Type;
  Signature : Type;
  PublicKey_from_slice : bytes → Result string PublicKey;
  Signature_from_compact : bytes → Result string Signature;
  verify_ecdsa : bytes → Signature → PublicKey → Result string unit
}.

(** ** Canonical text *)

Definition bs : ascii := ascii_of_N 92.
Definition dq : ascii := ascii_of_N 34.
#[local] Arguments bs : simpl never.
#[local] Arguments dq : simpl never.
Definition str1 (c : ascii) : string := String c EmptyString.

Fixpoint esc (s : string) : string :=
  match s with
  | EmptyString => EmptyString
  | String c s =>
      if decide (c = bs) then String bs (String bs (esc s))
      else if decide (c = dq) then String bs (String dq (esc s))
      else String c (esc s)
  end.

(** ["key":] and the two kinds of values. *)
Definition json_key (k : string) : string := str1 dq +:+ k +:+ str1 dq +:+ ":".
Definition json_str (s : string) : string := str1 dq +:+ esc s +:+ str1 dq.

Definition canonical_intent_json (i : SwapIntentMessage) : string :=
  "{" +:+ json_key "protocol" +:+ json_str (protocol i)
  +:+ "," +:+ json_key "version" +:+ pretty (intent_version i)
  +:+ "," +:+ json_key "intent_id" +:+ json_str (intent_id i)
  +:+ "," +:+ json_key "maker_pubkey" +:+ json_str (maker_pubkey i)
  +:+ "," +:+ json_key "from_chain" +:+ pretty (from_chain i)
  +:+ "," +:+ json_key "to_chain" +:+ pretty (to_chain i)
  +:+ "," +:+ json_key "from_amount" +:+ pretty (from_amount i)
  +:+ "," +:+ json_key "to_amount" +:+ pretty (to_amount i)
  +:+ "," +:+ json_key "maker_receive_address" +:+ json_str (maker_receive_address i)
  +:+ "," +:+ json_key "adaptor_point" +:+ json_str (adaptor_point i)
  +:+ "," +:+ json_key "maker_npub" +:+ json_str (maker_npub i)
  +:+ "," +:+ json_key "maker_refund_address" +:+ json_str (maker_refund_address i)
  +:+ "," +:+ json_key "timestamp" +:+ pretty (timestamp i)
  +:+ "," +:+ json_key "expiry" +:+ pretty (expiry i)
  +:+ "," +:+ json_key "settlement" +:+ json_str (settlement i) +:+ "}".

(** [s.as_bytes()]. *)
Fixpoint as_bytes (s : string) : bytes :=
  match s with EmptyString => [] | String c s => byte_of_ascii c :: as_bytes s end.

(** ** Validation *)

(** [s.to_ascii_lowercase()] and [a.eq_ignore_ascii_case(b)]. *)
Definition ascii_lower (c : ascii) : ascii :=
  let n := Z.of_N (N_of_ascii c) in
  if (65 <=? n) && (n <=? 90) then ascii_of_N (Z.to_N (n + 32)) else c.
Fixpoint string_lower (s : string) : string :=
  match s with EmptyString => EmptyString | String c s => String (ascii_lower c) (string_lower s) end.
Definition eq_ignore_ascii_case (a b : string) : bool :=
  bool_decide (string_lower a = string_lower b).

Definition signatures_enforced (env : option string) : bool :=
  match env with
  | Some v => negb (bool_decide (v = "0"%string) || eq_ignore_ascii_case v "false")
  | None => true
  end.

Section swap.
Context `{Sha256} `{HexCodec} `{Secp256k1}.

Definition verify_intent_signature_inner (i : SwapIntentMessage) : Result SwapError unit :=
  let canonical := canonical_intent_json i in
  let msg := sha256 (as_bytes canonical) in
  pk_bytes ← map_err (λ _, PubkeyNotHex) (hex_decode (maker_pubkey i));
  pk ← map_err BadPubkey (PublicKey_from_slice pk_bytes);
  sig_bytes ← map_err (λ _, SignatureNotHex) (hex_decode (signature i));
  sig ← map_err BadSignature (Signature_from_compact sig_bytes);
  _ ← map_err VerificationFailed (verify_ecdsa msg sig pk);
  Ok ().

Definition verify_intent_signature (env : option string) (i : SwapIntentMessage) :
    Result SwapError unit :=
  let enforce := signatures_enforced env in
  if negb enforce then Ok () else verify_intent_signature_inner i.

Definition validate_swap_intent (env : option string) (now : Z) (known_chains : gset Z)
    (i : SwapIntentMessage) : Result SwapError unit :=
  if negb (bool_decide (protocol i ∈ SUPPORTED_PROTOCOLS)) then Err (UnsupportedProtocol (protocol i)) else
  if (intent_version i =? 0) || negb (bool_decide (intent_version i ∈ SUPPORTED_VERSIONS))
  then Err (UnsupportedVersion (intent_version i)) else
  if negb (bool_decide (settlement i ∈ SUPPORTED_SETTLEMENTS))
  then Err (UnsupportedSettlement (settlement i)) else
  if from_chain i =? to_chain i then Err SameChain else
  if negb (bool_decide (from_chain i ∈ known_chains)) then Err (UnknownFromChain (from_chain i)) else
  if negb (bool_decide (to_chain i ∈ known_chains)) then Err (UnknownToChain (to_chain i)) else
  if (from_amount i =? 0) || (to_amount i =? 0) then Err ZeroAmount else
  if now + 300 <? timestamp i then Err TimestampInFuture else
  if expiry i <=? now then Err AlreadyExpired else
  if 60 * 60 * 24 * 30 <? saturating_sub (expiry i) (timestamp i) then Err WindowTooLong else
  if bool_decide (maker_receive_address i = EmptyString)
     || (120 <? Z.of_nat (String.length (maker_receive_address i)))
  then Err InvalidReceiveAddress else
  pk ← map_err (λ _, PubkeyNotHex) (hex_decode (maker_pubkey i));
  if negb (len pk =? 33) then Err PubkeyLength else
  _ ← (if bool_decide (adaptor_point i = EmptyString) then Ok () else
       ap ← map_err (λ _, AdaptorNotHex) (hex_decode (adaptor_point i));
       if negb (len ap =? 33) then Err AdaptorLength else Ok ());
  sig ← map_err (λ _, SignatureNotHex) (hex_decode (signature i));
  if negb (len sig =? 64) then Err SignatureLength else
  verify_intent_signature env i.
End swap.

(** ** The canonical text determines the intent *)

Lemma esc_split (s1 s2 r1 r2 : string) :
  esc s1 +:+ String dq r1 = esc s2 +:+ String dq r2 → s1 = s2 ∧ r1 = r2.
Proof.
  assert (bs ≠ dq) as Hne by done. revert s2.
  induction s1 as [|a s1 IH]; intros s2; cbn [esc].
  - destruct s2 as [|b s2]; cbn [esc]; [by intros [= ->]|].
    repeat case_decide; subst; cbn; intros [=]; congruence.
  - destruct s2 as [|b s2]; cbn [esc].
    + repeat case_decide; subst; cbn; intros [=]; congruence.
    + repeat case_decide; subst; cbn; try (intros [=]; congruence);
        intros [=]; subst; by destruct (IH s2) as [-> ->].
Qed.

Lemma json_str_split s1 s2 r1 r2 :
  json_str s1 +:+ r1 = json_str s2 +:+ r2 → s1 = s2 ∧ r1 = r2.
Proof.
  unfold json_str. rewrite <-!string_app_assoc. intros Heq%string_app_inj_l.
  by apply esc_split in Heq.
Qed.

(** The integer fields have their Rust types' ranges; only the sign matters. *)
Record intent_wf (i : SwapIntentMessage) : Prop := {
  intent_wf_version : is_u32 (intent_version i);
  intent_wf_from_chain : is_u32 (from_chain i);
  intent_wf_to_chain : is_u32 (to_chain i);
  intent_wf_from_amount : is_u64 (from_amount i);
  intent_wf_to_amount : is_u64 (to_amount i);
  intent_wf_timestamp : is_u64 (timestamp i);
  intent_wf_expiry : is_u64 (expiry i)
}.

(** The fields the signature covers: all of them but itself. *)
Definition unsigned (i : SwapIntentMessage) : SwapIntentMessage :=
  mkIntent (protocol i) (intent_version i) (intent_id i) (maker_pubkey i) (from_chain i)
    (to_chain i) (from_amount i) (to_amount i) (maker_receive_address i) (timestamp i) (expiry i)
    (settlement i) (adaptor_point i) (maker_npub i) (maker_refund_address i) EmptyString.

Lemma comma_no_digit : ¬ is_digit ","%char.
Proof. by intros [? ?]. Qed.

(** [peel] strips the text up to and including the next value, for abstract
    printers [J] and [P] with the separation property. *)
Ltac peel J P HJ HN H :=
  lazymatch type of H with
  | J ?x +:+ ?r = J ?y +:+ ?s => apply (HJ x y r s) in H; destruct H as [? H]
  | P ?n +:+ (?c +:+ ?r) = P ?m +:+ (?c +:+ ?s) =>
      apply (HN n m r s) in H; [destruct H as [? H]|lia|lia]
  | ?a +:+ ?b = ?a +:+ ?c => apply (string_app_inj_l a b c) in H; peel J P HJ HN H
  end.

Lemma canonical_injective i1 i2 :
  intent_wf i1 → intent_wf i2 →
  canonical_intent_json i1 = canonical_intent_json i2 → unsigned i1 = unsigned i2.
Proof.
  intros [V1 F1 T1 A1 B1 S1 E1] [V2 F2 T2 A2 B2 S2 E2] H. unfold is_u32, is_u64 in *.
  unfold canonical_intent_json in H.
  pose proof json_str_split as HJ.
  pose proof (λ n m r1 r2, number_unique ","%char n m r1 r2 comma_no_digit) as HN.
  revert H HJ. generalize json_str. intros J H HJ.
  revert H HN. generalize (@pretty Z pretty_Z). intros P H HN.
  revert H. generalize json_key. intros K H.
  change (∀ n m r1 r2, 0 ≤ n → 0 ≤ m → P n +:+ ("," +:+ r1) = P m +:+ ("," +:+ r2) → n = m ∧ r1 = r2) in HN.
  do 15 peel J P HJ HN H.
  unfold unsigned. f_equal; assumption.
Qed.

(** ** What an accepted intent satisfies *)

Section swap_lemmas.
Context `{Sha256} `{HexCodec} `{Secp256k1}.

(** The signature rule: a well-formed key and signature, and the library's
    verdict over the digest of the canonical text. *)
Definition signed (i : SwapIntentMessage) : Prop :=
  ∃ pkb pk sgb sg,
    hex_decode (maker_pubkey i) = Ok pkb ∧ PublicKey_from_slice pkb = Ok pk ∧
    hex_decode (signature i) = Ok sgb ∧ Signature_from_compact sgb = Ok sg ∧
    verify_ecdsa (sha256 (as_bytes (canonical_intent_json i))) sg pk = Ok ().

Record envelope (now : Z) (known : gset Z) (i : SwapIntentMessage) : Prop := {
  env_protocol : protocol i = "psob-swap"%string;
  env_version : intent_version i = 1;
  env_settlement : settlement i = "adaptor-v1"%string;
  env_chains : from_chain i ≠ to_chain i;
  env_from : from_chain i ∈ known;
  env_to : to_chain i ∈ known;
  env_amounts : from_amount i ≠ 0 ∧ to_amount i ≠ 0;
  env_timestamp : timestamp i ≤ now + 300;
  env_alive : now < expiry i;
  env_window : expiry i - timestamp i ≤ 2592000;
  env_address : 0 < Z.of_nat (String.length (maker_receive_address i)) ≤ 120;
  env_pubkey : ∃ pk, hex_decode (maker_pubkey i) = Ok pk ∧ len pk = 33;
  env_adaptor : adaptor_point i = EmptyString ∨
                ∃ ap, hex_decode (adaptor_point i) = Ok ap ∧ len ap = 33;
  env_signature : ∃ sg, hex_decode (signature i) = Ok sg ∧ len sg = 64
}.

Lemma map_err_Ok {E F A} (f : E → F) (r : Result E A) a : map_err f r = Ok a ↔ r = Ok a.
Proof. destruct r; simpl; split; congruence. Qed.

Lemma verify_inner_iff i : verify_intent_signature_inner i = Ok () ↔ signed i.
Proof.
  unfold verify_intent_signature_inner, signed. split.
  - intros (pkb & K1%map_err_Ok & (pk & K2%map_err_Ok & (sgb & K3%map_err_Ok &
      (sg & K4%map_err_Ok & ([] & K5%map_err_Ok & _)%bind_Ok)%bind_Ok)%bind_Ok)%bind_Ok)%bind_Ok.
    by exists pkb, pk, sgb, sg.
  - intros (pkb & pk & sgb & sg & K1 & K2 & K3 & K4 & K5).
    rewrite K1. cbn. rewrite K2. cbn. rewrite K3. cbn. rewrite K4. cbn. by rewrite K5.
Qed.

Lemma verify_signature_iff env i :
  verify_intent_signature env i = Ok () ↔ (signatures_enforced env = true → signed i).
Proof.
  unfold verify_intent_signature. rewrite <-verify_inner_iff.
  destruct (signatures_enforced env); cbn [negb]; [tauto|]. split; [done|auto].
Qed.

Lemma saturating_window e t : saturating_sub e t ≤ 2592000 ↔ e - t ≤ 2592000.
Proof. unfold saturating_sub. lia. Qed.

Lemma string_length_pos (s : string) : s ≠ EmptyString ↔ 0 < Z.of_nat (String.length s).
Proof. destruct s; cbn [String.length]; split; intros; done || lia. Qed.

Ltac reject := split; [done|intros [[] _]; done || lia].

(** The adaptor point, absent or 33 bytes. *)
Lemma adaptor_iff i :
  (if bool_decide (adaptor_point i = EmptyString) then Ok () else
   ap ← map_err (λ _, AdaptorNotHex) (hex_decode (adaptor_point i));
   if negb (len ap =? 33) then Err AdaptorLength else Ok ()) = Ok () ↔
  adaptor_point i = EmptyString ∨ ∃ ap, hex_decode (adaptor_point i) = Ok ap ∧ len ap = 33.
Proof.
  destruct (bool_decide (adaptor_point i = _)) eqn:E; reflect_bools; [tauto|].
  destruct (hex_decode (adaptor_point i)) as [ap|]; cbn [map_err mbind Result_bind].
  - destruct (len ap =? 33) eqn:El; reflect_bools; cbn [negb]; split; try done.
    + intros _. right. eauto.
    + intros [?|(?&[= <-]&?)]; done.
  - split; [done|]. intros [?|(?&?&?)]; done.
Qed.

Lemma validate_iff env now known i :
  validate_swap_intent env now known i = Ok () ↔
  envelope now known i ∧ (signatures_enforced env = true → signed i).
Proof.
  rewrite <-verify_signature_iff. unfold validate_swap_intent.
  destruct (bool_decide (protocol i ∈ _)) eqn:E1; reflect_bools; cbn [negb];
    [apply list_elem_of_singleton in E1|
     split; [done|intros [[] _]; destruct E1; by apply list_elem_of_singleton]].
  destruct (intent_version i =? 0) eqn:E2; reflect_bools; [split; [done|intros [[] _]; lia]|].
  destruct (bool_decide (intent_version i ∈ _)) eqn:E3; reflect_bools; cbn [negb orb];
    [apply list_elem_of_singleton in E3|
     split; [done|intros [[] _]; destruct E3; by apply list_elem_of_singleton]].
  destruct (bool_decide (settlement i ∈ _)) eqn:E4; reflect_bools; cbn [negb];
    [apply list_elem_of_singleton in E4|
     split; [done|intros [[] _]; destruct E4; by apply list_elem_of_singleton]].
  destruct (from_chain i =? to_chain i) eqn:E5; reflect_bools; [reject|].
  destruct (bool_decide (from_chain i ∈ _)) eqn:E6; reflect_bools; cbn [negb]; [|reject].
  destruct (bool_decide (to_chain i ∈ _)) eqn:E7; reflect_bools; cbn [negb]; [|reject].
  destruct (from_amount i =? 0) eqn:E8; reflect_bools; [split; [done|intros [[] _]; lia]|].
  destruct (to_amount i =? 0) eqn:E9; reflect_bools; cbn [orb]; [split; [done|intros [[] _]; lia]|].
  destruct (now + 300 <? timestamp i) eqn:E10; reflect_bools; [reject|].
  destruct (expiry i <=? now) eqn:E11; reflect_bools; [reject|].
  destruct (60 * 60 * 24 * 30 <? _) eqn:E12; reflect_bools.
  { split; [done|]. intros [[] _]. apply saturating_window in env_window0. lia. }
  change (60 * 60 * 24 * 30) with 2592000 in E12. apply saturating_window in E12.
  destruct (bool_decide (maker_receive_address i = _)) eqn:E13; reflect_bools; cbn [orb].
  { split; [done|]. intros [[] _]. rewrite E13 in *. cbn in *. lia. }
  apply string_length_pos in E13.
  destruct (120 <? _) eqn:E14; reflect_bools; [reject|].
  destruct (hex_decode (maker_pubkey i)) as [pk|] eqn:E15; cbn [map_err mbind Result_bind].
  2:{ split; [done|]. intros [[] _]. destruct env_pubkey0 as (?&?&_). congruence. }
  destruct (len pk =? 33) eqn:E16; reflect_bools; cbn [negb].
  2:{ split; [done|]. intros [[] _]. destruct env_pubkey0 as (?&?&?). congruence. }
  pose proof (adaptor_iff i) as Ha. set (adaptor := if bool_decide (adaptor_point i = _) then _ else _) in *.
  destruct adaptor as [[]|e] eqn:E17; cbn [mbind Result_bind].
  2:{ split; [done|]. intros [[] _]. apply Ha in env_adaptor0. done. }
  destruct (hex_decode (signature i)) as [sg|] eqn:E18; cbn [map_err mbind Result_bind].
  2:{ split; [done|]. intros [[] _]. destruct env_signature0 as (?&?&_). congruence. }
  destruct (len sg =? 64) eqn:E19; reflect_bools; cbn [negb].
  2:{ split; [done|]. intros [[] _]. destruct env_signature0 as (?&?&?). congruence. }
  split; [|tauto]. intros Hv. split; [|done].
  split; first [done|lia|by apply Ha|by eexists|by split].
Qed.
End swap_lemmas.

(** ** Properties *)

(** C26: intent validation.  An intent is accepted exactly when it satisfies every
    rule of the envelope (protocol, version, settlement, two different known
    chains, non-zero amounts, a timestamp at most five minutes ahead, an expiry
    after now and at most thirty days after the timestamp, an address of 1 to 120
    bytes, a 33-byte key, an absent or 33-byte adaptor point, a 64-byte signature)
    and, unless the environment relaxes it, carries a signature of its canonical
    text that verifies under its key. *)
Theorem validate_swap_intent_correct `{Sha256} `{HexCodec} `{Secp256k1}
    (env : option string) (now : Z) (known : gset Z) (i : SwapIntentMessage) :
  validate_swap_intent env now known i = Ok () ↔
  envelope now known i ∧ (signatures_enforced env = true → signed i).
Proof. exact (validate_iff env now known i). Qed.

(** C27: the signed text.  Two intents with the same canonical text agree on every
    field but the signature, and two that agree on those have the same text: what
    a maker signs determines the offer completely, whatever quotes, backslashes
    or separators its string fields contain. *)
Theorem canonical_intent_json_injective (i1 i2 : SwapIntentMessage)
    (Hwf1 : intent_wf i1) (Hwf2 : intent_wf i2) :
  canonical_intent_json i1 = canonical_intent_json i2 ↔ unsigned i1 = unsigned i2.
Proof.
  split; [by apply canonical_injective|].
  intros Hu. change (canonical_intent_json (unsigned i1) = canonical_intent_json (unsigned i2)).
  by rewrite Hu.
Qed.

Definition sample_intent (id : string) : SwapIntentMessage :=
  mkIntent "psob-swap" 1 id "02" 8224 50 100 200 "addr" 1000 2000 "adaptor-v1" "" "" "" "sig".

Lemma canonical_intent_json_injective_witness :
  let i1 := sample_intent (str1 dq) in let i2 := sample_intent (str1 bs +:+ str1 dq) in
  intent_wf i1 ∧ intent_wf i2 ∧ canonical_intent_json i1 ≠ canonical_intent_json i2.
Proof.
  intros i1 i2.
  assert (∀ id, intent_wf (sample_intent id)) as Hwf.
  { intros id. split; vm_compute; split; discriminate. }
  split; [exact (Hwf _)|]. split; [exact (Hwf _)|]. intros Heq.
  pose proof (proj1 (canonical_intent_json_injective i1 i2 (Hwf _) (Hwf _)) Heq) as Hu.
  discriminate Hu.
Defined.
