(* ===== verification/Strs.v ===== *)
(** * Strings

    The functions of [str] that the configuration, the clients and the server
    call, on UTF-8 text as a sequence of bytes: [split], [splitn], [split_once],
    [strip_prefix], [str_starts_with], [ends_with], [contains], the [trim] family and
    [u32::from_str_radix(_, 16)]. *)

From Stdlib Require Export String.
From S2P Require Export Text Verify Swap.

#[local] Open Scope Z_scope.

Definition srev (s : string) : string := String.string_of_list_ascii (rev (String.list_ascii_of_string s)).

(** ** Splitting *)

Fixpoint strip_prefix (p s : string) : option string :=
  match p, s with
  | EmptyString, _ => Some s
  | String c p, String c' s => if decide (c = c') then strip_prefix p s else None
  | _, EmptyString => None
  end.
Fixpoint split_once (c : ascii) (s : string) : option (string * string) :=
  match s with
  | EmptyString => None
  | String c' s =>
      if decide (c = c') then Some (EmptyString, s)
      else '(a, b) ← split_once c s; Some (String c' a, b)
  end.

(** [s.split(c)]. *)
Fixpoint split_on (c : ascii) (s : string) : list string :=
  match s with
  | EmptyString => [EmptyString]
  | String x s =>
      if decide (c = x) then EmptyString :: split_on c s
      else match split_on c s with
           | [] => [String x EmptyString]
           | w :: ws => String x w :: ws
           end
  end.

(** [s.splitn(n, c)]. *)
Fixpoint splitn (n : nat) (c : ascii) (s : string) : list string :=
  match n with
  | O => []
  | S O => [s]
  | S n => match split_once c s with
           | Some (a, b) => a :: splitn n c b
           | None => [s]
           end
  end.

Definition str_starts_with (p s : string) : bool := bool_decide (is_Some (strip_prefix p s)).
Definition ends_with (p s : string) : bool := str_starts_with (srev p) (srev s).
Fixpoint contains (p s : string) : bool :=
  str_starts_with p s || match s with EmptyString => false | String _ s => contains p s end.

(** ** Trimming *)

(** The UTF-8 encodings of the characters [char::is_whitespace] accepts: one byte
    (U+0009 to U+000D and the space), two (U+0085, U+00A0) and three (U+1680,
    U+2000 to U+200A, U+2028, U+2029, U+202F, U+205F, U+3000). *)
Definition code (c : ascii) : Z := Z.of_N (N_of_ascii c).
Definition ws1 (a : ascii) : bool := ((9 <=? code a) && (code a <=? 13)) || (code a =? 32).
Definition ws2 (a b : ascii) : bool := (code a =? 0xc2) && ((code b =? 0x85) || (code b =? 0xa0)).
Definition ws3 (a b c : ascii) : bool :=
  ((code a =? 0xe1) && (code b =? 0x9a) && (code c =? 0x80))
  || ((code a =? 0xe2) && (code b =? 0x80)
      && (((0x80 <=? code c) && (code c <=? 0x8a)) || (code c =? 0xa8) || (code c =? 0xa9)
          || (code c =? 0xaf)))
  || ((code a =? 0xe2) && (code b =? 0x81) && (code c =? 0x9f))
  || ((code a =? 0xe3) && (code b =? 0x80) && (code c =? 0x80)).

Fixpoint drop_ws (w2 : ascii → ascii → bool) (w3 : ascii → ascii → ascii → bool) (s : string) : string :=
  match s with
  | String a s1 =>
      if ws1 a then drop_ws w2 w3 s1 else
      match s1 with
      | String b s2 =>
          if w2 a b then drop_ws w2 w3 s2 else
          match s2 with
          | String c s3 => if w3 a b c then drop_ws w2 w3 s3 else s
          | _ => s
          end
      | _ => s
      end
  | _ => s
  end.
Definition trim_start : string → string := drop_ws ws2 ws3.
Definition trim_end (s : string) : string :=
  srev (drop_ws (λ b a, ws2 a b) (λ c b a, ws3 a b c) (srev s)).
Definition trim (s : string) : string := trim_end (trim_start s).

(** [s.trim_end_matches(c)] and [s.trim_start_matches("0x")]. *)
Fixpoint drop_char (c : ascii) (s : string) : string :=
  match s with
  | String x t => if decide (x = c) then drop_char c t else s
  | _ => s
  end.
Definition trim_end_matches (c : ascii) (s : string) : string := srev (drop_char c (srev s)).
Fixpoint trim_0x (s : string) : string :=
  match s with
  | String "0" (String "x" t) => trim_0x t
  | _ => s
  end.

(** ** Numbers *)

Fixpoint parse_nibbles (acc : Z) (s : string) : option Z :=
  match s with
  | EmptyString => Some acc
  | String c s => d ← nibble c; parse_nibbles (acc * 16 + d) s
  end.

(** [u32::from_str_radix(s, 16).ok()]: an optional sign, at least one digit, no
    overflow. *)
Definition parse_hex_u32 (s : string) : option Z :=
  let t := match s with String c t => if decide (c = "+"%char) then t else s | _ => s end in
  match t with
  | EmptyString => None
  | _ => v ← parse_nibbles 0 t; if v <=? u32_max then Some v else None
  end.

(** ** Lemmas *)

Lemma strip_prefix_app p s : strip_prefix p (p +:+ s) = Some s.
Proof.
  induction p as [|c p IH]; [by destruct s|].
  change (String c p +:+ s) with (String c (p +:+ s)). cbn [strip_prefix]. by rewrite decide_True.
Qed.

Lemma all_chars_app P a b : all_chars P (a +:+ b) ↔ all_chars P a ∧ all_chars P b.
Proof. induction a as [|x a IH]; [cbn; tauto|]. change (String x a +:+ b) with (String x (a +:+ b)). cbn. tauto. Qed.

Lemma split_on_one c s : all_chars (.≠ c) s → split_on c s = [s].
Proof.
  induction s as [|x s IH]; [done|]. intros [Hx Hs]. cbn. rewrite decide_False by done. by rewrite IH.
Qed.

Lemma split_on_app c a b : all_chars (.≠ c) a → split_on c (a +:+ String c b) = a :: split_on c b.
Proof.
  induction a as [|x a IH]; intros Ha.
  - change (EmptyString +:+ String c b) with (String c b). cbn. by rewrite decide_True.
  - destruct Ha as [Hx Ha]. change (String x a +:+ String c b) with (String x (a +:+ String c b)).
    cbn [split_on]. rewrite decide_False by done. by rewrite IH.
Qed.

Lemma split_once_app c a b : all_chars (.≠ c) a → split_once c (a +:+ String c b) = Some (a, b).
Proof.
  induction a as [|x a IH]; intros Ha.
  - change (EmptyString +:+ String c b) with (String c b). cbn. by rewrite decide_True.
  - destruct Ha as [Hx Ha]. change (String x a +:+ String c b) with (String x (a +:+ String c b)).
    cbn [split_once]. rewrite decide_False by done. by rewrite IH.
Qed.

Lemma split_once_none c s : all_chars (.≠ c) s → split_once c s = None.
Proof.
  induction s as [|x s IH]; [done|]. intros [Hx Hs]. cbn. rewrite decide_False by done. by rewrite IH.
Qed.

Lemma list_of_app a b : String.list_ascii_of_string (a +:+ b) = String.list_ascii_of_string a ++ String.list_ascii_of_string b.
Proof. induction a as [|x a IH]; [done|]. change (String x a +:+ b) with (String x (a +:+ b)). cbn. by rewrite IH. Qed.

Lemma string_of_app a b : String.string_of_list_ascii (a ++ b) = String.string_of_list_ascii a +:+ String.string_of_list_ascii b.
Proof.
  induction a as [|x a IH]; [done|]. cbn. rewrite IH. done.
Qed.

Lemma srev_involutive s : srev (srev s) = s.
Proof. unfold srev. rewrite String.list_ascii_of_string_of_list_ascii, rev_involutive. apply String.string_of_list_ascii_of_string. Qed.

Lemma srev_app a b : srev (a +:+ b) = srev b +:+ srev a.
Proof. unfold srev. by rewrite list_of_app, rev_app_distr, string_of_app. Qed.

Lemma all_chars_list P s : all_chars P s ↔ Forall P (String.list_ascii_of_string s).
Proof. induction s as [|x s IH]; cbn; [done|]. rewrite Forall_cons. tauto. Qed.

Lemma all_chars_srev P s : all_chars P (srev s) ↔ all_chars P s.
Proof. unfold srev. rewrite !all_chars_list, String.list_ascii_of_string_of_list_ascii. split; [intros Hf%Forall_rev; by rewrite rev_involutive in Hf|apply Forall_rev]. Qed.

(** Printable ASCII: no white space, no multi-byte character. *)
Definition graphic (c : ascii) : Prop := 33 ≤ code c ≤ 126.

Lemma drop_ws_graphic w2 w3 s :
  all_chars graphic s →
  (∀ a b, graphic a → w2 a b = false) → (∀ a b c, graphic a → w3 a b c = false) →
  drop_ws w2 w3 s = s.
Proof.
  intros Hs H2 H3. destruct s as [|a s]; [done|]. destruct Hs as [Ha _]. cbn.
  assert (ws1 a = false) as ->.
  { unfold ws1, graphic in *. apply orb_false_iff. rewrite andb_false_iff. rewrite !Z.leb_gt, Z.eqb_neq. lia. }
  destruct s as [|b s]; [done|]. rewrite H2 by done. destruct s as [|c s]; [done|]. by rewrite H3.
Qed.

Lemma trim_graphic s : all_chars graphic s → trim s = s.
Proof.
  intros Hs. assert (trim_start s = s) as Hst.
  { apply drop_ws_graphic; [done|..].
    - intros a b Ha. unfold ws2, graphic in *. apply andb_false_iff. rewrite Z.eqb_neq. lia.
    - intros a b c Ha. unfold ws3, graphic in *.
      assert ((code a =? 0xe1) = false) as -> by (apply Z.eqb_neq; lia).
      assert ((code a =? 0xe2) = false) as -> by (apply Z.eqb_neq; lia).
      assert ((code a =? 0xe3) = false) as -> by (apply Z.eqb_neq; lia). done. }
  unfold trim. rewrite Hst. unfold trim_end. rewrite drop_ws_graphic; [apply srev_involutive| | |].
  - by apply all_chars_srev.
  - intros b a Hb. unfold ws2, graphic in *.
    assert ((code b =? 0x85) = false) as -> by (apply Z.eqb_neq; lia).
    assert ((code b =? 0xa0) = false) as -> by (apply Z.eqb_neq; lia). apply andb_false_r.
  - intros c b a Hc. unfold ws3, graphic in *.
    assert ((code c =? 0x80) = false) as -> by (apply Z.eqb_neq; lia).
    assert ((code c =? 0x9f) = false) as -> by (apply Z.eqb_neq; lia).
    assert ((code c =? 0xa8) = false) as -> by (apply Z.eqb_neq; lia).
    assert ((code c =? 0xa9) = false) as -> by (apply Z.eqb_neq; lia).
    assert ((code c =? 0xaf) = false) as -> by (apply Z.eqb_neq; lia).
    assert ((0x80 <=? code c) = false) as -> by (apply Z.leb_gt; lia).
    cbn [andb orb]. by rewrite !andb_false_r.
Qed.

(** [from_str_radix] reads back [{:08x}]. *)
Lemma nibble_hex_digit n : 0 ≤ n < 16 → nibble (hex_digit n) = Some n.
Proof.
  intros Hn. assert (n = 0 ∨ n = 1 ∨ n = 2 ∨ n = 3 ∨ n = 4 ∨ n = 5 ∨ n = 6 ∨ n = 7 ∨ n = 8 ∨ n = 9
    ∨ n = 10 ∨ n = 11 ∨ n = 12 ∨ n = 13 ∨ n = 14 ∨ n = 15) as Hc by lia.
  by destruct Hc as [->|[->|[->|[->|[->|[->|[->|[->|[->|[->|[->|[->|[->|[->|[->| ->]]]]]]]]]]]]]]].
Qed.

Lemma hex_digit_graphic n : 0 ≤ n < 16 → graphic (hex_digit n) ∧ code (hex_digit n) ≠ 43 ∧
  code (hex_digit n) ≠ 44 ∧ code (hex_digit n) ≠ 124 ∧ code (hex_digit n) ≠ 120.
Proof.
  intros Hn. assert (n = 0 ∨ n = 1 ∨ n = 2 ∨ n = 3 ∨ n = 4 ∨ n = 5 ∨ n = 6 ∨ n = 7 ∨ n = 8 ∨ n = 9
    ∨ n = 10 ∨ n = 11 ∨ n = 12 ∨ n = 13 ∨ n = 14 ∨ n = 15) as Hc by lia.
  unfold graphic.
  by destruct Hc as [->|[->|[->|[->|[->|[->|[->|[->|[->|[->|[->|[->|[->|[->|[->| ->]]]]]]]]]]]]]]];
    vm_compute; repeat split; try discriminate.
Qed.

Lemma land_15 n i : Z.land (Z.shiftr n i) 15 = Z.shiftr n i mod 16.
Proof. change 15 with (Z.ones 4). by rewrite Z.land_ones. Qed.

(** The digits of [n], as [fmt_08x] prints them. *)
Definition hex_digits (n : Z) : list Z := (λ i, Z.shiftr n (4 * i) mod 16) <$> [7; 6; 5; 4; 3; 2; 1; 0].

Lemma fmt_08x_digits n : fmt_08x n = foldr (λ d s, String (hex_digit d) s) EmptyString (hex_digits n).
Proof. unfold fmt_08x, hex_digits. cbn. by rewrite !land_15. Qed.

Lemma hex_digits_range n : Forall (λ d, 0 ≤ d < 16) (hex_digits n).
Proof. unfold hex_digits. apply Forall_fmap, Forall_true. intros i. cbn. by apply Z.mod_pos_bound. Qed.

Lemma parse_nibbles_digits ds acc :
  Forall (λ d, 0 ≤ d < 16) ds →
  parse_nibbles acc (foldr (λ d s, String (hex_digit d) s) EmptyString ds)
  = Some (foldl (λ a d, a * 16 + d) acc ds).
Proof.
  revert acc. induction ds as [|d ds IH]; intros acc Hf; [done|]. apply Forall_cons in Hf as [Hd Hf].
  cbn. rewrite nibble_hex_digit by done. cbn. by apply IH.
Qed.

Lemma hex_digits_value n : is_u32 n → foldl (λ a d, a * 16 + d) 0 (hex_digits n) = n.
Proof.
  unfold is_u32, u32_max. intros Hn. unfold hex_digits. cbn [fmap list_fmap foldl].
  rewrite !Z.shiftr_div_pow2 by lia. change (4 * 0) with 0. change (2 ^ 0) with 1. rewrite Z.div_1_r.
  change (2 ^ (4 * 1)) with 16. change (2 ^ (4 * 2)) with 256. change (2 ^ (4 * 3)) with 4096.
  change (2 ^ (4 * 4)) with 65536. change (2 ^ (4 * 5)) with 1048576. change (2 ^ (4 * 6)) with 16777216.
  change (2 ^ (4 * 7)) with 268435456. change (2 ^ 32) with 4294967296 in Hn.
  Z.div_mod_to_equations. lia.
Qed.

Lemma parse_hex_fmt n : is_u32 n → parse_hex_u32 (fmt_08x n) = Some n.
Proof.
  intros Hn. rewrite fmt_08x_digits. unfold parse_hex_u32.
  pose proof (hex_digits_range n) as Hr. pose proof (parse_nibbles_digits (hex_digits n) 0 Hr) as Hp.
  rewrite hex_digits_value in Hp by done.
  assert (∃ d ds, hex_digits n = d :: ds) as (d & ds & Hds) by (unfold hex_digits; cbn; eauto).
  rewrite Hds in *. apply Forall_cons in Hr as [Hd _]. cbn [foldr] in *.
  destruct (hex_digit_graphic d Hd) as (_ & Hplus & _).
  rewrite decide_False by (intros Heq; rewrite Heq in Hplus; by vm_compute in Hplus).
  rewrite Hp. cbn. unfold is_u32 in Hn. destruct (n <=? u32_max) eqn:?; [done|]. reflect_bools. lia.
Qed.

Lemma fmt_08x_chars P n :
  (∀ d, 0 ≤ d < 16 → P (hex_digit d)) → all_chars P (fmt_08x n).
Proof.
  intros HP. rewrite fmt_08x_digits. pose proof (hex_digits_range n) as Hr.
  induction Hr as [|d ds Hd Hr IH]; [done|]. cbn. split; [by apply HP|done].
Qed.
