(* ===== verification/Config.v ===== *)
(** * Configuration

    [src/config.rs] and [P2pConfig] of [src/p2p/mod.rs]: the records, the parsers
    of the chain specifications, the uniqueness checks, and [Config::load].  The
    process environment is a function from names to values, [None] for an unset
    (or non-Unicode) variable, with [.env] already applied; the configuration file
    is found through [load_file], whose file system and TOML parser are arguments.
    Durations are in milliseconds.  Error messages are values of [ConfigError]. *)

From S2P Require Export Strs.

#[local] Open Scope Z_scope.

(** ** Data *)

Record AuxChain := mkChain {
  ac_chain_id : Z;
  ac_name : string;
  ac_electrs : string;
  ac_pow_limit_bits : Z;
  ac_start_height : option Z
}.
Record KnownChain := mkKnown { kc_chain_id : Z; kc_name : string; kc_electrs : string }.

Record ResolverConfig := mkResolver {
  rc_base : string;
  rc_api_key : string;
  rc_chain_slug : string;
  rc_fallback_base : option string
}.
Record RetryConfig := mkRetry {
  rt_max_retries : Z;
  rt_base_backoff : Z;
  rt_max_backoff : Z;
  rt_min_request_interval : Z
}.
Record HttpConfig := mkHttp { hc_timeout : Z; hc_concurrency : Z }.

Record P2pConfig := mkP2p {
  p2p_port : Z;
  p2p_bind_addr : string;
  p2p_bootstrap_nodes : list string;
  p2p_enable_mdns : bool
}.

Record Config := mkConfig {
  cfg_chains : list AuxChain;
  cfg_known_chains : list KnownChain;
  cfg_db_path : string;
  cfg_resolver : ResolverConfig;
  cfg_max_batch : Z;
  cfg_start_height : option Z;
  cfg_poll_interval : Z;
  cfg_max_kept_blocks : option Z;
  cfg_retry : RetryConfig;
  cfg_http : HttpConfig;
  cfg_cors_origins : list string;
  cfg_bind_addr : string;
  cfg_p2p : P2pConfig;
  cfg_auth_token : option string;
  cfg_rate_limit_per_min : option Z
}.

(** The TOML file; a missing key is [None], an empty string or [0]. *)
Record ChainEntry := mkChainEntry {
  ce_name : string;
  ce_chain_id : Z;
  ce_electrs_url : string;
  ce_pow_limit_bits : string;
  ce_start_height : option Z
}.
Record KnownChainEntry := mkKnownEntry {
  ke_name : string;
  ke_chain_id : Z;
  ke_electrs_url : string
}.
Record ResolverFile := mkResolverFile {
  rf_base : option string;
  rf_api_key : option string;
  rf_parent_chain : option string;
  rf_fallback_base : option string
}.
Record RetryFile := mkRetryFile {
  tf_max_retries : option Z;
  tf_base_backoff_ms : option Z;
  tf_max_backoff_ms : option Z;
  tf_min_request_interval_ms : option Z
}.
Record HttpFile := mkHttpFile { hf_timeout_secs : option Z; hf_concurrency : option Z }.
Record P2pFile := mkP2pFile {
  pf_port : option Z;
  pf_bind : option string;
  pf_bootstrap_nodes : option string;
  pf_disable_mdns : option bool
}.
Record ConfigFile := mkFile {
  cf_chains : list ChainEntry;
  cf_known_chains : list KnownChainEntry;
  cf_db_path : option string;
  cf_resolver : ResolverFile;
  cf_max_batch : option Z;
  cf_start_height : option Z;
  cf_poll_interval_secs : option Z;
  cf_max_kept_blocks : option Z;
  cf_retry : RetryFile;
  cf_http : HttpFile;
  cf_cors_origins : option string;
  cf_bind_addr : option string;
  cf_auth_token : option string;
  cf_rate_limit_per_min : option Z;
  cf_p2p : P2pFile
}.

Inductive ConfigError :=
  | MissingField (var spec field : string)
  | BadChainId (var spec : string)
  | BadPowLimit (spec : string)
  | BadFilePowLimit (name bits : string)
  | DuplicateChainId (id : Z)
  | DuplicateKnownChainId (id : Z)
  | UnknownParentChain (slug : string)
  | ChainsNotSet
  | NothingToIngest
  | CannotReadFile (path : string)
  | CannotParseFile (path : string).

(** ** Normalisation *)

Definition KNOWN_PARENT_CHAINS : list string := ["litecoin"; "bitcoin"].

(** No character outside ASCII lowercases to a letter of the known slugs, so the
    lower-casing of ASCII decides as [to_lowercase] does. *)
Definition normalize_parent_chain (slug : string) : Result ConfigError string :=
  let norm := string_lower (trim slug) in
  if bool_decide (norm ∈ KNOWN_PARENT_CHAINS) then Ok norm else Err (UnknownParentChain slug).

Definition normalize_chain_name (name : string) (chain_id : Z) : string :=
  let n := trim name in
  if bool_decide (n = EmptyString) then "chain" +:+ pretty chain_id else n.

(** ** Chain specifications *)

(** [raw.split(',').map(trim).filter(non-empty)]. *)
Definition specs (raw : string) : list string :=
  List.filter (λ s, bool_decide (s ≠ EmptyString)) (trim <$> split_on ","%char raw).

(** [parts.next().filter(|s| !s.is_empty())]. *)
Definition nonempty_part (parts : list string) (i : nat) : option string :=
  s ← parts !! i; if bool_decide (s ≠ EmptyString) then Some s else None.

Definition parse_chain_spec (spec : string) : Result ConfigError AuxChain :=
  let parts := splitn 5 "|"%char spec in
  name ← ok_or (nonempty_part parts 0) (MissingField "PSOB_CHAINS" spec "NAME");
  chain_id ← ok_or (parts !! 1%nat) (MissingField "PSOB_CHAINS" spec "CHAIN_ID");
  chain_id ← ok_or (parse_u32 chain_id) (BadChainId "PSOB_CHAINS" spec);
  electrs ← ok_or (nonempty_part parts 2) (MissingField "PSOB_CHAINS" spec "ELECTRS_URL");
  let electrs := trim_end_matches "/"%char electrs in
  pow_limit_raw ← ok_or (nonempty_part parts 3) (MissingField "PSOB_CHAINS" spec "POWLIMIT_BITS_HEX");
  pow_limit_bits ← ok_or (parse_hex_u32 (trim_0x pow_limit_raw)) (BadPowLimit spec);
  let start_height := s ← parts !! 4%nat; parse_u64 s in
  Ok (mkChain chain_id (normalize_chain_name name chain_id) electrs pow_limit_bits start_height).

Fixpoint mapM_config {A B} (f : A → Result ConfigError B) (l : list A) : Result ConfigError (list B) :=
  match l with
  | [] => Ok []
  | x :: l => y ← f x; ys ← mapM_config f l; Ok (y :: ys)
  end.

(** The ids in order against those already seen. *)
Fixpoint check_ids (err : Z → ConfigError) (seen : list Z) (ids : list Z) : Result ConfigError unit :=
  match ids with
  | [] => Ok ()
  | id :: ids => if bool_decide (id ∈ seen) then Err (err id) else check_ids err (id :: seen) ids
  end.
Definition check_unique_chain_ids (chains : list AuxChain) : Result ConfigError unit :=
  check_ids DuplicateChainId [] (ac_chain_id <$> chains).
Definition check_known_chain_ids (chains : list AuxChain) (known : list KnownChain) :
    Result ConfigError unit :=
  check_ids DuplicateKnownChainId (ac_chain_id <$> chains) (kc_chain_id <$> known).

Definition parse_chain_specs (raw : string) : Result ConfigError (list AuxChain) :=
  chains ← mapM_config parse_chain_spec (specs raw);
  _ ← check_unique_chain_ids chains;
  Ok chains.

Definition parse_known_chain_spec (spec : string) : Result ConfigError KnownChain :=
  let parts := splitn 3 "|"%char spec in
  name ← ok_or (nonempty_part parts 0) (MissingField "PSOB_KNOWN_CHAINS" spec "NAME");
  chain_id ← ok_or (parts !! 1%nat) (MissingField "PSOB_KNOWN_CHAINS" spec "CHAIN_ID");
  chain_id ← ok_or (parse_u32 chain_id) (BadChainId "PSOB_KNOWN_CHAINS" spec);
  electrs ← ok_or (nonempty_part parts 2) (MissingField "PSOB_KNOWN_CHAINS" spec "ELECTRS_URL");
  Ok (mkKnown chain_id (normalize_chain_name name chain_id) (trim_end_matches "/"%char electrs)).
Definition parse_known_chain_specs (raw : string) : Result ConfigError (list KnownChain) :=
  mapM_config parse_known_chain_spec (specs raw).

Definition parse_file_known_chains (entries : list KnownChainEntry) : list KnownChain :=
  (λ e, mkKnown (ke_chain_id e) (normalize_chain_name (ke_name e) (ke_chain_id e))
          (trim_end_matches "/"%char (ke_electrs_url e))) <$> entries.

Definition parse_file_chain (e : ChainEntry) : Result ConfigError AuxChain :=
  pow_limit_bits ← ok_or (parse_hex_u32 (trim_0x (ce_pow_limit_bits e)))
                     (BadFilePowLimit (ce_name e) (ce_pow_limit_bits e));
  Ok (mkChain (ce_chain_id e) (normalize_chain_name (ce_name e) (ce_chain_id e))
        (trim_end_matches "/"%char (ce_electrs_url e)) pow_limit_bits (ce_start_height e)).
Definition parse_file_chains (entries : list ChainEntry) : Result ConfigError (list AuxChain) :=
  chains ← mapM_config parse_file_chain entries;
  _ ← check_unique_chain_ids chains;
  Ok chains.

(** ** Environment and file *)

Definition Env : Type := string → option string.

Definition env_var (env : Env) (key : string) : option string :=
  v ← env key; if bool_decide (v ≠ EmptyString) then Some v else None.
Fixpoint env_first (env : Env) (names : list string) : option string :=
  match names with
  | [] => None
  | n :: names => match env_var env n with Some v => Some v | None => env_first env names end
  end.
(** [T] is [u64], [u32], [u16] or [usize], given by its maximum. *)
Definition env_num (max : Z) (env : Env) (key : string) : option Z :=
  v ← env_var env key; parse_uint max v.

Record Files := mkFiles {
  file_exists : string → bool;
  file_read : string → option string;
  toml_parse : string → option ConfigFile
}.
Definition load_file (env : Env) (fs : Files) : Result ConfigError (option ConfigFile) :=
  let path := match env "PSOB_CONFIG" with
              | Some p => Some p
              | None => if file_exists fs "psob-indexer.toml" then Some "psob-indexer.toml"%string else None
              end in
  match path with
  | Some p =>
      if file_exists fs p then
        raw ← ok_or (file_read fs p) (CannotReadFile p);
        cfg ← ok_or (toml_parse fs raw) (CannotParseFile p);
        Ok (Some cfg)
      else Ok None
  | None => Ok None
  end.

(** ** P2P parameters *)

Definition P2pConfig_from_parts (port : option Z) (bind bootstrap_nodes disable_mdns : option string) :
    P2pConfig :=
  mkP2p (default 9000 port) (default "0.0.0.0"%string bind)
    (trim <$> List.filter (λ s, bool_decide (trim s ≠ EmptyString))
                (split_on ","%char (default EmptyString bootstrap_nodes)))
    (match disable_mdns with None => true | Some _ => false end).

(** ** Loading *)

(** [a.or_else(|| b)]. *)
Definition or_else {A} (a b : option A) : option A := match a with Some _ => a | None => b end.
Definition bool_to_string (b : bool) : string := if b then "true" else "false".
Definition positive_num (o : option Z) : option Z := v ← o; if 0 <? v then Some v else None.
Definition nonempty (o : option string) : option string :=
  s ← o; if bool_decide (s ≠ EmptyString) then Some s else None.

Definition load_chains (env : Env) (file : option ConfigFile) : Result ConfigError (list AuxChain) :=
  match env_var env "PSOB_CHAINS" with
  | Some raw => parse_chain_specs raw
  | None => match file with
            | Some f => parse_file_chains (cf_chains f)
            | None => Err ChainsNotSet
            end
  end.
Definition load_known_chains (env : Env) (file : option ConfigFile) :
    Result ConfigError (list KnownChain) :=
  match env_var env "PSOB_KNOWN_CHAINS" with
  | Some raw => parse_known_chain_specs raw
  | None => Ok (default [] ((λ f, parse_file_known_chains (cf_known_chains f)) <$> file))
  end.

Definition load_retry (env : Env) (file : option ConfigFile) : RetryConfig :=
  let max_retries := default 5 (or_else (env_num u32_max env "PSOB_MAX_RETRIES")
                                  (f ← file; tf_max_retries (cf_retry f))) in
  let base_backoff := default 500 (or_else (env_num u64_max env "PSOB_RETRY_BASE_MS")
                                     (f ← file; tf_base_backoff_ms (cf_retry f))) in
  let max_backoff := default 30000 (or_else (env_num u64_max env "PSOB_RETRY_MAX_MS")
                                      (f ← file; tf_max_backoff_ms (cf_retry f))) in
  let min_interval := default 0 (or_else (env_num u64_max env "PSOB_RATE_LIMIT_MS")
                                   (f ← file; tf_min_request_interval_ms (cf_retry f))) in
  mkRetry max_retries base_backoff (Z.max max_backoff base_backoff) min_interval.

Definition load_http (env : Env) (file : option ConfigFile) : HttpConfig :=
  let http_timeout := default 30 (or_else (env_num u64_max env "PSOB_HTTP_TIMEOUT_SECS")
                                    (f ← file; hf_timeout_secs (cf_http f))) in
  let concurrency := default 8 (or_else (env_num usize_max env "PSOB_HTTP_CONCURRENCY")
                                  (f ← file; hf_concurrency (cf_http f))) in
  mkHttp (http_timeout * 1000) (Z.max concurrency 1).

Definition load_cors (env : Env) (file : option ConfigFile) : list string :=
  List.filter (λ s, bool_decide (s ≠ EmptyString))
    (trim <$> split_on ","%char
       (default "*"%string (or_else (env_var env "PSOB_CORS_ORIGINS") (f ← file; cf_cors_origins f)))).

Definition load_bind_addr (env : Env) (file : option ConfigFile) : string :=
  match or_else (env_var env "PSOB_BIND_ADDR") (f ← file; cf_bind_addr f) with
  | Some a => a
  | None => "0.0.0.0:" +:+ default "8080"%string (env_var env "PSOB_PORT")
  end.

Definition load_p2p (env : Env) (file : option ConfigFile) : P2pConfig :=
  P2pConfig_from_parts
    (or_else (env_num u16_max env "PSOB_P2P_PORT") (f ← file; pf_port (cf_p2p f)))
    (or_else (env_var env "PSOB_P2P_BIND") (f ← file; pf_bind (cf_p2p f)))
    (or_else (env_var env "PSOB_BOOTSTRAP_NODES") (f ← file; pf_bootstrap_nodes (cf_p2p f)))
    (or_else (env_var env "PSOB_DISABLE_MDNS")
       (f ← file; bool_to_string <$> pf_disable_mdns (cf_p2p f))).

Definition load_resolver (env : Env) (file : option ConfigFile) : Result ConfigError ResolverConfig :=
  let base := default "https://litecoinspace.org/api"%string
                (or_else (env_first env ["PSOB_PARENT_ELECTRS"; "PSOB_CCNODES_BASE"])
                   (f ← file; rf_base (cf_resolver f))) in
  let key := default EmptyString
               (or_else (env_first env ["PSOB_PARENT_API_KEY"; "CCNODES_API_KEY"])
                  (f ← file; rf_api_key (cf_resolver f))) in
  let parent_chain := default "litecoin"%string
                        (or_else (env_var env "PSOB_PARENT_CHAIN")
                           (f ← file; rf_parent_chain (cf_resolver f))) in
  parent_chain ← normalize_parent_chain parent_chain;
  let fallback_base :=
    nonempty (or_else (env_first env ["PSOB_PARENT_ELECTRS_FALLBACK"; "PSOB_CCNODES_FALLBACK_BASE"])
                (f ← file; rf_fallback_base (cf_resolver f))) in
  Ok (mkResolver base key parent_chain fallback_base).

Definition load_from (env : Env) (file : option ConfigFile) : Result ConfigError Config :=
  chains ← load_chains env file;
  if bool_decide (chains = []) then Err NothingToIngest else
  known_chains ← load_known_chains env file;
  _ ← check_known_chain_ids chains known_chains;
  let db_path := default "psob-indexer.redb"%string
                   (or_else (env_var env "PSOB_DB_PATH") (f ← file; cf_db_path f)) in
  resolver ← load_resolver env file;
  let max_batch := default 64 (or_else (env_num u64_max env "PSOB_MAX_BATCH") (f ← file; cf_max_batch f)) in
  let start_height := or_else (env_num u64_max env "PSOB_START_HEIGHT") (f ← file; cf_start_height f) in
  let poll_interval := default 30 (or_else (env_num u64_max env "PSOB_POLL_INTERVAL_SECS")
                                     (f ← file; cf_poll_interval_secs f)) in
  let max_kept_blocks := positive_num (or_else (env_num u64_max env "PSOB_MAX_KEPT_BLOCKS")
                                         (f ← file; cf_max_kept_blocks f)) in
  let auth_token := nonempty (or_else (env_var env "PSOB_AUTH_TOKEN") (f ← file; cf_auth_token f)) in
  let rate_limit_per_min := positive_num (or_else (env_num u32_max env "PSOB_RATE_LIMIT_PER_MIN")
                                            (f ← file; cf_rate_limit_per_min f)) in
  Ok (mkConfig chains known_chains db_path resolver (Z.max max_batch 1) start_height
        (Z.max poll_interval 1 * 1000) max_kept_blocks (load_retry env file) (load_http env file)
        (load_cors env file) (load_bind_addr env file) (load_p2p env file) auth_token
        rate_limit_per_min).

Definition load (env : Env) (fs : Files) : Result ConfigError Config :=
  file ← load_file env fs;
  load_from env file.
