(* ===== verification/ConfigThm.v ===== *)
(** * Configuration: theorems

    A configuration that loads satisfies what the rest of the indexer relies on
    ([config_ok]); a printed chain list is read back; a malformed number is
    ignored; and what turns mDNS off. *)

From S2P Require Export Config.

#[local] Open Scope Z_scope.

(** ** What loading guarantees *)

Record chain_ok (c : AuxChain) : Prop := {
  ch_id : is_u32 (ac_chain_id c);
  ch_bits : is_u32 (ac_pow_limit_bits c);
  ch_name : ac_name c ≠ EmptyString;
  ch_start : ∀ h, ac_start_height c = Some h → is_u64 h
}.

(** The integers are in the ranges of their types; a duration is in milliseconds, and
    was read in milliseconds or in seconds. *)
Record config_ok (cfg : Config) : Prop := {
  ok_chains : cfg_chains cfg ≠ [];
  ok_chain : Forall chain_ok (cfg_chains cfg);
  ok_known : Forall (λ k, is_u32 (kc_chain_id k) ∧ kc_name k ≠ EmptyString) (cfg_known_chains cfg);
  ok_ids : NoDup ((ac_chain_id <$> cfg_chains cfg) ++ (kc_chain_id <$> cfg_known_chains cfg));
  ok_batch : 1 ≤ cfg_max_batch cfg ≤ u64_max;
  ok_start : ∀ h, cfg_start_height cfg = Some h → is_u64 h;
  ok_kept : ∀ m, cfg_max_kept_blocks cfg = Some m → 1 ≤ m ≤ u64_max;
  ok_poll : 1000 ≤ cfg_poll_interval cfg ≤ u64_max * 1000;
  ok_backoff : 0 ≤ rt_base_backoff (cfg_retry cfg) ≤ rt_max_backoff (cfg_retry cfg);
  ok_backoff_cap : rt_max_backoff (cfg_retry cfg) ≤ u64_max;
  ok_retries : is_u32 (rt_max_retries (cfg_retry cfg));
  ok_interval : is_u64 (rt_min_request_interval (cfg_retry cfg));
  ok_timeout : 0 ≤ hc_timeout (cfg_http cfg) ≤ u64_max * 1000;
  ok_concurrency : 1 ≤ hc_concurrency (cfg_http cfg) ≤ usize_max;
  ok_slug : rc_chain_slug (cfg_resolver cfg) ∈ KNOWN_PARENT_CHAINS;
  ok_rate : ∀ n, cfg_rate_limit_per_min cfg = Some n → 1 ≤ n ≤ u32_max;
  ok_port : 0 ≤ p2p_port (cfg_p2p cfg) ≤ u16_max;
  ok_token : cfg_auth_token cfg ≠ Some EmptyString
}.

(** The integers of a deserialized file are in the ranges of their types, each given by
    its maximum. *)
Definition in_width (max : Z) (o : option Z) : Prop := ∀ v, o = Some v → 0 ≤ v ≤ max.
Record file_typed (f : ConfigFile) : Prop := {
  ft_chains : Forall (λ e, is_u32 (ce_chain_id e) ∧ in_width u64_max (ce_start_height e)) (cf_chains f);
  ft_known : Forall (λ e, is_u32 (ke_chain_id e)) (cf_known_chains f);
  ft_max_batch : in_width u64_max (cf_max_batch f);
  ft_start_height : in_width u64_max (cf_start_height f);
  ft_poll : in_width u64_max (cf_poll_interval_secs f);
  ft_kept : in_width u64_max (cf_max_kept_blocks f);
  ft_retries : in_width u32_max (tf_max_retries (cf_retry f));
  ft_base : in_width u64_max (tf_base_backoff_ms (cf_retry f));
  ft_max : in_width u64_max (tf_max_backoff_ms (cf_retry f));
  ft_interval : in_width u64_max (tf_min_request_interval_ms (cf_retry f));
  ft_timeout : in_width u64_max (hf_timeout_secs (cf_http f));
  ft_concurrency : in_width usize_max (hf_concurrency (cf_http f));
  ft_rate : in_width u32_max (cf_rate_limit_per_min f);
  ft_port : in_width u16_max (pf_port (cf_p2p f))
}.

Lemma check_ids_spec err seen ids :
  check_ids err seen ids = Ok () ↔ NoDup ids ∧ ∀ x, x ∈ ids → x ∉ seen.
Proof.
  revert seen. induction ids as [|x ids IH]; intros seen; cbn.
  { split; [intros _; split; [constructor|set_solver]|done]. }
  case_bool_decide as Hx.
  - split; [done|]. intros [_ Hall]. by destruct (Hall x (list_elem_of_here _ _)).
  - rewrite IH, NoDup_cons. split.
    + intros [Hnd Hall]. split_and!; [|done|].
      * intros Hin. by apply (Hall x Hin), list_elem_of_here.
      * intros y [->|Hy]%elem_of_cons; [done|]. intros Hs. by apply (Hall y Hy), list_elem_of_further.
    + intros [[Hnin Hnd] Hall]. split; [done|]. intros y Hy [->|Hs]%elem_of_cons; [done|].
      by apply (Hall y (list_elem_of_further _ _ _ Hy)).
Qed.

Lemma mapM_config_Forall2 {A B} (f : A → Result ConfigError B) l k :
  mapM_config f l = Ok k → Forall2 (λ x y, f x = Ok y) l k.
Proof.
  revert k. induction l as [|x l IH]; intros k; cbn; [by intros [= <-]|].
  intros (y & Hy & (ys & Hys & [= <-])%bind_Ok)%bind_Ok. constructor; [done|by apply IH].
Qed.

Lemma string_app_nil_inv a b : a +:+ b = EmptyString → a = EmptyString.
Proof. by destruct a. Qed.

Lemma normalize_chain_name_nonempty name id : normalize_chain_name name id ≠ EmptyString.
Proof. unfold normalize_chain_name. case_bool_decide; [|done]. intros Heq%string_app_nil_inv. done. Qed.

Lemma nibble_nonneg c d : nibble c = Some d → 0 ≤ d.
Proof.
  unfold nibble. cbv zeta. generalize (Z.of_N (N_of_ascii c)). intros n Hd.
  repeat (case_match; reflect_bools; simplify_eq; try lia).
Qed.

Lemma parse_hex_u32_range s v : parse_hex_u32 s = Some v → is_u32 v.
Proof.
  unfold parse_hex_u32.
  assert (∀ t acc v, 0 ≤ acc → parse_nibbles acc t = Some v → 0 ≤ v) as Hpos.
  { induction t as [|c t IH]; intros acc w Hacc; cbn; [by intros [= <-]|].
    intros (d & Hd & Hw)%bind_Some. assert (0 ≤ d).
    { by apply nibble_nonneg in Hd. }
    by apply IH in Hw; [|lia]. }
  set (t := match s with EmptyString => s | _ => _ end). destruct t as [|c t']; [done|].
  intros (w & Hw%Hpos & Hle)%bind_Some; [|lia].
  destruct (w <=? u32_max) eqn:E; reflect_bools; [|done]. injection Hle as <-. unfold is_u32. lia.
Qed.

Lemma parse_u64_range s v : parse_u64 s = Some v → is_u64 v.
Proof. intros Hv. apply parse_uint_range in Hv; [done|]. unfold u64_max. lia. Qed.

Lemma parse_chain_spec_ok spec c : parse_chain_spec spec = Ok c → chain_ok c.
Proof.
  unfold parse_chain_spec. intros (name & _ & H1)%bind_Ok. apply bind_Ok in H1 as (id0 & _ & H1).
  apply bind_Ok in H1 as (id & Hid%ok_or_Ok & H1). apply bind_Ok in H1 as (url & _ & H1).
  apply bind_Ok in H1 as (raw & _ & H1). apply bind_Ok in H1 as (bits & Hb%ok_or_Ok & [= <-]). split; cbn.
  - apply parse_uint_range in Hid; [done|]. unfold u32_max. lia.
  - by eapply parse_hex_u32_range.
  - apply normalize_chain_name_nonempty.
  - intros h (s & _ & Hh)%bind_Some. by eapply parse_u64_range.
Qed.

Lemma parse_file_chain_ok e c :
  is_u32 (ce_chain_id e) ∧ in_width u64_max (ce_start_height e) → parse_file_chain e = Ok c → chain_ok c.
Proof.
  intros [Hid Hs]. unfold parse_file_chain. intros (bits & Hb%ok_or_Ok & [= <-])%bind_Ok. split; cbn.
  - done.
  - by eapply parse_hex_u32_range.
  - apply normalize_chain_name_nonempty.
  - exact Hs.
Qed.

Lemma load_chains_ok env file chains :
  (∀ f, file = Some f → file_typed f) → load_chains env file = Ok chains →
  Forall chain_ok chains ∧ NoDup (ac_chain_id <$> chains).
Proof.
  intros Hf. unfold load_chains.
  assert (∀ (A : Type) (f : A → Result ConfigError AuxChain) l cs, (∀ x c, x ∈ l → f x = Ok c → chain_ok c) →
    (c ← mapM_config f l; _ ← check_unique_chain_ids c; Ok c) = Ok cs →
    Forall chain_ok cs ∧ NoDup (ac_chain_id <$> cs)) as Hgen.
  { intros A f l cs Hok (c & Hc%mapM_config_Forall2 & (u & Hu & [= <-])%bind_Ok)%bind_Ok. destruct u.
    apply check_ids_spec in Hu as [Hnd _]. split; [|done].
    apply Forall_forall. intros y Hy. apply list_elem_of_lookup in Hy as [n Hn].
    destruct (Forall2_lookup_r _ _ _ _ _ Hc Hn) as (x & Hx & Hxy).
    by eapply Hok; [eapply list_elem_of_lookup_2|]. }
  destruct (env_var env "PSOB_CHAINS") as [raw|].
  - apply Hgen. intros x c _. apply parse_chain_spec_ok.
  - destruct file as [f|]; [|done]. apply Hgen. intros x c Hx.
    apply parse_file_chain_ok. pose proof (ft_chains _ (Hf f eq_refl)) as Hch.
    rewrite Forall_forall in Hch. by apply Hch.
Qed.

Lemma parse_known_chain_spec_ok spec k :
  parse_known_chain_spec spec = Ok k → is_u32 (kc_chain_id k) ∧ kc_name k ≠ EmptyString.
Proof.
  unfold parse_known_chain_spec. intros (name & _ & H1)%bind_Ok. apply bind_Ok in H1 as (id0 & _ & H1).
  apply bind_Ok in H1 as (id & Hid%ok_or_Ok & H1). apply bind_Ok in H1 as (url & _ & [= <-]). cbn.
  split; [|apply normalize_chain_name_nonempty]. apply parse_uint_range in Hid; [done|]. unfold u32_max. lia.
Qed.
Lemma load_known_ok env file known :
  (∀ f, file = Some f → file_typed f) → load_known_chains env file = Ok known →
  Forall (λ k, is_u32 (kc_chain_id k) ∧ kc_name k ≠ EmptyString) known.
Proof.
  intros Hf. unfold load_known_chains. destruct (env_var env "PSOB_KNOWN_CHAINS") as [raw|].
  - intros Hk%mapM_config_Forall2. apply Forall_forall. intros k Hin. apply list_elem_of_lookup in Hin as [n Hn].
    destruct (Forall2_lookup_r _ _ _ _ _ Hk Hn) as (spec & _ & Hs). by eapply parse_known_chain_spec_ok.
  - intros [= <-]. destruct file as [f|]; [|constructor]. cbn. unfold parse_file_known_chains. apply Forall_fmap.
    eapply Forall_impl; [apply (ft_known _ (Hf f eq_refl))|]. intros e He. cbn. split; [done|apply normalize_chain_name_nonempty].
Qed.

(** A number of the environment, else of the file, else a default. *)
Lemma env_num_within max env k : 0 ≤ max → in_width max (env_num max env k).
Proof. intros Hm v (s & _ & Hv)%bind_Some. by apply parse_uint_range in Hv. Qed.
Lemma setting_within max env k (file : option ConfigFile) (g : ConfigFile → option Z) :
  0 ≤ max → (∀ f, file = Some f → in_width max (g f)) → in_width max (or_else (env_num max env k) (f ← file; g f)).
Proof.
  intros Hm Hg. pose proof (env_num_within max env k Hm) as He. destruct (env_num max env k) as [v|]; [exact He|].
  cbn. destruct file as [f|]; [|done]. by apply Hg.
Qed.
Lemma default_within max d o : 0 ≤ d ≤ max → in_width max o → 0 ≤ default d o ≤ max.
Proof. intros Hd Ho. destruct o as [v|]; [by apply Ho|done]. Qed.
Lemma positive_within max o n : in_width max o → positive_num o = Some n → 1 ≤ n ≤ max.
Proof.
  intros Ho. unfold positive_num. intros (v & Hv & Hn)%bind_Some. apply Ho in Hv.
  destruct (0 <? v) eqn:?; [|done]. injection Hn as <-. reflect_bools. lia.
Qed.

Lemma load_from_ok env file cfg :
  (∀ f, file = Some f → file_typed f) → load_from env file = Ok cfg → config_ok cfg.
Proof.
  intros Hf. unfold load_from.
  intros (chains & Hch & H1)%bind_Ok. destruct (load_chains_ok _ _ _ Hf Hch) as [Hok Hnd].
  case_bool_decide as Hne; [done|]. apply bind_Ok in H1 as (known & Hkn%load_known_ok & H1); [|done].
  apply bind_Ok in H1 as (u & Hu & H1). destruct u. apply check_ids_spec in Hu as [Hnk Hdis].
  apply bind_Ok in H1 as (resolver & Hres & [= <-]).
  assert (∀ max d k (g : ConfigFile → option Z), 0 ≤ d ≤ max → (∀ f, file_typed f → in_width max (g f)) →
    0 ≤ default d (or_else (env_num max env k) (f ← file; g f)) ≤ max) as Hnum.
  { intros max d k g Hd Hg. apply default_within; [done|]. apply setting_within; [lia|]. intros f Hff. by apply Hg, Hf. }
  assert (∀ n, 0 ≤ n ≤ 9000 → n ≤ u16_max ∧ n ≤ u32_max ∧ n ≤ u64_max) as Hsmall
    by (intros; unfold u16_max, u32_max, u64_max; lia).
  assert (30000 ≤ u64_max ∧ 30000 ≤ usize_max) by (unfold usize_max, u64_max; lia).
  split; cbn [cfg_chains cfg_known_chains cfg_max_batch cfg_start_height cfg_max_kept_blocks cfg_poll_interval
              cfg_retry cfg_http cfg_resolver cfg_rate_limit_per_min cfg_auth_token cfg_p2p].
  - done.
  - done.
  - done.
  - apply NoDup_app. split_and!; [done| |done]. intros x Hx Hk. by apply (Hdis x Hk).
  - pose proof (Hnum u64_max 64 "PSOB_MAX_BATCH"%string cf_max_batch ltac:(split; [lia|by apply Hsmall]) ft_max_batch). lia.
  - apply setting_within; [lia|]. intros f Hff. by apply ft_start_height, Hf.
  - intros m. apply positive_within, setting_within; [lia|]. intros f Hff. by apply ft_kept, Hf.
  - pose proof (Hnum u64_max 30 "PSOB_POLL_INTERVAL_SECS"%string cf_poll_interval_secs
                  ltac:(split; [lia|by apply Hsmall]) ft_poll). lia.
  - unfold load_retry. cbn. pose proof (Hnum u64_max 500 "PSOB_RETRY_BASE_MS"%string
      (λ f, tf_base_backoff_ms (cf_retry f)) ltac:(split; [lia|by apply Hsmall]) ft_base). lia.
  - unfold load_retry. cbn. pose proof (Hnum u64_max 500 "PSOB_RETRY_BASE_MS"%string
      (λ f, tf_base_backoff_ms (cf_retry f)) ltac:(split; [lia|by apply Hsmall]) ft_base).
    pose proof (Hnum u64_max 30000 "PSOB_RETRY_MAX_MS"%string
      (λ f, tf_max_backoff_ms (cf_retry f)) ltac:(lia) ft_max). lia.
  - apply (Hnum u32_max 5 "PSOB_MAX_RETRIES"%string (λ f, tf_max_retries (cf_retry f)));
      [split; [lia|by apply Hsmall]|apply ft_retries].
  - apply (Hnum u64_max 0 "PSOB_RATE_LIMIT_MS"%string (λ f, tf_min_request_interval_ms (cf_retry f)));
      [split; [lia|by apply Hsmall]|apply ft_interval].
  - unfold load_http. cbn. pose proof (Hnum u64_max 30 "PSOB_HTTP_TIMEOUT_SECS"%string
      (λ f, hf_timeout_secs (cf_http f)) ltac:(split; [lia|by apply Hsmall]) ft_timeout). lia.
  - unfold load_http. cbn. pose proof (Hnum usize_max 8 "PSOB_HTTP_CONCURRENCY"%string
      (λ f, hf_concurrency (cf_http f)) ltac:(split; [lia|by apply Hsmall]) ft_concurrency). lia.
  - unfold load_resolver in Hres. apply bind_Ok in Hres as (slug & Hs & [= <-]). cbn.
    unfold normalize_parent_chain in Hs. case_bool_decide; [|done]. by injection Hs as <-.
  - intros n. apply positive_within, setting_within; [by apply (Hsmall 0)|]. intros f Hff. by apply ft_rate, Hf.
  - unfold load_p2p, P2pConfig_from_parts. cbn. apply (Hnum u16_max 9000 "PSOB_P2P_PORT"%string (λ f, pf_port (cf_p2p f)));
      [split; [lia|by apply Hsmall]|apply ft_port].
  - unfold nonempty. intros (v & _ & Hv)%bind_Some. case_bool_decide; [|done]. congruence.
Qed.

(** ** Printing a chain list *)

Definition render_chain (c : AuxChain) : string :=
  ac_name c +:+ String "|" (pretty (ac_chain_id c) +:+ String "|" (ac_electrs c +:+ String "|"
    (String "0" (String "x" (fmt_08x (ac_pow_limit_bits c))) +:+
     match ac_start_height c with Some h => String "|" (pretty h) | None => EmptyString end))).
Fixpoint render_chains (cs : list AuxChain) : string :=
  match cs with
  | [] => EmptyString
  | [c] => render_chain c
  | c :: cs => render_chain c +:+ String "," (render_chains cs)
  end.

(** A field that needs no escaping: printable ASCII without the separators. *)
Definition field_char (c : ascii) : Prop := graphic c ∧ c ≠ ","%char ∧ c ≠ "|"%char.
Record printable (c : AuxChain) : Prop := {
  pr_ok : chain_ok c;
  pr_name : all_chars field_char (ac_name c);
  pr_url : all_chars field_char (ac_electrs c) ∧ ac_electrs c ≠ EmptyString ∧
           trim_end_matches "/"%char (ac_electrs c) = ac_electrs c
}.

Lemma digit_field n : 0 ≤ n → all_chars field_char (pretty n).
Proof.
  intros Hn. eapply all_chars_impl; [|by apply pretty_digits].
  intros c [d Hd]. unfold digit_value in Hd. destruct (_ && _) eqn:E; [|done]. reflect_bools.
  unfold field_char, graphic, code. split_and!; [lia|lia|intros ->..]; cbn in *; lia.
Qed.

Lemma hex_field n : all_chars field_char (fmt_08x n).
Proof.
  apply fmt_08x_chars. intros d Hd. destruct (hex_digit_graphic d Hd) as (Hg & _ & Hc & Hp & _).
  split_and!; [done|intros Heq; by rewrite Heq in Hc|intros Heq; by rewrite Heq in Hp].
Qed.

Definition spec_char (c : ascii) : Prop := graphic c ∧ c ≠ ","%char.

Lemma field_spec s : all_chars field_char s → all_chars spec_char s.
Proof. apply all_chars_impl. intros c (? & ? & _). done. Qed.
Lemma field_nobar s : all_chars field_char s → all_chars (.≠ "|"%char) s.
Proof. apply all_chars_impl. intros c (_ & _ & ?). done. Qed.

Lemma spec_bar : spec_char "|"%char.
Proof. split; [by vm_compute|done]. Qed.

Lemma render_chain_chars c : printable c → all_chars spec_char (render_chain c).
Proof.
  intros [[[Hid _] _ _ Hs] Hn [Hu _]]. unfold render_chain.
  apply all_chars_app. split; [by apply field_spec|]. split; [apply spec_bar|].
  apply all_chars_app. split; [by apply field_spec, digit_field|]. split; [apply spec_bar|].
  apply all_chars_app. split; [by apply field_spec|]. split; [apply spec_bar|].
  apply all_chars_app. split.
  - split; [split; [by vm_compute|done]|]. split; [split; [by vm_compute|done]|]. by apply field_spec, hex_field.
  - destruct (ac_start_height c) as [h|] eqn:Hh; [|done]. split; [apply spec_bar|].
    destruct (Hs h eq_refl). by apply field_spec, digit_field.
Qed.

Lemma trim_name s : all_chars field_char s → trim s = s.
Proof. intros Hs. apply trim_graphic. eapply all_chars_impl; [|exact Hs]. by intros c [? _]. Qed.

Lemma trim_0x_fmt n : trim_0x (String "0" (String "x" (fmt_08x n))) = fmt_08x n.
Proof.
  change (trim_0x (fmt_08x n) = fmt_08x n). rewrite fmt_08x_digits.
  pose proof (hex_digits_range n) as Hr. destruct (hex_digits n) as [|d1 [|d2 ds]]; [done|..].
  - cbn. by destruct (hex_digit d1) as [[] [] [] [] [] [] [] []].
  - apply Forall_cons in Hr as [_ [H2 _]%Forall_cons]. cbn.
    destruct (hex_digit_graphic d2 H2) as (_ & _ & _ & _ & Hx).
    destruct (hex_digit d1) as [[] [] [] [] [] [] [] []]; try done.
    by destruct (hex_digit d2) as [[] [] [] [] [] [] [] []].
Qed.

Lemma parse_render_chain c : printable c → parse_chain_spec (render_chain c) = Ok c.
Proof.
  intros [[Hid Hb Hne Hs] Hn (Hu & Hune & Htrim)]. unfold parse_chain_spec, render_chain.
  pose proof (field_nobar _ Hn) as Hn'. pose proof (field_nobar _ Hu) as Hu'.
  pose proof (field_nobar _ (digit_field _ (proj1 Hid))) as Hd'.
  set (hex := String "0" (String "x" (fmt_08x (ac_pow_limit_bits c)))).
  assert (all_chars (.≠ "|"%char) hex) as Hx'.
  { split; [done|]. split; [done|]. apply field_nobar, hex_field. }
  assert (splitn 5 "|"%char (ac_name c +:+ String "|" (pretty (ac_chain_id c) +:+ String "|" (ac_electrs c +:+
            String "|" (hex +:+ match ac_start_height c with Some h => String "|" (pretty h) | None => EmptyString end))))
          = [ac_name c; pretty (ac_chain_id c); ac_electrs c; hex] ++ option_list (pretty <$> ac_start_height c)) as ->.
  { cbn [splitn]. rewrite split_once_app, split_once_app, split_once_app by done.
    destruct (ac_start_height c) as [h|] eqn:Hh; cbn [fmap option_fmap option_map option_list app].
    - by rewrite split_once_app.
    - assert (hex +:+ EmptyString = hex) as ->.
      { unfold hex. generalize (fmt_08x (ac_pow_limit_bits c)). intros t.
        assert (t +:+ EmptyString = t) as Ht; [|exact (f_equal (λ t, String "0" (String "x" t)) Ht)].
        induction t as [|x t IH]; [done|]. exact (f_equal (String x) IH). }
      by rewrite split_once_none. }
  unfold nonempty_part. cbn [lookup list_lookup app mbind option_bind].
  rewrite !bool_decide_true by done. cbn [ok_or mbind Result_bind].
  assert (parse_u32 (pretty (ac_chain_id c)) = Some (ac_chain_id c)) as -> by (by apply parse_pretty).
  cbn [ok_or mbind Result_bind]. assert (trim_0x hex = fmt_08x (ac_pow_limit_bits c)) as -> by apply trim_0x_fmt.
  rewrite parse_hex_fmt by done. cbn [ok_or mbind Result_bind]. f_equal.
  assert (normalize_chain_name (ac_name c) (ac_chain_id c) = ac_name c) as ->.
  { unfold normalize_chain_name. rewrite trim_name by done. by rewrite bool_decide_false. }
  rewrite Htrim.
  destruct c as [id name url bits start]. cbn in *. f_equal.
  destruct start as [h|]; [|done]. cbn. apply parse_pretty. by apply Hs.
Qed.

Lemma specs_render cs :
  Forall printable cs → specs (render_chains cs) = render_chain <$> cs.
Proof.
  assert (∀ c, printable c → trim (render_chain c) = render_chain c ∧ render_chain c ≠ EmptyString ∧
            all_chars (.≠ ","%char) (render_chain c)) as Hc.
  { intros c Hp. pose proof (render_chain_chars c Hp) as Hch. split_and!.
    - apply trim_graphic. eapply all_chars_impl; [|exact Hch]. by intros a [? _].
    - unfold render_chain. intros Heq%string_app_nil_inv. by destruct (ch_name _ (pr_ok _ Hp)).
    - eapply all_chars_impl; [|exact Hch]. by intros a [_ ?]. }
  intros Hcs. induction Hcs as [|c cs Hp Hcs IH]; [done|]. destruct (Hc c Hp) as (Ht & Hne & Hcomma).
  cbn [render_chains]. destruct cs as [|c' cs'].
  - unfold specs. rewrite split_on_one by done. cbn. by rewrite Ht, bool_decide_true.
  - unfold specs in *. rewrite split_on_app by done. cbn [fmap list_fmap List.filter].
    rewrite Ht, bool_decide_true by done. f_equal. exact IH.
Qed.

(** The pow limit of a configured chain id. *)
Definition limits_of (cfg : Config) (cid : Z) : option Z :=
  ac_pow_limit_bits <$> List.find (λ c, ac_chain_id c =? cid) (cfg_chains cfg).

Lemma limits_of_chain cfg chain :
  config_ok cfg → chain ∈ cfg_chains cfg →
  limits_of cfg (ac_chain_id chain) = Some (ac_pow_limit_bits chain).
Proof.
  intros Hok Hin. pose proof (ok_ids _ Hok) as [Hnd _]%NoDup_app. unfold limits_of.
  induction (cfg_chains cfg) as [|c cs IH]; [by apply elem_of_nil in Hin|]. cbn in *.
  apply NoDup_cons in Hnd as [Hnin Hnd]. destruct (ac_chain_id c =? ac_chain_id chain) eqn:Heq; reflect_bools.
  - apply elem_of_cons in Hin as [->|Hin]; [done|]. destruct Hnin. rewrite Heq.
    apply list_elem_of_fmap. by exists chain.
  - apply elem_of_cons in Hin as [->|Hin]; [done|]. by apply IH.
Qed.

(** ** Properties *)

(** C30: a loaded configuration.  When the TOML reader gives the fields of a file values of
    their types and [load] succeeds, there is at least one
    chain; the ids of the ingested and of the registered chains are 32-bit and
    pairwise different; every integer is in the range of its type (the retries and
    the rate limit 32 bits, the port of the mesh 16, the concurrency a [usize], the
    heights, batches, windows and milliseconds 64, a duration read in seconds 64 bits
    of seconds); batches, polls and the concurrency are positive, the backoff cap is
    at least the base, the window and the rate limit, when there are any, are
    positive; and the parent chain is a known one. *)
Theorem load_correct (env : Env) (fs : Files) (cfg : Config)
    (Hfs : ∀ raw f, toml_parse fs raw = Some f → file_typed f) (Hload : load env fs = Ok cfg) :
  config_ok cfg.
Proof.
  unfold load in Hload. apply bind_Ok in Hload as (file & Hfile & Hl).
  eapply load_from_ok; [|exact Hl]. intros f ->. unfold load_file in Hfile.
  destruct (match env "PSOB_CONFIG"%string with Some p => _ | None => _ end) as [p|]; [|done].
  destruct (file_exists fs p); [|done]. apply bind_Ok in Hfile as (raw & _ & Hf).
  apply bind_Ok in Hf as (f' & Hf'%ok_or_Ok & [= <-]). by eapply Hfs.
Qed.

(** Chain lists are read back.  The canonical text of a list of chains with
    distinct ids, whose names and URLs are printable without separators, parses
    to exactly that list. *)
Theorem parse_chain_specs_roundtrip (cs : list AuxChain) (Hp : Forall printable cs)
    (Hnd : NoDup (ac_chain_id <$> cs)) :
  parse_chain_specs (render_chains cs) = Ok cs.
Proof.
  unfold parse_chain_specs. rewrite specs_render by done.
  assert (mapM_config parse_chain_spec (render_chain <$> cs) = Ok cs) as ->.
  { clear Hnd. induction Hp as [|c cs Hc Hcs IH]; [done|]. cbn. rewrite parse_render_chain by done. cbn.
    change (list_fmap AuxChain string render_chain cs) with (render_chain <$> cs). by rewrite IH. }
  cbn [mbind Result_bind]. assert (check_unique_chain_ids cs = Ok ()) as ->; [|done].
  apply check_ids_spec. split; [done|set_solver].
Qed.

(** The numeric variables, with the maximum of their type. *)
Definition numeric_vars : list (string * Z) :=
  [("PSOB_MAX_BATCH", u64_max); ("PSOB_START_HEIGHT", u64_max); ("PSOB_POLL_INTERVAL_SECS", u64_max);
   ("PSOB_MAX_KEPT_BLOCKS", u64_max); ("PSOB_MAX_RETRIES", u32_max); ("PSOB_RETRY_BASE_MS", u64_max);
   ("PSOB_RETRY_MAX_MS", u64_max); ("PSOB_RATE_LIMIT_MS", u64_max); ("PSOB_HTTP_TIMEOUT_SECS", u64_max);
   ("PSOB_HTTP_CONCURRENCY", usize_max); ("PSOB_RATE_LIMIT_PER_MIN", u32_max); ("PSOB_P2P_PORT", u16_max)]%string.

Definition unset (key : string) (env : Env) : Env := λ k, if decide (k = key) then None else env k.

Lemma unset_other key k env : k ≠ key → env_var (unset key env) k = env_var env k.
Proof. intros Hne. unfold env_var, unset. by rewrite decide_False. Qed.
Lemma unset_self max key env v :
  env key = Some v → parse_uint max v = None → env_num max (unset key env) key = env_num max env key.
Proof.
  intros Hv Hp. unfold env_num, env_var, unset. rewrite decide_True, Hv by done. cbn.
  by case_bool_decide.
Qed.

(** Malformed numbers.  A numeric variable whose value does not parse as its
    type is ignored: the result of [load], an error or a configuration, is the
    one without the variable. *)
Theorem load_ignores_malformed_numbers (env : Env) (fs : Files) (key v : string) (max : Z)
    (Hkey : (key, max) ∈ numeric_vars) (Hv : env key = Some v) (Hbad : parse_uint max v = None) :
  load env fs = load (unset key env) fs.
Proof.
  pose proof (unset_self max key env v Hv Hbad) as Hself.
  assert (∀ m k, k ≠ key → env_num m (unset key env) k = env_num m env k) as Hnum.
  { intros m k Hne. unfold env_num. by rewrite unset_other. }
  assert (∀ k, k ≠ key → env_var (unset key env) k = env_var env k) as Hvar by (intros; by apply unset_other).
  assert (load_file (unset key env) fs = load_file env fs) as Hfile.
  { unfold load_file, unset. rewrite decide_False; [done|]. intros <-.
    unfold numeric_vars in Hkey. set_unfold in Hkey. intuition congruence. }
  unfold load. rewrite Hfile. destruct (load_file env fs) as [file|e]; [cbn|done].
  unfold numeric_vars in Hkey. rewrite !elem_of_cons, elem_of_nil in Hkey.
  destruct_or! Hkey; try done; injection Hkey as -> ->;
    unfold load_from, load_chains, load_known_chains, load_retry, load_http, load_cors, load_bind_addr,
      load_p2p, load_resolver, env_first;
    rewrite ?Hself;
    repeat (rewrite Hnum by discriminate || rewrite Hvar by discriminate); reflexivity.
Qed.

(** MDNS.  Discovery is on exactly when neither the variable nor the file key
    is present: [PSOB_DISABLE_MDNS=false] and [disable_mdns = false] turn it off. *)
Theorem mdns_enabled_iff_unset (env : Env) (file : option ConfigFile) :
  p2p_enable_mdns (load_p2p env file) = true ↔
  env_var env "PSOB_DISABLE_MDNS" = None ∧ ∀ f, file = Some f → pf_disable_mdns (cf_p2p f) = None.
Proof.
  unfold load_p2p, P2pConfig_from_parts. cbn.
  destruct (env_var env "PSOB_DISABLE_MDNS"%string) as [v|]; cbn; [by split; [|intros [? _]]|].
  destruct file as [f|]; cbn; [|by split].
  destruct (pf_disable_mdns (cf_p2p f)) as [b|] eqn:Hb; cbn.
  - split; [done|]. intros [_ Hall]. specialize (Hall f eq_refl). congruence.
  - split; [|done]. intros _. split; [done|]. by intros ? [= <-].
Qed.

(** ** The theorems at concrete inputs *)

Definition sample_env : Env := λ k,
  if decide (k = "PSOB_CHAINS"%string) then Some "dingo|8224|http://node/|0x1e0fffff|0"%string
  else if decide (k = "PSOB_MAX_BATCH"%string) then Some "1"%string
  else if decide (k = "PSOB_MAX_KEPT_BLOCKS"%string) then Some "100"%string
  else if decide (k = "PSOB_MAX_RETRIES"%string) then Some "many"%string else None.
Definition no_files : Files := mkFiles (λ _, false) (λ _, None) (λ _, None).
Definition sample_chain_cfg : AuxChain := mkChain 8224 "dingo" "http://node" 0x1e0fffff (Some 0).
Definition sample_cfg : Config :=
  mkConfig [sample_chain_cfg] [] "psob-indexer.redb"
    (mkResolver "https://litecoinspace.org/api" "" "litecoin" None) 1 None 30000 (Some 100)
    (mkRetry 5 500 30000 0) (mkHttp 30000 8) ["*"%string] "0.0.0.0:8080"
    (mkP2p 9000 "0.0.0.0" [] true) None None.

Lemma sample_load : load sample_env no_files = Ok sample_cfg.
Proof. vm_compute. reflexivity. Qed.

Lemma load_correct_witness : load sample_env no_files = Ok sample_cfg ∧ config_ok sample_cfg.
Proof.
  split; [exact sample_load|].
  apply (load_correct sample_env no_files sample_cfg); [intros raw f Hf; discriminate Hf|exact sample_load].
Defined.

Lemma sample_printable : Forall printable [sample_chain_cfg].
Proof.
  constructor; [|constructor]. split.
  - split; cbn; try discriminate; try (intros h [= <-]); unfold is_u32, is_u64, u32_max, u64_max; lia.
  - cbn. unfold field_char, graphic. vm_compute. repeat (split || discriminate).
  - split_and!; [|discriminate|reflexivity]. cbn. unfold field_char, graphic. vm_compute.
    repeat (split || discriminate).
Qed.

Lemma parse_chain_specs_roundtrip_witness :
  Forall printable [sample_chain_cfg] ∧
  parse_chain_specs "dingo|8224|http://node|0x1e0fffff|0" = Ok [sample_chain_cfg].
Proof.
  split; [exact sample_printable|].
  exact (parse_chain_specs_roundtrip [sample_chain_cfg] sample_printable (NoDup_singleton 8224)).
Defined.

Lemma load_ignores_malformed_numbers_witness :
  sample_env "PSOB_MAX_RETRIES"%string = Some "many"%string ∧
  load sample_env no_files = load (unset "PSOB_MAX_RETRIES" sample_env) no_files.
Proof.
  split; [reflexivity|].
  apply (load_ignores_malformed_numbers sample_env no_files "PSOB_MAX_RETRIES" "many" u32_max);
    [|reflexivity|reflexivity].
  unfold numeric_vars. repeat (apply list_elem_of_here || apply list_elem_of_further).
Defined.
