(* ===== verification/Http.v ===== *)
(** * HTTP requests

    What the Electrs client and the parent resolver do over the network
    ([HttpPolicy], [backoff] of [crates/chain-rpc/src/lib.rs] and
    [src/resolve.rs]).  The world outside is an argument without any assumption:
    the reply to a request, the clock and the jitter may depend on everything
    that happened before.  A computation is a step on the record of what
    happened, so what was sent, in which order, and how long the client slept
    can be stated.  Reading a body as text and [serde]'s deserialization are the
    parameters of the clients ([Decode] of [ChainRpc], [DecodeSummary] of
    [Resolve]). *)

From S2P Require Export Strs TxParse.

#[local] Open Scope Z_scope.

(** ** Policies *)

(** Durations in milliseconds.  The code makes them of a [u64] of milliseconds or of
    seconds; a policy with a longer backoff is admitted here too. *)
Record HttpPolicy := mkPolicy {
  hp_timeout : Z;
  hp_max_retries : Z;
  hp_base_backoff : Z;
  hp_max_backoff : Z;
  hp_min_request_interval : Z
}.
Definition HttpPolicy_default : HttpPolicy := mkPolicy 30000 4 500 30000 0.

(** [reqwest::StatusCode] as a number. *)
Definition is_success (status : Z) : bool := (200 <=? status) && (status <=? 299).
Definition is_server_error (status : Z) : bool := (500 <=? status) && (status <=? 599).
Definition TOO_MANY_REQUESTS : Z := 429.
Definition NOT_FOUND : Z := 404.

(** ** The outside world *)

(** A reply: a status with a body, [None] when reading it fails; or a transport
    error, and whether [is_connect], [is_timeout] or [is_request] holds of it. *)
Inductive Reply :=
  | Response (status : Z) (body : option bytes)
  | Transport (transient : bool).

Inductive Event :=
  | Get (url : string) (bearer : option string) (reply : Reply)
  | Sleep (ms : Z).

(** What happened so far, newest first; a request is its URL and the bearer token of
    its [Authorization] header, if any. *)
Definition Log : Type := list Event.
Record World := mkWorld {
  server : Log → string → option string → Reply;
  clock : Log → Z;
  jitter : Log → Z
}.

(** [ErrPanic] is a panic, which no caller catches. *)
Inductive RpcError :=
  | ErrTransport (url : string)
  | ErrStatus (path : string) (status : Z)
  | ErrBody
  | ErrDecode
  | ErrParse
  | ErrHex
  | ErrShortHeader (n : Z)
  | ErrHashLength (n : Z)
  | ErrNoHeight
  | ErrNoAuxPow (hash : string)
  | ErrBelowCheckpoint (height checkpoint : Z)
  | ErrConfirmations (need tip : Z)
  | ErrPanic.

(** ** The monad *)

(** The log, and the slot of the request pacing. *)
Record Net := mkNet { net_log : Log; net_last : option Z }.
Definition HttpM (A : Type) : Type := Net → Result RpcError A * Net.
#[export] Instance H_ret : MRet HttpM := λ A a n, (Ok a, n).
#[export] Instance H_bind : MBind HttpM := λ A B k m n,
  match m n with
  | (Ok a, n) => k a n
  | (Err e, n) => (Err e, n)
  end.
Definition failH {A} (e : RpcError) : HttpM A := λ n, (Err e, n).
Definition liftH {A} (r : Result RpcError A) : HttpM A := λ n, (r, n).
(** [.map_err(f)]. *)
Definition map_errH {A} (f : RpcError → RpcError) (m : HttpM A) : HttpM A := λ n,
  match m n with
  | (Err ErrPanic, n) => (Err ErrPanic, n)
  | (Err e, n) => (Err (f e), n)
  | r => r
  end.
Definition record (e : Event) (n : Net) : Net := mkNet (e :: net_log n) (net_last n).

Fixpoint mapM_H {A B} (f : A → HttpM B) (l : list A) : HttpM (list B) :=
  match l with
  | [] => mret []
  | x :: l => y ← f x; ys ← mapM_H f l; mret (y :: ys)
  end.

Section http.
Context (w : World).

(** [http.get(url).send().await]. *)
Definition send (url : string) (bearer : option string) : HttpM Reply := λ n,
  let r := server w (net_log n) url bearer in (Ok r, record (Get url bearer r) n).
Definition sleep (ms : Z) : HttpM unit := λ n, (Ok (), record (Sleep ms) n).

(** The delay of [backoff]: [base * 2^attempt] with [attempt] at most 10, capped,
    then jittered down to zero; 50 ms when the cap is zero. *)
Definition backoff_cap (policy : HttpPolicy) (attempt : Z) : Z :=
  Z.min (hp_base_backoff policy * Z.min u32_max (2 ^ Z.min attempt 10)) (hp_max_backoff policy).
Definition backoff (policy : HttpPolicy) (attempt : Z) : HttpM unit := λ n,
  let capped := backoff_cap policy attempt in
  if capped =? 0 then sleep 50 n else
  match jittered capped (jitter w (net_log n)) with
  | Some ms => sleep ms n
  | None => (Err ErrPanic, n)
  end.
End http.

(** ** Facts about logs *)

(** The requests of a log, oldest first. *)
Definition urls (log : Log) : list string :=
  rev (omap (λ e, match e with Get u _ _ => Some u | Sleep _ => None end) log).
Definition sleeps (log : Log) : list Z :=
  rev (omap (λ e, match e with Sleep ms => Some ms | Get _ _ _ => None end) log).

Lemma urls_app a b : urls (a ++ b) = urls b ++ urls a.
Proof. unfold urls. by rewrite omap_app, rev_app_distr. Qed.
Lemma sleeps_app a b : sleeps (a ++ b) = sleeps b ++ sleeps a.
Proof. unfold sleeps. by rewrite omap_app, rev_app_distr. Qed.

Lemma bindH_step {A B} (m : HttpM A) (k : A → HttpM B) n a n' :
  m n = (Ok a, n') → (m ≫= k) n = k a n'.
Proof. intros Hm. unfold mbind, H_bind. by rewrite Hm. Qed.

Lemma bindH_Ok {A B} (m : HttpM A) (k : A → HttpM B) n b n' :
  (m ≫= k) n = (Ok b, n') → ∃ a n1, m n = (Ok a, n1) ∧ k a n1 = (Ok b, n').
Proof. unfold mbind, H_bind. destruct (m n) as [[a|e] n1]; [eauto|done]. Qed.

Lemma backoff_cap_range policy attempt :
  0 ≤ hp_base_backoff policy → 0 ≤ hp_max_backoff policy →
  0 ≤ backoff_cap policy attempt ≤ hp_max_backoff policy.
Proof.
  intros Hb Hm. unfold backoff_cap. assert (0 ≤ u32_max) by (vm_compute; discriminate).
  assert (0 ≤ 2 ^ Z.min attempt 10) by (apply Z.pow_nonneg; lia). nia.
Qed.

(** A backoff sleeps for at most the cap, or 50 ms; it panics only when the cap is the
    last [u64] or beyond. *)
Lemma backoff_cases w policy attempt n :
  0 ≤ hp_base_backoff policy → 0 ≤ hp_max_backoff policy →
  (∃ ms, backoff w policy attempt n = (Ok (), record (Sleep ms) n) ∧ 0 ≤ ms ≤ Z.max 50 (hp_max_backoff policy)) ∨
  (backoff w policy attempt n = (Err ErrPanic, n) ∧ u64_max ≤ hp_max_backoff policy).
Proof.
  intros Hb Hm. pose proof (backoff_cap_range policy attempt Hb Hm) as Hc. unfold backoff. cbv zeta.
  destruct (_ =? 0) eqn:Hz; [left; exists 50; split; [done|lia]|]. reflect_bools.
  destruct (jittered _ _) as [ms|] eqn:Hj.
  - left. exists ms. split; [done|]. apply jittered_bound in Hj; lia.
  - right. split; [done|]. apply jittered_None in Hj; lia.
Qed.
Lemma backoff_run w policy attempt n :
  0 ≤ hp_base_backoff policy → 0 ≤ hp_max_backoff policy < u64_max →
  ∃ ms, backoff w policy attempt n = (Ok (), record (Sleep ms) n) ∧ 0 ≤ ms ≤ Z.max 50 (hp_max_backoff policy).
Proof. intros Hb Hm. destruct (backoff_cases w policy attempt n) as [?|[_ ?]]; [lia|lia|done|lia]. Qed.
