(* ===== verification/Json.v ===== *)
(** * JSON values

    [serde_json::Value] and the accessors the code uses on it. *)

From S2P Require Export Strs.

#[local] Open Scope Z_scope.

(** [serde_json::Value]; a number is kept when it is a [u64]. *)
Inductive Json :=
  | JNull
  | JBool (b : bool)
  | JNum (n : option Z)
  | JStr (s : string)
  | JArr (l : list Json)
  | JObj (l : list (string * Json)).

Fixpoint assoc {A} (k : string) (l : list (string * A)) : option A :=
  match l with
  | [] => None
  | (k', v) :: l => if decide (k = k') then Some v else assoc k l
  end.
Definition json_get (k : string) (v : Json) : option Json :=
  match v with JObj l => assoc k l | _ => None end.
Definition as_u64 (v : Json) : option Z := match v with JNum n => n | _ => None end.
Definition as_array (v : Json) : option (list Json) := match v with JArr l => Some l | _ => None end.
Definition as_str (v : Json) : option string := match v with JStr s => Some s | _ => None end.
