(* ===== verification/ChainRpc.v ===== *)
(** * The Electrs client and the proof witnesses

    [crates/chain-rpc/src/lib.rs]: request pacing and retries, the REST accessors,
    the search for payouts, and the assembly of the guest's [ProofInput] with its
    Merkle path.  Integers wrap at their width as in a release build; a vector asked
    for with more bytes than [isize::MAX] is a panic, and a smaller allocation is
    assumed to succeed.  [serde] and the text decoding of a body are the class
    [Decode]. *)

From S2P Require Export Http Json.

#[local] Open Scope Z_scope.

(** ** Data *)

(** [common::{MerkleStep, MerkleProof, ProofInput}]. *)
Record MerkleStep := mkStep { sibling : bytes; left : bool }.
Record MerkleProof := mkMerkle { mp_txid : bytes; mp_path : list MerkleStep }.
Record ProofInput := mkInput {
  pi_chain_id : Z;
  pi_checkpoint_hash : bytes;
  pi_checkpoint_chainwork : bytes;
  pi_headers : list BlockHeader;
  pi_deposit_header_index : Z;
  pi_min_confirmations : Z;
  pi_merkle_proof : MerkleProof;
  pi_deposit_tx : bytes;
  pi_custody_hash160 : bytes;
  pi_custody_epoch : Z;
  pi_pow_limit_bits : Z
}.

Record MerkleProofResp := mkProofResp { mr_block_height : Z; mr_merkle : list string; mr_pos : Z }.
Record TxStatus := mkTxStatus { ts_confirmed : bool; ts_block_height : option Z }.
Record AddrTx := mkAddrTx { at_txid : string; at_status : TxStatus }.
Record PayoutTx := mkPayout { po_txid_display : string; po_payout_sats : Z; po_block_height : option Z }.
Record CheckpointParams := mkCheckpoint {
  cp_checkpoint_hash : bytes;
  cp_checkpoint_height : Z;
  cp_checkpoint_chainwork : bytes;
  cp_min_confirmations : Z;
  cp_checkpoint_index : Z;
  cp_custody_hash160 : bytes;
  cp_custody_epoch : Z;
  cp_chain_id : Z
}.

Class Decode := {
  de_text : bytes → string;
  de_value : bytes → option Json;
  de_merkle_proof : bytes → option MerkleProofResp;
  de_addr_txs : bytes → option (list AddrTx)
}.

(** ** Byte orders *)

Definition rev32 (b : bytes) : bytes := rev b.

Record ElectrsClient := mkClient { ec_base : string; ec_policy : HttpPolicy }.
Definition with_policy (base_url : string) (policy : HttpPolicy) : ElectrsClient :=
  mkClient (trim_end_matches "/"%char base_url) policy.

(** The pacing of [get_raw]: how long to wait, and the new slot. *)
Definition pace (interval : Z) (slot : option Z) (now : Z) : option Z * option Z :=
  let deadline := match slot with Some i => i + interval | None => now end in
  (if now <? deadline then Some (deadline - now) else None, Some now).

Section client.
Context `{Sha256} `{HexCodec} `{Decode} (w : World).

(** [hex::decode(..)?] into 32 bytes. *)
Definition hex32 (display_hex : string) : Result RpcError bytes :=
  v ← map_err (λ _, ErrHex) (hex_decode display_hex);
  if negb (len v =? 32) then Err (ErrHashLength (len v)) else Ok v.

Definition rate_limit (c : ElectrsClient) : HttpM unit := λ n,
  let interval := hp_min_request_interval (ec_policy c) in
  if interval =? 0 then (Ok (), n) else
  let '(wait, slot) := pace interval (net_last n) (clock w (net_log n)) in
  let n := mkNet (net_log n) slot in
  match wait with
  | Some ms => sleep ms n
  | None => (Ok (), n)
  end.

(** The retry loop with [k] retries left; [attempt] retries were made. *)
Fixpoint get_loop (c : ElectrsClient) (url : string) (k : nat) (attempt : Z) : HttpM (Z * option bytes) :=
  r ← send w url None;
  match r with
  | Response status body =>
      let transient := (status =? TOO_MANY_REQUESTS) || is_server_error status in
      match k with
      | S k => if transient then _ ← backoff w (ec_policy c) attempt; get_loop c url k (attempt + 1)
               else mret (status, body)
      | O => mret (status, body)
      end
  | Transport transient =>
      match k with
      | S k => if transient then _ ← backoff w (ec_policy c) attempt; get_loop c url k (attempt + 1)
               else failH (ErrTransport url)
      | O => failH (ErrTransport url)
      end
  end.

Definition get_raw (c : ElectrsClient) (path : string) : HttpM (Z * option bytes) :=
  let url := ec_base c +:+ path in
  _ ← rate_limit c;
  get_loop c url (Z.to_nat (hp_max_retries (ec_policy c))) 0.

(** The body of a successful reply. *)
Definition get_body (c : ElectrsClient) (path : string) : HttpM bytes :=
  '(status, body) ← get_raw c path;
  if negb (is_success status) then failH (ErrStatus path status) else
  liftH (ok_or body ErrBody).
Definition get_text (c : ElectrsClient) (path : string) : HttpM string :=
  b ← get_body c path; mret (de_text b).
Definition get_json {T} (de : bytes → option T) (c : ElectrsClient) (path : string) : HttpM T :=
  b ← get_body c path; liftH (ok_or (de b) ErrDecode).

(** ** The REST accessors *)

Definition tip_height_path : string := "/blocks/tip/height".
Definition client_tip_height (c : ElectrsClient) : HttpM Z :=
  t ← get_text c tip_height_path; liftH (ok_or (parse_u64 (trim t)) ErrParse).
Definition client_block_hash_at (c : ElectrsClient) (height : Z) : HttpM string :=
  t ← get_text c ("/block-height/" +:+ pretty height); mret (trim t).
Definition block_height_for_hash (c : ElectrsClient) (hash : string) : HttpM Z :=
  v ← get_json de_value c ("/block/" +:+ hash +:+ "/status");
  liftH (ok_or (h ← json_get "height" v; as_u64 h) ErrNoHeight).

Definition get_hex (c : ElectrsClient) (path : string) : HttpM bytes :=
  t ← get_text c path; liftH (map_err (λ _, ErrHex) (hex_decode (trim t))).
Definition client_header_wire (c : ElectrsClient) (block_hash : string) : HttpM bytes :=
  raw ← get_hex c ("/block/" +:+ block_hash +:+ "/header");
  if len raw <? HEADER_LEN then failH (ErrShortHeader (len raw)) else mret raw.
Definition header_80 (c : ElectrsClient) (block_hash : string) : HttpM bytes :=
  raw ← get_hex c ("/block/" +:+ block_hash +:+ "/header");
  if len raw <? HEADER_LEN then failH (ErrShortHeader (len raw)) else mret (slice raw 0 HEADER_LEN).
Definition tx_bytes_path (txid : string) : string := "/tx/" +:+ txid +:+ "/hex".
Definition client_tx_bytes (c : ElectrsClient) (txid_display : string) : HttpM bytes :=
  get_hex c (tx_bytes_path txid_display).
Definition header_with_auxpow (c : ElectrsClient) (block_hash : string) : HttpM (bytes * AuxPow) :=
  raw ← client_header_wire c block_hash;
  liftH (map_err (λ _, ErrParse) (parse_auxpow raw)).
Definition merkle_proof (c : ElectrsClient) (txid_display : string) : HttpM MerkleProofResp :=
  get_json de_merkle_proof c ("/tx/" +:+ txid_display +:+ "/merkle-proof").

(** ** Payouts *)

Definition address_path (address : string) (last_seen : option string) : string :=
  match last_seen with
  | Some txid => "/address/" +:+ address +:+ "/txs/chain/" +:+ txid
  | None => "/address/" +:+ address +:+ "/txs/chain"
  end.
Definition address_txs_chain (c : ElectrsClient) (address : string) (last_seen : option string) :
    HttpM (list AddrTx) :=
  get_json de_addr_txs c (address_path address last_seen).

Definition spends_from (tx_info : Json) (address : string) : bool :=
  match vin ← json_get "vin" tx_info; as_array vin with
  | Some vin =>
      existsb (λ input, bool_decide (
        (p ← json_get "prevout" input; a ← json_get "scriptpubkey_address" p; as_str a) = Some address)) vin
  | None => false
  end.
Definition tx_path (txid : string) : string := "/tx/" +:+ txid.
Definition tx_spends_from (c : ElectrsClient) (txid_display address : string) : HttpM bool :=
  v ← get_json de_value c (tx_path txid_display); mret (spends_from v address).

(** One transaction of a page. *)
Definition payout_of (c : ElectrsClient) (recipient_hash160 withdrawal_id : bytes)
    (custody_address : string) (t : AddrTx) : HttpM (option PayoutTx) :=
  if negb (ts_confirmed (at_status t)) then mret None else
  raw ← client_tx_bytes c (at_txid t);
  match parse_withdrawal_outputs raw recipient_hash160 with
  | Some (payout_sats, wid) =>
      if bool_decide (wid = withdrawal_id) then
        spends ← tx_spends_from c (at_txid t) custody_address;
        mret (if spends : bool then Some (mkPayout (at_txid t) payout_sats (ts_block_height (at_status t)))
              else None)
      else mret None
  | None => mret None
  end.

Fixpoint find_pages (c : ElectrsClient) (recipient_address : string)
    (recipient_hash160 withdrawal_id : bytes) (custody_address : string) (k : nat)
    (last_seen : option string) : HttpM (list PayoutTx) :=
  match k with
  | O => mret []
  | S k =>
      page ← address_txs_chain c recipient_address last_seen;
      match page with
      | [] => mret []
      | _ =>
          found ← mapM_H (payout_of c recipient_hash160 withdrawal_id custody_address) page;
          rest ← find_pages c recipient_address recipient_hash160 withdrawal_id custody_address k
                   (at_txid <$> last page);
          mret (omap id found ++ rest)
      end
  end.
Definition find_payouts (c : ElectrsClient) (recipient_address : string)
    (recipient_hash160 withdrawal_id : bytes) (max_pages : Z) (custody_address : string) :
    HttpM (list PayoutTx) :=
  find_pages c recipient_address recipient_hash160 withdrawal_id custody_address
    (Z.to_nat (Z.max max_pages 1)) None.

(** ** Proof witnesses *)

Definition jkc_header_with_auxpow (c : ElectrsClient) (hash : string) : HttpM BlockHeader :=
  '(raw, a) ← map_errH (λ _, ErrNoAuxPow hash) (header_with_auxpow c hash);
  mret (mkBlockHeader raw (Some a)).

Definition header_at (c : ElectrsClient) (h : Z) : HttpM BlockHeader :=
  hash ← client_block_hash_at c h; jkc_header_with_auxpow c hash.

(** The path of a transaction at position [pos], from the level given on; a shift
    by the width of [usize] or more wraps. *)
Fixpoint merkle_path (pos level : Z) (merkle : list string) : Result RpcError (list MerkleStep) :=
  match merkle with
  | [] => Ok []
  | sib :: merkle =>
      s ← hex32 sib;
      steps ← merkle_path pos (level + 1) merkle;
      Ok (mkStep (rev32 s) (Z.land (Z.shiftr pos (level mod 64)) 1 =? 0) :: steps)
  end.

(** [Vec::with_capacity(n)] of block headers, of 128 bytes each (five vectors and two
    32-bit integers): whether it panics with a capacity overflow. *)
Definition HEADER_SIZE : Z := 128.
Definition capacity_overflow (n : Z) : bool := 2 ^ 63 - 1 <? HEADER_SIZE * n.

Definition build_proof_input (c : ElectrsClient) (deposit_txid_display : string)
    (cp : CheckpointParams) : HttpM ProofInput :=
  mp ← merkle_proof c deposit_txid_display;
  let dep_height := mr_block_height mp in
  if dep_height <=? cp_checkpoint_height cp
  then failH (ErrBelowCheckpoint dep_height (cp_checkpoint_height cp)) else
  let conf := Z.max (cp_min_confirmations cp) 1 in
  let end_height := u64_wrap (dep_height + conf - 1) in
  tip ← client_tip_height c;
  if tip <? end_height then failH (ErrConfirmations end_height tip) else
  if capacity_overflow (u64_wrap (end_height - cp_checkpoint_height cp)) then failH ErrPanic else
  headers ← mapM_H (header_at c)
              (seqZ (cp_checkpoint_height cp + 1) (end_height - cp_checkpoint_height cp));
  let deposit_header_index := u32_wrap (dep_height - (cp_checkpoint_height cp + 1)) in
  txid ← liftH (hex32 deposit_txid_display);
  path ← liftH (merkle_path (mr_pos mp) 0 (mr_merkle mp));
  deposit_tx ← client_tx_bytes c deposit_txid_display;
  mret (mkInput (cp_chain_id cp) (cp_checkpoint_hash cp) (cp_checkpoint_chainwork cp) headers
          deposit_header_index (cp_min_confirmations cp) (mkMerkle (rev32 txid) path) deposit_tx
          (cp_custody_hash160 cp) (cp_custody_epoch cp) CHAIN_POW_LIMIT_BITS).

Definition build_withdrawal_proof_input (c : ElectrsClient) (payout_txid_display : string)
    (recipient_hash160 : bytes) (cp : CheckpointParams) : HttpM ProofInput :=
  build_proof_input c payout_txid_display
    (mkCheckpoint (cp_checkpoint_hash cp) (cp_checkpoint_height cp) (cp_checkpoint_chainwork cp)
       (cp_min_confirmations cp) (cp_checkpoint_index cp) recipient_hash160 (cp_custody_epoch cp)
       (cp_chain_id cp)).

Definition fold_step (acc : bytes) (s : MerkleStep) : bytes :=
  sha256d (if left s then acc ++ sibling s else sibling s ++ acc).
Definition fold_merkle (proof : MerkleProof) : bytes := foldl fold_step (mp_txid proof) (mp_path proof).
End client.
