(* ===== verification/ChainRpcSpec.v ===== *)
(** * The Electrs client: lemmas

    Two ways to reason about a computation over the network.  [grows]: it only
    adds to the log, so what was read stays read, whatever the world answers.
    [returns]: over an explorer that serves some paths, it returns a given value,
    whatever happened before. *)

From S2P Require Export ChainRpc.

#[local] Open Scope Z_scope.

(** ** Computations only add to the log *)

Definition extends (n n' : Net) : Prop := ∃ log, net_log n' = log ++ net_log n.
Definition grows {A} (m : HttpM A) : Prop := ∀ n, extends n (m n).2.

#[export] Instance extends_preorder : PreOrder extends.
Proof.
  split.
  - intros n. by exists [].
  - intros a b c [l1 H1] [l2 H2]. exists (l2 ++ l1). by rewrite H2, H1, app_assoc.
Qed.

Lemma extends_in n n' e : extends n n' → e ∈ net_log n → e ∈ net_log n'.
Proof. intros [l ->] He. apply elem_of_app. by right. Qed.

Create HintDb grows.

Lemma grows_ret {A} (a : A) : grows (mret a).
Proof. intros n. reflexivity. Qed.
Lemma grows_fail {A} e : grows (@failH A e).
Proof. intros n. reflexivity. Qed.
Lemma grows_lift {A} (r : Result RpcError A) : grows (liftH r).
Proof. intros n. reflexivity. Qed.
Lemma grows_bind {A B} (m : HttpM A) (k : A → HttpM B) : grows m → (∀ a, grows (k a)) → grows (m ≫= k).
Proof.
  intros Hm Hk n. unfold mbind, H_bind. specialize (Hm n). destruct (m n) as [[a|e] n1]; [|done].
  cbn in Hm. etransitivity; [exact Hm|apply Hk].
Qed.
Lemma grows_map_err {A} f (m : HttpM A) : grows m → grows (map_errH f m).
Proof. intros Hm n. unfold map_errH. specialize (Hm n). by destruct (m n) as [[a|[]] n1]. Qed.
Lemma grows_record e n : extends n (record e n).
Proof. by exists [e]. Qed.
Lemma grows_sleep ms : grows (sleep ms).
Proof. intros n. apply grows_record. Qed.
Lemma grows_send w url b : grows (send w url b).
Proof. intros n. apply grows_record. Qed.
Lemma grows_backoff w p a : grows (backoff w p a).
Proof.
  intros n. unfold backoff. cbv zeta. destruct (_ =? 0); [apply grows_sleep|].
  destruct (jittered _ _); [apply grows_sleep|reflexivity].
Qed.
Lemma grows_mapM {A B} (f : A → HttpM B) l : (∀ x, grows (f x)) → grows (mapM_H f l).
Proof.
  intros Hf. induction l as [|x l IH]; [apply grows_ret|].
  apply grows_bind; [done|]. intros y. apply grows_bind; [done|]. intros ys. apply grows_ret.
Qed.

#[export] Hint Resolve grows_ret grows_fail grows_lift grows_bind grows_map_err grows_sleep grows_send
  grows_backoff grows_mapM : grows.

Lemma bindH_inv {A B} (m : HttpM A) (k : A → HttpM B) n b n' :
  (m ≫= k) n = (Ok b, n') → (∀ a, grows (k a)) →
  ∃ a n1, m n = (Ok a, n1) ∧ k a n1 = (Ok b, n') ∧ extends n1 n'.
Proof.
  intros (a & n1 & Hm & Hk)%bindH_Ok Hg. exists a, n1. split_and!; [done|done|].
  specialize (Hg a n1). by rewrite Hk in Hg.
Qed.

Lemma mapM_H_Ok {A B} (f : A → HttpM B) l k n n' :
  (∀ x, grows (f x)) → mapM_H f l n = (Ok k, n') →
  Forall2 (λ x y, ∃ n1 n2, f x n1 = (Ok y, n2) ∧ extends n2 n') l k.
Proof.
  intros Hg. revert n k. induction l as [|x l IH]; intros n k.
  { intros [= <- <-]. constructor. }
  cbn [mapM_H]. intros (y & n1 & Hy & Hr & _)%bindH_inv; [|auto 6 with grows].
  apply bindH_Ok in Hr as (ys & n2 & Hys & [= <- <-]). constructor; [|by eapply IH].
  exists n, n1. split; [done|]. pose proof (grows_mapM f l Hg n1) as He. by rewrite Hys in He.
Qed.

(** ** Computations that return *)

(** [m] returns [a], whatever happened before. *)
Definition returns {A} (m : HttpM A) (a : A) : Prop := ∀ n, ∃ n', m n = (Ok a, n').

Lemma returns_ret {A} (a : A) : returns (mret a) a.
Proof. intros n. by exists n. Qed.
Lemma returns_lift {A} (r : Result RpcError A) a : r = Ok a → returns (liftH r) a.
Proof. intros -> n. by exists n. Qed.
Lemma returns_bind {A B} (m : HttpM A) (k : A → HttpM B) a b :
  returns m a → returns (k a) b → returns (m ≫= k) b.
Proof. intros Hm Hk n. destruct (Hm n) as [n1 H1]. rewrite (bindH_step _ _ _ _ _ H1). apply Hk. Qed.
Lemma returns_map_err {A} f (m : HttpM A) a : returns m a → returns (map_errH f m) a.
Proof. intros Hm n. destruct (Hm n) as [n1 H1]. exists n1. unfold map_errH. by rewrite H1. Qed.
Lemma returns_mapM {A B} (f : A → HttpM B) l k : Forall2 (λ x y, returns (f x) y) l k → returns (mapM_H f l) k.
Proof.
  induction 1 as [|x y l k Hx _ IH]; [apply returns_ret|]. cbn [mapM_H].
  eapply returns_bind; [exact Hx|]. eapply returns_bind; [exact IH|]. apply returns_ret.
Qed.

Lemma returns_map {A B} (f : A → HttpM B) (g : A → B) l :
  (∀ x, x ∈ l → returns (f x) (g x)) → returns (mapM_H f l) (g <$> l).
Proof. intros Hf. by apply returns_mapM, Forall2_fmap_r, Forall_Forall2_diag, Forall_forall. Qed.

Lemma omap_id_fmap {A B} (f : A → option B) (l : list A) : omap id (f <$> l) = omap f l.
Proof. induction l as [|x l IH]; [done|]. cbn. rewrite IH. by destruct (f x). Qed.

Section client.
Context `{Sha256} `{HexCodec} `{Decode} (w : World).

Lemma grows_rate_limit c : grows (rate_limit w c).
Proof.
  intros n. unfold rate_limit. destruct (_ =? 0); [reflexivity|].
  destruct (pace _ _ _) as [[ms|] slot]; [|by exists []].
  destruct (grows_sleep ms (mkNet (net_log n) slot)) as [log Hlog]. by exists log.
Qed.

Lemma grows_get_loop c url k a : grows (get_loop w c url k a).
Proof.
  revert a. induction k as [|k IH]; intros a; cbn [get_loop]; (apply grows_bind; [apply grows_send|]);
    intros [status body|tr]; cbv zeta; auto with grows; case_match; auto with grows.
Qed.

Lemma grows_get_body c path : grows (get_body w c path).
Proof.
  apply grows_bind; [|intros [st b]; case_match; auto with grows].
  apply grows_bind; [apply grows_rate_limit|]. intros _. apply grows_get_loop.
Qed.

#[local] Hint Resolve grows_get_body : grows.

Lemma grows_get_text c path : grows (get_text w c path).
Proof. unfold get_text. auto with grows. Qed.
Lemma grows_get_json {T} (de : bytes → option T) c path : grows (get_json w de c path).
Proof. unfold get_json. auto with grows. Qed.
Lemma grows_get_hex c path : grows (get_hex w c path).
Proof. unfold get_hex. apply grows_bind; [apply grows_get_text|auto with grows]. Qed.

#[local] Hint Resolve grows_get_text grows_get_json grows_get_hex : grows.

Lemma grows_tip_height c : grows (client_tip_height w c).
Proof. unfold client_tip_height. auto with grows. Qed.
Lemma grows_block_hash_at c h : grows (client_block_hash_at w c h).
Proof. unfold client_block_hash_at. auto with grows. Qed.
Lemma grows_header_at c h : grows (header_at w c h).
Proof.
  unfold header_at, jkc_header_with_auxpow, header_with_auxpow, client_header_wire, client_block_hash_at.
  apply grows_bind; [auto with grows|]. intros hash.
  apply grows_bind; [apply grows_map_err|intros [raw a]; auto with grows].
  apply grows_bind; [|auto with grows]. apply grows_bind; [auto with grows|].
  intros raw. case_match; auto with grows.
Qed.

(** ** Retries *)

(** A successful body was read from a reply to the path. *)
Lemma get_loop_reply c url k a n st b n' :
  get_loop w c url k a n = (Ok (st, b), n') → Get url None (Response st b) ∈ net_log n'.
Proof.
  revert a n. induction k as [|k IH]; intros a n; cbn [get_loop];
    intros (r & n1 & Hs & Hr)%bindH_Ok; injection Hs as <- <-;
    destruct (server w (net_log n) url None) as [status body|tr] eqn:Hsv; cbv zeta in Hr.
  - injection Hr as <- <- <-. cbn. left.
  - done.
  - destruct (_ || _); [|injection Hr as <- <- <-; left].
    apply bindH_Ok in Hr as (u & n2 & _ & Hr). by eapply IH.
  - destruct tr; [|done]. apply bindH_Ok in Hr as (u & n2 & _ & Hr). by eapply IH.
Qed.

Lemma get_body_reply c path n b n' :
  get_body w c path n = (Ok b, n') →
  ∃ status, Get (ec_base c +:+ path) None (Response status (Some b)) ∈ net_log n' ∧ is_success status = true.
Proof.
  unfold get_body. intros ([status body] & n1 & Hraw & Hr)%bindH_Ok.
  destruct (is_success status) eqn:Hs; cbn [negb] in Hr; [|done].
  unfold liftH in Hr. destruct body as [b'|]; [|done]. injection Hr as -> <-. exists status. split; [|done].
  unfold get_raw in Hraw. cbv zeta in Hraw. apply bindH_Ok in Hraw as (u & n2 & _ & Hl).
  by apply get_loop_reply in Hl.
Qed.

(** The retry loop: [m] requests, [m - 1] bounded sleeps, and how it ends. *)
Lemma get_loop_run c url k a n :
  0 ≤ hp_base_backoff (ec_policy c) → 0 ≤ hp_max_backoff (ec_policy c) < u64_max →
  ∃ r log m reply, get_loop w c url k a n = (r, mkNet (Get url None reply :: log ++ net_log n) (net_last n)) ∧
    urls (Get url None reply :: log) = replicate m url ∧ (1 ≤ m ≤ S k)%nat ∧
    length (sleeps (Get url None reply :: log)) = (m - 1)%nat ∧
    Forall (λ ms, 0 ≤ ms ≤ Z.max 50 (hp_max_backoff (ec_policy c))) (sleeps (Get url None reply :: log)) ∧
    match r with
    | Ok (st, b) => reply = Response st b ∧
        ((st =? TOO_MANY_REQUESTS) || is_server_error st = true → m = S k)
    | Err e => e = ErrTransport url ∧ ∃ tr, reply = Transport tr ∧ (tr = true → m = S k)
    end.
Proof.
  intros Hb Hm. revert a n. induction k as [|k IH]; intros a n.
  { cbn [get_loop]. unfold mbind at 1, H_bind, send.
    destruct (server w (net_log n) url None) as [st b|tr] eqn:Hsv; eexists _, [], 1%nat, _; cbn;
      (split; [reflexivity|]; split; [reflexivity|]; split; [lia|]; split; [reflexivity|]; split; [constructor|]);
      eauto. }
  assert (∀ reply, server w (net_log n) url None = reply →
    (match reply with Response st _ => (st =? TOO_MANY_REQUESTS) || is_server_error st | Transport t => t end) = true →
    get_loop w c url (S k) a n =
    (_ ← backoff w (ec_policy c) a; get_loop w c url k (a + 1)) (record (Get url None reply) n)) as Hretry.
  { intros reply Hsv Ht. cbn [get_loop]. unfold mbind at 1, H_bind at 1, send. rewrite Hsv.
    destruct reply as [st b|t]; cbv zeta; by rewrite Ht. }
  destruct (match server w (net_log n) url None with
            | Response st _ => (st =? TOO_MANY_REQUESTS) || is_server_error st | Transport t => t end) eqn:Ht.
  - rewrite (Hretry _ eq_refl Ht). set (reply0 := server w (net_log n) url None).
    destruct (backoff_run w (ec_policy c) a (record (Get url None reply0) n) Hb Hm) as (ms & Hrun & Hms).
    rewrite (bindH_step _ _ _ _ _ Hrun).
    destruct (IH (a + 1) (record (Sleep ms) (record (Get url None reply0) n)))
      as (r & log & m & reply & Hl & Hu & Hk & Hs & Hf & Hend).
    exists r, (log ++ [Sleep ms; Get url None reply0]), (S m), reply. split_and!.
    + rewrite Hl. cbn. by rewrite <-app_assoc.
    + change (Get url None reply :: log ++ [Sleep ms; Get url None reply0])
        with ((Get url None reply :: log) ++ [Sleep ms; Get url None reply0]). rewrite urls_app, Hu. reflexivity.
    + lia.
    + lia.
    + change (Get url None reply :: log ++ [Sleep ms; Get url None reply0])
        with ((Get url None reply :: log) ++ [Sleep ms; Get url None reply0]). rewrite sleeps_app, length_app, Hs. cbn. lia.
    + change (Get url None reply :: log ++ [Sleep ms; Get url None reply0])
        with ((Get url None reply :: log) ++ [Sleep ms; Get url None reply0]). rewrite sleeps_app. by constructor.
    + destruct r as [[st b]|e].
      * destruct Hend as [-> Hend]. split; [done|]. intros Htr. by rewrite (Hend Htr).
      * destruct Hend as (-> & tr & -> & Hend). split; [done|]. exists tr. split; [done|].
        intros Htr. by rewrite (Hend Htr).
  - cbn [get_loop]. unfold mbind at 1, H_bind at 1, send.
    destruct (server w (net_log n) url None) as [st b|tr] eqn:Hsv; cbv zeta; rewrite Ht;
      eexists _, [], 1%nat, _; (split; [reflexivity|]); cbn;
      (split; [reflexivity|]; split; [lia|]; split; [reflexivity|]; split; [constructor|]).
    + split; congruence.
    + split; [done|]. exists tr. split; congruence.
Qed.

(** ** Bodies *)

(** A value decoded from the body of a successful reply to [path] that is in the
    log. *)
Definition read_from {A} (c : ElectrsClient) (n : Net) (path : string) (de : bytes → option A) (a : A) : Prop :=
  ∃ status body, Get (ec_base c +:+ path) None (Response status (Some body)) ∈ net_log n ∧
    is_success status = true ∧ de body = Some a.

Lemma read_from_mono {A} c n n' path (de : bytes → option A) a :
  extends n n' → read_from c n path de a → read_from c n' path de a.
Proof. intros He (st & b & Hin & ?). exists st, b. split; [by eapply extends_in|done]. Qed.

Lemma get_json_read {T} (de : bytes → option T) c path n v n' :
  get_json w de c path n = (Ok v, n') → read_from c n' path de v.
Proof.
  unfold get_json. intros (b & n1 & Hb & Hr)%bindH_Ok. unfold liftH in Hr.
  destruct (de b) as [x|] eqn:Hd; [|done]. injection Hr as -> <-.
  apply get_body_reply in Hb as (st & Hin & Hs). by exists st, b.
Qed.

Lemma get_text_read c path n t n' :
  get_text w c path n = (Ok t, n') → read_from c n' path (λ b, Some (de_text b)) t.
Proof.
  unfold get_text. intros (b & n1 & Hb & Hr)%bindH_Ok. injection Hr as <- <-.
  apply get_body_reply in Hb as (st & Hin & Hs). by exists st, b.
Qed.

(** [hex::decode(text.trim())]. *)
Definition de_hex (b : bytes) : option bytes := result_ok (hex_decode (trim (de_text b))).

Lemma get_hex_read c path n t n' :
  get_hex w c path n = (Ok t, n') → read_from c n' path de_hex t.
Proof.
  unfold get_hex. intros (x & n1 & Hx & Hr)%bindH_Ok. unfold liftH in Hr.
  apply get_text_read in Hx as (st & b & Hin & Hs & [= <-]). exists st, b.
  unfold de_hex. destruct (hex_decode _) as [v|e]; cbn in *; [|done]. by injection Hr as -> <-.
Qed.

(** ** Payouts *)

(** What backs a payout: an entry of an address page, the transaction itself, and
    its description. *)
Definition backed (c : ElectrsClient) (n : Net) (address : string) (hash160 wid : bytes)
    (custody : string) (p : PayoutTx) : Prop :=
  ∃ last_seen page t raw info,
    read_from c n (address_path address last_seen) de_addr_txs page ∧ t ∈ page ∧
    ts_confirmed (at_status t) = true ∧ at_txid t = po_txid_display p ∧
    ts_block_height (at_status t) = po_block_height p ∧
    read_from c n (tx_bytes_path (at_txid t)) de_hex raw ∧
    parse_withdrawal_outputs raw hash160 = Some (po_payout_sats p, wid) ∧
    read_from c n (tx_path (at_txid t)) de_value info ∧ spends_from info custody = true.

Lemma grows_spends c txid a : grows (tx_spends_from w c txid a).
Proof. unfold tx_spends_from. auto with grows. Qed.
Lemma grows_payout_of c hash160 wid custody t : grows (payout_of w c hash160 wid custody t).
Proof.
  unfold payout_of. case_match; [auto with grows|]. apply grows_bind; [apply grows_get_hex|].
  intros raw. destruct (parse_withdrawal_outputs _ _) as [[sats wid']|]; [|auto with grows].
  case_bool_decide; [|auto with grows]. apply grows_bind; [apply grows_spends|auto with grows].
Qed.
Lemma grows_address c a l : grows (address_txs_chain w c a l).
Proof. apply grows_get_json. Qed.
Lemma grows_find_pages c a hash160 wid custody k l : grows (find_pages w c a hash160 wid custody k l).
Proof.
  revert l. induction k as [|k IH]; intros l; cbn [find_pages]; [auto with grows|].
  apply grows_bind; [apply grows_address|]. intros [|t ts]; [auto with grows|].
  apply grows_bind; [apply grows_mapM, grows_payout_of|]. intros found.
  apply grows_bind; [apply IH|auto with grows].
Qed.

Lemma payout_of_read c hash160 wid custody t n p n' :
  payout_of w c hash160 wid custody t n = (Ok (Some p), n') →
  ts_confirmed (at_status t) = true ∧ at_txid t = po_txid_display p ∧
  ts_block_height (at_status t) = po_block_height p ∧
  ∃ raw info, read_from c n' (tx_bytes_path (at_txid t)) de_hex raw ∧
    parse_withdrawal_outputs raw hash160 = Some (po_payout_sats p, wid) ∧
    read_from c n' (tx_path (at_txid t)) de_value info ∧ spends_from info custody = true.
Proof.
  unfold payout_of. destruct (ts_confirmed (at_status t)); cbn [negb]; [|done].
  intros (raw & n1 & Hraw & Hr & He)%bindH_inv.
  2: { intros raw. destruct (parse_withdrawal_outputs _ _) as [[sats wid']|]; [|auto with grows].
       case_bool_decide; [|auto with grows]. apply grows_bind; [apply grows_spends|auto with grows]. }
  apply get_hex_read in Hraw. destruct (parse_withdrawal_outputs raw hash160) as [[sats wid']|] eqn:Hp; [|done].
  case_bool_decide as Hw; [|done]. subst wid'. apply bindH_Ok in Hr as (sp & n2 & Hsp & Hr).
  unfold tx_spends_from in Hsp. apply bindH_Ok in Hsp as (info & n3 & Hinfo & Hsp).
  injection Hsp as <- <-. destruct (spends_from info custody) eqn:Hsp; [|done]. injection Hr as <- <-.
  cbn. split_and!; [done..|]. exists raw, info. split_and!; [|done| |done].
  - by eapply read_from_mono; [exact He|].
  - by eapply get_json_read.
Qed.

Lemma find_pages_read c a hash160 wid custody k l n ps n' :
  find_pages w c a hash160 wid custody k l n = (Ok ps, n') →
  ∀ p, p ∈ ps → backed c n' a hash160 wid custody p.
Proof.
  revert l n ps. induction k as [|k IH]; intros l n ps; cbn [find_pages].
  { intros [= <- <-] p Hp. by apply elem_of_nil in Hp. }
  intros (page & n1 & Hpage & Hr & He1)%bindH_inv.
  2: { intros [|t ts]; [auto with grows|]. apply grows_bind; [apply grows_mapM, grows_payout_of|].
       intros found. apply grows_bind; [apply grows_find_pages|auto with grows]. }
  apply get_json_read in Hpage. destruct page as [|t ts]; [injection Hr as <- <-; intros p Hp; by apply elem_of_nil in Hp|].
  apply bindH_inv in Hr as (found & n2 & Hf & Hr & He2).
  2: { intros found. apply grows_bind; [apply grows_find_pages|auto with grows]. }
  apply bindH_Ok in Hr as (rest & n3 & Hrest & Hr). injection Hr as <- <-.
  intros p [(o & Ho & Hid)%list_elem_of_omap|Hp]%elem_of_app; [|by eapply IH].
  apply (mapM_H_Ok _ _ _ _ _ (grows_payout_of c hash160 wid custody)) in Hf.
  apply list_elem_of_lookup in Ho as [i Hi]. destruct (Forall2_lookup_r _ _ _ _ _ Hf Hi) as (t' & Ht' & m1 & m2 & Hpo & He).
  cbn in Hid. subst o. apply payout_of_read in Hpo as (Hc & Htx & Hbh & raw & info & Hraw & Hpw & Hinfo & Hsp).
  exists l, (t :: ts), t', raw, info. split_and!; try done.
  - by eapply read_from_mono; [exact He1|].
  - by eapply list_elem_of_lookup_2.
  - eapply read_from_mono; [|exact Hraw]. by etransitivity.
  - eapply read_from_mono; [|exact Hinfo]. by etransitivity.
Qed.

(** ** Witnesses *)

Lemma merkle_path_fold pos merkle : ∀ level steps acc,
  0 ≤ level → level + len merkle ≤ 64 → merkle_path pos level merkle = Ok steps →
  foldl fold_step acc steps = merkle_fold_branch acc (sibling <$> steps) (Z.shiftr pos level).
Proof.
  induction merkle as [|sib merkle IH]; intros level steps acc Hl Hle; cbn [merkle_path].
  { by intros [= <-]. }
  rewrite len_cons in Hle. assert (0 ≤ len merkle) by apply len_nonneg.
  intros (s & _ & (rest & Hrest & [= <-])%bind_Ok)%bind_Ok. cbn [foldl fmap list_fmap merkle_fold_branch].
  rewrite (IH (level + 1) rest) by (lia || done).
  rewrite Z.shiftr_shiftr by lia. unfold fold_step. cbn [left sibling]. rewrite Z.mod_small by lia.
  by destruct (_ =? 0).
Qed.

Lemma hex32_length s v : hex32 s = Ok v → length v = 32%nat.
Proof.
  unfold hex32. intros (x & _ & Hr)%bind_Ok. destruct (len x =? 32) eqn:Hl; cbn in Hr; [|done].
  injection Hr as <-. reflect_bools. unfold len in Hl. lia.
Qed.

Lemma merkle_path_siblings pos merkle : ∀ level steps,
  merkle_path pos level merkle = Ok steps →
  Forall2 (λ hx st, ∃ v, hex32 hx = Ok v ∧ sibling st = rev v ∧ length (sibling st) = 32%nat) merkle steps.
Proof.
  induction merkle as [|sib merkle IH]; intros level steps; cbn [merkle_path].
  { intros [= <-]. constructor. }
  intros (s & Hs & (rest & Hrest & [= <-])%bind_Ok)%bind_Ok. constructor; [|by eapply IH].
  exists s. split_and!; [done|done|]. cbn. unfold rev32. rewrite length_rev. by eapply hex32_length.
Qed.

Lemma header_at_ok c h n hdr n' :
  header_at w c h n = (Ok hdr, n') → length (raw hdr) = 80%nat ∧ ∃ a full, aux hdr = Some a ∧ parse_auxpow full = Ok (raw hdr, a).
Proof.
  unfold header_at, jkc_header_with_auxpow. intros (hash & n1 & _ & Hr)%bindH_Ok.
  apply bindH_Ok in Hr as ([base a] & n2 & Hm & Hr). injection Hr as <- _.
  unfold map_errH in Hm. destruct (header_with_auxpow w c hash n1) as [[x|[]] n3] eqn:Hx; try discriminate Hm.
  injection Hm as -> _. unfold header_with_auxpow in Hx. apply bindH_Ok in Hx as (full & n4 & _ & Hl).
  unfold liftH in Hl. destruct (parse_auxpow full) as [[b a']|] eqn:Hp; cbn in Hl; [|done].
  injection Hl as -> -> _. cbn. split; [|by exists a, full].
  destruct (decide (HEADER_LEN < len full)) as [Hl|Hl].
  - rewrite parse_auxpow_eq in Hp by done. apply bind_Ok in Hp as ([x y] & _ & [= <- _]).
    unfold slice, HEADER_LEN, len in *. rewrite length_take, length_drop. lia.
  - unfold parse_auxpow in Hp. destruct (len full <? HEADER_LEN) eqn:Hlt; [done|]. reflect_bools. cbv zeta in Hp.
    destruct (len full =? HEADER_LEN) eqn:Heq; [done|]. reflect_bools. lia.
Qed.

(** ** A serving explorer *)

(** The paths of [f] are answered with success and the body given by [f]; the
    others with anything. *)
Definition serves (c : ElectrsClient) (f : string → option bytes) : Prop :=
  ∀ log path b, f path = Some b →
    ∃ status, server w log (ec_base c +:+ path) None = Response status (Some b) ∧ is_success status = true.

(** The body served at [path] decodes to [a]. *)
Definition answers {A} (f : string → option bytes) (path : string) (de : bytes → option A) (a : A) : Prop :=
  ∃ b, f path = Some b ∧ de b = Some a.

Lemma is_success_final st : is_success st = true → (st =? TOO_MANY_REQUESTS) || is_server_error st = false.
Proof.
  unfold is_success, is_server_error, TOO_MANY_REQUESTS. intros [? ?]%andb_true_iff.
  apply orb_false_iff. split; [|apply andb_false_iff; left]; reflect_bools; lia.
Qed.

Lemma returns_rate_limit c : returns (rate_limit w c) ().
Proof.
  intros n. unfold rate_limit. case_match; [eauto|]. destruct (pace _ _ _) as [[ms|] slot]; eexists; reflexivity.
Qed.

Lemma get_loop_serves c f path b k a n :
  serves c f → f path = Some b →
  ∃ st n', get_loop w c (ec_base c +:+ path) k a n = (Ok (st, Some b), n') ∧ is_success st = true.
Proof.
  intros Hs Hf. destruct (Hs (net_log n) path b Hf) as (st & Hsv & Hst). exists st.
  destruct k; cbn [get_loop]; unfold mbind at 1, H_bind at 1, send; rewrite Hsv; cbv zeta;
    rewrite ?(is_success_final _ Hst); eexists; split; reflexivity || done.
Qed.

Lemma returns_body c f path b : serves c f → f path = Some b → returns (get_body w c path) b.
Proof.
  intros Hs Hf n. destruct (returns_rate_limit c n) as [n0 Hrl].
  destruct (get_loop_serves c f path b (Z.to_nat (hp_max_retries (ec_policy c))) 0 n0 Hs Hf) as (st & n' & Hl & Hst).
  exists n'. unfold get_body. rewrite (bindH_step _ _ n (st, Some b) n').
  - cbv beta iota. by rewrite Hst.
  - unfold get_raw. cbv zeta. by rewrite (bindH_step _ _ _ _ _ Hrl).
Qed.

Lemma returns_text c f path t :
  serves c f → answers f path (λ b, Some (de_text b)) t → returns (get_text w c path) t.
Proof.
  intros Hs (b & Hf & [= <-]). unfold get_text. eapply returns_bind; [by eapply returns_body|]. apply returns_ret.
Qed.
Lemma returns_json {T} (de : bytes → option T) c f path v :
  serves c f → answers f path de v → returns (get_json w de c path) v.
Proof.
  intros Hs (b & Hf & Hd). unfold get_json. eapply returns_bind; [by eapply returns_body|].
  apply returns_lift. by rewrite Hd.
Qed.
Lemma returns_hex c f path v : serves c f → answers f path de_hex v → returns (get_hex w c path) v.
Proof.
  intros Hs (b & Hf & Hd). unfold get_hex. eapply returns_bind.
  { eapply returns_text; [exact Hs|]. by exists b. }
  apply returns_lift. unfold de_hex in Hd. by destruct (hex_decode _); simplify_eq/=.
Qed.

(** The pages of an address, up to the empty one that ends its history. *)
Fixpoint history (f : string → option bytes) (address : string) (last_seen : option string)
    (pages : list (list AddrTx)) : Prop :=
  answers f (address_path address last_seen) de_addr_txs (default [] (head pages)) ∧
  match pages with
  | [] => True
  | page :: pages => page ≠ [] ∧ history f address (at_txid <$> last page) pages
  end.

(** The payout a transaction with the bytes [raw] and the description [info] is. *)
Definition paid (raw : string → bytes) (info : string → Json) (hash160 wid : bytes) (custody : string)
    (t : AddrTx) : option PayoutTx :=
  guard (ts_confirmed (at_status t) = true);;
  '(sats, w) ← parse_withdrawal_outputs (raw (at_txid t)) hash160;
  guard (w = wid ∧ spends_from (info (at_txid t)) custody = true);;
  Some (mkPayout (at_txid t) sats (ts_block_height (at_status t))).

(** The explorer serves the bytes and the description of a transaction. *)
Definition tx_served (f : string → option bytes) (raw : string → bytes) (info : string → Json) (t : AddrTx) : Prop :=
  answers f (tx_bytes_path (at_txid t)) de_hex (raw (at_txid t)) ∧
  answers f (tx_path (at_txid t)) de_value (info (at_txid t)).

Lemma returns_payout_of c f raw info hash160 wid custody t :
  serves c f → (ts_confirmed (at_status t) = true → tx_served f raw info t) →
  returns (payout_of w c hash160 wid custody t) (paid raw info hash160 wid custody t).
Proof.
  intros Hs Ht. unfold payout_of, paid. destruct (ts_confirmed _); cbn [negb].
  2: { case_guard; [done|]. apply returns_ret. }
  destruct (Ht eq_refl) as [Hr Hi]. case_guard; [|done]. cbn.
  eapply returns_bind; [by eapply returns_hex|]. destruct (parse_withdrawal_outputs _ _) as [[sats w']|]; cbn.
  2: apply returns_ret. unfold tx_spends_from. case_bool_decide as Hw.
  - eapply returns_bind; [eapply returns_bind; [by eapply returns_json|apply returns_ret]|].
    destruct (spends_from _ _); case_guard as Hg; try apply returns_ret; exfalso; naive_solver.
  - case_guard as Hg; [naive_solver|apply returns_ret].
Qed.

Lemma returns_find_pages c f raw info a hash160 wid custody k last_seen pages :
  serves c f → history f a last_seen pages →
  (∀ t, t ∈ concat pages → ts_confirmed (at_status t) = true → tx_served f raw info t) →
  returns (find_pages w c a hash160 wid custody k last_seen)
    (omap (paid raw info hash160 wid custody) (concat (take k pages))).
Proof.
  intros Hs. revert last_seen pages. induction k as [|k IH]; intros last_seen pages Hh Ht; [apply returns_ret|].
  cbn [find_pages]. destruct pages as [|page pages]; destruct Hh as [Hpage Hh].
  { eapply returns_bind; [by eapply returns_json|]. apply returns_ret. }
  destruct Hh as [Hne Hh]. eapply returns_bind; [by eapply returns_json|]. cbn [default head].
  destruct page as [|t ts]; [done|]. change (concat (take (S k) ((t :: ts) :: pages)))
    with ((t :: ts) ++ concat (take k pages)). rewrite omap_app.
  eapply returns_bind.
  { apply returns_map. intros x Hx.
    apply (returns_payout_of c f raw info); [done|]. apply Ht. cbn [concat]. apply elem_of_app. by left. }
  eapply returns_bind.
  { apply IH; [exact Hh|]. intros x Hx. apply Ht. cbn [concat]. apply elem_of_app. by right. }
  rewrite omap_id_fmap. apply returns_ret.
Qed.
End client.
