(* ===== verification/ChainRpcThm.v ===== *)
(** * The Electrs client: theorems

    Requests terminate within the retry policy, what the pacing guarantees, the
    payouts found are the payouts of the history, and a witness built for the
    guest has the shape the guest needs and is built when the explorer serves the
    chain. *)

From S2P Require Export ChainRpcSpec.

#[local] Open Scope Z_scope.

(** ** Properties *)

(** C33: requests terminate.  Under a policy whose backoff cap is less than
    [u64::MAX] milliseconds (at that cap the first retry may panic: [backoff_empty]),
    and whatever the network answers, a request sends its URL between one and [max_retries + 1] times and nothing else, sleeps at most
    once for the pacing and once, for at most the backoff cap (or 50 ms), between
    two attempts, and returns the last reply: a success or a definite failure at
    any attempt, a transient one only when the retries are used up. *)
Theorem get_raw_correct (w : World) (c : ElectrsClient) (path : string) (n : Net)
    (Hp : 0 ≤ hp_base_backoff (ec_policy c) ∧ 0 ≤ hp_max_backoff (ec_policy c) < u64_max
          ∧ 0 ≤ hp_max_retries (ec_policy c)) :
  let url := ec_base c +:+ path in
  ∃ r n' log m reply, get_raw w c path n = (r, n') ∧ net_log n' = (Get url None reply :: log) ++ net_log n ∧
    urls (Get url None reply :: log) = replicate m url ∧
    1 ≤ Z.of_nat m ≤ hp_max_retries (ec_policy c) + 1 ∧
    (∃ pacing backoffs, sleeps (Get url None reply :: log) = pacing ++ backoffs ∧ (length pacing ≤ 1)%nat ∧
       length backoffs = (m - 1)%nat ∧
       Forall (λ ms, 0 ≤ ms ≤ Z.max 50 (hp_max_backoff (ec_policy c))) backoffs) ∧
    match r with
    | Ok (st, b) => reply = Response st b ∧
        ((st =? TOO_MANY_REQUESTS) || is_server_error st = true →
         Z.of_nat m = hp_max_retries (ec_policy c) + 1)
    | Err e => e = ErrTransport url ∧ ∃ tr, reply = Transport tr ∧
        (tr = true → Z.of_nat m = hp_max_retries (ec_policy c) + 1)
    end.
Proof.
  intros url. destruct Hp as (Hb & Hm & Hk). unfold get_raw. cbv zeta. fold url.
  assert (∃ pacing n0, rate_limit w c n = (Ok (), n0) ∧ net_log n0 = pacing ++ net_log n ∧
            urls pacing = [] ∧ (length (sleeps pacing) ≤ 1)%nat) as (pacing & n0 & Hrl & Hlog & Hu0 & Hs0).
  { unfold rate_limit. destruct (_ =? 0); [exists [], n; split_and!; try done; cbn; lia|].
    destruct (pace _ _ _) as [[ms|] slot].
    - by exists [Sleep ms], (record (Sleep ms) (mkNet (net_log n) slot)).
    - exists [], (mkNet (net_log n) slot). split_and!; try done. cbn. lia. }
  rewrite (bindH_step _ _ _ _ _ Hrl).
  destruct (get_loop_run w c url (Z.to_nat (hp_max_retries (ec_policy c))) 0 n0 Hb Hm)
    as (r & log & m & reply & Hrun & Hu & Hmk & Hs & Hf & Hend).
  eexists r, _, (log ++ pacing), m, reply. split_and!.
  - exact Hrun.
  - cbn. by rewrite Hlog, app_assoc.
  - change (Get url None reply :: log ++ pacing) with ((Get url None reply :: log) ++ pacing).
    by rewrite urls_app, Hu0, Hu.
  - lia.
  - lia.
  - exists (sleeps pacing), (sleeps (Get url None reply :: log)).
    change (Get url None reply :: log ++ pacing) with ((Get url None reply :: log) ++ pacing).
    by rewrite sleeps_app.
  - destruct r as [[st b]|e].
    + destruct Hend as [? Hend]. split; [done|]. intros Ht%Hend. lia.
    + destruct Hend as (? & tr & ? & Hend). split; [done|]. exists tr. split; [done|]. intros Ht%Hend. lia.
Qed.

(** When the requests made one after the other at the times [calls] are sent: the
    pacing waits from the time of the call. *)
Fixpoint send_times (interval : Z) (slot : option Z) (calls : list Z) : list Z :=
  match calls with
  | [] => []
  | now :: calls =>
      let '(wait, slot) := pace interval slot now in
      (now + default 0 wait) :: send_times interval slot calls
  end.

(** Pacing.  Of three requests in a row, each called after the previous one
    was sent, the third is sent at least the interval after the first; but two
    in a row may be sent at the same instant, since the slot records the call
    and not the sending. *)
Theorem pace_correct (interval now1 now2 now3 : Z) (slot : option Z) (s1 s2 s3 : Z)
    (Hs : send_times interval slot [now1; now2; now3] = [s1; s2; s3])
    (Hi : 0 ≤ interval) (H12 : s1 ≤ now2) (H23 : s2 ≤ now3) :
  s1 + interval ≤ s3 ∧ s1 ≤ s2 ≤ s3 ∧
  ∀ t, send_times interval None [t; t; t + interval] = [t; t + interval; t + interval].
Proof.
  cbn in Hs. injection Hs as H1 H2 H3. revert H1 H2 H3.
  set (d1 := match slot with Some i => i + interval | None => now1 end).
  intros H1 H2 H3. split_and!.
  - destruct (now1 <? d1) eqn:?, (now2 <? now1 + interval) eqn:?, (now3 <? now2 + interval) eqn:?;
      cbn in *; reflect_bools; lia.
  - destruct (now1 <? d1) eqn:?, (now2 <? now1 + interval) eqn:?, (now3 <? now2 + interval) eqn:?;
      cbn in *; reflect_bools; lia.
  - destruct (now1 <? d1) eqn:?, (now2 <? now1 + interval) eqn:?, (now3 <? now2 + interval) eqn:?;
      cbn in *; reflect_bools; lia.
  - intros t. cbn. rewrite Z.ltb_irrefl. cbn.
    destruct (t <? t + interval) eqn:E1; reflect_bools; cbn; rewrite Z.ltb_irrefl; cbn; (f_equal; [lia|f_equal; [lia|f_equal; lia]]).
Qed.

(** C32: the payouts are found, and no other.  Every payout [find_payouts] returns
    is a confirmed transaction of a page of the recipient's history, whose bytes
    pay the amount to the recipient and carry the withdrawal id, and whose
    description has an input of the custody address, all read from successful
    replies.  And when the explorer serves the history and its transactions, the
    call returns, and its answer is exactly the payouts of the first [max_pages]
    pages (at least one), in order. *)
Theorem find_payouts_sound `{HexCodec} `{Decode} (w : World) (c : ElectrsClient) (address : string)
    (hash160 wid : bytes) (max_pages : Z) (custody : string) :
  (∀ n n' ps, find_payouts w c address hash160 wid max_pages custody n = (Ok ps, n') →
     ∀ p, p ∈ ps → backed c n' address hash160 wid custody p) ∧
  (∀ f raw info pages, serves w c f → history f address None pages →
     (∀ t, t ∈ concat pages → ts_confirmed (at_status t) = true → tx_served f raw info t) →
     returns (find_payouts w c address hash160 wid max_pages custody)
       (omap (paid raw info hash160 wid custody) (concat (take (Z.to_nat (Z.max max_pages 1)) pages)))).
Proof.
  split.
  - intros n n' ps. exact (find_pages_read w c address hash160 wid custody _ None n ps n').
  - intros f raw info pages. apply returns_find_pages.
Qed.

(** The last height of the window does not wrap: the deposit is far from the last
    [u64], or the checkpoint is above the confirmations and the vector of headers
    was allocated. *)
Lemma end_height_exact d conf cph :
  0 ≤ cph < d → 1 ≤ conf ≤ u32_max → d + conf - 1 ≤ u64_max ∨ d ≤ u64_max ∧ conf ≤ cph ≤ 2 ^ 62 →
  HEADER_SIZE * u64_wrap (u64_wrap (d + conf - 1) - cph) ≤ 2 ^ 63 - 1 →
  u64_wrap (d + conf - 1) = d + conf - 1.
Proof.
  intros Hd Hc [Hno|[Hu Hcp]] Hcap; [apply Z.mod_small; unfold u64_max in *; lia|].
  destruct (decide (d + conf - 1 ≤ u64_max)); [apply Z.mod_small; unfold u64_max in *; lia|].
  exfalso. unfold HEADER_SIZE, u64_max, u32_max, u64_wrap in *.
  rewrite <-(Z.mod_unique_pos (d + conf - 1) (2 ^ 64) 1 (d + conf - 1 - 2 ^ 64)) in Hcap by lia.
  rewrite <-(Z.mod_unique_pos _ (2 ^ 64) (-1) (d + conf - 1 - cph)) in Hcap by lia. lia.
Qed.

(** The shape of a witness built from the Merkle proof [mp] and the tip read. *)
Definition input_shape `{Sha256} `{HexCodec} (txid : string) (cp : CheckpointParams) (input : ProofInput)
    (mp : MerkleProofResp) (tip : Z) : Prop :=
  let d := mr_block_height mp in
  let conf := Z.max (cp_min_confirmations cp) 1 in
  let index := pi_deposit_header_index input in
  cp_checkpoint_height cp < d ∧
  (d + conf - 1 ≤ u64_max ∨ d ≤ u64_max ∧ conf ≤ cp_checkpoint_height cp ≤ 2 ^ 62 →
     d + conf - 1 ≤ tip ∧ len (pi_headers input) = d - cp_checkpoint_height cp + (conf - 1) ∧
     index = u32_wrap (d - cp_checkpoint_height cp - 1) ∧
     (d - cp_checkpoint_height cp ≤ u32_max → index = d - cp_checkpoint_height cp - 1)) ∧
  Forall (λ h, length (raw h) = 80%nat ∧ ∃ a full, aux h = Some a ∧ parse_auxpow full = Ok (raw h, a))
    (pi_headers input) ∧
  (∃ v, hex32 txid = Ok v ∧ mp_txid (pi_merkle_proof input) = rev v) ∧
  Forall2 (λ hx st, ∃ v, hex32 hx = Ok v ∧ sibling st = rev v ∧ length (sibling st) = 32%nat)
    (mr_merkle mp) (mp_path (pi_merkle_proof input)) ∧
  (len (mr_merkle mp) ≤ 64 → fold_merkle (pi_merkle_proof input)
     = merkle_fold_branch (mp_txid (pi_merkle_proof input)) (sibling <$> mp_path (pi_merkle_proof input))
         (mr_pos mp)).

Lemma build_proof_input_shape `{Sha256} `{HexCodec} `{Decode} (w : World) (c : ElectrsClient)
    (txid : string) (cp : CheckpointParams) (n n' : Net) (input : ProofInput) :
  0 ≤ cp_checkpoint_height cp → is_u32 (cp_min_confirmations cp) →
  build_proof_input w c txid cp n = (Ok input, n') →
  ∃ mp tip, read_from c n' ("/tx/" +:+ txid +:+ "/merkle-proof") de_merkle_proof mp ∧
    read_from c n' tip_height_path (λ b, parse_u64 (trim (de_text b))) tip ∧
    input_shape txid cp input mp tip.
Proof.
  intros Hcp Hmc Hrun.
  unfold build_proof_input in Hrun.
  apply bindH_Ok in Hrun as (mp & n1 & Hmp & Hrun). apply get_json_read in Hmp. cbv zeta in Hrun.
  destruct (_ <=? _) eqn:Hbelow; [done|]. reflect_bools. set (conf := Z.max _ 1) in *.
  set (end_height := u64_wrap _) in *. apply bindH_Ok in Hrun as (tip & n2 & Htip & Hrun).
  assert (extends n1 n2) as He12 by (pose proof (grows_tip_height w c n1) as Hg; by rewrite Htip in Hg).
  apply bindH_Ok in Htip as (t & n2' & Ht & Htl). apply get_text_read in Ht as (st & b & Hin & Hst & [= <-]).
  unfold liftH in Htl. destruct (parse_u64 _) as [tip'|] eqn:Hpt; [|done]. injection Htl as -> ->.
  destruct (tip <? end_height) eqn:Hend; [done|].
  destruct (capacity_overflow _) eqn:Hcap; [done|]. unfold capacity_overflow, HEADER_SIZE in Hcap. reflect_bools.
  apply bindH_Ok in Hrun as (headers & n3 & Hhd & Hrun).
  assert (extends n2 n3) as He23.
  { pose proof (grows_mapM (header_at w c) (seqZ (cp_checkpoint_height cp + 1) (end_height - cp_checkpoint_height cp))
      (grows_header_at w c) n2) as Hg. by rewrite Hhd in Hg. }
  apply mapM_H_Ok in Hhd; [|apply grows_header_at].
  apply bindH_Ok in Hrun as (v & n4 & Hv & Hrun). injection Hv as Hv <-.
  apply bindH_Ok in Hrun as (path & n5 & Hpath & Hrun). injection Hpath as Hpath <-.
  apply bindH_Ok in Hrun as (tx & n6 & Htx & Hrun). injection Hrun as <- <-.
  assert (extends n3 n6) as He36.
  { pose proof (grows_get_hex w c (tx_bytes_path txid) n3) as Hg. unfold client_tx_bytes in Htx. by rewrite Htx in Hg. }
  exists mp, tip. unfold input_shape. cbn. split_and!.
  - eapply read_from_mono; [|exact Hmp]. by transitivity n2; [|transitivity n3].
  - exists st, b. split_and!; [|done|done]. eapply extends_in; [|exact Hin]. by transitivity n3.
  - lia.
  - intros Hno. assert (end_height = mr_block_height mp + conf - 1) as Heq by by (apply (end_height_exact _ _ (cp_checkpoint_height cp)); [lia|unfold is_u32, u32_max, conf in *; lia|done|unfold HEADER_SIZE, end_height in *; lia]).
    rewrite Z.sub_add_distr. split_and!; [lia| |done|].
    + apply Forall2_length in Hhd. unfold len. rewrite <-Hhd, length_seqZ. lia.
    + intros Hsmall. apply Z.mod_small. unfold u32_max in *. lia.
  - apply Forall_forall. intros h Hh. apply list_elem_of_lookup in Hh as [i Hi].
    destruct (Forall2_lookup_r _ _ _ _ _ Hhd Hi) as (x & _ & m1 & m2 & Hx & _). by eapply header_at_ok.
  - by exists v.
  - by eapply merkle_path_siblings.
  - intros Hl. unfold fold_merkle. cbn. rewrite (merkle_path_fold (mr_pos mp) (mr_merkle mp) 0 path) by (lia || done).
    by rewrite Z.shiftr_0_r.
Qed.

(** What an explorer serves about a deposit: its Merkle proof, a tip that buries
    it, its bytes, and the block hash and wire payload of every height between the
    checkpoint and the last confirmation. *)
Record deposit_served `{Sha256} `{HexCodec} `{Decode} (f : string → option bytes) (txid : string)
    (cp : CheckpointParams) (mp : MerkleProofResp) (v tx : bytes) (hash : Z → string)
    (header : Z → BlockHeader) : Prop := {
  ds_proof : answers f ("/tx/" +:+ txid +:+ "/merkle-proof") de_merkle_proof mp;
  ds_txid : hex32 txid = Ok v;
  ds_above : cp_checkpoint_height cp < mr_block_height mp;
  ds_tip : ∃ tip, answers f tip_height_path (λ b, Some (de_text b)) tip ∧
    ∃ t, parse_u64 (trim tip) = Some t ∧ mr_block_height mp + Z.max (cp_min_confirmations cp) 1 - 1 ≤ t ≤ u64_max;
  ds_headers : ∀ h, cp_checkpoint_height cp < h < mr_block_height mp + Z.max (cp_min_confirmations cp) 1 →
    ∃ t wire a, answers f ("/block-height/" +:+ pretty h) (λ b, Some (de_text b)) t ∧ trim t = hash h ∧
      answers f ("/block/" +:+ hash h +:+ "/header") de_hex wire ∧
      parse_auxpow wire = Ok (raw (header h), a) ∧ aux (header h) = Some a;
  ds_fits : HEADER_SIZE * (mr_block_height mp + Z.max (cp_min_confirmations cp) 1 - 1 - cp_checkpoint_height cp) ≤ 2 ^ 63 - 1;
  ds_siblings : Forall (λ hx, is_ok (hex32 hx) = true) (mr_merkle mp);
  ds_tx : answers f (tx_bytes_path txid) de_hex tx
}.

Lemma merkle_path_returns `{HexCodec} pos merkle : ∀ level,
  Forall (λ hx, is_ok (hex32 hx) = true) merkle → ∃ path, merkle_path pos level merkle = Ok path.
Proof.
  induction merkle as [|sib merkle IH]; intros level Hf; [by eexists|]. cbn [merkle_path].
  inversion_clear Hf as [|? ? Hs Hm]. destruct (IH (level + 1) Hm) as [path Hp].
  destruct (hex32 sib); [|done]. cbn. rewrite Hp. by eexists.
Qed.

Lemma returns_header_at `{Sha256} `{HexCodec} `{Decode} w c f h t wire hdr a hash :
  serves w c f → answers f ("/block-height/" +:+ pretty h) (λ b, Some (de_text b)) t → trim t = hash →
  answers f ("/block/" +:+ hash +:+ "/header") de_hex wire →
  parse_auxpow wire = Ok (raw hdr, a) → aux hdr = Some a → returns (header_at w c h) hdr.
Proof.
  intros Hs Ht Hh Hw Hp Ha. unfold header_at, client_block_hash_at. eapply returns_bind.
  { eapply returns_bind; [by eapply returns_text|apply returns_ret]. }
  rewrite Hh. unfold jkc_header_with_auxpow, header_with_auxpow, client_header_wire.
  apply (returns_bind _ _ (raw hdr, a)).
  - apply returns_map_err. eapply returns_bind; [|apply returns_lift; by rewrite Hp].
    eapply returns_bind; [by eapply returns_hex|]. destruct (_ <? _) eqn:Hl; [|apply returns_ret].
    unfold parse_auxpow in Hp. by rewrite Hl in Hp.
  - destruct hdr. cbn in *. subst. apply returns_ret.
Qed.

(** C31: the guest's witness.  [build_proof_input] succeeds only above the
    checkpoint, and its witness holds, for the height [d] of the deposit in the
    Merkle proof that was read and [conf = max(min_confirmations, 1)], one 80-byte
    header with a parsed AuxPoW per height from the checkpoint's successor to
    [d + conf - 1], the deposit's at the index given (exact under 2^32 headers), and
    the tip read reaches that height: all of this when [d + conf - 1] is a [u64], or
    when the checkpoint is between [conf] and 2^62, for an addition that wraps then
    ends in a capacity overflow; without either it may succeed unburied
    ([unburied_deposit]).  For at most 64 siblings, folding the path from the
    transaction id is the branch fold at the position read.  And when the explorer
    serves all of it, below the last [u64] and in a window that fits an allocation,
    the call returns, with the headers, the index, the transaction and the id
    served. *)
Theorem build_proof_input_correct `{Sha256} `{HexCodec} `{Decode} (w : World) (c : ElectrsClient)
    (txid : string) (cp : CheckpointParams)
    (Hcp : 0 ≤ cp_checkpoint_height cp) (Hmc : is_u32 (cp_min_confirmations cp)) :
  (∀ n n' input, build_proof_input w c txid cp n = (Ok input, n') →
     ∃ mp tip, read_from c n' ("/tx/" +:+ txid +:+ "/merkle-proof") de_merkle_proof mp ∧
       read_from c n' tip_height_path (λ b, parse_u64 (trim (de_text b))) tip ∧
       input_shape txid cp input mp tip) ∧
  (∀ f mp v tx hash header, serves w c f → deposit_served f txid cp mp v tx hash header →
     ∃ path, merkle_path (mr_pos mp) 0 (mr_merkle mp) = Ok path ∧
       returns (build_proof_input w c txid cp)
         (mkInput (cp_chain_id cp) (cp_checkpoint_hash cp) (cp_checkpoint_chainwork cp)
            (header <$> seqZ (cp_checkpoint_height cp + 1)
               (mr_block_height mp + Z.max (cp_min_confirmations cp) 1 - 1 - cp_checkpoint_height cp))
            (u32_wrap (mr_block_height mp - (cp_checkpoint_height cp + 1))) (cp_min_confirmations cp)
            (mkMerkle (rev v) path) tx (cp_custody_hash160 cp) (cp_custody_epoch cp) CHAIN_POW_LIMIT_BITS)).
Proof.
  split; [intros n n' input; by apply build_proof_input_shape|].
  intros f mp v tx hash header Hs [Hmp Hv Hab (tip & Htip & t & Ht & Hbury) Hhd Hfits Hsib Htx].
  destruct (merkle_path_returns (mr_pos mp) (mr_merkle mp) 0 Hsib) as [path Hpath]. exists path. split; [done|].
  unfold build_proof_input, is_u32 in *. eapply returns_bind; [by eapply returns_json|]. cbv zeta.
  destruct (_ <=? _) eqn:Hle; reflect_bools; [lia|]. set (conf := Z.max _ 1) in *.
  assert (u64_wrap (mr_block_height mp + conf - 1) = mr_block_height mp + conf - 1) as ->.
  { apply Z.mod_small. unfold u64_max in *. lia. }
  apply (returns_bind _ _ t).
  { eapply returns_bind; [by eapply returns_text|]. apply returns_lift. by rewrite Ht. }
  destruct (_ <? _) eqn:Hlt; reflect_bools; [lia|]. destruct (capacity_overflow _) eqn:Hcap.
  { unfold capacity_overflow, u64_wrap in Hcap. rewrite Z.mod_small in Hcap by (unfold u64_max in *; lia).
    reflect_bools. lia. }
  eapply returns_bind.
  { apply (returns_map _ header). intros h [Hh1 Hh2]%elem_of_seqZ.
    destruct (Hhd h ltac:(lia)) as (th & wire & a & ? & ? & ? & ? & ?).
    by eapply (returns_header_at w c f h th wire (header h) a). }
  eapply returns_bind; [by apply returns_lift|]. eapply returns_bind; [by apply returns_lift|].
  eapply returns_bind; [by eapply returns_hex|]. apply returns_ret.
Qed.

(** ** The theorems at concrete inputs

    An explorer that serves one payout and one merge-mined header. *)

#[local] Existing Instances toy_hash plain_hex.

Definition zero_hash : string := hex_enc (replicate 32 x00).

Definition toy_decode : Decode := {|
  de_text := String.string_of_list_byte;
  de_value _ := Some (JObj [("vin"%string, JArr [JObj [("prevout"%string,
                  JObj [("scriptpubkey_address"%string, JStr "custody")])]])]);
  de_merkle_proof _ := Some (mkProofResp 2 [zero_hash] 1);
  de_addr_txs b := Some (if b is [] then [] else [mkAddrTx "t1" (mkTxStatus true (Some 5))]) |}.
#[local] Existing Instance toy_decode.

Definition sample_served (payout : bytes) (path : string) : option bytes :=
  let text s := Some (String.list_byte_of_string s) in
  if ends_with "/tip/height" path then text "7"%string
  else if ends_with "/header" path then text (hex_enc sample_wire)
  else if ends_with "/hex" path then text (hex_enc payout)
  else if ends_with "/chain/t1" path then Some []
  else text "x"%string.
Definition sample_client : ElectrsClient := with_policy "http://explorer/" HttpPolicy_default.
Definition sample_explorer (payout : bytes) : World :=
  mkWorld (λ _ url _,
    match strip_prefix (ec_base sample_client) url ≫= sample_served payout with
    | Some b => Response 200 (Some b)
    | None => Response 404 None
    end) (λ _, 0) (λ _, 0).
Definition fresh_net : Net := mkNet [] None.
Definition sample_checkpoint : CheckpointParams := mkCheckpoint [] 1 [] 1 0 [] 0 8224.
Definition sample_payout_tx : bytes :=
  tx_bytes (mkTx (le_bytes 4 1) [mkTxIn (replicate 36 x11) [] (replicate 4 xff)]
    [mkTxOut (le_bytes 8 700) (p2pkh_script sample_custody);
     mkTxOut (le_bytes 8 0) ([x6a; x20] ++ replicate 32 x44)] (le_bytes 4 0)).
Definition sample_payout : PayoutTx := mkPayout "t1" 700 (Some 5).

(** The header of the wire payload served. *)
Definition sample_block_header : BlockHeader :=
  let t := mkTx (le_bytes 4 1) [mkTxIn (replicate 36 x11) [] (replicate 4 xff)] [] (le_bytes 4 0) in
  mkBlockHeader sample_base (Some (mkAuxPow (tx_bytes t) [] 0 [] 0 (replicate 80 x00))).

Lemma sample_serves payout : serves (sample_explorer payout) sample_client (sample_served payout).
Proof.
  intros log path b Hf. exists 200. split; [|reflexivity]. unfold sample_explorer. cbn [server].
  rewrite strip_prefix_app. cbn. by rewrite Hf.
Qed.

Lemma get_raw_correct_witness :
  0 ≤ hp_max_retries (ec_policy sample_client) ∧
  ∃ r n', get_raw (sample_explorer []) sample_client "/x" fresh_net = (r, n').
Proof.
  assert (0 ≤ hp_max_retries (ec_policy sample_client)) as Hr by (cbn; lia). split; [exact Hr|].
  destruct (get_raw_correct (sample_explorer []) sample_client "/x" fresh_net
              ltac:(cbn; unfold u64_max; lia)) as (r & n' & _ & _ & _ & Hrun & _).
  exists r, n'. exact Hrun.
Defined.

Lemma pace_correct_witness :
  send_times 100 None [0; 0; 100] = [0; 100; 100] ∧ 0 + 100 ≤ 100.
Proof.
  assert (send_times 100 None [0; 0; 100] = [0; 100; 100]) as Hs by reflexivity. split; [exact Hs|].
  exact (proj1 (pace_correct 100 0 0 100 None 0 100 100 Hs ltac:(lia) ltac:(lia) ltac:(lia))).
Defined.

Lemma find_payouts_sound_witness :
  ∃ n', find_payouts (sample_explorer sample_payout_tx) sample_client "addr" sample_custody
          (replicate 32 x44) 1 "custody" fresh_net = (Ok [sample_payout], n') ∧
        backed sample_client n' "addr" sample_custody (replicate 32 x44) "custody" sample_payout.
Proof.
  destruct (find_payouts_sound (sample_explorer sample_payout_tx) sample_client "addr" sample_custody
              (replicate 32 x44) 1 "custody") as [Hsound Hfound].
  destruct (Hfound (sample_served sample_payout_tx) (λ _, sample_payout_tx) (λ _, default JNull (de_value []))
              [[mkAddrTx "t1" (mkTxStatus true (Some 5))]] (sample_serves _)) with (n := fresh_net) as [n' Hrun].
  - split; [eexists; split; vm_compute; reflexivity|]. split; [discriminate|].
    split; [eexists; split; vm_compute; reflexivity|exact I].
  - intros t Ht _. apply list_elem_of_singleton in Ht as ->.
    split; eexists; split; vm_compute; reflexivity.
  - exists n'. split; [exact Hrun|]. exact (Hsound fresh_net n' [sample_payout] Hrun sample_payout (list_elem_of_here _ _)).
Defined.

Lemma build_proof_input_correct_witness :
  ∃ input n', build_proof_input (sample_explorer []) sample_client zero_hash sample_checkpoint fresh_net
              = (Ok input, n') ∧
    pi_headers input = [sample_block_header] ∧
    ∃ mp, read_from sample_client n' ("/tx/" +:+ zero_hash +:+ "/merkle-proof") de_merkle_proof mp.
Proof.
  destruct (build_proof_input_correct (sample_explorer []) sample_client zero_hash sample_checkpoint
              ltac:(cbn; lia) ltac:(unfold is_u32, u32_max; cbn; lia)) as [Hshape Hbuilt].
  destruct (Hbuilt (sample_served []) (mkProofResp 2 [zero_hash] 1) (replicate 32 x00) [] (λ _, "x"%string)
              (λ _, sample_block_header) (sample_serves _)) as (path & _ & Hrun).
  - split.
    + eexists. split; vm_compute; reflexivity.
    + vm_compute. reflexivity.
    + cbn. lia.
    + exists "7"%string. split; [eexists; split; vm_compute; reflexivity|]. exists 7.
      split; [reflexivity|]. cbn. unfold u64_max. lia.
    + cbn. intros h Hh. assert (h = 2) as -> by lia. eexists "x"%string, sample_wire, _.
      split; [eexists; split; vm_compute; reflexivity|]. split; [reflexivity|].
      split; [eexists; split; vm_compute; reflexivity|]. split; vm_compute; reflexivity.
    + vm_compute. discriminate.
    + repeat constructor.
    + eexists. split; vm_compute; reflexivity.
  - destruct (Hrun fresh_net) as [n' E]. eexists _, n'. split; [exact E|]. split; [reflexivity|].
    destruct (Hshape fresh_net n' _ E) as (mp & tip & Hmp & _). exists mp. exact Hmp.
Defined.

(** With the cap at the last [u64] of milliseconds the range of the jitter is empty,
    and the first retry panics. *)
Lemma backoff_empty :
  (get_raw (mkWorld (λ _ _ _, Transport true) (λ _, 0) (λ _, 0))
     (with_policy "http://explorer" (mkPolicy 30000 4 u64_max u64_max 0)) "/x" fresh_net).1 = Err ErrPanic.
Proof. vm_compute. reflexivity. Qed.

(** A height near the last [u64] in the Merkle proof: the end of the window wraps to 4.
    Below the checkpoint the vector of headers overflows; above it the witness is built
    with the three headers 2 to 4 and an index past them. *)
Definition last_height : Decode := {|
  de_text := @de_text toy_decode; de_value := @de_value toy_decode;
  de_merkle_proof _ := Some (mkProofResp u64_max [zero_hash] 1); de_addr_txs := @de_addr_txs toy_decode |}.
Lemma unburied_deposit :
  let build cph := (@build_proof_input _ last_height (sample_explorer []) sample_client zero_hash
                      (mkCheckpoint [] cph [] 6 0 [] 0 8224) fresh_net).1 in
  build 10 = Err ErrPanic ∧
  match build 1 with
  | Ok input => len (pi_headers input) = 3 ∧ pi_deposit_header_index input = 4294967293
  | Err _ => False
  end.
Proof. vm_compute. by repeat split. Qed.
