(* ===== verification/Resolve.v ===== *)
(** * The parent resolver

    [src/resolve.rs]: the URL of an explorer, the lookup of a parent header with
    its retries and its one fallback, and the theorem that it terminates, fails
    only in the panic of a backoff capped at the last [u64], and finds a height only
    in a reply about that very block.  The
    explorers are the [World] of [Http]; [serde]'s deserialization of a block summary is the class [DecodeSummary]. *)

From S2P Require Export ChainRpcThm.

#[local] Open Scope Z_scope.

Record BlockSummary := mkSummary { bs_id : string; bs_height : Z }.

Class DecodeSummary := { de_block_summary : bytes → option BlockSummary }.

Record ParentResolver := mkParentResolver {
  pr_base : string;
  pr_api_key : string;
  pr_chain_slug : string;
  pr_flat : bool;
  pr_policy : HttpPolicy;
  pr_fallback_base : option string
}.

Definition with_policy_and_fallback (base api_key chain_slug : string) (policy : HttpPolicy)
    (fallback_base : option string) : ParentResolver :=
  let base_str := trim_end_matches "/"%char base in
  let flat := ends_with "/api" base_str || contains "litecoinspace" base_str
              || contains "s3na.xyz" base_str in
  mkParentResolver base_str api_key chain_slug flat policy
    (trim_end_matches "/"%char <$> fallback_base).

Definition resolve_url (r : ParentResolver) (hash_hex : string) : string :=
  if pr_flat r then pr_base r +:+ "/block/" +:+ hash_hex
  else pr_base r +:+ "/" +:+ pr_chain_slug r +:+ "/block/" +:+ hash_hex.
Definition fallback_url (fb_base hash_hex : string) : string :=
  trim_end_matches "/"%char fb_base +:+ "/block/" +:+ hash_hex.

Section resolve.
Context `{HexCodec} `{DecodeSummary} (w : World).

(** The body of a successful reply as a summary. *)
Definition summary_of (body : option bytes) : option BlockSummary := b ← body; de_block_summary b.

(** The height of a summary that is about the block. *)
Definition matching (hash_hex : string) (s : BlockSummary) : option Z :=
  if bool_decide (string_lower (bs_id s) = hash_hex) then Some (bs_height s) else None.

(** [request]: the API key is the bearer token, whatever the URL. *)
Definition bearer_of (r : ParentResolver) : option string :=
  if bool_decide (pr_api_key r = ""%string) then None else Some (pr_api_key r).
Definition request (r : ParentResolver) (url : string) : HttpM Reply := send w url (bearer_of r).

(** [for attempt in 0..=max_retries], with [k] attempts left. *)
Fixpoint resolve_loop (r : ParentResolver) (hash_hex : string) (k : nat) (attempted_fallback : bool) :
    HttpM (option Z) :=
  match k with
  | O => mret None
  | S k =>
      let policy := pr_policy r in
      let attempt := hp_max_retries policy - Z.of_nat k in
      let retry := match k with
                   | O => mret None
                   | S _ => _ ← backoff w policy attempt; resolve_loop r hash_hex k attempted_fallback
                   end in
      resp ← request r (resolve_url r hash_hex);
      match resp with
      | Response status body =>
          if is_success status then
            match summary_of body with
            | Some s => mret (matching hash_hex s)
            | None => retry
            end
          else if status =? NOT_FOUND then mret None
          else if (status =? TOO_MANY_REQUESTS) || is_server_error status then retry
          else mret None
      | Transport _ =>
          match pr_fallback_base r, attempted_fallback with
          | Some fb_base, false =>
              fb ← request r (fallback_url fb_base hash_hex);
              let found := match fb with
                           | Response status body =>
                               if is_success status then s ← summary_of body; matching hash_hex s else None
                           | Transport _ => None
                           end in
              match found with
              | Some h => mret (Some h)
              | None => resolve_loop r hash_hex k true
              end
          | _, _ => retry
          end
      end
  end.

Definition resolve (r : ParentResolver) (parent_hash_le : bytes) : HttpM (option Z) :=
  resolve_loop r (hex_encode (rev parent_hash_le)) (Z.to_nat (hp_max_retries (pr_policy r)) + 1) false.

(** ** The loop *)

(** A successful reply of one of the two explorers about the block. *)
Definition found_in (r : ParentResolver) (hash_hex : string) (log : Log) (h : Z) : Prop :=
  ∃ url status body s, Get url (bearer_of r) (Response status (Some body)) ∈ log ∧ is_success status = true ∧
    (url = resolve_url r hash_hex ∨ ∃ fb, pr_fallback_base r = Some fb ∧ url = fallback_url fb hash_hex) ∧
    de_block_summary body = Some s ∧ string_lower (bs_id s) = hash_hex ∧ bs_height s = h.

Lemma found_in_app r hash_hex a b h : found_in r hash_hex a h → found_in r hash_hex (a ++ b) h.
Proof. intros (u & st & bd & s & Hin & ?). exists u, st, bd, s. split; [apply elem_of_app; by left|done]. Qed.

Lemma summary_matching body hash_hex s h :
  summary_of body = Some s → matching hash_hex s = Some h →
  ∃ b, body = Some b ∧ de_block_summary b = Some s ∧ string_lower (bs_id s) = hash_hex ∧ bs_height s = h.
Proof.
  unfold summary_of, matching. intros (b & -> & Hb)%bind_Some. case_bool_decide; [|done].
  intros [= <-]. by exists b.
Qed.

(** What one run of the loop adds to the log. *)
Record loop_log (r : ParentResolver) (hash_hex : string) (k : nat) (fb : bool) (log : Log) (o : option Z) : Prop := {
  ll_urls : ∃ n m : nat, urls log ≡ₚ replicate n (resolve_url r hash_hex)
      ++ replicate m (default EmptyString ((λ b, fallback_url b hash_hex) <$> pr_fallback_base r)) ∧
      (n ≤ k)%nat ∧ (m ≤ if fb then 0 else 1)%nat ∧ (pr_fallback_base r = None → m = 0%nat);
  ll_sleeps : (length (sleeps log) ≤ k - 1)%nat;
  ll_bound : Forall (λ ms, 0 ≤ ms ≤ Z.max 50 (hp_max_backoff (pr_policy r))) (sleeps log);
  ll_found : ∀ h, o = Some h → found_in r hash_hex log h;
  ll_bearer : ∀ url b reply, Get url b reply ∈ log → b = bearer_of r
}.

Lemma loop_log_nil r hash_hex k fb : loop_log r hash_hex k fb [] None.
Proof.
  split; [|cbn; lia|constructor|done|set_solver]. exists 0%nat, 0%nat. split_and!; [done|lia|lia|done].
Qed.

(** One more primary request, and the sleep of the retry. *)
Lemma loop_log_primary r hash_hex k fb reply (pause : option Z) log o :
  loop_log r hash_hex k fb log o →
  (match pause with
   | Some ms => (1 ≤ k)%nat ∧ 0 ≤ ms ≤ Z.max 50 (hp_max_backoff (pr_policy r))
   | None => sleeps log = []
   end) →
  loop_log r hash_hex (S k) fb
    (log ++ (Sleep <$> option_list pause) ++ [Get (resolve_url r hash_hex) (bearer_of r) reply]) o.
Proof.
  intros [(n & m & Hu & Hn & Hm & Hnone) Hs Hb Hf Ht] Hp. split.
  - exists (S n), m. split_and!; [|lia|done|done]. rewrite urls_app.
    assert (urls ((Sleep <$> option_list pause) ++ [Get (resolve_url r hash_hex) (bearer_of r) reply]) = [resolve_url r hash_hex])
      as -> by (by destruct pause). cbn. by rewrite Hu.
  - rewrite sleeps_app, length_app. destruct pause as [ms|]; cbn; [lia|]. rewrite Hp. cbn. lia.
  - rewrite sleeps_app. apply Forall_app. split; [|done]. destruct pause as [ms|]; cbn; [|constructor].
    constructor; [apply Hp|constructor].
  - intros h Hh. by apply found_in_app, Hf.
  - intros u b rp [?|[Hin|Hin]%elem_of_app]%elem_of_app; [by eapply Ht| |set_solver].
    apply list_elem_of_fmap in Hin as (ms & ? & _). done.
Qed.

(** The last primary request, with its verdict. *)
Lemma loop_log_last r hash_hex k fb reply o :
  (∀ h, o = Some h → found_in r hash_hex [Get (resolve_url r hash_hex) (bearer_of r) reply] h) →
  loop_log r hash_hex (S k) fb [Get (resolve_url r hash_hex) (bearer_of r) reply] o.
Proof.
  intros Hf. split; [|cbn; lia|constructor|done|set_solver].
  exists 1%nat, 0%nat. split_and!; [done|lia|lia|done].
Qed.

(** A primary request, then the fallback, then the rest of the run. *)
Lemma loop_log_fallback r hash_hex k fbase rp rf log o :
  pr_fallback_base r = Some fbase → loop_log r hash_hex k true log o →
  loop_log r hash_hex (S k) false
    (log ++ [Get (fallback_url fbase hash_hex) (bearer_of r) rf; Get (resolve_url r hash_hex) (bearer_of r) rp]) o.
Proof.
  intros Hfb [(n & m & Hu & Hn & Hm & Hnone) Hs Hb Hf Ht]. split.
  - exists (S n), 1%nat. assert (m = 0%nat) as -> by lia. split_and!; [|lia|lia|by rewrite Hfb].
    rewrite urls_app, Hu, Hfb. cbn. rewrite !app_nil_r. rewrite Permutation_app_comm. by rewrite <-app_comm_cons.
  - rewrite sleeps_app, length_app. cbn. lia.
  - rewrite sleeps_app. by apply Forall_app.
  - intros h Hh. by apply found_in_app, Hf.
  - intros u b rp' [?|Hin]%elem_of_app; [by eapply Ht|set_solver].
Qed.

Lemma loop_log_weaken r hash_hex k fb log o : loop_log r hash_hex k true log o → loop_log r hash_hex k fb log o.
Proof.
  intros [(n & m & Hu & Hn & Hm & Hnone) Hs Hb Hf Ht]. split; [|done..].
  exists n, m. split_and!; [done|done|destruct fb; lia|done].
Qed.

Lemma matching_found r hash_hex url status body s h :
  (url = resolve_url r hash_hex ∨ ∃ fb, pr_fallback_base r = Some fb ∧ url = fallback_url fb hash_hex) →
  is_success status = true → summary_of body = Some s → matching hash_hex s = Some h →
  ∀ log, Get url (bearer_of r) (Response status body) ∈ log → found_in r hash_hex log h.
Proof.
  intros Hu Hst Hs Hm log Hin. destruct (summary_matching _ _ _ _ Hs Hm) as (b & -> & Hb & Hid & Hh).
  by exists url, status, b, s.
Qed.

(** The loop ends with a height or without one; or in the panic of a backoff, under a
    cap of the last [u64] only. *)
Definition loop_ends (r : ParentResolver) (x : Result RpcError (option Z)) : Prop :=
  (∃ o, x = Ok o) ∨ (x = Err ErrPanic ∧ u64_max ≤ hp_max_backoff (pr_policy r)).
Definition loop_height (x : Result RpcError (option Z)) : option Z := result_ok x ≫= id.

Lemma resolve_loop_run r hash_hex k : ∀ fb n,
  0 ≤ hp_base_backoff (pr_policy r) → 0 ≤ hp_max_backoff (pr_policy r) →
  ∃ x log, resolve_loop r hash_hex k fb n = (x, mkNet (log ++ net_log n) (net_last n)) ∧
    loop_log r hash_hex k fb log (loop_height x) ∧ loop_ends r x.
Proof.
  intros fb n Hb Hm. revert fb n. induction k as [|k IH]; intros fb n.
  { exists (Ok None), []. split_and!; [by destruct n|apply loop_log_nil|left; eauto]. }
  cbn [resolve_loop]. set (url := resolve_url r hash_hex). cbv zeta.
  set (reply := server w (net_log n) url (bearer_of r)). set (n1 := record (Get url (bearer_of r) reply) n).
  rewrite (bindH_step (request r url) _ n reply n1) by done.
  set (retry := match k with O => mret None | S _ => _ end : HttpM (option Z)).
  assert (∃ x log, retry n1 = (x, mkNet ((log ++ [Get url (bearer_of r) reply]) ++ net_log n) (net_last n)) ∧
            loop_log r hash_hex (S k) fb (log ++ [Get url (bearer_of r) reply]) (loop_height x) ∧ loop_ends r x)
    as (x & log & Hretry & Hlog & Hend).
  { unfold retry. destruct k as [|k'].
    - exists (Ok None), []. split_and!; [done| |left; eauto]. by apply loop_log_last.
    - destruct (backoff_cases w (pr_policy r) (hp_max_retries (pr_policy r) - Z.of_nat (S k')) n1 Hb Hm)
        as [(ms & Hbo & Hms)|[Hbo Hmax]].
      + rewrite (bindH_step _ _ _ _ _ Hbo). destruct (IH fb (record (Sleep ms) n1)) as (x & log & Hrun & Hl & Hx).
        exists x, (log ++ [Sleep ms]). split_and!; [|rewrite <-app_assoc|done].
        * rewrite Hrun. cbn. by rewrite <-!app_assoc.
        * apply (loop_log_primary r hash_hex (S k') fb reply (Some ms)); [done|]. split; [lia|done].
      + exists (Err ErrPanic), []. split_and!; [|by apply loop_log_last|by right].
        unfold mbind, H_bind. by rewrite Hbo. }
  assert (∀ o' : option Z, (∀ h, o' = Some h → found_in r hash_hex [Get url (bearer_of r) reply] h) →
    ∃ x log, (mret o' : HttpM (option Z)) n1 = (x, mkNet (log ++ net_log n) (net_last n)) ∧
      loop_log r hash_hex (S k) fb log (loop_height x) ∧ loop_ends r x) as Hret.
  { intros o' Ho'. exists (Ok o'), [Get url (bearer_of r) reply]. split_and!; [done| |left; eauto]. by apply loop_log_last. }
  destruct reply as [status body|tr] eqn:Hreply.
  - destruct (is_success status) eqn:Hst.
    + destruct (summary_of body) as [s|] eqn:Hs; [|eauto]. apply Hret. intros h Hmt.
      eapply (matching_found r hash_hex url status body s); [by left|done|done|done|left].
    + destruct (_ =? NOT_FOUND); [by apply Hret|]. destruct (_ || _); [eauto|by apply Hret].
  - destruct (pr_fallback_base r) as [fbase|] eqn:Hfb; [|eauto]. destruct fb; [eauto|].
    set (furl := fallback_url fbase hash_hex). set (freply := server w (net_log n1) furl (bearer_of r)).
    rewrite (bindH_step (request r furl) _ n1 freply (record (Get furl (bearer_of r) freply) n1)) by done.
    destruct (match freply with Response _ _ => _ | Transport _ => None end) as [h|] eqn:Hfound.
    + exists (Ok (Some h)), [Get furl (bearer_of r) freply; Get url (bearer_of r) (Transport tr)].
      split_and!; [done| |left; eauto].
      destruct freply as [status body|] eqn:Hfr; [|done]. destruct (is_success status) eqn:Hst; [|done].
      apply bind_Some in Hfound as (s & Hs & Hmt).
      pose proof (loop_log_fallback r hash_hex k fbase (Transport tr) (Response status body) [] None Hfb
                    (loop_log_nil _ _ _ _)) as [Hu Hsl Hbd _ Ht]. split; [done..| |done].
      intros h' [= <-]. eapply (matching_found r hash_hex furl status body s); [|done|done|done|left].
      right. by exists fbase.
    + destruct (IH true (record (Get furl (bearer_of r) freply) n1)) as (x' & log' & Hrun & Hl & Hx).
      exists x', (log' ++ [Get furl (bearer_of r) freply; Get url (bearer_of r) (Transport tr)]). split_and!; [| |done].
      * rewrite Hrun. cbn. by rewrite <-app_assoc.
      * by apply loop_log_fallback.
Qed.
End resolve.

(** ** Properties *)

(** C34: resolution.  Under a policy whose backoff cap is less than [u64::MAX]
    milliseconds (at that cap the first sleep may panic: [resolve_panics]), and
    whatever the explorers answer, [resolve] returns, never with an error: after at most [max_retries + 1] requests of the primary's URL, one of
    the fallback's (none without a fallback) and [max_retries] sleeps of at most
    the backoff cap or 50 ms; every request carries the API key, the fallback's
    too; and it returns a height only when one of the two explorers successfully
    answered with a summary of that very block at that height. *)
Theorem resolve_correct `{HexCodec} `{DecodeSummary} (w : World) (r : ParentResolver) (parent : bytes)
    (n : Net) (Hp : 0 ≤ hp_base_backoff (pr_policy r) ∧ 0 ≤ hp_max_backoff (pr_policy r) < u64_max
                    ∧ 0 ≤ hp_max_retries (pr_policy r)) :
  let hash_hex := hex_encode (rev parent) in
  ∃ o n' log, resolve w r parent n = (Ok o, n') ∧ net_log n' = log ++ net_log n ∧
    (∃ p f : nat, Z.of_nat p ≤ hp_max_retries (pr_policy r) + 1 ∧
       (f ≤ if pr_fallback_base r is Some _ then 1 else 0)%nat ∧
       urls log ≡ₚ replicate p (resolve_url r hash_hex)
                   ++ replicate f (default EmptyString ((λ b, fallback_url b hash_hex) <$> pr_fallback_base r))) ∧
    Z.of_nat (length (sleeps log)) ≤ hp_max_retries (pr_policy r) ∧
    Forall (λ ms, 0 ≤ ms ≤ Z.max 50 (hp_max_backoff (pr_policy r))) (sleeps log) ∧
    (∀ url bearer reply, Get url bearer reply ∈ log → bearer = bearer_of r) ∧
    ∀ h, o = Some h → found_in r hash_hex log h.
Proof.
  intros hash_hex. destruct Hp as (Hb & Hm & Hr). unfold resolve. fold hash_hex.
  destruct (resolve_loop_run w r hash_hex (Z.to_nat (hp_max_retries (pr_policy r)) + 1) false n Hb ltac:(lia))
    as (x & log & Hrun & [(p & f & Hu & Hpk & Hf & Hnone) Hs Hbd Hfound Ht] & [[o ->]|[_ ?]]); [|lia].
  eexists o, _, log. split_and!; [exact Hrun|done| |lia|done|exact Ht|done].
  exists p, f. split_and!; [lia| |done]. destruct (pr_fallback_base r); [done|]. by rewrite Hnone.
Qed.

#[local] Existing Instance plain_hex.
Definition toy_summary : DecodeSummary := {|
  de_block_summary b := Some (mkSummary (String.string_of_list_byte b) 2800000) |}.
#[local] Existing Instance toy_summary.

Definition sample_resolver : ParentResolver :=
  with_policy_and_fallback "https://litecoinspace.org/api/" "" "litecoin" HttpPolicy_default
    (Some "http://backup/"%string).
Definition sample_outage : World :=
  mkWorld (λ _ url _, if str_starts_with "http://backup" url
                    then Response 200 (Some (String.list_byte_of_string zero_hash)) else Transport true)
    (λ _, 0) (λ _, 0).

(** The API key of the primary explorer is sent to the fallback. *)
Lemma fallback_gets_key :
  ∃ log, (resolve sample_outage (with_policy_and_fallback "https://litecoinspace.org/api" "secret" "litecoin"
            HttpPolicy_default (Some "http://backup"%string)) (replicate 32 x00) fresh_net).2 = mkNet log None ∧
    (λ e, match e with Get u b _ => Some (str_starts_with "http://backup/" u, b) | Sleep _ => None end) <$> hd_error log
    = Some (Some (true, Some "secret"%string)).
Proof. eexists. split; vm_compute; reflexivity. Qed.

(** With the cap at the last [u64] of milliseconds the first sleep panics. *)
Lemma resolve_panics :
  (resolve (mkWorld (λ _ _ _, Transport true) (λ _, 0) (λ _, 0))
     (with_policy_and_fallback "https://explorer/api" "" "litecoin" (mkPolicy 30000 4 u64_max u64_max 0) None)
     (replicate 32 x00) fresh_net).1 = Err ErrPanic.
Proof. vm_compute. reflexivity. Qed.

Lemma resolve_correct_witness :
  (resolve sample_outage sample_resolver (replicate 32 x00) fresh_net).1 = Ok (Some 2800000) ∧
  ∃ o n', resolve sample_outage sample_resolver (replicate 32 x00) fresh_net = (Ok o, n').
Proof.
  split; [vm_compute; reflexivity|].
  destruct (resolve_correct sample_outage sample_resolver (replicate 32 x00) fresh_net
              ltac:(cbn; unfold u64_max; lia)) as (o & n' & _ & Hrun & _).
  exists o, n'. exact Hrun.
Defined.
