(* ===== verification/Db.v ===== *)
(** * Storage

    [src/db.rs]: the Redb tables and the in-memory caches, and every operation
    over them.  The durable tables are finite maps of the serialized values, a
    write transaction is a function on the tables that either commits as a whole
    or leaves them as they were, and an operation is a step of a small
    state-and-error monad: on an error the state keeps what was done before it,
    which is how a failed transaction leaves the caches ahead of the disk.

    [bincode] and [serde_json] are parameters (class [Codec]) with their round
    trips.  A failing transaction is an explicit outcome: [faults] is the list of
    the outcomes of the next [begin_write] ... [commit] calls ([true] fails, the
    default is success).  Read transactions do not fail.  A [DashMap] is iterated
    in the order of [map_to_list]; no theorem depends on that order. *)

From stdpp Require Export gmap sets.
From S2P Require Export Strs.

#[local] Open Scope Z_scope.

#[export] Instance byte_countable : Countable byte := inj_countable' b2z z2b z2b_b2z.

(** ** Data *)

Definition SCHEMA_VERSION : Z := 2.
Definition META_SCHEMA_VERSION : string := "schema_version".
Definition MAX_ACTIVE_INTENTS : Z := 20000.

Record StoredBlock := mkBlock {
  sb_hash_le : bytes;
  sb_chain_id : Z;
  sb_height : Z;
  sb_header : BlockHeader;
  sb_wire_hex : string
}.

Record StoredParent := mkParent {
  sp_parent_hash_le : bytes;
  sp_parent_header : bytes;
  sp_ltc_height : option Z;
  sp_parent_state : Z;
  sp_work : bytes
}.

Record SharedParent := mkShared {
  shp_parent_hash_le : bytes;
  shp_ltc_height : Z;
  shp_legs : list (Z * Z)
}.

Record Page := mkPage { page_limit : Z; page_offset : Z }.
Definition Page_default : Page := mkPage 20 0.
Definition Page_new (limit offset : option Z) : Page :=
  mkPage (Z.min 200 (Z.max 1 (default 20 limit))) (default 0 offset).

Record ChainStats := mkChainStats {
  cs_chain_id : Z;
  cs_blocks : Z;
  cs_min_height : option Z;
  cs_max_height : option Z
}.
Record Stats := mkStats {
  st_total_blocks : Z;
  st_total_parents : Z;
  st_sibling_groups : Z;
  st_chains : list ChainStats
}.

#[export] Instance StoredBlock_eq_dec : EqDecision StoredBlock.
Proof. solve_decision. Defined.

Class Codec := {
  enc_block : StoredBlock → bytes;
  dec_block : bytes → option StoredBlock;
  dec_enc_block : ∀ b, dec_block (enc_block b) = Some b;
  enc_parent : StoredParent → bytes;
  dec_parent : bytes → option StoredParent;
  dec_enc_parent : ∀ p, dec_parent (enc_parent p) = Some p;
  enc_intent : SwapIntentMessage → string;
  dec_intent : string → option SwapIntentMessage;
  dec_enc_intent : ∀ i, dec_intent (enc_intent i) = Some i
}.

Inductive DbError :=
  | DbAnyhow (msg : string)
  | DbRedb
  | DbPanic.

(** The durable tables. *)
Record Disk := mkDisk {
  t_blocks : gmap (Z * Z) bytes;
  t_parents : gmap bytes bytes;
  t_siblings : gset (bytes * Z * Z);
  t_meta : gmap string string;
  t_intents : gmap string string
}.

Record Database := mkDb {
  disk : Disk;
  cache_blocks : gmap (Z * Z) StoredBlock;
  cache_parents : gmap bytes StoredParent;
  cache_siblings : gmap bytes (list StoredBlock);
  cache_meta : gmap string string;
  cache_intents : gmap string SwapIntentMessage;
  faults : list bool
}.

(** ** The monad *)

Definition M (A : Type) : Type := Database → Result DbError A * Database.
#[export] Instance M_ret : MRet M := λ A a db, (Ok a, db).
#[export] Instance M_bind : MBind M := λ A B k m db,
  match m db with
  | (Ok a, db) => k a db
  | (Err e, db) => (Err e, db)
  end.

Definition get_db : M Database := λ db, (Ok db, db).
Definition put_db (f : Database → Database) : M unit := λ db, (Ok (), f db).
Definition fail {A} (e : DbError) : M A := λ db, (Err e, db).

(** [if let Ok(..) = m]: the error is dropped, what was done before it stays. *)
Definition try {A} (m : M A) : M (Result DbError A) := λ db,
  let '(r, db) := m db in (Ok r, db).

Definition set_disk (d : Disk) (db : Database) : Database :=
  mkDb d (cache_blocks db) (cache_parents db) (cache_siblings db) (cache_meta db)
    (cache_intents db) (faults db).
Definition set_cache_blocks c (db : Database) : Database :=
  mkDb (disk db) c (cache_parents db) (cache_siblings db) (cache_meta db) (cache_intents db) (faults db).
Definition set_cache_parents c (db : Database) : Database :=
  mkDb (disk db) (cache_blocks db) c (cache_siblings db) (cache_meta db) (cache_intents db) (faults db).
Definition set_cache_siblings c (db : Database) : Database :=
  mkDb (disk db) (cache_blocks db) (cache_parents db) c (cache_meta db) (cache_intents db) (faults db).
Definition set_cache_meta c (db : Database) : Database :=
  mkDb (disk db) (cache_blocks db) (cache_parents db) (cache_siblings db) c (cache_intents db) (faults db).
Definition set_cache_intents c (db : Database) : Database :=
  mkDb (disk db) (cache_blocks db) (cache_parents db) (cache_siblings db) (cache_meta db) c (faults db).
Definition set_faults f (db : Database) : Database :=
  mkDb (disk db) (cache_blocks db) (cache_parents db) (cache_siblings db) (cache_meta db)
    (cache_intents db) f.

Definition with_blocks t (d : Disk) : Disk :=
  mkDisk t (t_parents d) (t_siblings d) (t_meta d) (t_intents d).
Definition with_parents t (d : Disk) : Disk :=
  mkDisk (t_blocks d) t (t_siblings d) (t_meta d) (t_intents d).
Definition with_siblings t (d : Disk) : Disk :=
  mkDisk (t_blocks d) (t_parents d) t (t_meta d) (t_intents d).
Definition with_meta t (d : Disk) : Disk :=
  mkDisk (t_blocks d) (t_parents d) (t_siblings d) t (t_intents d).
Definition with_intents t (d : Disk) : Disk :=
  mkDisk (t_blocks d) (t_parents d) (t_siblings d) (t_meta d) t.

(** [begin_write] ... [commit] around [f]. *)
Definition write_txn {A} (f : Disk → Result DbError (A * Disk)) : M A := λ db,
  match faults db with
  | true :: fs => (Err DbRedb, set_faults fs db)
  | fs =>
      let db := set_faults (tail fs) db in
      match f (disk db) with
      | Ok (a, d) => (Ok a, set_disk d db)
      | Err e => (Err e, db)
      end
  end.

(** ** Ranges of the composite keys *)

Definition key_le (a b : Z * Z) : bool := (a.1 <? b.1) || ((a.1 =? b.1) && (a.2 <=? b.2)).

(** The order of two [[u8; 32]]. *)
Definition hash_le (a b : bytes) : bool := be_num a <=? be_num b.

(** [table.range((chain, lo)..=(chain, hi))], in key order. *)
Definition in_range (chain lo hi : Z) (k : Z * Z) : bool :=
  (k.1 =? chain) && (lo <=? k.2) && (k.2 <=? hi).
Definition block_rows (chain lo hi : Z) (t : gmap (Z * Z) bytes) : list ((Z * Z) * bytes) :=
  sort_by (λ a b, key_le a.1 b.1) (List.filter (λ r, in_range chain lo hi r.1) (map_to_list t)).

(** [table.range((p, chain, lo)..=(p, chain, hi))]: the keys under one parent. *)
Definition sibling_keys (p : bytes) (t : gset (bytes * Z * Z)) : list (Z * Z) :=
  sort_by key_le
    (omap (λ k, if decide (k.1.1 = p) then Some (k.1.2, k.2) else None) (elements t)).

Section db.
Context `{Sha256} `{HexCodec} `{Codec}.

Definition db_parent_hash (b : StoredBlock) : option bytes :=
  (λ a, sha256d (parent_header a)) <$> aux (sb_header b).

(** ** Opening *)

Definition push_sibling (list_ : list StoredBlock) (b : StoredBlock) : list StoredBlock :=
  if existsb (λ b', (sb_chain_id b' =? sb_chain_id b) && (sb_height b' =? sb_height b)) list_
  then list_ else list_ ++ [b].

Definition warm_block (db : Database) (row : (Z * Z) * bytes) : Database :=
  match dec_block row.2 with
  | None => db
  | Some block =>
      let db := set_cache_blocks (<[row.1 := block]> (cache_blocks db)) db in
      match aux (sb_header block) with
      | None => db
      | Some a =>
          let parent_hash := sha256d (parent_header a) in
          let list_ := default [] (cache_siblings db !! parent_hash) in
          set_cache_siblings (<[parent_hash := push_sibling list_ block]> (cache_siblings db)) db
      end
  end.

Definition warm_up_cache (db : Database) : Database :=
  let d := disk db in
  let db := set_cache_meta (t_meta d ∪ cache_meta db) db in
  let db := set_cache_intents (omap dec_intent (t_intents d) ∪ cache_intents db) db in
  let db := set_cache_parents (omap dec_parent (t_parents d) ∪ cache_parents db) db in
  foldl warm_block db
    (sort_by (λ a b, key_le a.1 b.1) (map_to_list (t_blocks d))).

Definition open (d : Disk) (commit_fails : bool) : Result DbError Database :=
  if commit_fails then Err DbRedb else
  let current := v ← t_meta d !! META_SCHEMA_VERSION; parse_u32 v in
  d ← match current with
      | Some v => if v =? SCHEMA_VERSION then Ok d
                  else Err (DbAnyhow ("database schema v" +:+ pretty v
                         +:+ " is incompatible with this indexer (needs v" +:+ pretty SCHEMA_VERSION
                         +:+ "): delete the db file and re-ingest"))
      | None => Ok (with_meta (<[META_SCHEMA_VERSION := pretty SCHEMA_VERSION]> (t_meta d)) d)
      end;
  Ok (warm_up_cache (mkDb d ∅ ∅ ∅ ∅ ∅ [])).

(** ** Metadata *)

Definition get_meta (key : string) : M (option string) :=
  db ← get_db;
  match cache_meta db !! key with
  | Some v => mret (Some v)
  | None =>
      match t_meta (disk db) !! key with
      | Some s => _ ← put_db (set_cache_meta (<[key := s]> (cache_meta db))); mret (Some s)
      | None => mret None
      end
  end.

Definition set_meta (key value : string) : M unit :=
  _ ← put_db (λ db, set_cache_meta (<[key := value]> (cache_meta db)) db);
  write_txn (λ d, Ok ((), with_meta (<[key := value]> (t_meta d)) d)).

Definition chain_key (chain_id : Z) : string := "chain." +:+ pretty chain_id.
Definition cursor_key (chain_id : Z) : string := pretty chain_id +:+ ".cursor_height".

Definition upsert_chain (chain_id : Z) (name electrs : string) : M unit :=
  let key := chain_key chain_id in
  let val := name +:+ "|" +:+ electrs in
  existing ← get_meta key;
  if bool_decide (existing = Some val) then mret () else set_meta key val.

Definition chain_registry (db : Database) : list (Z * string * string) :=
  omap (λ e,
    id ← strip_prefix "chain." e.1;
    id ← parse_u32 id;
    let '(name, url) := default (e.2, EmptyString) (split_once "|"%char e.2) in
    Some (id, name, url)) (map_to_list (cache_meta db)).

Definition cursor_height (chain_id : Z) : M (option Z) :=
  v ← get_meta (cursor_key chain_id);
  mret (v ≫= parse_u64).
Definition set_cursor_height (chain_id height : Z) : M unit :=
  set_meta (cursor_key chain_id) (pretty height).

(** ** Swap intents *)

Definition prune_expired_intents (now : Z) : M Z :=
  db ← get_db;
  let expired := omap (λ e, if expiry e.2 <=? now then Some e.1 else None)
                   (map_to_list (cache_intents db)) in
  let n := len expired in
  if n =? 0 then mret 0 else
  _ ← write_txn (λ d, Ok ((), with_intents (foldl (λ t id, delete id t) (t_intents d) expired) d));
  _ ← put_db (λ db, set_cache_intents (foldl (λ t id, delete id t) (cache_intents db) expired) db);
  mret n.

Definition insert_intent (now : Z) (intent : SwapIntentMessage) : M unit :=
  _ ← prune_expired_intents now;
  db ← get_db;
  if MAX_ACTIVE_INTENTS <=? Z.of_nat (size (cache_intents db))
  then fail (DbAnyhow ("Swap intent orderbook is at maximum capacity ("
                       +:+ pretty MAX_ACTIVE_INTENTS +:+ ")")) else
  let json := enc_intent intent in
  _ ← put_db (λ db, set_cache_intents (<[intent_id intent := intent]> (cache_intents db)) db);
  write_txn (λ d, Ok ((), with_intents (<[intent_id intent := json]> (t_intents d)) d)).

Definition matches {A} `{EqDecision A} (f : option A) (x : A) : bool :=
  match f with Some y => bool_decide (x = y) | None => true end.

Definition page_of {A} (page : Page) (l : list A) : list A :=
  take (Z.to_nat (page_limit page)) (drop (Z.to_nat (page_offset page)) l).

Definition list_intents (now_prune now : Z) (from to : option Z) (proto : option string) (page : Page) :
    M (list SwapIntentMessage * Z) :=
  _ ← prune_expired_intents now_prune;
  db ← get_db;
  let all := List.filter (λ i, (now <? expiry i) && matches from (from_chain i)
                               && matches to (to_chain i) && matches proto (protocol i))
               (map_to_list (cache_intents db)).*2 in
  let all := sort_by (λ a b, timestamp b <=? timestamp a) all in
  let total := len all in
  mret (page_of page all, total).

(** ** Aux blocks *)

Definition block_at (chain_id height : Z) : M (option StoredBlock) :=
  db ← get_db;
  match cache_blocks db !! (chain_id, height) with
  | Some b => mret (Some b)
  | None =>
      match t_blocks (disk db) !! (chain_id, height) with
      | Some v =>
          match dec_block v with
          | None => fail (DbAnyhow "decode stored block")
          | Some block =>
              _ ← put_db (set_cache_blocks (<[(chain_id, height) := block]> (cache_blocks db)));
              mret (Some block)
          end
      | None => mret None
      end
  end.

Definition latest_height (chain_id : Z) (db : Database) : option Z :=
  (λ r, r.1.2) <$> last (block_rows chain_id 0 u64_max (t_blocks (disk db))).

(** The loop of [blocks_range]: skip [offset] rows, then decode until [limit]. *)
Fixpoint range_loop (page : Page) (skipped : Z) (out : list StoredBlock)
    (rows : list ((Z * Z) * bytes)) : list StoredBlock :=
  match rows with
  | [] => out
  | row :: rows =>
      if page_limit page <=? len out then out
      else if skipped <? page_offset page then range_loop page (skipped + 1) out rows
      else match dec_block row.2 with
           | Some block => range_loop page skipped (out ++ [block]) rows
           | None => range_loop page skipped out rows
           end
  end.

Definition blocks_range (chain_id from to : Z) (page : Page) (db : Database) : list StoredBlock :=
  if to <? from then []
  else range_loop page 0 [] (block_rows chain_id from to (t_blocks (disk db))).

Definition chain_block_count (chain_id : Z) (db : Database) : Z :=
  len (block_rows chain_id 0 u64_max (t_blocks (disk db))).
Definition total_blocks (db : Database) : Z := Z.of_nat (size (t_blocks (disk db))).

(** One row of the insert transaction. *)
Definition insert_row (row : Z * Z * StoredBlock) (d : Disk) : Result DbError Disk :=
  let '(chain_id, height, block) := row in
  let d := with_blocks (<[(chain_id, height) := enc_block block]> (t_blocks d)) d in
  parent_hash ← ok_or (db_parent_hash block)
    (DbAnyhow ("block " +:+ pretty chain_id +:+ "@" +:+ pretty height +:+ " has no auxpow witness"));
  Ok (with_siblings ({[(parent_hash, chain_id, height)]} ∪ t_siblings d) d).

Fixpoint insert_rows (rows : list (Z * Z * StoredBlock)) (d : Disk) : Result DbError Disk :=
  match rows with
  | [] => Ok d
  | row :: rows => d ← insert_row row d; insert_rows rows d
  end.

(** The work of a parent header: indexing a short header panics. *)
Definition parent_work (header : bytes) : option bytes :=
  bits ← index_u32_le header 72;
  block_work (default (replicate 32 xff) (expand_target bits)).

(** The sibling list and the parent cache after a commit, for one row. *)
Definition index_row (row : Z * Z * StoredBlock) : M unit :=
  let '(chain_id, height, block) := row in
  match aux (sb_header block) with
  | None => mret ()
  | Some a =>
      let parent_hash := sha256d (parent_header a) in
      _ ← put_db (λ db,
        let list_ := default [] (cache_siblings db !! parent_hash) in
        let list_ :=
          if existsb (λ b, (sb_chain_id b =? chain_id) && (sb_height b =? height)) list_
          then list_ else list_ ++ [block] in
        set_cache_siblings (<[parent_hash := list_]> (cache_siblings db)) db);
      db ← get_db;
      if bool_decide (is_Some (cache_parents db !! parent_hash)) then mret () else
      match parent_work (parent_header a) with
      | None => fail DbPanic
      | Some work =>
          put_db (λ db, set_cache_parents
            (<[parent_hash := mkParent parent_hash (parent_header a) None 0 work]> (cache_parents db)) db)
      end
  end.

Fixpoint for_each {A} (f : A → M unit) (l : list A) : M unit :=
  match l with [] => mret () | x :: l => _ ← f x; for_each f l end.

Definition cache_row (c : gmap (Z * Z) StoredBlock) (row : Z * Z * StoredBlock) :=
  <[(row.1.1, row.1.2) := row.2]> c.

Definition insert_blocks (blocks : list (Z * Z * StoredBlock)) : M unit :=
  match blocks with
  | [] => mret ()
  | _ =>
      _ ← put_db (λ db, set_cache_blocks (foldl cache_row (cache_blocks db) blocks) db);
      _ ← write_txn (λ d, d ← insert_rows blocks d; Ok ((), d));
      for_each index_row blocks
  end.

Definition insert_block (chain_id height : Z) (block : StoredBlock) : M unit :=
  insert_blocks [(chain_id, height, block)].

(** ** Rollback and pruning *)

Definition delete_all {K V} `{Countable K} (ks : list K) (t : gmap K V) : gmap K V :=
  foldl (λ t k, delete k t) t ks.

(** The rollback's transaction: the blocks in the range, and the index rows of
    this chain in the range under every cached parent. *)
Definition rollback_txn (chain_id from_height : Z) (parents : list bytes) (d : Disk) :
    Result DbError (Z * Disk) :=
  let keys := (block_rows chain_id from_height u64_max (t_blocks d)).*1 in
  let d := with_blocks (delete_all keys (t_blocks d)) d in
  let t := foldl (λ t p,
      foldl (λ t k, t ∖ {[(p, k.1, k.2)]}) t
        (List.filter (in_range chain_id from_height u64_max) (sibling_keys p t)))
    (t_siblings d) parents in
  Ok (len keys, with_siblings t d).

(** Removing a parent no cached block refers to any more. *)
Definition drop_parent (ph : bytes) : M unit :=
  _ ← put_db (λ db, set_cache_siblings (delete ph (cache_siblings db)) db);
  _ ← put_db (λ db, set_cache_parents (delete ph (cache_parents db)) db);
  _ ← try (write_txn (λ d, Ok ((), with_parents (delete ph (t_parents d)) d)));
  mret ().

(** [list.retain(..)] on the siblings of one parent; the parent when nothing is
    left. *)
Definition retain_siblings (keep : StoredBlock → bool) (ph : bytes) : M (option bytes) :=
  db ← get_db;
  match cache_siblings db !! ph with
  | None => mret None
  | Some list_ =>
      let list_ := List.filter keep list_ in
      _ ← put_db (λ db, set_cache_siblings (<[ph := list_]> (cache_siblings db)) db);
      mret (match list_ with [] => Some ph | _ => None end)
  end.

Fixpoint retain_each (keep : StoredBlock → bool) (phs : list bytes) : M (list bytes) :=
  match phs with
  | [] => mret []
  | ph :: phs =>
      e ← retain_siblings keep ph;
      es ← retain_each keep phs;
      mret (match e with Some ph => ph :: es | None => es end)
  end.

Definition rollback_from (chain_id from_height : Z) : M Z :=
  db ← get_db;
  let parents := (map_to_list (cache_parents db)).*1 in
  count ← write_txn (rollback_txn chain_id from_height parents);
  db ← get_db;
  let to_remove := sort_by (λ a b, key_le a.1 b.1)
      (List.filter (λ e : Z * Z * StoredBlock, (e.1.1 =? chain_id) && (from_height <=? e.1.2))
         (map_to_list (cache_blocks db))) in
  let removed_parents := remove_dups (sort_by hash_le
      (omap (λ e : Z * Z * StoredBlock, db_parent_hash e.2) to_remove)) in
  _ ← put_db (λ db, set_cache_blocks (delete_all to_remove.*1 (cache_blocks db)) db);
  empty_parents ← retain_each
    (λ b, negb ((sb_chain_id b =? chain_id) && (from_height <=? sb_height b))) removed_parents;
  _ ← for_each drop_parent empty_parents;
  h ← get_meta (cursor_key chain_id);
  _ ← match h ≫= parse_u64 with
      | Some hh => if from_height <=? hh
                   then set_meta (cursor_key chain_id) (pretty (saturating_sub from_height 1))
                   else mret ()
      | None => mret ()
      end;
  mret count.

(** One [PruneRow]: the block and, when its parent is known, its index row. *)
Definition prune_row (d : Disk) (r : (Z * Z) * option bytes) : Disk :=
  let d := with_blocks (delete r.1 (t_blocks d)) d in
  match r.2 with
  | Some p => with_siblings (t_siblings d ∖ {[(p, r.1.1, r.1.2)]}) d
  | None => d
  end.

Definition prune_txn (chain_id below : Z) (d : Disk) : Result DbError (Z * Disk) :=
  let removals := (λ r, (r.1, b ← dec_block r.2; db_parent_hash b))
                    <$> block_rows chain_id 0 (saturating_sub below 1) (t_blocks d) in
  let d := foldl prune_row d removals in
  Ok (len removals, d).

Definition prune_before (chain_id below : Z) : M Z :=
  count ← write_txn (prune_txn chain_id below);
  db ← get_db;
  let gone := List.filter (λ e : Z * Z * StoredBlock, (e.1.1 =? chain_id) && (e.1.2 <? below))
                (map_to_list (cache_blocks db)) in
  let parents_to_refresh := remove_dups (omap (λ e : Z * Z * StoredBlock, db_parent_hash e.2) gone) in
  _ ← put_db (λ db, set_cache_blocks (delete_all gone.*1 (cache_blocks db)) db);
  _ ← retain_each (λ b, negb ((sb_chain_id b =? chain_id) && (sb_height b <? below)))
        parents_to_refresh;
  mret count.

(** ** Parents and siblings *)

Definition get_parent (ph : bytes) : M (option StoredParent) :=
  db ← get_db;
  match cache_parents db !! ph with
  | Some p => mret (Some p)
  | None =>
      match t_parents (disk db) !! ph with
      | Some v =>
          match dec_parent v with
          | None => fail (DbAnyhow "bincode")
          | Some parent =>
              _ ← put_db (set_cache_parents (<[ph := parent]> (cache_parents db)));
              mret (Some parent)
          end
      | None => mret None
      end
  end.

Definition classify_parent (ph : bytes) (ltc_height : option Z) : M unit :=
  let parent_state := if ltc_height is Some _ then 1 else 2 in
  _ ← put_db (λ db, set_cache_parents
        (alter (λ p, mkParent (sp_parent_hash_le p) (sp_parent_header p) ltc_height parent_state
                       (sp_work p)) ph (cache_parents db)) db);
  db ← get_db;
  write_txn (λ d, match cache_parents db !! ph with
                  | Some p => Ok ((), with_parents (<[ph := enc_parent p]> (t_parents d)) d)
                  | None => Ok ((), d)
                  end).

Definition unclassified_parents (db : Database) : list bytes :=
  omap (λ e, if sp_parent_state e.2 =? 0 then Some e.1 else None) (map_to_list (cache_parents db)).

(** The loop of [sibling_blocks_range]. *)
Fixpoint sibling_loop (t : gmap (Z * Z) bytes) (page : Page) (total : Z) (out : list StoredBlock)
    (keys : list (Z * Z)) : list StoredBlock * Z :=
  match keys with
  | [] => (out, total)
  | k :: keys =>
      match t !! k with
      | None => sibling_loop t page total out keys
      | Some v =>
          let total := total + 1 in
          if (page_offset page <? total) && (len out <? page_limit page) then
            match dec_block v with
            | Some b => sibling_loop t page total (out ++ [b]) keys
            | None => sibling_loop t page total out keys
            end
          else sibling_loop t page total out keys
      end
  end.

Definition sibling_blocks_range (ph : bytes) (page : Page) (db : Database) : list StoredBlock * Z :=
  sibling_loop (t_blocks (disk db)) page 0 [] (sibling_keys ph (t_siblings (disk db))).

Definition siblings_for_parent (ph : bytes) (db : Database) : list StoredBlock :=
  match cache_siblings db !! ph with
  | Some list_ => list_
  | None => (sibling_blocks_range ph Page_default db).1
  end.

(** One leg per chain: the lowest height seen. *)
Definition add_leg (filter : option Z) (m : gmap Z Z) (s : StoredBlock) : gmap Z Z :=
  if matches filter (sb_chain_id s)
  then <[sb_chain_id s := match m !! sb_chain_id s with
                          | Some h => Z.min h (sb_height s) | None => sb_height s end]> m
  else m.
Definition legs_of (filter : option Z) (siblings : list StoredBlock) : list (Z * Z) :=
  sort_by (λ a b, a.1 <=? b.1) (map_to_list (foldl (add_leg filter) ∅ siblings)).

Definition shared_le (a b : SharedParent) : bool :=
  (len (shp_legs b) <? len (shp_legs a))
  || ((len (shp_legs a) =? len (shp_legs b)) && (shp_ltc_height b <=? shp_ltc_height a)).

Definition shared_groups (min_legs : Z) (chain_filter : option Z) (db : Database) : list SharedParent :=
  omap (λ e : bytes * StoredParent,
    ltc_h ← sp_ltc_height e.2;
    siblings ← cache_siblings db !! e.1;
    let legs := legs_of chain_filter siblings in
    if min_legs <=? len legs then Some (mkShared e.1 ltc_h legs) else None)
    (map_to_list (cache_parents db)).

Definition shared_mainnet_parents (min_legs : Z) (page : Page) (chain_filter : option Z)
    (db : Database) : list SharedParent * Z :=
  let out := sort_by shared_le (shared_groups min_legs chain_filter db) in
  let total := len out in
  (page_of page out, total).

Definition latest_sibling_group (min_legs : Z) (db : Database) : option SharedParent :=
  last (shared_mainnet_parents min_legs (Page_new (Some 1) (Some 0)) None db).1.

Definition epoch_le (a b : Z * Z * Z * bytes) : bool :=
  let '(c1, h1, l1, _) := a in let '(c2, h2, l2, _) := b in
  (l1 <? l2) || ((l1 =? l2) && key_le (c1, h1) (c2, h2)).

Definition epoch_rows (chain_filter : option Z) (ltc_h : Z) (siblings : list StoredBlock) :
    list (Z * Z * Z * bytes) :=
  omap (λ s, if matches chain_filter (sb_chain_id s)
             then Some (sb_chain_id s, sb_height s, ltc_h, sb_hash_le s) else None) siblings.

Definition epoch_blocks (ltc_start ltc_end : Z) (chain_filter : option Z) (page : Page)
    (db : Database) : list (Z * Z * Z * bytes) * Z :=
  let out := concat (omap (λ e : bytes * StoredParent,
      ltc_h ← sp_ltc_height e.2;
      if (ltc_start <=? ltc_h) && (ltc_h <=? ltc_end) then
        siblings ← cache_siblings db !! e.1;
        Some (epoch_rows chain_filter ltc_h siblings)
      else None) (map_to_list (cache_parents db))) in
  let out := sort_by epoch_le out in
  let total := len out in
  (page_of page out, total).

(** ** Statistics *)

Definition chain_stat (m : gmap Z (Z * option Z * option Z)) (e : Z * Z * StoredBlock) :=
  let '(chain_id, height, _) := e in
  let '(n, lo, hi) := default (0, None, None) (m !! chain_id) in
  <[chain_id := (n + 1, Some (match lo with Some l => Z.min l height | None => height end),
                 Some (match hi with Some h => Z.max h height | None => height end))]> m.

Definition stats (db : Database) : Stats :=
  let chains := foldl chain_stat ∅ (map_to_list (cache_blocks db)) in
  let groups := List.filter (λ e : bytes * StoredParent,
      (sp_parent_state e.2 =? 1) &&
      match cache_siblings db !! e.1 with
      | Some s => 2 <=? Z.of_nat (size (list_to_set (sb_chain_id <$> s) : gset Z))
      | None => false
      end) (map_to_list (cache_parents db)) in
  mkStats (total_blocks db) (Z.of_nat (size (cache_parents db))) (len groups)
    ((λ e, mkChainStats e.1 e.2.1.1 e.2.1.2 e.2.2)
       <$> sort_by (λ a b, a.1 <=? b.1) (map_to_list chains)).
End db.
