(* ===== verification/DbSpec.v ===== *)
(** * What the storage guarantees

    The invariant of [Db.Database] between operations: the caches and the durable
    tables hold the same blocks, the sibling index and the sibling lists are
    exactly the stored blocks under their parents, and the classified parents are
    the durable ones.  Every write operation preserves it when its transaction
    commits, and the invariant gives the meaning of the queries. *)

From S2P Require Export Db.

#[local] Open Scope Z_scope.

(** ** Lists and maps *)

Lemma elem_of_filter_bool {A} (f : A → bool) (l : list A) x :
  x ∈ List.filter f l ↔ f x = true ∧ x ∈ l.
Proof. rewrite !list_elem_of_In, filter_In. tauto. Qed.

Lemma NoDup_filter_bool {A} (f : A → bool) (l : list A) : NoDup l → NoDup (List.filter f l).
Proof.
  induction 1 as [|x l Hx Hl IH]; cbn; [constructor|].
  destruct (f x); [|done]. constructor; [|done]. rewrite elem_of_filter_bool. tauto.
Qed.

Lemma fmap_filter_bool_sublist {A B} (f : A → bool) (g : A → B) (l : list A) :
  NoDup (g <$> l) → NoDup (g <$> List.filter f l).
Proof.
  induction l as [|x l IH]; cbn; [done|]. intros [Hx Hl]%NoDup_cons.
  destruct (f x); [|by apply IH]. cbn. constructor; [|by apply IH].
  intros (y & Hg & [_ Hy]%elem_of_filter_bool)%list_elem_of_fmap. apply Hx.
  apply list_elem_of_fmap. eauto.
Qed.

Lemma lookup_delete_all {K A} `{Countable K} (ks : list K) (t : gmap K A) k :
  delete_all ks t !! k = if decide (k ∈ ks) then None else t !! k.
Proof.
  unfold delete_all. revert t. induction ks as [|x ks IH]; intros t; cbn.
  - destruct (decide _) as [Hk|]; [by apply elem_of_nil in Hk|done].
  - rewrite IH. destruct (decide (k ∈ ks)) as [Hk|Hk], (decide (k ∈ x :: ks)) as [Hx|Hx].
    + done.
    + set_solver.
    + apply elem_of_cons in Hx as [->|]; [|done]. apply lookup_delete_eq.
    + apply lookup_delete_ne. set_solver.
Qed.

Lemma size_delete_all {K A} `{Countable K} (ks : list K) (t : gmap K A) :
  NoDup ks → (∀ k, k ∈ ks → is_Some (t !! k)) →
  Z.of_nat (size (delete_all ks t)) + len ks = Z.of_nat (size t).
Proof.
  unfold delete_all. intros Hnd. revert t.
  induction Hnd as [|k ks Hk Hks IH]; intros t Ht; cbn [foldl]; [unfold len; cbn; lia|].
  destruct (Ht k) as [v Hv]; [set_solver|].
  specialize (IH (delete k t)). rewrite (map_size_delete_Some k t) in IH by eauto.
  assert (size t ≠ 0%nat) by (eapply map_size_ne_0_lookup_2; eauto).
  unfold len in *. cbn [length].
  assert (∀ k', k' ∈ ks → is_Some (delete k t !! k')) as Hks'.
  { intros k' Hk'. rewrite lookup_delete_ne by set_solver. apply Ht. set_solver. }
  specialize (IH Hks'). lia.
Qed.

Lemma lookup_foldl_insert {K A B} `{Countable K} (key : B → K) (val : B → A) (l : list B)
    (t : gmap K A) k v :
  (∀ x y, x ∈ l → y ∈ l → key x = key y → val x = val y) →
  (∀ x w, x ∈ l → t !! key x = Some w → w = val x) →
  foldl (λ t x, <[key x := val x]> t) t l !! k = Some v ↔
  (∃ x, x ∈ l ∧ k = key x ∧ v = val x) ∨ t !! k = Some v.
Proof.
  revert t. induction l as [|x l IH]; intros t Hl Ht; cbn; [set_solver|].
  rewrite IH.
  - destruct (decide (k = key x)) as [->|Hk].
    + rewrite lookup_insert_eq. split; [|].
      * intros [(y & Hy & Hkey & ->)|[= <-]]; left; [|by exists x; set_solver].
        exists y. set_solver.
      * intros [(y & Hy & Hkey & ->)|Hv]; right; f_equal;
          [apply Hl; set_solver|]. symmetry. apply Ht; [set_solver|done].
    + rewrite lookup_insert_ne by done. split; [|].
      * intros [(y & Hy & ?)|?]; [left|by right]. exists y. set_solver.
      * intros [(y & Hy & Hkey & ?)|?]; [left|by right]. exists y.
        apply elem_of_cons in Hy as [->|]; [done|done].
  - intros y z Hy Hz. apply Hl; set_solver.
  - intros y w Hy. destruct (decide (key x = key y)) as [Hxy|Hxy].
    + rewrite Hxy, lookup_insert_eq. intros [= <-]. apply Hl; set_solver.
    + rewrite lookup_insert_ne by done. apply Ht. set_solver.
Qed.

(** ** The monad without faults *)

Lemma write_txn_ok {A} (f : Disk → Result DbError (A * Disk)) db a d :
  faults db = [] → f (disk db) = Ok (a, d) → write_txn f db = (Ok a, set_disk d db).
Proof. intros Hf Hd. destruct db; cbn in *. subst. unfold write_txn; cbn. by rewrite Hd. Qed.

Lemma bind_step {A B} (m : M A) (k : A → M B) db a db' :
  m db = (Ok a, db') → (m ≫= k) db = k a db'.
Proof. unfold mbind, M_bind. by intros ->. Qed.

(** ** Ranges *)

Lemma elem_of_block_rows c lo hi t k v :
  (k, v) ∈ block_rows c lo hi t ↔ t !! k = Some v ∧ in_range c lo hi k = true.
Proof.
  unfold block_rows. rewrite elem_of_sort_by, elem_of_filter_bool, elem_of_map_to_list. cbn. tauto.
Qed.

Lemma in_range_true c lo hi k : in_range c lo hi k = true ↔ k.1 = c ∧ lo ≤ k.2 ≤ hi.
Proof.
  unfold in_range. rewrite !andb_true_iff, Z.eqb_eq, !Z.leb_le. tauto.
Qed.

Lemma block_rows_keys c lo hi t k :
  k ∈ (block_rows c lo hi t).*1 ↔ is_Some (t !! k) ∧ in_range c lo hi k = true.
Proof.
  rewrite list_elem_of_fmap. split.
  - intros ([k' v] & -> & [? ?]%elem_of_block_rows). eauto.
  - intros [[v ?] ?]. exists (k, v). by rewrite elem_of_block_rows.
Qed.

Lemma NoDup_block_rows c lo hi t : NoDup (block_rows c lo hi t).*1.
Proof.
  unfold block_rows. rewrite sort_by_Permutation. apply fmap_filter_bool_sublist.
  apply NoDup_fst_map_to_list.
Qed.

Lemma elem_of_sibling_keys p t c h : (c, h) ∈ sibling_keys p t ↔ (p, c, h) ∈ t.
Proof.
  unfold sibling_keys. rewrite elem_of_sort_by, list_elem_of_omap. split.
  - intros ([[q c'] h'] & Hin & Heq). cbn in Heq. case_decide; simplify_eq.
    by apply elem_of_elements in Hin.
  - intros Hin. exists (p, c, h). rewrite elem_of_elements. cbn. by rewrite decide_True.
Qed.

(** ** The invariant *)

Section invariant.
Context `{Sha256} `{HexCodec} `{Codec}.

Definition block_key (b : StoredBlock) : Z * Z := (sb_chain_id b, sb_height b).

(** What the code promises of a cached parent. *)
Record parent_ok (p : bytes) (sp : StoredParent) : Prop := {
  po_hash : sp_parent_hash_le sp = p;
  po_header : sha256d (sp_parent_header sp) = p;
  po_state : sp_parent_state sp = 0 ∧ sp_ltc_height sp = None
             ∨ sp_parent_state sp = 1 ∧ is_Some (sp_ltc_height sp)
             ∨ sp_parent_state sp = 2 ∧ sp_ltc_height sp = None
}.

Definition classified (e : bytes * StoredParent) : Prop := sp_parent_state e.2 ≠ 0.
#[export] Instance classified_dec e : Decision (classified e).
Proof. unfold classified. apply _. Defined.

Record coherent (db : Database) : Prop := {
  co_blocks : t_blocks (disk db) = enc_block <$> cache_blocks db;
  co_keys : ∀ k b, cache_blocks db !! k = Some b →
    k = block_key b ∧ is_u32 k.1 ∧ is_u64 k.2 ∧ is_Some (db_parent_hash b);
  co_index : ∀ p c h, (p, c, h) ∈ t_siblings (disk db) ↔
    ∃ b, cache_blocks db !! (c, h) = Some b ∧ db_parent_hash b = Some p;
  co_siblings : ∀ p b, b ∈ default [] (cache_siblings db !! p) ↔
    cache_blocks db !! block_key b = Some b ∧ db_parent_hash b = Some p;
  co_nodup : ∀ p, NoDup (default [] (cache_siblings db !! p));
  co_parent_ok : ∀ p sp, cache_parents db !! p = Some sp → parent_ok p sp;
  co_parents : t_parents (disk db) = enc_parent <$> filter classified (cache_parents db);
  co_meta : t_meta (disk db) = cache_meta db;
  co_intents : t_intents (disk db) = enc_intent <$> cache_intents db
}.

(** The parent of every stored block is cached: true of a database that has not
    been reopened since its blocks were inserted, or whose parents were all
    classified by then. *)
Definition parents_known (db : Database) : Prop :=
  ∀ k b p, cache_blocks db !! k = Some b → db_parent_hash b = Some p →
           is_Some (cache_parents db !! p).

(** ** Rows to insert *)

(** A row under its own key, with a parent header long enough to hold [nBits]. *)
Record row_ok (row : Z * Z * StoredBlock) : Prop := {
  ro_key : row.1 = block_key row.2;
  ro_chain : is_u32 row.1.1;
  ro_height : is_u64 row.1.2;
  ro_aux : ∃ a, aux (sb_header row.2) = Some a ∧ 76 ≤ len (parent_header a)
}.

(** No two rows, and no row and stored block, disagree on a key. *)
Definition rows_agree (c : gmap (Z * Z) StoredBlock) (rows : list (Z * Z * StoredBlock)) : Prop :=
  (∀ r r', r ∈ rows → r' ∈ rows → r.1 = r'.1 → r.2 = r'.2) ∧
  (∀ r b, r ∈ rows → c !! r.1 = Some b → b = r.2).

Lemma parent_work_Some header : 76 ≤ len header → is_Some (parent_work header).
Proof.
  intros Hlen. unfold parent_work, index_u32_le.
  assert (get_range header 72 (72 + 4) = Some (slice header 72 76)) as ->.
  { apply get_range_Some. split_and!; [lia|lia|done]. }
  set (bits := le_num (slice header 72 76)).
  assert (is_u32 bits) as Hbits by (apply slice_u32; lia).
  cbn [fmap option_fmap option_map mbind option_bind]. fold bits.
  rewrite (expand_target_spec bits Hbits). destruct (decide _); cbn [default from_option id].
  - destruct (block_work_value (be_bytes 32 (compact_value bits))) as (w & -> & _); [|by eexists].
    apply length_be_bytes.
  - destruct (block_work_value (replicate 32 xff)) as (w & -> & _); [|by eexists]. done.
Qed.

Lemma row_parent row : row_ok row → ∃ p, db_parent_hash row.2 = Some p.
Proof. intros [_ _ _ (a & Ha & _)]. unfold db_parent_hash. rewrite Ha. eauto. Qed.

Lemma insert_rows_ok rows d :
  Forall row_ok rows →
  ∃ d', insert_rows rows d = Ok d' ∧
    t_blocks d' = foldl (λ t row, <[row.1 := enc_block row.2]> t) (t_blocks d) rows ∧
    (∀ p c h, (p, c, h) ∈ t_siblings d' ↔
       (∃ b, ((c, h), b) ∈ rows ∧ db_parent_hash b = Some p) ∨ (p, c, h) ∈ t_siblings d) ∧
    t_parents d' = t_parents d ∧ t_meta d' = t_meta d ∧ t_intents d' = t_intents d.
Proof.
  intros Hrows. revert d. induction Hrows as [|[[c h] b] rows Hrow Hrows IH]; intros d.
  { exists d. cbn. split_and!; [done|done|set_solver|done..]. }
  destruct (row_parent _ Hrow) as [p Hp]. cbn in Hp.
  cbn [insert_rows]. unfold insert_row. rewrite Hp. cbn.
  destruct (IH (with_siblings ({[(p, c, h)]} ∪ t_siblings d)
                  (with_blocks (<[(c, h) := enc_block b]> (t_blocks d)) d)))
    as (d' & -> & Hb & Hs & Hp' & Hm & Hi).
  exists d'. split_and!; [done|done| |done..].
  intros q c' h'. rewrite Hs. cbn. rewrite elem_of_union, elem_of_singleton. split.
  - intros [(b' & ? & ?)|[Heq|?]]; [left; exists b'; set_solver|left|by right].
    simplify_eq. exists b. set_solver.
  - intros [(b' & [Heq|?]%elem_of_cons & ?)|?]; [|left; eauto|tauto].
    simplify_eq. tauto.
Qed.

(** ** The caches after a commit *)

Lemma push_sibling_elem (C : gmap (Z * Z) StoredBlock) l b x :
  (∀ y, y ∈ l → C !! block_key y = Some y) → C !! block_key b = Some b → NoDup l →
  (x ∈ push_sibling l b ↔ x ∈ l ∨ x = b) ∧ NoDup (push_sibling l b).
Proof.
  intros Hl Hb Hnd. unfold push_sibling. destruct (existsb _ l) eqn:Hex.
  - apply existsb_exists in Hex as (y & Hy%list_elem_of_In & Hkey). reflect_bools.
    assert (y = b) as ->.
    { pose proof (Hl y Hy) as Hy'. unfold block_key in *. congruence. }
    split; [|done]. set_solver.
  - split; [set_solver|]. apply NoDup_app. split_and!; [done| |apply NoDup_singleton].
    intros y Hy ->%list_elem_of_singleton.
    assert (existsb (λ b', (sb_chain_id b' =? sb_chain_id b) && (sb_height b' =? sb_height b)) l = true)
      as Ht; [|congruence].
    apply existsb_exists. exists b. rewrite <-list_elem_of_In. split; [done|]. by rewrite !Z.eqb_refl.
Qed.

(** The state of the post-commit loop: [C] is the final block cache. *)
Record indexed (C : gmap (Z * Z) StoredBlock) (done : StoredBlock → Prop) (db : Database) : Prop := {
  ix_elem : ∀ p b, b ∈ default [] (cache_siblings db !! p) ↔
    C !! block_key b = Some b ∧ db_parent_hash b = Some p ∧ done b;
  ix_nodup : ∀ p, NoDup (default [] (cache_siblings db !! p));
  ix_parent_ok : ∀ p sp, cache_parents db !! p = Some sp → parent_ok p sp
}.

(** Two databases that differ at most in the caches the loop writes: the sibling
    lists and some unclassified parents more. *)
Record extends (db db' : Database) : Prop := {
  ext_disk : disk db' = disk db;
  ext_blocks : cache_blocks db' = cache_blocks db;
  ext_meta : cache_meta db' = cache_meta db;
  ext_intents : cache_intents db' = cache_intents db;
  ext_faults : faults db' = faults db;
  ext_parents : ∀ p, cache_parents db' !! p = cache_parents db !! p ∨
    cache_parents db !! p = None ∧ ∃ sp, cache_parents db' !! p = Some sp ∧ sp_parent_state sp = 0
}.

Lemma extends_refl db : extends db db.
Proof. split; auto. Qed.

Lemma extends_trans db1 db2 db3 : extends db1 db2 → extends db2 db3 → extends db1 db3.
Proof.
  intros [] []. split; try congruence. intros p.
  destruct (ext_parents0 p) as [?|(? & sp & ? & ?)], (ext_parents1 p) as [?|(? & sp' & ? & ?)];
    try (left; congruence); right; split; try congruence; try (exists sp; split; congruence).
  exists sp'. done.
Qed.

Lemma extends_known db db' p : extends db db' → is_Some (cache_parents db !! p) → is_Some (cache_parents db' !! p).
Proof. intros [] Hp. destruct (ext_parents0 p) as [->|(? & ? & -> & _)]; [done|by eexists]. Qed.

(** A block pushed into the group of its parent. *)
Lemma index_sibling_ok C b p db seen :
  C !! block_key b = Some b → db_parent_hash b = Some p → indexed C seen db →
  indexed C (λ b', seen b' ∨ b' = b) (set_cache_siblings
    (<[p := push_sibling (default [] (cache_siblings db !! p)) b]> (cache_siblings db)) db).
Proof.
  intros HC Hp [Hel Hnd Hpo].
  assert (∀ x, (x ∈ push_sibling (default [] (cache_siblings db !! p)) b ↔
                x ∈ default [] (cache_siblings db !! p) ∨ x = b) ∧
               NoDup (push_sibling (default [] (cache_siblings db !! p)) b)) as Hpush.
  { intros x. apply (push_sibling_elem C); [|done|apply Hnd]. intros y Hy%Hel. tauto. }
  split; [| |done].
  - intros q x. cbn. destruct (decide (p = q)) as [<-|Hq].
    + rewrite lookup_insert_eq. cbn. rewrite (proj1 (Hpush x)), Hel.
      split; [intros [?| ->]; tauto|tauto].
    + rewrite lookup_insert_ne, Hel by done. split; [tauto|].
      intros (? & Hx & [?| ->]); [tauto|congruence].
  - intros q. cbn. destruct (decide (p = q)) as [<-|Hq].
    + rewrite lookup_insert_eq. apply (Hpush b).
    + by rewrite lookup_insert_ne.
Qed.

Lemma index_row_ok C row db seen :
  row_ok row → C !! row.1 = Some row.2 → indexed C seen db →
  ∃ db', index_row row db = (Ok (), db') ∧ extends db db' ∧
    indexed C (λ b, seen b ∨ b = row.2) db' ∧
    (∀ p, db_parent_hash row.2 = Some p → is_Some (cache_parents db' !! p)).
Proof.
  destruct row as [[c h] b]. intros [Hkey _ _ (a & Ha & Hlen)] HC Hix.
  cbn [fst snd] in *.
  set (p := sha256d (parent_header a)).
  assert (db_parent_hash b = Some p) as Hp by (unfold db_parent_hash; by rewrite Ha).
  unfold block_key in Hkey. simplify_eq.
  set (db1 := set_cache_siblings
    (<[p := push_sibling (default [] (cache_siblings db !! p)) b]> (cache_siblings db)) db).
  assert (indexed C (λ b', seen b' ∨ b' = b) db1) as Hix1 by (by apply index_sibling_ok).
  assert (extends db db1) as Hext1 by (split; auto).
  assert (index_row (sb_chain_id b, sb_height b, b) db =
    (db ← get_db;
     if bool_decide (is_Some (cache_parents db !! p)) then mret () else
     match parent_work (parent_header a) with
     | None => fail DbPanic
     | Some work => put_db (λ db, set_cache_parents
         (<[p := mkParent p (parent_header a) None 0 work]> (cache_parents db)) db)
     end) db1) as ->.
  { unfold index_row. rewrite Ha. reflexivity. }
  unfold mbind, M_bind, put_db, get_db. cbn beta iota zeta.
  case_bool_decide as Hin.
  - exists db1. split_and!; [done|done|done|]. intros q Hq. by simplify_eq.
  - destruct (parent_work_Some (parent_header a) Hlen) as [w ->].
    eexists. split; [reflexivity|]. apply eq_None_not_Some in Hin.
    split_and!.
    + eapply extends_trans; [done|]. split; try done. intros q. cbn.
      destruct (decide (p = q)) as [<-|Hq]; [right|left; by rewrite lookup_insert_ne].
      split; [done|]. eexists. by rewrite lookup_insert_eq.
    + destruct Hix1 as [Hel1 Hnd1 _]. split; [exact Hel1|exact Hnd1|].
      intros q sp. cbn. destruct (decide (p = q)) as [<-|Hq].
      * rewrite lookup_insert_eq. intros [= <-]. split; [done|done|]. cbn. tauto.
      * rewrite lookup_insert_ne by done. apply (ix_parent_ok _ _ _ Hix).
    + intros q Hq. cbn. simplify_eq. rewrite lookup_insert_eq. by eexists.
Qed.

Lemma index_rows_ok C rows db seen :
  Forall row_ok rows → (∀ row, row ∈ rows → C !! row.1 = Some row.2) → indexed C seen db →
  ∃ db', for_each index_row rows db = (Ok (), db') ∧ extends db db' ∧
    indexed C (λ b, seen b ∨ b ∈ rows.*2) db' ∧
    (∀ row p, row ∈ rows → db_parent_hash row.2 = Some p → is_Some (cache_parents db' !! p)).
Proof.
  intros Hrows. revert db seen. induction Hrows as [|row rows Hrow Hrows IH]; intros db seen HC Hix.
  { exists db. split_and!; [done|apply extends_refl| |set_solver].
    destruct Hix as [Hel ? ?]. split; [|done|done]. intros p b. rewrite Hel. set_solver. }
  destruct (index_row_ok C row db seen Hrow) as (db1 & Hrun & Hext1 & Hix1 & Hp1); [set_solver|done|].
  destruct (IH db1 _ ltac:(set_solver) Hix1) as (db2 & Hrun2 & Hext2 & Hix2 & Hp2).
  exists db2. split_and!.
  - cbn [for_each]. by rewrite (bind_step _ _ _ _ _ Hrun).
  - by eapply extends_trans.
  - destruct Hix2 as [Hel ? ?]. split; [|done|done]. intros p b. rewrite Hel. set_solver.
  - intros r p [->|Hr]%elem_of_cons Hp; [|by eapply Hp2].
    eapply extends_known; [exact Hext2|]. by apply Hp1.
Qed.

Lemma extends_classified db db' :
  extends db db' → filter classified (cache_parents db') = filter classified (cache_parents db).
Proof.
  intros Hext. apply map_eq. intros p. rewrite !map_lookup_filter.
  destruct (ext_parents _ _ Hext p) as [->|(-> & sp & -> & Hsp)]; [done|]. cbn.
  rewrite option_guard_False; [done|]. unfold classified. cbn. lia.
Qed.

(** ** Inserting *)

Lemma cache_rows_enc (rows : list (Z * Z * StoredBlock)) (c : gmap (Z * Z) StoredBlock) :
  enc_block <$> foldl cache_row c rows
  = foldl (λ t row, <[row.1 := enc_block row.2]> t) (enc_block <$> c) rows.
Proof.
  revert c. induction rows as [|[[c' h] b] rows IH]; intros c; cbn; [done|].
  rewrite IH. unfold cache_row. cbn. by rewrite fmap_insert.
Qed.

Lemma cache_rows_lookup (rows : list (Z * Z * StoredBlock)) (c : gmap (Z * Z) StoredBlock) k b :
  rows_agree c rows →
  foldl cache_row c rows !! k = Some b ↔ (k, b) ∈ rows ∨ c !! k = Some b.
Proof.
  intros [Hrr Hrc].
  assert (∀ c', foldl cache_row c' rows = foldl (λ t row, <[row.1 := row.2]> t) c' rows) as ->.
  { clear. induction rows as [|[[? ?] ?] ? IH]; intros c'; cbn; [done|]. by rewrite IH. }
  rewrite (lookup_foldl_insert fst snd); [| |].
  - split; intros [Hl|]; try tauto; left.
    + destruct Hl as ([k' b'] & ? & -> & ->). done.
    + by exists (k, b).
  - intros r r' Hr Hr'. by apply Hrr.
  - intros r w Hr Hw. by eapply Hrc.
Qed.

(** After its transaction, an insertion indexes its rows in the caches. *)
Lemma insert_blocks_index rows db d :
  rows ≠ [] → insert_rows rows (disk db) = Ok d → faults db = [] →
  insert_blocks rows db
  = for_each index_row rows (set_disk d (set_cache_blocks (foldl cache_row (cache_blocks db) rows) db)).
Proof.
  intros Hne Hd Hf. destruct rows as [|row rows]; [done|]. unfold insert_blocks.
  rewrite (bind_step _ _ db () (set_cache_blocks (foldl cache_row (cache_blocks db) (row :: rows)) db)) by done.
  erewrite bind_step; [done|]. apply write_txn_ok; [done|]. cbn [disk set_cache_blocks]. by rewrite Hd.
Qed.

Lemma insert_blocks_spec db rows :
  coherent db → Forall row_ok rows → rows_agree (cache_blocks db) rows → faults db = [] →
  ∃ db', insert_blocks rows db = (Ok (), db') ∧ coherent db' ∧
    (parents_known db → parents_known db') ∧
    (∀ k b, cache_blocks db' !! k = Some b ↔ (k, b) ∈ rows ∨ cache_blocks db !! k = Some b) ∧
    cache_meta db' = cache_meta db ∧ cache_intents db' = cache_intents db ∧ faults db' = [].
Proof.
  intros Hco Hrows Hagree Hf.
  destruct (decide (rows = [])) as [->|Hne].
  { exists db. split_and!; [done|done|done|set_solver|done..]. }
  set (C := foldl cache_row (cache_blocks db) rows).
  assert (∀ k b, C !! k = Some b ↔ (k, b) ∈ rows ∨ cache_blocks db !! k = Some b) as HC.
  { intros k b. by apply cache_rows_lookup. }
  destruct (insert_rows_ok rows (disk db) Hrows) as (d & Hd & Hdb & Hds & Hdp & Hdm & Hdi).
  set (db2 := set_disk d (set_cache_blocks C db)).
  assert (indexed C (λ b, cache_blocks db !! block_key b = Some b) db2) as Hix.
  { destruct Hco. split; [|done|done]. intros p b. cbn. rewrite co_siblings0, HC. tauto. }
  assert (∀ row, row ∈ rows → C !! row.1 = Some row.2) as HrC.
  { intros [k b] Hr. apply HC. tauto. }
  destruct (index_rows_ok C rows db2 _ Hrows HrC Hix) as (db' & Hrun & Hext & Hix' & Hkn).
  exists db'.
  assert (insert_blocks rows db = (Ok (), db')) as -> by (rewrite <-Hrun; by apply insert_blocks_index).
  pose proof (ext_disk _ _ Hext) as Hdisk. pose proof (ext_blocks _ _ Hext) as Hblocks.
  cbn in Hdisk, Hblocks.
  assert (∀ row, row ∈ rows → row_ok row) as Hok by (by apply Forall_forall).
  split_and!; [done| | | | | |].
  - split.
    + rewrite Hdisk, Hblocks, Hdb, (co_blocks _ Hco). symmetry. apply cache_rows_enc.
    + rewrite Hblocks. intros k b [Hr|Hb]%HC; [|by apply (co_keys _ Hco)].
      destruct (Hok _ Hr). split_and!; [done|done|done|]. apply (row_parent (k, b)). by apply Hok.
    + intros p c h. rewrite Hdisk, Hblocks, Hds, (co_index _ Hco). setoid_rewrite HC. naive_solver.
    + intros p b. rewrite (ix_elem _ _ _ Hix'), Hblocks. split; [tauto|].
      intros [Hb Hp]. split_and!; [done|done|]. apply HC in Hb as [Hb|]; [|by left].
      right. apply list_elem_of_fmap. by exists (block_key b, b).
    + apply (ix_nodup _ _ _ Hix').
    + apply (ix_parent_ok _ _ _ Hix').
    + rewrite Hdisk, Hdp, (co_parents _ Hco). by rewrite (extends_classified _ _ Hext).
    + rewrite Hdisk, Hdm, (co_meta _ Hco). by rewrite (ext_meta _ _ Hext).
    + rewrite Hdisk, Hdi, (co_intents _ Hco). by rewrite (ext_intents _ _ Hext).
  - intros Hpk k b p. rewrite Hblocks. intros [Hr|Hb]%HC Hp.
    + by eapply (Hkn (k, b)).
    + eapply extends_known; [exact Hext|]. by eapply Hpk.
  - intros k b. rewrite Hblocks. apply HC.
  - by rewrite (ext_meta _ _ Hext).
  - by rewrite (ext_intents _ _ Hext).
  - by rewrite (ext_faults _ _ Hext).
Qed.

(** ** Removing *)

Lemma foldl_difference (p : bytes) (ks : list (Z * Z)) (t : gset (bytes * Z * Z)) (q : bytes) (c h : Z) :
  (q, c, h) ∈ foldl (λ t k, t ∖ {[(p, k.1, k.2)]}) t ks ↔
  (q, c, h) ∈ t ∧ ¬ (q = p ∧ (c, h) ∈ ks).
Proof.
  revert t. induction ks as [|[c' h'] ks IH]; intros t; cbn; [set_solver|].
  rewrite IH, elem_of_difference, elem_of_singleton, elem_of_cons. split.
  - intros [[Hin Hne] Hnot]. split; [done|]. intros [-> [[= -> ->]|?]]; [by apply Hne|tauto].
  - intros [Hin Hnot]. split; [split; [done|]|]; [intros [= -> -> ->]; tauto|tauto].
Qed.

Lemma rollback_siblings (c0 from : Z) (parents : list bytes) (t : gset (bytes * Z * Z)) (q : bytes) (c h : Z) :
  (q, c, h) ∈ foldl (λ t p,
      foldl (λ t k, t ∖ {[(p, k.1, k.2)]}) t
        (List.filter (in_range c0 from u64_max) (sibling_keys p t))) t parents ↔
  (q, c, h) ∈ t ∧ ¬ (q ∈ parents ∧ in_range c0 from u64_max (c, h) = true).
Proof.
  revert t. induction parents as [|p parents IH]; intros t; cbn; [set_solver|].
  rewrite IH, foldl_difference, elem_of_filter_bool, elem_of_sibling_keys, elem_of_cons.
  split; [|].
  - intros [[Hin Hnot1] Hnot2]. split; [done|]. intros [[->|Hq] Hr]; [|tauto].
    apply Hnot1. tauto.
  - intros [Hin Hnot]. split; [split; [done|]|]; [|tauto]. intros (-> & ? & ?). tauto.
Qed.

(** What a removal of the keys in [gone] leaves is coherent. *)
Lemma shrink_coherent (gone : Z * Z → bool) db db' :
  coherent db →
  (∀ k, cache_blocks db' !! k = if gone k then None else cache_blocks db !! k) →
  t_blocks (disk db') = enc_block <$> cache_blocks db' →
  (∀ p c h, (p, c, h) ∈ t_siblings (disk db') ↔
     (p, c, h) ∈ t_siblings (disk db) ∧ gone (c, h) = false) →
  (∀ p b, b ∈ default [] (cache_siblings db' !! p) ↔
     b ∈ default [] (cache_siblings db !! p) ∧ gone (block_key b) = false) →
  (∀ p, NoDup (default [] (cache_siblings db' !! p))) →
  (∀ p sp, cache_parents db' !! p = Some sp → cache_parents db !! p = Some sp) →
  t_parents (disk db') = enc_parent <$> filter classified (cache_parents db') →
  t_meta (disk db') = cache_meta db' →
  t_intents (disk db') = enc_intent <$> cache_intents db' →
  coherent db'.
Proof.
  intros Hco Hb Htb Hts Hcs Hnd Hp Htp Hm Hi. split; try done.
  - intros k b. rewrite Hb. destruct (gone k); [done|]. apply (co_keys _ Hco).
  - intros p c h. rewrite Hts, (co_index _ Hco). setoid_rewrite Hb.
    destruct (gone (c, h)); naive_solver.
  - intros p b. rewrite Hcs, (co_siblings _ Hco), Hb. destruct (gone (block_key b)); naive_solver.
  - intros p sp Hsp%Hp. by apply (co_parent_ok _ Hco).
Qed.

Lemma retain_each_run keep phs db :
  NoDup phs →
  ∃ es cs, retain_each keep phs db = (Ok es, set_cache_siblings cs db) ∧
    (∀ p, cs !! p = if decide (p ∈ phs) then List.filter keep <$> cache_siblings db !! p
                    else cache_siblings db !! p) ∧
    (∀ p, p ∈ es ↔ p ∈ phs ∧ ∃ l, cache_siblings db !! p = Some l ∧ List.filter keep l = []).
Proof.
  intros Hnd. revert db. induction Hnd as [|ph phs Hph Hnd IH]; intros db.
  { exists [], (cache_siblings db). split_and!; [by destruct db|done|set_solver]. }
  cbn [retain_each]. unfold retain_siblings.
  destruct (cache_siblings db !! ph) as [l|] eqn:Hl.
  - destruct (IH (set_cache_siblings (<[ph := List.filter keep l]> (cache_siblings db)) db))
      as (es & cs & Hrun & Hcs & Hes).
    unfold mbind, M_bind, get_db, put_db, mret, M_ret in *. cbn beta iota zeta. rewrite Hl.
    cbn beta iota zeta. rewrite Hrun. eexists _, cs. split; [reflexivity|]. split.
    + intros p. rewrite Hcs. cbn. destruct (decide (p = ph)) as [->|Hne].
      * rewrite decide_False, decide_True, lookup_insert_eq, Hl by set_solver. done.
      * rewrite lookup_insert_ne by done. do 2 case_decide; set_solver.
    + intros p. assert (p ∈ match match List.filter keep l with [] => Some ph | _ :: _ => None end with
                            | Some ph => ph :: es | None => es end ↔
                        p = ph ∧ List.filter keep l = [] ∨ p ∈ es) as ->.
      { destruct (List.filter keep l); set_solver. }
      rewrite Hes, elem_of_cons. cbn. destruct (decide (p = ph)) as [->|Hne].
      * rewrite Hl. naive_solver.
      * rewrite lookup_insert_ne by done. naive_solver.
  - destruct (IH db) as (es & cs & Hrun & Hcs & Hes).
    unfold mbind, M_bind, get_db, mret, M_ret in *. cbn beta iota zeta. rewrite Hl.
    cbn beta iota zeta. rewrite Hrun. exists es, cs. split; [reflexivity|]. split.
    + intros p. rewrite Hcs. destruct (decide (p = ph)) as [->|Hne].
      * rewrite decide_False, decide_True, Hl by set_solver. done.
      * do 2 case_decide; set_solver.
    + intros p. rewrite Hes. destruct (decide (p = ph)) as [->|Hne]; [|set_solver].
      rewrite Hl. naive_solver.
Qed.

Definition dropped (es : list bytes) (db : Database) : Database :=
  set_disk (with_parents (delete_all es (t_parents (disk db))) (disk db))
    (set_cache_parents (delete_all es (cache_parents db))
      (set_cache_siblings (delete_all es (cache_siblings db)) db)).

Lemma drop_parents_run es db :
  faults db = [] → for_each drop_parent es db = (Ok (), dropped es db).
Proof.
  revert db. induction es as [|ph es IH]; intros db Hf; [by destruct db as [[]]|].
  cbn [for_each]. rewrite (bind_step _ _ _ () (dropped [ph] db)).
  - rewrite IH by done. reflexivity.
  - destruct db as [[] ? ? ? ? ? ?]. cbn in Hf. subst. reflexivity.
Qed.

(** ** Metadata *)

Definition meta_set (k v : string) (db : Database) : Database :=
  set_disk (with_meta (<[k := v]> (t_meta (disk db))) (disk db))
    (set_cache_meta (<[k := v]> (cache_meta db)) db).

Lemma get_meta_run key db :
  t_meta (disk db) = cache_meta db → get_meta key db = (Ok (cache_meta db !! key), db).
Proof.
  intros Hm. unfold get_meta. unfold mbind, M_bind, get_db, mret, M_ret. rewrite Hm.
  by destruct (cache_meta db !! key).
Qed.

Lemma set_meta_run k v db : faults db = [] → set_meta k v db = (Ok (), meta_set k v db).
Proof. intros Hf. unfold set_meta. destruct db as [[] ? ? ? ? ? ?]. cbn in Hf. by subst. Qed.

Lemma coherent_meta_set k v db : coherent db → coherent (meta_set k v db).
Proof. intros []. split; try done. cbn. by rewrite co_meta0. Qed.

(** The cursor after a rollback to below [from]. *)
Definition clip_cursor (c from : Z) (db : Database) : Database :=
  match cache_meta db !! cursor_key c ≫= parse_u64 with
  | Some hh => if from <=? hh then meta_set (cursor_key c) (pretty (saturating_sub from 1)) db else db
  | None => db
  end.

Lemma clip_cursor_coherent c from db : coherent db → coherent (clip_cursor c from db).
Proof.
  intros Hco. unfold clip_cursor. destruct (_ ≫= _); [|done].
  destruct (_ <=? _); [by apply coherent_meta_set|done].
Qed.

Lemma clip_cursor_same c from db :
  let db' := clip_cursor c from db in
  cache_blocks db' = cache_blocks db ∧ cache_parents db' = cache_parents db ∧
  cache_siblings db' = cache_siblings db ∧ cache_intents db' = cache_intents db ∧ faults db' = faults db.
Proof. unfold clip_cursor. destruct (_ ≫= _); [destruct (_ <=? _)|]; done. Qed.

(** ** Rollback *)

(** A parent all of whose stored blocks, at least one, are gone. *)
Definition orphaned (gone : Z * Z → bool) (db : Database) (p : bytes) : Prop :=
  (∃ k b, cache_blocks db !! k = Some b ∧ db_parent_hash b = Some p) ∧
  (∀ k b, cache_blocks db !! k = Some b → db_parent_hash b = Some p → gone k = true).

Definition from_on (c from : Z) (k : Z * Z) : bool := (k.1 =? c) && (from <=? k.2).

Lemma filter_nil_iff {A} (f : A → bool) l : List.filter f l = [] ↔ ∀ x, x ∈ l → f x = false.
Proof.
  split.
  - intros Hf x Hx. destruct (f x) eqn:Hfx; [|done].
    assert (x ∈ List.filter f l) as Hin by (by apply elem_of_filter_bool). rewrite Hf in Hin. set_solver.
  - intros Hl. apply elem_of_nil_inv. intros x [? Hx]%elem_of_filter_bool. by rewrite Hl in *.
Qed.

(** The parents whose last block goes, as the in-memory pass computes them. *)
Lemma orphaned_iff (gone : Z * Z → bool) (db : Database) (phs : list bytes) (p : bytes) :
  coherent db →
  (∀ p, p ∈ phs ↔ ∃ k b, cache_blocks db !! k = Some b ∧ gone k = true ∧ db_parent_hash b = Some p) →
  (p ∈ phs ∧ ∃ l, cache_siblings db !! p = Some l ∧
     List.filter (λ b, negb (gone (block_key b))) l = []) ↔ orphaned gone db p.
Proof.
  intros Hco Hphs. rewrite Hphs. unfold orphaned. split.
  - intros [(k & b & Hb & Hg & Hp) (l & Hl & Hnil)]. split; [eauto|].
    intros k' b' Hb' Hp'. destruct (co_keys _ Hco k' b' Hb') as (-> & _).
    rewrite filter_nil_iff in Hnil. apply negb_false_iff, Hnil.
    pose proof (co_siblings _ Hco p b') as Hin. rewrite Hl in Hin. by apply Hin.
  - intros [(k & b & Hb & Hp) Hall]. split; [exists k, b; eauto|].
    destruct (co_keys _ Hco k b Hb) as (-> & _).
    pose proof (proj2 (co_siblings _ Hco p b)) as Hin.
    destruct (cache_siblings db !! p) as [l|] eqn:Hl; [|cbn in Hin; set_solver].
    exists l. split; [done|]. apply filter_nil_iff. intros x Hx. apply negb_false_iff.
    apply (Hall _ x); [|]; apply (co_siblings _ Hco p x); by rewrite Hl.
Qed.

Lemma gone_parents (f : Z * Z → bool) db p :
  p ∈ remove_dups (sort_by hash_le (omap (λ e : Z * Z * StoredBlock, db_parent_hash e.2)
        (sort_by (λ a b, key_le a.1 b.1)
           (List.filter (λ e : Z * Z * StoredBlock, f e.1) (map_to_list (cache_blocks db)))))) ↔
  ∃ k b, cache_blocks db !! k = Some b ∧ f k = true ∧ db_parent_hash b = Some p.
Proof.
  rewrite elem_of_remove_dups, elem_of_sort_by, list_elem_of_omap. split.
  - intros ([k b] & Hin & Hp). rewrite elem_of_sort_by, elem_of_filter_bool, elem_of_map_to_list in Hin.
    exists k, b. tauto.
  - intros (k & b & Hb & Hf & Hp). exists (k, b).
    rewrite elem_of_sort_by, elem_of_filter_bool, elem_of_map_to_list. done.
Qed.

Lemma delete_gone (f : Z * Z → bool) (c : gmap (Z * Z) StoredBlock) k :
  delete_all (sort_by (λ a b, key_le a.1 b.1)
      (List.filter (λ e : Z * Z * StoredBlock, f e.1) (map_to_list c))).*1 c !! k
  = if f k then None else c !! k.
Proof.
  rewrite lookup_delete_all. case_decide as Hk.
  - apply list_elem_of_fmap in Hk as ([k' b] & -> & Hin). cbn.
    rewrite elem_of_sort_by, elem_of_filter_bool in Hin. destruct Hin as [Hf _].
    cbn in Hf. by rewrite Hf.
  - destruct (f k) eqn:Hf; [|done]. destruct (c !! k) as [b|] eqn:Hb; [|done]. destruct Hk.
    apply list_elem_of_fmap. exists (k, b).
    rewrite elem_of_sort_by, elem_of_filter_bool, elem_of_map_to_list. done.
Qed.

(** What the three passes of [rollback_from] leave, before the cursor moves. *)
Record rolled_back (gone : Z * Z → bool) (db db' : Database) : Prop := {
  rb_blocks : ∀ k, cache_blocks db' !! k = if gone k then None else cache_blocks db !! k;
  rb_parents : ∀ p sp, cache_parents db' !! p = Some sp ↔
    cache_parents db !! p = Some sp ∧ ¬ orphaned gone db p;
  rb_meta : cache_meta db' = cache_meta db;
  rb_intents : cache_intents db' = cache_intents db;
  rb_faults : faults db' = faults db
}.

Lemma rolled_back_known gone db db' :
  rolled_back gone db db' → parents_known db → parents_known db'.
Proof.
  intros [Hb Hp _ _ _] Hpk k b p Hk Hbp. rewrite Hb in Hk. destruct (gone k) eqn:Hg; [done|].
  destruct (Hpk k b p Hk Hbp) as [sp Hsp]. exists sp. apply Hp. split; [done|].
  intros [_ Hall]. by rewrite (Hall k b) in Hg.
Qed.

Lemma from_on_in_range c from (db : Database) k b :
  coherent db → cache_blocks db !! k = Some b → in_range c from u64_max k = from_on c from k.
Proof.
  intros Hco Hb. destruct (co_keys _ Hco k b Hb) as (_ & _ & [_ Hh] & _).
  unfold in_range, from_on. destruct (k.2 <=? u64_max) eqn:?; reflect_bools; [|lia].
  by rewrite andb_true_r.
Qed.

Lemma delete_range_enc (gone : Z * Z → bool) (db : Database) (cache : gmap (Z * Z) StoredBlock)
    (c lo hi : Z) :
  coherent db →
  (∀ k, is_Some (cache_blocks db !! k) → in_range c lo hi k = gone k) →
  (∀ k, cache !! k = if gone k then None else cache_blocks db !! k) →
  delete_all (block_rows c lo hi (t_blocks (disk db))).*1 (t_blocks (disk db)) = enc_block <$> cache.
Proof.
  intros Hco Hr Hb. apply map_eq. intros k. rewrite lookup_delete_all, lookup_fmap, Hb.
  pose proof (block_rows_keys c lo hi (t_blocks (disk db)) k) as Hk.
  rewrite (co_blocks _ Hco), lookup_fmap in *. specialize (Hr k).
  destruct (cache_blocks db !! k) as [b|].
  - rewrite Hr in Hk by eauto. case_decide; destruct (gone k); try done; naive_solver.
  - case_decide; by destruct (gone k).
Qed.

Lemma delete_all_classified (es : list bytes) (ps : gmap bytes StoredParent) :
  filter classified (delete_all es ps) = delete_all es (filter classified ps).
Proof.
  apply map_eq. intros p. rewrite map_lookup_filter, !lookup_delete_all, map_lookup_filter.
  by case_decide.
Qed.

(** The sibling lists once [gone] is filtered out and the parents [es] dropped. *)
Lemma retained_siblings (gone : Z * Z → bool) (db : Database) (phs es : list bytes) (cs : gmap bytes (list StoredBlock)) (p : bytes) :
  coherent db →
  (∀ p, p ∈ phs ↔ ∃ k b, cache_blocks db !! k = Some b ∧ gone k = true ∧ db_parent_hash b = Some p) →
  (∀ p, p ∈ es → orphaned gone db p) →
  (cs !! p = if decide (p ∈ phs) then List.filter (λ b, negb (gone (block_key b))) <$> cache_siblings db !! p
             else cache_siblings db !! p) →
  (∀ b, b ∈ default [] (delete_all es cs !! p) ↔
        b ∈ default [] (cache_siblings db !! p) ∧ gone (block_key b) = false) ∧
  NoDup (default [] (delete_all es cs !! p)).
Proof.
  intros Hco Hphs Hes Hcs. pose proof (co_nodup _ Hco p) as Hnd.
  pose proof (co_siblings _ Hco p) as Hin. rewrite lookup_delete_all.
  destruct (decide (p ∈ es)) as [Hp|Hp]; cbn.
  { split; [|constructor]. intros b. split; [set_solver|]. intros [Hb Hg].
    apply Hin in Hb as [Hb Hbp]. apply Hes in Hp as [_ Hall]. by rewrite (Hall _ _ Hb Hbp) in Hg. }
  rewrite Hcs. destruct (decide (p ∈ phs)) as [Hph|Hph].
  - destruct (cache_siblings db !! p) as [l|]; cbn in *; [|split; [set_solver|constructor]].
    split; [|by apply NoDup_filter_bool]. intros b. rewrite elem_of_filter_bool, negb_true_iff. tauto.
  - split; [|done]. intros b. split; [|tauto]. intros Hb. split; [done|].
    apply Hin in Hb as [Hb Hbp]. destruct (gone (block_key b)) eqn:Hg; [|done].
    destruct Hph. apply Hphs. eauto.
Qed.

Lemma rollback_index c from db (p : bytes) (c' h : Z) :
  coherent db → parents_known db →
  (p, c', h) ∈ foldl (λ t p,
      foldl (λ t k, t ∖ {[(p, k.1, k.2)]}) t
        (List.filter (in_range c from u64_max) (sibling_keys p t)))
    (t_siblings (disk db)) (map_to_list (cache_parents db)).*1 ↔
  (p, c', h) ∈ t_siblings (disk db) ∧ from_on c from (c', h) = false.
Proof.
  intros Hco Hpk. rewrite rollback_siblings, (co_index _ Hco). split.
  - intros [(b & Hb & Hp) Hnot]. split; [eauto|]. apply not_true_is_false. intros Hg. apply Hnot.
    rewrite (from_on_in_range c from db _ _ Hco Hb). split; [|done].
    destruct (Hpk _ _ _ Hb Hp) as [sp Hsp]. apply list_elem_of_fmap.
    exists (p, sp). by rewrite elem_of_map_to_list.
  - intros [(b & Hb & Hp) Hg]. split; [eauto|]. intros [_ Hr].
    rewrite (from_on_in_range c from db _ _ Hco Hb) in Hr. congruence.
Qed.

Lemma delete_all_parents (es : list bytes) db :
  coherent db →
  delete_all es (t_parents (disk db)) = enc_parent <$> filter classified (delete_all es (cache_parents db)).
Proof.
  intros Hco. rewrite delete_all_classified, (co_parents _ Hco).
  apply map_eq. intros p. rewrite lookup_fmap, !lookup_delete_all, lookup_fmap. by case_decide.
Qed.

Lemma rollback_from_run c from db :
  coherent db → parents_known db → faults db = [] →
  ∃ db', rollback_from c from db
         = (Ok (len (block_rows c from u64_max (t_blocks (disk db))).*1), clip_cursor c from db') ∧
    rolled_back (from_on c from) db db' ∧ coherent db'.
Proof.
  intros Hco Hpk Hf. set (gone := from_on c from).
  set (parents := (map_to_list (cache_parents db)).*1).
  set (to_remove := sort_by (λ a b, key_le a.1 b.1)
    (List.filter (λ e : Z * Z * StoredBlock, gone e.1) (map_to_list (cache_blocks db)))).
  set (phs := remove_dups (sort_by hash_le
    (omap (λ e : Z * Z * StoredBlock, db_parent_hash e.2) to_remove))).
  assert (∀ p, p ∈ phs ↔ ∃ k b, cache_blocks db !! k = Some b ∧ gone k = true ∧ db_parent_hash b = Some p)
    as Hphs by (intros p; apply gone_parents).
  destruct (rollback_txn c from parents (disk db)) as [[n d]|] eqn:Htxn; [|done].
  pose proof Htxn as Hd. unfold rollback_txn in Hd. injection Hd as Hn Hd.
  set (db1 := set_cache_blocks (delete_all to_remove.*1 (cache_blocks db)) (set_disk d db)).
  destruct (retain_each_run (λ b, negb (gone (block_key b))) phs db1) as (es & cs & Hret & Hcs & Hes);
    [apply NoDup_remove_dups|].
  assert (∀ p, p ∈ es ↔ orphaned gone db p) as Horph.
  { intros p. rewrite Hes. by apply (orphaned_iff gone db phs p Hco). }
  set (db2 := dropped es (set_cache_siblings cs db1)).
  assert (rolled_back gone db db2) as Hrb.
  { split; try done.
    - intros k. cbn. apply delete_gone.
    - intros p sp. cbn. rewrite lookup_delete_all, <-Horph. case_decide; naive_solver. }
  assert (coherent db2) as Hco2.
  { pose proof (λ p, retained_siblings gone db phs es cs p Hco Hphs
      (λ q, proj1 (Horph q)) (Hcs p)) as Hsib.
    apply (shrink_coherent gone db); [done|apply Hrb|..]; cbn.
    - rewrite <-Hd. apply (delete_range_enc gone); [done| |apply delete_gone].
      intros k [b Hb]. by apply (from_on_in_range c from db k b).
    - intros p c' h. rewrite <-Hd. by apply rollback_index.
    - intros p. apply Hsib.
    - intros p. apply Hsib.
    - intros p sp. rewrite lookup_delete_all. by case_decide.
    - rewrite <-Hd. by apply delete_all_parents.
    - rewrite <-Hd. apply Hco.
    - rewrite <-Hd. apply Hco. }
  exists db2. split_and!; [|done|done].
  unfold rollback_from.
  rewrite (bind_step _ _ db db db) by done.
  rewrite (bind_step _ _ db n (set_disk d db)) by (by apply write_txn_ok).
  rewrite (bind_step _ _ _ (set_disk d db) (set_disk d db)) by done.
  rewrite (bind_step _ _ _ () db1) by done.
  rewrite (bind_step _ _ _ es (set_cache_siblings cs db1)) by exact Hret.
  rewrite (bind_step _ _ _ () db2) by (by apply drop_parents_run).
  rewrite (bind_step _ _ _ _ db2) by (by apply get_meta_run; apply (co_meta _ Hco2)).
  rewrite (bind_step _ _ _ () (clip_cursor c from db2)).
  { by rewrite Hn. }
  unfold clip_cursor. destruct (_ ≫= _); [|done]. destruct (_ <=? _); [|done].
  by apply set_meta_run.
Qed.

(** The number of rows removed, when [gone] is the range on the stored keys. *)
Lemma removed_count (gone : Z * Z → bool) db db' c lo hi :
  coherent db →
  (∀ k, is_Some (cache_blocks db !! k) → in_range c lo hi k = gone k) →
  (∀ k, cache_blocks db' !! k = if gone k then None else cache_blocks db !! k) →
  len (block_rows c lo hi (t_blocks (disk db))).*1 + Z.of_nat (size (cache_blocks db'))
  = Z.of_nat (size (cache_blocks db)).
Proof.
  intros Hco Hr Hb.
  pose proof (size_delete_all (block_rows c lo hi (t_blocks (disk db))).*1 (t_blocks (disk db))
                (NoDup_block_rows _ _ _ _)) as Hs.
  rewrite (delete_range_enc gone db (cache_blocks db') c lo hi) in Hs by done.
  rewrite (co_blocks _ Hco), !map_size_fmap in Hs. rewrite (co_blocks _ Hco). rewrite <-Hs; [lia|].
  intros k [Hk _]%block_rows_keys. done.
Qed.

(** ** Pruning *)

Definition before_on (c below : Z) (k : Z * Z) : bool := (k.1 =? c) && (k.2 <? below).

Lemma before_on_in_range c below db k :
  coherent db → 1 ≤ below → is_Some (cache_blocks db !! k) →
  in_range c 0 (saturating_sub below 1) k = before_on c below k.
Proof.
  intros Hco Hbelow [b Hb]. destruct (co_keys _ Hco k b Hb) as (_ & _ & [Hh _] & _).
  unfold in_range, before_on, saturating_sub.
  destruct (k.1 =? c); [|done]. cbn. apply eq_true_iff_eq.
  rewrite andb_true_iff, !Z.leb_le, Z.ltb_lt. lia.
Qed.

Lemma prune_fold (removals : list ((Z * Z) * option bytes)) d :
  let d' := foldl prune_row d removals in
  t_blocks d' = delete_all removals.*1 (t_blocks d) ∧
  (∀ (p : bytes) (c h : Z), (p, c, h) ∈ t_siblings d' ↔
     (p, c, h) ∈ t_siblings d ∧ ((c, h), Some p) ∉ removals) ∧
  t_parents d' = t_parents d ∧ t_meta d' = t_meta d ∧ t_intents d' = t_intents d.
Proof.
  revert d. induction removals as [|[[c0 h0] o] removals IH]; intros d; cbn [foldl].
  { split_and!; [done|set_solver|done..]. }
  set (d1 := prune_row d ((c0, h0), o)).
  destruct (IH d1) as (Hb & Hs & Hp & Hm & Hi). cbn zeta in *.
  split_and!; [rewrite Hb|intros p c h; rewrite Hs|rewrite Hp|rewrite Hm|rewrite Hi];
    try by destruct o.
  rewrite elem_of_cons. destruct o as [p0|]; cbn.
  - rewrite elem_of_difference, elem_of_singleton. split; [|naive_solver].
    intros [[Hin Hne] Hnot]. split; [done|]. intros [[= -> -> ->]|]; [by apply Hne|done].
  - split; [|naive_solver]. intros [Hin Hnot]. split; [done|]. by intros [?|?].
Qed.

(** The rows [prune_before] removes: under coherence their parents all decode. *)
Definition prune_rows (c below : Z) (d : Disk) : list ((Z * Z) * option bytes) :=
  (λ r, (r.1, b ← dec_block r.2; db_parent_hash b))
    <$> block_rows c 0 (saturating_sub below 1) (t_blocks d).

Lemma prune_rows_keys c below d :
  (prune_rows c below d).*1 = (block_rows c 0 (saturating_sub below 1) (t_blocks d)).*1.
Proof. unfold prune_rows. rewrite <-list_fmap_compose. done. Qed.

Lemma elem_of_prune_rows (c below : Z) (db : Database) (k : Z * Z) (p : bytes) :
  coherent db → 1 ≤ below →
  (k, Some p) ∈ prune_rows c below (disk db) ↔
  before_on c below k = true ∧ ∃ b, cache_blocks db !! k = Some b ∧ db_parent_hash b = Some p.
Proof.
  intros Hco Hbelow. unfold prune_rows. rewrite list_elem_of_fmap. split.
  - intros ([k' v] & [= -> Hp] & [Hv Hr]%elem_of_block_rows).
    rewrite (co_blocks _ Hco), lookup_fmap in Hv.
    destruct (cache_blocks db !! k') as [b|] eqn:Hb; [|done]. injection Hv as <-.
    rewrite dec_enc_block in Hp. rewrite (before_on_in_range _ _ db) in Hr by eauto. eauto.
  - intros [Hg (b & Hb & Hp)]. exists (k, enc_block b). cbn. rewrite dec_enc_block. cbn.
    rewrite Hp. split; [done|]. rewrite elem_of_block_rows, (co_blocks _ Hco), lookup_fmap, Hb.
    by rewrite (before_on_in_range _ _ db) by eauto.
Qed.

Lemma prune_before_run c below db :
  coherent db → 1 ≤ below → faults db = [] →
  ∃ db', prune_before c below db
         = (Ok (len (block_rows c 0 (saturating_sub below 1) (t_blocks (disk db))).*1), db') ∧
    coherent db' ∧
    (∀ k, cache_blocks db' !! k = if before_on c below k then None else cache_blocks db !! k) ∧
    cache_parents db' = cache_parents db ∧ cache_meta db' = cache_meta db ∧
    cache_intents db' = cache_intents db ∧ faults db' = [].
Proof.
  intros Hco Hbelow Hf. set (gone := before_on c below).
  set (removals := prune_rows c below (disk db)).
  set (d := foldl prune_row (disk db) removals).
  destruct (prune_fold removals (disk db)) as (Htb & Hts & Htp & Htm & Hti).
  assert (prune_txn c below (disk db) = Ok (len removals, d)) as Htxn by reflexivity.
  fold d in Htb, Hts, Htp, Htm, Hti. clearbody d.
  set (gl := List.filter (λ e : Z * Z * StoredBlock, gone e.1) (map_to_list (cache_blocks db))).
  set (phs := remove_dups (omap (λ e : Z * Z * StoredBlock, db_parent_hash e.2) gl)).
  set (db1 := set_cache_blocks (delete_all gl.*1 (cache_blocks db)) (set_disk d db)).
  assert (∀ p, p ∈ phs ↔ ∃ k b, cache_blocks db !! k = Some b ∧ gone k = true ∧ db_parent_hash b = Some p)
    as Hphs.
  { intros p. rewrite <-gone_parents. unfold phs.
    rewrite !elem_of_remove_dups, elem_of_sort_by, !list_elem_of_omap. by setoid_rewrite elem_of_sort_by. }
  destruct (retain_each_run (λ b, negb (gone (block_key b))) phs db1) as (es & cs & Hret & Hcs & _);
    [apply NoDup_remove_dups|].
  assert (∀ k, cache_blocks db1 !! k = if gone k then None else cache_blocks db !! k) as Hb1.
  { intros k. rewrite <-delete_gone. cbn. rewrite !lookup_delete_all. fold gl.
    pose proof (sort_by_Permutation (λ a b : Z * Z * StoredBlock, key_le a.1 b.1) gl) as Hp.
    apply decide_ext. by rewrite Hp. }
  exists (set_cache_siblings cs db1). split_and!; try done.
  - unfold prune_before.
    rewrite (bind_step _ _ db (len removals) (set_disk d db) (write_txn_ok _ _ _ _ Hf Htxn)).
    rewrite (bind_step _ _ _ (set_disk d db) (set_disk d db)) by done.
    rewrite (bind_step _ _ _ () db1) by reflexivity.
    rewrite (bind_step _ _ _ es (set_cache_siblings cs db1)) by exact Hret.
    unfold mret, M_ret, len. rewrite <-prune_rows_keys, length_fmap. done.
  - pose proof (λ p, retained_siblings gone db phs [] cs p Hco Hphs
      ltac:(set_solver) (Hcs p)) as Hsib.
    apply (shrink_coherent gone db); [done|exact Hb1|..]; cbn.
    + rewrite Htb. unfold removals. rewrite prune_rows_keys.
      apply (delete_range_enc gone); [done| |exact Hb1].
      intros k Hk. by apply (before_on_in_range c below db k).
    + intros p c' h. rewrite Hts, (co_index _ Hco). unfold removals.
      rewrite elem_of_prune_rows by done.
      split; [|intros [Hex Hg]; split; [done|]; intros [Hg' _]; subst gone; congruence].
      intros [(b & Hb & Hp) Hnot]. split; [eauto|]. apply not_true_is_false. intros Hg. apply Hnot. eauto.
    + intros p. apply Hsib.
    + intros p. apply Hsib.
    + done.
    + rewrite Htp. apply Hco.
    + rewrite Htm. apply Hco.
    + rewrite Hti. apply Hco.
Qed.

(** ** Reopening *)

Lemma omap_dec {K A} `{Countable K} {B} (enc : A → B) (dec : B → option A) (m : gmap K A) :
  (∀ a, dec (enc a) = Some a) → omap dec (enc <$> m) = m.
Proof.
  intros Hde. apply map_eq. intros k. rewrite lookup_omap, lookup_fmap.
  destruct (m !! k); cbn; [apply Hde|done].
Qed.

Lemma enc_block_inj b b' : enc_block b = enc_block b' → b = b'.
Proof. intros Heq. pose proof (dec_enc_block b) as Hb. rewrite Heq, dec_enc_block in Hb. congruence. Qed.

(** The rows of the table, against the cache [C] they are to rebuild. *)
Definition warm_row (C : gmap (Z * Z) StoredBlock) (row : (Z * Z) * bytes) : Prop :=
  ∃ b, row = (block_key b, enc_block b) ∧ C !! block_key b = Some b ∧ is_Some (db_parent_hash b).

Lemma warm_block_ok C row db seen :
  warm_row C row → indexed C seen db →
  let db' := warm_block db row in
  indexed C (λ b, seen b ∨ (block_key b, enc_block b) = row) db' ∧
  cache_parents db' = cache_parents db ∧ cache_meta db' = cache_meta db ∧
  cache_intents db' = cache_intents db ∧ disk db' = disk db ∧ faults db' = faults db ∧
  ∃ b, row = (block_key b, enc_block b) ∧ cache_blocks db' = <[row.1 := b]> (cache_blocks db).
Proof.
  intros (b & -> & Hb & [p Hp]) [Hel Hnd Hpo]. unfold warm_block. cbn [fst snd].
  rewrite dec_enc_block. unfold db_parent_hash in Hp.
  destruct (aux (sb_header b)) as [a|] eqn:Ha; [|done]. injection Hp as <-.
  set (p := sha256d (parent_header a)).
  assert (db_parent_hash b = Some p) as Hp by (unfold db_parent_hash; by rewrite Ha).
  assert (∀ x, (x ∈ push_sibling (default [] (cache_siblings db !! p)) b ↔
                x ∈ default [] (cache_siblings db !! p) ∨ x = b) ∧
               NoDup (push_sibling (default [] (cache_siblings db !! p)) b)) as Hpush.
  { intros x. apply (push_sibling_elem C); [|done|apply Hnd]. intros y Hy%Hel. tauto. }
  cbn zeta. split_and!; try done; [|by exists b].
  split; [| |done]; cbn [cache_siblings set_cache_siblings set_cache_blocks].
  - intros q x. destruct (decide (p = q)) as [<-|Hq].
    + rewrite lookup_insert_eq. cbn. rewrite (proj1 (Hpush x)), Hel. split.
      * intros [?| ->]; tauto.
      * intros (? & ? & [?|[= _ _ ?%enc_block_inj]]); tauto.
    + rewrite lookup_insert_ne, Hel by done. split; [tauto|].
      intros (? & Hx & [?|[= _ _ ?%enc_block_inj]]); [tauto|congruence].
  - intros q. destruct (decide (p = q)) as [<-|Hq].
    + rewrite lookup_insert_eq. apply (Hpush b).
    + by rewrite lookup_insert_ne.
Qed.

Lemma warm_blocks_ok C rows db seen :
  Forall (warm_row C) rows → indexed C seen db →
  (∀ k b, cache_blocks db !! k = Some b → C !! k = Some b) →
  let db' := foldl warm_block db rows in
  indexed C (λ b, seen b ∨ (block_key b, enc_block b) ∈ rows) db' ∧
  cache_parents db' = cache_parents db ∧ cache_meta db' = cache_meta db ∧
  cache_intents db' = cache_intents db ∧ disk db' = disk db ∧ faults db' = faults db ∧
  (∀ k b, cache_blocks db' !! k = Some b → C !! k = Some b) ∧
  (∀ b, (block_key b, enc_block b) ∈ rows ∨ cache_blocks db !! block_key b = Some b →
        cache_blocks db' !! block_key b = Some b).
Proof.
  intros Hrows. revert db seen. induction Hrows as [|row rows Hrow Hrows IH]; intros db seen Hix Hsub.
  { cbn. split_and!; try done; [|set_solver].
    destruct Hix as [Hel ? ?]. split; [|done|done]. intros p b. rewrite Hel. set_solver. }
  destruct (warm_block_ok C row db seen Hrow Hix) as (Hix1 & Hp & Hm & Hi & Hd & Hf & b0 & Hr0 & Hcb).
  destruct Hrow as (b1 & Hr1 & Hb1 & _). rewrite Hr1 in Hr0. injection Hr0 as _ _ ->%enc_block_inj.
  destruct (IH _ _ Hix1) as (Hix2 & Hp2 & Hm2 & Hi2 & Hd2 & Hf2 & Hsub2 & Hsup2).
  { intros k b. rewrite Hcb, Hr1. cbn. intros [[<- <-]|[_ Hb]]%lookup_insert_Some; [done|by apply Hsub]. }
  cbn [foldl]. split_and!; try congruence.
  - destruct Hix2 as [Hel2 ? ?]. split; [|done|done]. intros p b. rewrite Hel2, elem_of_cons. tauto.
  - done.
  - intros b [Hb|Hb]; apply Hsup2; rewrite Hcb, Hr1; cbn.
    + apply elem_of_cons in Hb as [Heq|Hb]; [right|by left].
      rewrite Hr1 in Heq. injection Heq as _ _ ->%enc_block_inj. by rewrite lookup_insert_eq.
    + right. destruct (decide (block_key b0 = block_key b)) as [Heq|Hne].
      * rewrite Heq, lookup_insert_eq. apply Hsub in Hb. congruence.
      * by rewrite lookup_insert_ne.
Qed.

(** What a restart keeps: everything but the unclassified parents, which are in
    no table. *)
Record restarted (db db' : Database) : Prop := {
  rs_disk : disk db' = disk db;
  rs_blocks : cache_blocks db' = cache_blocks db;
  rs_parents : cache_parents db' = filter classified (cache_parents db);
  rs_siblings : ∀ p b, b ∈ default [] (cache_siblings db' !! p) ↔ b ∈ default [] (cache_siblings db !! p);
  rs_meta : cache_meta db' = cache_meta db;
  rs_intents : cache_intents db' = cache_intents db
}.

Lemma restarted_coherent db db' :
  coherent db → restarted db db' → (∀ p, NoDup (default [] (cache_siblings db' !! p))) → coherent db'.
Proof.
  intros Hco [Hd Hb Hp Hs Hm Hi] Hnd. split.
  - rewrite Hd, Hb. apply Hco.
  - rewrite Hb. apply Hco.
  - rewrite Hd, Hb. apply Hco.
  - intros p b. rewrite Hs, Hb. apply Hco.
  - done.
  - intros p sp. rewrite Hp, map_lookup_filter_Some. intros [Hsp _]. by apply (co_parent_ok _ Hco).
  - rewrite Hd, Hp, (co_parents _ Hco). f_equal. apply map_eq. intros p.
    rewrite !map_lookup_filter. destruct (cache_parents db !! p) as [sp|]; [|done]. cbn.
    destruct (decide (classified (p, sp))).
    + rewrite option_guard_True by done. cbn. by rewrite option_guard_True.
    + by rewrite option_guard_False.
  - rewrite Hd, Hm. apply Hco.
  - rewrite Hd, Hi. apply Hco.
Qed.

Definition schema_ok (db : Database) : Prop :=
  t_meta (disk db) !! META_SCHEMA_VERSION = Some (pretty SCHEMA_VERSION).

Lemma open_run db :
  coherent db → schema_ok db →
  ∃ db', open (disk db) false = Ok db' ∧ restarted db db' ∧ coherent db' ∧ faults db' = [].
Proof.
  intros Hco Hv. unfold open. rewrite Hv. cbn [mbind option_bind].
  assert (parse_u32 (pretty SCHEMA_VERSION) = Some SCHEMA_VERSION) as -> by reflexivity.
  rewrite Z.eqb_refl. cbn [mbind Result_bind].
  unfold warm_up_cache. cbv zeta.
  set (db1 := set_cache_parents _ _).
  set (rows := sort_by _ (map_to_list (t_blocks (disk _)))).
  assert (∀ b, (block_key b, enc_block b) ∈ rows ↔ cache_blocks db !! block_key b = Some b) as Hrows.
  { intros b. unfold rows. rewrite elem_of_sort_by, elem_of_map_to_list. cbn [disk].
    rewrite (co_blocks _ Hco), lookup_fmap. split; [|by intros ->].
    destruct (cache_blocks db !! block_key b) as [b'|]; [|done]. by intros [= ->%enc_block_inj]. }
  assert (Forall (warm_row (cache_blocks db)) rows) as Hwarm.
  { apply Forall_forall. intros [k v] Hin. unfold rows in Hin.
    rewrite elem_of_sort_by, elem_of_map_to_list in Hin. cbn [disk] in Hin.
    rewrite (co_blocks _ Hco), lookup_fmap in Hin.
    destruct (cache_blocks db !! k) as [b|] eqn:Hb; [|done]. injection Hin as <-.
    destruct (co_keys _ Hco k b Hb) as (-> & _ & _ & Hp). by exists b. }
  assert (cache_parents db1 = filter classified (cache_parents db)) as Hp1.
  { cbn. rewrite map_union_empty, (co_parents _ Hco). apply omap_dec, dec_enc_parent. }
  assert (indexed (cache_blocks db) (λ _, False) db1) as Hix.
  { split.
    - intros p b. cbn. set_solver.
    - intros p. cbn. constructor.
    - intros p sp. rewrite Hp1, map_lookup_filter_Some. intros [Hsp _]. by apply (co_parent_ok _ Hco). }
  destruct (warm_blocks_ok _ rows db1 _ Hwarm Hix) as (Hix2 & Hp & Hm & Hi & Hd & Hf & Hsub & Hsup);
    [done|].
  eexists. split; [reflexivity|].
  assert (restarted db (foldl warm_block db1 rows)) as Hrs; [|split_and!; [done| |by rewrite Hf]].
  { split.
    - by rewrite Hd.
    - apply map_eq. intros k. apply option_eq. intros b. split; [apply Hsub|].
      intros Hb. destruct (co_keys _ Hco k b Hb) as (-> & _). apply Hsup. left. by apply Hrows.
    - by rewrite Hp.
    - intros p b. rewrite (ix_elem _ _ _ Hix2), Hrows, (co_siblings _ Hco). tauto.
    - rewrite Hm. cbn. by rewrite map_union_empty, (co_meta _ Hco).
    - rewrite Hi. cbn. rewrite map_union_empty, (co_intents _ Hco). apply omap_dec, dec_enc_intent. }
  apply (restarted_coherent db); [done|done|apply (ix_nodup _ _ _ Hix2)].
Qed.

(** ** Classification *)

Lemma classify_run ph lh db :
  coherent db → faults db = [] →
  ∃ db', classify_parent ph lh db = (Ok (), db') ∧ coherent db' ∧ faults db' = [] ∧
    cache_blocks db' = cache_blocks db ∧ cache_siblings db' = cache_siblings db ∧
    cache_meta db' = cache_meta db ∧ cache_intents db' = cache_intents db ∧
    cache_parents db' = alter (λ p, mkParent (sp_parent_hash_le p) (sp_parent_header p) lh
      (if lh is Some _ then 1 else 2) (sp_work p)) ph (cache_parents db).
Proof.
  intros Hco Hf. unfold classify_parent. cbv zeta. set (f := λ p, mkParent _ _ _ _ _).
  set (db1 := set_cache_parents (alter f ph (cache_parents db)) db).
  rewrite (bind_step _ _ db () db1) by done. rewrite (bind_step _ _ db1 db1 db1) by done.
  assert (∀ p sp, alter f ph (cache_parents db) !! p = Some sp → parent_ok p sp) as Hok.
  { intros p sp. destruct (decide (ph = p)) as [<-|Hne].
    - rewrite lookup_alter_eq. destruct (cache_parents db !! ph) as [sp'|] eqn:Hsp; [|done].
      intros [= <-]. destruct (co_parent_ok _ Hco _ _ Hsp) as [? ? _]. split; [done|done|].
      cbn. destruct lh; [right; left|right; right]; eauto.
    - rewrite lookup_alter_ne by done. apply (co_parent_ok _ Hco). }
  assert (∀ tp, tp = enc_parent <$> filter classified (alter f ph (cache_parents db)) →
          coherent (set_disk (with_parents tp (disk db1)) db1)) as Hco1.
  { intros tp ->. destruct Hco. by split. }
  destruct (cache_parents db !! ph) as [sp|] eqn:Hsp.
  - assert (cache_parents db1 !! ph = Some (f sp)) as Hph by (cbn; by rewrite lookup_alter_eq, Hsp).
    eexists. split; [apply write_txn_ok; [done|rewrite Hph; reflexivity]|].
    split_and!; [|done..]. apply Hco1. cbn. rewrite (co_parents _ Hco). apply map_eq. intros p.
    rewrite lookup_fmap, map_lookup_filter. destruct (decide (ph = p)) as [<-|Hne].
    + rewrite lookup_insert_eq, lookup_alter_eq, Hsp. cbn.
      rewrite option_guard_True; [done|]. unfold classified. cbn. by destruct lh.
    + by rewrite lookup_insert_ne, lookup_alter_ne, lookup_fmap, map_lookup_filter by done.
  - assert (alter f ph (cache_parents db) = cache_parents db) as Halt.
    { apply map_eq. intros p. destruct (decide (ph = p)) as [<-|Hne].
      - by rewrite lookup_alter_eq, Hsp.
      - by rewrite lookup_alter_ne. }
    assert (cache_parents db1 !! ph = None) as Hph by (cbn; by rewrite Halt).
    exists db1. split; [|split_and!; [|done..]].
    + destruct db as [[]]. cbn in Hf. subst. unfold write_txn. by rewrite Hph.
    + specialize (Hco1 (t_parents (disk db))). cbn in Hco1. rewrite Halt in Hco1.
      specialize (Hco1 (co_parents _ Hco)). by destruct db as [[]].
Qed.

(** ** Swap intents *)

Definition live (now : Z) (e : string * SwapIntentMessage) : Prop := now < expiry e.2.
#[export] Instance live_dec now e : Decision (live now e).
Proof. unfold live. apply _. Defined.

Definition expired_keys (now : Z) (db : Database) : list string :=
  omap (λ e : string * SwapIntentMessage, if expiry e.2 <=? now then Some e.1 else None)
    (map_to_list (cache_intents db)).

Lemma elem_of_expired_keys now db k :
  k ∈ expired_keys now db ↔ ∃ i, cache_intents db !! k = Some i ∧ expiry i ≤ now.
Proof.
  unfold expired_keys. rewrite list_elem_of_omap. split.
  - intros ([k' i] & Hin & Heq). rewrite elem_of_map_to_list in Hin. cbn in Heq.
    destruct (expiry i <=? now) eqn:He; [|done]. injection Heq as <-. reflect_bools. eauto.
  - intros (i & Hi & He). exists (k, i). rewrite elem_of_map_to_list. split; [done|]. cbn.
    by apply Z.leb_le in He as ->.
Qed.

Lemma delete_expired now db :
  delete_all (expired_keys now db) (cache_intents db) = filter (live now) (cache_intents db).
Proof.
  apply map_eq. intros k. rewrite lookup_delete_all, map_lookup_filter. case_decide as Hk.
  - apply elem_of_expired_keys in Hk as (i & Hi & He). rewrite Hi. cbn.
    rewrite option_guard_False; [done|]. unfold live. cbn. lia.
  - destruct (cache_intents db !! k) as [i|] eqn:Hi; [|done]. cbn.
    rewrite option_guard_True; [done|]. unfold live. cbn.
    rewrite elem_of_expired_keys in Hk. destruct (decide (now < expiry i)); [done|].
    destruct Hk. exists i. split; [done|lia].
Qed.

Definition intents_set (c : gmap string SwapIntentMessage) (db : Database) : Database :=
  set_disk (with_intents (enc_intent <$> c) (disk db)) (set_cache_intents c db).

Lemma intents_set_coherent c db : coherent db → coherent (intents_set c db).
Proof. intros []. by split. Qed.

Lemma intents_set_same db : coherent db → intents_set (cache_intents db) db = db.
Proof.
  intros Hco. pose proof (co_intents _ Hco) as Hi. destruct db as [[] ? ? ? ? ? ?]. cbn in *.
  unfold intents_set, set_disk, set_cache_intents, with_intents. cbn. by rewrite <-Hi.
Qed.

Lemma prune_expired_run now db :
  coherent db → faults db = [] →
  prune_expired_intents now db
  = (Ok (len (expired_keys now db)), intents_set (filter (live now) (cache_intents db)) db).
Proof.
  intros Hco Hf. unfold prune_expired_intents.
  rewrite (bind_step _ _ db db db) by done. fold (expired_keys now db). cbv zeta.
  rewrite <-delete_expired. destruct (len (expired_keys now db) =? 0) eqn:Hn; reflect_bools.
  - unfold len in *. assert (expired_keys now db = []) as -> by (apply nil_length_inv; lia).
    cbn. unfold mret, M_ret. by rewrite intents_set_same.
  - set (ks := expired_keys now db).
    set (d := with_intents (delete_all ks (t_intents (disk db))) (disk db)).
    rewrite (bind_step _ _ db () (set_disk d db)); [|by apply write_txn_ok].
    rewrite (bind_step _ _ _ () (set_cache_intents (delete_all ks (cache_intents db)) (set_disk d db)))
      by done.
    unfold mret, M_ret. f_equal. unfold intents_set, d.
    assert (delete_all ks (t_intents (disk db)) = enc_intent <$> delete_all ks (cache_intents db)) as ->; [|done].
    rewrite (co_intents _ Hco). apply map_eq. intros k.
    rewrite lookup_fmap, !lookup_delete_all, lookup_fmap. by case_decide.
Qed.

Lemma insert_intent_run now i db :
  coherent db → faults db = [] →
  let c := filter (live now) (cache_intents db) in
  insert_intent now i db =
  if MAX_ACTIVE_INTENTS <=? Z.of_nat (size c)
  then (Err (DbAnyhow ("Swap intent orderbook is at maximum capacity ("
                       +:+ pretty MAX_ACTIVE_INTENTS +:+ ")")), intents_set c db)
  else (Ok (), intents_set (<[intent_id i := i]> c) db).
Proof.
  intros Hco Hf c. unfold insert_intent.
  rewrite (bind_step _ _ db _ _ (prune_expired_run now db Hco Hf)). fold c.
  set (db1 := intents_set c db).
  rewrite (bind_step _ _ db1 db1 db1) by done. cbn [cache_intents intents_set set_disk set_cache_intents].
  destruct (_ <=? _); [done|]. cbv zeta.
  rewrite (bind_step _ _ db1 () (set_cache_intents (<[intent_id i := i]> c) db1)) by done.
  etransitivity; [by apply write_txn_ok|]. f_equal. unfold intents_set. by rewrite fmap_insert.
Qed.
End invariant.
