(* ===== verification/DbThm.v ===== *)
(** * Storage: theorems

    The reachable states of the database and the functional behaviour of its
    operations, on top of the invariant of [DbSpec]. *)

From S2P Require Export DbSpec.

#[local] Open Scope Z_scope.

(** ** Reachable states *)

Definition empty_disk : Disk := mkDisk ∅ ∅ ∅ ∅ ∅.

Section reachable.
Context `{Sha256} `{HexCodec} `{Codec}.

(** One successful operation of a caller with discipline: it inserts rows under their
    own key, with a parent header, not in conflict with the stored ones; it rolls back
    while the parents of the stored blocks are cached; it prunes below a height of at
    least 1.  [db.rs] checks none of this: [ingest.rs] inserts verified blocks past the
    cursor (where a stop before the cursor was set may have left others) and prunes
    above 1, and the parents are cached until a restart drops those
    whose classification is pending ([rollback_after_restart_stale_index]). *)
Inductive disciplined : Database → Database → Prop :=
  | step_insert_blocks rows db db' :
      Forall row_ok rows → rows_agree (cache_blocks db) rows →
      insert_blocks rows db = (Ok (), db') → disciplined db db'
  | step_rollback_from c from n db db' :
      parents_known db → rollback_from c from db = (Ok n, db') → disciplined db db'
  | step_prune_before c below n db db' :
      1 ≤ below → prune_before c below db = (Ok n, db') → disciplined db db'
  | step_classify_parent ph lh db db' :
      classify_parent ph lh db = (Ok (), db') → disciplined db db'
  | step_set_cursor_height c h db db' :
      set_cursor_height c h db = (Ok (), db') → disciplined db db'
  | step_upsert_chain c name electrs db db' :
      upsert_chain c name electrs db = (Ok (), db') → disciplined db db'
  | step_insert_intent now i r db db' :
      insert_intent now i db = (r, db') → disciplined db db'
  | step_prune_expired_intents now n db db' :
      prune_expired_intents now db = (Ok n, db') → disciplined db db'
  | step_reopen db db' :
      open (disk db) false = Ok db' → disciplined db db'.

Inductive reachable : Database → Prop :=
  | reachable_init db : open empty_disk false = Ok db → reachable db
  | reachable_step db db' : reachable db → disciplined db db' → reachable db'.

Record db_inv (db : Database) : Prop := {
  inv_coherent : coherent db;
  inv_faults : faults db = [];
  inv_schema : schema_ok db;
  inv_capacity : Z.of_nat (size (cache_intents db)) ≤ MAX_ACTIVE_INTENTS
}.

Definition fresh_db : Database :=
  mkDb (mkDisk ∅ ∅ ∅ {[META_SCHEMA_VERSION := pretty SCHEMA_VERSION]} ∅) ∅ ∅ ∅
    {[META_SCHEMA_VERSION := pretty SCHEMA_VERSION]} ∅ [].

Lemma open_empty : open empty_disk false = Ok fresh_db.
Proof. reflexivity. Qed.

Lemma fresh_coherent : coherent fresh_db.
Proof. split; cbn; try done; try set_solver. intros p. constructor. Qed.

Lemma fresh_known : parents_known fresh_db.
Proof. intros k b p. cbn. set_solver. Qed.

Lemma fresh_inv : db_inv fresh_db.
Proof. split; [apply fresh_coherent|done|done|by vm_compute]. Qed.

(** ** Keys of the metadata table *)

Lemma string_length_app a b : String.length (a +:+ b) = (String.length a + String.length b)%nat.
Proof.
  induction a as [|x a IH]; [done|].
  change (S (String.length (a +:+ b)) = S (String.length a + String.length b)). by rewrite IH.
Qed.

Lemma cursor_key_schema c : cursor_key c ≠ META_SCHEMA_VERSION.
Proof.
  unfold cursor_key. intros Heq. pose proof (f_equal String.length Heq) as Hl.
  rewrite string_length_app in Hl. cbn in Hl. destruct (pretty c) as [|x s]; [done|]. cbn in Hl. lia.
Qed.

Lemma chain_key_schema c : chain_key c ≠ META_SCHEMA_VERSION.
Proof. done. Qed.

Lemma cursor_key_inj c c' : is_u32 c → is_u32 c' → cursor_key c = cursor_key c' → c = c'.
Proof.
  intros [Hc _] [Hc' _] Heq. unfold cursor_key in Heq.
  by apply (number_unique "."%char c c') in Heq as [-> _]; [|intros [? ?]| |].
Qed.

(** ** Metadata operations *)

Lemma cursor_height_run c db :
  t_meta (disk db) = cache_meta db →
  cursor_height c db = (Ok (cache_meta db !! cursor_key c ≫= parse_u64), db).
Proof. intros Hm. unfold cursor_height. by rewrite (bind_step _ _ db _ _ (get_meta_run _ _ Hm)). Qed.

Lemma upsert_chain_run c name electrs db :
  t_meta (disk db) = cache_meta db → faults db = [] →
  upsert_chain c name electrs db = (Ok (), meta_set (chain_key c) (name +:+ "|" +:+ electrs) db).
Proof.
  intros Hm Hf. unfold upsert_chain.
  rewrite (bind_step _ _ db _ _ (get_meta_run _ _ Hm)). case_bool_decide as Heq.
  - unfold mret, M_ret, meta_set. f_equal. destruct db as [[] ? ? ? ? ? ?]. cbn in *. subst.
    unfold set_disk, set_cache_meta, with_meta. cbn. by rewrite !insert_id.
  - by apply set_meta_run.
Qed.

(** A cursor read before a rollback, as it is read after it. *)
Definition clipped (from : Z) (r : Result DbError (option Z)) : Result DbError (option Z) :=
  match r with
  | Ok (Some h) => Ok (Some (if from <=? h then saturating_sub from 1 else h))
  | _ => r
  end.

Lemma clip_cursor_lookup c c' from db m :
  is_u32 c → is_u32 c' → is_u64 from → cache_meta db = m →
  Ok (cache_meta (clip_cursor c from db) !! cursor_key c' ≫= parse_u64) =
  if c' =? c then clipped from (Ok (m !! cursor_key c' ≫= parse_u64))
  else Ok (m !! cursor_key c' ≫= parse_u64).
Proof.
  intros Hc Hc' Hfrom <-. unfold clip_cursor.
  assert (c' ≠ c → cursor_key c ≠ cursor_key c') as Hne.
  { intros Hcc Heq%cursor_key_inj; congruence. }
  destruct (c' =? c) eqn:Hcc; reflect_bools.
  - subst c'. cbn. destruct (cache_meta db !! cursor_key c ≫= parse_u64) as [h|] eqn:Hh; cbn.
    + destruct (from <=? h); cbn; [|by rewrite Hh]. rewrite lookup_insert_eq. cbn.
      unfold parse_u64. rewrite parse_pretty; [done|].
      unfold is_u64, saturating_sub in *. lia.
    + by rewrite Hh.
  - destruct (cache_meta db !! cursor_key c ≫= parse_u64) as [h|]; [|done].
    destruct (from <=? h); [|done]. cbn [meta_set cache_meta set_disk set_cache_meta].
    rewrite lookup_insert_ne by (by apply Hne). done.
Qed.

(** ** The invariant is preserved *)

Lemma meta_set_inv k v db : k ≠ META_SCHEMA_VERSION → db_inv db → db_inv (meta_set k v db).
Proof.
  intros Hk [Hco Hf Hs Hc]. split; [by apply coherent_meta_set|done| |done].
  unfold schema_ok, meta_set. cbn. by rewrite lookup_insert_ne.
Qed.

Lemma clip_cursor_inv c from db : db_inv db → db_inv (clip_cursor c from db).
Proof.
  intros Hinv. unfold clip_cursor. destruct (_ ≫= _); [|done].
  destruct (_ <=? _); [|done]. apply meta_set_inv; [apply cursor_key_schema|done].
Qed.

(** The invariant of a state with the metadata and the intents of [db]. *)
Lemma inv_transfer db db' :
  db_inv db → coherent db' → faults db' = [] →
  cache_meta db' = cache_meta db → cache_intents db' = cache_intents db → db_inv db'.
Proof.
  intros [Hco _ Hs Hc] Hco' Hf' Hm Hi. split; [done|done| |by rewrite Hi].
  unfold schema_ok in *. by rewrite (co_meta _ Hco'), Hm, <-(co_meta _ Hco).
Qed.

Lemma live_size now (c : gmap string SwapIntentMessage) : (size (filter (live now) c) ≤ size c)%nat.
Proof. apply map_subseteq_size, map_filter_subseteq. Qed.

Lemma intents_set_inv c db :
  db_inv db → Z.of_nat (size c) ≤ MAX_ACTIVE_INTENTS → db_inv (intents_set c db).
Proof. intros [Hco Hf Hs _] Hc. by split; [apply intents_set_coherent| | |]. Qed.

Lemma step_inv db db' : db_inv db → disciplined db db' → db_inv db'.
Proof.
  intros Hinv Hstep. pose proof Hinv as [Hco Hf Hs Hc].
  destruct Hstep as [rows db db' Hrows Hag Hrun|c from n db db' Hpk Hrun|c below n db db' Hb Hrun
    |ph lh db db' Hrun|c h db db' Hrun|c name electrs db db' Hrun|now i r db db' Hrun
    |now n db db' Hrun|db db' Hrun].
  - destruct (insert_blocks_spec db rows Hco Hrows Hag Hf) as (db2 & Hrun2 & Hco2 & _ & _ & Hm & Hi & Hf2).
    rewrite Hrun in Hrun2. injection Hrun2 as ->. by apply (inv_transfer db).
  - destruct (rollback_from_run c from db Hco Hpk Hf) as (db2 & Hrun2 & Hrb & Hco2).
    rewrite Hrun in Hrun2. injection Hrun2 as _ ->. apply clip_cursor_inv.
    apply (inv_transfer db); [done|done|..]; destruct Hrb; congruence.
  - destruct (prune_before_run c below db Hco Hb Hf) as (db2 & Hrun2 & Hco2 & _ & _ & Hm & Hi & Hf2).
    rewrite Hrun in Hrun2. injection Hrun2 as _ ->. by apply (inv_transfer db).
  - destruct (classify_run ph lh db Hco Hf) as (db2 & Hrun2 & Hco2 & Hf2 & _ & _ & Hm & Hi & _).
    rewrite Hrun in Hrun2. injection Hrun2 as ->. by apply (inv_transfer db).
  - unfold set_cursor_height in Hrun. rewrite set_meta_run in Hrun by done. injection Hrun as <-.
    apply meta_set_inv; [apply cursor_key_schema|done].
  - rewrite upsert_chain_run in Hrun by (apply Hco || done). injection Hrun as <-.
    apply meta_set_inv; [apply chain_key_schema|done].
  - pose proof (live_size now (cache_intents db)).
    pose proof (insert_intent_run now i db Hco Hf) as Hrun2. cbv zeta in Hrun2. rewrite Hrun in Hrun2.
    destruct (MAX_ACTIVE_INTENTS <=? _) eqn:Hcap; injection Hrun2 as _ ->;
      apply intents_set_inv; try done; [lia|]. reflect_bools.
    rewrite map_size_insert. destruct (_ !! _); cbn; lia.
  - pose proof (live_size now (cache_intents db)).
    rewrite prune_expired_run in Hrun by done. injection Hrun as _ <-. apply intents_set_inv; [done|lia].
  - destruct (open_run db Hco Hs) as (db2 & Hrun2 & Hrs & Hco2 & Hf2).
    rewrite Hrun in Hrun2. injection Hrun2 as ->. apply (inv_transfer db); [done..| |]; apply Hrs.
Qed.

Lemma reachable_inv db : reachable db → db_inv db.
Proof.
  induction 1 as [db Hopen|db db' _ IH Hstep]; [|by eapply step_inv].
  rewrite open_empty in Hopen. injection Hopen as <-. apply fresh_inv.
Qed.

(** ** Queries over a range *)

Lemma key_le_total (a b : Z * Z) : key_le a b = true ∨ key_le b a = true.
Proof.
  unfold key_le. rewrite !orb_true_iff, !andb_true_iff, !Z.ltb_lt, !Z.leb_le, !Z.eqb_eq. lia.
Qed.

Lemma key_le_trans (a b c : Z * Z) : key_le a b = true → key_le b c = true → key_le a c = true.
Proof.
  unfold key_le. rewrite !orb_true_iff, !andb_true_iff, !Z.ltb_lt, !Z.leb_le, !Z.eqb_eq. lia.
Qed.

(** The blocks of one chain with a height in [lo, hi], by increasing height. *)
Definition range_blocks (c lo hi : Z) (db : Database) : list StoredBlock :=
  omap (λ r, dec_block r.2) (block_rows c lo hi (t_blocks (disk db))).

Lemma block_rows_blocks (c lo hi : Z) (db : Database) (k : Z * Z) (v : bytes) :
  coherent db → (k, v) ∈ block_rows c lo hi (t_blocks (disk db)) ↔
  ∃ b, v = enc_block b ∧ k = block_key b ∧ cache_blocks db !! k = Some b ∧ in_range c lo hi k = true.
Proof.
  intros Hco. rewrite elem_of_block_rows, (co_blocks _ Hco), lookup_fmap. split.
  - intros [Hv Hr]. destruct (cache_blocks db !! k) as [b|] eqn:Hb; [|done]. injection Hv as <-.
    destruct (co_keys _ Hco k b Hb) as (-> & _). eauto.
  - intros (b & -> & _ & -> & Hr). done.
Qed.

Lemma elem_of_range_blocks c lo hi db b :
  coherent db → b ∈ range_blocks c lo hi db ↔
  cache_blocks db !! block_key b = Some b ∧ sb_chain_id b = c ∧ lo ≤ sb_height b ≤ hi.
Proof.
  intros Hco. unfold range_blocks. rewrite list_elem_of_omap. split.
  - intros ([k v] & (b' & -> & -> & Hb & Hr)%block_rows_blocks & Hdec); [|done]. cbn in Hdec.
    rewrite dec_enc_block in Hdec. injection Hdec as <-. apply in_range_true in Hr. done.
  - intros (Hb & Hc & Hh). exists (block_key b, enc_block b). cbn. rewrite dec_enc_block.
    split; [|done]. apply block_rows_blocks; [done|]. exists b. split_and!; [done..|].
    by apply in_range_true.
Qed.

Lemma StronglySorted_strict (rows : list ((Z * Z) * bytes)) (c : Z) :
  NoDup rows.*1 → (∀ r, r ∈ rows → r.1.1 = c) →
  StronglySorted (λ a b, key_le a.1 b.1 = true) rows →
  StronglySorted (λ a b, a.1.2 < b.1.2) rows.
Proof.
  intros Hnd Hc. induction 1 as [|r rows Hs IH Hall]; [constructor|].
  cbn in Hnd. apply NoDup_cons in Hnd as [Hr Hnd]. constructor; [apply IH; set_solver|].
  apply Forall_forall. intros r' Hr'. rewrite Forall_forall in Hall. pose proof (Hall r' Hr') as Hle.
  assert (r.1 ≠ r'.1) as Hne by (intros Heq; apply Hr, list_elem_of_fmap; by exists r').
  unfold key_le in Hle. rewrite orb_true_iff, andb_true_iff, Z.ltb_lt, Z.leb_le in Hle.
  pose proof (Hc r ltac:(set_solver)). pose proof (Hc r' ltac:(set_solver)).
  destruct r as [[] ], r' as [[] ]. cbn in *. destruct (decide (z0 = z2)); [congruence|lia].
Qed.

Lemma block_rows_strict c lo hi t :
  StronglySorted (λ a b, a.1.2 < b.1.2) (block_rows c lo hi t).
Proof.
  apply (StronglySorted_strict _ c); [apply NoDup_block_rows| |].
  - intros [k v] [_ Hr]%elem_of_block_rows. by apply in_range_true in Hr as [? _].
  - apply sort_by_StronglySorted; intros; [apply key_le_total|by eapply key_le_trans].
Qed.

Lemma range_blocks_sorted c lo hi db :
  coherent db → StronglySorted (λ a b, sb_height a < sb_height b) (range_blocks c lo hi db).
Proof.
  intros Hco. unfold range_blocks.
  pose proof (λ k v, proj1 (block_rows_blocks c lo hi db k v Hco)) as Hrow.
  induction (block_rows_strict c lo hi (t_blocks (disk db))) as [|[k v] rows Hs IH Hall]; [constructor|].
  destruct (Hrow k v ltac:(set_solver)) as (b & -> & -> & _). cbn. rewrite dec_enc_block.
  constructor; [apply IH; set_solver|]. apply Forall_forall. intros x (r & Hr & Hdec)%list_elem_of_omap.
  destruct r as [k' v']. destruct (Hrow k' v' ltac:(set_solver)) as (b' & -> & -> & _).
  cbn in Hdec. rewrite dec_enc_block in Hdec. injection Hdec as <-.
  rewrite Forall_forall in Hall. by apply (Hall _ Hr).
Qed.

Lemma range_loop_spec page skipped out (rows : list ((Z * Z) * bytes)) :
  (∀ r, r ∈ rows → is_Some (dec_block r.2)) → skipped ≤ page_offset page →
  range_loop page skipped out rows
  = out ++ take (Z.to_nat (page_limit page - len out))
             (drop (Z.to_nat (page_offset page - skipped)) (omap (λ r, dec_block r.2) rows)).
Proof.
  revert skipped out. induction rows as [|r rows IH]; intros skipped out Hdec Hs; cbn [range_loop].
  { cbn. by rewrite drop_nil, take_nil, app_nil_r. }
  destruct (page_limit page <=? len out) eqn:Hl; reflect_bools.
  { replace (Z.to_nat (page_limit page - len out)) with 0%nat by lia. by rewrite app_nil_r. }
  destruct (Hdec r ltac:(set_solver)) as [b Hb]. cbn [omap list_omap]. rewrite Hb.
  destruct (skipped <? page_offset page) eqn:Ho; reflect_bools.
  - rewrite IH by (set_solver || lia).
    replace (Z.to_nat (page_offset page - skipped)) with (S (Z.to_nat (page_offset page - (skipped + 1))))
      by lia. done.
  - rewrite IH by (set_solver || lia).
    replace (Z.to_nat (page_offset page - skipped)) with 0%nat by lia. cbn [drop].
    replace (Z.to_nat (page_limit page - len out)) with (S (Z.to_nat (page_limit page - len (out ++ [b])))).
    + by rewrite <-app_assoc.
    + unfold len in *. rewrite length_app. cbn [length]. lia.
Qed.

Lemma blocks_range_spec c from to page db :
  coherent db → 0 ≤ page_offset page →
  blocks_range c from to page db = page_of page (range_blocks c from to db).
Proof.
  intros Hco Ho. unfold blocks_range. destruct (to <? from) eqn:Hft; reflect_bools.
  - assert (range_blocks c from to db = []) as ->.
    { apply elem_of_nil_inv. intros b (_ & _ & ?)%elem_of_range_blocks; [lia|done]. }
    unfold page_of. by rewrite drop_nil, take_nil.
  - rewrite range_loop_spec; [|intros [k v] (b & -> & _)%block_rows_blocks; [|done]|done].
    + unfold page_of, len. cbn [length app]. by rewrite !Z.sub_0_r.
    + cbn. rewrite dec_enc_block. by eexists.
Qed.

Lemma last_max {A} (f : A → Z) (l : list A) x :
  StronglySorted (λ a b, f a < f b) l → last l = Some x → ∀ y, y ∈ l → f y ≤ f x.
Proof.
  intros Hs Hlast y Hy. apply last_Some in Hlast as [l' ->].
  apply elem_of_app in Hy as [Hy| ->%list_elem_of_singleton]; [|lia].
  induction l' as [|z l' IH]; [set_solver|]. cbn in Hs. inversion_clear Hs as [|?? Hs' Hall].
  apply elem_of_cons in Hy as [->|Hy]; [|by apply IH].
  rewrite Forall_forall in Hall. apply Z.lt_le_incl, Hall. set_solver.
Qed.

Lemma latest_height_spec c h db :
  coherent db → is_u32 c →
  latest_height c db = Some h ↔
  (∃ b, cache_blocks db !! (c, h) = Some b) ∧ (∀ k b, cache_blocks db !! k = Some b → k.1 = c → k.2 ≤ h).
Proof.
  intros Hco Hc. unfold latest_height. set (rows := block_rows c 0 u64_max (t_blocks (disk db))).
  assert (∀ k b, cache_blocks db !! k = Some b → k.1 = c → (k, enc_block b) ∈ rows) as Hin.
  { intros k b Hb Hk. apply block_rows_blocks; [done|]. exists b.
    destruct (co_keys _ Hco k b Hb) as (? & _ & [? ?] & _). split_and!; [done..|].
    apply in_range_true. split; [done|lia]. }
  destruct (last rows) as [[[c' h'] v]|] eqn:Hlast.
  - assert ((c', h', v) ∈ rows) as Hr by (by apply last_Some_elem_of).
    apply block_rows_blocks in Hr as (b & -> & Hk & Hb & Hr); [|done].
    apply in_range_true in Hr as [Hc' _]. cbn in Hc'. subst c'.
    pose proof (last_max (λ r : (Z * Z) * bytes, r.1.2) rows _ (block_rows_strict _ _ _ _) Hlast) as Hmax.
    cbn in *. split.
    + intros [= ->]. split; [eauto|]. intros k b' Hb' Hk'. apply (Hmax (k, enc_block b')). by apply Hin.
    + intros [(b' & Hb') Hall]. f_equal. apply Z.le_antisymm.
      * by apply (Hall (c, h') b).
      * apply (Hmax ((c, h), enc_block b')). by apply Hin.
  - split; [done|]. intros [(b & Hb) _]. apply last_None in Hlast.
    pose proof (Hin (c, h) b Hb eq_refl). rewrite Hlast in *. set_solver.
Qed.

Lemma block_at_run c h db : coherent db → block_at c h db = (Ok (cache_blocks db !! (c, h)), db).
Proof.
  intros Hco. unfold block_at. unfold mbind, M_bind, get_db, mret, M_ret. rewrite (co_blocks _ Hco).
  rewrite lookup_fmap. by destruct (cache_blocks db !! (c, h)).
Qed.

Lemma block_at_Some c h db b :
  coherent db → (block_at c h db).1 = Ok (Some b) ↔ cache_blocks db !! (c, h) = Some b.
Proof. intros Hco. rewrite block_at_run by done. cbn. split; [by intros [= ->]|by intros ->]. Qed.

(** ** Siblings *)

(** The stored blocks under one parent, by key. *)
Definition sibling_blocks (p : bytes) (db : Database) : list StoredBlock :=
  omap (λ k, cache_blocks db !! k) (sibling_keys p (t_siblings (disk db))).

Lemma elem_of_sibling_blocks p db b :
  coherent db → b ∈ sibling_blocks p db ↔
  cache_blocks db !! block_key b = Some b ∧ db_parent_hash b = Some p.
Proof.
  intros Hco. unfold sibling_blocks. rewrite list_elem_of_omap. split.
  - intros ([c h] & Hk%elem_of_sibling_keys & Hb). apply (co_index _ Hco) in Hk as (b' & Hb' & Hp).
    assert (b' = b) as -> by congruence. destruct (co_keys _ Hco _ b Hb) as (Hk & _). by rewrite <-Hk.
  - intros [Hb Hp]. exists (block_key b). split; [|done]. apply elem_of_sibling_keys, (co_index _ Hco).
    by exists b.
Qed.

Lemma NoDup_sibling_keys (p : bytes) (t : gset (bytes * Z * Z)) : NoDup (sibling_keys p t).
Proof.
  unfold sibling_keys. rewrite sort_by_Permutation.
  induction (NoDup_elements t) as [|[[q c] h] l Hx Hl IH]; cbn; [constructor|].
  case_decide as Hq; [|done]. constructor; [|done].
  intros ([[q' c'] h'] & Hin & Heq)%list_elem_of_omap. cbn in Heq. case_decide; simplify_eq. done.
Qed.

Lemma NoDup_sibling_blocks p db : coherent db → NoDup (sibling_blocks p db).
Proof.
  intros Hco. unfold sibling_blocks.
  induction (NoDup_sibling_keys p (t_siblings (disk db))) as [|k ks Hk Hks IH]; cbn; [constructor|].
  destruct (cache_blocks db !! k) as [b|] eqn:Hb; [|done]. constructor; [|done].
  intros (k' & Hk' & Hb')%list_elem_of_omap.
  destruct (co_keys _ Hco k b Hb) as (-> & _), (co_keys _ Hco k' b Hb') as (-> & _). done.
Qed.

Lemma sibling_loop_spec (t : gmap (Z * Z) bytes) (page : Page) (total : Z) (out : list StoredBlock) (keys : list (Z * Z)) :
  (∀ k, k ∈ keys → ∃ b, t !! k = Some (enc_block b)) →
  sibling_loop t page total out keys
  = (out ++ take (Z.to_nat (page_limit page - len out))
              (drop (Z.to_nat (page_offset page - total)) (omap (λ k, t !! k ≫= dec_block) keys)),
     total + len keys).
Proof.
  revert total out. induction keys as [|k keys IH]; intros total out Hk; cbn [sibling_loop].
  { cbn. rewrite drop_nil, take_nil, app_nil_r. f_equal. unfold len. cbn. lia. }
  destruct (Hk k ltac:(set_solver)) as [b Hb]. cbn [omap list_omap]. rewrite Hb. cbn.
  rewrite dec_enc_block. assert (total + len (k :: keys) = total + 1 + len keys) as ->.
  { unfold len. cbn [length]. lia. }
  destruct ((page_offset page <? total + 1) && (len out <? page_limit page)) eqn:Hc.
  - reflect_bools. rewrite IH by set_solver.
    replace (Z.to_nat (page_offset page - (total + 1))) with 0%nat by lia.
    replace (Z.to_nat (page_offset page - total)) with 0%nat by lia. cbn [drop].
    replace (Z.to_nat (page_limit page - len out)) with (S (Z.to_nat (page_limit page - len (out ++ [b])))).
    + by rewrite <-app_assoc.
    + unfold len in *. rewrite length_app. cbn [length]. lia.
  - rewrite IH by set_solver. f_equal. f_equal. apply andb_false_iff in Hc as [Hc|Hc]; reflect_bools.
    + by replace (Z.to_nat (page_offset page - total))
        with (S (Z.to_nat (page_offset page - (total + 1)))) by lia.
    + by replace (Z.to_nat (page_limit page - len out)) with 0%nat by lia.
Qed.

Lemma sibling_range_spec p page db :
  coherent db →
  sibling_blocks_range p page db = (page_of page (sibling_blocks p db), len (sibling_blocks p db)).
Proof.
  intros Hco. unfold sibling_blocks_range.
  assert (∀ k, k ∈ sibling_keys p (t_siblings (disk db)) → is_Some (cache_blocks db !! k)) as Hk.
  { intros [c h] (b & Hb & _)%elem_of_sibling_keys%(co_index _ Hco). by exists b. }
  assert (∀ ks : list (Z * Z), (∀ k, k ∈ ks → is_Some (cache_blocks db !! k)) →
          omap (λ k, t_blocks (disk db) !! k ≫= dec_block) ks = omap (λ k, cache_blocks db !! k) ks ∧
          length (omap (λ k, cache_blocks db !! k) ks) = length ks) as Hom.
  { induction ks as [|k ks IH]; intros Hks; [done|]. cbn.
    rewrite (co_blocks _ Hco), lookup_fmap. destruct (Hks k ltac:(set_solver)) as [b ->]. cbn.
    rewrite dec_enc_block. destruct (IH ltac:(set_solver)) as [Ho Hl].
    rewrite (co_blocks _ Hco) in Ho. by rewrite Ho, <-Hl. }
  destruct (Hom _ Hk) as [Ho Hl]. rewrite sibling_loop_spec.
  - rewrite Ho. unfold page_of, sibling_blocks, len. rewrite Hl. cbn [app length]. by rewrite !Z.sub_0_r.
  - intros k Hin. destruct (Hk k Hin) as [b Hb]. exists b. by rewrite (co_blocks _ Hco), lookup_fmap, Hb.
Qed.

Lemma siblings_for_parent_spec p db :
  coherent db → siblings_for_parent p db ≡ₚ sibling_blocks p db.
Proof.
  intros Hco. unfold siblings_for_parent.
  pose proof (co_siblings _ Hco p) as Hin. pose proof (co_nodup _ Hco p) as Hnd.
  destruct (cache_siblings db !! p) as [l|]; cbn in *.
  - apply NoDup_Permutation; [done|by apply NoDup_sibling_blocks|]. intros b.
    by rewrite elem_of_sibling_blocks.
  - assert (sibling_blocks p db = []) as Hnil.
    { apply elem_of_nil_inv. intros b Hb%elem_of_sibling_blocks; [|done]. apply Hin in Hb. set_solver. }
    rewrite sibling_range_spec by done. by rewrite Hnil.
Qed.

(** ** Shared parents *)

Definition lowest (f : option Z) (l : list StoredBlock) (c h : Z) : Prop :=
  matches f c = true ∧ (∃ b, b ∈ l ∧ sb_chain_id b = c ∧ sb_height b = h) ∧
  (∀ b, b ∈ l → sb_chain_id b = c → h ≤ sb_height b).

Lemma add_legs_spec f (l : list StoredBlock) c :
  match foldl (add_leg f) ∅ l !! c with
  | Some h => lowest f l c h
  | None => matches f c = true → ∀ b, b ∈ l → sb_chain_id b ≠ c
  end.
Proof.
  induction l as [|b l IH] using rev_ind; [cbn [foldl]; rewrite lookup_empty; set_solver|].
  rewrite foldl_app. cbn [foldl]. unfold add_leg at 1. set (m := foldl (add_leg f) ∅ l) in *.
  destruct (matches f (sb_chain_id b)) eqn:Hm.
  - destruct (decide (sb_chain_id b = c)) as [<-|Hne].
    + rewrite lookup_insert_eq. destruct (m !! sb_chain_id b) as [h|].
      * destruct IH as (_ & (x & Hx & Hxc & Hxh) & Hall). split_and!; [done| |].
        -- destruct (decide (h ≤ sb_height b)).
           ++ exists x. rewrite elem_of_app. split_and!; [tauto|done|lia].
           ++ exists b. rewrite elem_of_app, list_elem_of_singleton. split_and!; [tauto|done|lia].
        -- intros y [Hy| ->%list_elem_of_singleton]%elem_of_app Hc; [|lia].
           pose proof (Hall y Hy Hc). lia.
      * split_and!; [done|exists b; set_solver|].
        intros y [Hy| ->%list_elem_of_singleton]%elem_of_app Hc; [|lia]. by destruct (IH Hm y Hy).
    + rewrite lookup_insert_ne by done. destruct (m !! c) as [h|]; [|set_solver].
      destruct IH as (? & (x & Hx & ?) & Hall). split_and!; [done|exists x; set_solver|].
      intros y [Hy| ->%list_elem_of_singleton]%elem_of_app Hc; [by apply Hall|done].
  - destruct (m !! c) as [h|].
    + destruct IH as (Hc & (x & Hx & ?) & Hall). split_and!; [done|exists x; set_solver|].
      intros y [Hy| ->%list_elem_of_singleton]%elem_of_app Hyc; [by apply Hall|congruence].
    + intros Hc y [Hy| ->%list_elem_of_singleton]%elem_of_app; [by apply IH|congruence].
Qed.

Lemma elem_of_legs f (l : list StoredBlock) c h : (c, h) ∈ legs_of f l ↔ lowest f l c h.
Proof.
  unfold legs_of. rewrite elem_of_sort_by, elem_of_map_to_list. pose proof (add_legs_spec f l c) as Hs.
  split; [intros Heq; by rewrite Heq in Hs|].
  intros (Hm & (b & Hb & Hc & Hh) & Hall). destruct (_ !! c) as [h'|].
  - destruct Hs as (_ & (b' & Hb' & Hc' & Hh') & Hall'). f_equal.
    pose proof (Hall b' Hb' Hc'). pose proof (Hall' b Hb Hc). lia.
  - by destruct (Hs Hm b Hb).
Qed.

Lemma NoDup_legs f (l : list StoredBlock) : NoDup (legs_of f l).*1.
Proof. unfold legs_of. rewrite sort_by_Permutation. apply NoDup_fst_map_to_list. Qed.

Lemma elem_of_unclassified p db :
  p ∈ unclassified_parents db ↔ ∃ sp, cache_parents db !! p = Some sp ∧ sp_parent_state sp = 0.
Proof.
  unfold unclassified_parents. rewrite list_elem_of_omap. split.
  - intros ([q sp] & Hin & Heq). rewrite elem_of_map_to_list in Hin. cbn in Heq.
    destruct (sp_parent_state sp =? 0) eqn:Hst; [|done]. injection Heq as <-. reflect_bools. eauto.
  - intros (sp & Hsp & Hst). exists (p, sp). rewrite elem_of_map_to_list. split; [done|]. cbn.
    by rewrite Hst.
Qed.

Lemma StronglySorted_weaken {A} (R S : A → A → Prop) l :
  (∀ a b, R a b → S a b) → StronglySorted R l → StronglySorted S l.
Proof.
  intros HRS. induction 1 as [|a l Hs IH Hall]; constructor; [done|].
  eapply Forall_impl; [exact Hall|]. auto.
Qed.

(** The lowest block of a chain under a parent is a leg of the parent. *)
Lemma leg_of_block f p db c b :
  coherent db → matches f c = true → b ∈ default [] (cache_siblings db !! p) → sb_chain_id b = c →
  c ∈ (legs_of f (default [] (cache_siblings db !! p))).*1.
Proof.
  intros Hco Hm Hb Hc. pose proof (add_legs_spec f (default [] (cache_siblings db !! p)) c) as Hs.
  destruct (_ !! c) as [h|]; [|by destruct (Hs Hm b Hb)].
  apply list_elem_of_fmap. exists (c, h). by rewrite elem_of_legs.
Qed.

Lemma shared_le_total a b : shared_le a b = true ∨ shared_le b a = true.
Proof.
  unfold shared_le. rewrite !orb_true_iff, !andb_true_iff, !Z.ltb_lt, !Z.leb_le, !Z.eqb_eq. lia.
Qed.
Lemma shared_le_trans a b c : shared_le a b = true → shared_le b c = true → shared_le a c = true.
Proof.
  unfold shared_le. rewrite !orb_true_iff, !andb_true_iff, !Z.ltb_lt, !Z.leb_le, !Z.eqb_eq. lia.
Qed.

(** One group for each parent. *)
Lemma NoDup_shared_groups m f db : NoDup (shp_parent_hash_le <$> shared_groups m f db).
Proof.
  eapply sublist_NoDup; [apply (NoDup_fst_map_to_list (cache_parents db))|]. unfold shared_groups.
  induction (map_to_list (cache_parents db)) as [|[p sp] l IH]; [constructor|]. cbn -[legs_of].
  destruct (sp_ltc_height sp) as [lh|]; cbn -[legs_of]; [|by constructor].
  destruct (cache_siblings db !! p) as [sib|]; cbn -[legs_of]; [|by constructor].
  destruct (m <=? _); cbn; by constructor.
Qed.
Lemma elem_of_shared_groups m f db g :
  g ∈ shared_groups m f db ↔
  ∃ sp l, cache_parents db !! shp_parent_hash_le g = Some sp ∧
    sp_ltc_height sp = Some (shp_ltc_height g) ∧
    cache_siblings db !! shp_parent_hash_le g = Some l ∧
    shp_legs g = legs_of f l ∧ m ≤ len (shp_legs g).
Proof.
  unfold shared_groups. rewrite list_elem_of_omap. split.
  - intros ([p sp] & Hin & Heq). rewrite elem_of_map_to_list in Hin. cbn in Heq.
    apply bind_Some in Heq as (lh & Hlh & (l & Hl & Heq)%bind_Some).
    destruct (m <=? len (legs_of f l)) eqn:Hm; [|done]. injection Heq as <-. reflect_bools. cbn. eauto 10.
  - intros (sp & l & Hsp & Hlh & Hl & Hlegs & Hm). exists (shp_parent_hash_le g, sp).
    rewrite elem_of_map_to_list. split; [done|]. cbn. rewrite Hlh. cbn. rewrite Hl. cbn.
    rewrite Hlegs in Hm. apply Z.leb_le in Hm as ->. f_equal. destruct g. cbn in *. congruence.
Qed.

Lemma legs_filtered c (l : list StoredBlock) : len (legs_of (Some c) l) ≤ 1.
Proof.
  assert (∀ x, x ∈ (legs_of (Some c) l).*1 → x = c) as Hall.
  { intros x ([c' h] & -> & (Hm & _)%elem_of_legs)%list_elem_of_fmap. cbn in Hm.
    by apply bool_decide_eq_true in Hm. }
  pose proof (NoDup_legs (Some c) l) as Hnd. unfold len. rewrite <-(length_fmap fst).
  destruct ((legs_of (Some c) l).*1) as [|x [|y k]]; cbn; [lia|lia|].
  apply NoDup_cons in Hnd as [Hx _]. destruct Hx.
  rewrite (Hall x), (Hall y); set_solver.
Qed.
End reachable.

(** ** A concrete codec

    Values as numbers, through their countability, and numbers as bits. *)

Fixpoint pos_bytes (p : positive) : bytes :=
  match p with xH => [] | xO p => x00 :: pos_bytes p | xI p => x01 :: pos_bytes p end.
Fixpoint bytes_pos (b : bytes) : positive :=
  match b with
  | [] => xH
  | c :: b => if decide (c = x00) then xO (bytes_pos b) else xI (bytes_pos b)
  end.
Fixpoint pos_string (p : positive) : string :=
  match p with
  | xH => EmptyString
  | xO p => String "0" (pos_string p)
  | xI p => String "1" (pos_string p)
  end.
Fixpoint string_pos (s : string) : positive :=
  match s with
  | EmptyString => xH
  | String c s => if decide (c = "0"%char) then xO (string_pos s) else xI (string_pos s)
  end.

Lemma bytes_pos_bytes p : bytes_pos (pos_bytes p) = p.
Proof. induction p as [p IH|p IH|]; cbn; by rewrite ?IH. Qed.
Lemma string_pos_string p : string_pos (pos_string p) = p.
Proof. induction p as [p IH|p IH|]; cbn; by rewrite ?IH. Qed.

#[export] Instance AuxPow_countable : Countable AuxPow := inj_countable'
  (λ a, (coinbase_tx a, parent_merkle_branch a, parent_index a, chain_merkle_branch a, chain_index a,
         parent_header a))
  (λ '(c, pb, pi, cb, ci, ph), mkAuxPow c pb pi cb ci ph) (λ '(mkAuxPow _ _ _ _ _ _), eq_refl).
#[export] Instance BlockHeader_countable : Countable BlockHeader := inj_countable'
  (λ h, (raw h, aux h)) (λ '(r, a), mkBlockHeader r a) (λ '(mkBlockHeader _ _), eq_refl).
#[export] Instance StoredBlock_countable : Countable StoredBlock := inj_countable'
  (λ b, (sb_hash_le b, sb_chain_id b, sb_height b, sb_header b, sb_wire_hex b))
  (λ '(x, c, h, bh, w), mkBlock x c h bh w) (λ '(mkBlock _ _ _ _ _), eq_refl).
#[export] Instance StoredParent_eq_dec : EqDecision StoredParent.
Proof. solve_decision. Defined.
#[export] Instance StoredParent_countable : Countable StoredParent := inj_countable'
  (λ p, (sp_parent_hash_le p, sp_parent_header p, sp_ltc_height p, sp_parent_state p, sp_work p))
  (λ '(x, h, l, s, w), mkParent x h l s w) (λ '(mkParent _ _ _ _ _), eq_refl).
#[export] Instance SwapIntentMessage_countable : Countable SwapIntentMessage := inj_countable'
  (λ i, (protocol i, intent_version i, intent_id i, maker_pubkey i, from_chain i, to_chain i,
         from_amount i, to_amount i,
         (maker_receive_address i, timestamp i, expiry i, settlement i, adaptor_point i, maker_npub i,
          maker_refund_address i, signature i)))
  (λ '(a, b, c, d, e, f, g, h, (i, j, k, l, m, n, o, p)), mkIntent a b c d e f g h i j k l m n o p)
  (λ '(mkIntent _ _ _ _ _ _ _ _ _ _ _ _ _ _ _ _), eq_refl).

Definition toy_codec : Codec.
Proof.
  refine {| enc_block b := pos_bytes (encode b); dec_block d := decode (bytes_pos d);
            enc_parent p := pos_bytes (encode p); dec_parent d := decode (bytes_pos d);
            enc_intent i := pos_string (encode i); dec_intent s := decode (string_pos s) |};
    intros x; rewrite ?bytes_pos_bytes, ?string_pos_string; apply decode_encode.
Defined.

(** ** A sample database

    Two blocks of chain 8224 and one of chain 50 under one parent. *)

Definition sample_block (c h : Z) : StoredBlock :=
  mkBlock (@sha256d toy_hash sample_base) c h (mkBlockHeader sample_base (Some sample_base_aux)) "00".
Definition sample_parent : bytes := @sha256d toy_hash (parent_header sample_base_aux).
Definition sample_row (c h : Z) : Z * Z * StoredBlock := ((c, h), sample_block c h).
Definition sample_rows : list (Z * Z * StoredBlock) :=
  [sample_row 8224 10; sample_row 8224 11; sample_row 50 7].

Lemma sample_row_ok c h : is_u32 c → is_u64 h → @row_ok (sample_row c h).
Proof. intros Hc Hh. split; [done|done|done|]. exists sample_base_aux. split; [done|by vm_compute]. Qed.

Lemma sample_agree (c : gmap (Z * Z) StoredBlock) rows :
  (∀ k b, c !! k = Some b → b = sample_block k.1 k.2) →
  (∀ r, r ∈ rows → r.2 = sample_block r.1.1 r.1.2) → rows_agree c rows.
Proof.
  intros Hc Hr. split.
  - intros r r' H1%Hr H2%Hr Heq. congruence.
  - intros r b H1%Hr H2%Hc. congruence.
Qed.

(** ** Properties *)

(** C35: every state the database reaches from an empty file through successful
    operations of callers with discipline ([disciplined]: the rows inserted are under
    their own key, have a parent header and conflict with no stored block; the parents
    of the stored blocks are cached at a rollback, which a restart with a pending
    parent may break; pruning is below a height of at least 1), restarts included,
    satisfies the storage invariant: the caches and the tables hold the
    same blocks under their own keys, the sibling index and the sibling lists are
    exactly the stored blocks under their parents, the classified parents,
    the metadata and the intents are durable, the schema version is the current
    one and the order book never exceeds its capacity. *)
Theorem reachable_db_invariant `{Sha256} `{HexCodec} `{Codec} (db : Database) (Hr : reachable db) :
  coherent db ∧ schema_ok db ∧ faults db = [] ∧
  Z.of_nat (size (cache_intents db)) ≤ MAX_ACTIVE_INTENTS.
Proof. by destruct (reachable_inv db Hr). Qed.

(** C36: inserting a batch.  On a coherent store whose blocks have their parents
    cached and whose transactions succeed, a batch of rows under their own keys, with
    parent headers, of which none conflicts with another or with a stored block at the
    same chain and height, is inserted: every block of the batch is stored under its
    key and its parent, nothing else is, all other blocks stay, and the store is again
    coherent with its parents cached. *)
Theorem insert_blocks_correct `{Sha256} `{HexCodec} `{Codec} (db : Database)
    (rows : list (Z * Z * StoredBlock))
    (Hco : coherent db) (Hpk : parents_known db) (Hf : faults db = [])
    (Hrows : Forall row_ok rows) (Hag : rows_agree (cache_blocks db) rows) :
  ∃ db', insert_blocks rows db = (Ok (), db') ∧ coherent db' ∧ parents_known db' ∧
    (∀ c h b, (block_at c h db').1 = Ok (Some b) ↔
       ((c, h), b) ∈ rows ∨ (block_at c h db).1 = Ok (Some b)) ∧
    (∀ p b, b ∈ siblings_for_parent p db' ↔
       ((block_key b, b) ∈ rows ∧ db_parent_hash b = Some p) ∨ b ∈ siblings_for_parent p db).
Proof.
  destruct (insert_blocks_spec db rows Hco Hrows Hag Hf) as (db' & Hrun & Hco' & Hpk' & Hb & _).
  exists db'. split_and!; [done|done|by apply Hpk'| |].
  - intros c h b. rewrite !block_at_Some by done. apply Hb.
  - intros p b. rewrite !siblings_for_parent_spec, !elem_of_sibling_blocks, Hb by done. tauto.
Qed.

(** C37: rollback.  On a coherent store that has the parent of every stored block in
    its cache (false after a restart that dropped a pending parent: the finding on the
    stale index rows) and whose transactions succeed, [rollback_from] removes exactly
    the blocks of the chain at or above the height, from the tables, the caches and
    the sibling index, returns their number, forgets exactly the parents that lose
    their last block, and moves the chain's cursor, when it is at or above the height,
    to just below it; the other chains' cursors stay. *)
Theorem rollback_from_correct `{Sha256} `{HexCodec} `{Codec} (db : Database) (c from : Z)
    (Hco : coherent db) (Hpk : parents_known db) (Hf : faults db = [])
    (Hc : is_u32 c) (Hfrom : is_u64 from) :
  ∃ n db', rollback_from c from db = (Ok n, db') ∧ coherent db' ∧ parents_known db' ∧
    (∀ c' h, (block_at c' h db').1
       = if (c' =? c) && (from <=? h) then Ok None else (block_at c' h db).1) ∧
    total_blocks db' = total_blocks db - n ∧
    (∀ p, is_Some (cache_parents db' !! p) ↔
       is_Some (cache_parents db !! p) ∧ ¬ orphaned (from_on c from) db p) ∧
    (∀ c', is_u32 c' → (cursor_height c' db').1 =
       if c' =? c then clipped from (cursor_height c' db).1
       else (cursor_height c' db).1).
Proof.
  destruct (rollback_from_run c from db Hco Hpk Hf) as (db1 & Hrun & Hrb & Hco1).
  pose proof (clip_cursor_coherent c from db1 Hco1) as Hco'.
  destruct (clip_cursor_same c from db1) as (Hcb & Hcp & _).
  eexists _, _. split_and!; [exact Hrun|done| | | | |].
  - pose proof (rolled_back_known _ _ _ Hrb Hpk) as Hpk1. unfold parents_known in *. by rewrite Hcb, Hcp.
  - intros c' h. rewrite !block_at_run by done. cbn. rewrite Hcb, (rb_blocks _ _ _ Hrb).
    unfold from_on. cbn. by destruct (_ && _).
  - unfold total_blocks. rewrite (co_blocks _ Hco'), (co_blocks _ Hco), !map_size_fmap, Hcb.
    pose proof (removed_count (from_on c from) db db1 c from u64_max Hco) as Hn.
    rewrite <-Hn; [rewrite (co_blocks _ Hco); lia| |apply Hrb].
    intros k [b Hb]. by apply (from_on_in_range c from db k b).
  - intros p. rewrite Hcp. split.
    + intros [sp [? ?]%(rb_parents _ _ _ Hrb)]. split; [by exists sp|done].
    + intros [[sp ?] ?]. exists sp. by apply (rb_parents _ _ _ Hrb).
  - intros c' Hc'. rewrite !cursor_height_run by (by apply co_meta). cbn.
    apply clip_cursor_lookup; [done..|]. apply (rb_meta _ _ _ Hrb).
Qed.

(** Pruning.  For a height of at least 1, [prune_before] removes exactly the
    chain's blocks below it, returns their number, and leaves the parents and
    every cursor as they were. *)
Theorem prune_before_correct `{Sha256} `{HexCodec} `{Codec} (db : Database) (c below : Z)
    (Hco : coherent db) (Hpk : parents_known db) (Hf : faults db = []) (Hbelow : 1 ≤ below) :
  ∃ n db', prune_before c below db = (Ok n, db') ∧ coherent db' ∧ parents_known db' ∧
    (∀ c' h, (block_at c' h db').1
       = if (c' =? c) && (h <? below) then Ok None else (block_at c' h db).1) ∧
    total_blocks db' = total_blocks db - n ∧
    cache_parents db' = cache_parents db ∧
    (∀ c', (cursor_height c' db').1 = (cursor_height c' db).1).
Proof.
  destruct (prune_before_run c below db Hco Hbelow Hf) as (db' & Hrun & Hco' & Hb & Hp & Hm & _ & _).
  eexists _, db'. split_and!; [exact Hrun|done| | | |done|].
  - intros k b p Hk. rewrite Hb in Hk. destruct (before_on c below k); [done|]. rewrite Hp.
    by apply (Hpk k).
  - intros c' h. rewrite !block_at_run by done. cbn. rewrite Hb.
    unfold before_on. cbn. by destruct (_ && _).
  - unfold total_blocks. rewrite (co_blocks _ Hco'), (co_blocks _ Hco), !map_size_fmap.
    pose proof (removed_count (before_on c below) db db' c 0 (saturating_sub below 1) Hco) as Hn.
    rewrite <-Hn; [rewrite (co_blocks _ Hco); lia| |done].
    intros k Hk. by apply (before_on_in_range c below db k).
  - intros c'. rewrite !cursor_height_run by (by apply co_meta). cbn. by rewrite Hm.
Qed.

(** C38: restart.  Reopening a coherent database whose schema version is current
    succeeds and gives back a coherent one with the same blocks, siblings,
    cursors and intents; of the parents it keeps exactly the classified ones, so
    a parent whose classification was pending is no longer in the cache, nor in the
    list of those to classify (until another block under it is inserted). *)
Theorem reopen_correct `{Sha256} `{HexCodec} `{Codec} (db : Database)
    (Hco : coherent db) (Hs : schema_ok db) :
  ∃ db', open (disk db) false = Ok db' ∧ coherent db' ∧
    (∀ c h, (block_at c h db').1 = (block_at c h db).1) ∧
    (∀ p, siblings_for_parent p db' ≡ₚ siblings_for_parent p db) ∧
    (∀ k, (get_meta k db').1 = (get_meta k db).1) ∧
    cache_intents db' = cache_intents db ∧
    (∀ p sp, cache_parents db' !! p = Some sp ↔
       cache_parents db !! p = Some sp ∧ sp_parent_state sp ≠ 0) ∧
    unclassified_parents db' = [].
Proof.
  destruct (open_run db Hco Hs) as (db' & Hrun & [Hd Hb Hp Hsib Hm Hi] & Hco' & _).
  exists db'. split_and!; [done|done| | | |done| |].
  - intros c h. rewrite !block_at_run by done. by rewrite Hb.
  - intros p. rewrite !siblings_for_parent_spec by done. unfold sibling_blocks. by rewrite Hd, Hb.
  - intros k. rewrite !get_meta_run by (by apply co_meta). by rewrite Hm.
  - intros p sp. rewrite Hp, map_lookup_filter_Some. done.
  - apply elem_of_nil_inv. intros p (sp & Hin & Hst)%elem_of_unclassified. rewrite Hp in Hin.
    by apply map_lookup_filter_Some in Hin as [_ Hcl].
Qed.

(** Schema gate.  A database whose recorded schema version is another number
    is refused, whatever it holds; one whose recorded version does not parse as a
    number is taken for a fresh one. *)
Theorem open_schema_gate `{Sha256} `{HexCodec} `{Codec} (d : Disk) (s : string)
    (Hs : t_meta d !! META_SCHEMA_VERSION = Some s) :
  (∀ v, parse_u32 s = Some v → v ≠ SCHEMA_VERSION → ∃ msg, open d false = Err (DbAnyhow msg)) ∧
  (parse_u32 s = None → ∃ db, open d false = Ok db ∧ t_blocks (disk db) = t_blocks d).
Proof.
  unfold open. rewrite Hs. cbn [mbind option_bind]. split.
  - intros v -> Hv. destruct (v =? SCHEMA_VERSION) eqn:?; reflect_bools; [done|]. by eexists.
  - intros ->. eexists. split; [reflexivity|].
    assert (∀ rows db, disk (foldl warm_block db rows) = disk db) as Hd.
    { induction rows as [|row rows IH]; intros db; [done|]. cbn. rewrite IH.
      unfold warm_block. destruct (dec_block row.2) as [b|]; [|done]. by destruct (aux (sb_header b)). }
    unfold warm_up_cache. by rewrite Hd.
Qed.

(** A failed batch.  When the transaction of [insert_blocks] fails, the tables
    are unchanged but the block cache is not: the batch's blocks are served by
    [block_at] until the next restart, although they are in no table, no sibling
    list and no count. *)
Theorem insert_blocks_fault `{Sha256} `{HexCodec} `{Codec} (db : Database) (fs : list bool)
    (rows : list (Z * Z * StoredBlock)) (Hne : rows ≠ []) (Hf : faults db = true :: fs)
    (Hag : rows_agree (cache_blocks db) rows) :
  ∃ db', insert_blocks rows db = (Err DbRedb, db') ∧ disk db' = disk db ∧
    (∀ k b, (k, b) ∈ rows → (block_at k.1 k.2 db').1 = Ok (Some b)) ∧
    total_blocks db' = total_blocks db ∧
    (∀ p, siblings_for_parent p db' = siblings_for_parent p db) ∧
    open (disk db') false = open (disk db) false.
Proof.
  set (db1 := set_cache_blocks (foldl cache_row (cache_blocks db) rows) db).
  exists (set_faults fs db1). split_and!; try done.
  - destruct rows as [|r rows]; [done|]. unfold insert_blocks.
    rewrite (bind_step _ _ db () db1) by done. unfold mbind, M_bind, write_txn.
    cbn [db1 faults set_cache_blocks]. by rewrite Hf.
  - intros [c h] b Hin. unfold block_at, mbind, M_bind, get_db, mret, M_ret. cbn.
    by rewrite (proj2 (cache_rows_lookup rows (cache_blocks db) (c, h) b Hag)) by (by left).
Qed.

(** Range queries.  [blocks_range] is the requested page of the chain's blocks
    in the height range, in increasing height; [latest_height] is the height of
    the chain's highest block, [None] exactly when it has none. *)
Theorem blocks_range_correct `{Sha256} `{HexCodec} `{Codec} (db : Database) (c from to : Z)
    (page : Page) (Hco : coherent db) (Ho : 0 ≤ page_offset page) (Hc : is_u32 c) :
  (∃ blocks, blocks_range c from to page db = page_of page blocks ∧
     StronglySorted (λ a b, sb_height a < sb_height b) blocks ∧
     (∀ b, b ∈ blocks ↔ (block_at c (sb_height b) db).1 = Ok (Some b) ∧ from ≤ sb_height b ≤ to)) ∧
  (∀ h, latest_height c db = Some h ↔
     (∃ b, (block_at c h db).1 = Ok (Some b)) ∧
     (∀ h' b, (block_at c h' db).1 = Ok (Some b) → h' ≤ h)).
Proof.
  split.
  - exists (range_blocks c from to db). split_and!.
    + by apply blocks_range_spec.
    + by apply range_blocks_sorted.
    + intros b. rewrite elem_of_range_blocks, block_at_Some by done. unfold block_key. split.
      * intros (Hb & <- & ?). done.
      * intros (Hb & Hh). destruct (co_keys _ Hco _ _ Hb) as (Hk & _).
        unfold block_key in Hk. injection Hk as <-. done.
  - intros h. rewrite latest_height_spec by done. setoid_rewrite block_at_Some; [|done..]. split.
    + intros [? Hall]. split; [done|]. intros h' b Hb. by apply (Hall (c, h') b).
    + intros [? Hall]. split; [done|]. intros [c' h'] b Hb Hk. cbn in Hk. subst c'. by apply (Hall h' b).
Qed.

(** Sibling queries.  The cached sibling list of a parent and the range scan
    of the durable index agree: the list is a permutation of the stored blocks
    under that parent, each once, and the paged scan returns the page of them
    and their total. *)
Theorem siblings_correct `{Sha256} `{HexCodec} `{Codec} (db : Database) (p : bytes) (page : Page)
    (Hco : coherent db) :
  NoDup (siblings_for_parent p db) ∧
  (∀ b, b ∈ siblings_for_parent p db ↔
     (block_at (sb_chain_id b) (sb_height b) db).1 = Ok (Some b) ∧ db_parent_hash b = Some p) ∧
  ∃ blocks, siblings_for_parent p db ≡ₚ blocks ∧
    sibling_blocks_range p page db = (page_of page blocks, len blocks).
Proof.
  split_and!.
  - rewrite siblings_for_parent_spec by done. by apply NoDup_sibling_blocks.
  - intros b. by rewrite siblings_for_parent_spec, elem_of_sibling_blocks, block_at_Some.
  - exists (sibling_blocks p db). split; [by apply siblings_for_parent_spec|by apply sibling_range_spec].
Qed.

(** A mainnet parent with its legs: one per chain that has a stored block under
    it, at the lowest such height. *)
Definition is_group `{Sha256} `{Codec} (f : option Z) (db : Database) (g : SharedParent) : Prop :=
  (∃ sp, cache_parents db !! shp_parent_hash_le g = Some sp ∧ sp_parent_state sp = 1 ∧
         sp_ltc_height sp = Some (shp_ltc_height g)) ∧
  NoDup (shp_legs g).*1 ∧
  ∀ c h, (c, h) ∈ shp_legs g ↔
    matches f c = true ∧
    (∃ b, (block_at c h db).1 = Ok (Some b) ∧ db_parent_hash b = Some (shp_parent_hash_le g)) ∧
    (∀ h' b, (block_at c h' db).1 = Ok (Some b) → db_parent_hash b = Some (shp_parent_hash_le g) → h ≤ h').

(** C7: shared parents.  On a coherent store, whose sibling lists are the stored
    blocks, [shared_mainnet_parents] returns the page, and the number, of the groups,
    one for each parent: every item is a mainnet parent at the height it was
    classified at, with its legs, the lowest stored block of each accepted chain
    under it, at least [min_legs] of them; every mainnet parent with stored blocks on
    at least [min_legs] distinct accepted chains (and on one) is among the groups; and
    they come with the most legs first, then by decreasing Litecoin height. *)
Theorem shared_mainnet_parents_correct `{Sha256} `{HexCodec} `{Codec} (db : Database)
    (min_legs : Z) (page : Page) (f : option Z) (Hco : coherent db) :
  ∃ groups, shared_mainnet_parents min_legs page f db = (page_of page groups, len groups) ∧
    StronglySorted (λ a b, shared_le a b = true) groups ∧ NoDup (shp_parent_hash_le <$> groups) ∧
    (∀ g, g ∈ groups → is_group f db g ∧ min_legs ≤ len (shp_legs g)) ∧
    (∀ p sp cs, cache_parents db !! p = Some sp → sp_parent_state sp = 1 → NoDup cs → cs ≠ [] →
       min_legs ≤ len cs →
       (∀ c, c ∈ cs → matches f c = true ∧
          ∃ h b, (block_at c h db).1 = Ok (Some b) ∧ db_parent_hash b = Some p) →
       ∃ g, g ∈ groups ∧ shp_parent_hash_le g = p).
Proof.
  exists (sort_by shared_le (shared_groups min_legs f db)). split_and!; [done| | | |].
  - apply sort_by_StronglySorted; [apply shared_le_total|apply shared_le_trans].
  - rewrite sort_by_Permutation. apply NoDup_shared_groups.
  - intros g. rewrite elem_of_sort_by, elem_of_shared_groups.
    intros (sp & l & Hsp & Hlh & Hl & Hlegs & Hm). split; [|done]. split_and!.
    + exists sp. split_and!; [done| |done].
      destruct (po_state _ _ (co_parent_ok _ Hco _ _ Hsp)) as [[_ ?]|[[? _]|[_ ?]]]; congruence.
    + rewrite Hlegs. apply NoDup_legs.
    + intros c h. rewrite Hlegs, elem_of_legs. unfold lowest. setoid_rewrite block_at_Some; [|done..].
      pose proof (co_siblings _ Hco (shp_parent_hash_le g)) as Hsib. rewrite Hl in Hsib. cbn in Hsib.
      setoid_rewrite Hsib. unfold block_key.
      assert (∀ k b, cache_blocks db !! k = Some b → k = (sb_chain_id b, sb_height b)) as Hk.
      { intros k b Hb. by apply (co_keys _ Hco) in Hb as [-> _]. }
      split.
      * intros (? & (b & [? ?] & <- & <-) & Hall). split_and!; [done|eauto|]. intros h' b' Hb' Hp'.
        pose proof (Hk _ _ Hb') as Heq. injection Heq as Hc ->.
        apply Hall; [split; [by rewrite <-Hc|done]|done].
      * intros (? & (b & Hb & ?) & Hall). split_and!; [done| |].
        -- exists b. pose proof (Hk _ _ Hb) as Heq. injection Heq as -> ->. done.
        -- intros b' [Hb' ?] <-. by apply (Hall _ b').
  - intros p sp cs Hsp Hst Hnd Hne Hm Hcs.
    assert (is_Some (sp_ltc_height sp)) as [lh Hlh].
    { destruct (po_state _ _ (co_parent_ok _ Hco _ _ Hsp)) as [[? _]|[[_ ?]|[? _]]]; [lia|done|lia]. }
    assert (∀ c, c ∈ cs → matches f c = true ∧
              ∃ b, b ∈ default [] (cache_siblings db !! p) ∧ sb_chain_id b = c) as Hcs'.
    { intros c Hc. destruct (Hcs c Hc) as (? & h & b & Hb & Hp). split; [done|].
      apply block_at_Some in Hb; [|done]. destruct (co_keys _ Hco _ _ Hb) as (Hk & _).
      injection Hk as -> ->. exists b. by rewrite (co_siblings _ Hco). }
    destruct (cache_siblings db !! p) as [l|] eqn:Hl.
    + exists (mkShared p lh (legs_of f l)). rewrite elem_of_sort_by, elem_of_shared_groups. cbn.
      split; [|done]. exists sp, l. split_and!; try done.
      unfold len in *. rewrite <-(length_fmap fst). etransitivity; [exact Hm|]. apply inj_le.
      apply submseteq_length, NoDup_submseteq; [done|]. intros c Hc. destruct (Hcs' c Hc) as (? & b & ? & ?).
      pose proof (leg_of_block f p db c b Hco) as Hleg. rewrite Hl in Hleg. by apply Hleg.
    + destruct cs as [|c cs]; [done|]. destruct (Hcs' c ltac:(set_solver)) as (_ & b & Hb & _).
      cbn in Hb. set_solver.
Qed.

(** The chain filter.  The filter keeps only the given chain's legs of a
    parent, so a group never has two legs any more: with a filter and at least
    two legs required, the answer is always empty. *)
Theorem shared_filter_empty `{Sha256} `{HexCodec} `{Codec} (db : Database) (min_legs c : Z) (page : Page)
    (Hmin : 2 ≤ min_legs) :
  shared_mainnet_parents min_legs page (Some c) db = ([], 0).
Proof.
  unfold shared_mainnet_parents.
  assert (shared_groups min_legs (Some c) db = []) as ->.
  { apply elem_of_nil_inv. intros g (sp & l & _ & _ & _ & Hl & Hm)%elem_of_shared_groups.
    pose proof (legs_filtered c l). rewrite Hl in Hm. lia. }
  cbn. unfold page_of. by rewrite drop_nil, take_nil.
Qed.

(** The latest group.  [latest_sibling_group] returns, of all the groups, one
    with the most legs and among those one of the greatest Litecoin height, and
    nothing exactly when there is no group: a newer group with fewer legs is
    never returned. *)
Theorem latest_sibling_group_correct `{Sha256} `{HexCodec} `{Codec} (db : Database) (min_legs : Z) :
  match latest_sibling_group min_legs db with
  | Some g =>
      g ∈ shared_groups min_legs None db ∧
      ∀ g', g' ∈ shared_groups min_legs None db →
        len (shp_legs g') < len (shp_legs g) ∨
        len (shp_legs g') = len (shp_legs g) ∧ shp_ltc_height g' ≤ shp_ltc_height g
  | None => shared_groups min_legs None db = []
  end.
Proof.
  unfold latest_sibling_group, shared_mainnet_parents. cbn [fst].
  pose proof (sort_by_StronglySorted shared_le (shared_groups min_legs None db)
                shared_le_total shared_le_trans) as Hsort.
  pose proof (sort_by_Permutation shared_le (shared_groups min_legs None db)) as Hperm.
  destruct (sort_by shared_le (shared_groups min_legs None db)) as [|g gs].
  - symmetry in Hperm. by apply Permutation_nil_r in Hperm.
  - assert (last (page_of (Page_new (Some 1) (Some 0)) (g :: gs)) = Some g) as -> by reflexivity.
    split; [rewrite <-Hperm; set_solver|]. intros g'. rewrite <-Hperm.
    intros [->|Hg']%elem_of_cons; [lia|]. apply StronglySorted_inv in Hsort as [_ Hall].
    rewrite Forall_forall in Hall. specialize (Hall g' Hg'). unfold shared_le in Hall.
    rewrite orb_true_iff, andb_true_iff, !Z.ltb_lt, Z.leb_le, Z.eqb_eq in Hall. lia.
Qed.

(** Cursors.  Setting a chain's cursor to a 64-bit height makes
    [cursor_height] return that height for that chain and leaves every other
    chain's cursor and every block as it was. *)
Theorem cursor_height_roundtrip `{Sha256} `{HexCodec} `{Codec} (db : Database) (c h : Z)
    (Hco : coherent db) (Hf : faults db = []) (Hc : is_u32 c) (Hh : is_u64 h) :
  ∃ db', set_cursor_height c h db = (Ok (), db') ∧ coherent db' ∧
    (cursor_height c db').1 = Ok (Some h) ∧
    (∀ c', is_u32 c' → c' ≠ c → (cursor_height c' db').1 = (cursor_height c' db).1) ∧
    cache_blocks db' = cache_blocks db.
Proof.
  eexists. split; [by apply set_meta_run|].
  pose proof (coherent_meta_set (cursor_key c) (pretty h) db Hco) as Hco'.
  split_and!; [done| | |done].
  - rewrite cursor_height_run by (by apply co_meta). cbn. rewrite lookup_insert_eq. cbn.
    unfold parse_u64. by rewrite parse_pretty.
  - intros c' Hc' Hne. rewrite !cursor_height_run by (by apply co_meta). cbn.
    rewrite lookup_insert_ne; [done|]. by intros ?%cursor_key_inj.
Qed.

(** The order book.  [insert_intent] first drops the expired intents, then
    stores the intent under its id unless the book is full; [list_intents] returns
    the requested page, and the number, of the live intents that match the
    filters, newest first. *)
Theorem order_book_correct `{Sha256} `{HexCodec} `{Codec} (db : Database) (now : Z)
    (i : SwapIntentMessage) (from to : option Z) (proto : option string) (page : Page)
    (Hco : coherent db) (Hf : faults db = []) :
  (∃ r db', insert_intent now i db = (r, db') ∧ coherent db' ∧
     let live_book := filter (live now) (cache_intents db) in
     if decide (Z.of_nat (size live_book) < MAX_ACTIVE_INTENTS)
     then r = Ok () ∧ cache_intents db' = <[intent_id i := i]> live_book
     else is_ok r = false ∧ cache_intents db' = live_book) ∧
  (∃ items db', list_intents now now from to proto page db = (Ok (page_of page items, len items), db') ∧
     coherent db' ∧
     StronglySorted (λ a b, timestamp b ≤ timestamp a) items ∧
     (∀ x, x ∈ items ↔ (∃ id, cache_intents db !! id = Some x) ∧ now < expiry x ∧
        matches from (from_chain x) = true ∧ matches to (to_chain x) = true ∧
        matches proto (protocol x) = true)).
Proof.
  split.
  - pose proof (insert_intent_run now i db Hco Hf) as Hrun. cbv zeta in Hrun.
    eexists _, _. split; [apply surjective_pairing|]. rewrite Hrun.
    destruct (MAX_ACTIVE_INTENTS <=? _) eqn:Hcap; reflect_bools; cbn.
    + split; [by apply intents_set_coherent|]. by rewrite decide_False by lia.
    + split; [by apply intents_set_coherent|]. by rewrite decide_True by lia.
  - unfold list_intents. rewrite (bind_step _ _ db _ _ (prune_expired_run now db Hco Hf)).
    set (db1 := intents_set _ db). rewrite (bind_step _ _ db1 db1 db1) by done. cbv zeta.
    eexists _, db1. split; [reflexivity|]. split_and!; [by apply intents_set_coherent| |].
    + eapply (StronglySorted_weaken (λ a b, (timestamp b <=? timestamp a) = true));
        [intros a b ?; by reflect_bools|].
      apply sort_by_StronglySorted; intros *; rewrite !Z.leb_le; lia.
    + intros x. rewrite elem_of_sort_by, elem_of_filter_bool, !andb_true_iff, Z.ltb_lt, list_elem_of_fmap.
      cbn [cache_intents db1 intents_set set_disk set_cache_intents]. split.
      * intros ((((? & ?) & ?) & ?) & ([id y] & -> & Hin)). rewrite elem_of_map_to_list in Hin.
        apply map_lookup_filter_Some in Hin as [Hin _]. split_and!; [by exists id|done..].
      * intros ((id & Hid) & ? & ? & ? & ?). split_and!; [done..|]. exists (id, x).
        rewrite elem_of_map_to_list. split; [done|]. by apply map_lookup_filter_Some.
Qed.

(** Classification.  Classifying a cached parent records the height and the
    state, durably, for that parent only, and takes it out of
    [unclassified_parents] for both outcomes: a parent recorded as a trial is not
    proposed for classification again. *)
Theorem classify_parent_correct `{Sha256} `{HexCodec} `{Codec} (db : Database) (ph : bytes)
    (lh : option Z) (sp : StoredParent)
    (Hco : coherent db) (Hf : faults db = []) (Hsp : cache_parents db !! ph = Some sp) :
  ∃ db', classify_parent ph lh db = (Ok (), db') ∧ coherent db' ∧
    (∃ sp', cache_parents db' !! ph = Some sp' ∧ t_parents (disk db') !! ph = Some (enc_parent sp') ∧
       sp_ltc_height sp' = lh ∧ sp_parent_header sp' = sp_parent_header sp ∧
       sp_parent_state sp' = match lh with Some _ => 1 | None => 2 end) ∧
    (∀ p, p ≠ ph → cache_parents db' !! p = cache_parents db !! p) ∧
    (∀ p, p ∈ unclassified_parents db' ↔ p ∈ unclassified_parents db ∧ p ≠ ph) ∧
    cache_blocks db' = cache_blocks db.
Proof.
  destruct (classify_run ph lh db Hco Hf) as (db' & Hrun & Hco' & _ & Hb & _ & _ & _ & Hp).
  exists db'. split; [exact Hrun|]. split; [exact Hco'|].
  assert (∀ p, p ≠ ph → cache_parents db' !! p = cache_parents db !! p) as Hne.
  { intros p Hpp. rewrite Hp. by rewrite lookup_alter_ne. }
  assert (cache_parents db' !! ph = (λ p, mkParent (sp_parent_hash_le p) (sp_parent_header p) lh
      (if lh is Some _ then 1 else 2) (sp_work p)) <$> Some sp) as Hph.
  { rewrite Hp. by rewrite lookup_alter_eq, Hsp. }
  cbn in Hph. split_and!; [|done| |done].
  - eexists. split; [exact Hph|]. cbn. split_and!; [|done..].
    rewrite (co_parents _ Hco'), lookup_fmap, map_lookup_filter, Hph. cbn.
    rewrite option_guard_True; [done|]. unfold classified. cbn. by destruct lh.
  - intros p. rewrite !elem_of_unclassified. destruct (decide (p = ph)) as [->|Hpp].
    + rewrite Hph. split; [|naive_solver]. intros (? & [= <-] & Hst). cbn in Hst. by destruct lh.
    + rewrite Hne by done. naive_solver.
Qed.

(** ** The theorems at concrete inputs *)

#[local] Existing Instances toy_hash plain_hex toy_codec.

Definition sample_db : Database := (insert_blocks sample_rows fresh_db).2.

Lemma sample_rows_ok : Forall row_ok sample_rows.
Proof. repeat constructor; apply sample_row_ok; vm_compute; split; discriminate. Qed.

Lemma sample_rows_agree : rows_agree (cache_blocks fresh_db) sample_rows.
Proof. apply sample_agree; [by intros k b|]. unfold sample_rows. set_solver. Qed.

Lemma sample_ready :
  insert_blocks sample_rows fresh_db = (Ok (), sample_db) ∧
  coherent sample_db ∧ parents_known sample_db ∧ faults sample_db = [] ∧ schema_ok sample_db.
Proof.
  destruct (insert_blocks_spec fresh_db sample_rows fresh_coherent sample_rows_ok sample_rows_agree eq_refl)
    as (db' & Hrun & Hco & Hpk & _ & Hm & _ & Hf).
  assert (db' = sample_db) as -> by (unfold sample_db; by rewrite Hrun).
  split_and!; [done|done|by apply Hpk, fresh_known|done|].
  unfold schema_ok. by rewrite (co_meta _ Hco), Hm.
Qed.

Lemma sample_row_in : ((50, 7), sample_block 50 7) ∈ sample_rows.
Proof. apply list_elem_of_further, list_elem_of_further, list_elem_of_here. Qed.

Lemma sample_parent_cached : ∃ sp, cache_parents sample_db !! sample_parent = Some sp.
Proof.
  assert (bool_decide (is_Some (cache_parents sample_db !! sample_parent)) = true) as Hb
    by (vm_compute; reflexivity).
  apply bool_decide_eq_true in Hb. exact Hb.
Qed.

Example sample_rollback : (rollback_from 8224 11 sample_db).1 = Ok 1.
Proof. vm_compute. reflexivity. Qed.
Example sample_siblings : len (siblings_for_parent sample_parent sample_db) = 3.
Proof. vm_compute. reflexivity. Qed.

(** A rollback after a restart: the unclassified parent is no longer cached, so
    its index rows are not visited and stay behind the removed block. *)
Example rollback_after_restart_stale_index :
  match open (disk sample_db) false with
  | Ok db =>
      let '(r, db') := rollback_from 50 7 db in
      r = Ok 1 ∧ (block_at 50 7 db').1 = Ok None ∧
      bool_decide ((sample_parent, 50, 7) ∈ t_siblings (disk db')) = true
  | Err _ => False
  end.
Proof. vm_compute. done. Qed.

(** Pruning below height 0 removes the block at height 0 from the tables, and
    only from them. *)
Example prune_before_zero :
  let db := (insert_blocks [sample_row 50 0] fresh_db).2 in
  let '(r, db') := prune_before 50 0 db in
  r = Ok 1 ∧ total_blocks db' = 0 ∧ (block_at 50 0 db').1 = Ok (Some (sample_block 50 0)).
Proof. vm_compute. done. Qed.

Lemma reachable_db_invariant_witness : reachable sample_db ∧ coherent sample_db.
Proof.
  assert (reachable sample_db) as Hr.
  { eapply reachable_step; [by apply reachable_init|].
    exact (step_insert_blocks sample_rows fresh_db sample_db sample_rows_ok sample_rows_agree
             (proj1 sample_ready)). }
  split; [exact Hr|]. exact (proj1 (reachable_db_invariant sample_db Hr)).
Defined.

Lemma insert_blocks_correct_witness :
  Forall row_ok sample_rows ∧ rows_agree (cache_blocks fresh_db) sample_rows ∧
  ∃ db', insert_blocks sample_rows fresh_db = (Ok (), db') ∧
    (block_at 50 7 db').1 = Ok (Some (sample_block 50 7)).
Proof.
  split; [exact sample_rows_ok|]. split; [exact sample_rows_agree|].
  destruct (insert_blocks_correct fresh_db sample_rows fresh_coherent fresh_known eq_refl
              sample_rows_ok sample_rows_agree) as (db' & Hrun & _ & _ & Hb & _).
  exists db'. split; [exact Hrun|]. apply Hb. left. exact sample_row_in.
Defined.

Lemma rollback_from_correct_witness :
  ∃ n db', rollback_from 8224 11 sample_db = (Ok n, db') ∧ coherent db' ∧
    (block_at 8224 11 db').1 = Ok None ∧ (block_at 8224 10 db').1 = (block_at 8224 10 sample_db).1 ∧
    total_blocks db' = total_blocks sample_db - n.
Proof.
  destruct sample_ready as (_ & Hco & Hpk & Hf & _).
  destruct (rollback_from_correct sample_db 8224 11 Hco Hpk Hf) as (n & db' & Hrun & Hco' & _ & Hb & Hn & _);
    [vm_compute; split; discriminate|vm_compute; split; discriminate|].
  pose proof (Hb 8224 11) as H11. pose proof (Hb 8224 10) as H10.
  change ((8224 =? 8224) && (11 <=? 11)) with true in H11.
  change ((8224 =? 8224) && (11 <=? 10)) with false in H10.
  exists n, db'. split; [exact Hrun|]. split; [exact Hco'|]. split; [exact H11|].
  split; [exact H10|exact Hn].
Defined.

Lemma prune_before_correct_witness :
  ∃ n db', prune_before 8224 11 sample_db = (Ok n, db') ∧ coherent db' ∧
    (block_at 8224 10 db').1 = Ok None ∧ (block_at 8224 11 db').1 = (block_at 8224 11 sample_db).1.
Proof.
  destruct sample_ready as (_ & Hco & Hpk & Hf & _).
  destruct (prune_before_correct sample_db 8224 11 Hco Hpk Hf) as (n & db' & Hrun & Hco' & _ & Hb & _);
    [lia|].
  pose proof (Hb 8224 11) as H11. pose proof (Hb 8224 10) as H10.
  change ((8224 =? 8224) && (11 <? 11)) with false in H11.
  change ((8224 =? 8224) && (10 <? 11)) with true in H10.
  exists n, db'. split; [exact Hrun|]. split; [exact Hco'|]. split; [exact H10|exact H11].
Defined.

Lemma reopen_correct_witness :
  ∃ db', open (disk sample_db) false = Ok db' ∧ coherent db' ∧
    cache_parents sample_db !! sample_parent ≠ None ∧ unclassified_parents db' = [].
Proof.
  destruct sample_ready as (_ & Hco & _ & _ & Hs).
  destruct (reopen_correct sample_db Hco Hs) as (db' & Hrun & Hco' & _ & _ & _ & _ & _ & Hu).
  exists db'. split; [exact Hrun|]. split; [exact Hco'|]. split; [|exact Hu].
  destruct sample_parent_cached as [sp Hsp]. rewrite Hsp. discriminate.
Defined.

Lemma open_schema_gate_witness :
  ∃ msg, open (with_meta {[META_SCHEMA_VERSION := "1"%string]} empty_disk) false = Err (DbAnyhow msg).
Proof.
  refine (proj1 (open_schema_gate (with_meta {[META_SCHEMA_VERSION := "1"%string]} empty_disk)
                   "1" _) 1 _ _); [reflexivity|reflexivity|discriminate].
Defined.

Lemma insert_blocks_fault_witness :
  ∃ db', insert_blocks sample_rows (set_faults [true] fresh_db) = (Err DbRedb, db') ∧
    (block_at 50 7 db').1 = Ok (Some (sample_block 50 7)) ∧ total_blocks db' = 0.
Proof.
  destruct (insert_blocks_fault (set_faults [true] fresh_db) [] sample_rows)
    as (db' & Hrun & _ & Hb & Ht & _); [discriminate|reflexivity|exact sample_rows_agree|].
  exists db'. split; [exact Hrun|]. split; [|exact Ht]. apply (Hb (50, 7)).
  exact sample_row_in.
Defined.

Lemma blocks_range_correct_witness :
  (∃ blocks, blocks_range 8224 10 11 Page_default sample_db = page_of Page_default blocks ∧
     StronglySorted (λ a b, sb_height a < sb_height b) blocks) ∧
  len (blocks_range 8224 10 11 Page_default sample_db) = 2.
Proof.
  destruct sample_ready as (_ & Hco & _).
  destruct (blocks_range_correct sample_db 8224 10 11 Page_default Hco) as [(bl & Hr & Hs & _) _];
    [vm_compute; discriminate|vm_compute; split; discriminate|].
  split; [exists bl; split; [exact Hr|exact Hs]|vm_compute; reflexivity].
Defined.

Lemma siblings_correct_witness :
  NoDup (siblings_for_parent sample_parent sample_db) ∧
  (sibling_blocks_range sample_parent Page_default sample_db).2 = 3.
Proof.
  destruct sample_ready as (_ & Hco & _).
  split; [exact (proj1 (siblings_correct sample_db sample_parent Page_default Hco))|].
  vm_compute. reflexivity.
Defined.

Definition sample_classified : Database := (classify_parent sample_parent (Some 2800000) sample_db).2.

Lemma sample_classified_coherent : coherent sample_classified.
Proof.
  destruct sample_ready as (_ & Hco & _ & Hf & _).
  destruct (classify_run sample_parent (Some 2800000) sample_db Hco Hf) as (db' & Hrun & Hco' & _).
  unfold sample_classified. by rewrite Hrun.
Qed.

Lemma shared_mainnet_parents_correct_witness :
  (∃ groups, shared_mainnet_parents 2 Page_default None sample_classified
             = (page_of Page_default groups, len groups)) ∧
  (shared_mainnet_parents 2 Page_default None sample_classified).1
  = [mkShared sample_parent 2800000 [(50, 7); (8224, 10)]].
Proof.
  destruct (shared_mainnet_parents_correct sample_classified 2 Page_default None
              sample_classified_coherent) as (gs & Hg & _).
  split; [exists gs; exact Hg|vm_compute; reflexivity].
Defined.

Lemma shared_filter_empty_witness :
  shared_mainnet_parents 2 Page_default (Some 50) sample_classified = ([], 0).
Proof. apply (shared_filter_empty sample_classified 2 50 Page_default). lia. Defined.

Lemma cursor_height_roundtrip_witness :
  ∃ db', set_cursor_height 50 7 sample_db = (Ok (), db') ∧ (cursor_height 50 db').1 = Ok (Some 7).
Proof.
  destruct sample_ready as (_ & Hco & _ & Hf & _).
  destruct (cursor_height_roundtrip sample_db 50 7 Hco Hf) as (db' & Hrun & _ & Hh & _);
    [vm_compute; split; discriminate|vm_compute; split; discriminate|].
  exists db'. split; [exact Hrun|exact Hh].
Defined.

Lemma order_book_correct_witness :
  (insert_intent 1500 (sample_intent "a") sample_db).1 = Ok () ∧
  ∃ items db', list_intents 1500 1500 None (Some 50) None Page_default sample_db
               = (Ok (page_of Page_default items, len items), db').
Proof.
  destruct sample_ready as (_ & Hco & _ & Hf & _).
  destruct (order_book_correct sample_db 1500 (sample_intent "a") None (Some 50) None Page_default Hco Hf)
    as [_ (items & db' & Hl & _)].
  split; [vm_compute; reflexivity|]. exists items, db'. exact Hl.
Defined.

Lemma classify_parent_correct_witness :
  ∃ db', classify_parent sample_parent None sample_db = (Ok (), db') ∧
    sample_parent ∉ unclassified_parents db'.
Proof.
  destruct sample_ready as (_ & Hco & _ & Hf & _).
  destruct sample_parent_cached as [sp Hsp].
  destruct (classify_parent_correct sample_db sample_parent None sp Hco Hf Hsp)
    as (db' & Hrun & _ & _ & _ & Hu & _).
  exists db'. split; [exact Hrun|]. intros Hin. apply Hu in Hin as [_ Hne]. exact (Hne eq_refl).
Defined.
