(* ===== verification/Stats.v ===== *)
(** * Statistics of the store

    [Database::stats] of [src/db.rs] against the blocks it counts: an entry for
    each chain that has a cached block, with their number, the lowest and the
    highest height. *)

From S2P Require Export DbThm.

#[local] Open Scope Z_scope.

(** The heights of a chain in a list of cached blocks. *)
Definition heights_in (c : Z) (l : list (Z * Z * StoredBlock)) : list Z :=
  omap (λ e : Z * Z * StoredBlock, if e.1.1 =? c then Some e.1.2 else None) l.
Definition cached_heights (c : Z) (db : Database) : list Z := heights_in c (map_to_list (cache_blocks db)).

(** What is recorded of the heights [hs] of a chain. *)
Definition summarises (hs : list Z) (o : option (Z * option Z * option Z)) : Prop :=
  match o with
  | None => hs = []
  | Some (n, lo, hi) => n = len hs ∧ ∃ l h, lo = Some l ∧ hi = Some h ∧ l ∈ hs ∧ h ∈ hs ∧ ∀ x, x ∈ hs → l ≤ x ≤ h
  end.

Lemma heights_in_app c l l' : heights_in c (l ++ l') = heights_in c l ++ heights_in c l'.
Proof. apply omap_app. Qed.
Lemma elem_of_cached_heights c h db : h ∈ cached_heights c db ↔ is_Some (cache_blocks db !! (c, h)).
Proof.
  unfold cached_heights, heights_in. rewrite list_elem_of_omap. split.
  - intros ([[c' h'] b] & Hin%elem_of_map_to_list & Hc). cbn in Hc. destruct (c' =? c) eqn:?; [|done]. reflect_bools.
    injection Hc as ->. subst. by eexists.
  - intros [b Hb]. exists (c, h, b). rewrite elem_of_map_to_list. split; [done|]. cbn. by rewrite Z.eqb_refl.
Qed.

Lemma chain_stat_fold c l : summarises (heights_in c l) (foldl chain_stat ∅ l !! c).
Proof.
  induction l as [|[[c' h] b] l IH] using rev_ind; [cbn; by rewrite lookup_empty|].
  rewrite foldl_app, heights_in_app. cbn [foldl chain_stat]. set (m := foldl chain_stat ∅ l) in *.
  destruct (default (0, None, None) (m !! c')) as [[n lo] hi] eqn:Hd. cbn.
  destruct (c' =? c) eqn:Hc; reflect_bools.
  2: { rewrite lookup_insert_ne by done. by rewrite app_nil_r. }
  subst c'. rewrite lookup_insert_eq. cbn. destruct (m !! c) as [[[n' lo'] hi']|]; cbn in Hd; injection Hd as <- <- <-; cbn in IH.
  - destruct IH as (-> & x & y & -> & -> & Hx & Hy & Hb). split; [unfold len; rewrite length_app; cbn; lia|].
    exists (Z.min x h), (Z.max y h). split_and!; [done..| | |].
    + destruct (Z.min_spec x h) as [[_ ->]|[_ ->]]; set_solver.
    + destruct (Z.max_spec y h) as [[_ ->]|[_ ->]]; set_solver.
    + intros z [Hz%Hb|Hz%list_elem_of_singleton]%elem_of_app; lia.
  - rewrite IH. cbn. split; [done|]. exists h, h. split_and!; [done|done|set_solver|set_solver|].
    intros z Hz%list_elem_of_singleton. lia.
Qed.

Section stats.
Context `{Sha256} `{HexCodec} `{Codec}.

Lemma stats_chains_map db :
  st_chains (stats db) = (λ e : Z * (Z * option Z * option Z), mkChainStats e.1 e.2.1.1 e.2.1.2 e.2.2)
    <$> sort_by (λ a b, a.1 <=? b.1) (map_to_list (foldl chain_stat ∅ (map_to_list (cache_blocks db)))).
Proof. done. Qed.

(** The chains of the answer are distinct. *)
Lemma stats_chains_NoDup db : NoDup (cs_chain_id <$> st_chains (stats db)).
Proof.
  rewrite stats_chains_map, <-list_fmap_compose. unfold compose. cbn [cs_chain_id].
  rewrite sort_by_Permutation. apply NoDup_fst_map_to_list.
Qed.

(** An entry counts the cached blocks of its chain, and a chain has an entry exactly
    when it has a cached block. *)
Lemma stats_entry db s :
  s ∈ st_chains (stats db) →
  cached_heights (cs_chain_id s) db ≠ [] ∧
  summarises (cached_heights (cs_chain_id s) db) (Some (cs_blocks s, cs_min_height s, cs_max_height s)).
Proof.
  rewrite stats_chains_map. intros ([c [[n lo] hi]] & -> & Hin)%list_elem_of_fmap.
  rewrite elem_of_sort_by, elem_of_map_to_list in Hin. pose proof (chain_stat_fold c (map_to_list (cache_blocks db))) as Hs.
  rewrite Hin in Hs. cbn. split; [|exact Hs]. destruct Hs as (_ & l & _ & _ & _ & Hl & _). intros Heq.
  unfold cached_heights in Heq. rewrite Heq in Hl. by apply not_elem_of_nil in Hl.
Qed.
Lemma stats_entry_exists db c :
  cached_heights c db ≠ [] → ∃ s, s ∈ st_chains (stats db) ∧ cs_chain_id s = c.
Proof.
  intros Hne. pose proof (chain_stat_fold c (map_to_list (cache_blocks db))) as Hs.
  destruct (foldl chain_stat ∅ (map_to_list (cache_blocks db)) !! c) as [[[n lo] hi]|] eqn:Hin; [|done].
  exists (mkChainStats c n lo hi). split; [|done]. rewrite stats_chains_map. apply list_elem_of_fmap. exists (c, (n, lo, hi)).
  split; [done|]. by rewrite elem_of_sort_by, elem_of_map_to_list.
Qed.

(** Two entries of one chain are the same. *)
Lemma stats_entry_unique db s s' :
  s ∈ st_chains (stats db) → s' ∈ st_chains (stats db) → cs_chain_id s = cs_chain_id s' → s = s'.
Proof.
  intros Hs Hs' Heq. pose proof (stats_chains_NoDup db) as Hnd.
  apply list_elem_of_lookup in Hs as [i Hi]. apply list_elem_of_lookup in Hs' as [j Hj].
  assert (i = j) as <-; [|congruence]. eapply NoDup_lookup; [exact Hnd|rewrite list_lookup_fmap, Hi; reflexivity|].
  rewrite list_lookup_fmap, Hj. cbn. by rewrite Heq.
Qed.
End stats.
