(* ===== verification/Split.v ===== *)
(** * The calls of the store, one section at a time

    A call of [src/db.rs] is not atomic: the tasks and the requests run on several
    threads, and what is atomic is an operation on one entry of a [DashMap], a read
    transaction and a write transaction (Redb has one writer at a time).  [Steps] is
    a sequence of such sections, and [x_steps] is the call [x] of [Db] as its sections.
    An iteration over a map is a section that lists its keys and one for each entry,
    so it may see the entries at different moments.  The instances of [is_call] and
    [is_query] say that the sections of a call, run without interference, are the call
    of [Db]. *)

From S2P Require Export Stats.

#[local] Open Scope Z_scope.

(** ** Sequences of sections *)

Inductive Steps (S A : Type) : Type :=
  | Finished (r : Result DbError A)
  | Step {B : Type} (f : S → B * S) (k : B → Steps S A).
Arguments Finished {S A} r.
Arguments Step {S A B} f k.

Fixpoint steps_bind {S A B} (k : A → Steps S B) (p : Steps S A) : Steps S B :=
  match p with
  | Finished (Ok a) => k a
  | Finished (Err e) => Finished (Err e)
  | Step f l => Step f (λ c, steps_bind k (l c))
  end.
#[export] Instance Steps_ret {S} : MRet (Steps S) := λ A a, Finished (Ok a).
#[export] Instance Steps_bind {S} : MBind (Steps S) := λ A B k p, steps_bind k p.

(** Without interference. *)
Fixpoint run_steps {S A} (p : Steps S A) (s : S) : Result DbError A * S :=
  match p with
  | Finished r => (r, s)
  | Step f k => let '(b, s) := f s in run_steps (k b) s
  end.

(** A read, a write, a failure, and a result that is looked at. *)
Definition reading {S A} (f : S → A) : Steps S A := Step (λ s, (f s, s)) (λ a, Finished (Ok a)).
Definition writing {S} (f : S → S) : Steps S unit := Step (λ s, ((), f s)) (λ u, Finished (Ok u)).
Definition stop {S A} (e : DbError) : Steps S A := Finished (Err e).
Fixpoint attempt {S A} (p : Steps S A) : Steps S (Result DbError A) :=
  match p with
  | Finished r => mret r
  | Step f k => Step f (λ b, attempt (k b))
  end.
Definition commit {A} (f : Disk → Result DbError (A * Disk)) : Steps Database A := Step (write_txn f) Finished.

Fixpoint each {S A} (f : A → Steps S unit) (l : list A) : Steps S unit :=
  match l with
  | [] => mret ()
  | x :: l => _ ← f x; each f l
  end.
Fixpoint collect {S A B} (f : A → Steps S (option B)) (l : list A) : Steps S (list B) :=
  match l with
  | [] => mret []
  | x :: l => y ← f x; ys ← collect f l; mret (option_list y ++ ys)
  end.

(** An iteration over a map. *)
Definition scan {S K V B} `{Countable K} (m : S → gmap K V) (f : K → V → Steps S (option B)) : Steps S (list B) :=
  keys ← reading (λ s, (map_to_list (m s)).*1);
  collect (λ k, v ← reading (λ s, m s !! k); match v with Some v => f k v | None => mret None end) keys.

(** ** Running them *)

Lemma run_steps_bind {S A B} (p : Steps S A) (k : A → Steps S B) s :
  run_steps (p ≫= k) s = match run_steps p s with (Ok a, s) => run_steps (k a) s | (Err e, s) => (Err e, s) end.
Proof.
  revert s. unfold mbind, Steps_bind. induction p as [[a|e]|C f l IH]; intros s; cbn; [done..|].
  destruct (f s) as [c s']. apply IH.
Qed.
Lemma run_reading {S A B} (f : S → A) (k : A → Steps S B) s : run_steps (reading f ≫= k) s = run_steps (k (f s)) s.
Proof. done. Qed.
Lemma run_writing {S B} (f : S → S) (k : unit → Steps S B) s : run_steps (writing f ≫= k) s = run_steps (k ()) (f s).
Proof. done. Qed.
Lemma run_attempt {S A} (p : Steps S A) s :
  run_steps (attempt p) s = (Ok (run_steps p s).1, (run_steps p s).2).
Proof. revert s. induction p as [r|C f l IH]; intros s; cbn; [done|]. destruct (f s) as [c s']. apply IH. Qed.
Lemma run_commit {A} (f : Disk → Result DbError (A * Disk)) db : run_steps (commit f) db = write_txn f db.
Proof. cbn. by destruct (write_txn f db). Qed.

(** Steps that are a call of the monad [M]; the clients of the store find the call of
    given steps by instance search. *)
Class is_call {A} (p : Steps Database A) (m : M A) : Prop := is_call_run : ∀ db, run_steps p db = m db.
#[export] Hint Mode is_call - ! - : typeclass_instances.

Lemma is_call_bind {A B} (p : Steps Database A) (m : M A) (k : A → Steps Database B) (l : A → M B) :
  is_call p m → (∀ a, is_call (k a) (l a)) → is_call (p ≫= k) (m ≫= l).
Proof.
  intros Hp Hk db. rewrite run_steps_bind, Hp. unfold mbind, M_bind. destruct (m db) as [[a|e] db']; [apply Hk|done].
Qed.
Lemma is_call_ret {A} (a : A) : is_call (mret a) (mret a).
Proof. done. Qed.
Lemma is_call_stop {A} e : is_call (A := A) (stop e) (fail e).
Proof. done. Qed.
Lemma is_call_writing f : is_call (writing f) (put_db f).
Proof. done. Qed.
Lemma is_call_reading {A B} (f : Database → A) (k : A → Steps Database B) (m : M B) :
  (∀ db, run_steps (k (f db)) db = m db) → is_call (reading f ≫= k) m.
Proof. intros Hk db. by rewrite run_reading. Qed.
Lemma is_call_commit {A} (f : Disk → Result DbError (A * Disk)) : is_call (commit f) (write_txn f).
Proof. intros db. apply run_commit. Qed.
Lemma is_call_attempt {A} (p : Steps Database A) (m : M A) : is_call p m → is_call (attempt p) (try m).
Proof. intros Hp db. rewrite run_attempt, Hp. unfold try. by destruct (m db). Qed.
Lemma is_call_each {A} (f : A → Steps Database unit) (g : A → M unit) l :
  (∀ x, is_call (f x) (g x)) → is_call (each f l) (for_each g l).
Proof. intros Hf. induction l as [|x l IH]; [apply is_call_ret|]. by apply is_call_bind. Qed.

Lemma run_collect {S A B} (f : A → Steps S (option B)) (g : A → option B) l s :
  (∀ x, x ∈ l → run_steps (f x) s = (Ok (g x), s)) → run_steps (collect f l) s = (Ok (omap g l), s).
Proof.
  induction l as [|x l IH]; intros Hf; [done|]. cbn [collect].
  rewrite run_steps_bind, Hf by left. rewrite run_steps_bind, IH by (intros; apply Hf; by right).
  cbn. by destruct (g x).
Qed.
Lemma run_scan {S K V B} `{Countable K} (m : S → gmap K V) (f : K → V → Steps S (option B)) (g : K * V → option B) s :
  (∀ k v, run_steps (f k v) s = (Ok (g (k, v)), s)) →
  run_steps (scan m f) s = (Ok (omap g (map_to_list (m s))), s).
Proof.
  intros Hf. unfold scan. rewrite run_reading.
  rewrite (run_collect _ (λ k, v ← m s !! k; g (k, v))).
  2: { intros k _. rewrite run_reading. destruct (m s !! k); [apply Hf|done]. }
  do 2 f_equal. assert (∀ k v, (k, v) ∈ map_to_list (m s) → m s !! k = Some v) as Hin
    by (intros k v; apply elem_of_map_to_list).
  induction (map_to_list (m s)) as [|[k v] l IH]; [done|]. cbn. rewrite (Hin k v) by left.
  rewrite IH by (intros; apply Hin; by right). done.
Qed.
Lemma omap_filter {A} (P : A → bool) (l : list A) : omap (λ x, if P x then Some x else None) l = List.filter P l.
Proof. induction l as [|x l IH]; [done|]. cbn. rewrite IH. by destruct (P x). Qed.
Lemma length_omap_filter {A B} (P : A → bool) (f : A → B) (l : list A) :
  length (omap (λ x, if P x then Some (f x) else None) l) = length (List.filter P l).
Proof. induction l as [|x l IH]; [done|]. cbn. destruct (P x); cbn; by rewrite IH. Qed.
Lemma omap_Some {A} (l : list A) : omap Some l = l.
Proof. induction l as [|x l IH]; [done|]. cbn. by rewrite IH. Qed.

(** ** The calls *)

Section calls.
Context `{Sha256} `{HexCodec} `{Codec}.

Definition get_meta_steps (key : string) : Steps Database (option string) :=
  v ← reading (λ db, cache_meta db !! key);
  match v with
  | Some v => mret (Some v)
  | None =>
      v ← reading (λ db, t_meta (disk db) !! key);
      match v with
      | Some s => _ ← writing (λ db, set_cache_meta (<[key := s]> (cache_meta db)) db); mret (Some s)
      | None => mret None
      end
  end.

Definition set_meta_steps (key value : string) : Steps Database unit :=
  _ ← writing (λ db, set_cache_meta (<[key := value]> (cache_meta db)) db);
  commit (λ d, Ok ((), with_meta (<[key := value]> (t_meta d)) d)).

Definition upsert_chain_steps (chain_id : Z) (name electrs : string) : Steps Database unit :=
  let key := chain_key chain_id in
  let val := name +:+ "|" +:+ electrs in
  existing ← get_meta_steps key;
  if bool_decide (existing = Some val) then mret () else set_meta_steps key val.

Definition chain_registry_steps : Steps Database (list (Z * string * string)) :=
  scan cache_meta (λ key val, mret (
    id ← strip_prefix "chain." key;
    id ← parse_u32 id;
    let '(name, url) := default (val, EmptyString) (split_once "|"%char val) in
    Some (id, name, url))).

Definition cursor_height_steps (chain_id : Z) : Steps Database (option Z) :=
  v ← get_meta_steps (cursor_key chain_id);
  mret (v ≫= parse_u64).
Definition set_cursor_height_steps (chain_id height : Z) : Steps Database unit :=
  set_meta_steps (cursor_key chain_id) (pretty height).

Definition prune_expired_intents_steps (now : Z) : Steps Database Z :=
  expired ← scan cache_intents (λ id i, mret (if expiry i <=? now then Some id else None));
  let n := len expired in
  if n =? 0 then mret 0 else
  _ ← commit (λ d, Ok ((), with_intents (foldl (λ t id, delete id t) (t_intents d) expired) d));
  _ ← each (λ id, writing (λ db, set_cache_intents (delete id (cache_intents db)) db)) expired;
  mret n.

Definition insert_intent_steps (now : Z) (intent : SwapIntentMessage) : Steps Database unit :=
  _ ← prune_expired_intents_steps now;
  n ← reading (λ db, Z.of_nat (size (cache_intents db)));
  if MAX_ACTIVE_INTENTS <=? n
  then stop (DbAnyhow ("Swap intent orderbook is at maximum capacity ("
                       +:+ pretty MAX_ACTIVE_INTENTS +:+ ")")) else
  let json := enc_intent intent in
  _ ← writing (λ db, set_cache_intents (<[intent_id intent := intent]> (cache_intents db)) db);
  commit (λ d, Ok ((), with_intents (<[intent_id intent := json]> (t_intents d)) d)).

Definition list_intents_steps (now_prune now : Z) (from to : option Z) (proto : option string) (page : Page) :
    Steps Database (list SwapIntentMessage * Z) :=
  _ ← prune_expired_intents_steps now_prune;
  all ← scan cache_intents (λ _ i, mret (Some i));
  let all := List.filter (λ i, (now <? expiry i) && matches from (from_chain i)
                               && matches to (to_chain i) && matches proto (protocol i)) all in
  let all := sort_by (λ a b, timestamp b <=? timestamp a) all in
  let total := len all in
  mret (page_of page all, total).

Definition block_at_steps (chain_id height : Z) : Steps Database (option StoredBlock) :=
  b ← reading (λ db, cache_blocks db !! (chain_id, height));
  match b with
  | Some b => mret (Some b)
  | None =>
      v ← reading (λ db, t_blocks (disk db) !! (chain_id, height));
      match v with
      | Some v =>
          match dec_block v with
          | None => stop (DbAnyhow "decode stored block")
          | Some block =>
              _ ← writing (λ db, set_cache_blocks (<[(chain_id, height) := block]> (cache_blocks db)) db);
              mret (Some block)
          end
      | None => mret None
      end
  end.

(** A block pushed into the list of its parent, under the lock of the entry. *)
Definition push_block (row : Z * Z * StoredBlock) (parent_hash : bytes) (db : Database) : Database :=
  let '(chain_id, height, block) := row in
  let list_ := default [] (cache_siblings db !! parent_hash) in
  let list_ :=
    if existsb (λ b, (sb_chain_id b =? chain_id) && (sb_height b =? height)) list_
    then list_ else list_ ++ [block] in
  set_cache_siblings (<[parent_hash := list_]> (cache_siblings db)) db.

Definition index_row_steps (row : Z * Z * StoredBlock) : Steps Database unit :=
  match aux (sb_header row.2) with
  | None => mret ()
  | Some a =>
      let parent_hash := sha256d (parent_header a) in
      _ ← writing (push_block row parent_hash);
      known ← reading (λ db, bool_decide (is_Some (cache_parents db !! parent_hash)));
      if known : bool then mret () else
      match parent_work (parent_header a) with
      | None => stop DbPanic
      | Some work =>
          writing (λ db, set_cache_parents
            (<[parent_hash := mkParent parent_hash (parent_header a) None 0 work]> (cache_parents db)) db)
      end
  end.

Definition insert_blocks_steps (blocks : list (Z * Z * StoredBlock)) : Steps Database unit :=
  match blocks with
  | [] => mret ()
  | _ =>
      _ ← each (λ row, writing (λ db, set_cache_blocks (cache_row (cache_blocks db) row) db)) blocks;
      _ ← commit (λ d, d ← insert_rows blocks d; Ok ((), d));
      each index_row_steps blocks
  end.

(** [list.retain(..)] holds the lock of its entry. *)
Definition retain_siblings_steps (keep : StoredBlock → bool) (ph : bytes) : Steps Database (option bytes) :=
  Step (λ db, match cache_siblings db !! ph with
              | None => (None, db)
              | Some list_ =>
                  let list_ := List.filter keep list_ in
                  (match list_ with [] => Some ph | _ => None end,
                   set_cache_siblings (<[ph := list_]> (cache_siblings db)) db)
              end) (λ o, Finished (Ok o)).
Definition retain_each_steps (keep : StoredBlock → bool) (phs : list bytes) : Steps Database (list bytes) :=
  collect (retain_siblings_steps keep) phs.

Definition drop_parent_steps (ph : bytes) : Steps Database unit :=
  _ ← writing (λ db, set_cache_siblings (delete ph (cache_siblings db)) db);
  _ ← writing (λ db, set_cache_parents (delete ph (cache_parents db)) db);
  _ ← attempt (commit (λ d, Ok ((), with_parents (delete ph (t_parents d)) d)));
  mret ().

Definition forget_block_steps (k : Z * Z) : Steps Database unit :=
  writing (λ db, set_cache_blocks (delete k (cache_blocks db)) db).

(** The cached parents are listed inside the write transaction. *)
Definition rollback_from_steps (chain_id from_height : Z) : Steps Database Z :=
  parents ← scan cache_parents (λ p _, mret (Some p));
  count ← commit (rollback_txn chain_id from_height parents);
  to_remove ← scan cache_blocks (λ k b,
    mret (if (k.1 =? chain_id) && (from_height <=? k.2) then Some (k, b) else None));
  let to_remove := sort_by (λ a b, key_le a.1 b.1) to_remove in
  let removed_parents := remove_dups (sort_by hash_le
      (omap (λ e : Z * Z * StoredBlock, db_parent_hash e.2) to_remove)) in
  _ ← each forget_block_steps to_remove.*1;
  empty_parents ← retain_each_steps
    (λ b, negb ((sb_chain_id b =? chain_id) && (from_height <=? sb_height b))) removed_parents;
  _ ← each drop_parent_steps empty_parents;
  h ← get_meta_steps (cursor_key chain_id);
  _ ← match h ≫= parse_u64 with
      | Some hh => if from_height <=? hh
                   then set_meta_steps (cursor_key chain_id) (pretty (saturating_sub from_height 1))
                   else mret ()
      | None => mret ()
      end;
  mret count.

Definition prune_before_steps (chain_id below : Z) : Steps Database Z :=
  count ← commit (prune_txn chain_id below);
  gone ← scan cache_blocks (λ k b, mret (if (k.1 =? chain_id) && (k.2 <? below) then Some (k, b) else None));
  let parents_to_refresh := remove_dups (omap (λ e : Z * Z * StoredBlock, db_parent_hash e.2) gone) in
  _ ← each forget_block_steps gone.*1;
  _ ← retain_each_steps (λ b, negb ((sb_chain_id b =? chain_id) && (sb_height b <? below))) parents_to_refresh;
  mret count.

Definition get_parent_steps (ph : bytes) : Steps Database (option StoredParent) :=
  p ← reading (λ db, cache_parents db !! ph);
  match p with
  | Some p => mret (Some p)
  | None =>
      v ← reading (λ db, t_parents (disk db) !! ph);
      match v with
      | Some v =>
          match dec_parent v with
          | None => stop (DbAnyhow "bincode")
          | Some parent =>
              _ ← writing (λ db, set_cache_parents (<[ph := parent]> (cache_parents db)) db);
              mret (Some parent)
          end
      | None => mret None
      end
  end.

(** The parent is read again inside the write transaction. *)
Definition classify_parent_steps (ph : bytes) (ltc_height : option Z) : Steps Database unit :=
  let parent_state := if ltc_height is Some _ then 1 else 2 in
  _ ← writing (λ db, set_cache_parents
        (alter (λ p, mkParent (sp_parent_hash_le p) (sp_parent_header p) ltc_height parent_state
                       (sp_work p)) ph (cache_parents db)) db);
  p ← reading (λ db, cache_parents db !! ph);
  commit (λ d, match p with
               | Some p => Ok ((), with_parents (<[ph := enc_parent p]> (t_parents d)) d)
               | None => Ok ((), d)
               end).

Definition unclassified_parents_steps : Steps Database (list bytes) :=
  scan cache_parents (λ ph p, mret (if sp_parent_state p =? 0 then Some ph else None)).

Definition siblings_for_parent_steps (ph : bytes) : Steps Database (list StoredBlock) :=
  l ← reading (λ db, cache_siblings db !! ph);
  match l with
  | Some list_ => mret list_
  | None => reading (λ db, (sibling_blocks_range ph Page_default db).1)
  end.

Definition shared_mainnet_parents_steps (min_legs : Z) (page : Page) (chain_filter : option Z) :
    Steps Database (list SharedParent * Z) :=
  out ← scan cache_parents (λ p sp,
    match sp_ltc_height sp with
    | None => mret None
    | Some ltc_h =>
        siblings ← reading (λ db, cache_siblings db !! p);
        mret (siblings ← siblings;
              let legs := legs_of chain_filter siblings in
              if min_legs <=? len legs then Some (mkShared p ltc_h legs) else None)
    end);
  let out := sort_by shared_le out in
  let total := len out in
  mret (page_of page out, total).

Definition latest_sibling_group_steps (min_legs : Z) : Steps Database (option SharedParent) :=
  r ← shared_mainnet_parents_steps min_legs (Page_new (Some 1) (Some 0)) None;
  mret (last r.1).

Definition epoch_blocks_steps (ltc_start ltc_end : Z) (chain_filter : option Z) (page : Page) :
    Steps Database (list (Z * Z * Z * bytes) * Z) :=
  out ← scan cache_parents (λ p sp,
    match sp_ltc_height sp with
    | None => mret None
    | Some ltc_h =>
        if (ltc_start <=? ltc_h) && (ltc_h <=? ltc_end) then
          siblings ← reading (λ db, cache_siblings db !! p);
          mret (siblings ← siblings; Some (epoch_rows chain_filter ltc_h siblings))
        else mret None
    end);
  let out := sort_by epoch_le (concat out) in
  let total := len out in
  mret (page_of page out, total).

Definition stats_steps : Steps Database Stats :=
  blocks ← scan cache_blocks (λ k b, mret (Some (k, b)));
  let chains := foldl chain_stat ∅ blocks in
  groups ← scan cache_parents (λ p sp,
    if sp_parent_state sp =? 1 then
      siblings ← reading (A := option (list StoredBlock)) (λ db, cache_siblings db !! p);
      mret (match siblings with
            | Some s => if 2 <=? Z.of_nat (size (list_to_set (sb_chain_id <$> s) : gset Z)) then Some p else None
            | None => None
            end)
    else mret None);
  total ← reading (A := Z) total_blocks;
  parents ← reading (A := Z) (λ db, Z.of_nat (size (cache_parents db)));
  mret (mkStats total parents (len groups)
    ((λ e, mkChainStats e.1 e.2.1.1 e.2.1.2 e.2.2)
       <$> sort_by (λ a b, a.1 <=? b.1) (map_to_list chains))).
End calls.

(** ** A call is its sections *)

Section refines.
Context `{Sha256} `{HexCodec} `{Codec}.

#[export] Instance is_call_get_meta key : is_call (get_meta_steps key) (get_meta key).
Proof.
  apply is_call_reading. intros db. unfold get_meta. rewrite (bind_step get_db _ db db db) by done.
  destruct (cache_meta db !! key) as [v|]; [done|]. cbv beta iota. rewrite run_reading. by destruct (t_meta (disk db) !! key).
Qed.
#[export] Instance is_call_set_meta key v : is_call (set_meta_steps key v) (set_meta key v).
Proof. apply is_call_bind; [apply is_call_writing|]. intros _. apply is_call_commit. Qed.
#[export] Instance is_call_upsert_chain c n e : is_call (upsert_chain_steps c n e) (upsert_chain c n e).
Proof.
  apply is_call_bind; [apply is_call_get_meta|]. intros o. case_bool_decide; [apply is_call_ret|apply is_call_set_meta].
Qed.
#[export] Instance is_call_cursor_height c : is_call (cursor_height_steps c) (cursor_height c).
Proof. apply is_call_bind; [apply is_call_get_meta|]. intros o. apply is_call_ret. Qed.
#[export] Instance is_call_set_cursor_height c h : is_call (set_cursor_height_steps c h) (set_cursor_height c h).
Proof. apply is_call_set_meta. Qed.
Lemma run_chain_registry db : run_steps chain_registry_steps db = (Ok (chain_registry db), db).
Proof. apply run_scan. done. Qed.

(** Entries removed one after the other. *)
Lemma run_each_writing {S A} (f : A → S → S) l s : run_steps (each (λ x, writing (f x)) l) s = (Ok (), foldl (λ s x, f x s) s l).
Proof. revert s. induction l as [|x l IH]; intros s; [done|]. cbn [each]. rewrite run_writing. apply IH. Qed.

#[export] Instance is_call_prune_expired now : is_call (prune_expired_intents_steps now) (prune_expired_intents now).
Proof.
  intros db. unfold prune_expired_intents_steps, prune_expired_intents.
  rewrite run_steps_bind, (run_scan _ _ (λ e, if expiry e.2 <=? now then Some e.1 else None)) by done.
  rewrite (bind_step get_db _ db db db) by done. cbv zeta.
  set (expired := omap _ (map_to_list (cache_intents db))). destruct (_ =? _); [done|].
  revert db expired. intros db0 expired. generalize expired. clear expired. intros expired. revert db0.
  apply is_call_bind; [apply is_call_commit|]. intros _. apply is_call_bind; [|intros _; apply is_call_ret].
  intros db. rewrite run_each_writing. unfold put_db. f_equal. revert db.
  induction expired as [|id ids IH]; intros db; [by destruct db|]. cbn. by rewrite IH.
Qed.
#[export] Instance is_call_insert_intent now i : is_call (insert_intent_steps now i) (insert_intent now i).
Proof.
  apply is_call_bind; [apply is_call_prune_expired|]. intros _. apply is_call_reading. intros db.
  rewrite (bind_step get_db _ db db db) by done. destruct (_ <=? _); [done|]. cbv zeta. revert db.
  apply is_call_bind; [apply is_call_writing|]. intros _. apply is_call_commit.
Qed.
#[export] Instance is_call_list_intents now now' f t proto page :
  is_call (list_intents_steps now now' f t proto page) (list_intents now now' f t proto page).
Proof.
  apply is_call_bind; [apply is_call_prune_expired|]. intros _ db.
  rewrite run_steps_bind, (run_scan _ _ (λ e, Some e.2)) by done. cbv zeta.
  rewrite (bind_step get_db _ db db db) by done.
  replace (omap (λ e : string * SwapIntentMessage, Some e.2) (map_to_list (cache_intents db)))
    with (map_to_list (cache_intents db)).*2; [done|].
  induction (map_to_list (cache_intents db)) as [|e l IH]; [done|]. cbn. by rewrite IH.
Qed.
#[export] Instance is_call_block_at c h : is_call (block_at_steps c h) (block_at c h).
Proof.
  apply is_call_reading. intros db. unfold block_at. rewrite (bind_step get_db _ db db db) by done.
  destruct (cache_blocks db !! (c, h)) as [b|]; [done|]. cbv beta iota. rewrite run_reading.
  destruct (t_blocks (disk db) !! (c, h)) as [v|]; [|done]. by destruct (dec_block v).
Qed.
#[export] Instance is_call_index_row row : is_call (index_row_steps row) (index_row row).
Proof.
  destruct row as [[c h] b]. unfold index_row_steps, index_row. cbn [snd]. destruct (aux (sb_header b)) as [a|]; [|apply is_call_ret].
  cbv zeta. apply is_call_bind; [apply is_call_writing|]. intros _. apply is_call_reading. intros db.
  rewrite (bind_step get_db _ db db db) by done. case_bool_decide; [done|]. by destruct (parent_work _).
Qed.
#[export] Instance is_call_insert_blocks rows : is_call (insert_blocks_steps rows) (insert_blocks rows).
Proof.
  destruct rows as [|row rows]; [apply is_call_ret|]. apply is_call_bind.
  - intros db. rewrite run_each_writing. unfold put_db. f_equal. generalize (row :: rows). clear. intros rows. revert db.
    induction rows as [|r rows IH]; intros db; [by destruct db|]. cbn. by rewrite IH.
  - intros _. apply is_call_bind; [apply is_call_commit|]. intros _. apply is_call_each, is_call_index_row.
Qed.

#[export] Instance is_call_forget ks : is_call (each forget_block_steps ks) (put_db (λ db, set_cache_blocks (delete_all ks (cache_blocks db)) db)).
Proof.
  intros db. unfold forget_block_steps. rewrite run_each_writing. unfold put_db. f_equal. revert db.
  induction ks as [|k ks IH]; intros db; [by destruct db|]. cbn. by rewrite IH.
Qed.
#[export] Instance is_call_retain_each keep phs : is_call (retain_each_steps keep phs) (retain_each keep phs).
Proof.
  induction phs as [|ph phs IH]; [apply is_call_ret|]. cbn [retain_each_steps collect retain_each].
  apply is_call_bind.
  - intros db. unfold retain_siblings. rewrite (bind_step get_db _ db db db) by done. cbn. by destruct (cache_siblings db !! ph).
  - intros o. apply is_call_bind; [exact IH|]. intros es. by destruct o.
Qed.
#[export] Instance is_call_drop_parent ph : is_call (drop_parent_steps ph) (drop_parent ph).
Proof.
  apply is_call_bind; [apply is_call_writing|]. intros _. apply is_call_bind; [apply is_call_writing|]. intros _.
  apply is_call_bind; [apply is_call_attempt, is_call_commit|]. intros _. apply is_call_ret.
Qed.
#[export] Instance is_call_rollback_from c h : is_call (rollback_from_steps c h) (rollback_from c h).
Proof.
  intros db. unfold rollback_from_steps, rollback_from.
  rewrite run_steps_bind, (run_scan _ _ (λ e, Some e.1)) by done. rewrite (bind_step get_db _ db db db) by done. cbv zeta.
  replace (omap (λ e : bytes * StoredParent, Some e.1) (map_to_list (cache_parents db)))
    with (map_to_list (cache_parents db)).*1.
  2: { induction (map_to_list (cache_parents db)) as [|e l IH]; [done|]. cbn. by rewrite IH. }
  generalize (map_to_list (cache_parents db)).*1. intros parents. revert db.
  apply is_call_bind; [apply is_call_commit|]. intros count db.
  rewrite run_steps_bind, (run_scan _ _ (λ e, if (e.1.1 =? c) && (h <=? e.1.2) then Some e else None))
    by (intros [] ?; done). rewrite (bind_step get_db _ db db db) by done.
  rewrite (omap_filter (λ e : Z * Z * StoredBlock, (e.1.1 =? c) && (h <=? e.1.2))).
  generalize (sort_by (λ a b : Z * Z * StoredBlock, key_le a.1 b.1)
    (List.filter (λ e, (e.1.1 =? c) && (h <=? e.1.2)) (map_to_list (cache_blocks db)))). intros gone. revert db.
  apply is_call_bind; [apply is_call_forget|]. intros _. apply is_call_bind; [apply is_call_retain_each|]. intros es.
  apply is_call_bind; [apply is_call_each, is_call_drop_parent|]. intros _.
  apply is_call_bind; [apply is_call_get_meta|]. intros o. apply is_call_bind; [|intros _; apply is_call_ret].
  destruct (o ≫= parse_u64) as [hh|]; [|apply is_call_ret]. destruct (h <=? hh); [apply is_call_set_meta|apply is_call_ret].
Qed.
#[export] Instance is_call_prune_before c below : is_call (prune_before_steps c below) (prune_before c below).
Proof.
  apply is_call_bind; [apply is_call_commit|]. intros count db.
  rewrite run_steps_bind, (run_scan _ _ (λ e, if (e.1.1 =? c) && (e.1.2 <? below) then Some e else None))
    by (intros [] ?; done). rewrite (bind_step get_db _ db db db) by done.
  rewrite (omap_filter (λ e : Z * Z * StoredBlock, (e.1.1 =? c) && (e.1.2 <? below))). cbv zeta.
  generalize (List.filter (λ e : Z * Z * StoredBlock, (e.1.1 =? c) && (e.1.2 <? below)) (map_to_list (cache_blocks db))).
  intros gone. revert db.
  apply is_call_bind; [apply is_call_forget|]. intros _. apply is_call_bind; [apply is_call_retain_each|]. intros es.
  apply is_call_ret.
Qed.

#[export] Instance is_call_get_parent p : is_call (get_parent_steps p) (get_parent p).
Proof.
  apply is_call_reading. intros db. unfold get_parent. rewrite (bind_step get_db _ db db db) by done.
  destruct (cache_parents db !! p) as [sp|]; [done|]. cbv beta iota. rewrite run_reading.
  destruct (t_parents (disk db) !! p) as [v|]; [|done]. by destruct (dec_parent v).
Qed.
#[export] Instance is_call_classify_parent p lh : is_call (classify_parent_steps p lh) (classify_parent p lh).
Proof.
  apply is_call_bind; [apply is_call_writing|]. intros _. apply is_call_reading. intros db.
  rewrite (bind_step get_db _ db db db) by done. apply is_call_commit.
Qed.
Lemma run_unclassified db : run_steps unclassified_parents_steps db = (Ok (unclassified_parents db), db).
Proof. apply run_scan. done. Qed.
Lemma run_siblings_for_parent p db : run_steps (siblings_for_parent_steps p) db = (Ok (siblings_for_parent p db), db).
Proof. unfold siblings_for_parent_steps, siblings_for_parent. rewrite run_reading. by destruct (cache_siblings db !! p). Qed.
Lemma run_shared_mainnet_parents m page f db :
  run_steps (shared_mainnet_parents_steps m page f) db = (Ok (shared_mainnet_parents m page f db), db).
Proof.
  unfold shared_mainnet_parents_steps. erewrite run_steps_bind, run_scan; [reflexivity|].
  intros p sp. cbn [fst snd]. by destruct (sp_ltc_height sp).
Qed.
Lemma run_latest_sibling_group m db :
  run_steps (latest_sibling_group_steps m) db = (Ok (latest_sibling_group m db), db).
Proof. unfold latest_sibling_group_steps. rewrite run_steps_bind. by rewrite run_shared_mainnet_parents. Qed.
Lemma run_epoch_blocks a b f page db :
  run_steps (epoch_blocks_steps a b f page) db = (Ok (epoch_blocks a b f page db), db).
Proof.
  unfold epoch_blocks_steps. erewrite run_steps_bind, run_scan; [reflexivity|].
  intros p sp. cbn [fst snd]. destruct (sp_ltc_height sp) as [h|]; [|done]. cbn. by destruct (_ && _).
Qed.
Lemma run_stats db : run_steps stats_steps db = (Ok (stats db), db).
Proof.
  unfold stats_steps. rewrite run_steps_bind, (run_scan _ _ Some) by (by intros [] ?). rewrite omap_Some. cbv zeta.
  rewrite run_steps_bind, (run_scan _ _ (λ e : bytes * StoredParent,
    if (sp_parent_state e.2 =? 1) && match cache_siblings db !! e.1 with
      | Some s => 2 <=? Z.of_nat (size (list_to_set (sb_chain_id <$> s) : gset Z))
      | None => false end then Some e.1 else None)).
  2: { intros p sp. cbn [fst snd]. destruct (_ =? 1); [|done]. rewrite run_reading. cbn. by destruct (cache_siblings db !! p). }
  rewrite run_reading, run_reading. unfold stats, len. cbv zeta. by rewrite length_omap_filter.
Qed.
End refines.

(** The calls that leave the database. *)
Class is_query {A} (p : Steps Database A) (f : Database → A) : Prop := is_query_run : ∀ db, run_steps p db = (Ok (f db), db).
#[export] Hint Mode is_query - ! - : typeclass_instances.

Section queries.
Context `{Sha256} `{HexCodec} `{Codec}.
#[export] Instance is_query_registry : is_query chain_registry_steps chain_registry := run_chain_registry.
#[export] Instance is_query_unclassified : is_query unclassified_parents_steps unclassified_parents := run_unclassified.
#[export] Instance is_query_siblings p : is_query (siblings_for_parent_steps p) (siblings_for_parent p) :=
  run_siblings_for_parent p.
#[export] Instance is_query_shared m page f :
  is_query (shared_mainnet_parents_steps m page f) (shared_mainnet_parents m page f) := run_shared_mainnet_parents m page f.
#[export] Instance is_query_latest m : is_query (latest_sibling_group_steps m) (latest_sibling_group m) :=
  run_latest_sibling_group m.
#[export] Instance is_query_epoch a b f page : is_query (epoch_blocks_steps a b f page) (epoch_blocks a b f page) :=
  run_epoch_blocks a b f page.
#[export] Instance is_query_stats : is_query stats_steps stats := run_stats.
End queries.
