(* ===== verification/Ingest.v ===== *)
(** * Ingestion

    [src/ingest.rs]: one tick of a chain's ingest loop ([ingest_chain]), the
    classification of parents, the bounded window, the gossip announcements and
    the backoff.  The node behind [ElectrsClient] and the explorer behind
    [ParentResolver] are arguments: a [Node] is what they answer during one tick,
    without any assumption on it.  The concurrent fetches of a tick do not touch
    the database, so only their results matter; the tick itself is a step of the
    storage monad.  [Metrics] adds the counters; logging is left out. *)

From S2P Require Export DbThm ConfigThm.

#[local] Open Scope Z_scope.

(** ** Data *)

(** The answers of the chain's node and of the resolver during one tick: those of
    clients that return (one whose backoff panics ends the task there). *)
Record Node := mkNode {
  tip_height : Result string Z;
  block_hash_at : Z → Result string string;
  header_wire : Z → string → Result string bytes;
  resolve_parent : bytes → Result string (option Z)
}.

Record IngestBatch := mkBatch {
  batch_blocks : list StoredBlock;
  new_mainnet_parents : list bytes
}.
Definition head (b : IngestBatch) : option StoredBlock := last (batch_blocks b).
Definition empty_batch : IngestBatch := mkBatch [] [].

(** The gossip messages, on [/psob/headers/v1] and [/psob/siblings/v1]. *)
Inductive Announcement :=
  | AnnounceHeader (chain_id height : Z) (hash parent : string) (ltc_height : option Z) (wire : string)
  | AnnounceSibling (parent : string) (ltc_height : Z) (legs : list (Z * Z * string)).

(** ** The tick *)

(** A failed call and its [context]. *)
Definition liftR {A} (ctx : string) (r : Result string A) : M A :=
  match r with Ok a => mret a | Err _ => fail (DbAnyhow ctx) end.

Fixpoint mapM_result {A B} (f : A → Result string B) (l : list A) : Result string (list B) :=
  match l with
  | [] => Ok []
  | x :: l => y ← f x; ys ← mapM_result f l; Ok (y :: ys)
  end.

(** [saturating_mul] of a [Duration] by a [u32], and the jitter interval; [None] is the
    panic of an empty one. *)
Definition backoff_delay (config : Config) (failures : Z) (jitter : Z) : option Z :=
  let exp := rt_base_backoff (cfg_retry config) * Z.min u32_max (2 ^ Z.min failures 12) in
  let capped := Z.min exp (rt_max_backoff (cfg_retry config)) in
  if capped =? 0 then Some 250 else jittered capped jitter.

Section ingest.
Context `{Sha256} `{HexCodec} `{Codec}.

Definition display_hash (le : bytes) : string := hex_encode (rev le).

(** [None] is the [expect] on a block without a witness. *)
Definition parent_hash_of (b : StoredBlock) : option bytes := db_parent_hash b.

(** One height of the walk, before the linkage gate: the block and its hash, or
    [None] where the walk halts (a short or mismatched payload, a parse error or
    a failed check). *)
Definition check_wire (chain : AuxChain) (locator : string) (wire : bytes) :
    option (bytes * AuxBlock) :=
  base80 ← get_range wire 0 80;
  if negb (eq_ignore_ascii_case (display_hash (sha256d base80)) locator) then None else
  match AuxBlock_from_wire wire with
  | Err _ => None
  | Ok b =>
      match light_verify (ab_base b) (ab_aux b) (ac_chain_id chain) (ac_pow_limit_bits chain) with
      | Err _ => None
      | Ok id => Some (id, b)
      end
  end.

Definition stored_of (chain : AuxChain) (height : Z) (id : bytes) (b : AuxBlock) : StoredBlock :=
  mkBlock id (ac_chain_id chain) height (AuxBlock_header b) (hex_encode (ab_wire b)).

(** The height-ordered verification: the blocks accepted, and the height to roll
    back from where a link is broken. *)
Fixpoint walk (chain : AuxChain) (prev_hash : option bytes) (pending : list StoredBlock)
    (items : list (Z * string * bytes)) : list StoredBlock * option Z :=
  match items with
  | [] => (pending, None)
  | (height, locator, wire) :: items =>
      match check_wire chain locator wire with
      | None => (pending, None)
      | Some (id, b) =>
          if match prev_hash with
             | Some p => bool_decide (slice (ab_base b) 4 36 ≠ p)
             | None => false
             end
          then (pending, Some (saturating_sub height 1))
          else walk chain (Some id) (pending ++ [stored_of chain height id b]) items
      end
  end.

(** [start..=end]. *)
Definition window (start end_ : Z) : list Z := seqZ start (end_ - start + 1).

(** The window's locator hashes, then its payloads, each by height. *)
Definition fetch (node : Node) (heights : list Z) : Result string (list (Z * string * bytes)) :=
  hashes ← mapM_result (λ h, hx ← block_hash_at node h; Ok (h, hx)) heights;
  mapM_result (λ e, w ← header_wire node e.1 e.2; Ok (e.1, e.2, w)) hashes.

(** The bounded-window policy after an insert up to [last_]: what it removed, when
    it ran. *)
Definition prune_rows (config : Config) (chain : AuxChain) (last_ : Z) : M (option Z) :=
  match cfg_max_kept_blocks config with
  | None => mret None
  | Some max_kept =>
      let below := u64_saturating_add (saturating_sub last_ max_kept) 1 in
      if negb (1 <? below) then mret None else
      db ← get_db;
      match c ← List.find (λ c, cs_chain_id c =? ac_chain_id chain) (st_chains (stats db));
            cs_min_height c with
      | Some min =>
          if min <? below then removed ← prune_before (ac_chain_id chain) below; mret (Some removed)
          else mret None
      | None => mret None
      end
  end.
Definition prune_window (config : Config) (chain : AuxChain) (last_ : Z) : M unit :=
  _ ← prune_rows config chain last_; mret ().

Definition store_pending (config : Config) (chain : AuxChain) (start : Z)
    (pending : list StoredBlock) : M unit :=
  match pending with
  | [] => mret ()
  | _ =>
      _ ← insert_blocks ((λ b, ((sb_chain_id b, sb_height b), b)) <$> pending);
      let last_ := default (saturating_sub start 1) (sb_height <$> last pending) in
      _ ← set_cursor_height (ac_chain_id chain) last_;
      prune_window config chain last_
  end.

(** [resolved.ok().flatten()]: a resolver failure is no height. *)
Fixpoint classify_each (node : Node) (parents : list bytes) : M (list bytes) :=
  match parents with
  | [] => mret []
  | p :: parents =>
      let ltc_height := match resolve_parent node p with Ok o => o | Err _ => None end in
      _ ← classify_parent p ltc_height;
      ps ← classify_each node parents;
      mret (match ltc_height with Some _ => p :: ps | None => ps end)
  end.

Definition classify_pending_parents (node : Node) : M (list bytes) :=
  db ← get_db;
  classify_each node (unclassified_parents db).

(** Where the walk of this tick starts. *)
Definition start_cursor (config : Config) (chain : AuxChain) : M Z :=
  cursor ← cursor_height (ac_chain_id chain);
  match cursor with
  | Some c => mret c
  | None =>
      match (match ac_start_height chain with Some h => Some h | None => cfg_start_height config end) with
      | Some h => mret h
      | None => fail (DbAnyhow ("fresh DB: PSOB_START_HEIGHT must be set (or per-chain in PSOB_CHAINS) for chain "
                                +:+ ac_name chain +:+ " (" +:+ pretty (ac_chain_id chain) +:+ ")"))
      end
  end.

(** The tick once its window [cursor+1 ..] is fetched. *)
Definition ingest_window (config : Config) (chain : AuxChain) (node : Node) (cursor : Z)
    (items : list (Z * string * bytes)) : M IngestBatch :=
  prev_hash ← (if cursor =? 0 then mret None
               else b ← block_at (ac_chain_id chain) cursor; mret (sb_hash_le <$> b));
  let '(pending, stale) := walk chain prev_hash [] items in
  _ ← match stale with
      | Some h => _ ← rollback_from (ac_chain_id chain) h; mret ()
      | None => mret ()
      end;
  _ ← store_pending config chain (u64_saturating_add cursor 1) pending;
  new_mainnet ← classify_pending_parents node;
  mret (mkBatch pending new_mainnet).

Definition ingest_chain (config : Config) (chain : AuxChain) (node : Node) : M IngestBatch :=
  _ ← upsert_chain (ac_chain_id chain) (ac_name chain) (ac_electrs chain);
  tip ← liftR "tip_height" (tip_height node);
  cursor ← start_cursor config chain;
  if tip <? cursor then mret empty_batch else
  let start := u64_saturating_add cursor 1 in
  let end_ := Z.min (u64_wrap (cursor + cfg_max_batch config)) tip in
  if end_ <? start then mret empty_batch else
  items ← liftR "fetch" (fetch node (window start end_));
  ingest_window config chain node cursor items.

(** ** Gossip *)

(** [p2p] tells whether there is a [P2pHandle]. *)
Definition announce_batch_tip (p2p : bool) (chain : AuxChain) (batch : IngestBatch) :
    M (option Announcement) :=
  match head batch, p2p with
  | None, _ | _, false => mret None
  | Some h, true =>
      match parent_hash_of h with
      | None => fail DbPanic
      | Some parent =>
          p ← try (get_parent parent);
          let ltc_height := match p with Ok (Some p) => sp_ltc_height p | _ => None end in
          mret (Some (AnnounceHeader (ac_chain_id chain) (sb_height h) (display_hash (sb_hash_le h))
                        (display_hash parent) ltc_height (sb_wire_hex h)))
      end
  end.

(** The lowest height of each chain, then its blocks at that height. *)
Definition lowest_heights (siblings : list StoredBlock) : gmap Z Z := foldl (add_leg None) ∅ siblings.
Definition announced_legs (siblings : list StoredBlock) : list (Z * Z * string) :=
  let chains := lowest_heights siblings in
  omap (λ s, if bool_decide (chains !! sb_chain_id s = Some (sb_height s))
             then Some (sb_chain_id s, sb_height s, display_hash (sb_hash_le s)) else None) siblings.

Definition announce_sibling_group (p2p : bool) (announced : gset bytes) (parent : bytes) :
    M (gset bytes * option Announcement) :=
  if negb p2p then mret (announced, None) else
  if bool_decide (parent ∈ announced) then mret (announced, None) else
  let announced := {[parent]} ∪ announced in
  info ← try (get_parent parent);
  match info with
  | Ok (Some parent_info) =>
      match sp_ltc_height parent_info with
      | None => mret (announced, None)
      | Some ltc_height =>
          db ← get_db;
          let siblings := siblings_for_parent parent db in
          if Z.of_nat (size (lowest_heights siblings)) <? 2 then mret (announced, None) else
          mret (announced, Some (AnnounceSibling (display_hash parent) ltc_height (announced_legs siblings)))
      end
  | _ => mret (announced, None)
  end.

Fixpoint announce_groups (p2p : bool) (announced : gset bytes) (parents : list bytes) :
    M (gset bytes * list Announcement) :=
  match parents with
  | [] => mret (announced, [])
  | p :: parents =>
      '(announced, a) ← announce_sibling_group p2p announced p;
      '(announced, l) ← announce_groups p2p announced parents;
      mret (announced, option_list a ++ l)
  end.

(** One round of [chain_loop]: the failure count, the messages sent, and how long
    to sleep; [None] is a panic, which ends the chain's task. *)
Record LoopState := mkLoop { failures : Z; announced_set : gset bytes }.

Definition chain_round (config : Config) (chain : AuxChain) (p2p : bool) (jitter : Z)
    (node : Node) (st : LoopState) (db : Database) :
    option (LoopState * list Announcement * Z * Database) :=
  match ingest_chain config chain node db with
  | (Ok batch, db) =>
      let '(tip_msg, db) := match batch_blocks batch with
                            | [] => (Ok None, db)
                            | _ => announce_batch_tip p2p chain batch db
                            end in
      match tip_msg with
      | Err _ => None
      | Ok tip_msg =>
          match announce_groups p2p (announced_set st) (new_mainnet_parents batch) db with
          | (Ok (announced, msgs), db) =>
              Some (mkLoop 0 announced, option_list tip_msg ++ msgs, cfg_poll_interval config, db)
          | (Err _, db) => None
          end
      end
  | (Err DbPanic, db) => None
  | (Err _, db) =>
      let n := u32_wrap (failures st + 1) in
      delay ← backoff_delay config n jitter;
      Some (mkLoop n (announced_set st), [], delay, db)
  end.
End ingest.
