(* ===== verification/IngestSpec.v ===== *)
(** * Ingestion: the invariant and the steps of a tick

    What a tick leaves in the store, whatever the node and the resolver answer,
    and what it achieves when the node is honest. *)

From S2P Require Export Ingest.

#[local] Open Scope Z_scope.

Section ingest_lemmas.
Context `{Sha256} `{HexCodec} `{Codec}.

(** ** The invariant of an ingested chain *)

Definition cursor_of (cid : Z) (db : Database) : option Z :=
  cache_meta db !! cursor_key cid ≫= parse_u64.

(** A stored block carries a wire payload that parses to its header and witness
    and passes the checks. *)
Definition valid_stored (plb : Z) (b : StoredBlock) : Prop :=
  ∃ wire a, len wire ≤ usize_max ∧ sb_wire_hex b = hex_encode wire ∧
    parse_auxpow wire = Ok (raw (sb_header b), a) ∧ aux (sb_header b) = Some a ∧
    light_verify (raw (sb_header b)) a (sb_chain_id b) plb = Ok (sb_hash_le b).

Lemma light_verify_hash base a cid plb h :
  light_verify base a cid plb = Ok h → h = sha256d base ∧ length base = 80%nat.
Proof.
  unfold light_verify, check_header_format. destruct (len base =? 80) eqn:Hlen; cbn [negb].
  2: done. reflect_bools. destruct (negb (step_ok _)); [done|].
  repeat (destruct (negb _); [done|]). intros [= <-]. unfold len in Hlen. split; [done|lia].
Qed.

Lemma valid_stored_hash plb b :
  valid_stored plb b → sb_hash_le b = sha256d (raw (sb_header b)) ∧ length (raw (sb_header b)) = 80%nat.
Proof. intros (w & a & _ & _ & _ & _ & Hl). by eapply light_verify_hash. Qed.

Definition prev_of (b : StoredBlock) : bytes := slice (raw (sb_header b)) 4 36.

Record chain_inv (cid plb : Z) (db : Database) : Prop := {
  ci_valid : ∀ h b, cache_blocks db !! (cid, h) = Some b → valid_stored plb b;
  ci_linked : ∀ h b b', cache_blocks db !! (cid, h) = Some b →
    cache_blocks db !! (cid, h + 1) = Some b' → prev_of b' = sb_hash_le b;
  ci_cursor : ∀ h b, cache_blocks db !! (cid, h) = Some b →
    1 ≤ h ∧ ∃ c, cursor_of cid db = Some c ∧ h ≤ c;
  ci_contig : ∀ h h' b c, cache_blocks db !! (cid, h) = Some b → cursor_of cid db = Some c →
    h ≤ h' ≤ c → is_Some (cache_blocks db !! (cid, h'))
}.

(** The invariant of the store under ingestion; [limits] gives the proof-of-work
    limit of each configured chain. *)
Record ingest_inv (limits : Z → option Z) (db : Database) : Prop := {
  ii_db : db_inv db;
  ii_known : parents_known db;
  ii_chains : ∀ cid plb, limits cid = Some plb → is_u32 cid → chain_inv cid plb db
}.

(** ** The fetch *)

Lemma mapM_result_Forall2 {A B} (f : A → Result string B) l k :
  mapM_result f l = Ok k → Forall2 (λ x y, f x = Ok y) l k.
Proof.
  revert k. induction l as [|x l IH]; intros k; cbn; [by intros [= <-]|].
  intros (y & Hy & (ys & Hys & [= <-])%bind_Ok)%bind_Ok. constructor; [done|by apply IH].
Qed.

Lemma fetch_heights node hs items :
  fetch node hs = Ok items → items.*1.*1 = hs.
Proof.
  unfold fetch. intros (hashes & Hh%mapM_result_Forall2 & Hw%mapM_result_Forall2)%bind_Ok.
  assert (items.*1 = hashes) as ->.
  { clear Hh. induction Hw as [|x y l k Hxy Hl IH]; [done|]. cbn. rewrite IH.
    apply bind_Ok in Hxy as (w & _ & [= <-]). by destruct x. }
  clear Hw. induction Hh as [|x y l k Hxy Hl IH]; [done|]. cbn. rewrite IH.
  by apply bind_Ok in Hxy as (w & _ & [= <-]).
Qed.

(** ** The walk *)

(** Consecutive valid blocks from height [h], the first one linked to [prev]. *)
Fixpoint linked_from (cid plb : Z) (prev : option bytes) (h : Z) (bs : list StoredBlock) : Prop :=
  match bs with
  | [] => True
  | b :: bs =>
      sb_chain_id b = cid ∧ sb_height b = h ∧ valid_stored plb b ∧
      (∀ p, prev = Some p → prev_of b = p) ∧
      linked_from cid plb (Some (sb_hash_le b)) (h + 1) bs
  end.

Lemma check_wire_valid chain locator wire id b h :
  len wire ≤ usize_max → check_wire chain locator wire = Some (id, b) →
  let sb := stored_of chain h id b in
  valid_stored (ac_pow_limit_bits chain) sb ∧ raw (sb_header sb) = ab_base b.
Proof.
  intros Hw. unfold check_wire.
  intros (base80 & _ & Hc)%bind_Some. destruct (negb _); [done|].
  unfold AuxBlock_from_wire in Hc. destruct (parse_auxpow wire) as [[base a]|] eqn:Hp; [|done].
  cbn in Hc. destruct (light_verify _ _ _ _) as [id'|] eqn:Hl; [|done]. injection Hc as -> <-.
  split; [|done]. exists wire, a. done.
Qed.

Lemma walk_spec chain items : ∀ prev start pending,
  items.*1.*1 = seqZ start (len items) → Forall (λ i, len i.2 ≤ usize_max) items →
  ∃ bs stale, walk chain prev pending items = (pending ++ bs, stale) ∧
    linked_from (ac_chain_id chain) (ac_pow_limit_bits chain) prev start bs ∧
    len bs ≤ len items ∧
    match stale with
    | Some s => s = saturating_sub (start + len bs) 1 ∧ len bs < len items ∧
                (bs = [] → is_Some prev)
    | None => True
    end.
Proof.
  induction items as [|[[h locator] wire] items IH]; intros prev start pending Hh Hw.
  { exists [], None. cbn [walk linked_from]. rewrite app_nil_r. split_and!; [done|done|unfold len; cbn; lia|done]. }
  assert (len ((h, locator, wire) :: items) = len items + 1) as Hlen by (unfold len; cbn [length]; lia).
  assert (0 ≤ len items) as Hpos by (unfold len; lia).
  rewrite Hlen, seqZ_cons in Hh by lia. cbn in Hh. injection Hh as -> Hh.
  replace (Z.pred (len items + 1)) with (len items) in Hh by lia.
  apply Forall_cons in Hw as [Hw Hws]. cbn in Hw. cbn [walk].
  destruct (check_wire chain locator wire) as [[id b]|] eqn:Hc.
  - destruct (check_wire_valid _ _ _ _ _ start Hw Hc) as [Hval Hraw].
    destruct (match prev with Some p => _ | None => false end) eqn:Hbr.
    + exists [], (Some (saturating_sub start 1)). rewrite app_nil_r. cbn [linked_from].
      assert (len ([] : list StoredBlock) = 0) as -> by done. rewrite Z.add_0_r.
      split_and!; [done|done|lia|done|lia|].
      intros _. by destruct prev; [eexists|].
    + destruct (IH (Some id) (Z.succ start) (pending ++ [stored_of chain start id b]) Hh Hws)
        as (bs & stale & Hwalk & Hl & Hle & Hst).
      exists (stored_of chain start id b :: bs), stale. rewrite Hwalk, <-app_assoc.
      assert (len (stored_of chain start id b :: bs) = len bs + 1) as Hlb by (unfold len; cbn [length]; lia).
      split_and!; [done| |lia|].
      * cbn. split_and!; [done|done|exact Hval| |exact Hl].
        intros p ->. by apply bool_decide_eq_false, dec_stable in Hbr.
      * destruct stale as [s|]; [|done]. destruct Hst as (-> & ? & _). rewrite Hlb.
        split_and!; [f_equal; lia|lia|done].
  - exists [], None. rewrite app_nil_r. cbn [linked_from]. split_and!; [done|done|unfold len in *; cbn; lia|done].
Qed.

Lemma linked_from_heights cid plb prev h bs :
  linked_from cid plb prev h bs →
  ∀ b, b ∈ bs → sb_chain_id b = cid ∧ h ≤ sb_height b < h + len bs ∧ valid_stored plb b.
Proof.
  revert prev h. induction bs as [|x bs IH]; intros prev h; [set_solver|].
  intros (Hc & Hh & Hv & _ & Hbs) b. assert (len (x :: bs) = len bs + 1) as -> by (unfold len; cbn [length]; lia).
  assert (0 ≤ len bs) by (unfold len; lia).
  intros [->|Hb]%elem_of_cons; [split_and!; [done|lia|lia|done]|].
  destruct (IH _ _ Hbs b Hb) as (? & ? & ?). split_and!; [done|lia|lia|done].
Qed.

Lemma linked_from_inj cid plb prev h bs b b' :
  linked_from cid plb prev h bs → b ∈ bs → b' ∈ bs → sb_height b = sb_height b' → b = b'.
Proof.
  revert prev h. induction bs as [|x bs IH]; intros prev h; [set_solver|].
  intros (_ & Hh & _ & _ & Hbs) [->|Hb]%elem_of_cons [->|Hb']%elem_of_cons Heq; [done| | |by eapply IH].
  - destruct (linked_from_heights _ _ _ _ _ Hbs b' Hb') as (_ & ? & _). lia.
  - destruct (linked_from_heights _ _ _ _ _ Hbs b Hb) as (_ & ? & _). lia.
Qed.

(** Neighbours in the list are linked, and its first block is linked to [prev]. *)
Lemma linked_from_next cid plb prev h bs b b' :
  linked_from cid plb prev h bs → b ∈ bs → b' ∈ bs → sb_height b' = sb_height b + 1 →
  prev_of b' = sb_hash_le b.
Proof.
  revert prev h. induction bs as [|x bs IH]; intros prev h; [set_solver|].
  intros (_ & Hh & _ & _ & Hbs) Hb Hb' Heq.
  apply elem_of_cons in Hb as [->|Hb]; apply elem_of_cons in Hb' as [->|Hb']; [lia| | |by eapply IH].
  - destruct bs as [|y bs]; [set_solver|]. destruct Hbs as (_ & Hy & _ & Hp & Hbs).
    apply elem_of_cons in Hb' as [->|Hb']; [by apply Hp|].
    destruct (linked_from_heights _ _ _ _ _ Hbs b' Hb') as (_ & ? & _). lia.
  - destruct (linked_from_heights _ _ _ _ _ Hbs b Hb) as (_ & ? & _). lia.
Qed.

Lemma linked_from_first cid plb p h bs b :
  linked_from cid plb (Some p) h bs → b ∈ bs → sb_height b = h → prev_of b = p.
Proof.
  destruct bs as [|x bs]; [set_solver|]. intros (_ & Hh & _ & Hp & Hbs) [->|Hb]%elem_of_cons Heq.
  - by apply Hp.
  - destruct (linked_from_heights _ _ _ _ _ Hbs b Hb) as (_ & ? & _). lia.
Qed.

Lemma linked_from_at cid plb prev h bs x :
  linked_from cid plb prev h bs → h ≤ x < h + len bs → ∃ b, b ∈ bs ∧ sb_height b = x.
Proof.
  revert prev h. induction bs as [|b bs IH]; intros prev h; [unfold len; cbn; lia|].
  intros (_ & Hh & _ & _ & Hbs). assert (len (b :: bs) = len bs + 1) as -> by (unfold len; cbn [length]; lia).
  intros Hx. destruct (decide (x = h)) as [->|Hne].
  - exists b. split; [left|done].
  - destruct (IH _ _ Hbs ltac:(lia)) as (b' & ? & ?). exists b'. split; [by right|done].
Qed.

Lemma linked_from_last cid plb prev h bs b :
  linked_from cid plb prev h bs → last bs = Some b → sb_height b = h + len bs - 1.
Proof.
  revert prev h. induction bs as [|x bs IH]; intros prev h; [done|]. intros (_ & Hh & _ & _ & Hbs) Hlast.
  assert (len (x :: bs) = len bs + 1) as -> by (unfold len; cbn [length]; lia).
  destruct bs as [|y bs]; [injection Hlast as <-; cbn; unfold len; cbn; lia|].
  pose proof (IH _ _ Hbs Hlast). lia.
Qed.

(** ** Metadata *)

Lemma chain_key_cursor_key c c' : is_u32 c' → chain_key c ≠ cursor_key c'.
Proof.
  intros [Hc' _] Heq. unfold chain_key, cursor_key in Heq.
  destruct (pretty_digits c' Hc') as [Hd Hne]. destruct (pretty c') as [|x s]; [done|].
  destruct Hd as [Hx _]. injection Heq as <- _. by destruct Hx.
Qed.

Lemma cursor_of_run cid db : coherent db → cursor_height cid db = (Ok (cursor_of cid db), db).
Proof. intros Hco. apply cursor_height_run, Hco. Qed.

Lemma cursor_of_range cid db c : cursor_of cid db = Some c → is_u64 c.
Proof.
  unfold cursor_of. intros (v & _ & Hv)%bind_Some. unfold parse_u64 in Hv.
  apply parse_uint_range in Hv; [done|]. unfold u64_max. lia.
Qed.

Lemma cursor_of_set c c' h db :
  is_u32 c → is_u32 c' → is_u64 h →
  cursor_of c' (meta_set (cursor_key c) (pretty h) db) = if decide (c' = c) then Some h else cursor_of c' db.
Proof.
  intros Hc Hc' Hh. unfold cursor_of. cbn. case_decide as Hcc.
  - subst. rewrite lookup_insert_eq. cbn. by apply parse_pretty.
  - rewrite lookup_insert_ne; [done|]. by intros ?%cursor_key_inj.
Qed.

Lemma cursor_of_clip c c' s db :
  is_u32 c → is_u32 c' → is_u64 s →
  cursor_of c' (clip_cursor c s db) =
  if decide (c' = c) then (λ h, if s <=? h then saturating_sub s 1 else h) <$> cursor_of c db
  else cursor_of c' db.
Proof.
  intros Hc Hc' Hs. unfold clip_cursor. fold (cursor_of c db).
  destruct (cursor_of c db) as [h|] eqn:Hh; cbn.
  - destruct (s <=? h).
    + rewrite cursor_of_set; [done..|]. unfold is_u64, saturating_sub in *. lia.
    + case_decide; [by subst|done].
  - case_decide; [by subst|done].
Qed.

(** ** Fewer blocks, same cursors *)

Lemma chain_inv_sub cid plb db db' :
  chain_inv cid plb db →
  (∀ h b, cache_blocks db' !! (cid, h) = Some b → cache_blocks db !! (cid, h) = Some b) →
  (∀ h b, cache_blocks db' !! (cid, h) = Some b → ∃ c, cursor_of cid db' = Some c ∧ h ≤ c) →
  (∀ c c', cursor_of cid db = Some c → cursor_of cid db' = Some c' → c' ≤ c) →
  (∀ h h' b, cache_blocks db' !! (cid, h) = Some b → h ≤ h' →
     (∀ c, cursor_of cid db' = Some c → h' ≤ c) →
     cache_blocks db' !! (cid, h') = cache_blocks db !! (cid, h')) →
  chain_inv cid plb db'.
Proof.
  intros [Hv Hl Hc Hg] Hsub Hcur Hle Hup. split.
  - intros h b Hb%Hsub. by eapply Hv.
  - intros h b b' Hb%Hsub Hb'%Hsub. by eapply Hl.
  - intros h b Hb. split; [|by eapply Hcur]. apply Hsub in Hb. by destruct (Hc h b Hb).
  - intros h h' b c Hb Hcc Hh. rewrite (Hup h h' b Hb) by (lia || (intros; simplify_eq; lia)).
    pose proof (Hsub _ _ Hb) as Hb0. destruct (Hc h b Hb0) as (_ & c0 & Hc0 & _).
    eapply Hg; [done|done|]. specialize (Hle _ _ Hc0 Hcc). lia.
Qed.

(** A chain another chain's operation leaves alone. *)
Lemma chain_inv_same cid plb db db' :
  chain_inv cid plb db →
  (∀ h, cache_blocks db' !! (cid, h) = cache_blocks db !! (cid, h)) →
  cursor_of cid db' = cursor_of cid db → chain_inv cid plb db'.
Proof.
  intros Hci Hb Hcur. eapply chain_inv_sub; [done|..].
  - intros h b. by rewrite Hb.
  - intros h b. rewrite Hb, Hcur. intros Hhb. by destruct (ci_cursor _ _ _ Hci h b Hhb).
  - intros c c'. rewrite Hcur. intros. simplify_eq. lia.
  - intros h h' b _ _ _. apply Hb.
Qed.

Lemma ingest_inv_sub limits db db' :
  ingest_inv limits db → db_inv db' → parents_known db' →
  (∀ k b, cache_blocks db' !! k = Some b → cache_blocks db !! k = Some b) →
  (∀ c h h' b, cache_blocks db' !! (c, h) = Some b → h ≤ h' →
     cache_blocks db' !! (c, h') = cache_blocks db !! (c, h')) →
  (∀ cid, is_u32 cid → cursor_of cid db' = cursor_of cid db) →
  ingest_inv limits db'.
Proof.
  intros [_ _ Hch] Hdb Hpk Hsub Hup Hcur. split; [done|done|].
  intros cid plb Hl Hc. eapply chain_inv_sub; [by apply Hch|by intros h b; apply Hsub|..].
  - intros h b Hb%Hsub. rewrite Hcur by done. by destruct (ci_cursor _ _ _ (Hch _ _ Hl Hc) h b Hb).
  - intros c c'. rewrite Hcur by done. intros. simplify_eq. lia.
  - intros h h' b Hb Hh _. by eapply Hup.
Qed.

Lemma upsert_step limits c name url db :
  ingest_inv limits db →
  ∃ db', upsert_chain c name url db = (Ok (), db') ∧ ingest_inv limits db' ∧
    cache_blocks db' = cache_blocks db ∧ cache_parents db' = cache_parents db ∧
    (∀ cid, is_u32 cid → cursor_of cid db' = cursor_of cid db).
Proof.
  intros Hinv. pose proof Hinv as [[Hco Hf _ _] Hpk _].
  eexists. split; [apply upsert_chain_run; [apply Hco|done]|].
  assert (∀ cid, is_u32 cid →
    cursor_of cid (meta_set (chain_key c) (name +:+ "|" +:+ url) db) = cursor_of cid db) as Hcur.
  { intros cid Hcid. unfold cursor_of. cbn. rewrite lookup_insert_ne; [done|].
    by apply chain_key_cursor_key. }
  split_and!; [|done|done|done].
  eapply ingest_inv_sub; [done| |done|done|done|done].
  apply meta_set_inv; [apply chain_key_schema|by destruct Hinv].
Qed.

(** ** Rollback of a tick *)

Lemma rollback_step limits c s db :
  ingest_inv limits db → is_u32 c → is_u64 s →
  ∃ n db', rollback_from c s db = (Ok n, db') ∧ ingest_inv limits db' ∧
    (∀ k, cache_blocks db' !! k = if from_on c s k then None else cache_blocks db !! k) ∧
    cursor_of c db' = (λ h, if s <=? h then saturating_sub s 1 else h) <$> cursor_of c db.
Proof.
  intros Hinv Hc Hs. pose proof Hinv as [[Hco Hf Hsch Hcap] Hpk Hch].
  destruct (rollback_from_run c s db Hco Hpk Hf) as (db1 & Hrun & Hrb & Hco1).
  destruct (clip_cursor_same c s db1) as (Hcb & Hcp & _).
  assert (∀ cid, cursor_of cid db1 = cursor_of cid db) as Hcur1.
  { intros cid. unfold cursor_of. by rewrite (rb_meta _ _ _ Hrb). }
  assert (cursor_of c (clip_cursor c s db1)
          = (λ h, if s <=? h then saturating_sub s 1 else h) <$> cursor_of c db) as Hcc.
  { rewrite cursor_of_clip, decide_True, Hcur1 by done. done. }
  eexists _, _. split_and!; [exact Hrun| | |exact Hcc].
  - split.
    + apply clip_cursor_inv. apply (inv_transfer db); [by destruct Hinv|done|..]; destruct Hrb; congruence.
    + pose proof (rolled_back_known _ _ _ Hrb Hpk) as Hpk1. unfold parents_known in *. by rewrite Hcb, Hcp.
    + intros cid plb Hl Hcid. pose proof (Hch _ _ Hl Hcid) as Hci.
      assert (∀ k b, cache_blocks (clip_cursor c s db1) !! k = Some b →
                from_on c s k = false ∧ cache_blocks db !! k = Some b) as Hsub.
      { intros k b. rewrite Hcb, (rb_blocks _ _ _ Hrb). by destruct (from_on c s k). }
      assert (∀ h, from_on c s (cid, h) = (cid =? c) && (s <=? h)) as Hon by done.
      destruct (decide (cid = c)) as [->|Hne].
      * rewrite Z.eqb_refl in Hon. cbn [andb] in Hon. eapply chain_inv_sub; [done|by intros h b [_ ?]%Hsub|..].
        -- intros h b [Hg Hb]%Hsub. destruct (ci_cursor _ _ _ Hci h b Hb) as (Hh & c0 & Hc0 & Hle).
           rewrite Hcc, Hc0. cbn. eexists. split; [done|]. rewrite Hon in Hg. reflect_bools.
           destruct (s <=? c0); [unfold saturating_sub|]; lia.
        -- intros c0 c1 Hc0. rewrite Hcc, Hc0. intros [= <-].
           destruct (s <=? c0) eqn:?; [unfold saturating_sub|]; reflect_bools; [|lia].
           apply cursor_of_range in Hc0. unfold is_u64 in *. lia.
        -- intros h h' b [Hg Hb]%Hsub Hh Hle. destruct (ci_cursor _ _ _ Hci h b Hb) as (Hh1 & c0 & Hc0 & _).
           specialize (Hle _ (eq_trans Hcc (f_equal _ Hc0))). cbn in Hle.
           rewrite Hcb, (rb_blocks _ _ _ Hrb), Hon. destruct (s <=? h') eqn:Hsh; [|done]. exfalso.
           rewrite Hon in Hg. destruct (s <=? c0) eqn:?; reflect_bools; unfold saturating_sub in *; lia.
      * eapply chain_inv_same; [done| |by rewrite cursor_of_clip, decide_False, Hcur1].
        intros h. rewrite Hcb, (rb_blocks _ _ _ Hrb), Hon. by apply Z.eqb_neq in Hne as ->.
  - intros k. by rewrite Hcb, (rb_blocks _ _ _ Hrb).
Qed.

(** ** Classification of a tick *)

Lemma classify_step limits ph lh db :
  ingest_inv limits db →
  ∃ db', classify_parent ph lh db = (Ok (), db') ∧ ingest_inv limits db' ∧
    cache_blocks db' = cache_blocks db ∧ cache_meta db' = cache_meta db.
Proof.
  intros Hinv. pose proof Hinv as [[Hco Hf _ _] Hpk _].
  destruct (classify_run ph lh db Hco Hf) as (db' & Hrun & Hco' & Hf' & Hb & _ & Hm & Hi & Hp).
  exists db'. split_and!; [done| |done|done].
  eapply ingest_inv_sub; [done| | | | |].
  - by apply (inv_transfer db); [destruct Hinv|..].
  - intros k b p. rewrite Hb, Hp. intros Hk Hbp. destruct (Hpk k b p Hk Hbp) as [sp Hsp].
    destruct (decide (ph = p)) as [->|Hne].
    + rewrite lookup_alter_eq, Hsp. by eexists.
    + rewrite lookup_alter_ne by done. by eexists.
  - intros k b. by rewrite Hb.
  - intros c h h' b _ _. by rewrite Hb.
  - intros cid _. unfold cursor_of. by rewrite Hm.
Qed.

Lemma classify_each_step limits node ps db :
  ingest_inv limits db →
  ∃ ms db', classify_each node ps db = (Ok ms, db') ∧ ingest_inv limits db' ∧
    cache_blocks db' = cache_blocks db ∧ cache_meta db' = cache_meta db.
Proof.
  revert db. induction ps as [|p ps IH]; intros db Hinv; [by exists [], db|]. cbn [classify_each].
  set (lh := match resolve_parent node p with Ok o => o | Err _ => None end).
  destruct (classify_step limits p lh db Hinv) as (db1 & Hrun1 & Hinv1 & Hb1 & Hm1).
  destruct (IH db1 Hinv1) as (ms & db2 & Hrun2 & Hinv2 & Hb2 & Hm2).
  eexists _, db2. split_and!; [|done|congruence|congruence].
  rewrite (bind_step _ _ _ _ _ Hrun1), (bind_step _ _ _ _ _ Hrun2). reflexivity.
Qed.

(** ** The bounded window *)

Lemma prune_window_step limits config chain last_ db :
  ingest_inv limits db →
  ∃ db', prune_window config chain last_ db = (Ok (), db') ∧ ingest_inv limits db' ∧
    cache_meta db' = cache_meta db ∧
    (∀ k b, cache_blocks db' !! k = Some b → cache_blocks db !! k = Some b) ∧
    (∀ k b, cache_blocks db !! k = Some b →
       (∀ m, cfg_max_kept_blocks config = Some m → k.1 = ac_chain_id chain → last_ - m < k.2) →
       cache_blocks db' !! k = Some b).
Proof.
  intros Hinv. pose proof Hinv as [[Hco Hf _ _] Hpk _]. unfold prune_window, prune_rows.
  destruct (cfg_max_kept_blocks config) as [m|]; [|by exists db; split_and!].
  set (below := u64_saturating_add (saturating_sub last_ m) 1). cbv zeta.
  destruct (1 <? below) eqn:Hbelow; cbn [negb]; reflect_bools; [|by exists db; split_and!].
  unfold mbind at 1 2, M_bind at 1 2, get_db.
  destruct (_ ≫= _) as [min|]; [|by exists db; split_and!].
  destruct (min <? below); [|by exists db; split_and!].
  destruct (prune_before_run (ac_chain_id chain) below db Hco ltac:(lia) Hf)
    as (db' & Hrun & Hco' & Hb & Hp & Hm & Hi & Hf').
  assert (∀ k b, cache_blocks db' !! k = Some b → cache_blocks db !! k = Some b) as Hsub.
  { intros k b. rewrite Hb. by destruct (before_on _ _ _). }
  exists db'. split_and!; [unfold mbind, M_bind; by rewrite Hrun| |done|done|].
  - eapply ingest_inv_sub; [done| | |done| |].
    + by apply (inv_transfer db); [destruct Hinv|..].
    + intros k b p Hk%Hsub Hbp. rewrite Hp. by apply (Hpk k b p).
    + intros c h h' b. rewrite !Hb. unfold before_on. cbn.
      destruct (c =? ac_chain_id chain) eqn:?; cbn; [|done].
      destruct (h <? below) eqn:?; [done|]. destruct (h' <? below) eqn:?; [|done]. reflect_bools. lia.
    + intros cid _. unfold cursor_of. by rewrite Hm.
  - intros k b Hk Hkeep. rewrite Hb. destruct (before_on _ below k) eqn:Hg; [|done].
    unfold before_on in Hg. reflect_bools. specialize (Hkeep m eq_refl ltac:(done)).
    unfold below, u64_saturating_add, saturating_sub in *.
    destruct (co_keys _ Hco k b Hk) as (_ & _ & [? ?] & _). lia.
Qed.

(** ** Storing the accepted blocks *)

Definition row_of (b : StoredBlock) : Z * Z * StoredBlock := (block_key b, b).

Lemma valid_row_ok plb b :
  valid_stored plb b → is_u32 (sb_chain_id b) → is_u64 (sb_height b) → row_ok (row_of b).
Proof.
  intros (wire & a & Hw & _ & Hp & Ha & _) Hc Hh. split; [done|done|done|]. exists a. split; [done|].
  apply parse_auxpow_iff in Hp as (_ & w & rest & (_ & _ & Hl & _) & _); [|done].
  unfold HEADER_LEN in Hl. lia.
Qed.

Lemma linked_rows_agree (cid plb : Z) (prev : option bytes) (start : Z) (bs : list StoredBlock) (c : gmap (Z * Z) StoredBlock) :
  linked_from cid plb prev start bs →
  (∀ h b, c !! (cid, h) = Some b → h < start) →
  rows_agree c (row_of <$> bs).
Proof.
  intros Hl Hfresh. split.
  - intros r r' (b & -> & Hb)%list_elem_of_fmap (b' & -> & Hb')%list_elem_of_fmap Heq. cbn in *.
    injection Heq as _ Heq. by eapply linked_from_inj.
  - intros r b' (b & -> & Hb)%list_elem_of_fmap Hb'. cbn in *. exfalso.
    destruct (linked_from_heights _ _ _ _ _ Hl b Hb) as (Hc & Hh & _).
    unfold block_key in Hb'. rewrite Hc in Hb'. apply Hfresh in Hb'. lia.
Qed.

(** Extending a linked chain: the stored blocks of [c] are below [start], and
    [prev] is the hash of the one just below it when it is stored. *)
Lemma chain_inv_extend c plb prev start bs db db' :
  chain_inv c plb db → linked_from c plb prev start bs → 1 ≤ start →
  (∀ h b, cache_blocks db !! (c, h) = Some b → h < start) →
  (∀ b, cache_blocks db !! (c, start - 1) = Some b → prev = Some (sb_hash_le b)) →
  (∀ c0, cursor_of c db = Some c0 → c0 = start - 1) →
  (∀ k b, cache_blocks db' !! k = Some b ↔ (k, b) ∈ row_of <$> bs ∨ cache_blocks db !! k = Some b) →
  cursor_of c db' = Some (start + len bs - 1) →
  chain_inv c plb db'.
Proof.
  intros [Hv Hln Hcur Hg] Hl Hstart Hfresh Hprev Hold0 Hb Hcur'.
  assert (∀ h b, cache_blocks db' !! (c, h) = Some b →
            (b ∈ bs ∧ h = sb_height b) ∨ cache_blocks db !! (c, h) = Some b) as Hcase.
  { intros h b [Hr|?]%Hb; [left|by right]. apply list_elem_of_fmap in Hr as (b' & Heq & Hb').
    injection Heq as _ -> ->. done. }
  assert (∀ b, b ∈ bs → start ≤ sb_height b < start + len bs ∧ valid_stored plb b) as Hbs.
  { intros b Hin. by destruct (linked_from_heights _ _ _ _ _ Hl b Hin). }
  assert (0 ≤ len bs) by (unfold len; lia).
  split.
  - intros h b [[Hin _]|Hb']%Hcase; [by apply Hbs|by eapply Hv].
  - intros h b b' [[Hin ->]|Hold]%Hcase [[Hin' Hh']|Hold']%Hcase.
    + eapply linked_from_next; [done..|lia].
    + apply Hfresh in Hold'. destruct (Hbs b Hin). lia.
    + pose proof (Hfresh _ _ Hold). destruct (Hbs b' Hin').
      assert (h = start - 1) as -> by lia. rewrite (Hprev _ Hold) in Hl.
      eapply linked_from_first; [done|done|lia].
    + by eapply Hln.
  - intros h b Hhb. rewrite Hcur'. apply Hcase in Hhb as [[Hin ->]|Hold].
    + destruct (Hbs b Hin). split; [lia|]. eexists. split; [done|lia].
    + pose proof (Hfresh _ _ Hold). destruct (Hcur _ _ Hold). split; [done|]. eexists. split; [done|lia].
  - intros h h' b c0 Hhb. rewrite Hcur'. intros [= <-] Hh. destruct (decide (start ≤ h')) as [Hge|Hlt].
    + destruct (linked_from_at _ _ _ _ _ h' Hl ltac:(lia)) as (b' & Hin & Hb').
      destruct (linked_from_heights _ _ _ _ _ Hl b' Hin) as (Hc' & _).
      exists b'. apply Hb. left. apply list_elem_of_fmap. exists b'. unfold row_of, block_key. by rewrite Hc', Hb'.
    + apply Hcase in Hhb as [[Hin ->]|Hold]; [destruct (Hbs b Hin); lia|].
      destruct (Hcur _ _ Hold) as (_ & c0 & Hc0 & _). pose proof (Hold0 _ Hc0) as ->.
      destruct (Hg h h' b _ Hold Hc0 ltac:(lia)) as [b' Hb']. exists b'. apply Hb. by right.
Qed.

Lemma store_step limits config chain plb prev start bs db :
  ingest_inv limits db → limits (ac_chain_id chain) = Some plb → is_u32 (ac_chain_id chain) →
  linked_from (ac_chain_id chain) plb prev start bs → bs ≠ [] → 1 ≤ start →
  start + len bs - 1 ≤ u64_max →
  (∀ h b, cache_blocks db !! (ac_chain_id chain, h) = Some b → h < start) →
  (∀ b, cache_blocks db !! (ac_chain_id chain, start - 1) = Some b → prev = Some (sb_hash_le b)) →
  (∀ c0, cursor_of (ac_chain_id chain) db = Some c0 → c0 = start - 1) →
  ∃ db', store_pending config chain start bs db = (Ok (), db') ∧ ingest_inv limits db' ∧
    cursor_of (ac_chain_id chain) db' = Some (start + len bs - 1) ∧
    (∀ k b, cache_blocks db' !! k = Some b → (b ∈ bs ∧ k = block_key b) ∨ cache_blocks db !! k = Some b) ∧
    (∀ b, b ∈ bs →
       (∀ m, cfg_max_kept_blocks config = Some m → start + len bs - 1 - m < sb_height b) →
       cache_blocks db' !! block_key b = Some b).
Proof.
  intros Hinv Hlim Hc Hl Hne Hstart Hmax Hfresh Hprev Hold. set (cid := ac_chain_id chain) in *.
  pose proof Hinv as [[Hco Hf Hsch Hcap] Hpk Hch].
  assert (Forall row_ok (row_of <$> bs)) as Hrows.
  { apply Forall_forall. intros r (b & -> & Hb)%list_elem_of_fmap.
    destruct (linked_from_heights _ _ _ _ _ Hl b Hb) as (Hcb & Hh & Hv).
    eapply valid_row_ok; [done|by rewrite Hcb|unfold is_u64; lia]. }
  destruct (insert_blocks_spec db _ Hco Hrows (linked_rows_agree _ _ _ _ _ _ Hl Hfresh) Hf)
    as (db1 & Hrun1 & Hco1 & Hpk1 & Hb1 & Hm1 & Hi1 & Hf1).
  destruct (last bs) as [lb|] eqn:Hlast; [|by apply last_None in Hlast].
  pose proof (linked_from_last _ _ _ _ _ _ Hl Hlast) as Hlb.
  set (last_ := start + len bs - 1) in *.
  set (db2 := meta_set (cursor_key cid) (pretty last_) db1).
  assert (is_u64 last_) as Hlu.
  { assert (0 < len bs) by (destruct bs; [done|unfold len; cbn; lia]). unfold is_u64, last_ in *. lia. }
  assert (db_inv db2) as Hdb2.
  { apply meta_set_inv; [apply cursor_key_schema|]. by apply (inv_transfer db). }
  assert (∀ c', is_u32 c' → cursor_of c' db2 = if decide (c' = cid) then Some last_ else cursor_of c' db) as Hcur2.
  { intros c' Hc'. unfold db2. rewrite cursor_of_set by done. case_decide; [done|].
    unfold cursor_of. by rewrite Hm1. }
  assert (ingest_inv limits db2) as Hinv2.
  { split; [done|by apply Hpk1|]. intros c' plb' Hl' Hc'. destruct (decide (c' = cid)) as [->|Hne'].
    - assert (plb' = plb) as -> by congruence.
      eapply (chain_inv_extend cid plb prev start bs db); try done; [by apply Hch|].
      rewrite Hcur2 by done. by rewrite decide_True.
    - assert (∀ h b, cache_blocks db2 !! (c', h) = Some b → cache_blocks db !! (c', h) = Some b) as Hsub.
      { intros h b Hhb. apply Hb1 in Hhb as [Hr|?]; [|done].
        apply list_elem_of_fmap in Hr as (b' & Heq & Hb'). injection Heq as -> _ _.
        by destruct (linked_from_heights _ _ _ _ _ Hl b' Hb') as (? & _). }
      eapply chain_inv_same; [by apply Hch| |by rewrite Hcur2, decide_False].
      intros h. apply option_eq. intros b. split; [apply Hsub|]. intros Hhb. apply Hb1. by right. }
  destruct (prune_window_step limits config chain last_ db2 Hinv2) as (db3 & Hrun3 & Hinv3 & Hm3 & Hsub3 & Hkeep).
  exists db3. split_and!; [|done| | |].
  - destruct bs as [|b0 bs']; [done|]. unfold store_pending.
    rewrite (bind_step _ _ _ _ _ Hrun1). rewrite Hlast. cbn [default fmap option_fmap option_map from_option id].
    cbv zeta. rewrite Hlb. fold last_.
    assert (set_cursor_height cid last_ db1 = (Ok (), db2)) as Hset by (by apply set_meta_run).
    fold cid. rewrite (bind_step _ _ _ _ _ Hset). done.
  - unfold cursor_of. rewrite Hm3. fold (cursor_of cid db2). rewrite Hcur2 by done. by rewrite decide_True.
  - intros k b [Hr|?]%Hsub3%Hb1; [left|by right]. apply list_elem_of_fmap in Hr as (b' & Heq & Hb').
    injection Heq as -> ->. done.
  - intros b Hb Hw. apply Hkeep.
    + apply Hb1. left. apply list_elem_of_fmap. by exists b.
    + intros m Hm Hk. by apply Hw.
Qed.

(** ** A tick *)

(** The types of the source: heights and batch sizes are [u64], payloads are in
    memory; a batch holds at least one block. *)
Record typed (config : Config) (chain : AuxChain) (node : Node) : Prop := {
  ty_chain : is_u32 (ac_chain_id chain);
  ty_start : ∀ h, ac_start_height chain = Some h → is_u64 h;
  ty_cfg_start : ∀ h, cfg_start_height config = Some h → is_u64 h;
  ty_batch : 1 ≤ cfg_max_batch config ≤ u64_max;
  ty_tip : ∀ t, tip_height node = Ok t → is_u64 t;
  ty_wire : ∀ h hx w, header_wire node h hx = Ok w → len w ≤ usize_max
}.

(** The hash the first block of the window must link to. *)
Definition prev_at (cid c : Z) (db : Database) : option bytes :=
  if c =? 0 then None else sb_hash_le <$> cache_blocks db !! (cid, c).

Lemma prev_at_run cid c db :
  coherent db →
  (if c =? 0 then mret None else b ← block_at cid c; mret (sb_hash_le <$> b) : M (option bytes)) db
  = (Ok (prev_at cid c db), db).
Proof.
  intros Hco. unfold prev_at. destruct (c =? 0); [done|].
  by rewrite (bind_step _ _ _ _ _ (block_at_run cid c db Hco)).
Qed.

Lemma classify_pending_step limits node db :
  ingest_inv limits db →
  ∃ ms db', classify_pending_parents node db = (Ok ms, db') ∧ ingest_inv limits db' ∧
    cache_blocks db' = cache_blocks db ∧ cache_meta db' = cache_meta db.
Proof.
  intros Hinv. unfold classify_pending_parents. rewrite (bind_step _ _ db db db) by done.
  by apply classify_each_step.
Qed.

(** The state between the rollback and the insertion. *)
Lemma stale_step limits chain (stale : option Z) db :
  ingest_inv limits db → is_u32 (ac_chain_id chain) → (∀ s, stale = Some s → is_u64 s) →
  ∃ db', (match stale with
          | Some h => _ ← rollback_from (ac_chain_id chain) h; mret ()
          | None => mret ()
          end : M unit) db = (Ok (), db') ∧ ingest_inv limits db' ∧
    (∀ k, cache_blocks db' !! k = if match stale with Some s => from_on (ac_chain_id chain) s k | None => false end
                                  then None else cache_blocks db !! k) ∧
    cursor_of (ac_chain_id chain) db' = match stale with
      | Some s => (λ h, if s <=? h then saturating_sub s 1 else h) <$> cursor_of (ac_chain_id chain) db
      | None => cursor_of (ac_chain_id chain) db
      end.
Proof.
  intros Hinv Hc Hs. destruct stale as [s|]; [|by exists db].
  destruct (rollback_step limits (ac_chain_id chain) s db Hinv Hc (Hs s eq_refl))
    as (n & db' & Hrun & Hinv' & Hb & Hcur).
  exists db'. split_and!; [|done..]. by rewrite (bind_step _ _ _ _ _ Hrun).
Qed.

(** What a tick does once its window is fetched: the accepted blocks are stored
    and become the cursor, or the broken block below the window is rolled back,
    or nothing changes. *)
(** Storing what a window yields above the cursor [c], nothing included. *)
Lemma store_window limits config chain c prev bs db :
  ingest_inv limits db → limits (ac_chain_id chain) = Some (ac_pow_limit_bits chain) → is_u32 (ac_chain_id chain) →
  linked_from (ac_chain_id chain) (ac_pow_limit_bits chain) prev (c + 1) bs → 0 ≤ c → c + len bs ≤ u64_max →
  (∀ h b, cache_blocks db !! (ac_chain_id chain, h) = Some b → h < c + 1) →
  (∀ b, cache_blocks db !! (ac_chain_id chain, c) = Some b → prev = Some (sb_hash_le b)) →
  (bs ≠ [] → ∀ c0, cursor_of (ac_chain_id chain) db = Some c0 → c0 = c) →
  ∃ db', store_pending config chain (c + 1) bs db = (Ok (), db') ∧ ingest_inv limits db' ∧
    (bs = [] → db' = db) ∧
    (∀ k b, cache_blocks db' !! k = Some b → (b ∈ bs ∧ k = block_key b) ∨ cache_blocks db !! k = Some b) ∧
    (bs ≠ [] → cursor_of (ac_chain_id chain) db' = Some (c + len bs) ∧
       ∀ b, b ∈ bs → (∀ m, cfg_max_kept_blocks config = Some m → c + len bs - m < sb_height b) →
            cache_blocks db' !! block_key b = Some b).
Proof.
  intros Hinv Hlim Hcid Hl Hc Hmax Hfresh Hprev Hold.
  destruct (decide (bs = [])) as [->|Hbs]; [exists db; split_and!; [done..|by right|done]|].
  destruct (store_step limits config chain (ac_pow_limit_bits chain) prev (c + 1) bs db)
    as (db' & Hrun & Hinv' & Hcur & Hfrom & Hin); try done; try lia.
  - replace (c + 1 - 1) with c by lia. exact Hprev.
  - replace (c + 1 - 1) with c by lia. by apply Hold.
  - replace (c + 1 + len bs - 1) with (c + len bs) in * by lia. exists db'. by split_and!.
Qed.

Lemma ingest_window_step limits config chain node db c items :
  ingest_inv limits db → typed config chain node →
  limits (ac_chain_id chain) = Some (ac_pow_limit_bits chain) →
  0 ≤ c → (∀ c0, cursor_of (ac_chain_id chain) db = Some c0 → c0 = c) →
  items.*1.*1 = seqZ (c + 1) (len items) → c + len items ≤ u64_max → items ≠ [] →
  Forall (λ i, len i.2 ≤ usize_max) items →
  ∃ pending stale ms db',
    walk chain (prev_at (ac_chain_id chain) c db) [] items = (pending, stale) ∧
    ingest_window config chain node c items db = (Ok (mkBatch pending ms), db') ∧
    ingest_inv limits db' ∧
    (∀ k b, cache_blocks db' !! k = Some b →
       (b ∈ pending ∧ k = block_key b) ∨ cache_blocks db !! k = Some b) ∧
    (pending ≠ [] → cursor_of (ac_chain_id chain) db' = Some (c + len pending) ∧
       ∀ b, b ∈ pending →
         (∀ m, cfg_max_kept_blocks config = Some m → c + len pending - m < sb_height b) →
         cache_blocks db' !! block_key b = Some b) ∧
    (pending = [] → match stale with
       | Some s => s = c ∧ c ≠ 0 ∧
           (∀ k, cache_blocks db' !! k
                 = if from_on (ac_chain_id chain) c k then None else cache_blocks db !! k) ∧
           cursor_of (ac_chain_id chain) db'
           = (λ h, if c <=? h then saturating_sub c 1 else h) <$> cursor_of (ac_chain_id chain) db
       | None => cache_blocks db' = cache_blocks db ∧
           cursor_of (ac_chain_id chain) db' = cursor_of (ac_chain_id chain) db
       end).
Proof.
  intros Hinv Hty Hlim Hc0 Hold Hh Hmax Hne Hw. set (cid := ac_chain_id chain) in *.
  assert (∀ h b, cache_blocks db !! (cid, h) = Some b → h ≤ c) as Hbelow.
  { intros h b Hb. destruct (ci_cursor _ _ _ (ii_chains _ _ Hinv _ _ Hlim (ty_chain _ _ _ Hty)) h b Hb)
      as (_ & c0 & Hc0' & Hle). by rewrite (Hold c0 Hc0') in Hle. }
  assert (0 < len items) as Hpos by (destruct items; [done|unfold len; cbn; lia]).
  destruct (walk_spec chain items (prev_at cid c db) (c + 1) [] Hh Hw)
    as (bs & stale & Hwalk & Hl & Hle & Hst). cbn [app] in Hwalk.
  assert (0 ≤ len bs) as Hbs0 by (unfold len; lia).
  assert (∀ s, stale = Some s → s = c + len bs) as Hs.
  { intros s ->. destruct Hst as (-> & _). unfold saturating_sub. lia. }
  destruct (stale_step limits chain stale db Hinv (ty_chain _ _ _ Hty)) as (db1 & Hrun1 & Hinv1 & Hb1 & Hcur1).
  { intros s Hs'%Hs. unfold is_u64. lia. }
  assert (∀ k b, cache_blocks db1 !! k = Some b → cache_blocks db !! k = Some b) as Hsub1.
  { intros k b. rewrite Hb1. destruct stale as [s|]; [by destruct (from_on _ _ _)|done]. }
  assert (u64_saturating_add c 1 = c + 1) as Hsat by (unfold u64_saturating_add; lia).
  destruct (store_window limits config chain c (prev_at cid c db) bs db1)
    as (db2 & Hrun2 & Hinv2 & Hnil & Hfrom & Hcons); try done; try lia; [apply Hty|..].
  { intros h b Hhb%Hsub1%Hbelow. lia. }
  { intros b Hb. unfold prev_at.
    destruct (c =? 0) eqn:Hz; reflect_bools; [|apply Hsub1 in Hb; fold cid in Hb; by rewrite Hb]. exfalso.
    destruct Hinv1 as [_ _ Hch1]. destruct (ci_cursor _ _ _ (Hch1 _ _ Hlim (ty_chain _ _ _ Hty)) c b Hb). lia. }
  { intros Hbs c0. fold cid. fold cid in Hcur1. rewrite Hcur1. destruct stale as [s|].
    - rewrite (Hs s eq_refl). intros (c1 & Hc1 & ->)%fmap_Some. pose proof (Hold _ Hc1) as ->.
      assert (0 < len bs) by (destruct bs; [done|unfold len; cbn; lia]).
      destruct (c + len bs <=? c) eqn:?; reflect_bools; lia.
    - intros Hc1%Hold. lia. }
  destruct (classify_pending_step limits node db2 Hinv2) as (ms & db3 & Hrun3 & Hinv3 & Hb3 & Hm3).
  assert (cursor_of cid db3 = cursor_of cid db2) as Hcur3 by (unfold cursor_of; by rewrite Hm3).
  exists bs, stale, ms, db3. split_and!; [done| |done| | |].
  - unfold ingest_window. rewrite (bind_step _ _ _ _ _ (prev_at_run cid c db (inv_coherent _ (ii_db _ _ Hinv)))).
    rewrite Hwalk, (bind_step _ _ _ _ _ Hrun1), Hsat, (bind_step _ _ _ _ _ Hrun2), (bind_step _ _ _ _ _ Hrun3).
    done.
  - intros k b. rewrite Hb3. intros [?|?%Hsub1]%Hfrom; [by left|by right].
  - rewrite Hcur3, Hb3. done.
  - intros Hbs. specialize (Hnil Hbs). subst db2 bs. rewrite Hb3, Hcur3. destruct stale as [s|].
    + pose proof (Hs s eq_refl) as ->. destruct Hst as (_ & _ & Hprev).
      replace (c + len ([] : list StoredBlock)) with c in * by (unfold len; cbn; lia).
      split_and!; [done| |done|done]. destruct (Hprev eq_refl) as [p Hp]. unfold prev_at in Hp.
      destruct (c =? 0) eqn:Hz; [done|]. by reflect_bools.
    + split; [|done]. apply map_eq. apply Hb1.
Qed.

(** ** A whole tick *)

Lemma start_cursor_run config chain node db :
  coherent db → typed config chain node →
  (∃ t, start_cursor config chain db = (Err (DbAnyhow t), db) ∧ cursor_of (ac_chain_id chain) db = None) ∨
  (∃ c, start_cursor config chain db = (Ok c, db) ∧ is_u64 c ∧
        (∀ c0, cursor_of (ac_chain_id chain) db = Some c0 → c0 = c)).
Proof.
  intros Hco Hty. unfold start_cursor.
  rewrite (bind_step _ _ _ _ _ (cursor_of_run (ac_chain_id chain) db Hco)).
  destruct (cursor_of (ac_chain_id chain) db) as [c|] eqn:Hc.
  { right. exists c. split_and!; [done|by eapply cursor_of_range|]. by intros c0 [= ->]. }
  destruct (ac_start_height chain) as [h|] eqn:Hs; [right; exists h; split_and!; [done|by eapply ty_start|done]|].
  destruct (cfg_start_height config) as [h|] eqn:Hs2; [right; exists h; split_and!; [done|by eapply ty_cfg_start|done]|].
  left. by eexists.
Qed.

(** The tick's window, when it is not empty. *)
Lemma window_bounds c batch tip :
  is_u64 c → 1 ≤ batch ≤ u64_max → is_u64 tip → c ≤ tip →
  Z.min (u64_wrap (c + batch)) tip < u64_saturating_add c 1 ∨
  u64_saturating_add c 1 = c + 1 ∧ c + 1 ≤ Z.min (u64_wrap (c + batch)) tip ∧ c < u64_max.
Proof.
  unfold is_u64, u64_saturating_add, u64_wrap. intros Hc Hb Ht Hle.
  destruct (decide (c + batch ≤ u64_max)).
  - assert ((c + batch) mod 2 ^ 64 = c + batch) as -> by (apply Z.mod_small; unfold u64_max in *; lia). lia.
  - assert ((c + batch) mod 2 ^ 64 = c + batch - 2 ^ 64) as ->.
    { symmetry. apply (Z.mod_unique _ _ 1); unfold u64_max in *; lia. }
    unfold u64_max in *. lia.
Qed.

Lemma fetch_items config chain node hs items :
  typed config chain node → fetch node hs = Ok items →
  items.*1.*1 = hs ∧ len items = len hs ∧ Forall (λ i, len i.2 ≤ usize_max) items.
Proof.
  intros Hty Hf. pose proof (fetch_heights _ _ _ Hf) as Hh. split_and!; [done| |].
  - rewrite <-Hh. unfold len. by rewrite !length_fmap.
  - unfold fetch in Hf. apply bind_Ok in Hf as (hashes & _ & Hw%mapM_result_Forall2).
    apply Forall_forall. intros i Hi. apply list_elem_of_lookup in Hi as [n Hn].
    destruct (Forall2_lookup_r _ _ _ _ _ Hw Hn) as (e & _ & (w & He & [= <-])%bind_Ok). cbn. by eapply ty_wire.
Qed.

Lemma len_seqZ s n : 0 ≤ n → len (seqZ s n) = n.
Proof. intros. unfold len. rewrite length_seqZ. lia. Qed.

(** Any tick of a configured chain keeps the invariant: it fails, or finds
    nothing to do, or processes its window. *)
Lemma ingest_chain_step limits config chain node db :
  ingest_inv limits db → typed config chain node →
  limits (ac_chain_id chain) = Some (ac_pow_limit_bits chain) →
  ∃ r db', ingest_chain config chain node db = (r, db') ∧ ingest_inv limits db' ∧ r ≠ Err DbPanic ∧
    (∀ batch b, r = Ok batch → b ∈ batch_blocks batch → valid_stored (ac_pow_limit_bits chain) b).
Proof.
  intros Hinv Hty Hlim. unfold ingest_chain.
  destruct (upsert_step limits (ac_chain_id chain) (ac_name chain) (ac_electrs chain) db Hinv)
    as (db1 & Hrun1 & Hinv1 & _). rewrite (bind_step _ _ _ _ _ Hrun1).
  destruct (tip_height node) as [tip|e] eqn:Ht; cbn [liftR]; [|by eexists _, db1; split_and!].
  rewrite (bind_step _ _ db1 tip db1) by done.
  destruct (start_cursor_run config chain node db1 (inv_coherent _ (ii_db _ _ Hinv1)) Hty)
    as [(t & Hrun2 & _)|(c & Hrun2 & Hc & Hold)].
  { unfold mbind, M_bind. rewrite Hrun2. by eexists _, db1; split_and!. }
  rewrite (bind_step _ _ _ _ _ Hrun2). destruct (tip <? c) eqn:Htc; [eexists _, db1; split_and!; [done|done|done|]; intros ? ? [= <-]; set_solver|]. reflect_bools.
  cbv zeta. destruct (_ <? u64_saturating_add c 1) eqn:Hend; [eexists _, db1; split_and!; [done|done|done|]; intros ? ? [= <-]; set_solver|]. reflect_bools.
  pose proof (ty_tip _ _ _ Hty _ Ht) as Htip.
  destruct (window_bounds c (cfg_max_batch config) tip Hc (ty_batch _ _ _ Hty) Htip Htc) as [?|(Hs & Hle & Hlt)];
    [lia|].
  destruct (fetch node _) as [items|e] eqn:Hf; cbn [liftR]; [|by eexists _, db1; split_and!].
  rewrite (bind_step _ _ db1 items db1) by done.
  destruct (fetch_items config chain node _ _ Hty Hf) as (Hh & Hlen & Hw). rewrite Hs in Hh, Hlen.
  unfold window in Hh, Hlen. set (end_ := Z.min _ tip) in *.
  assert (len items = end_ - (c + 1) + 1) as Hl by (rewrite Hlen; apply len_seqZ; lia).
  destruct (ingest_window_step limits config chain node db1 c items) as (pd & st & ms & db2 & Hwalk & Hrun & Hinv2 & _);
    try done.
  - unfold is_u64 in *. lia.
  - rewrite Hl. done.
  - rewrite Hl. unfold end_, is_u64 in *. lia.
  - intros ->. unfold len in Hl. cbn in Hl. lia.
  - eexists _, db2. split_and!; [exact Hrun|done|done|]. intros batch b [= <-] Hb. cbn in Hb.
    rewrite <-Hl in Hh.
    destruct (walk_spec chain items (prev_at (ac_chain_id chain) c db1) (c + 1) [] Hh Hw)
      as (bs & stale & Hwalk' & Hlk & _).
    rewrite Hwalk in Hwalk'. injection Hwalk' as -> ->.
    by destruct (linked_from_heights _ _ _ _ _ Hlk b Hb) as (_ & _ & ?).
Qed.

(** ** Announcements *)

Lemma get_parent_run p db : coherent db → get_parent p db = (Ok (cache_parents db !! p), db).
Proof.
  intros Hco. unfold get_parent. rewrite (bind_step _ _ db db db) by done.
  destruct (cache_parents db !! p) as [sp|] eqn:Hp; [done|].
  assert (t_parents (disk db) !! p = None) as ->; [|done].
  rewrite (co_parents _ Hco), lookup_fmap.
  destruct (filter classified (cache_parents db) !! p) as [sp|] eqn:Hf; [|done].
  apply map_lookup_filter_Some in Hf as [Hf _]. congruence.
Qed.

Lemma announce_group_step p2p announced p db :
  coherent db → ∃ announced' m, announce_sibling_group p2p announced p db = (Ok (announced', m), db).
Proof.
  intros Hco. unfold announce_sibling_group. destruct p2p; cbn [negb]; [|by eexists _, _].
  case_bool_decide; [by eexists _, _|]. cbv zeta.
  rewrite (bind_step _ _ db (Ok (cache_parents db !! p)) db) by (unfold try; by rewrite get_parent_run).
  destruct (cache_parents db !! p) as [sp|]; [|by eexists _, _].
  destruct (sp_ltc_height sp); [|by eexists _, _].
  rewrite (bind_step _ _ db db db) by done. cbv zeta. destruct (_ <? 2); by eexists _, _.
Qed.

Lemma announce_groups_step p2p ps db : coherent db → ∀ announced,
  ∃ announced' ms, announce_groups p2p announced ps db = (Ok (announced', ms), db).
Proof.
  intros Hco. induction ps as [|p ps IH]; intros announced; [by eexists _, _|]. cbn [announce_groups].
  destruct (announce_group_step p2p announced p db Hco) as (an & m & Hrun).
  rewrite (bind_step _ _ _ _ _ Hrun). destruct (IH an) as (an' & ms & Hrun').
  rewrite (bind_step _ _ _ _ _ Hrun'). by eexists _, _.
Qed.

Lemma announce_tip_step p2p plb chain batch db :
  coherent db → (∀ b, b ∈ batch_blocks batch → valid_stored plb b) →
  ∃ m, announce_batch_tip p2p chain batch db = (Ok m, db).
Proof.
  intros Hco Hv. unfold announce_batch_tip, head. destruct (last (batch_blocks batch)) as [h|] eqn:Hl;
    [|by eexists]. destruct p2p; [|by eexists].
  apply last_Some in Hl as [l Hl]. destruct (Hv h) as (w & a & _ & _ & _ & Ha & _).
  { rewrite Hl. set_solver. }
  unfold parent_hash_of, db_parent_hash. rewrite Ha. cbn [fmap option_fmap option_map].
  rewrite (bind_step _ _ db (Ok (cache_parents db !! sha256d (parent_header a))) db)
    by (unfold try; by rewrite get_parent_run).
  by eexists.
Qed.

Lemma backoff_delay_bound config n jitter delay :
  0 ≤ rt_base_backoff (cfg_retry config) → 0 ≤ rt_max_backoff (cfg_retry config) →
  backoff_delay config n jitter = Some delay → 0 ≤ delay ≤ Z.max 250 (rt_max_backoff (cfg_retry config)).
Proof.
  intros Hb Hm. unfold backoff_delay. cbv zeta. set (capped := Z.min _ _).
  assert (0 ≤ capped ≤ rt_max_backoff (cfg_retry config)).
  { unfold capped. assert (0 ≤ u32_max) by (vm_compute; discriminate).
    assert (0 ≤ 2 ^ Z.min n 12) by (apply Z.pow_nonneg; lia). nia. }
  destruct (capped =? 0); [intros [= <-]; lia|]. intros Hj%jittered_bound; lia.
Qed.

(** The delay panics for a cap of the last [u64] of milliseconds only, and whatever the
    random number. *)
Lemma backoff_delay_Some config n jitter :
  0 ≤ rt_base_backoff (cfg_retry config) → 0 ≤ rt_max_backoff (cfg_retry config) < u64_max →
  ∃ delay, backoff_delay config n jitter = Some delay.
Proof.
  intros Hb Hm. unfold backoff_delay. cbv zeta. set (capped := Z.min _ _).
  assert (0 ≤ capped ≤ rt_max_backoff (cfg_retry config)).
  { unfold capped. assert (0 ≤ u32_max) by (vm_compute; discriminate).
    assert (0 ≤ 2 ^ Z.min n 12) by (apply Z.pow_nonneg; lia). nia. }
  destruct (capped =? 0); [by eexists|]. apply jittered_Some. lia.
Qed.
Lemma backoff_delay_None config n jitter jitter' :
  backoff_delay config n jitter = None → backoff_delay config n jitter' = None.
Proof. unfold backoff_delay, jittered. cbv zeta. destruct (_ =? 0); [done|]. by destruct (_ =? 0). Qed.

(** A round panics, whatever the node answers, only where its delay does: a failure
    is counted and delays the next round. *)
Lemma chain_round_cases limits config chain p2p jitter node st db :
  ingest_inv limits db → typed config chain node →
  limits (ac_chain_id chain) = Some (ac_pow_limit_bits chain) →
  (∃ st' msgs delay db', chain_round config chain p2p jitter node st db = Some (st', msgs, delay, db') ∧
    ingest_inv limits db' ∧
    match (ingest_chain config chain node db).1 with
    | Ok _ => failures st' = 0 ∧ delay = cfg_poll_interval config
    | Err _ => failures st' = u32_wrap (failures st + 1) ∧ announced_set st' = announced_set st ∧
               msgs = [] ∧ backoff_delay config (failures st') jitter = Some delay
    end) ∨
  (chain_round config chain p2p jitter node st db = None ∧
   backoff_delay config (u32_wrap (failures st + 1)) jitter = None).
Proof.
  intros Hinv Hty Hlim. destruct (ingest_chain_step limits config chain node db Hinv Hty Hlim)
    as (r & db1 & Hrun & Hinv1 & Hno & Hval). unfold chain_round. rewrite Hrun. cbn [fst].
  pose proof (inv_coherent _ (ii_db _ _ Hinv1)) as Hco.
  destruct r as [batch|e].
  2: { destruct (backoff_delay config (u32_wrap (failures st + 1)) jitter) as [delay|] eqn:Hd.
       - left. eexists _, _, delay, db1. split_and!; [by destruct e|done..].
       - right. split; [by destruct e|done]. }
  left. specialize (Hval batch).
  assert (∃ m, match batch_blocks batch with [] => (Ok None, db1)
               | _ => announce_batch_tip p2p chain batch db1 end = (Ok m, db1)) as [m Hm].
  { destruct (announce_tip_step p2p (ac_pow_limit_bits chain) chain batch db1 Hco) as [m Hm].
    { intros b. by apply Hval. }
    destruct (batch_blocks batch); [by eexists|by exists m]. }
  rewrite Hm. destruct (announce_groups_step p2p (new_mainnet_parents batch) db1 Hco (announced_set st))
    as (an & ms & Hg). rewrite Hg. eexists _, _, _, db1. split_and!; done.
Qed.

Lemma chain_round_inv limits config chain p2p jitter node st db st' msgs delay db' :
  ingest_inv limits db → typed config chain node →
  limits (ac_chain_id chain) = Some (ac_pow_limit_bits chain) →
  chain_round config chain p2p jitter node st db = Some (st', msgs, delay, db') → ingest_inv limits db'.
Proof.
  intros Hinv Hty Hlim Hrun.
  destruct (chain_round_cases limits config chain p2p jitter node st db Hinv Hty Hlim)
    as [(? & ? & ? & ? & Hrun' & Hinv' & _)|[Hn _]]; [|congruence].
  rewrite Hrun in Hrun'. by injection Hrun' as -> -> -> ->.
Qed.

(** ** What classification records *)

(** The height recorded for a parent: a failed resolution is none. *)
Definition resolved (node : Node) (p : bytes) : option Z :=
  match resolve_parent node p with Ok o => o | Err _ => None end.

Definition classify_as (lh : option Z) (sp : StoredParent) : StoredParent :=
  mkParent (sp_parent_hash_le sp) (sp_parent_header sp) lh (if lh is Some _ then 1 else 2) (sp_work sp).

Lemma classify_each_spec node ps db :
  coherent db → faults db = [] →
  ∃ db', classify_each node ps db
    = (Ok (List.filter (λ p, bool_decide (is_Some (resolved node p))) ps), db') ∧
    coherent db' ∧ faults db' = [] ∧ cache_blocks db' = cache_blocks db ∧
    ∀ p, cache_parents db' !! p =
      if decide (p ∈ ps) then classify_as (resolved node p) <$> cache_parents db !! p
      else cache_parents db !! p.
Proof.
  revert db. induction ps as [|q ps IH]; intros db Hco Hf.
  { by exists db. }
  cbn [classify_each]. fold (resolved node q).
  destruct (classify_run q (resolved node q) db Hco Hf) as (db1 & Hrun & Hco1 & Hf1 & Hb1 & _ & _ & _ & Hp1).
  destruct (IH db1 Hco1 Hf1) as (db2 & Hrun2 & Hco2 & Hf2 & Hb2 & Hp2). exists db2. split_and!; try done.
  - rewrite (bind_step _ _ _ _ _ Hrun), (bind_step _ _ _ _ _ Hrun2). cbn [List.filter].
    destruct (resolved node q) as [h|]; [by rewrite bool_decide_true|by rewrite bool_decide_false by apply is_Some_None].
  - congruence.
  - intros p. rewrite Hp2, Hp1. destruct (decide (q = p)) as [<-|Hne].
    + rewrite lookup_alter_eq, (decide_True (P := q ∈ q :: ps)) by apply list_elem_of_here.
      destruct (decide (q ∈ ps)); destruct (cache_parents db !! q); done.
    + rewrite lookup_alter_ne by done. destruct (decide (p ∈ ps)) as [Hin|Hin].
      * by rewrite decide_True by (by apply list_elem_of_further).
      * rewrite decide_False; [done|]. by intros [->|?]%elem_of_cons.
Qed.
End ingest_lemmas.
