(* ===== verification/IngestSync.v ===== *)
(** * Ingestion: synchronisation with an honest node

    The ticks of a chain whose node serves one valid chain of blocks: a stored tip
    on another branch is rolled back one block per tick, a stored tip on the
    node's chain (or an empty store) is extended by a whole window. *)

From S2P Require Export IngestSpec.

#[local] Open Scope Z_scope.

Section sync.
Context `{Sha256} `{HexCodec} `{Codec}.

(** The node serves the valid blocks [canon h] for [lo < h ≤ tip], each linked to
    the one below. *)
Record honest (chain : AuxChain) (node : Node) (canon : Z → StoredBlock) (lo tip : Z) : Prop := {
  hn_lo : 0 ≤ lo ≤ tip;
  hn_tip : tip_height node = Ok tip;
  hn_block : ∀ h, lo < h ≤ tip → ∃ hx w id b,
    block_hash_at node h = Ok hx ∧ header_wire node h hx = Ok w ∧
    check_wire chain hx w = Some (id, b) ∧ canon h = stored_of chain h id b;
  hn_linked : ∀ h, lo < h → h + 1 ≤ tip → prev_of (canon (h + 1)) = sb_hash_le (canon h)
}.

(** The item [i] of a window, as an honest node serves it. *)
Definition canon_item (chain : AuxChain) (canon : Z → StoredBlock) (h : Z) (i : Z * string * bytes) : Prop :=
  i.1.1 = h ∧ ∃ id b, check_wire chain i.1.2 i.2 = Some (id, b) ∧ canon h = stored_of chain h id b.

Lemma mapM_result_ok {A B} (f : A → Result string B) l (P : A → B → Prop) :
  (∀ x, x ∈ l → ∃ y, f x = Ok y ∧ P x y) → ∃ k, mapM_result f l = Ok k ∧ Forall2 P l k.
Proof.
  induction l as [|x l IH]; intros Hall; [by exists []; split; [|constructor]|]. cbn.
  destruct (Hall x (list_elem_of_here x l)) as (y & -> & Hy).
  destruct IH as (k & -> & Hk); [intros z Hz; apply Hall; by right|].
  exists (y :: k). by split; [|constructor].
Qed.

Lemma honest_fetch chain node canon lo tip s n :
  honest chain node canon lo tip → lo < s → s + n - 1 ≤ tip →
  ∃ items, fetch node (seqZ s n) = Ok items ∧ Forall2 (canon_item chain canon) (seqZ s n) items.
Proof.
  intros Hon Hs Hn. unfold fetch.
  set (P := λ h (e : Z * string), e.1 = h ∧ block_hash_at node h = Ok e.2 ∧ lo < h ≤ tip).
  destruct (mapM_result_ok (λ h, hx ← block_hash_at node h; Ok (h, hx)) (seqZ s n) P)
    as (hashes & -> & Hh).
  { intros h Hin%elem_of_seqZ. destruct (hn_block _ _ _ _ _ Hon h ltac:(lia)) as (hx & _ & _ & _ & Hhx & _).
    exists (h, hx). rewrite Hhx. unfold P. cbn. split_and!; [done..|lia|lia]. }
  cbn [mbind Result_bind].
  destruct (mapM_result_ok (λ e : Z * string, w ← header_wire node e.1 e.2; Ok (e.1, e.2, w)) hashes
              (λ e i, canon_item chain canon e.1 i)) as (items & -> & Hi).
  { intros [h hx] Hin. apply list_elem_of_lookup in Hin as [k Hk].
    destruct (Forall2_lookup_r _ _ _ _ _ Hh Hk) as (h' & _ & Hh' & Hbh & Hr). cbn in *. subst h'.
    destruct (hn_block _ _ _ _ _ Hon h Hr) as (hx' & w & id & b & Hbh' & Hw & Hc & Hcan).
    assert (hx' = hx) as -> by congruence. exists (h, hx, w). rewrite Hw. split; [done|].
    split; [done|]. by exists id, b. }
  exists items. split; [done|]. clear -Hh Hi. revert items Hi.
  induction Hh as [|h e hs es [He _] Hhs IH]; intros items Hi; inversion Hi; subst; constructor; auto.
Qed.

Lemma canon_prev chain canon h i id b :
  canon_item chain canon h i → check_wire chain i.1.2 i.2 = Some (id, b) →
  slice (ab_base b) 4 36 = prev_of (canon h) ∧ sb_hash_le (canon h) = id ∧ stored_of chain h id b = canon h.
Proof. intros [_ (id' & b' & Hc & Hcan)] Hc'. rewrite Hc in Hc'. injection Hc' as -> ->. by rewrite Hcan. Qed.

(** An honest window linked to [prev] is accepted in full. *)
Lemma walk_honest chain canon n : ∀ s prev pending items,
  Forall2 (canon_item chain canon) (seqZ s n) items → 0 ≤ n →
  (∀ p, prev = Some p → 0 < n → prev_of (canon s) = p) →
  (∀ h, s ≤ h → h + 1 < s + n → prev_of (canon (h + 1)) = sb_hash_le (canon h)) →
  walk chain prev pending items = (pending ++ (canon <$> seqZ s n), None).
Proof.
  intros s prev pending items Hi Hn. revert s prev pending items Hi. pattern n.
  apply natlike_ind; [|clear n Hn|done].
  - intros s prev pending items Hi _ _. cbn in Hi. inversion Hi; subst. cbn. by rewrite app_nil_r.
  - intros n Hn IH s prev pending items Hi Hprev Hlink. rewrite seqZ_cons in Hi |- * by lia.
    rewrite Z.pred_succ in Hi |- *. inversion Hi as [|? [[h lc] w] ? items' Hc Hcs]; subst.
    cbn [walk]. destruct Hc as [Hh Hc0]. cbn in Hh. subst h. pose proof Hc0 as (id & b & Hcw & _). cbn in Hcw.
    rewrite Hcw. destruct (canon_prev chain canon s (s, lc, w) id b) as (Hp & Hid & Hst); [by split|done|].
    rewrite Hp.
    assert (match prev with Some p => bool_decide (prev_of (canon s) ≠ p) | None => false end = false) as ->.
    { destruct prev as [p|]; [|done]. apply bool_decide_eq_false. intros Hne. apply Hne, Hprev; [done|lia]. }
    rewrite Hst, (IH (Z.succ s)).
    + cbn. by rewrite <-app_assoc.
    + done.
    + intros p [= <-] Hn0. rewrite <-Hid. replace (Z.succ s) with (s + 1) by lia. apply Hlink; lia.
    + intros h Hsh Hh. apply Hlink; lia.
Qed.

(** A window not linked to [prev] stops at its first block. *)
Lemma walk_broken chain canon n s p items :
  Forall2 (canon_item chain canon) (seqZ s n) items → 0 < n → prev_of (canon s) ≠ p →
  walk chain (Some p) [] items = ([], Some (saturating_sub s 1)).
Proof.
  intros Hi Hn Hp. rewrite seqZ_cons in Hi by lia. inversion Hi as [|? [[h lc] w] ? items' Hc Hcs]; subst.
  cbn [walk]. pose proof Hc as [Hh (id & b & Hcw & _)]. cbn in Hh, Hcw. subst h. rewrite Hcw.
  destruct (canon_prev chain canon s (s, lc, w) id b Hc Hcw) as (-> & _).
  by rewrite bool_decide_true.
Qed.

(** ** The tick against an honest node *)

Section tick.
Context (limits : Z → option Z) (config : Config) (chain : AuxChain) (node : Node).
Context (canon : Z → StoredBlock) (lo tip : Z).
Context (Hty : typed config chain node) (Hon : honest chain node canon lo tip).
Context (Hlim : limits (ac_chain_id chain) = Some (ac_pow_limit_bits chain)).
Context (Hbatch : tip + cfg_max_batch config ≤ u64_max).
Context (Hkept : ∀ m, cfg_max_kept_blocks config = Some m → 1 ≤ m).

#[local] Abbreviation cid := (ac_chain_id chain).

(** The stores the ticks go through: a cursor [c], nothing stored at [lo] or
    below. *)
Record at_cursor (c : Z) (db : Database) : Prop := {
  ac_inv : ingest_inv limits db;
  ac_cursor : cursor_of cid db = Some c;
  ac_range : lo ≤ c ≤ tip;
  ac_above : ∀ h b, cache_blocks db !! (cid, h) = Some b → lo < h
}.

(** The stored tip is on the node's chain, or nothing is stored. *)
Definition on_chain (c : Z) (db : Database) : Prop :=
  ∀ b, cache_blocks db !! (cid, c) = Some b → sb_hash_le b = sb_hash_le (canon c).

Definition tick (db : Database) : Database := (ingest_chain config chain node db).2.

(** One tick with work to do reaches the window, which the node serves. *)
Lemma tick_window c db :
  at_cursor c db → c < tip →
  let e := Z.min (c + cfg_max_batch config) tip in
  ∃ items db1, Forall2 (canon_item chain canon) (seqZ (c + 1) (e - c)) items ∧
    ingest_chain config chain node db = ingest_window config chain node c items db1 ∧
    at_cursor c db1 ∧ cache_blocks db1 = cache_blocks db ∧ len items = e - c ∧
    items.*1.*1 = seqZ (c + 1) (len items) ∧ Forall (λ i, len i.2 ≤ usize_max) items.
Proof.
  intros [Hinv Hcur Hr Hab] Hct e. unfold ingest_chain.
  destruct (upsert_step limits cid (ac_name chain) (ac_electrs chain) db Hinv)
    as (db1 & Hrun1 & Hinv1 & Hb1 & _ & Hcur1). rewrite (bind_step _ _ _ _ _ Hrun1).
  rewrite (hn_tip _ _ _ _ _ Hon). cbn [liftR]. rewrite (bind_step _ _ db1 tip db1) by done.
  assert (cursor_of cid db1 = Some c) as Hc1 by (rewrite Hcur1; [done|apply Hty]).
  assert (start_cursor config chain db1 = (Ok c, db1)) as Hrun2.
  { unfold start_cursor. rewrite (bind_step _ _ _ _ _ (cursor_of_run cid db1 (inv_coherent _ (ii_db _ _ Hinv1)))).
    by rewrite Hc1. }
  rewrite (bind_step _ _ _ _ _ Hrun2). destruct (tip <? c) eqn:Htc; reflect_bools; [lia|]. cbv zeta.
  pose proof (ty_batch _ _ _ Hty). pose proof (hn_lo _ _ _ _ _ Hon).
  assert (u64_wrap (c + cfg_max_batch config) = c + cfg_max_batch config) as ->.
  { apply Z.mod_small. unfold u64_max in *. lia. }
  assert (u64_saturating_add c 1 = c + 1) as -> by (unfold u64_saturating_add, u64_max in *; lia).
  fold e. destruct (e <? c + 1) eqn:He; reflect_bools; [lia|].
  unfold window. replace (e - (c + 1) + 1) with (e - c) by lia.
  destruct (honest_fetch chain node canon lo tip (c + 1) (e - c) Hon) as (items & Hf & Hit); [lia..|].
  destruct (fetch_items config chain node _ _ Hty Hf) as (Hh & Hlen & Hw).
  rewrite len_seqZ in Hlen by lia. rewrite Hf. cbn [liftR]. rewrite (bind_step _ _ db1 items db1) by done.
  exists items, db1. split_and!; try done; [|by rewrite Hlen].
  split; [done..|]. intros h b. rewrite Hb1. apply Hab.
Qed.

(** A tick on a linked store ingests the whole window. *)
Lemma tick_extend c db :
  at_cursor c db → c < tip → on_chain c db →
  let e := Z.min (c + cfg_max_batch config) tip in
  at_cursor e (tick db) ∧ cache_blocks (tick db) !! (cid, e) = Some (canon e) ∧ on_chain e (tick db).
Proof.
  intros Hat Hct Hoc e. destruct (tick_window c db Hat Hct) as (items & db1 & Hit & Hrun & Hat1 & Hb1 & Hlen & Hh & Hw).
  fold e in Hit, Hlen. pose proof (ty_batch _ _ _ Hty) as Hbt. pose proof (hn_lo _ _ _ _ _ Hon) as Hlo.
  pose proof (ac_range _ _ Hat) as Hr.
  destruct (ingest_window_step limits config chain node db1 c items) as (pd & st & ms & db2 & Hwalk & Hrun2 & Hinv2 & Hfrom & Hpd & _);
    try done.
  - apply Hat1.
  - lia.
  - intros c0. rewrite (ac_cursor _ _ Hat1). by intros [= ->].
  - rewrite Hlen. unfold u64_max in *. lia.
  - intros ->. unfold len in Hlen. cbn in Hlen. lia.
  - assert (tick db = db2) as -> by (unfold tick; by rewrite Hrun, Hrun2).
    rewrite (walk_honest chain canon (e - c) (c + 1)) in Hwalk; [|done|lia| |].
    + injection Hwalk as <- <-. cbn [app] in *.
      assert (len (canon <$> seqZ (c + 1) (e - c)) = e - c) as Hl.
      { unfold len. rewrite length_fmap. apply len_seqZ. lia. }
      rewrite Hl in Hpd. replace (c + (e - c)) with e in Hpd by lia.
      destruct Hpd as [Hcur Hst]; [intros Hnil; rewrite Hnil in Hl; unfold len in Hl; cbn in Hl; lia|].
      assert (cache_blocks db2 !! (cid, e) = Some (canon e)) as Htip.
      { destruct (hn_block _ _ _ _ _ Hon e ltac:(lia)) as (_ & _ & id & b & _ & _ & _ & Hcan).
        replace (cid, e) with (block_key (canon e)) by (by rewrite Hcan). apply Hst.
        - apply list_elem_of_fmap. exists e. split; [done|]. apply elem_of_seqZ. lia.
        - intros m Hm%Hkept. rewrite Hcan. cbn. lia. }
      split_and!; [|done|].
      * split; [done..|lia|]. intros h b Hb.
        apply Hfrom in Hb as [[Hin Hk]|Hb]; [|by apply (ac_above _ _ Hat1) in Hb].
        apply list_elem_of_fmap in Hin as (h' & -> & Hin%elem_of_seqZ).
        destruct (hn_block _ _ _ _ _ Hon h' ltac:(lia)) as (_ & _ & id & b & _ & _ & _ & Hcan).
        rewrite Hcan in Hk. injection Hk as ->. cbn. lia.
      * intros b. rewrite Htip. by intros [= <-].
    + intros p Hp _. unfold prev_at in Hp. rewrite Hb1 in Hp. destruct (c =? 0); [done|].
      apply fmap_Some in Hp as (b & Hb & ->). rewrite (Hoc b Hb).
      apply (hn_linked _ _ _ _ _ Hon); [|lia]. by apply (ac_above _ _ Hat c b).
    + intros h Hsh Hlt. apply (hn_linked _ _ _ _ _ Hon); lia.
Qed.

(** A tick on a store whose tip is on another branch rolls that block back. *)
Lemma tick_rollback c db b :
  at_cursor c db → c < tip → cache_blocks db !! (cid, c) = Some b →
  sb_hash_le b ≠ sb_hash_le (canon c) →
  at_cursor (c - 1) (tick db) ∧
  (∀ k, cache_blocks (tick db) !! k = if from_on cid c k then None else cache_blocks db !! k).
Proof.
  intros Hat Hct Hb Hne. destruct (tick_window c db Hat Hct) as (items & db1 & Hit & Hrun & Hat1 & Hb1 & Hlen & Hh & Hw).
  set (e := Z.min _ tip) in *. pose proof (ty_batch _ _ _ Hty) as Hbt. pose proof (hn_lo _ _ _ _ _ Hon) as Hlo.
  pose proof (ac_range _ _ Hat) as Hr. pose proof (ac_above _ _ Hat _ _ Hb) as Hloc.
  destruct (ingest_window_step limits config chain node db1 c items)
    as (pd & st & ms & db2 & Hwalk & Hrun2 & Hinv2 & Hfrom & _ & Hpd); try done.
  - apply Hat1.
  - lia.
  - intros c0. rewrite (ac_cursor _ _ Hat1). by intros [= ->].
  - rewrite Hlen. unfold u64_max in *. lia.
  - intros ->. unfold len in Hlen. cbn in Hlen. lia.
  - assert (tick db = db2) as -> by (unfold tick; by rewrite Hrun, Hrun2).
    assert (prev_at cid c db1 = Some (sb_hash_le b)) as Hprev.
    { unfold prev_at. destruct (c =? 0) eqn:?; reflect_bools; [lia|]. by rewrite Hb1, Hb. }
    rewrite Hprev, (walk_broken chain canon (e - c) (c + 1)) in Hwalk; [|done|lia|].
    + injection Hwalk as <- <-. destruct (Hpd eq_refl) as (_ & _ & Hbl & Hcur). rewrite Hb1 in Hbl.
      split; [|done]. split; [done| |lia|].
      * rewrite Hcur, (ac_cursor _ _ Hat1). cbn. rewrite Z.leb_refl. unfold saturating_sub. f_equal. lia.
      * intros h b'. rewrite Hbl. destruct (from_on _ _ _); [done|]. by apply (ac_above _ _ Hat).
    + rewrite (hn_linked _ _ _ _ _ Hon) by lia. done.
Qed.

(** ** Convergence *)

Lemma iter_succ_r {A} (f : A → A) n x : Nat.iter (S n) f x = Nat.iter n f (f x).
Proof. induction n as [|n IH]; [done|]. cbn in *. by rewrite IH. Qed.

(** Catching up: [k] windows reach the tip. *)
Lemma catch_up (k : nat) : ∀ c db,
  at_cursor c db → on_chain c db → c < tip → tip - c ≤ Z.of_nat k * cfg_max_batch config →
  ∃ n : nat, (n ≤ k)%nat ∧ at_cursor tip (Nat.iter n tick db) ∧
    cache_blocks (Nat.iter n tick db) !! (cid, tip) = Some (canon tip).
Proof.
  induction k as [|k IH]; intros c db Hat Hoc Hct Hk; [lia|].
  destruct (tick_extend c db Hat Hct Hoc) as (Hat' & Htip & Hoc').
  destruct (decide (tip ≤ c + cfg_max_batch config)) as [Hle|Hgt].
  - exists 1%nat. split; [lia|]. cbn [Nat.iter nat_rect]. by rewrite Z.min_r in Hat', Htip by done.
  - rewrite Z.min_l in Hat', Htip, Hoc' by lia.
    destruct (IH _ _ Hat' Hoc' ltac:(lia) ltac:(lia)) as (n & Hn & Hres).
    exists (S n). split; [lia|]. by rewrite iter_succ_r.
Qed.

(** Unwinding another branch: at most [c - lo] ticks, one block each. *)
Lemma unwind (k : nat) : ∀ c db,
  at_cursor c db → c < tip → c - lo ≤ Z.of_nat k →
  ∃ (n : nat) c', (n ≤ k)%nat ∧ c' ≤ c ∧ at_cursor c' (Nat.iter n tick db) ∧ on_chain c' (Nat.iter n tick db).
Proof.
  induction k as [|k IH]; intros c db Hat Hct Hk.
  - exists 0%nat, c. split_and!; [done..|]. intros b Hb%(ac_above _ _ Hat). lia.
  - destruct (cache_blocks db !! (cid, c)) as [b|] eqn:Hb.
    + destruct (decide (sb_hash_le b = sb_hash_le (canon c))) as [Heq|Hne].
      * exists 0%nat, c. split_and!; [lia|done|done|]. intros b' Hb'. cbn in Hb'. congruence.
      * destruct (tick_rollback c db b Hat Hct Hb Hne) as [Hat' _].
        destruct (IH (c - 1) (tick db) Hat' ltac:(lia) ltac:(lia)) as (n & c' & Hn & Hc' & Hres).
        exists (S n), c'. rewrite iter_succ_r. split_and!; [lia|lia|apply Hres..].
    + exists 0%nat, c. split_and!; [lia|done|done|]. intros b' Hb'. cbn in Hb'. congruence.
Qed.

Lemma converge (k : nat) c db :
  at_cursor c db → c < tip → tip - lo ≤ Z.of_nat k * cfg_max_batch config →
  ∃ n : nat, (Z.of_nat n ≤ (c - lo) + Z.of_nat k) ∧ at_cursor tip (Nat.iter n tick db) ∧
    cache_blocks (Nat.iter n tick db) !! (cid, tip) = Some (canon tip).
Proof.
  intros Hat Hct Hk. pose proof (ac_range _ _ Hat).
  destruct (unwind (Z.to_nat (c - lo)) c db Hat Hct ltac:(lia)) as (n1 & c' & Hn1 & Hc' & Hat1 & Hoc1).
  pose proof (ac_range _ _ Hat1).
  destruct (catch_up k c' _ Hat1 Hoc1) as (n2 & Hn2 & Hres); [lia..|].
  exists (n2 + n1)%nat. split; [lia|]. by rewrite Nat.iter_add.
Qed.

(** A synchronised store holds blocks of the node's chain only, unless double
    SHA-256 collides on two different headers. *)
Lemma synced_chain db h b :
  at_cursor tip db → cache_blocks db !! (cid, tip) = Some (canon tip) →
  cache_blocks db !! (cid, h) = Some b →
  sb_hash_le b = sb_hash_le (canon h) ∨
  ∃ x y, x ≠ y ∧ length x = 80%nat ∧ length y = 80%nat ∧ sha256d x = sha256d y.
Proof.
  intros Hat Htip. destruct Hat as [Hinv Hcur Hr Hab].
  destruct (ii_chains _ _ Hinv _ _ Hlim (ty_chain _ _ _ Hty)) as [Hval Hln Hcc Hct].
  assert (∀ n : nat, ∀ h b, tip - h = Z.of_nat n → cache_blocks db !! (cid, h) = Some b →
    sb_hash_le b = sb_hash_le (canon h) ∨
    ∃ x y, x ≠ y ∧ length x = 80%nat ∧ length y = 80%nat ∧ sha256d x = sha256d y) as Hall.
  { induction n as [|n IH]; intros h' b' Hn Hb.
    - assert (h' = tip) as -> by lia. left. congruence.
    - destruct (Hct h' (h' + 1) b' tip Hb Hcur ltac:(lia)) as [b2 Hb2].
      destruct (IH (h' + 1) b2 ltac:(lia) Hb2) as [Heq|?]; [|by right].
      pose proof (Hab _ _ Hb) as Hlo'. pose proof (Hln _ _ _ Hb Hb2) as Hp.
      pose proof (hn_linked _ _ _ _ _ Hon h' ltac:(lia) ltac:(lia)) as Hp'.
      destruct (hn_block _ _ _ _ _ Hon (h' + 1) ltac:(lia)) as (hx & w' & id & bb & _ & Hw' & Hc & Hcan).
      destruct (check_wire_valid chain hx w' id bb (h' + 1)) as [Hv2 _]; [by eapply ty_wire|done|].
      rewrite <-Hcan in Hv2.
      destruct (valid_stored_hash _ _ (Hval _ _ Hb2)) as [Hh2 Hl2], (valid_stored_hash _ _ Hv2) as [Hh3 Hl3].
      destruct (decide (raw (sb_header b2) = raw (sb_header (canon (h' + 1))))) as [Hr'|Hne].
      + left. rewrite <-Hp, <-Hp'. unfold prev_of. by rewrite Hr'.
      + right. eexists _, _. split_and!; [exact Hne|done|done|]. by rewrite <-Hh2, <-Hh3. }
  intros Hb. destruct (Hcc _ _ Hb) as (_ & c0 & Hc0 & Hle). rewrite Hcur in Hc0. injection Hc0 as <-.
  by apply (Hall (Z.to_nat (tip - h)) h b); [lia|].
Qed.
End tick.
End sync.
