(* ===== verification/IngestThm.v ===== *)
(** * Ingestion: theorems

    The store is safe against any node, it converges to the chain of an honest
    one, and what classification and gossip do with a parent. *)

From S2P Require Export IngestSync.

#[local] Open Scope Z_scope.

(** ** The states of the indexer *)

(** The types of a node's answers: heights are [u64], payloads are in memory. *)
Record node_typed (node : Node) : Prop := {
  nt_tip : ∀ t, tip_height node = Ok t → is_u64 t;
  nt_wire : ∀ h hx w, header_wire node h hx = Ok w → len w ≤ usize_max
}.

Lemma config_typed cfg chain node :
  config_ok cfg → chain ∈ cfg_chains cfg → node_typed node → typed cfg chain node.
Proof.
  intros Hok Hin [Ht Hw]. pose proof (ok_chain _ Hok) as Hch. rewrite Forall_forall in Hch.
  destruct (Hch chain Hin) as [Hid _ _ Hs]. split; [done|done|apply Hok|apply Hok|done|done].
Qed.

(** The store, and the set of announced parents, after any number of rounds of
    the configured chains, against any nodes, and of orders posted to the order
    book.  A round is one step: the rounds of different chains write different
    blocks. *)
Inductive ingested `{Sha256} `{HexCodec} `{Codec} (cfg : Config) : gset bytes → Database → Prop :=
  | ingested_fresh : ingested cfg ∅ fresh_db
  | ingested_round chain p2p jitter node st db st' msgs delay db' :
      ingested cfg (announced_set st) db → chain ∈ cfg_chains cfg → node_typed node →
      chain_round cfg chain p2p jitter node st db = Some (st', msgs, delay, db') →
      ingested cfg (announced_set st') db'
  | ingested_intent announced now i r db db' :
      ingested cfg announced db → insert_intent now i db = (r, db') → ingested cfg announced db'.

Lemma intents_step `{Sha256} `{HexCodec} `{Codec} limits now i r db db' :
  ingest_inv limits db → insert_intent now i db = (r, db') → ingest_inv limits db'.
Proof.
  intros Hinv Hrun. pose proof Hinv as [[Hco Hf Hs Hcap] Hpk Hch].
  assert (db_inv db') as Hdb'.
  { eapply step_inv; [by destruct Hinv|]. by eapply step_insert_intent. }
  pose proof (insert_intent_run now i db Hco Hf) as Hrun'. cbv zeta in Hrun'. rewrite Hrun in Hrun'.
  assert (∃ c, db' = intents_set c db) as [c ->].
  { destruct (_ <=? _); injection Hrun' as _ ->; by eexists. }
  split; [done|exact Hpk|]. intros cid plb Hl Hc. by apply (chain_inv_same cid plb db); [apply Hch| |].
Qed.

Lemma ingested_inv `{Sha256} `{HexCodec} `{Codec} cfg announced db :
  config_ok cfg → ingested cfg announced db → ingest_inv (limits_of cfg) db.
Proof.
  intros Hok. induction 1 as [|chain p2p jitter node st db st' msgs delay db' _ IH Hin Hnt Hrun
                  |announced now i r db db' _ IH Hrun].
  - split; [apply fresh_inv|apply fresh_known|]. intros cid plb _ _. split; cbn; intros; simplify_map_eq.
  - by eapply (chain_round_inv _ cfg chain p2p jitter node st db _ _ _ _ IH
                (config_typed _ _ _ Hok Hin Hnt) (limits_of_chain _ _ Hok Hin)).
  - by eapply intents_step.
Qed.

(** C4: the store is safe.  After whole rounds of the configured chains and posts of
    intents from a fresh database (no restart, no crash inside a round and no failed
    transaction: such a stop leaves blocks above the cursor), whatever the nodes and
    the resolver answered, every block the store serves for a configured chain is at
    its own height, carries a wire payload that parses to its header and witness,
    satisfies the header rules and the merged-mining commitment under that chain's
    limit, and is linked by hash to the block served one below; the heights served
    end at the chain's cursor without a gap; and the next round of any chain,
    against any node, ends without a panic and sleeps no longer than the poll
    interval, the backoff cap or 250 ms, when the cap is less than [u64::MAX]
    milliseconds (at that cap a failed round panics: [round_panics]). *)
Theorem ingested_store_safe `{Sha256} `{HexCodec} `{Codec} (cfg : Config)
    (announced : gset bytes) (db : Database) (chain : AuxChain) (h : Z) (b : StoredBlock)
    (Hok : config_ok cfg) (Hr : ingested cfg announced db) (Hin : chain ∈ cfg_chains cfg)
    (Hb : (block_at (ac_chain_id chain) h db).1 = Ok (Some b)) :
  let cid := ac_chain_id chain in
  sb_chain_id b = cid ∧ sb_height b = h ∧
  (∃ wire a, sb_wire_hex b = hex_encode wire ∧ parse_auxpow wire = Ok (raw (sb_header b), a) ∧
     aux (sb_header b) = Some a ∧ sb_hash_le b = sha256d (raw (sb_header b)) ∧
     header_rules (raw (sb_header b)) cid (ac_pow_limit_bits chain) ∧ commits (sb_hash_le b) a cid) ∧
  (∀ b', (block_at cid (h + 1) db).1 = Ok (Some b') → slice (raw (sb_header b')) 4 36 = sb_hash_le b) ∧
  (∃ c, (cursor_height cid db).1 = Ok (Some c) ∧ h ≤ c ∧
     ∀ h', h ≤ h' ≤ c → ∃ b', (block_at cid h' db).1 = Ok (Some b')) ∧
  (∀ chain' p2p jitter node st, rt_max_backoff (cfg_retry cfg) < u64_max →
     chain' ∈ cfg_chains cfg → node_typed node →
     ∃ st' msgs delay db', chain_round cfg chain' p2p jitter node st db = Some (st', msgs, delay, db') ∧
       0 ≤ delay ≤ Z.max (cfg_poll_interval cfg) (Z.max 250 (rt_max_backoff (cfg_retry cfg)))).
Proof.
  intros cid. apply (ingested_inv _ _ _ Hok) in Hr as Hinv. pose proof (inv_coherent _ (ii_db _ _ Hinv)) as Hco.
  pose proof (ok_chain _ Hok) as Hch. rewrite Forall_forall in Hch. destruct (Hch chain Hin) as [Hid Hp _ _].
  destruct (ii_chains _ _ Hinv _ _ (limits_of_chain _ _ Hok Hin) Hid) as [Hval Hln Hcur Hct]. fold cid in Hval, Hln, Hcur, Hct.
  apply block_at_Some in Hb; [|done]. destruct (co_keys _ Hco _ _ Hb) as (Hk & _). injection Hk as Hk1 Hk2.
  destruct (Hcur _ _ Hb) as (_ & c & Hcc & Hle). split_and!; [done|done| | | |].
  - destruct (Hval _ _ Hb) as (w & a & _ & ? & ? & ? & Hlv). exists w, a.
    apply light_verify_spec in Hlv as (-> & ? & ?); [|done]. rewrite <-Hk1 in *. done.
  - intros b' Hb'%block_at_Some; [|done]. by eapply Hln.
  - exists c. rewrite cursor_of_run by done. split_and!; [by rewrite Hcc|done|].
    intros h' Hh'. destruct (Hct _ h' _ _ Hb Hcc Hh') as [b' Hb']. exists b'. by apply block_at_Some.
  - intros chain' p2p jitter node st Hmax Hin' Hnt. pose proof (ok_poll _ Hok). pose proof (ok_backoff _ Hok).
    destruct (chain_round_cases (limits_of cfg) cfg chain' p2p jitter node st db Hinv
                (config_typed _ _ _ Hok Hin' Hnt) (limits_of_chain _ _ Hok Hin'))
      as [(st' & msgs & delay & db' & Hrun & _ & Hd)|[_ Hno]].
    + exists st', msgs, delay, db'. split; [done|]. destruct (ingest_chain _ _ _ _).1; [destruct Hd as [_ ->]; lia|].
      destruct Hd as (_ & _ & _ & Hd). apply backoff_delay_bound in Hd; lia.
    + destruct (backoff_delay_Some cfg (u32_wrap (failures st + 1)) jitter) as [d Hd]; [lia..|congruence].
Qed.

(** C5: the store converges.  Against a node that serves one valid chain up to
    [tip], at least a batch below the last [u64], from a store reached as in C4 (by
    whole rounds and posts from a fresh database, without a restart or a fault)
    whose cursor [c] is below the tip and whose blocks of the chain are all above
    [lo], where the node's chain begins: at most [c - lo] ticks unwind the blocks of
    another branch and [k = ⌈(tip - lo) / max_batch⌉] ticks catch up; then the cursor
    is the tip, the node's tip is served, and every block served has the node's hash
    at its height, unless double SHA-256 collides on two 80-byte headers. *)
Theorem ingest_converges `{Sha256} `{HexCodec} `{Codec} (cfg : Config) (announced : gset bytes)
    (chain : AuxChain) (node : Node) (canon : Z → StoredBlock) (lo tip c : Z) (k : nat) (db : Database)
    (Hok : config_ok cfg) (Hr : ingested cfg announced db) (Hin : chain ∈ cfg_chains cfg)
    (Hnt : node_typed node) (Hon : honest chain node canon lo tip)
    (Hbatch : tip + cfg_max_batch cfg ≤ u64_max)
    (Hcur : (cursor_height (ac_chain_id chain) db).1 = Ok (Some c)) (Hc : lo ≤ c < tip)
    (Habove : ∀ h b, (block_at (ac_chain_id chain) h db).1 = Ok (Some b) → lo < h)
    (Hk : tip - lo ≤ Z.of_nat k * cfg_max_batch cfg) :
  ∃ n : nat, Z.of_nat n ≤ (c - lo) + Z.of_nat k ∧
    let db' := Nat.iter n (tick cfg chain node) db in
    (cursor_height (ac_chain_id chain) db').1 = Ok (Some tip) ∧
    (block_at (ac_chain_id chain) tip db').1 = Ok (Some (canon tip)) ∧
    ∀ h b, (block_at (ac_chain_id chain) h db').1 = Ok (Some b) →
      sb_hash_le b = sb_hash_le (canon h) ∨
      ∃ x y, x ≠ y ∧ length x = 80%nat ∧ length y = 80%nat ∧ sha256d x = sha256d y.
Proof.
  apply (ingested_inv _ _ _ Hok) in Hr as Hinv. pose proof (inv_coherent _ (ii_db _ _ Hinv)) as Hco.
  pose proof (config_typed _ _ _ Hok Hin Hnt) as Hty. pose proof (limits_of_chain _ _ Hok Hin) as Hlim.
  rewrite cursor_of_run in Hcur by done. injection Hcur as Hcur.
  assert (at_cursor (limits_of cfg) chain lo tip c db) as Hat.
  { split; [done..|lia|]. intros h b Hb%block_at_Some; [|done]. by eapply Habove. }
  destruct (converge (limits_of cfg) cfg chain node canon lo tip Hty Hon Hlim Hbatch (λ m Hm, proj1 (ok_kept _ Hok m Hm))
              k c db Hat ltac:(lia) Hk) as (n & Hn & Hat' & Htip).
  exists n. split; [done|]. cbv zeta. pose proof (inv_coherent _ (ii_db _ _ (ac_inv _ _ _ _ _ _ Hat'))) as Hco'.
  rewrite cursor_of_run by done. split_and!.
  - cbn. by rewrite (ac_cursor _ _ _ _ _ _ Hat').
  - by apply block_at_Some.
  - intros h b Hb%block_at_Some; [|done].
    by eapply (synced_chain (limits_of cfg) cfg chain node canon lo tip Hty Hon Hlim).
Qed.


Lemma size_ge_2 (m : gmap Z Z) :
  2 ≤ Z.of_nat (size m) ↔ ∃ c c', c ≠ c' ∧ is_Some (m !! c) ∧ is_Some (m !! c').
Proof.
  split.
  - intros Hs. destruct (map_to_list m) as [|[c x] [|[c' x'] l]] eqn:Hl.
    + rewrite <-length_map_to_list, Hl in Hs. cbn in Hs. lia.
    + rewrite <-length_map_to_list, Hl in Hs. cbn in Hs. lia.
    + pose proof (NoDup_fst_map_to_list m) as Hnd. rewrite Hl in Hnd. cbn in Hnd.
      apply NoDup_cons in Hnd as [Hnin _]. exists c, c'. split_and!.
      * intros ->. apply Hnin. left.
      * exists x. apply elem_of_map_to_list. rewrite Hl. left.
      * exists x'. apply elem_of_map_to_list. rewrite Hl. right. left.
  - intros (c & c' & Hne & [x Hx] & [x' Hx']).
    assert (<[c := x]> (<[c' := x']> ∅ : gmap Z Z) ⊆ m) as Hsub.
    { apply insert_subseteq_l; [done|]. apply insert_subseteq_l; [done|]. apply map_empty_subseteq. }
    apply map_subseteq_size in Hsub. rewrite !map_size_insert_None in Hsub.
    + rewrite map_size_empty in Hsub. lia.
    + done.
    + by rewrite lookup_insert_ne.
Qed.

Lemma lowest_heights_Some sibs c : is_Some (lowest_heights sibs !! c) ↔ ∃ b, b ∈ sibs ∧ sb_chain_id b = c.
Proof.
  pose proof (add_legs_spec None sibs c) as Hs. unfold lowest_heights. destruct (_ !! c) as [h|].
  - destruct Hs as (_ & (b & Hb & Hc & _) & _). split; [intros _; by exists b|by eexists].
  - split; [by intros [? ?]|]. intros (b & Hb & Hc). by destruct (Hs eq_refl b Hb).
Qed.

Lemma two_lowest_heights sibs :
  2 ≤ Z.of_nat (size (lowest_heights sibs)) ↔
  ∃ b b', b ∈ sibs ∧ b' ∈ sibs ∧ sb_chain_id b ≠ sb_chain_id b'.
Proof.
  rewrite size_ge_2. setoid_rewrite lowest_heights_Some. split.
  - intros (c & c' & Hne & (b & ? & <-) & (b' & ? & <-)). eauto.
  - intros (b & b' & ? & ? & ?). eauto 10.
Qed.

(** A leg is announced for the lowest block of each chain. *)
Lemma elem_of_announced_legs `{HexCodec} sibs c lh hx :
  (c, lh, hx) ∈ announced_legs sibs ↔
  ∃ b, b ∈ sibs ∧ sb_chain_id b = c ∧ sb_height b = lh ∧ hx = display_hash (sb_hash_le b) ∧
    ∀ b', b' ∈ sibs → sb_chain_id b' = c → lh ≤ sb_height b'.
Proof.
  unfold announced_legs. rewrite list_elem_of_omap. split.
  - intros (b & Hb & Hleg). case_bool_decide as Hlow; [|done]. injection Hleg as <- <- <-.
    exists b. split_and!; [done..|]. pose proof (add_legs_spec None sibs (sb_chain_id b)) as Hs.
    unfold lowest_heights in Hlow. rewrite Hlow in Hs. by destruct Hs as (_ & _ & ?).
  - intros (b & Hb & <- & <- & -> & Hall). exists b. split; [done|]. rewrite bool_decide_true; [done|].
    pose proof (add_legs_spec None sibs (sb_chain_id b)) as Hs. unfold lowest_heights.
    destruct (foldl _ _ _ !! _) as [h'|].
    + destruct Hs as (_ & (b' & Hb' & Hc' & Hh') & Hall'). f_equal.
      pose proof (Hall b' Hb' Hc'). pose proof (Hall' b Hb eq_refl). lia.
    + by destruct (Hs eq_refl b Hb).
Qed.

Lemma announce_group_run `{Sha256} `{HexCodec} `{Codec} announced p db :
  coherent db → p ∉ announced →
  announce_sibling_group true announced p db =
    (Ok ({[p]} ∪ announced,
      sp ← cache_parents db !! p; h ← sp_ltc_height sp;
      if Z.of_nat (size (lowest_heights (siblings_for_parent p db))) <? 2 then None
      else Some (AnnounceSibling (display_hash p) h (announced_legs (siblings_for_parent p db)))), db).
Proof.
  intros Hco Hnew. unfold announce_sibling_group. cbn [negb]. rewrite bool_decide_false by done. cbv zeta.
  rewrite (bind_step _ _ db (Ok (cache_parents db !! p)) db) by (unfold try; by rewrite get_parent_run).
  destruct (cache_parents db !! p) as [sp|]; [cbn|done]. destruct (sp_ltc_height sp) as [h|]; [cbn|done].
  rewrite (bind_step _ _ db db db) by done. cbv zeta. by destruct (_ <? 2).
Qed.

(** C29: sibling announcements.  The first time a parent is met with a peer
    network, it is marked as announced; a message is sent exactly when the parent
    is a mainnet parent with stored blocks on two chains, and it carries the
    parent's height and, for each chain, its lowest blocks.  Marked parents are
    never announced again, not even one that gets its second chain later. *)
Theorem announce_sibling_group_correct `{Sha256} `{HexCodec} `{Codec} (announced : gset bytes)
    (p : bytes) (db : Database) (Hco : coherent db) (Hnew : p ∉ announced) :
  ∃ m, announce_sibling_group true announced p db = (Ok ({[p]} ∪ announced, m), db) ∧
    (∀ db2, announce_sibling_group true ({[p]} ∪ announced) p db2 = (Ok ({[p]} ∪ announced, None), db2)) ∧
    (is_Some m ↔
       (∃ sp h, (get_parent p db).1 = Ok (Some sp) ∧ sp_ltc_height sp = Some h) ∧
       ∃ b b', b ∈ siblings_for_parent p db ∧ b' ∈ siblings_for_parent p db ∧ sb_chain_id b ≠ sb_chain_id b') ∧
    (∀ a, m = Some a → ∃ sp h legs, a = AnnounceSibling (display_hash p) h legs ∧
       (get_parent p db).1 = Ok (Some sp) ∧ sp_ltc_height sp = Some h ∧
       ∀ c lh hx, (c, lh, hx) ∈ legs ↔
         ∃ b, b ∈ siblings_for_parent p db ∧ sb_chain_id b = c ∧ sb_height b = lh ∧
              hx = display_hash (sb_hash_le b) ∧
              ∀ b', b' ∈ siblings_for_parent p db → sb_chain_id b' = c → lh ≤ sb_height b').
Proof.
  eexists. split_and!; [by apply announce_group_run| | |].
  - intros db2. unfold announce_sibling_group. cbn [negb]. by rewrite bool_decide_true by set_solver.
  - rewrite get_parent_run by done. cbn [fst]. destruct (cache_parents db !! p) as [sp|]; cbn.
    2: { split; [by intros [? ?]|]. by intros [(? & ? & ? & _) _]. }
    destruct (sp_ltc_height sp) as [h|] eqn:Hh; cbn.
    2: { split; [by intros [? ?]|]. intros [(? & ? & [= <-] & ?) _]. congruence. }
    rewrite <-two_lowest_heights. destruct (_ <? 2) eqn:H2; reflect_bools.
    + split; [by intros [? ?]|]. intros [_ ?]. lia.
    + split; [|by eexists]. intros _. split; [by exists sp, h|lia].
  - intros a (sp & Hsp & (h & Hh & Ha)%bind_Some)%bind_Some. destruct (_ <? 2); [done|]. injection Ha as <-.
    eexists sp, h, _. rewrite get_parent_run by done. cbn [fst]. rewrite Hsp. split_and!; [done..|].
    intros c lh hx. apply elem_of_announced_legs.
Qed.

(** ** The theorems at concrete inputs

    A node of chain 8224 with two merge-mined blocks, a resolver that finds the
    parent of the first, and an indexer that fetches one block per tick. *)

#[local] Existing Instances toy_hash plain_hex toy_codec.

Definition mined_aux (block_hash : bytes) : AuxPow :=
  let script := AUXPOW_MAGIC ++ rev block_hash ++ le_bytes 4 1 ++ le_bytes 4 77 in
  let cb := tx_bytes (mkTx (le_bytes 4 1) [mkTxIn (replicate 36 x00) script (replicate 4 xff)] []
                        (le_bytes 4 0)) in
  mkAuxPow cb [] 0 [] 0
    (le_bytes 4 (LTC_CHAIN_ID * 2 ^ 16 + 2) ++ replicate 32 x00 ++ sha256d cb ++ replicate 12 x00).

Definition mined_base (h : Z) : bytes :=
  let b1 := raw (sample_header (replicate 32 x00) 8224) in
  if h =? 1 then b1 else raw (sample_header (sha256d b1) 8224).
Definition mined_wire (h : Z) : bytes :=
  reserialize_wire (mined_base h) (mined_aux (sha256d (mined_base h))) (replicate 32 x00).

Definition mined_parent (h : Z) : bytes := sha256d (parent_header (mined_aux (sha256d (mined_base h)))).

Definition sample_node : Node :=
  mkNode (Ok 2) (λ h, Ok (display_hash (sha256d (mined_base h)))) (λ h _, Ok (mined_wire h))
    (λ p, if bool_decide (p = mined_parent 1) then Ok (Some 2800000) else Err "timeout"%string).
Definition sample_canon (h : Z) : StoredBlock :=
  match check_wire sample_chain_cfg (display_hash (sha256d (mined_base h))) (mined_wire h) with
  | Some (id, b) => stored_of sample_chain_cfg h id b
  | None => sample_block 8224 h
  end.

Lemma sample_typed : node_typed sample_node.
Proof.
  split; cbn; [intros t [= <-]; unfold is_u64, u64_max; lia|].
  intros h hx w [= <-]. unfold mined_wire, mined_base. destruct (h =? 1); vm_compute; discriminate.
Qed.

Lemma sample_config_ok : config_ok sample_cfg.
Proof.
  apply (load_from_ok sample_env None sample_cfg); [done|]. vm_compute. reflexivity.
Qed.

Lemma sample_in : sample_chain_cfg ∈ cfg_chains sample_cfg.
Proof. apply list_elem_of_here. Qed.

Lemma sample_honest : honest sample_chain_cfg sample_node sample_canon 0 2.
Proof.
  split; [lia|reflexivity| |].
  - intros h Hh. unfold sample_canon.
    destruct (check_wire sample_chain_cfg (display_hash (sha256d (mined_base h))) (mined_wire h))
      as [[id b]|] eqn:E; [by eexists _, _, id, b|].
    exfalso. assert (h = 1 ∨ h = 2) as [->| ->] by lia; vm_compute in E; discriminate.
  - intros h Hl Hh. assert (h = 1) as -> by lia. vm_compute. reflexivity.
Qed.

Definition sample_round := chain_round sample_cfg sample_chain_cfg true 0 sample_node (mkLoop 0 ∅) fresh_db.
Definition sample_state : LoopState * list Announcement * Z * Database :=
  default (mkLoop 0 ∅, [], 0, fresh_db) sample_round.
Definition sample_ingested : Database := sample_state.2.

Lemma sample_round_Some db :
  ingest_inv (limits_of sample_cfg) db →
  ∃ st msgs delay db', chain_round sample_cfg sample_chain_cfg true 0 sample_node (mkLoop 0 ∅) db
    = Some (st, msgs, delay, db').
Proof.
  intros Hinv.
  destruct (chain_round_cases (limits_of sample_cfg) sample_cfg sample_chain_cfg true 0 sample_node (mkLoop 0 ∅) db
              Hinv (config_typed _ _ _ sample_config_ok sample_in sample_typed) eq_refl)
    as [(st & msgs & delay & db' & Hrun & _)|[_ Hno]]; [by exists st, msgs, delay, db'|by vm_compute in Hno].
Qed.

Lemma sample_ingested_ok : ingested sample_cfg (announced_set sample_state.1.1.1) sample_ingested.
Proof.
  pose proof (ingested_fresh sample_cfg) as Hfresh.
  destruct (sample_round_Some fresh_db (ingested_inv _ _ _ sample_config_ok Hfresh)) as (st & msgs & delay & db & Hrun).
  unfold sample_ingested, sample_state, sample_round. rewrite Hrun.
  exact (ingested_round sample_cfg sample_chain_cfg true 0 sample_node (mkLoop 0 ∅)
           fresh_db st msgs delay db Hfresh sample_in sample_typed Hrun).
Qed.

(** With the cap at the last [u64] of milliseconds a failed round panics. *)
Definition sample_wide_cfg : Config :=
  default sample_cfg (result_ok (load_from (λ k, if bool_decide (k = "PSOB_RETRY_BASE_MS"%string)
    then Some (pretty u64_max) else sample_env k) None)).
Definition sample_dead_node : Node :=
  mkNode (Err "down"%string) (λ h, Err "down"%string) (λ h hx, Err "down"%string) (λ p, Ok None).
Lemma round_panics :
  config_ok sample_wide_cfg ∧
  chain_round sample_wide_cfg sample_chain_cfg true 0 sample_dead_node (mkLoop 0 ∅) fresh_db = None.
Proof.
  split; [|vm_compute; reflexivity].
  apply (load_from_ok (λ k, if bool_decide (k = "PSOB_RETRY_BASE_MS"%string)
    then Some (pretty u64_max) else sample_env k) None); [done|]. vm_compute. reflexivity.
Qed.

Lemma sample_block_1 : (block_at 8224 1 sample_ingested).1 = Ok (Some (sample_canon 1)).
Proof. vm_compute. reflexivity. Qed.
Lemma sample_only_1 h b : (block_at 8224 h sample_ingested).1 = Ok (Some b) → 0 < h.
Proof.
  intros Hb. pose proof (ingested_inv _ _ _ sample_config_ok sample_ingested_ok) as Hinv.
  apply block_at_Some in Hb; [|exact (inv_coherent _ (ii_db _ _ Hinv))].
  assert (is_u32 8224) as Hc by (unfold is_u32, u32_max; lia).
  destruct (ci_cursor _ _ _ (ii_chains _ _ Hinv 8224 _ eq_refl Hc) h b Hb). lia.
Qed.

Lemma ingested_store_safe_witness :
  (block_at 8224 1 sample_ingested).1 = Ok (Some (sample_canon 1)) ∧ sb_height (sample_canon 1) = 1.
Proof.
  split; [exact sample_block_1|].
  exact (proj1 (proj2 (ingested_store_safe sample_cfg _ sample_ingested sample_chain_cfg 1
           (sample_canon 1) sample_config_ok sample_ingested_ok sample_in sample_block_1))).
Defined.

Lemma ingest_converges_witness :
  (cursor_height 8224 sample_ingested).1 = Ok (Some 1) ∧
  ∃ n : nat, Z.of_nat n ≤ (1 - 0) + Z.of_nat 2 ∧
    (block_at 8224 2 (Nat.iter n (tick sample_cfg sample_chain_cfg sample_node) sample_ingested)).1
    = Ok (Some (sample_canon 2)).
Proof.
  assert ((cursor_height 8224 sample_ingested).1 = Ok (Some 1)) as Hcur by (vm_compute; reflexivity).
  split; [exact Hcur|].
  destruct (ingest_converges sample_cfg _ sample_chain_cfg sample_node sample_canon 0 2 1 2
              sample_ingested sample_config_ok sample_ingested_ok sample_in sample_typed sample_honest
              ltac:(unfold u64_max; cbn; lia) Hcur ltac:(lia)
              sample_only_1 ltac:(cbn; lia)) as (n & Hn & _ & Hb & _).
  exists n. split; [exact Hn|exact Hb].
Defined.


Lemma announce_sibling_group_correct_witness :
  coherent sample_classified ∧
  ∃ m, announce_sibling_group true ∅ sample_parent sample_classified
       = (Ok ({[sample_parent]} ∪ ∅, m), sample_classified).
Proof.
  split; [exact sample_classified_coherent|].
  destruct (announce_sibling_group_correct ∅ sample_parent sample_classified sample_classified_coherent
              (not_elem_of_empty sample_parent)) as (m & Hrun & _).
  exists m. exact Hrun.
Defined.
