(* ===== verification/Tasks.v ===== *)
(** * The ingest loop, one database call at a time

    The loop of a chain in [src/ingest.rs] as a state machine: a [Phase] is where
    the task stands between two calls to the database, with the local variables it
    still needs, and [advance] runs it to the next one.  [Threads] has the sections of each
    step, between which the tasks of the process interleave.  Run without
    interference, the steps are the round of [Ingest]. *)

From S2P Require Export IngestThm.

#[local] Open Scope Z_scope.

(** [fails] is the count of consecutive failures; [Failing] counted one more, and its
    step computes the delay before the next tick. *)
Inductive Phase :=
  | Idle (fails : Z)
  | Failing (fails : Z)
  | Polling (fails : Z)
  | Fetched (fails cursor : Z) (items : list (Z * string * bytes))
  | Rolling (fails start : Z) (pending : list StoredBlock) (height : Z)
  | Storing (fails start : Z) (pending : list StoredBlock)
  | Advancing (fails last_ : Z) (pending : list StoredBlock)
  | Pruning (fails last_ : Z) (pending : list StoredBlock)
  | Listing (fails : Z) (pending : list StoredBlock)
  | Classifying (fails : Z) (pending : list StoredBlock) (todo found : list bytes)
  | Tip (pending : list StoredBlock) (found : list bytes)
  | Groups (found : list bytes)
  | Panicked.

Section tasks.
Context `{Sha256} `{HexCodec} `{Codec}.
Context (config : Config) (chain : AuxChain) (p2p : bool) (node : Node).

(** The task, the announced parents and the store; with the messages sent. *)
Definition TaskState : Type := Phase * gset bytes * Database.

(** A call inside [ingest_chain]: an error ends the tick, a panic the task. *)
Definition after_error (fails : Z) (e : DbError) : Phase :=
  match e with DbPanic => Panicked | _ => Failing (u32_wrap (fails + 1)) end.

(** The delay of the failed tick, with the random number 0: whether it panics does not
    depend on that number ([backoff_delay_None]). *)
Definition after_failure (fails : Z) : Phase :=
  match backoff_delay config fails 0 with Some _ => Idle fails | None => Panicked end.
Definition tick (fails : Z) (m : M Phase) (announced : gset bytes) (db : Database) :
    TaskState * list Announcement :=
  match m db with
  | (Ok ph, db) => (ph, announced, db, [])
  | (Err e, db) => (after_error fails e, announced, db, [])
  end.

(** A call after it: a panic ends the task. *)
Definition announcing {A} (m : M A) (k : A → Phase * gset bytes * list Announcement)
    (announced : gset bytes) (db : Database) : TaskState * list Announcement :=
  match m db with
  | (Ok a, db) => let '(ph, announced, msgs) := k a in (ph, announced, db, msgs)
  | (Err _, db) => (Panicked, announced, db, [])
  end.

(** [ingest_chain], from the phase where the chain is registered to the one where
    its window is fetched. *)
Definition poll (fails : Z) : M Phase :=
  tip ← liftR "tip_height" (tip_height node);
  cursor ← start_cursor config chain;
  if tip <? cursor then mret (Tip [] []) else
  let start := u64_saturating_add cursor 1 in
  let end_ := Z.min (u64_wrap (cursor + cfg_max_batch config)) tip in
  if end_ <? start then mret (Tip [] []) else
  items ← liftR "fetch" (fetch node (window start end_));
  mret (Fetched fails cursor items).

(** The walk over the fetched window. *)
Definition check_window (fails cursor : Z) (items : list (Z * string * bytes)) : M Phase :=
  prev_hash ← (if cursor =? 0 then mret None
               else b ← block_at (ac_chain_id chain) cursor; mret (sb_hash_le <$> b));
  let start := u64_saturating_add cursor 1 in
  let '(pending, stale) := walk chain prev_hash [] items in
  mret (match stale with
        | Some h => Rolling fails start pending h
        | None => Storing fails start pending
        end).

Definition insert_rows_of (pending : list StoredBlock) : list (Z * Z * StoredBlock) :=
  (λ b, ((sb_chain_id b, sb_height b), b)) <$> pending.

(** One step: at most one call that writes to the database. *)
Definition advance (ph : Phase) : gset bytes → Database → TaskState * list Announcement :=
  match ph with
  | Idle n => tick n (_ ← upsert_chain (ac_chain_id chain) (ac_name chain) (ac_electrs chain); mret (Polling n))
  | Failing n => λ announced db, (after_failure n, announced, db, [])
  | Polling n => tick n (poll n)
  | Fetched n cursor items => tick n (check_window n cursor items)
  | Rolling n start pending h =>
      tick n (_ ← rollback_from (ac_chain_id chain) h; mret (Storing n start pending))
  | Storing n start [] => tick n (mret (Listing n []))
  | Storing n start pending =>
      tick n (_ ← insert_blocks (insert_rows_of pending);
              mret (Advancing n (default (saturating_sub start 1) (sb_height <$> last pending)) pending))
  | Advancing n last_ pending =>
      tick n (_ ← set_cursor_height (ac_chain_id chain) last_; mret (Pruning n last_ pending))
  | Pruning n last_ pending => tick n (_ ← prune_window config chain last_; mret (Listing n pending))
  | Listing n pending => tick n (db ← get_db; mret (Classifying n pending (unclassified_parents db) []))
  | Classifying n pending [] found => tick n (mret (Tip pending found))
  | Classifying n pending (p :: todo) found =>
      let ltc_height := match resolve_parent node p with Ok o => o | Err _ => None end in
      tick n (_ ← classify_parent p ltc_height;
              mret (Classifying n pending todo (match ltc_height with Some _ => found ++ [p] | None => found end)))
  | Tip [] found => λ announced db, (Groups found, announced, db, [])
  | Tip pending found => λ announced,
      announcing (announce_batch_tip p2p chain (mkBatch pending found))
        (λ m, (Groups found, announced, option_list m)) announced
  | Groups [] => λ announced db, (Idle 0, announced, db, [])
  | Groups (p :: found) => λ announced,
      announcing (announce_sibling_group p2p announced p)
        (λ r, (Groups found, r.1, option_list r.2)) announced
  | Panicked => λ announced db, (Panicked, announced, db, [])
  end.

(** The steps of a task without interference. *)
Inductive goes : TaskState → list Announcement → TaskState → Prop :=
  | goes_refl s : goes s [] s
  | goes_step ph announced db s1 msgs1 s2 msgs2 :
      advance ph announced db = (s1, msgs1) → goes s1 msgs2 s2 →
      goes (ph, announced, db) (msgs1 ++ msgs2) s2.

Lemma goes_trans s1 m1 s2 m2 s3 : goes s1 m1 s2 → goes s2 m2 s3 → goes s1 (m1 ++ m2) s3.
Proof.
  induction 1 as [|ph announced db s1 msgs1 s2 msgs2 Hadv _ IH]; intros Hg; [done|].
  rewrite <-app_assoc. eapply goes_step; [exact Hadv|]. by apply IH.
Qed.

(** From the phase [ph] the task computes the batch [r]: it reaches the
    announcements, or the delay after an error, or its end by a panic. *)
Definition yields (fails : Z) (announced : gset bytes) (ph : Phase) (m : M IngestBatch) : Prop := ∀ db,
  match m db with
  | (Ok batch, db') => goes (ph, announced, db) [] (Tip (batch_blocks batch) (new_mainnet_parents batch), announced, db')
  | (Err e, db') => goes (ph, announced, db) [] (after_error fails e, announced, db')
  end.

Lemma yields_step {A} n announced ph (m : M A) (K : A → Phase) (k : A → M IngestBatch) :
  (∀ db, advance ph announced db = tick n (x ← m; mret (K x)) announced db) →
  (∀ x, yields n announced (K x) (k x)) → yields n announced ph (x ← m; k x).
Proof.
  intros Hadv Hk db. specialize (Hadv db). unfold tick in Hadv. unfold mbind, M_bind in *.
  destruct (m db) as [[x|e] db1]; cbn in Hadv.
  - specialize (Hk x db1). destruct (k x db1) as [[batch|e] db2]; by apply (goes_step _ _ _ _ [] _ [] Hadv Hk).
  - apply (goes_step _ _ _ _ [] _ [] Hadv). apply goes_refl.
Qed.

Lemma yields_ext n announced ph (m m' : M IngestBatch) :
  (∀ db, m db = m' db) → yields n announced ph m → yields n announced ph m'.
Proof. intros Hm Hy db. rewrite <-Hm. apply Hy. Qed.

Lemma M_bind_assoc {A B C} (m : M A) (k : A → M B) (l : B → M C) db :
  (y ← (x ← m; k x); l y) db = (x ← m; y ← k x; l y) db.
Proof. unfold mbind, M_bind. by destruct (m db) as [[x|e] db1]. Qed.

Lemma yields_classifying n announced pending todo : ∀ found,
  yields n announced (Classifying n pending todo found)
    (ms ← classify_each node todo; mret (mkBatch pending (found ++ ms))).
Proof.
  induction todo as [|p todo IH]; intros found.
  - intros db. unfold classify_each, mbind, M_bind, mret, M_ret. cbn. rewrite app_nil_r. eapply (goes_step _ _ _ _ [] _ []); [reflexivity|apply goes_refl].
  - cbn [classify_each]. set (lh := match resolve_parent node p with Ok o => o | Err _ => None end).
    set (found' := match lh with Some _ => found ++ [p] | None => found end).
    apply (yields_ext _ _ _ (_ ← classify_parent p lh;
                             ms ← classify_each node todo; mret (mkBatch pending (found' ++ ms)))).
    { intros db. rewrite M_bind_assoc. unfold mbind, M_bind, mret, M_ret.
      destruct (classify_parent p lh db) as [[x|e] db1]; [|done].
      destruct (classify_each node todo db1) as [[ms|e] db2]; [|done]. unfold found'.
      destruct lh; [|done]. by rewrite <-app_assoc. }
    eapply (yields_step _ _ _ _ (λ _, Classifying n pending todo found')); [reflexivity|]. intros _. apply IH.
Qed.

Lemma yields_listing n announced pending :
  yields n announced (Listing n pending)
    (new ← classify_pending_parents node; mret (mkBatch pending new)).
Proof.
  unfold classify_pending_parents. eapply yields_ext; [intros db; symmetry; apply M_bind_assoc|].
  apply (yields_step _ _ _ _ (λ db, Classifying n pending (unclassified_parents db) [])); [done|].
  intros db. apply (yields_classifying n announced pending (unclassified_parents db) []).
Qed.

Lemma yields_storing n announced start pending :
  yields n announced (Storing n start pending)
    (_ ← store_pending config chain start pending;
     new ← classify_pending_parents node; mret (mkBatch pending new)).
Proof.
  destruct pending as [|b bs].
  { apply (yields_step _ _ _ (mret ()) (λ _, Listing n [])); [done|]. intros _. apply yields_listing. }
  set (pending := b :: bs).
  change (store_pending config chain start pending)
    with (_ ← insert_blocks (insert_rows_of pending);
          let last_ := default (saturating_sub start 1) (sb_height <$> last pending) in
          _ ← set_cursor_height (ac_chain_id chain) last_; prune_window config chain last_).
  set (last_ := default (saturating_sub start 1) (sb_height <$> last pending)). cbv zeta.
  eapply yields_ext; [intros db; symmetry; apply M_bind_assoc|].
  apply (yields_step _ _ _ _ (λ _, Advancing n last_ pending)); [done|]. intros _.
  eapply yields_ext; [intros db; symmetry; apply M_bind_assoc|].
  apply (yields_step _ _ _ _ (λ _, Pruning n last_ pending)); [done|]. intros _.
  apply (yields_step _ _ _ _ (λ _, Listing n pending)); [done|]. intros _. apply yields_listing.
Qed.

Lemma yields_fetched n announced cursor items :
  yields n announced (Fetched n cursor items) (ingest_window config chain node cursor items).
Proof.
  unfold ingest_window.
  apply (yields_step _ _ _ _ (λ prev, let '(pending, stale) := walk chain prev [] items in
    match stale with
    | Some h => Rolling n (u64_saturating_add cursor 1) pending h
    | None => Storing n (u64_saturating_add cursor 1) pending
    end)).
  { intros db. unfold advance, check_window, tick. cbv zeta.
    generalize (if cursor =? 0 then mret None else b ← block_at (ac_chain_id chain) cursor; mret (sb_hash_le <$> b) : M (option bytes)).
    intros m. unfold mbind, M_bind. destruct (m db) as [[prev|e] db1]; [|done]. by destruct (walk _ _ _ _). }
  intros prev. destruct (walk chain prev [] items) as [pending [h|]].
  - eapply yields_ext; [intros db; symmetry; apply M_bind_assoc|].
    apply (yields_step _ _ _ _ (λ _, Storing n (u64_saturating_add cursor 1) pending)); [done|].
    intros _. apply yields_storing.
  - apply yields_storing.
Qed.

(** The phases that [poll] computes. *)
Lemma yields_poll n announced ph (m : M Phase) (k : Phase → M IngestBatch) :
  (∀ db, advance ph announced db = tick n m announced db) →
  (∀ db ph' db', m db = (Ok ph', db') → yields n announced ph' (k ph')) →
  yields n announced ph (x ← m; k x).
Proof.
  intros Hadv Hk db. specialize (Hadv db). unfold tick in Hadv. unfold mbind, M_bind.
  destruct (m db) as [[x|e] db1] eqn:Hm.
  - specialize (Hk _ _ _ Hm db1). destruct (k x db1) as [[batch|e] db2]; by apply (goes_step _ _ _ _ [] _ [] Hadv Hk).
  - apply (goes_step _ _ _ _ [] _ [] Hadv). apply goes_refl.
Qed.

Lemma poll_cases n db ph db' :
  poll n db = (Ok ph, db') → ph = Tip [] [] ∨ ∃ cursor items, ph = Fetched n cursor items.
Proof.
  unfold poll, mbind, M_bind. destruct (liftR _ _ db) as [[tip|e] db1]; [|done].
  destruct (start_cursor _ _ db1) as [[cursor|e] db2]; [|done].
  destruct (_ <? _); [intros [= <- <-]; by left|]. cbv zeta. destruct (_ <? _); [intros [= <- <-]; by left|].
  destruct (liftR _ _ db2) as [[items|e] db3]; [|done]. intros [= <- <-]. right. by eexists _, _.
Qed.

(** The rest of [ingest_chain] after the window is fetched, or without one. *)
Definition rest_of (ph : Phase) : M IngestBatch :=
  match ph with
  | Fetched _ cursor items => ingest_window config chain node cursor items
  | _ => mret empty_batch
  end.

Lemma yields_idle n announced : yields n announced (Idle n) (ingest_chain config chain node).
Proof.
  apply (yields_step _ _ _ _ (λ _, Polling n)); [done|]. intros _.
  apply (yields_ext _ _ _ (ph ← poll n; rest_of ph)).
  { intros db. unfold poll, mbind, M_bind. destruct (liftR _ _ db) as [[tip|e] db1]; [|done].
    destruct (start_cursor _ _ db1) as [[cursor|e] db2]; [|done]. destruct (_ <? _); [done|]. cbv zeta.
    destruct (_ <? _); [done|]. by destruct (liftR _ _ db2) as [[items|e] db3]. }
  apply yields_poll; [done|]. intros db ph' db' [->|(cursor & items & ->)]%poll_cases.
  - intros db1. apply goes_refl.
  - apply yields_fetched.
Qed.
(** The announcements after the batch. *)
Lemma goes_groups found : ∀ announced db,
  match announce_groups p2p announced found db with
  | (Ok (announced', msgs), db') => goes (Groups found, announced, db) msgs (Idle 0, announced', db')
  | (Err _, _) => ∃ msgs announced' db', goes (Groups found, announced, db) msgs (Panicked, announced', db')
  end.
Proof.
  induction found as [|p found IH]; intros announced db.
  { by eapply (goes_step _ _ _ _ [] _ []); [|apply goes_refl]. }
  cbn [announce_groups]. unfold mbind at 1, M_bind at 1.
  destruct (announce_sibling_group p2p announced p db) as [[[announced1 m]|e] db1] eqn:Hm.
  - assert (advance (Groups (p :: found)) announced db = ((Groups found, announced1, db1), option_list m)) as Hadv.
    { cbn [advance]. unfold announcing. by rewrite Hm. }
    specialize (IH announced1 db1). unfold mbind at 1, M_bind at 1.
    destruct (announce_groups p2p announced1 found db1) as [[[announced2 msgs]|e] db2].
    + eapply goes_step; [exact Hadv|exact IH].
    + destruct IH as (msgs & announced2 & db3 & IH). eexists _, _, _. eapply goes_step; [exact Hadv|exact IH].
  - exists [], announced, db1. eapply (goes_step _ _ _ _ [] _ []); [|apply goes_refl].
    cbn [advance]. unfold announcing. by rewrite Hm.
Qed.

Lemma goes_tip bs found announced db :
  match (match bs with [] => (Ok None, db) | _ => announce_batch_tip p2p chain (mkBatch bs found) db end) with
  | (Ok m, db') => goes (Tip bs found, announced, db) (option_list m) (Groups found, announced, db')
  | (Err _, db') => goes (Tip bs found, announced, db) [] (Panicked, announced, db')
  end.
Proof.
  destruct bs as [|b bs].
  { by eapply (goes_step _ _ _ _ [] _ []); [|apply goes_refl]. }
  destruct (announce_batch_tip _ _ _ db) as [[m|e] db1] eqn:Hm.
  - rewrite <-(app_nil_r (option_list m)). eapply goes_step; [|apply goes_refl].
    cbn [advance]. unfold announcing. by rewrite Hm.
  - eapply (goes_step _ _ _ _ [] _ []); [|apply goes_refl]. cbn [advance]. unfold announcing. by rewrite Hm.
Qed.

(** The delay after a failure. *)
Lemma goes_failing announced n db random :
  match backoff_delay config n random with
  | Some _ => goes (Failing n, announced, db) [] (Idle n, announced, db)
  | None => goes (Failing n, announced, db) [] (Panicked, announced, db)
  end.
Proof.
  assert (goes (Failing n, announced, db) [] (after_failure n, announced, db)) as Hg
    by (eapply (goes_step _ _ _ _ [] _ []); [reflexivity|apply goes_refl]). unfold after_failure in Hg.
  destruct (backoff_delay config n random) as [d|] eqn:Hd, (backoff_delay config n 0) as [d0|] eqn:Hd0; try done.
  - by rewrite (backoff_delay_None _ _ _ _ Hd0) in Hd.
  - by rewrite (backoff_delay_None _ _ _ _ Hd) in Hd0.
Qed.
End tasks.

(** The round as steps. *)
Lemma round_goes `{Sha256} `{HexCodec} `{Codec} (config : Config) (chain : AuxChain) (p2p : bool)
    (jitter : Z) (node : Node) (st : LoopState) (db : Database) :
  match chain_round config chain p2p jitter node st db with
  | Some (st', msgs, delay, db') =>
      goes config chain p2p node (Idle (failures st), announced_set st, db) msgs
        (Idle (failures st'), announced_set st', db')
  | None => ∃ msgs announced db',
      goes config chain p2p node (Idle (failures st), announced_set st, db) msgs (Panicked, announced, db')
  end.
Proof.
  unfold chain_round. pose proof (yields_idle config chain p2p node (failures st) (announced_set st) db) as Hy.
  destruct (ingest_chain config chain node db) as [[batch|e] db1].
  2: { pose proof (goes_failing config chain p2p node (announced_set st) (u32_wrap (failures st + 1)) db1 jitter) as Hf.
       destruct e; try (by eexists _, _, _).
       all: destruct (backoff_delay _ _ _); [|eexists _, _, _]; exact (goes_trans _ _ _ _ _ _ _ _ _ Hy Hf). }
  pose proof (goes_tip config chain p2p node (batch_blocks batch) (new_mainnet_parents batch) (announced_set st) db1) as Ht.
  replace (mkBatch _ _) with batch in Ht by (by destruct batch).
  destruct (match batch_blocks batch with [] => _ | _ => _ end) as [[tip_msg|e] db2].
  - pose proof (goes_groups config chain p2p node (new_mainnet_parents batch) (announced_set st) db2) as Hg.
    destruct (announce_groups _ _ _ db2) as [[[announced msgs]|e] db3].
    + exact (goes_trans _ _ _ _ _ _ _ _ _ Hy (goes_trans _ _ _ _ _ _ _ _ _ Ht Hg)).
    + destruct Hg as (msgs & announced & db4 & Hg). eexists _, _, _.
      exact (goes_trans _ _ _ _ _ _ _ _ _ Hy (goes_trans _ _ _ _ _ _ _ _ _ Ht Hg)).
  - eexists _, _, _. exact (goes_trans _ _ _ _ _ _ _ _ _ Hy Ht).
Qed.
