(* ===== verification/Metrics.v ===== *)
(** * Metrics

    [src/metrics.rs], the increments of the ingest loop in [src/ingest.rs] and the
    middleware of [create_router] that counts requests.  The collectors of the
    prometheus crate are the class [Prometheus], with what its documentation says
    of them: creation and registration succeed on valid names, an access with the
    wrong number of labels panics, an access creates the series, counters add and
    gauges are set.  [None] is a panic.  The instrumented loop is proved to be the
    loop of [Tasks], with counters that say what happened. *)

From S2P Require Export Tasks.

#[local] Open Scope Z_scope.

(** ** The collectors *)

Record Opts := mkOpts { op_name : string; op_help : string }.

(** The names that prometheus accepts: [[a-zA-Z_:][a-zA-Z0-9_:]*]. *)
Definition name_start (c : ascii) : bool :=
  let n := Ascii.nat_of_ascii c in
  ((65 <=? n) && (n <=? 90) || (97 <=? n) && (n <=? 122) || (n =? 95) || (n =? 58))%nat.
Definition name_char (c : ascii) : bool :=
  let n := Ascii.nat_of_ascii c in name_start c || ((48 <=? n) && (n <=? 57))%nat.
Definition valid_name (s : string) : bool :=
  match String.list_ascii_of_string s with
  | [] => false
  | c :: cs => name_start c && forallb name_char cs
  end.
Definition valid_desc (o : Opts) (labels : list string) : bool :=
  valid_name (op_name o) && negb (bool_decide (op_help o = EmptyString)) &&
  forallb valid_name labels && bool_decide (NoDup labels).

(** A [Vec] is a family of integer series (a collector without labels has one), a
    [Hist] a family of histograms, with times in nanoseconds and bucket bounds in
    milliseconds. *)
Class Prometheus := {
  Vec : Type;
  vec_new : Opts → list string → option Vec;
  vec_arity : Vec → nat;
  vec_get : list string → Vec → option Z;
  counter_inc_by : list string → Z → Vec → option Vec;
  gauge_set : list string → Z → Vec → option Vec;
  Hist : Type;
  hist_new : Opts → list Z → list string → option Hist;
  hist_arity : Hist → nat;
  hist_observe : list string → Z → Hist → option Hist;
  Registry : Type;
  registry_new : string → Registry;
  registered : Registry → list string;
  register : Opts → Registry → option Registry;

  vec_new_ok : ∀ o ls, valid_desc o ls = true →
    ∃ v, vec_new o ls = Some v ∧ vec_arity v = length ls ∧ ∀ l, vec_get l v = None;
  counter_inc_ok : ∀ ls n v, length ls = vec_arity v → ∃ v',
    counter_inc_by ls n v = Some v' ∧ vec_arity v' = vec_arity v ∧
    (∀ ls', ls' ≠ ls → vec_get ls' v' = vec_get ls' v) ∧
    (0 ≤ n → default 0 (vec_get ls v) + n ≤ u64_max → vec_get ls v' = Some (default 0 (vec_get ls v) + n));
  gauge_set_ok : ∀ ls n v, length ls = vec_arity v → ∃ v',
    gauge_set ls n v = Some v' ∧ vec_arity v' = vec_arity v ∧
    (∀ ls', vec_get ls' v' = if decide (ls' = ls) then Some n else vec_get ls' v);
  hist_new_ok : ∀ o bs ls, valid_desc o ls = true → bs ≠ [] → StronglySorted Z.lt bs →
    ∃ h, hist_new o bs ls = Some h ∧ hist_arity h = length ls;
  hist_observe_ok : ∀ ls n h, length ls = hist_arity h →
    ∃ h', hist_observe ls n h = Some h' ∧ hist_arity h' = hist_arity h;
  registry_new_ok : ∀ ns, registered (registry_new ns) = [];
  register_ok : ∀ o r, op_name o ∉ registered r →
    ∃ r', register o r = Some r' ∧ registered r' = op_name o :: registered r
}.

(** ** The data *)

Definition request_buckets : list Z := [1; 5; 10; 25; 50; 100; 250; 500; 1000; 2500; 5000; 10000].

(** The fields of [Metrics] that hold integer series. *)
Inductive Family :=
  | http_requests | ingest_blocks | ingest_ticks | ingest_errors | family_resolves | prune_blocks
  | indexed_blocks | chain_cursor | sibling_groups | indexed_parents | uptime_seconds.
#[export] Instance Family_eq_dec : EqDecision Family.
Proof. solve_decision. Defined.

Definition opts (f : Family) : Opts :=
  match f with
  | http_requests => mkOpts "http_requests_total" "HTTP requests by route"
  | ingest_blocks => mkOpts "ingest_blocks_total" "Blocks ingested per chain"
  | ingest_ticks => mkOpts "ingest_ticks_total" "Ingest ticks per chain"
  | ingest_errors => mkOpts "ingest_errors_total" "Failed ingest ticks per chain"
  | family_resolves => mkOpts "parent_resolves_total" "Parent classifications by state"
  | prune_blocks => mkOpts "prune_blocks_total" "Blocks pruned per chain"
  | indexed_blocks => mkOpts "indexed_blocks" "Indexed blocks per chain"
  | chain_cursor => mkOpts "chain_cursor" "Stored cursor per chain"
  | sibling_groups => mkOpts "sibling_groups" "Mainnet sibling groups (>= 2 legs)"
  | indexed_parents => mkOpts "indexed_parents" "Distinct embedded parent headers"
  | uptime_seconds => mkOpts "uptime_seconds" "Node uptime in seconds"
  end%string.
Definition http_request_seconds_opts : Opts :=
  mkOpts "http_request_seconds" "HTTP request latency by route".
Definition label_names (f : Family) : list string :=
  match f with
  | http_requests => ["method"; "route"]
  | family_resolves => ["state"]
  | sibling_groups | indexed_parents | uptime_seconds => []
  | _ => ["chain_id"]
  end%string.

Section metrics.
Context `{Prometheus}.

Record Metrics := mkMetrics {
  registry : Registry;
  series : Family → Vec;
  http_request_seconds : Hist;
  started_at : Z
}.

Definition new_vec (f : Family) : option Vec := vec_new (opts f) (label_names f).

Fixpoint register_all (os : list Opts) (r : Registry) : option Registry :=
  match os with [] => Some r | o :: os => r ← register o r; register_all os r end.

(** In the order of the registrations. *)
Definition collectors : list Opts :=
  (opts <$> [http_requests; ingest_blocks; ingest_ticks; ingest_errors; family_resolves; prune_blocks;
             indexed_blocks; chain_cursor]) ++
  http_request_seconds_opts :: (opts <$> [sibling_groups; indexed_parents; uptime_seconds]).

Definition Metrics_new (now : Z) : option Metrics :=
  v_requests ← new_vec http_requests;
  h ← hist_new http_request_seconds_opts request_buckets ["method"; "route"]%string;
  v_blocks ← new_vec ingest_blocks;
  v_ticks ← new_vec ingest_ticks;
  v_errors ← new_vec ingest_errors;
  v_resolves ← new_vec family_resolves;
  v_prune ← new_vec prune_blocks;
  v_indexed ← new_vec indexed_blocks;
  v_cursor ← new_vec chain_cursor;
  v_groups ← new_vec sibling_groups;
  v_parents ← new_vec indexed_parents;
  v_uptime ← new_vec uptime_seconds;
  r ← register_all collectors (registry_new "psob_indexer");
  Some (mkMetrics r (λ f, match f with
    | http_requests => v_requests | ingest_blocks => v_blocks | ingest_ticks => v_ticks
    | ingest_errors => v_errors | family_resolves => v_resolves | prune_blocks => v_prune
    | indexed_blocks => v_indexed | chain_cursor => v_cursor | sibling_groups => v_groups
    | indexed_parents => v_parents | uptime_seconds => v_uptime
    end) h now).

Definition set_series (f : Family) (v : Vec) (m : Metrics) : Metrics :=
  mkMetrics (registry m) (λ g, if decide (g = f) then v else series m g) (http_request_seconds m) (started_at m).

(** [self.f.with_label_values(ls).inc_by(n)], and [.set(n)]. *)
Definition inc_by (f : Family) (ls : list string) (n : Z) (m : Metrics) : option Metrics :=
  v ← counter_inc_by ls n (series m f); Some (set_series f v m).
Definition set_gauge (f : Family) (ls : list string) (n : Z) (m : Metrics) : option Metrics :=
  v ← gauge_set ls n (series m f); Some (set_series f v m).

(** The middleware, once the request is answered. *)
Definition count_request (method route : string) (elapsed : Z) (m : Metrics) : option Metrics :=
  m ← inc_by http_requests [method; route] 1 m;
  h ← hist_observe [method; route] elapsed (http_request_seconds m);
  Some (mkMetrics (registry m) (series m) h (started_at m)).

(** ** The scrape *)

Definition as_i64 (n : Z) : Z := if u64_wrap n <? 2 ^ 63 then u64_wrap n else u64_wrap n - 2 ^ 64.

Definition set_chain_gauges (c : ChainStats) (m : Metrics) : option Metrics :=
  let label := pretty (cs_chain_id c) in
  m ← set_gauge indexed_blocks [label] (as_i64 (cs_blocks c)) m;
  match cs_max_height c with
  | Some h => set_gauge chain_cursor [label] (as_i64 h) m
  | None => Some m
  end.
Fixpoint set_all_gauges (cs : list ChainStats) (m : Metrics) : option Metrics :=
  match cs with [] => Some m | c :: cs => m ← set_chain_gauges c m; set_all_gauges cs m end.

(** [render] before the encoding, at the instant [now]. *)
Definition refresh (now : Z) (st : Stats) (m : Metrics) : option Metrics :=
  m ← set_gauge uptime_seconds [] (as_i64 (Z.max 0 (now - started_at m) / 1000000000)) m;
  m ← set_all_gauges (st_chains st) m;
  m ← set_gauge sibling_groups [] (as_i64 (st_sibling_groups st)) m;
  set_gauge indexed_parents [] (as_i64 (st_total_parents st)) m.

(** [metrics_handler]; [render_text] is the encoder. *)
Definition render (render_text : Metrics → string) (now : Z) (db : Database) (m : Metrics) :
    option (string * Metrics) :=
  m ← refresh now (stats db) m;
  Some (render_text m, m).
End metrics.

(** ** The instrumented loop

    [advance] of [Tasks] with the increments where the code has them: [chain_loop]
    counts the tick, the failure and the blocks, [ingest_chain] the pruned blocks
    and [classify_pending_parents] the classifications. *)

Section loop.
Context `{Sha256} `{HexCodec} `{Codec} `{Prometheus}.
Context (config : Config) (chain : AuxChain) (p2p : bool) (node : Node).

Definition Metered : Type := option (TaskState * list Announcement * Metrics).
Definition chain_label : list string := [pretty (ac_chain_id chain)].

(** A call inside [ingest_chain], and what is counted after it. *)
Definition metered_tick {A} (fails : Z) (call : M A) (count : A → Metrics → option Metrics) (next : A → Phase)
    (announced : gset bytes) (db : Database) (m : Metrics) : Metered :=
  match call db with
  | (Ok a, db) => m ← count a m; Some ((next a, announced, db), [], m)
  | (Err DbPanic, db) => Some ((Panicked, announced, db), [], m)
  | (Err _, db) => m ← inc_by ingest_errors chain_label 1 m; Some ((Failing (u32_wrap (fails + 1)), announced, db), [], m)
  end.
Definition uncounted {A} (a : A) (m : Metrics) : option Metrics := Some m.

Definition state_label (ltc_height : option Z) : list string :=
  [if ltc_height is Some _ then "mainnet" else "trial"]%string.

Definition advance_metered (ph : Phase) : gset bytes → Database → Metrics → Metered :=
  match ph with
  | Idle n => λ announced db m,
      m ← inc_by ingest_ticks chain_label 1 m;
      metered_tick n (upsert_chain (ac_chain_id chain) (ac_name chain) (ac_electrs chain)) uncounted
        (λ _, Polling n) announced db m
  | Failing n => λ announced db m, Some ((after_failure config n, announced, db), [], m)
  | Polling n => metered_tick n (poll config chain node n) uncounted id
  | Fetched n cursor items => metered_tick n (check_window chain n cursor items) uncounted id
  | Rolling n start pending h =>
      metered_tick n (rollback_from (ac_chain_id chain) h) uncounted (λ _, Storing n start pending)
  | Storing n start [] => metered_tick n (mret ()) uncounted (λ _, Listing n [])
  | Storing n start pending =>
      metered_tick n (insert_blocks (insert_rows_of pending)) uncounted
        (λ _, Advancing n (default (saturating_sub start 1) (sb_height <$> last pending)) pending)
  | Advancing n last_ pending =>
      metered_tick n (set_cursor_height (ac_chain_id chain) last_) uncounted (λ _, Pruning n last_ pending)
  | Pruning n last_ pending =>
      metered_tick n (prune_rows config chain last_)
        (λ removed, match removed with Some k => inc_by prune_blocks chain_label k | None => Some end)
        (λ _, Listing n pending)
  | Listing n pending =>
      metered_tick n get_db uncounted (λ db, Classifying n pending (unclassified_parents db) [])
  | Classifying n pending [] found => metered_tick n (mret ()) uncounted (λ _, Tip pending found)
  | Classifying n pending (p :: todo) found =>
      let ltc_height := match resolve_parent node p with Ok o => o | Err _ => None end in
      metered_tick n (classify_parent p ltc_height)
        (λ _, inc_by family_resolves (state_label ltc_height) 1)
        (λ _, Classifying n pending todo (match ltc_height with Some _ => found ++ [p] | None => found end))
  | Tip [] found => λ announced db m, Some ((Groups found, announced, db), [], m)
  | Tip pending found => λ announced db m,
      m ← inc_by ingest_blocks chain_label (len pending) m;
      Some (announcing (announce_batch_tip p2p chain (mkBatch pending found))
              (λ msg, (Groups found, announced, option_list msg)) announced db, m)
  | Groups [] => λ announced db m, Some ((Idle 0, announced, db), [], m)
  | Groups (p :: found) => λ announced db m,
      Some (announcing (announce_sibling_group p2p announced p)
              (λ r, (Groups found, r.1, option_list r.2)) announced db, m)
  | Panicked => λ announced db m, Some ((Panicked, announced, db), [], m)
  end.
End loop.

(** ** The middleware

    The label of a request is the route it matched, else its path. *)

Definition route_label (matched : option string) (path : string) : string := default path matched.
Record Hit := mkHit { hit_method : string; hit_matched : option string; hit_path : string; hit_elapsed : Z }.
Definition hit_labels (r : Hit) : list string := [hit_method r; route_label (hit_matched r) (hit_path r)].

Definition metrics_middleware `{Prometheus} (r : Hit) (m : Metrics) : option Metrics :=
  count_request (hit_method r) (route_label (hit_matched r) (hit_path r)) (hit_elapsed r) m.
