(* ===== verification/Sound.v ===== *)
(** * What nothing can break

    A block is in the store, cached or durable, only if it verified; it is listed
    under a parent only if its witness is in that parent; a parent has a height
    only if a resolver said so; and an intent is in the book only if it was
    validated.  This holds after any section of any call to the database, whatever
    the other threads did before it and whatever its transactions do: the relation
    between caches and tables, which the functional theorems of the storage need, is
    not assumed here.  [secure] is the judgement over the sections of a call, with
    its rules in the hint database [secure]; it also bounds what the call returns. *)

From S2P Require Export Split Tasks.

#[local] Open Scope Z_scope.

(** What the store vouches for: the proof-of-work limit of each chain, what holds of
    an intent of the book, and of a parent and its height. *)
Record Vouch := mkVouch {
  vo_limit : Z → option Z;
  vo_intent : SwapIntentMessage → Prop;
  vo_height : bytes → Z → Prop
}.
Definition height_ok (vouch : Vouch) (p : bytes) (height : option Z) : Prop :=
  ∀ h, height = Some h → vo_height vouch p h.

Section sound.
Context `{Sha256} `{HexCodec} `{Codec}.
Context (vouch : Vouch).

(** A block under its own key, verified under the limit of its chain. *)
Definition good_block (k : Z * Z) (b : StoredBlock) : Prop :=
  k = block_key b ∧ ∃ plb, vo_limit vouch k.1 = Some plb ∧ valid_stored plb b.
(** A verified block whose witness is in the parent [p]. *)
Definition anchored (p : bytes) (b : StoredBlock) : Prop :=
  good_block (block_key b) b ∧ db_parent_hash b = Some p.

Record sound_disk (d : Disk) : Prop := {
  sd_blocks : ∀ k v, t_blocks d !! k = Some v → ∃ b, v = enc_block b ∧ good_block k b;
  sd_parents : ∀ p v, t_parents d !! p = Some v → ∃ sp, v = enc_parent sp ∧ height_ok vouch p (sp_ltc_height sp);
  sd_intents : ∀ id v i, t_intents d !! id = Some v → dec_intent v = Some i → vo_intent vouch i
}.
Record sound (db : Database) : Prop := {
  so_disk : sound_disk (disk db);
  so_blocks : ∀ k b, cache_blocks db !! k = Some b → good_block k b;
  so_parents : ∀ p sp, cache_parents db !! p = Some sp → height_ok vouch p (sp_ltc_height sp);
  so_siblings : ∀ p l, cache_siblings db !! p = Some l → Forall (anchored p) l;
  so_intents : ∀ id i, cache_intents db !! id = Some i → vo_intent vouch i
}.

End sound.

(** A transaction that removes blocks and intents, and writes decodable parents. *)
Section disks.
Context `{Sha256} `{HexCodec} `{Codec}.
Context (vouch : Vouch).
Abbreviation sound_disk := (sound_disk vouch).

Definition shrinks (d d' : Disk) : Prop :=
  t_blocks d' ⊆ t_blocks d ∧ t_intents d' ⊆ t_intents d ∧
  (∀ p v, t_parents d' !! p = Some v → t_parents d !! p = Some v ∨ ∃ sp, v = enc_parent sp ∧ height_ok vouch p (sp_ltc_height sp)).

Lemma shrinks_sound d d' : shrinks d d' → sound_disk d → sound_disk d'.
Proof.
  intros (Hb & Hi & Hp) [Hsb Hsp Hsi]. split.
  - intros k v Hk. apply Hsb. by eapply lookup_weaken.
  - intros p v [?|?]%Hp; [by eapply Hsp|done].
  - intros id v i Hv. eapply Hsi. by eapply lookup_weaken.
Qed.
Lemma shrinks_same d d' :
  t_blocks d' = t_blocks d → t_intents d' = t_intents d → t_parents d' = t_parents d → shrinks d d'.
Proof. intros Hb Hi Hp. unfold shrinks. rewrite Hb, Hi, Hp. by split_and!; [..|left]. Qed.
Lemma set_faults_sound fs db : sound vouch db → sound vouch (set_faults fs db).
Proof. by intros [? ? ? ?]. Qed.
Lemma set_disk_sound d db : sound_disk d → sound vouch db → sound vouch (set_disk d db).
Proof. by intros Hd [? ? ? ?]. Qed.
End disks.

(** ** The judgement *)

(** Each section keeps [I], from any state with [I], and the result has [Q]. *)
Fixpoint secure {S A} (I : S → Prop) (Q : Result DbError A → Prop) (p : Steps S A) : Prop :=
  match p with
  | Finished r => Q r
  | Step f k => ∀ s, I s → I (f s).2 ∧ secure I Q (k (f s).1)
  end.

(** A value with [P], or an error that is not a panic; and a value with [P]. *)
Definition may {A} (P : A → Prop) (r : Result DbError A) : Prop :=
  match r with Ok a => P a | Err e => e ≠ DbPanic end.
Definition gives {A} (P : A → Prop) (r : Result DbError A) : Prop :=
  match r with Ok a => P a | Err _ => False end.

Section secure.
Context {S : Type} (I : S → Prop).

Lemma secure_run {A} Q (p : Steps S A) s : secure I Q p → I s → I (run_steps p s).2 ∧ Q (run_steps p s).1.
Proof.
  revert s. induction p as [r|B f k IH]; intros s Hp Hs; [done|]. cbn. destruct (Hp s Hs) as [Hs' Hk].
  destruct (f s) as [b s']. by apply IH.
Qed.
Lemma secure_weaken {A} (Q Q' : Result DbError A → Prop) p : secure I Q p → (∀ r, Q r → Q' r) → secure I Q' p.
Proof.
  intros Hp HQ. induction p as [r|B f k IH]; [by apply HQ|]. intros s Hs. destruct (Hp s Hs). split; [done|by apply IH].
Qed.
Lemma secure_bind {A B} Q (p : Steps S A) (k : A → Steps S B) :
  secure I (λ r, match r with Ok a => secure I Q (k a) | Err e => Q (Err e) end) p → secure I Q (p ≫= k).
Proof.
  unfold mbind, Steps_bind. induction p as [[a|e]|C f l IH]; [done..|]. intros Hp s Hs. destruct (Hp s Hs).
  split; [done|by apply IH].
Qed.
Lemma secure_may_bind {A B} P Q (p : Steps S A) (k : A → Steps S B) :
  secure I (may P) p → (∀ a, P a → secure I (may Q) (k a)) → secure I (may Q) (p ≫= k).
Proof. intros Hp Hk. eapply secure_bind, secure_weaken; [exact Hp|]. intros [a|e]; [apply Hk|done]. Qed.
Lemma secure_gives_bind {A B} P Q (p : Steps S A) (k : A → Steps S B) :
  secure I (gives P) p → (∀ a, P a → secure I Q (k a)) → secure I Q (p ≫= k).
Proof. intros Hp Hk. eapply secure_bind, secure_weaken; [exact Hp|]. by intros [a|e]; [apply Hk|]. Qed.
Lemma secure_gives {A} P (p : Steps S A) : secure I (gives P) p → secure I (may P) p.
Proof. intros Hp. eapply secure_weaken; [exact Hp|]. by intros [a|e]. Qed.
Lemma secure_ret {A} (P : A → Prop) a : P a → secure I (may P) (mret a).
Proof. done. Qed.
Lemma secure_none {A} (P : A → Prop) : secure I (may (λ o, ∀ y, o = Some y → P y)) (mret None).
Proof. by intros y. Qed.
Lemma secure_any {A} (a : A) : secure I (may (λ _, True)) (mret a).
Proof. done. Qed.
Lemma secure_stop {A} (P : A → Prop) e : e ≠ DbPanic → secure I (may P) (stop e).
Proof. done. Qed.
Lemma secure_read {A} (P : A → Prop) (f : S → A) : (∀ s, I s → P (f s)) → secure I (may P) (reading f).
Proof. intros Hf s Hs. split; [done|by apply Hf]. Qed.
Lemma secure_reading {A B} Q (f : S → A) (k : A → Steps S B) :
  (∀ s, I s → secure I Q (k (f s))) → secure I Q (reading f ≫= k).
Proof. intros Hk s Hs. split; [done|by apply Hk]. Qed.
Lemma secure_write (f : S → S) : (∀ s, I s → I (f s)) → secure I (may (λ _, True)) (writing f).
Proof. intros Hf s Hs. split; [by apply Hf|done]. Qed.
Lemma secure_writing {B} Q (f : S → S) (k : unit → Steps S B) :
  (∀ s, I s → I (f s)) → secure I Q (k ()) → secure I Q (writing f ≫= k).
Proof. intros Hf Hk s Hs. split; [by apply Hf|done]. Qed.
Lemma secure_attempt {A} (P : A → Prop) (p : Steps S A) :
  secure I (may P) p → secure I (gives (may P)) (attempt p).
Proof.
  induction p as [r|B f k IH]; [done|]. intros Hp s Hs. destruct (Hp s Hs) as [Hs' Hk]. split; [done|]. by apply IH.
Qed.
Lemma secure_each {A} (f : A → Steps S unit) l :
  (∀ x, x ∈ l → secure I (may (λ _, True)) (f x)) → secure I (may (λ _, True)) (each f l).
Proof.
  induction l as [|x l IH]; intros Hf; [done|]. eapply secure_may_bind; [by apply Hf; left|]. intros _ _.
  apply IH. intros y Hy. apply Hf. by right.
Qed.
Lemma secure_collect {A B} (P : B → Prop) (f : A → Steps S (option B)) l :
  (∀ x, x ∈ l → secure I (may (λ o, ∀ y, o = Some y → P y)) (f x)) → secure I (may (Forall P)) (collect f l).
Proof.
  induction l as [|x l IH]; intros Hf; [apply secure_ret; constructor|]. eapply secure_may_bind; [by apply Hf; left|].
  intros o Ho. eapply secure_may_bind; [apply IH; intros y Hy; apply Hf; by right|]. intros ys Hys. apply secure_ret.
  apply Forall_app. split; [|done]. destruct o as [y|]; constructor; [by apply Ho|constructor].
Qed.
Lemma secure_scan {K V B} `{Countable K} (P : B → Prop) (m : S → gmap K V) (f : K → V → Steps S (option B)) :
  (∀ s k v, I s → m s !! k = Some v → secure I (may (λ o, ∀ y, o = Some y → P y)) (f k v)) →
  secure I (may (Forall P)) (scan m f).
Proof.
  intros Hf. apply secure_reading. intros s _. apply secure_collect. intros k _.
  apply secure_reading. intros s' Hs'. destruct (m s' !! k) as [v|] eqn:Hv; [by eapply Hf|by apply secure_ret].
Qed.
Lemma secure_scan_any {K V B} `{Countable K} (m : S → gmap K V) (f : K → V → Steps S (option B)) :
  (∀ k v, secure I (may (λ _, True)) (f k v)) → secure I (may (λ _, True)) (scan m f).
Proof.
  intros Hf. eapply secure_weaken; [apply (secure_scan (λ _, True))|by intros [?|?]].
  intros s k v _ _. eapply secure_weaken; [apply Hf|by intros [?|?]].
Qed.
Lemma secure_scan_gives {K V B} `{Countable K} (m : S → gmap K V) (f : K → V → Steps S (option B)) :
  (∀ k v, secure I (gives (λ _, True)) (f k v)) → secure I (gives (λ _, True)) (scan m f).
Proof.
  intros Hf. apply secure_reading. intros s _. generalize (map_to_list (m s)).*1. intros l.
  induction l as [|k l IH]; [done|]. cbn [collect]. eapply (secure_gives_bind (λ _, True)).
  - apply secure_reading. intros s' _. by destruct (m s' !! k).
  - intros o _. eapply secure_gives_bind; [exact IH|done].
Qed.
End secure.

Create HintDb secure.
#[export] Hint Resolve secure_ret secure_any secure_stop secure_gives : secure.
#[export] Hint Extern 1 (_ ≠ DbPanic) => discriminate : secure.

(** [secure_steps] walks through the sections of a call; a write to what [sound] does
    not speak of keeps it. *)
Ltac secure_write := intros ? []; by split.
Ltac secure_steps :=
  repeat first
    [ solve [eauto with secure]
    | exact Logic.I
    | progress cbv zeta
    | eapply secure_may_bind; [solve [eauto with secure]|intros ? ?]
    | apply secure_reading; intros ? ?
    | apply secure_writing; [secure_write|]
    | apply secure_write; secure_write
    | case_match ].

Lemma elem_of_page {A} page (l : list A) x : x ∈ page_of page l → x ∈ l.
Proof.
  unfold page_of. intros Hx. rewrite <-(take_drop (Z.to_nat (page_offset page)) l), elem_of_app. right.
  rewrite <-(take_drop (Z.to_nat (page_limit page)) (drop _ l)), elem_of_app. by left.
Qed.

Section operations.
Context `{Sha256} `{HexCodec} `{Codec}.
Context (vouch : Vouch).
Abbreviation secure := (secure (sound vouch)).
Abbreviation good_block := (good_block vouch).
Abbreviation anchored := (anchored vouch).
Abbreviation sound := (sound vouch).
Abbreviation sound_disk := (sound_disk vouch).
Abbreviation shrinks := (shrinks vouch).
Abbreviation finishes := (may (λ _, True)).

Lemma secure_commit {A} (f : Disk → Result DbError (A * Disk)) :
  (∀ d, match f d with Ok (_, d') => sound_disk d → sound_disk d' | Err e => e ≠ DbPanic end) → secure finishes (commit f).
Proof.
  intros Hf db Hs. unfold write_txn. destruct (faults db) as [|[|] fs]; cbn [tail]; [|by split; [apply set_faults_sound|]|].
  all: cbn [disk set_faults]; specialize (Hf (disk db)); destruct (f (disk db)) as [[a d]|e]; cbn;
    (split; [|done]); try (by apply set_faults_sound).
  all: apply set_disk_sound; [by apply Hf, so_disk|by apply set_faults_sound].
Qed.
Lemma secure_shrink {A} (f : Disk → Result DbError (A * Disk)) :
  (∀ d, match f d with Ok (_, d') => shrinks d d' | Err e => e ≠ DbPanic end) → secure finishes (commit f).
Proof.
  intros Hf. apply secure_commit. intros d. specialize (Hf d). destruct (f d) as [[a d']|e]; [|done].
  intros Hd. by eapply shrinks_sound.
Qed.

Lemma secure_get_meta key : secure (gives (λ _, True)) (get_meta_steps key).
Proof. unfold get_meta_steps. secure_steps. Qed.
Lemma secure_set_meta key v : secure finishes (set_meta_steps key v).
Proof. apply secure_writing; [secure_write|]. apply secure_shrink. intros d. by apply shrinks_same. Qed.
#[local] Hint Resolve secure_get_meta secure_set_meta : secure.
Lemma secure_upsert_chain c n e : secure finishes (upsert_chain_steps c n e).
Proof. unfold upsert_chain_steps. secure_steps. Qed.
Lemma secure_cursor_height c : secure (gives (λ _, True)) (cursor_height_steps c).
Proof. eapply secure_gives_bind; [apply secure_get_meta|]. done. Qed.
Lemma secure_set_cursor_height c h : secure finishes (set_cursor_height_steps c h).
Proof. apply secure_set_meta. Qed.
Lemma secure_chain_registry : secure (gives (λ _, True)) chain_registry_steps.
Proof. apply secure_scan_gives. done. Qed.

(** Keys removed from a map, one after the other. *)
Lemma delete_each_subseteq {V} (ids : list string) : ∀ t : gmap string V, foldl (λ t id, delete id t) t ids ⊆ t.
Proof.
  induction ids as [|id ids IH]; intros t; [done|]. cbn [foldl]. etrans; [apply IH|]. apply delete_subseteq.
Qed.
Lemma secure_prune_expired now : secure finishes (prune_expired_intents_steps now).
Proof.
  unfold prune_expired_intents_steps. eapply secure_may_bind; [by apply secure_scan_any|]. intros expired _. cbv zeta.
  destruct (_ =? _); [done|]. eapply secure_may_bind.
  { apply secure_shrink. intros d. split_and!; [done|apply delete_each_subseteq|by left]. }
  intros _ _. eapply secure_may_bind; [|done]. apply secure_each. intros id _. apply secure_write.
  intros db [? ? ? ? Hi]. split; [done..|]. cbn. intros id' i [_ Hid]%lookup_delete_Some. by eapply Hi.
Qed.
#[local] Hint Resolve secure_prune_expired : secure.
Lemma secure_insert_intent now i : vo_intent vouch i → secure finishes (insert_intent_steps now i).
Proof.
  intros Hv. unfold insert_intent_steps. eapply secure_may_bind; [apply secure_prune_expired|]. intros _ _.
  apply secure_reading. intros db _. destruct (_ <=? _); [by apply secure_stop|]. cbv zeta. apply secure_writing.
  - intros db' [? ? ? ? Hi]. split; [done..|]. cbn. intros id j [[_ <-]|[_ ?]]%lookup_insert_Some; [done|by eapply Hi].
  - apply secure_commit. intros d [Hb Hp Hi]. split; [done..|]. cbn.
    intros id v j [[_ <-]|[_ ?]]%lookup_insert_Some Hj; [|by eapply Hi]. rewrite dec_enc_intent in Hj. by injection Hj as <-.
Qed.
Lemma secure_list_intents now now' f t p page :
  secure (may (λ r, Forall (λ i, vo_intent vouch i ∧ now' < expiry i) r.1)) (list_intents_steps now now' f t p page).
Proof.
  unfold list_intents_steps. eapply secure_may_bind; [apply secure_prune_expired|]. intros _ _.
  eapply secure_may_bind.
  { apply (secure_scan _ (vo_intent vouch)). intros db id i Hs Hi. apply secure_ret. intros ? [= <-]. by eapply so_intents. }
  intros all Hall. rewrite Forall_forall in Hall. apply secure_ret. cbn [fst]. apply Forall_forall. intros i Hi.
  apply elem_of_page in Hi. rewrite elem_of_sort_by, elem_of_filter_bool in Hi. destruct Hi as [Hf Hi]. reflect_bools.
  split; [by apply Hall|lia].
Qed.

(** A block read, from the cache or decoded from the table. *)
Lemma secure_block_at c h : secure (gives (λ o, ∀ b, o = Some b → good_block (c, h) b)) (block_at_steps c h).
Proof.
  apply secure_reading. intros db Hs. destruct (cache_blocks db !! (c, h)) as [b|] eqn:Hb.
  { intros b' [= <-]. by apply (so_blocks _ _ Hs). }
  apply secure_reading. intros db' Hs'. destruct (t_blocks (disk db') !! (c, h)) as [v|] eqn:Hv; [|done].
  destruct (sd_blocks _ _ (so_disk _ _ Hs') _ _ Hv) as (b & -> & Hg). rewrite dec_enc_block. apply secure_writing.
  - intros db2 [Hd Hc Hp Hsi Hi]. split; [done| |done..]. cbn.
    intros k b' [[<- <-]|[_ Hb']]%lookup_insert_Some; [done|by apply Hc].
  - intros b' [= <-]. done.
Qed.
Lemma secure_get_parent p : secure (gives (λ o, ∀ sp, o = Some sp → height_ok vouch p (sp_ltc_height sp))) (get_parent_steps p).
Proof.
  apply secure_reading. intros db Hs. destruct (cache_parents db !! p) as [sp|] eqn:Hsp.
  { intros sp' [= <-]. by apply (so_parents _ _ Hs). }
  apply secure_reading. intros db' Hs'. destruct (t_parents (disk db') !! p) as [v|] eqn:Hv; [|done].
  destruct (sd_parents _ _ (so_disk _ _ Hs') _ _ Hv) as (sp & -> & Hh). rewrite dec_enc_parent. apply secure_writing.
  - intros db2 [Hd Hc Hp Hsi Hi]. split; [done..| |done|done]. cbn.
    intros q sp' [[<- <-]|[_ ?]]%lookup_insert_Some; [done|by apply Hp].
  - intros sp' [= <-]. done.
Qed.

Lemma secure_classify_parent p lh : height_ok vouch p lh → secure finishes (classify_parent_steps p lh).
Proof.
  intros Hlh. apply secure_writing.
  { intros db [Hd Hc Hp Hs Hi]. split; [done..| |done|done]. cbn.
    intros q sp [(<- & sp' & _ & ->)|[_ ?]]%lookup_alter_Some; [done|by apply Hp]. }
  apply secure_reading. intros db Hdb. apply secure_shrink. intros d.
  destruct (cache_parents db !! p) as [sp|] eqn:Hsp; [|by apply shrinks_same].
  split; [done|]. split; [done|]. cbn. intros q v [[<- <-]|[_ ?]]%lookup_insert_Some; [right|by left].
  eexists. split; [done|]. by apply (so_parents _ _ Hdb).
Qed.

Lemma secure_retain_each keep phs : secure finishes (retain_each_steps keep phs).
Proof.
  eapply secure_weaken; [apply (secure_collect _ (λ _, True))|by intros [?|?]]. intros ph _ db [Hd Hc Hp Hs Hi].
  destruct (cache_siblings db !! ph) as [l|] eqn:Hl; [|by split]. split; [|done].
  split; [done..| |done]. cbn. intros p l' [[<- <-]|[_ Hl']]%lookup_insert_Some; [|by apply Hs].
  apply Forall_forall. intros b [_ Hb]%elem_of_filter_bool. specialize (Hs _ _ Hl). rewrite Forall_forall in Hs. by apply Hs.
Qed.
Lemma secure_drop_parent ph : secure finishes (drop_parent_steps ph).
Proof.
  apply secure_writing.
  { intros db [Hd Hc Hp Hs Hi]. split; [done..| |done]. cbn. intros p l [_ ?]%lookup_delete_Some. by apply Hs. }
  apply secure_writing.
  { intros db [Hd Hc Hp Hs Hi]. split; [done..| |done|done]. cbn. intros p sp [_ ?]%lookup_delete_Some. by apply Hp. }
  eapply secure_gives_bind; [apply secure_attempt, secure_shrink|done]. intros d.
  split; [done|]. split; [done|]. cbn. intros q v [_ ?]%lookup_delete_Some. by left.
Qed.
Lemma secure_forget_blocks ks : secure finishes (each forget_block_steps ks).
Proof.
  apply secure_each. intros k _. apply secure_write. intros db [Hd Hc Hp Hs Hi]. split; [done| |done..]. cbn.
  intros k' b [_ ?]%lookup_delete_Some. by apply Hc.
Qed.
#[local] Hint Resolve secure_retain_each secure_drop_parent secure_forget_blocks secure_each : secure.

Lemma delete_all_subseteq {V} (ks : list (Z * Z)) (t : gmap (Z * Z) V) : delete_all ks t ⊆ t.
Proof. apply map_subseteq_spec. intros k v. rewrite lookup_delete_all. by case_decide. Qed.

Lemma secure_rollback_from c h : secure finishes (rollback_from_steps c h).
Proof.
  unfold rollback_from_steps. eapply secure_may_bind; [by apply secure_scan_any|]. intros parents _.
  eapply secure_may_bind.
  { apply secure_shrink. intros d. split; [apply delete_all_subseteq|]. split; [done|by left]. }
  intros n _. eapply secure_may_bind; [apply secure_scan_any; by intros|]. intros gone _. cbv zeta.
  eapply secure_may_bind; [apply secure_forget_blocks|]. intros _ _.
  eapply secure_may_bind; [apply secure_retain_each|]. intros es _.
  eapply secure_may_bind; [apply secure_each; intros; apply secure_drop_parent|]. intros _ _.
  eapply secure_gives_bind; [apply secure_get_meta|]. intros o _. apply (secure_may_bind _ (λ _, True)); [|done].
  destruct (_ ≫= _); [|done]. destruct (_ <=? _); [apply secure_set_meta|done].
Qed.
Lemma secure_prune_before c below : secure finishes (prune_before_steps c below).
Proof.
  unfold prune_before_steps. eapply secure_may_bind.
  { apply secure_shrink. intros d. unfold prune_txn. cbv zeta.
    match goal with |- shrinks d (foldl prune_row d ?r) => destruct (prune_fold r d) as (Hb & _ & Hp & _ & Hi) end.
    split; [rewrite Hb; apply delete_all_subseteq|]. rewrite Hp, Hi. split; [done|by left]. }
  intros n _. eapply secure_may_bind; [apply secure_scan_any; by intros|]. intros gone _. cbv zeta.
  eapply secure_may_bind; [apply secure_forget_blocks|]. intros _ _.
  eapply secure_may_bind; [apply secure_retain_each|]. done.
Qed.

(** The statistics and the unclassified parents: nothing is promised of them. *)
Lemma secure_stats : secure finishes stats_steps.
Proof.
  unfold stats_steps. eapply secure_may_bind; [apply secure_scan_any; by intros|]. intros blocks _. cbv zeta.
  eapply secure_may_bind.
  { apply secure_scan_any. intros p sp. destruct (_ =? 1); [|done]. apply secure_reading. by intros db _. }
  intros groups _. apply secure_reading. intros db _. apply secure_reading. by intros db' _.
Qed.
Lemma secure_unclassified : secure finishes unclassified_parents_steps.
Proof. apply secure_scan_any. by intros. Qed.

(** ** Insertion *)

Lemma insert_rows_sound rows : ∀ d d',
  Forall (λ r, good_block r.1 r.2) rows → sound_disk d → insert_rows rows d = Ok d' → sound_disk d'.
Proof.
  induction rows as [|[[c h] b] rows IH]; intros d d' Hr Hd; [by intros [= <-]|].
  apply Forall_cons in Hr as [Hg Hr]. cbn [insert_rows]. intros (d1 & Hrow & Hd')%bind_Ok.
  eapply IH; [done| |exact Hd']. unfold insert_row in Hrow. apply bind_Ok in Hrow as (p & _ & [= <-]).
  destruct Hd as [Hb Hp Hi]. split; [|done..]. cbn. intros k v [[<- <-]|[_ ?]]%lookup_insert_Some; [by eexists|by apply Hb].
Qed.
Lemma insert_rows_calm rows : ∀ d e, insert_rows rows d = Err e → e ≠ DbPanic.
Proof.
  induction rows as [|[[c h] b] rows IH]; intros d e; [done|]. cbn [insert_rows]. intros [Hrow|(d1 & _ & Hr)]%bind_Err; [|by eapply IH].
  unfold insert_row in Hrow. apply bind_Err in Hrow as [Ho|(p & _ & Hp)]; [|done].
  destruct (db_parent_hash b); [done|]. by injection Ho as <-.
Qed.

(** A verified block has a witness with a whole parent header. *)
Lemma good_block_work k b : good_block k b → ∃ a w, aux (sb_header b) = Some a ∧ parent_work (parent_header a) = Some w.
Proof.
  intros (_ & plb & _ & wire & a & Hfit & _ & Hp & Ha & _). exists a.
  apply parse_auxpow_iff in Hp as (_ & w & rest & Hw & _); [|done]. destruct (aux_wire_wf a w Hw) as [Hwf _].
  destruct (parent_work_Some (parent_header a)) as [work Hwork]; [by rewrite (aux_wf_parent a Hwf)|]. by exists work.
Qed.

Lemma secure_index_row row : good_block row.1 row.2 → secure finishes (index_row_steps row).
Proof.
  destruct row as [[c h] b]. cbn [fst snd]. intros Hg. unfold index_row_steps. cbn [snd].
  destruct (good_block_work _ _ Hg) as (a & work & Ha & Hwork). rewrite Ha, Hwork. apply secure_writing.
  - intros db [Hd Hc Hp Hs Hi]. split; [done..| |done]. cbn. intros p l [[<- <-]|[_ ?]]%lookup_insert_Some; [|by apply Hs].
    assert (Forall (anchored (sha256d (parent_header a))) (default [] (cache_siblings db !! sha256d (parent_header a)))) as Hl
      by (destruct (cache_siblings db !! _) as [l|] eqn:E; [by apply Hs|constructor]).
    destruct (existsb _ _); [done|]. apply Forall_app. split; [done|]. constructor; [|constructor].
    split; [|unfold db_parent_hash; by rewrite Ha]. by rewrite <-(proj1 Hg).
  - apply secure_reading. intros db _. destruct (bool_decide _); [done|]. apply secure_write.
    intros db' [Hd Hc Hp Hs Hi]. split; [done..| |done|done]. cbn.
    intros q sp' [[_ <-]|[_ ?]]%lookup_insert_Some; [done|by apply Hp].
Qed.
Lemma secure_insert_blocks rows : Forall (λ r, good_block r.1 r.2) rows → secure finishes (insert_blocks_steps rows).
Proof.
  intros Hr. destruct rows as [|row rows]; [done|]. pose proof Hr as Hall. rewrite Forall_forall in Hall. eapply secure_may_bind.
  { apply secure_each. intros [[c h] b] Hin. apply secure_write. intros db [Hd Hc Hp Hs Hi]. split; [done| |done..].
    unfold cache_row. cbn. intros k b' [[<- <-]|[_ ?]]%lookup_insert_Some; [by apply (Hall _ Hin)|by apply Hc]. }
  intros _ _. eapply secure_may_bind.
  - apply secure_commit. intros d. destruct (insert_rows (row :: rows) d) as [d'|e] eqn:E; cbn.
    + intros Hd. by eapply insert_rows_sound.
    + by eapply insert_rows_calm.
  - intros _ _. apply secure_each. intros r Hin. by apply secure_index_row, Hall.
Qed.
End operations.

#[export] Hint Resolve secure_upsert_chain secure_cursor_height secure_set_cursor_height : secure.

Lemma M_bind_Ok {A B} (m : M A) (k : A → M B) db b db' :
  (m ≫= k) db = (Ok b, db') → ∃ a db1, m db = (Ok a, db1) ∧ k a db1 = (Ok b, db').
Proof. unfold mbind, M_bind. destruct (m db) as [[a|e] db1]; [eauto|done]. Qed.

(** ** Reopening *)

Section opening.
Context `{Sha256} `{HexCodec} `{Codec}.
Context (vouch : Vouch).

Lemma push_sibling_anchored p l b :
  Forall (anchored vouch p) l → anchored vouch p b → Forall (anchored vouch p) (push_sibling l b).
Proof.
  intros Hl Hb. unfold push_sibling. destruct (existsb _ _); [done|]. apply Forall_app. split; [done|by constructor].
Qed.

Lemma warm_block_sound k b db :
  good_block vouch k b → sound vouch db → sound vouch (warm_block db (k, enc_block b)).
Proof.
  intros Hg [Hd Hc Hp Hs Hi]. unfold warm_block. cbn [fst snd]. rewrite dec_enc_block.
  assert (∀ k' b', <[k:=b]> (cache_blocks db) !! k' = Some b' → good_block vouch k' b') as Hc'.
  { intros k' b' [[<- <-]|[_ ?]]%lookup_insert_Some; [done|by apply Hc]. }
  destruct (aux (sb_header b)) as [a|] eqn:Ha; [|by split]. split; [done|done|done| |done]. cbn.
  intros p l [[<- <-]|[_ ?]]%lookup_insert_Some; [|by apply Hs]. apply push_sibling_anchored.
  - destruct (cache_siblings db !! _) as [l|] eqn:E; [by apply Hs|constructor].
  - split; [by rewrite <-(proj1 Hg)|]. unfold db_parent_hash. by rewrite Ha.
Qed.

Lemma warm_blocks_sound rows : ∀ db,
  (∀ k v, (k, v) ∈ rows → ∃ b, v = enc_block b ∧ good_block vouch k b) → sound vouch db →
  sound vouch (foldl warm_block db rows).
Proof.
  induction rows as [|[k v] rows IH]; intros db Hr Hs; [done|]. cbn [foldl]. apply IH; [set_solver|].
  destruct (Hr k v) as (b & -> & Hg); [set_solver|]. by apply warm_block_sound.
Qed.

(** The database opened on any sound disk is sound: what is durable when a process
    stops, wherever it stops, is what the next one starts from. *)
Lemma open_sound d r db : sound_disk vouch d → open d r = Ok db → sound vouch db.
Proof.
  intros [Hb Hp Hi]. unfold open. destruct r; [done|]. intros (d' & Hd' & [= <-])%bind_Ok.
  assert (t_blocks d' = t_blocks d ∧ t_parents d' = t_parents d ∧ t_intents d' = t_intents d) as (Heb & Hep & Hei).
  { destruct (_ ≫= _) as [v|]; [|by injection Hd' as <-]. destruct (v =? _); [by injection Hd' as <-|done]. }
  unfold warm_up_cache. apply warm_blocks_sound.
  - intros k v. cbn [disk]. rewrite elem_of_sort_by, elem_of_map_to_list, Heb. apply Hb.
  - split; cbn; [split; [by rewrite Heb|by rewrite Hep|by rewrite Hei]|by intros| |by intros|].
    { intros p sp. rewrite Hep. intros [Hsp|[_ ?]]%lookup_union_Some_raw; [|done].
      rewrite lookup_omap in Hsp. apply bind_Some in Hsp as (v & Hv & Hdp).
      destruct (Hp p v Hv) as (sp' & -> & Hh). rewrite dec_enc_parent in Hdp. by injection Hdp as <-. }
    intros id i. rewrite Hei. intros [Hid|[_ ?]]%lookup_union_Some_raw; [|done].
    rewrite lookup_omap in Hid. apply bind_Some in Hid as (v & Hv & Hd). by eapply Hi.
Qed.
End opening.
