(* ===== verification/MetricsThm.v ===== *)
(** * Metrics: theorems

    The instrumented loop is the loop, and its counters say what happened; the
    counters of a running node are consistent; a scrape shows the store. *)

From S2P Require Export Stats Sound Metrics.

#[local] Open Scope Z_scope.

(** ** Lemmas on the collectors *)

Section counts.
Context `{Prometheus}.

Record metrics_wf (m : Metrics) : Prop := {
  mw_series : ∀ f, vec_arity (series m f) = length (label_names f);
  mw_hist : hist_arity (http_request_seconds m) = 2%nat
}.
Definition value (f : Family) (ls : list string) (m : Metrics) : Z := default 0 (vec_get ls (series m f)).

(** One counter grew by [n], and no other series changed. *)
Definition bumped (f : Family) (ls : list string) (n : Z) (m m' : Metrics) : Prop :=
  (∀ g l, (g, l) ≠ (f, ls) → value g l m' = value g l m) ∧
  (0 ≤ n → value f ls m + n ≤ u64_max → value f ls m' = value f ls m + n).

Lemma inc_by_ok f ls n m :
  metrics_wf m → length ls = length (label_names f) →
  ∃ m', inc_by f ls n m = Some m' ∧ metrics_wf m' ∧ bumped f ls n m m'.
Proof.
  intros [Hw Hh] Hl. destruct (counter_inc_ok ls n (series m f)) as (v & Hv & Ha & Ho & Hn); [by rewrite Hw|].
  unfold inc_by. rewrite Hv. eexists. split; [reflexivity|]. split; [split; [|done]|split].
  - intros g. cbn. case_decide as Hg; [by rewrite Hg, Ha, Hw|done].
  - intros g l Hne. unfold value. cbn. case_decide as Hg; [|done]. rewrite Hg, Ho; [done|]. intros ->. by rewrite Hg in Hne.
  - intros ? ?. unfold value in *. cbn. rewrite decide_True by done. by rewrite Hn.
Qed.

(** One series was set to [n], and no other changed. *)
Definition was_set (f : Family) (ls : list string) (n : Z) (m m' : Metrics) : Prop :=
  ∀ g l, vec_get l (series m' g) = if decide ((g, l) = (f, ls)) then Some n else vec_get l (series m g).

Lemma set_gauge_ok f ls n m :
  metrics_wf m → length ls = length (label_names f) →
  ∃ m', set_gauge f ls n m = Some m' ∧ metrics_wf m' ∧ was_set f ls n m m'.
Proof.
  intros [Hw Hh] Hl. destruct (gauge_set_ok ls n (series m f)) as (v & Hv & Ha & Ho); [by rewrite Hw|].
  unfold set_gauge. rewrite Hv. eexists. split; [reflexivity|]. split; [split; [|done]|].
  - intros g. cbn. case_decide as Hg; [by rewrite Hg, Ha, Hw|done].
  - intros g l. cbn. destruct (decide (g = f)) as [->|Hg].
    + rewrite Ho. destruct (decide (l = ls)) as [->|]; [by rewrite decide_True|]. rewrite decide_False; [done|congruence].
    + rewrite decide_False; [done|congruence].
Qed.

Lemma count_request_ok method route elapsed m :
  metrics_wf m → ∃ m', count_request method route elapsed m = Some m' ∧ metrics_wf m' ∧
    bumped http_requests [method; route] 1 m m'.
Proof.
  intros Hw. destruct (inc_by_ok http_requests [method; route] 1 m Hw eq_refl) as (m1 & Hm1 & [Hw1 Hh1] & Hb).
  unfold count_request. rewrite Hm1. cbn [mbind option_bind].
  destruct (hist_observe_ok [method; route] elapsed (http_request_seconds m1)) as (h & Hh & Ha); [by rewrite Hh1|].
  rewrite Hh. eexists. split; [reflexivity|]. split; [split; [done|by cbn; rewrite Ha]|done].
Qed.
End counts.

(** ** Creation *)

Section creation.
Context `{Prometheus}.

Lemma register_all_ok os : ∀ r,
  NoDup (op_name <$> os) → (∀ o, o ∈ os → op_name o ∉ registered r) →
  ∃ r', register_all os r = Some r' ∧ registered r' = rev (op_name <$> os) ++ registered r.
Proof.
  induction os as [|o os IH]; intros r Hnd Hr; [by exists r|]. cbn [fmap list_fmap] in Hnd. apply NoDup_cons in Hnd as [Ho Hnd].
  destruct (register_ok o r) as (r1 & Hr1 & Hn); [apply Hr; set_solver|].
  destruct (IH r1 Hnd) as (r2 & Hr2 & Hn2).
  { intros o' Ho'. rewrite Hn. apply not_elem_of_cons. split; [|apply Hr; set_solver].
    intros Heq. apply Ho. rewrite <-Heq. by apply list_elem_of_fmap_2. }
  exists r2. cbn [register_all]. rewrite Hr1. cbn [mbind option_bind]. split; [done|]. rewrite Hn2, Hn. cbn. by rewrite <-app_assoc.
Qed.

(** [Metrics::new] does not panic: the descriptors are valid and their names differ. *)
Lemma new_ok now : ∃ m,
  Metrics_new now = Some m ∧ metrics_wf m ∧ started_at m = now ∧
  (∀ f ls, vec_get ls (series m f) = None) ∧ registered (registry m) = rev (op_name <$> collectors).
Proof.
  unfold Metrics_new, new_vec.
  repeat match goal with
  | |- context [vec_new (opts ?f) (label_names ?f)] =>
      let v := fresh "v" in let Hv := fresh "Hv" in let Ha := fresh "Ha" in let Hg := fresh "Hg" in
      destruct (vec_new_ok (opts f) (label_names f) eq_refl) as (v & Hv & Ha & Hg); rewrite Hv; cbn [mbind option_bind]
  | |- context [hist_new ?o ?b ?l] =>
      destruct (hist_new_ok o b l eq_refl) as (h & Hh & Hah); [done|by repeat constructor|]; rewrite Hh; cbn [mbind option_bind]
  end.
  destruct (register_all_ok collectors (registry_new "psob_indexer")) as (r & Hr & Hn).
  { apply (bool_decide_unpack _). vm_compute. exact I. }
  { intros o _. rewrite registry_new_ok. apply not_elem_of_nil. }
  rewrite Hr. cbn [mbind option_bind]. eexists. split; [reflexivity|]. split; [split; [by intros []|done]|].
  split; [done|]. split; [by intros []|]. cbn [registry]. by rewrite Hn, registry_new_ok, app_nil_r.
Qed.
End creation.

(** ** The loop counts what it does *)

(** The blocks of a chain that pruning removes. *)
Definition table_size (db : Database) : Z := Z.of_nat (size (t_blocks (disk db))).

Section prune.
Context `{Sha256} `{HexCodec} `{Codec}.

Lemma write_txn_cases {A} (f : Disk → Result DbError (A * Disk)) db :
  let '(r, db') := write_txn f db in
  match r with Ok a => f (disk db) = Ok (a, disk db') | Err _ => disk db' = disk db end.
Proof.
  unfold write_txn. destruct (faults db) as [|[|] fs]; cbn [tail disk set_faults]; [|done|];
    by destruct (f (disk db)) as [[a d]|e].
Qed.

Lemma prune_txn_size c below d n d' :
  prune_txn c below d = Ok (n, d') →
  0 ≤ n ∧ n = Z.of_nat (size (t_blocks d)) - Z.of_nat (size (t_blocks d')).
Proof.
  unfold prune_txn. match goal with |- context [foldl prune_row d ?r] => set (removals := r) end.
  intros [= <- <-]. split; [unfold len; lia|]. destruct (prune_fold removals d) as (Hb & _). rewrite Hb.
  assert (removals.*1 = (block_rows c 0 (saturating_sub below 1) (t_blocks d)).*1) as Hk
    by (unfold removals; by rewrite <-list_fmap_compose).
  pose proof (size_delete_all removals.*1 (t_blocks d)) as Hs.
  assert (len removals = len removals.*1) as Hl by (unfold len; by rewrite length_fmap).
  assert (NoDup removals.*1) as Hnd by (rewrite Hk; apply NoDup_block_rows). specialize (Hs Hnd).
  rewrite Hl. rewrite <-Hs; [lia|]. intros k. rewrite Hk. intros [Hin _]%block_rows_keys. done.
Qed.

Lemma prune_before_size c below db :
  let '(r, db') := prune_before c below db in
  match r with
  | Ok n => 0 ≤ n ∧ n = table_size db - table_size db'
  | Err _ => table_size db' = table_size db
  end.
Proof.
  unfold prune_before. unfold mbind at 1, M_bind at 1.
  pose proof (write_txn_cases (prune_txn c below) db) as Ht.
  destruct (write_txn (prune_txn c below) db) as [[n|e] db1]; [|unfold table_size; by rewrite Ht].
  rewrite (bind_step _ _ db1 db1 db1) by done. cbv zeta.
  rewrite (bind_step _ _ _ () (set_cache_blocks _ db1)) by reflexivity.
  match goal with |- context [retain_each ?keep ?phs] =>
    destruct (retain_each_run keep phs (set_cache_blocks
      (delete_all (List.filter (λ e : Z * Z * StoredBlock, (e.1.1 =? c) && (e.1.2 <? below))
                (map_to_list (cache_blocks db1))).*1 (cache_blocks db1)) db1)) as (es & cs & Hr & _);
      [apply NoDup_remove_dups|] end.
  rewrite (bind_step _ _ _ _ _ Hr). cbn. by apply prune_txn_size in Ht.
Qed.

Lemma prune_rows_size config chain last_ db :
  let '(r, db') := prune_rows config chain last_ db in
  match r with
  | Ok removed => 0 ≤ default 0 removed ∧ default 0 removed = table_size db - table_size db'
  | Err _ => table_size db' = table_size db
  end.
Proof.
  unfold prune_rows. assert (0 = table_size db - table_size db) by lia.
  destruct (cfg_max_kept_blocks config); [|done]. cbv zeta. destruct (negb _); [done|].
  rewrite (bind_step _ _ db db db) by done. destruct (_ ≫= _) as [min|]; [|done]. destruct (_ <? _); [|done].
  match goal with |- context [prune_before ?c ?b] => pose proof (prune_before_size c b db) as Hp end.
  unfold mbind, M_bind. by destruct (prune_before _ _ db) as [[n|e] db1].
Qed.
End prune.

Section instrumented.
Context `{Sha256} `{HexCodec} `{Codec} `{Prometheus}.
Context (config : Config) (chain : AuxChain) (p2p : bool) (node : Node).

(** A step of a tick that failed. *)
Definition in_tick (ph : Phase) : bool :=
  match ph with Failing _ | Tip _ _ | Groups _ | Panicked => false | _ => true end.
Definition tick_failed (ph ph' : Phase) : bool :=
  in_tick ph && match ph' with Failing _ => true | _ => false end.

(** What the counter of each series should grow by in the step from [ph] to [ph'],
    which removed [removed] blocks from the table. *)
Definition happened (ph ph' : Phase) (removed : Z) (f : Family) (ls : list string) : Z :=
  match f with
  | ingest_ticks => if decide (ls = chain_label chain) then match ph with Idle _ => 1 | _ => 0 end else 0
  | ingest_errors => if decide (ls = chain_label chain) then if tick_failed ph ph' then 1 else 0 else 0
  | ingest_blocks => if decide (ls = chain_label chain) then match ph with Tip pending _ => len pending | _ => 0 end else 0
  | prune_blocks => if decide (ls = chain_label chain) then match ph with Pruning _ _ _ => removed | _ => 0 end else 0
  | family_resolves =>
      match ph with
      | Classifying _ _ (p :: _) _ =>
          match ph' with
          | Classifying _ _ _ _ =>
              if decide (ls = state_label (match resolve_parent node p with Ok o => o | Err _ => None end)) then 1 else 0
          | _ => 0
          end
      | _ => 0
      end
  | _ => 0
  end.

(** The counters from [m] to [m'] grew by [d]. *)
Definition grew (d : Family → list string → Z) (m m' : Metrics) : Prop := ∀ f ls, value f ls m' = value f ls m + d f ls.

Lemma grew_bumped f ls n m m' :
  bumped f ls n m m' → 0 ≤ n → value f ls m + n ≤ u64_max →
  grew (λ g l, if decide ((g, l) = (f, ls)) then n else 0) m m'.
Proof.
  intros [Ho Hn] Hz Hc g l. case_decide as Hd; [|rewrite Ho by done; lia].
  injection Hd as -> ->. by apply Hn.
Qed.
Lemma grew_same m : grew (λ _ _, 0) m m.
Proof. intros f ls. lia. Qed.
Lemma grew_trans d1 d2 d m1 m2 m3 :
  grew d1 m1 m2 → grew d2 m2 m3 → (∀ f ls, d f ls = d1 f ls + d2 f ls) → grew d m1 m3.
Proof. intros Hg1 Hg2 Hd f ls. rewrite Hg2, Hg1, Hd. lia. Qed.
Lemma grew_ext d d' m m' : grew d m m' → (∀ f ls, d' f ls = d f ls) → grew d' m m'.
Proof. intros Hg Hd f ls. by rewrite Hd. Qed.

(** No series is near the end of its 64 bits. *)
Definition room (m : Metrics) : Prop := ∀ f ls, 0 ≤ value f ls m < 2 ^ 63.

Definition none (f : Family) (ls : list string) : Z := 0.
Definition one (f : Family) (ls : list string) (n : Z) (g : Family) (l : list string) : Z :=
  if decide ((g, l) = (f, ls)) then n else 0.

Lemma inc_by_grew f ls n m :
  metrics_wf m → length ls = length (label_names f) → 0 ≤ n → value f ls m + n ≤ u64_max →
  ∃ m', inc_by f ls n m = Some m' ∧ metrics_wf m' ∧ grew (one f ls n) m m'.
Proof.
  intros Hw Hl Hn Hc. destruct (inc_by_ok f ls n m Hw Hl) as (m' & Hm & Hw' & Hb).
  exists m'. split; [done|]. split; [done|]. by apply grew_bumped.
Qed.

Lemma tick_call {A} n (call : M A) (next : A → Phase) announced db :
  tick n (a ← call; mret (next a)) announced db =
  match call db with
  | (Ok a, db') => ((next a, announced, db'), [])
  | (Err e, db') => ((after_error n e, announced, db'), [])
  end.
Proof. unfold tick, mbind, M_bind. by destruct (call db) as [[a|e] db']. Qed.

Lemma tick_id n (call : M Phase) announced db :
  tick n call announced db = tick n (a ← call; mret (id a)) announced db.
Proof. rewrite tick_call. unfold tick. by destruct (call db) as [[a|e] db']. Qed.

(** A call of a tick: what is counted when it succeeds, and one error when it fails
    without a panic. *)
Definition error_of (e : DbError) : Family → list string → Z :=
  match e with DbPanic => none | _ => one ingest_errors (chain_label chain) 1 end.
Lemma metered_tick_ok {A} n (call : M A) count next (d : A → Family → list string → Z) announced db m :
  metrics_wf m → value ingest_errors (chain_label chain) m + 1 ≤ u64_max →
  (∀ a db', call db = (Ok a, db') → ∃ m', count a m = Some m' ∧ metrics_wf m' ∧ grew (d a) m m') →
  ∃ m', metered_tick chain n call count next announced db m
        = Some (tick n (a ← call; mret (next a)) announced db, m') ∧ metrics_wf m' ∧
    match call db with
    | (Ok a, _) => grew (d a) m m'
    | (Err e, _) => grew (error_of e) m m'
    end.
Proof.
  intros Hw Hc Hcount. rewrite tick_call. unfold metered_tick. destruct (call db) as [[a|e] db'].
  - destruct (Hcount a db' eq_refl) as (m' & Hm & Hw' & Hg). rewrite Hm. by exists m'.
  - destruct (inc_by_grew ingest_errors (chain_label chain) 1 m) as (m' & Hm & Hw' & Hg); [done..|lia|done|].
    destruct e; rewrite ?Hm; [by exists m'..|]. exists m. split; [done|]. split; [done|]. apply grew_same.
Qed.

Ltac counting :=
  intros; repeat match goal with e : DbError |- _ => destruct e end;
  unfold happened, error_of, one, none, tick_failed;
  match goal with f : Family |- _ => destruct f end; cbn; repeat case_decide; simplify_eq; done || lia.

Lemma advance_idle n announced db m :
  metrics_wf m → room m →
  let '((ph', announced', db'), msgs) := advance config chain p2p node (Idle n) announced db in
  ∃ m', advance_metered config chain p2p node (Idle n) announced db m = Some ((ph', announced', db'), msgs, m') ∧
    metrics_wf m' ∧ grew (happened (Idle n) ph' (table_size db - table_size db')) m m'.
Proof.
  intros Hw Hr. cbn [advance advance_metered].
  pose proof (Hr ingest_ticks (chain_label chain)). pose proof (Hr ingest_errors (chain_label chain)).
  destruct (inc_by_grew ingest_ticks (chain_label chain) 1 m) as (m1 & Hm1 & Hw1 & Hg1); [done..|lia|unfold u64_max; lia|].
  rewrite Hm1. cbn [mbind option_bind].
  pose proof (Hg1 ingest_errors (chain_label chain)) as He. unfold one in He. rewrite decide_False in He by done.
  edestruct (metered_tick_ok n (upsert_chain (ac_chain_id chain) (ac_name chain) (ac_electrs chain)) uncounted
    (λ _, Polling n) (λ _, none) announced db m1 Hw1) as (m' & -> & Hw' & Hg); [unfold u64_max; lia| |].
  { intros [] db' _. exists m1. split; [done|]. split; [done|]. apply grew_same. }
  rewrite tick_call in *. destruct (upsert_chain _ _ _ db) as [[[]|e] db'];
    (eexists; split; [reflexivity|]; split; [done|]); (eapply grew_trans; [exact Hg1|exact Hg|]); counting.
Qed.

(** A step of a tick after the first. *)
Lemma advance_call {A} ph n (call : M A) count next (d : A → Family → list string → Z) announced db m :
  metrics_wf m → room m →
  advance_metered config chain p2p node ph announced db m = metered_tick chain n call count next announced db m →
  advance config chain p2p node ph announced db = tick n (a ← call; mret (next a)) announced db →
  (∀ a db', call db = (Ok a, db') → ∃ m', count a m = Some m' ∧ metrics_wf m' ∧ grew (d a) m m') →
  (∀ a db' f ls, call db = (Ok a, db') → happened ph (next a) (table_size db - table_size db') f ls = d a f ls) →
  (∀ e db' f ls, call db = (Err e, db') →
     happened ph (after_error n e) (table_size db - table_size db') f ls = error_of e f ls) →
  let '((ph', announced', db'), msgs) := advance config chain p2p node ph announced db in
  ∃ m', advance_metered config chain p2p node ph announced db m = Some ((ph', announced', db'), msgs, m') ∧
    metrics_wf m' ∧ grew (happened ph ph' (table_size db - table_size db')) m m'.
Proof.
  intros Hw Hr -> -> Hcount Hok Herr. pose proof (Hr ingest_errors (chain_label chain)).
  destruct (metered_tick_ok n call count next d announced db m Hw) as (m' & -> & Hw' & Hg); [unfold u64_max; lia|done|].
  rewrite tick_call. destruct (call db) as [[a|e] db'];
    (eexists; split; [reflexivity|]; split; [done|]); (eapply grew_ext; [exact Hg|]); intros f ls;
    [by apply Hok|by eapply Herr].
Qed.

(** The outcomes of the two calls that compute a phase. *)
Lemma check_window_cases cursor items n db ph db' :
  check_window chain n cursor items db = (Ok ph, db') →
  (∃ start pending h, ph = Rolling n start pending h) ∨ ∃ start pending, ph = Storing n start pending.
Proof.
  unfold check_window. intros (prev & db1 & _ & Hr)%M_bind_Ok. cbv zeta in Hr.
  destruct (walk chain prev [] items) as [pending [h|]]; injection Hr as <- _;
    [left; by eexists _, _, _|right; by eexists _, _].
Qed.

Lemma count_none {A} (a : A) m : metrics_wf m → ∃ m', uncounted a m = Some m' ∧ metrics_wf m' ∧ grew none m m'.
Proof. intros Hw. exists m. split; [done|]. split; [done|]. apply grew_same. Qed.

(** The step is the step of [Tasks], and counts what it does. *)
Definition counts (ph : Phase) (announced : gset bytes) (db : Database) (m : Metrics) : Prop :=
  let '((ph', announced', db'), msgs) := advance config chain p2p node ph announced db in
  ∃ m', advance_metered config chain p2p node ph announced db m = Some ((ph', announced', db'), msgs, m') ∧
    metrics_wf m' ∧ grew (happened ph ph' (table_size db - table_size db')) m m'.

Lemma advance_pruning n last_ pending announced db m :
  metrics_wf m → room m → table_size db < 2 ^ 63 → counts (Pruning n last_ pending) announced db m.
Proof.
  intros Hw Hr Hsize. pose proof (prune_rows_size config chain last_ db) as Hp. pose proof (Hr prune_blocks (chain_label chain)).
  eapply (advance_call _ n (prune_rows config chain last_) _ (λ _, Listing n pending)
    (λ removed, one prune_blocks (chain_label chain) (default 0 removed))); [done..| | | |].
  - cbn [advance]. unfold prune_window. rewrite !tick_call. unfold mbind, M_bind. by destruct (prune_rows _ _ _ db) as [[?|?] ?].
  - intros removed db' Hrun. rewrite Hrun in Hp. destruct Hp as [H0' Hn].
    assert (0 ≤ table_size db') by (unfold table_size; lia).
    destruct removed as [k|]; cbn [default] in *.
    + apply inc_by_grew; [done..|]. unfold u64_max, id in *. lia.
    + exists m. split; [done|]. split; [done|]. eapply grew_ext; [apply grew_same|]. counting.
  - intros removed db' f ls Hrun. rewrite Hrun in Hp. destruct Hp as [_ Hn]. rewrite <-Hn. counting.
  - intros e db' f ls Hrun. rewrite Hrun in Hp. rewrite Hp, Z.sub_diag. counting.
Qed.

Lemma advance_classifying n pending todo found announced db m :
  metrics_wf m → room m → counts (Classifying n pending todo found) announced db m.
Proof.
  intros Hw Hr. destruct todo as [|p todo].
  - apply (advance_call _ n (mret ()) uncounted (λ _, Tip pending found) (λ _, none));
      [done..|by intros; apply count_none|by intros; counting|by intros; counting].
  - set (lh := match resolve_parent node p with Ok o => o | Err _ => None end).
    pose proof (Hr family_resolves (state_label lh)).
    apply (advance_call _ n (classify_parent p lh) (λ _, inc_by family_resolves (state_label lh) 1)
      (λ _, Classifying n pending todo (match lh with Some _ => found ++ [p] | None => found end))
      (λ _, one family_resolves (state_label lh) 1));
      [done..| |by intros; counting|by intros; counting].
    intros [] db' _. apply inc_by_grew; [done..|lia|unfold u64_max; lia].
Qed.

Lemma advance_tip pending found announced db m :
  metrics_wf m → room m → len pending < 2 ^ 63 → counts (Tip pending found) announced db m.
Proof.
  intros Hw Hr Hpend. destruct pending as [|b bs].
  { cbn. exists m. split; [done|]. split; [done|]. eapply grew_ext; [apply grew_same|]. counting. }
  unfold counts. cbn [advance advance_metered]. pose proof (Hr ingest_blocks (chain_label chain)).
  destruct (inc_by_grew ingest_blocks (chain_label chain) (len (b :: bs)) m) as (m' & Hm & Hw' & Hg);
    [done..|unfold len; lia|unfold u64_max; lia|].
  rewrite Hm. destruct (announcing _ _ _ _) as [[[ph' announced'] db'] msgs] eqn:Ha. exists m'. split; [done|].
  split; [done|]. eapply grew_ext; [exact Hg|]. counting.
Qed.

Lemma advance_counts ph announced db m :
  metrics_wf m → room m → table_size db < 2 ^ 63 → (∀ pending found, ph = Tip pending found → len pending < 2 ^ 63) →
  counts ph announced db m.
Proof.
  intros Hw Hr Hsize Hpend. destruct ph as [n|n|n|n cursor items|n start pending h|n start pending|n last_ pending
    |n last_ pending|n pending|n pending todo found|pending found|found|].
  - by apply advance_idle.
  - cbn. exists m. split; [done|]. split; [done|]. eapply grew_ext; [apply grew_same|]. counting.
  - apply (advance_call _ n (poll config chain node n) uncounted id (λ _, none));
      [done..|apply tick_id|by intros; apply count_none| |by intros; counting].
    intros ph db' f ls [->|(cursor & items & ->)]%poll_cases; counting.
  - apply (advance_call _ n (check_window chain n cursor items) uncounted id (λ _, none));
      [done..|apply tick_id|by intros; apply count_none| |by intros; counting].
    intros ph db' f ls [(? & ? & ? & ->)|(? & ? & ->)]%check_window_cases; counting.
  - apply (advance_call _ n (rollback_from (ac_chain_id chain) h) uncounted (λ _, Storing n start pending) (λ _, none));
      [done..|by intros; apply count_none|by intros; counting|by intros; counting].
  - destruct pending as [|b bs].
    + apply (advance_call _ n (mret ()) uncounted (λ _, Listing n []) (λ _, none));
        [done..|by intros; apply count_none|by intros; counting|by intros; counting].
    + eapply (advance_call _ n (insert_blocks (insert_rows_of (b :: bs))) uncounted _ (λ _, none));
        [done..|by intros; apply count_none|by intros; counting|by intros; counting].
  - apply (advance_call _ n (set_cursor_height (ac_chain_id chain) last_) uncounted (λ _, Pruning n last_ pending) (λ _, none));
      [done..|by intros; apply count_none|by intros; counting|by intros; counting].
  - by apply advance_pruning.
  - apply (advance_call _ n get_db uncounted (λ db, Classifying n pending (unclassified_parents db) []) (λ _, none));
      [done..|by intros; apply count_none|by intros; counting|by intros; counting].
  - by apply advance_classifying.
  - by eapply advance_tip, Hpend.
  - destruct found as [|p found]; unfold counts.
    + cbn. exists m. split; [done|]. split; [done|]. eapply grew_ext; [apply grew_same|]. counting.
    + cbn [advance advance_metered]. destruct (announcing _ _ _ _) as [[[ph' announced'] db'] msgs] eqn:Ha. exists m.
      split; [done|]. split; [done|]. eapply grew_ext; [apply grew_same|]. counting.
  - cbn. exists m. split; [done|]. split; [done|]. eapply grew_ext; [apply grew_same|]. counting.
Qed.
End instrumented.

(** ** The gauges *)

Section gauges.
Context `{Sha256} `{HexCodec} `{Codec} `{Prometheus}.

Definition chain_gauge (c : Z) (f : Family) (ls : list string) : Prop :=
  ls = [pretty c] ∧ (f = indexed_blocks ∨ f = chain_cursor).

Lemma set_chain_gauges_ok c m :
  metrics_wf m → is_Some (cs_max_height c) → ∃ m', set_chain_gauges c m = Some m' ∧ metrics_wf m' ∧
    vec_get [pretty (cs_chain_id c)] (series m' indexed_blocks) = Some (as_i64 (cs_blocks c)) ∧
    (∀ h, cs_max_height c = Some h → vec_get [pretty (cs_chain_id c)] (series m' chain_cursor) = Some (as_i64 h)) ∧
    (∀ f ls, ¬ chain_gauge (cs_chain_id c) f ls → vec_get ls (series m' f) = vec_get ls (series m f)).
Proof.
  intros Hw [h Hh]. unfold set_chain_gauges. set (label := [pretty (cs_chain_id c)]).
  destruct (set_gauge_ok indexed_blocks label (as_i64 (cs_blocks c)) m Hw eq_refl) as (m1 & -> & Hw1 & Hs1).
  cbn [mbind option_bind]. rewrite Hh.
  destruct (set_gauge_ok chain_cursor label (as_i64 h) m1 Hw1 eq_refl) as (m2 & -> & Hw2 & Hs2).
  exists m2. split; [done|]. split; [done|]. split_and!.
  - rewrite Hs2, decide_False by done. by rewrite Hs1, decide_True.
  - intros h' [= <-]. by rewrite Hs2, decide_True.
  - intros f ls Hg. rewrite Hs2, decide_False by (intros [= -> ->]; apply Hg; split; [done|by right]).
    by rewrite Hs1, decide_False by (intros [= -> ->]; apply Hg; split; [done|by left]).
Qed.

Lemma set_all_gauges_ok cs : ∀ m,
  metrics_wf m → Forall (λ c, is_Some (cs_max_height c)) cs → NoDup (cs_chain_id <$> cs) →
  ∃ m', set_all_gauges cs m = Some m' ∧ metrics_wf m' ∧
    (∀ c, c ∈ cs → vec_get [pretty (cs_chain_id c)] (series m' indexed_blocks) = Some (as_i64 (cs_blocks c)) ∧
       ∀ h, cs_max_height c = Some h → vec_get [pretty (cs_chain_id c)] (series m' chain_cursor) = Some (as_i64 h)) ∧
    (∀ f ls, (∀ c, c ∈ cs → ¬ chain_gauge (cs_chain_id c) f ls) → vec_get ls (series m' f) = vec_get ls (series m f)).
Proof.
  induction cs as [|c cs IH]; intros m Hw Hmax Hnd; [exists m; split_and!; [done..|set_solver|done]|].
  apply Forall_cons in Hmax as [Hc Hmax]. cbn [fmap list_fmap] in Hnd. apply NoDup_cons in Hnd as [Hn Hnd].
  destruct (set_chain_gauges_ok c m Hw Hc) as (m1 & Hm1 & Hw1 & Hb1 & Hc1 & Ho1).
  destruct (IH m1 Hw1 Hmax Hnd) as (m2 & Hm2 & Hw2 & Hs2 & Ho2).
  exists m2. cbn [set_all_gauges]. rewrite Hm1. cbn [mbind option_bind]. split; [done|]. split; [done|].
  assert (∀ f, ∀ c', c' ∈ cs → ¬ chain_gauge (cs_chain_id c') f [pretty (cs_chain_id c)]) as Hd.
  { intros f c' Hc' [Heq _]. injection Heq as Heq. apply (inj pretty) in Heq. apply Hn. rewrite Heq. by apply list_elem_of_fmap_2. }
  split.
  - intros c' [->|Hc']%elem_of_cons; [|by apply Hs2]. rewrite !Ho2 by apply Hd. by split.
  - intros f ls Hg. rewrite Ho2 by set_solver. apply Ho1, Hg. set_solver.
Qed.

(** After a refresh: the gauges of a chain with cached blocks say how many there
    are and the highest, those of a chain without any say what they said before,
    and no counter is touched. *)
Lemma refresh_ok now db m :
  metrics_wf m → ∃ m', refresh now (stats db) m = Some m' ∧ metrics_wf m' ∧
    (∀ c, cached_heights c db ≠ [] →
       ∃ top, top ∈ cached_heights c db ∧ (∀ h, h ∈ cached_heights c db → h ≤ top) ∧
         vec_get [pretty c] (series m' indexed_blocks) = Some (as_i64 (len (cached_heights c db))) ∧
         vec_get [pretty c] (series m' chain_cursor) = Some (as_i64 top)) ∧
    (∀ c f ls, cached_heights c db = [] → chain_gauge c f ls → vec_get ls (series m' f) = vec_get ls (series m f)) ∧
    vec_get [] (series m' sibling_groups) = Some (as_i64 (st_sibling_groups (stats db))) ∧
    vec_get [] (series m' indexed_parents) = Some (as_i64 (Z.of_nat (size (cache_parents db)))) ∧
    vec_get [] (series m' uptime_seconds) = Some (as_i64 (Z.max 0 (now - started_at m) / 1000000000)) ∧
    (∀ f ls, f ∈ [http_requests; ingest_blocks; ingest_ticks; ingest_errors; family_resolves; prune_blocks] →
       vec_get ls (series m' f) = vec_get ls (series m f)).
Proof.
  intros Hw. unfold refresh.
  destruct (set_gauge_ok uptime_seconds [] (as_i64 (Z.max 0 (now - started_at m) / 1000000000)) m Hw eq_refl)
    as (m1 & -> & Hw1 & Hs1). cbn [mbind option_bind].
  destruct (set_all_gauges_ok (st_chains (stats db)) m1 Hw1) as (m2 & -> & Hw2 & Hs2 & Ho2).
  { apply Forall_forall. intros s Hs%stats_entry. destruct Hs as (_ & _ & l & h & _ & -> & _). by eexists. }
  { apply stats_chains_NoDup. }
  cbn [mbind option_bind].
  destruct (set_gauge_ok sibling_groups [] (as_i64 (st_sibling_groups (stats db))) m2 Hw2 eq_refl) as (m3 & -> & Hw3 & Hs3).
  cbn [mbind option_bind].
  destruct (set_gauge_ok indexed_parents [] (as_i64 (st_total_parents (stats db))) m3 Hw3 eq_refl) as (m4 & -> & Hw4 & Hs4).
  assert (∀ f ls, f ≠ uptime_seconds → f ≠ sibling_groups → f ≠ indexed_parents →
            vec_get ls (series m4 f) = vec_get ls (series m2 f)) as H42.
  { intros f ls ? ? ?. rewrite Hs4, decide_False by congruence. by rewrite Hs3, decide_False by congruence. }
  assert (∀ f ls, f ≠ uptime_seconds → f ≠ sibling_groups → f ≠ indexed_parents →
            (∀ c, c ∈ st_chains (stats db) → ¬ chain_gauge (cs_chain_id c) f ls) →
            vec_get ls (series m4 f) = vec_get ls (series m f)) as H40.
  { intros f ls ? ? ? Hg. rewrite H42, Ho2 by done. by rewrite Hs1, decide_False by congruence. }
  exists m4. split; [done|]. split; [done|]. split_and!.
  - intros c Hne. destruct (stats_entry_exists db c Hne) as (s & Hin & Hc).
    destruct (stats_entry db s Hin) as [_ (Hn & l & top & _ & Hhi & _ & Htop & Hb)]. rewrite Hc in *.
    destruct (Hs2 s Hin) as [Hs2b Hs2c]. rewrite Hc in *. exists top. split_and!; [done|intros h ?%Hb; lia| |].
    + by rewrite H42, Hs2b, Hn.
    + rewrite H42 by done. by apply Hs2c.
  - intros c f ls Hnil [-> Hf]. apply H40; [destruct Hf as [-> | ->]; done..|].
    intros s Hin [Heq _]. injection Heq as Heq. apply (inj pretty) in Heq. rewrite Heq in Hnil.
    by destruct (stats_entry db s Hin).
  - by rewrite Hs4, decide_False, Hs3, decide_True by done.
  - by rewrite Hs4, decide_True by done.
  - rewrite Hs4, decide_False, Hs3, decide_False, Ho2 by first [congruence | intros ? _ [_ [?|?]]; congruence].
    by rewrite Hs1, decide_True.
  - intros f ls Hf. apply H40; [set_solver..|]. intros s _ [_ [-> | ->]]; set_solver.
Qed.
End gauges.

(** ** The counters of a running node *)

Section node.
Context `{Sha256} `{HexCodec} `{Codec} `{Prometheus}.

Fixpoint hits (rs : list Hit) (m : Metrics) : option Metrics :=
  match rs with [] => Some m | r :: rs => m ← metrics_middleware r m; hits rs m end.

(** How many of the requests carry the labels. *)
Definition with_labels (ls : list string) (rs : list Hit) : Z :=
  len (List.filter (λ r, bool_decide (hit_labels r = ls)) rs).

Lemma hits_ok rs : ∀ m,
  metrics_wf m → (∀ ls, 0 ≤ value http_requests ls m ≤ u64_max - len rs) →
  ∃ m', hits rs m = Some m' ∧ metrics_wf m' ∧
    (∀ ls, value http_requests ls m' = value http_requests ls m + with_labels ls rs) ∧
    (∀ f ls, f ≠ http_requests → value f ls m' = value f ls m).
Proof.
  induction rs as [|r rs IH]; intros m Hw Hroom.
  { exists m. split_and!; [done..| |done]. intros ls. unfold with_labels, len. cbn. lia. }
  destruct (count_request_ok (hit_method r) (route_label (hit_matched r) (hit_path r)) (hit_elapsed r) m Hw)
    as (m1 & Hm1 & Hw1 & [Ho Hn]).
  assert (len (r :: rs) = len rs + 1) as Hlen by (unfold len; cbn; lia).
  assert (0 ≤ len rs) as Hpos by (unfold len; lia).
  pose proof (Hroom (hit_labels r)) as Hr.
  assert (∀ ls, value http_requests ls m1 = value http_requests ls m + if bool_decide (hit_labels r = ls) then 1 else 0) as Hv.
  { intros ls. case_bool_decide as Hl; [subst ls; apply Hn; unfold hit_labels in Hr; lia|].
    rewrite Ho; [lia|]. intros Heq. apply Hl. unfold hit_labels. congruence. }
  destruct (IH m1 Hw1) as (m2 & Hm2 & Hw2 & Hc & Hf).
  { intros ls. rewrite Hv. pose proof (Hroom ls). case_bool_decide; lia. }
  exists m2. cbn [hits]. unfold metrics_middleware. rewrite Hm1. cbn [mbind option_bind]. split_and!; [done..| |].
  - intros ls. rewrite Hc, Hv. unfold with_labels. cbn [List.filter]. case_bool_decide; unfold len; cbn [length]; lia.
  - intros f ls Hne. rewrite Hf by done. apply Ho. congruence.
Qed.

(** The consecutive failures a task carries, and whether it is in a round. *)
Definition fails_of (ph : Phase) : Z :=
  match ph with
  | Idle n | Failing n | Polling n | Fetched n _ _ | Rolling n _ _ _ | Storing n _ _ | Advancing n _ _ | Pruning n _ _
  | Listing n _ | Classifying n _ _ _ => n
  | Tip _ _ | Groups _ | Panicked => 0
  end.
Definition busy (ph : Phase) : Z := match ph with Idle _ | Failing _ | Panicked => 0 | _ => 1 end.

Definition started (ph : Phase) : Z := match ph with Idle _ => 1 | _ => 0 end.
Definition failed_now (ph ph' : Phase) : Z := if tick_failed ph ph' then 1 else 0.

Definition tallied (ph ph' : Phase) : Prop :=
  0 ≤ fails_of ph → 0 ≤ fails_of ph' ≤ fails_of ph + failed_now ph ph' ∧ busy ph' + failed_now ph ph' ≤ busy ph + started ph.

Lemma u32_wrap_le n : 0 ≤ n → 0 ≤ u32_wrap n ≤ n.
Proof. intros Hn. unfold u32_wrap. split; [apply Z.mod_pos_bound; lia|]. apply Z.mod_le; lia. Qed.

Lemma tally_tick ph n (call : M Phase) announced db :
  in_tick ph = true → fails_of ph = n →
  (∀ ph' db', call db = (Ok ph', db') → started ph' = 0 ∧ (fails_of ph' = n ∨ fails_of ph' = 0)) →
  tallied ph (tick n call announced db).1.1.1.
Proof.
  intros Hin Hf Hok Hn. unfold tick, failed_now, tick_failed. rewrite Hin. destruct (call db) as [[ph'|e] db'] eqn:Hc; cbn.
  - destruct (Hok ph' db' eq_refl) as [Hs Hp]. destruct ph', ph; cbn in *; try done; lia.
  - pose proof (u32_wrap_le (n + 1)). destruct e, ph; cbn in *; try done; lia.
Qed.

Lemma tally_call {A} ph n (call : M A) next announced db :
  in_tick ph = true → fails_of ph = n → (∀ a, started (next a) = 0 ∧ (fails_of (next a) = n ∨ fails_of (next a) = 0)) →
  tallied ph (tick n (a ← call; mret (next a)) announced db).1.1.1.
Proof.
  intros Hin Hf Hn. apply tally_tick; [done..|]. intros ph' db' (a & db1 & _ & [= <- _])%M_bind_Ok. apply Hn.
Qed.

Lemma tally_announcing {A} ph (m : M A) k announced db :
  in_tick ph = false → started ph = 0 → busy ph = 1 → (∀ a, started (k a).1.1 = 0 ∧ fails_of (k a).1.1 = 0) →
  tallied ph (announcing m k announced db).1.1.1.
Proof.
  intros Hin Hs Hb Hk Hn. unfold announcing, failed_now, tick_failed. rewrite Hin. destruct (m db) as [[a|e] db1]; cbn.
  - specialize (Hk a). destruct (k a) as [[ph' ann] msgs]. cbn in *. destruct ph', ph; cbn in *; try done; lia.
  - destruct ph; cbn in *; try done; lia.
Qed.

Lemma advance_tallied config chain p2p node ph announced db :
  tallied ph (advance config chain p2p node ph announced db).1.1.1.
Proof.
  destruct ph as [n|n|n|n cursor items|n start pending h|n start pending|n last_ pending
    |n last_ pending|n pending|n pending todo found|pending found|found|]; cbn [advance].
  - by apply tally_call; [..|intros; split; [|left]].
  - unfold tallied, failed_now, after_failure. cbn. destruct (backoff_delay _ _ _); cbn; lia.
  - apply tally_tick; [done..|]. intros ph' db' [->|(cursor & items & ->)]%poll_cases; cbn; auto.
  - apply tally_tick; [done..|]. intros ph' db' [(? & ? & ? & ->)|(? & ? & ->)]%check_window_cases; cbn; auto.
  - by apply tally_call; [..|intros; split; [|left]].
  - destruct pending as [|b bs]; [apply tally_tick; [done..|]; intros ph' db' Hr; by injection Hr as <- <-; auto|].
    by apply tally_call; [..|intros; split; [|left]].
  - by apply tally_call; [..|intros; split; [|left]].
  - by apply tally_call; [..|intros; split; [|left]].
  - by apply tally_call; [..|intros; split; [|left]].
  - destruct todo as [|p todo]; [apply tally_tick; [done..|]; intros ph' db' Hr; by injection Hr as <- <-; auto|].
    by apply tally_call; [..|intros; split; [|left]].
  - destruct pending as [|b bs]; [unfold tallied, failed_now; cbn; lia|]. by apply tally_announcing.
  - destruct found as [|p found]; [unfold tallied, failed_now; cbn; lia|]. by apply tally_announcing.
  - unfold tallied, failed_now; cbn; lia.
Qed.

(** The metrics of a process: from the start, the tasks of the chains step in any
    order over whatever the store has become, requests are answered and the
    endpoint is scraped, as long as no counter comes near the end of its 64
    bits. *)
Inductive metered (config : Config) : gmap Z Phase → Metrics → Prop :=
  | metered_start now m : Metrics_new now = Some m → metered config ∅ m
  | metered_task tasks m chain p2p node announced db st msgs m' :
      let ph := default (Idle 0) (tasks !! ac_chain_id chain) in
      metered config tasks m → room m → table_size db < 2 ^ 63 →
      (∀ pending found, ph = Tip pending found → len pending < 2 ^ 63) →
      advance_metered config chain p2p node ph announced db m = Some (st, msgs, m') →
      metered config (<[ac_chain_id chain := st.1.1]> tasks) m'
  | metered_hit tasks m r m' :
      metered config tasks m → room m → metrics_middleware r m = Some m' → metered config tasks m'
  | metered_scrape tasks m now db m' :
      metered config tasks m → refresh now (stats db) m = Some m' → metered config tasks m'.

Record tally (tasks : gmap Z Phase) (m : Metrics) : Prop := {
  ta_wf : metrics_wf m;
  ta_counts : ∀ c : Z, let ph := default (Idle 0) (tasks !! c) in
    0 ≤ fails_of ph ≤ value ingest_errors [pretty c] m ∧
    value ingest_errors [pretty c] m + busy ph ≤ value ingest_ticks [pretty c] m
}.

Lemma tally_same tasks m m' :
  metrics_wf m' → (∀ c : Z, value ingest_errors [pretty c] m' = value ingest_errors [pretty c] m ∧
                        value ingest_ticks [pretty c] m' = value ingest_ticks [pretty c] m) →
  tally tasks m → tally tasks m'.
Proof. intros Hw Hv [_ Hc]. split; [done|]. intros c. destruct (Hv c) as [-> ->]. apply Hc. Qed.

Lemma metered_tally config tasks m : metered config tasks m → tally tasks m.
Proof.
  induction 1 as [now m Hm|tasks m chain p2p node announced db st msgs m' ph _ [Hw Hc] Hr Hsize Hpend Hadv
    |tasks m r m' _ IH Hr Hm|tasks m now db m' _ IH Hm].
  - destruct (new_ok now) as (m1 & Hm1 & Hw & _ & Hz & _). rewrite Hm in Hm1. injection Hm1 as <-.
    split; [done|]. intros c. rewrite lookup_empty. unfold value. rewrite !Hz. cbn. lia.
  - pose proof (advance_counts config chain p2p node ph announced db m Hw Hr Hsize Hpend) as Ha. unfold counts in Ha.
    pose proof (advance_tallied config chain p2p node ph announced db) as Ht. unfold tallied in Ht.
    destruct (advance config chain p2p node ph announced db) as [[[ph' announced'] db'] msgs'].
    destruct Ha as (m1 & Hm1 & Hw1 & Hg). rewrite Hadv in Hm1. injection Hm1 as -> -> <-. cbn [fst] in Ht.
    split; [done|]. intros c. cbv zeta. cbn [fst].
    pose proof (Hg ingest_errors [pretty c]) as He. pose proof (Hg ingest_ticks [pretty c]) as Hk. cbn [happened] in He, Hk.
    destruct (decide (c = ac_chain_id chain)) as [->|Hne].
    + unfold chain_label in He, Hk. rewrite decide_True in He, Hk by done. rewrite lookup_insert_eq. cbn [default].
      specialize (Hc (ac_chain_id chain)). cbv zeta in Hc. fold ph in Hc. destruct Hc as [[Hf0 Hf] Hb].
      specialize (Ht Hf0). unfold failed_now, started in Ht. unfold id. lia.
    + rewrite decide_False in He, Hk by (unfold chain_label; intros [= Heq%(inj pretty)]; done).
      rewrite lookup_insert_ne by done. specialize (Hc c). cbv zeta in Hc. lia.
  - destruct IH as [Hw Hc]. destruct (count_request_ok (hit_method r) (route_label (hit_matched r) (hit_path r)) (hit_elapsed r) m Hw)
      as (m1 & Hm1 & Hw1 & [Ho _]). unfold metrics_middleware in Hm. rewrite Hm in Hm1. injection Hm1 as <-.
    apply (tally_same tasks m); [done| |by split]. intros c. by rewrite !Ho by done.
  - destruct IH as [Hw Hc]. destruct (refresh_ok now db m Hw) as (m1 & Hm1 & Hw1 & _ & _ & _ & _ & _ & Ho).
    rewrite Hm in Hm1. injection Hm1 as <-. apply (tally_same tasks m); [done| |by split].
    intros c. unfold value. by rewrite !Ho by set_solver.
Qed.
End node.

(** ** Properties *)

(** C9: the instrumented loop.  With well-formed collectors and no counter near the
    end of its 64 bits, no increment of the ingest loop panics, and the loop does
    what it does without them: the same phase, announced parents, store and
    messages.  Each step counts exactly what happened and touches no other series:
    a tick where a round starts, an error where a call of the round failed, the
    blocks of the batch, the classification of a parent under the state it got, and
    as many pruned blocks as the table of the blocks lost. *)
Theorem instrumented_loop `{Sha256} `{HexCodec} `{Codec} `{Prometheus} (config : Config) (chain : AuxChain)
    (p2p : bool) (node : Node) (ph : Phase) (announced : gset bytes) (db : Database) (m : Metrics)
    (Hwf : metrics_wf m) (Hroom : room m) (Hsize : table_size db < 2 ^ 63)
    (Hpending : ∀ pending found, ph = Tip pending found → len pending < 2 ^ 63) :
  let '((ph', announced', db'), msgs) := advance config chain p2p node ph announced db in
  ∃ m', advance_metered config chain p2p node ph announced db m = Some ((ph', announced', db'), msgs, m') ∧
    metrics_wf m' ∧
    ∀ f ls, value f ls m' = value f ls m + happened chain node ph ph' (table_size db - table_size db') f ls.
Proof. exact (advance_counts config chain p2p node ph announced db m Hwf Hroom Hsize Hpending). Qed.

(** C10: the counters of a running node.  Whatever the tasks of the chains did, in any
    order and over any stores, and however often requests were answered and the
    endpoint was scraped: for each chain, the failures in a row that its backoff is
    computed from are at most the errors counted, and the ticks counted are at least
    the errors and the round in progress. *)
Theorem counters_consistent `{Sha256} `{HexCodec} `{Codec} `{Prometheus} (config : Config)
    (tasks : gmap Z Phase) (m : Metrics) (c : Z) (Hm : metered config tasks m) :
  let ph := default (Idle 0) (tasks !! c) in
  0 ≤ fails_of ph ≤ value ingest_errors [pretty c] m ∧
  value ingest_errors [pretty c] m + busy ph ≤ value ingest_ticks [pretty c] m.
Proof. apply (metered_tally config tasks m Hm). Qed.

(** C11: the scrape.  The endpoint never panics; afterwards the gauges of a chain that
    has a cached block are the number of those blocks and the greatest of their
    heights, the gauges of the other chains are what they were, the sibling groups,
    the parents and the uptime are those of the store and the clock, and no counter
    has changed. *)
Theorem scrape_correct `{Sha256} `{HexCodec} `{Codec} `{Prometheus} (render_text : Metrics → string)
    (now : Z) (db : Database) (m : Metrics) (Hwf : metrics_wf m) :
  ∃ m', render render_text now db m = Some (render_text m', m') ∧ metrics_wf m' ∧
    (∀ c, cached_heights c db ≠ [] →
       ∃ top, top ∈ cached_heights c db ∧ (∀ h, h ∈ cached_heights c db → h ≤ top) ∧
         vec_get [pretty c] (series m' indexed_blocks) = Some (as_i64 (len (cached_heights c db))) ∧
         vec_get [pretty c] (series m' chain_cursor) = Some (as_i64 top)) ∧
    (∀ c, cached_heights c db = [] →
       vec_get [pretty c] (series m' indexed_blocks) = vec_get [pretty c] (series m indexed_blocks) ∧
       vec_get [pretty c] (series m' chain_cursor) = vec_get [pretty c] (series m chain_cursor)) ∧
    vec_get [] (series m' sibling_groups) = Some (as_i64 (st_sibling_groups (stats db))) ∧
    vec_get [] (series m' indexed_parents) = Some (as_i64 (Z.of_nat (size (cache_parents db)))) ∧
    vec_get [] (series m' uptime_seconds) = Some (as_i64 (Z.max 0 (now - started_at m) / 1000000000)) ∧
    ∀ f ls, f ∈ [http_requests; ingest_blocks; ingest_ticks; ingest_errors; family_resolves; prune_blocks] →
      value f ls m' = value f ls m.
Proof.
  destruct (refresh_ok now db m Hwf) as (m' & Hm & Hw & Hc & Hn & Hg & Hp & Hu & Ho). exists m'.
  unfold render. rewrite Hm. split_and!; [done..| |done|done|done|].
  - intros c Hnil. split; apply (Hn c); try done; split; auto.
  - intros f ls Hf. unfold value. by rewrite Ho.
Qed.

(** [Metrics::new] and the middleware do not panic; the first creates every
    collector under a name of its own, the second counts every request under its
    method and route. *)
Lemma metrics_total `{Prometheus} (now : Z) (rs : list Hit) :
  len rs ≤ u64_max → ∃ m m',
    Metrics_new now = Some m ∧ registered (registry m) = rev (op_name <$> collectors) ∧
    hits rs m = Some m' ∧ ∀ ls, value http_requests ls m' = with_labels ls rs.
Proof.
  intros Hlen. destruct (new_ok now) as (m & Hm & Hw & _ & Hz & Hr).
  assert (∀ f ls, value f ls m = 0) as Hv by (intros f ls; unfold value; by rewrite Hz).
  destruct (hits_ok rs m Hw) as (m' & Hm' & _ & Hc & _); [intros ls; rewrite Hv; lia|].
  exists m, m'. split_and!; [done..|]. intros ls. rewrite Hc, Hv. lia.
Qed.

(** ** A concrete registry, and the theorems at concrete inputs *)

Definition toy_vec : Type := nat * gmap (list string) Z.
Definition toy_vec_new (o : Opts) (ls : list string) : option toy_vec :=
  if valid_desc o ls then Some (length ls, ∅) else None.
Definition toy_inc (ls : list string) (n : Z) (v : toy_vec) : option toy_vec :=
  if decide (length ls = v.1) then Some (v.1, <[ls := default 0 (v.2 !! ls) + n]> v.2) else None.
Definition toy_set (ls : list string) (n : Z) (v : toy_vec) : option toy_vec :=
  if decide (length ls = v.1) then Some (v.1, <[ls := n]> v.2) else None.
Definition toy_hist_new (o : Opts) (bs : list Z) (ls : list string) : option (nat * list Z) :=
  if valid_desc o ls then Some (length ls, []) else None.
Definition toy_observe (ls : list string) (n : Z) (h : nat * list Z) : option (nat * list Z) :=
  if decide (length ls = h.1) then Some (h.1, n :: h.2) else None.
Definition toy_register (o : Opts) (r : list string) : option (list string) :=
  if decide (op_name o ∈ r) then None else Some (op_name o :: r).

Lemma toy_vec_new_ok o ls : valid_desc o ls = true →
  ∃ v : toy_vec, toy_vec_new o ls = Some v ∧ v.1 = length ls ∧ ∀ l, v.2 !! l = None.
Proof. unfold toy_vec_new. intros ->. eexists. split; [reflexivity|]. split; [done|]. intros l. apply lookup_empty. Qed.
Lemma toy_inc_ok ls n (v : toy_vec) : length ls = v.1 → ∃ v' : toy_vec,
  toy_inc ls n v = Some v' ∧ v'.1 = v.1 ∧ (∀ ls', ls' ≠ ls → v'.2 !! ls' = v.2 !! ls') ∧
  (0 ≤ n → default 0 (v.2 !! ls) + n ≤ u64_max → v'.2 !! ls = Some (default 0 (v.2 !! ls) + n)).
Proof.
  intros Hl. unfold toy_inc. rewrite decide_True by done. eexists. split; [reflexivity|]. cbn. split_and!; [done|..].
  - intros ls' Hne. by rewrite lookup_insert_ne by done.
  - intros _ _. by rewrite lookup_insert_eq.
Qed.
Lemma toy_set_ok ls n (v : toy_vec) : length ls = v.1 → ∃ v' : toy_vec,
  toy_set ls n v = Some v' ∧ v'.1 = v.1 ∧ ∀ ls', v'.2 !! ls' = if decide (ls' = ls) then Some n else v.2 !! ls'.
Proof.
  intros Hl. unfold toy_set. rewrite decide_True by done. eexists. split; [reflexivity|]. cbn. split; [done|].
  intros ls'. case_decide as Hd; [by rewrite Hd, lookup_insert_eq|by rewrite lookup_insert_ne].
Qed.
Lemma toy_hist_new_ok o (bs : list Z) ls : valid_desc o ls = true → bs ≠ [] → StronglySorted Z.lt bs →
  ∃ h, toy_hist_new o bs ls = Some h ∧ h.1 = length ls.
Proof. unfold toy_hist_new. intros -> _ _. by eexists. Qed.
Lemma toy_observe_ok ls n (h : nat * list Z) : length ls = h.1 → ∃ h', toy_observe ls n h = Some h' ∧ h'.1 = h.1.
Proof. intros Hl. unfold toy_observe. rewrite decide_True by done. by eexists. Qed.
Lemma toy_register_ok o r : op_name o ∉ r → ∃ r', toy_register o r = Some r' ∧ r' = op_name o :: r.
Proof. intros Ho. unfold toy_register. rewrite decide_False by done. by eexists. Qed.
Lemma toy_registry_new_ok (ns : string) : (λ _ : string, @nil string) ns = [].
Proof. done. Qed.

Definition toy_prometheus : Prometheus := {|
  Vec := toy_vec; vec_new := toy_vec_new; vec_arity := fst; vec_get ls v := v.2 !! ls;
  counter_inc_by := toy_inc; gauge_set := toy_set;
  Hist := nat * list Z; hist_new := toy_hist_new; hist_arity := fst; hist_observe := toy_observe;
  Registry := list string; registry_new _ := []; registered r := r; register := toy_register;
  vec_new_ok := toy_vec_new_ok; counter_inc_ok := toy_inc_ok; gauge_set_ok := toy_set_ok;
  hist_new_ok := toy_hist_new_ok; hist_observe_ok := toy_observe_ok;
  registry_new_ok := toy_registry_new_ok; register_ok := toy_register_ok
|}.

#[local] Existing Instances toy_hash plain_hex toy_codec toy_prometheus.

Definition sample_metrics : Metrics := default (mkMetrics [] (λ _, (0%nat, ∅)) (0%nat, []) 0) (Metrics_new 0).
Lemma sample_metrics_new : Metrics_new 0 = Some sample_metrics.
Proof. unfold sample_metrics. destruct (new_ok 0) as (m & Hm & _). by rewrite Hm. Qed.
Lemma sample_metrics_ok : metrics_wf sample_metrics ∧ room sample_metrics.
Proof.
  destruct (new_ok 0) as (m & Hm & Hw & _ & Hz & _). rewrite sample_metrics_new in Hm. injection Hm as <-.
  split; [done|]. intros f ls. unfold value. by rewrite Hz.
Qed.

Lemma instrumented_loop_witness :
  ∃ m', advance_metered sample_cfg sample_chain_cfg true sample_node (Idle 0) ∅ fresh_db sample_metrics
        = Some (advance sample_cfg sample_chain_cfg true sample_node (Idle 0) ∅ fresh_db, m') ∧
    value ingest_ticks ["8224"%string] m' = 1 ∧ value ingest_errors ["8224"%string] m' = 0.
Proof.
  destruct sample_metrics_ok as [Hw Hr].
  pose proof (instrumented_loop sample_cfg sample_chain_cfg true sample_node (Idle 0) ∅ fresh_db sample_metrics
                Hw Hr ltac:(by vm_compute) ltac:(done)) as Hl.
  destruct (advance sample_cfg sample_chain_cfg true sample_node (Idle 0) ∅ fresh_db) as [[[ph' ann'] db'] msgs] eqn:Ha.
  destruct Hl as (m' & Hm & _ & Hv). exists m'. split; [exact Hm|].
  assert (ph' = Polling 0) as -> by (apply (f_equal (λ r, r.1.1.1)) in Ha; vm_compute in Ha; by symmetry).
  rewrite !Hv. vm_compute. split; reflexivity.
Defined.

(** A failing transaction is an error of the tick. *)
Definition failing_db : Database := set_faults [true] fresh_db.
Lemma sample_metered : ∃ m,
  metered sample_cfg {[8224 := Failing 1]} m ∧ value ingest_errors ["8224"%string] m = 1.
Proof.
  destruct sample_metrics_ok as [Hw Hr].
  pose proof (advance_counts sample_cfg sample_chain_cfg true sample_node (Idle 0) ∅ failing_db sample_metrics Hw Hr
                ltac:(by vm_compute) ltac:(done)) as Hc. unfold counts in Hc.
  destruct (advance sample_cfg sample_chain_cfg true sample_node (Idle 0) ∅ failing_db) as [[[ph' ann'] db'] msgs] eqn:Ha.
  destruct Hc as (m & Hm & _ & Hg).
  assert (ph' = Failing 1) as -> by (apply (f_equal (λ r, r.1.1.1)) in Ha; vm_compute in Ha; by symmetry).
  exists m. split.
  - exact (metered_task sample_cfg ∅ sample_metrics sample_chain_cfg true sample_node ∅ failing_db _ _ m
             (metered_start sample_cfg 0 _ sample_metrics_new) Hr ltac:(by vm_compute) ltac:(done) Hm).
  - rewrite Hg. vm_compute. reflexivity.
Qed.

Lemma counters_consistent_witness : ∃ m,
  metered sample_cfg {[8224 := Failing 1]} m ∧ 1 ≤ value ingest_errors ["8224"%string] m ≤ value ingest_ticks ["8224"%string] m.
Proof.
  destruct sample_metered as (m & Hm & _). exists m. split; [exact Hm|].
  pose proof (counters_consistent sample_cfg _ m 8224 Hm) as Hc. cbv zeta in Hc. rewrite lookup_singleton_eq in Hc.
  change (0 ≤ 1 ≤ value ingest_errors ["8224"%string] m ∧
          value ingest_errors ["8224"%string] m + 0 ≤ value ingest_ticks ["8224"%string] m) in Hc. lia.
Defined.

Lemma scrape_correct_witness :
  metrics_wf sample_metrics ∧ ∃ m', render (λ _, ""%string) 5000000000 sample_db sample_metrics = Some (""%string, m') ∧
    vec_get ["8224"%string] (series m' indexed_blocks) = Some 2 ∧ vec_get [] (series m' uptime_seconds) = Some 5.
Proof.
  split; [apply sample_metrics_ok|].
  destruct (scrape_correct (λ _, ""%string) 5000000000 sample_db sample_metrics (proj1 sample_metrics_ok))
    as (m' & Hm & _ & Hc & _ & _ & _ & Hu & _).
  exists m'. split; [exact Hm|]. split; [|rewrite Hu; vm_compute; reflexivity].
  destruct (Hc 8224) as (top & _ & _ & Hb & _); [vm_compute; discriminate|].
  change (pretty 8224) with "8224"%string in Hb. rewrite Hb. vm_compute. reflexivity.
Defined.

(** The gauges of a chain whose last block was rolled back keep their values. *)
Definition emptied_db : Database := (rollback_from 8224 0 sample_db).2.
Example stale_gauge :
  (m1 ← refresh 0 (stats sample_db) sample_metrics;
   m2 ← refresh 0 (stats emptied_db) m1; vec_get ["8224"%string] (series m2 indexed_blocks)) = Some 2.
Proof. vm_compute. reflexivity. Qed.
Example emptied_heights : cached_heights 8224 emptied_db = [].
Proof. vm_compute. reflexivity. Qed.

(** Every path that matches no route is a series of its own. *)
Example unmatched_series :
  (m ← hits ((λ n, mkHit "GET" None ("/" +:+ pretty n) 0) <$> seqZ 0 3) sample_metrics;
   mapM (λ n, vec_get ["GET"; "/" +:+ pretty n]%string (series m http_requests)) (seqZ 0 3)) = Some [1; 1; 1].
Proof. vm_compute. reflexivity. Qed.
