(* ===== verification/P2p.v ===== *)
(** * The gossip mesh

    [src/p2p/mod.rs] and [src/p2p/swarm.rs]: the handle the other tasks hold (the
    queue of messages to publish and the shared status), the announcements it
    builds, and the swarm loop: one step per queued message or swarm event.  The
    channel holds 1000 messages and a sender waits for a slot ([has_slot]): a [send]
    is modelled at the moment it gets one, and [Process] lets no task and no request
    go on past a full channel; it fails when the swarm task is gone.
    libp2p, its answers and its events are arguments; [serde]'s encodings are the
    class [GossipCodec].  Theorems: what the status says after any sequence of
    events, and that a message from the mesh can change nothing but the order
    book, by an intent that passes the full validation. *)

From S2P Require Export Json Ingest.

#[local] Open Scope Z_scope.

(** ** Data *)

Definition TOPIC_HEADERS : string := "/psob/headers/v1".
Definition TOPIC_SIBLINGS : string := "/psob/siblings/v1".
Definition TOPIC_INTENTS : string := "/psob/intents/v1".

Record GossipMessage := mkGossip { gm_topic : string; gm_payload : bytes }.

Record P2pStatus := mkStatus {
  peer_id : string;
  listen_addrs : list string;
  connected_peers_count : Z;
  connected_peers : list string;
  subscribed_topics : list string
}.

(** The channel's receiver is alive, the messages waiting in it (oldest first), and
    the shared status. *)
Record P2pHandle := mkHandle {
  ph_open : bool;
  ph_queue : list GossipMessage;
  ph_status : P2pStatus
}.

(** [serde]: [Value::to_string], [to_value] of an intent, [from_slice] to one. *)
Class GossipCodec := {
  json_bytes : Json → bytes;
  intent_value : SwapIntentMessage → Json;
  de_intent : bytes → option SwapIntentMessage;
  de_intent_value : ∀ i, de_intent (json_bytes (intent_value i)) = Some i
}.

(** ** The handle *)

(** [mpsc::channel(1000)]; a [send] is ready when there is a slot, or no receiver. *)
Definition CHANNEL_CAPACITY : Z := 1000.
Definition has_slot (h : P2pHandle) : bool := negb (ph_open h) || (len (ph_queue h) <? CHANNEL_CAPACITY).

Section handle.
Context `{GossipCodec}.

(** [send(..).await.is_ok()] once it is ready. *)
Definition publish_json (topic : string) (payload : Json) (h : P2pHandle) : bool * P2pHandle :=
  if ph_open h
  then (true, mkHandle true (ph_queue h ++ [mkGossip topic (json_bytes payload)]) (ph_status h))
  else (false, h).

Definition broadcast_intent (intent : SwapIntentMessage) : P2pHandle → bool * P2pHandle :=
  publish_json TOPIC_INTENTS (intent_value intent).

Definition json_num (n : Z) : Json := JNum (Some n).
Definition json_opt (o : option Z) : Json := match o with Some n => json_num n | None => JNull end.

Definition header_json (chain_id height : Z) (block_hash_display parent_hash_display : string)
    (ltc_height : option Z) (auxpow_hex : string) : Json := JObj
  [("type", JStr "header"); ("chain_id", json_num chain_id); ("height", json_num height);
   ("block_hash", JStr block_hash_display); ("parent_hash", JStr parent_hash_display);
   ("ltc_height", json_opt ltc_height); ("auxpow_hex", JStr auxpow_hex)]%string.
Definition announce_header (chain_id height : Z) (block_hash_display parent_hash_display : string)
    (ltc_height : option Z) (auxpow_hex : string) : P2pHandle → bool * P2pHandle :=
  publish_json TOPIC_HEADERS
    (header_json chain_id height block_hash_display parent_hash_display ltc_height auxpow_hex).

Definition leg_json (leg : Z * Z * string) : Json :=
  JObj [("chain_id", json_num leg.1.1); ("height", json_num leg.1.2); ("block_hash", JStr leg.2)]%string.
Definition sibling_json (parent_hash_display : string) (ltc_height : Z) (legs : list (Z * Z * string)) : Json := JObj
  [("type", JStr "sibling"); ("parent_hash", JStr parent_hash_display);
   ("ltc_height", json_num ltc_height); ("legs", JArr (leg_json <$> legs))]%string.
Definition announce_sibling (parent_hash_display : string) (ltc_height : Z)
    (legs : list (Z * Z * string)) : P2pHandle → bool * P2pHandle :=
  publish_json TOPIC_SIBLINGS (sibling_json parent_hash_display ltc_height legs).

(** What the ingest loop announces. *)
Definition announce (a : Announcement) : P2pHandle → bool * P2pHandle :=
  match a with
  | AnnounceHeader chain_id height hash parent ltc_height wire =>
      announce_header chain_id height hash parent ltc_height wire
  | AnnounceSibling parent ltc_height legs => announce_sibling parent ltc_height legs
  end.
End handle.

(** ** The swarm *)

Inductive SwarmEvent :=
  | NewListenAddr (address : string)
  | MdnsDiscovered (l : list (string * string))
  | MdnsExpired (l : list (string * string))
  | GossipsubMessage (topic : string) (data : bytes)
  | ConnectionEstablished (peer : string)
  | ConnectionClosed (peer : string)
  | OtherEvent.

(** One turn of the loop: a queued message, with what gossipsub's [publish]
    answers, or an event. *)
Inductive SwarmInput :=
  | Recv (published : bool)
  | Event (e : SwarmEvent).

(** The handle, the messages gossipsub accepted and the explicit peers. *)
Record Swarm := mkSwarm {
  sw_handle : P2pHandle;
  sw_published : list GossipMessage;
  sw_explicit : list string
}.

Definition initial_status (id : string) : P2pStatus :=
  mkStatus id [] 0 [] [TOPIC_HEADERS; TOPIC_SIBLINGS; TOPIC_INTENTS].

Definition listen_multiaddr (config : P2pConfig) : string :=
  "/ip4/" +:+ p2p_bind_addr config +:+ "/tcp/" +:+ pretty (p2p_port config).

(** The swarm that is started and the bootstrap nodes dialed; [None] when the
    listen address does not parse or cannot be bound. *)
Definition start_p2p_swarm (id : string) (parses binds : string → bool) (config : P2pConfig) :
    option (Swarm * list string) :=
  let listen_addr := listen_multiaddr config in
  if negb (parses listen_addr) then None else
  if negb (binds listen_addr) then None else
  Some (mkSwarm (mkHandle true [] (initial_status id)) [] [],
        List.filter parses (p2p_bootstrap_nodes config)).

(** What an event does to the status. *)
Definition status_event (e : SwarmEvent) (st : P2pStatus) : P2pStatus :=
  match e with
  | NewListenAddr s =>
      if bool_decide (s ∈ listen_addrs st) then st
      else mkStatus (peer_id st) (listen_addrs st ++ [s]) (connected_peers_count st)
             (connected_peers st) (subscribed_topics st)
  | ConnectionEstablished p =>
      if bool_decide (p ∈ connected_peers st) then st
      else let peers := connected_peers st ++ [p] in
           mkStatus (peer_id st) (listen_addrs st) (len peers) peers (subscribed_topics st)
  | ConnectionClosed p =>
      let peers := List.filter (λ x, negb (bool_decide (x = p))) (connected_peers st) in
      mkStatus (peer_id st) (listen_addrs st) (len peers) peers (subscribed_topics st)
  | MdnsDiscovered _ | MdnsExpired _ | GossipsubMessage _ _ | OtherEvent => st
  end.

Inductive IntentOutcome :=
  | IntentStored
  | IntentStoreFailed (e : DbError)
  | IntentRejected (e : SwapError)
  | IntentMalformed.

Definition registry_ids (registry : list (Z * string * string)) : gset Z :=
  list_to_set ((λ e : Z * string * string, e.1.1) <$> registry).
Definition known_chain_ids (db : Database) : gset Z := registry_ids (chain_registry db).

Section swarm.
Context `{Sha256} `{HexCodec} `{Secp256k1} `{Codec} `{GossipCodec}.

(** A message on the intents topic; [env] is [PSOB_REQUIRE_SIGNATURES], [now] and
    [now'] are the clock when the intent is validated and when it is stored. *)
Definition inbound_intent (env : option string) (now now' : Z) (data : bytes) : M IntentOutcome :=
  match de_intent data with
  | None => mret IntentMalformed
  | Some intent =>
      db ← get_db;
      match validate_swap_intent env now (known_chain_ids db) intent with
      | Err e => mret (IntentRejected e)
      | Ok _ =>
          r ← try (insert_intent now' intent);
          mret (match r with Ok _ => IntentStored | Err e => IntentStoreFailed e end)
      end
  end.

Definition swarm_event (env : option string) (now now' : Z) (e : SwarmEvent) (sw : Swarm) : M Swarm :=
  let h := sw_handle sw in
  let sw := mkSwarm (mkHandle (ph_open h) (ph_queue h) (status_event e (ph_status h)))
              (sw_published sw) (sw_explicit sw) in
  match e with
  | GossipsubMessage topic data =>
      if bool_decide (topic = TOPIC_INTENTS)
      then _ ← inbound_intent env now now' data; mret sw
      else mret sw
  | MdnsDiscovered l => mret (mkSwarm (sw_handle sw) (sw_published sw) (sw_explicit sw ++ l.*1))
  | _ => mret sw
  end.

(** One turn; a receive with an empty queue does not happen. *)
Definition swarm_turn (env : option string) (now now' : Z) (i : SwarmInput) (sw : Swarm) : M Swarm :=
  match i with
  | Recv published =>
      let h := sw_handle sw in
      match ph_queue h with
      | [] => mret sw
      | msg :: queue =>
          mret (mkSwarm (mkHandle (ph_open h) queue (ph_status h))
                  (if published : bool then sw_published sw ++ [msg] else sw_published sw) (sw_explicit sw))
      end
  | Event e => swarm_event env now now' e sw
  end.

(** [run_swarm_loop] over a sequence of turns, each with its clock. *)
Fixpoint run_swarm_loop (env : option string) (turns : list (Z * Z * SwarmInput)) (sw : Swarm) : M Swarm :=
  match turns with
  | [] => mret sw
  | (now, now', i) :: turns => sw ← swarm_turn env now now' i sw; run_swarm_loop env turns sw
  end.
End swarm.
