(* ===== verification/P2pThm.v ===== *)
(** * The gossip mesh: theorems

    What the status reports after any sequence of turns of the swarm loop, and
    what messages from the mesh can do to the store. *)

From S2P Require Export P2p.

#[local] Open Scope Z_scope.

(** ** The status *)

Definition events (turns : list (Z * Z * SwarmInput)) : list SwarmEvent :=
  omap (λ t : Z * Z * SwarmInput, match t.2 with Event e => Some e | Recv _ => None end) turns.
Definition status_after (st : P2pStatus) (evs : list SwarmEvent) : P2pStatus :=
  foldl (λ st e, status_event e st) st evs.

(** The last connection event about a peer: whether it was an opening. *)
Definition conn_event (p : string) (e : SwarmEvent) : option bool :=
  match e with
  | ConnectionEstablished q => if decide (q = p) then Some true else None
  | ConnectionClosed q => if decide (q = p) then Some false else None
  | _ => None
  end.
Definition last_conn (p : string) (evs : list SwarmEvent) : option bool := last (omap (conn_event p) evs).

(** The connections to a peer that are open. *)
Definition open_conns (p : string) (evs : list SwarmEvent) : Z :=
  foldl (λ n b, if b : bool then n + 1 else n - 1) 0 (omap (conn_event p) evs).
(** At no time more than one. *)
Definition one_at_a_time (p : string) (evs : list SwarmEvent) : Prop :=
  ∀ pre, pre `prefix_of` evs → 0 ≤ open_conns p pre ≤ 1.

Record status_ok (st : P2pStatus) (evs : list SwarmEvent) : Prop := {
  so_peers : NoDup (connected_peers st);
  so_count : connected_peers_count st = len (connected_peers st);
  so_addrs : NoDup (listen_addrs st);
  so_addr : ∀ a, a ∈ listen_addrs st ↔ NewListenAddr a ∈ evs;
  so_peer : ∀ p, p ∈ connected_peers st ↔ last_conn p evs = Some true
}.

Lemma last_conn_snoc p evs e :
  last_conn p (evs ++ [e]) = match conn_event p e with Some b => Some b | None => last_conn p evs end.
Proof.
  unfold last_conn. rewrite omap_app. cbn. destruct (conn_event p e) as [b|]; [by rewrite last_snoc|].
  by rewrite app_nil_r.
Qed.

Lemma open_conns_snoc p evs e :
  open_conns p (evs ++ [e])
  = match conn_event p e with
    | Some true => open_conns p evs + 1 | Some false => open_conns p evs - 1 | None => open_conns p evs
    end.
Proof.
  unfold open_conns. rewrite omap_app. cbn. destruct (conn_event p e) as [b|]; [|by rewrite app_nil_r].
  rewrite foldl_app. by destruct b.
Qed.

Lemma last_conn_open p evs :
  one_at_a_time p evs → (last_conn p evs = Some true ↔ open_conns p evs = 1).
Proof.
  induction evs as [|e evs IH] using rev_ind; intros Hone; [done|].
  assert (one_at_a_time p evs) as Hpre by (intros pre Hp; apply Hone; by apply prefix_app_r).
  pose proof (Hone _ (reflexivity _)) as Hlast. pose proof (Hpre _ (reflexivity _)) as Hprev.
  rewrite last_conn_snoc, open_conns_snoc in *. destruct (conn_event p e) as [[]|]; [|by split; [|lia]|by apply IH].
  split; [lia|done].
Qed.

Lemma NoDup_snoc {A} (l : list A) x : NoDup l → x ∉ l → NoDup (l ++ [x]).
Proof.
  intros Hl Hx. apply NoDup_app. split_and!; [done| |apply NoDup_singleton].
  intros y Hy ->%list_elem_of_singleton. done.
Qed.

Lemma status_event_ok st evs e : status_ok st evs → status_ok (status_event e st) (evs ++ [e]).
Proof.
  intros [Hp Hc Ha Hal Hpl].
  assert (∀ a, (∀ s, e ≠ NewListenAddr s) → a ∈ listen_addrs st ↔ NewListenAddr a ∈ evs ++ [e]) as Hkeep.
  { intros a He. rewrite elem_of_app, list_elem_of_singleton, Hal. split; [tauto|]. intros [?|<-]; [done|].
    by destruct (He a). }
  assert (∀ p, conn_event p e = None →
            p ∈ connected_peers st ↔ last_conn p (evs ++ [e]) = Some true) as Hkeep2.
  { intros p He. by rewrite last_conn_snoc, He. }
  destruct e as [s| | | |q|q|]; cbn;
    try (split; [done|done|done|intros; by apply Hkeep|intros; by apply Hkeep2]).
  - case_bool_decide as Hs; split; cbn; try done; try (by intros p; apply Hkeep2).
    + intros a. rewrite elem_of_app, list_elem_of_singleton, Hal. split; [tauto|].
      intros [?|[= ->]]; [done|by apply Hal].
    + by apply NoDup_snoc.
    + intros a. rewrite !elem_of_app, !list_elem_of_singleton, Hal. naive_solver.
  - case_bool_decide as Hq; split; cbn; try done; try (by intros a; apply Hkeep).
    + intros p. rewrite last_conn_snoc. cbn. case_decide as Hqp; [subst; naive_solver|done].
    + by apply NoDup_snoc.
    + intros p. rewrite elem_of_app, list_elem_of_singleton, last_conn_snoc. cbn.
      case_decide as Hqp; [subst; naive_solver|]. rewrite Hpl. naive_solver.
  - split; cbn; try done; [by apply NoDup_filter_bool| |]; [by intros a; apply Hkeep|].
    intros p. rewrite elem_of_filter_bool, negb_true_iff, bool_decide_eq_false, last_conn_snoc. cbn.
    case_decide as Hqp; [subst; naive_solver|]. rewrite Hpl. naive_solver.
Qed.

Lemma initial_status_ok id : status_ok (initial_status id) [].
Proof.
  split; cbn; try done; try apply NoDup_nil_2; intros x; split; try done; by intros ?%not_elem_of_nil.
Qed.

Lemma status_after_ok st pre evs :
  status_ok st pre → status_ok (status_after st evs) (pre ++ evs).
Proof.
  revert st pre. induction evs as [|e evs IH]; intros st pre Hst; [by rewrite app_nil_r|].
  cbn. replace (pre ++ e :: evs) with ((pre ++ [e]) ++ evs) by (by rewrite <-(assoc_L (++))).
  by apply IH, status_event_ok.
Qed.

(** ** The loop *)

Section loop.
Context `{Sha256} `{HexCodec} `{Secp256k1} `{Codec} `{GossipCodec}.

(** The intent that a turn brings and the code accepts. *)
Definition accepts (env : option string) (db : Database) (t : Z * Z * SwarmInput) (i : SwapIntentMessage) : Prop :=
  ∃ data, t.2 = Event (GossipsubMessage TOPIC_INTENTS data) ∧ de_intent data = Some i ∧
    validate_swap_intent env t.1.1 (known_chain_ids db) i = Ok ().

(** The order book after the turns: what was in it, and accepted intents. *)
Definition book_from (env : option string) (turns : list (Z * Z * SwarmInput)) (db db' : Database) : Prop :=
  ∃ c, db' = intents_set c db ∧
    ∀ id i, c !! id = Some i →
      cache_intents db !! id = Some i ∨ (id = intent_id i ∧ ∃ t, t ∈ turns ∧ accepts env db t i).

Lemma inbound_intent_run env now now' data db :
  db_inv db →
  ∃ o c, inbound_intent env now now' data db = (Ok o, intents_set c db) ∧ db_inv (intents_set c db) ∧
    (∀ id i, c !! id = Some i → cache_intents db !! id = Some i ∨
       id = intent_id i ∧ de_intent data = Some i ∧
       validate_swap_intent env now (known_chain_ids db) i = Ok ()) ∧
    (∀ i, de_intent data = Some i → validate_swap_intent env now (known_chain_ids db) i = Ok () →
       Z.of_nat (size (filter (live now') (cache_intents db))) < MAX_ACTIVE_INTENTS →
       o = IntentStored ∧ c = <[intent_id i := i]> (filter (live now') (cache_intents db))).
Proof.
  intros Hinv. pose proof Hinv as [Hco Hf _ _]. unfold inbound_intent. destruct (de_intent data) as [i|] eqn:Hi.
  2: { exists IntentMalformed, (cache_intents db). rewrite intents_set_same by done.
       split_and!; [done|done|by left|done]. }
  rewrite (bind_step _ _ db db db) by done.
  destruct (validate_swap_intent env now (known_chain_ids db) i) as [[]|e] eqn:Hv.
  2: { exists (IntentRejected e), (cache_intents db). rewrite intents_set_same by done.
       split_and!; [done|done|by left|]. intros i' [= <-]. congruence. }
  pose proof (insert_intent_run now' i db Hco Hf) as Hrun. cbv zeta in Hrun.
  set (book := filter (live now') (cache_intents db)) in *.
  assert (∀ id j, book !! id = Some j → cache_intents db !! id = Some j) as Hold.
  { intros id j Hj. by apply map_lookup_filter_Some in Hj as [? _]. }
  assert (∀ r db', insert_intent now' i db = (r, db') → db_inv db') as Hstep.
  { intros r db' Hr. eapply step_inv; [done|]. by eapply step_insert_intent. }
  unfold mbind, M_bind, try. rewrite Hrun. rewrite Hrun in Hstep. destruct (_ <=? _) eqn:Hcap; reflect_bools.
  - eexists _, book. split_and!; [done|by eapply Hstep|by left; apply Hold|]. intros ? _ _ ?. lia.
  - eexists _, (<[intent_id i := i]> book). split_and!; [done|by eapply Hstep| |].
    + intros id j [[<- <-]|[_ Hj]]%lookup_insert_Some; [by right|left; by apply Hold].
    + by intros i' [= <-].
Qed.

(** Messages leave the queue in order; those gossipsub accepted are published. *)
Definition drained (ok : Prop) (sw sw' : Swarm) : Prop :=
  ∃ taken kept, ph_queue (sw_handle sw) = taken ++ ph_queue (sw_handle sw') ∧
    sw_published sw' = sw_published sw ++ kept ∧ kept `sublist_of` taken ∧ (ok → kept = taken).

Lemma drained_none ok sw sw' :
  sw_published sw' = sw_published sw → ph_queue (sw_handle sw') = ph_queue (sw_handle sw) → drained ok sw sw'.
Proof. intros Hp Hq. exists [], []. by rewrite Hp, Hq, app_nil_r. Qed.

Lemma drained_trans (ok ok' : Prop) sw1 sw2 sw3 :
  drained ok sw1 sw2 → drained ok' sw2 sw3 → drained (ok ∧ ok') sw1 sw3.
Proof.
  intros (t1 & k1 & Hq1 & Hp1 & Hs1 & Hk1) (t2 & k2 & Hq2 & Hp2 & Hs2 & Hk2).
  exists (t1 ++ t2), (k1 ++ k2). rewrite Hq1, Hq2, Hp2, Hp1, !(assoc_L (++)). split_and!; [done|done|by apply sublist_app|].
  intros [? ?]. by rewrite Hk1, Hk2.
Qed.

Lemma drained_impl (ok ok' : Prop) sw sw' : (ok' → ok) → drained ok sw sw' → drained ok' sw sw'.
Proof. intros Hi (t & k & ? & ? & ? & ?). exists t, k. split_and!; auto. Qed.

Lemma swarm_turn_run env t sw db :
  db_inv db →
  ∃ sw' db', swarm_turn env t.1.1 t.1.2 t.2 sw db = (Ok sw', db') ∧ db_inv db' ∧ book_from env [t] db db' ∧
    ph_status (sw_handle sw') = status_after (ph_status (sw_handle sw)) (events [t]) ∧
    drained (t.2 ≠ Recv false) sw sw'.
Proof.
  intros Hinv. pose proof (inv_coherent _ Hinv) as Hco. destruct t as [[now now'] i]. cbn [fst snd].
  assert (book_from env [(now, now', i)] db db) as Hsame.
  { exists (cache_intents db). rewrite intents_set_same by done. split; [done|by left]. }
  destruct i as [b|e]; cbn [swarm_turn].
  - destruct (ph_queue (sw_handle sw)) as [|m q] eqn:Hq.
    + exists sw, db. split_and!; [done..|by apply drained_none].
    + eexists _, db. split_and!; [done..|]. exists [m], (if b then [m] else []). rewrite Hq. cbn.
      destruct b; rewrite ?app_nil_r; split_and!; try done. apply sublist_nil_l.
  - destruct e as [s|l|l|topic data|p|p|]; try (eexists _, db; split_and!; [done..|by apply drained_none]).
    cbn [swarm_event]. case_bool_decide as Ht.
    2: { eexists _, db. split_and!; [done..|by apply drained_none]. }
    destruct (inbound_intent_run env now now' data db Hinv) as (o & c & Hrun & Hinv' & Hc & _).
    eexists _, (intents_set c db). split_and!; [by rewrite (bind_step _ _ _ _ _ Hrun)|done| |done|by apply drained_none].
    exists c. split; [done|]. intros id i Hi. destruct (Hc id i Hi) as [?|(-> & Hd & Hv)]; [by left|right].
    split; [done|]. exists (now, now', Event (GossipsubMessage topic data)). split; [by left|].
    exists data. subst topic. done.
Qed.

Lemma book_from_trans env t turns db1 db2 db3 :
  book_from env [t] db1 db2 → book_from env turns db2 db3 → book_from env (t :: turns) db1 db3.
Proof.
  intros (c1 & -> & Hc1) (c2 & -> & Hc2). exists c2. split; [by destruct db1|].
  intros id i Hi. destruct (Hc2 id i Hi) as [Hi'|(-> & t' & Ht' & Ha)].
  - destruct (Hc1 id i Hi') as [?|(-> & t' & Ht' & Ha)]; [by left|right].
    split; [done|]. exists t'. split; [|done]. apply list_elem_of_singleton in Ht' as ->. by left.
  - right. split; [done|]. exists t'. split; [by right|exact Ha].
Qed.

Lemma run_swarm_loop_run env turns sw db :
  db_inv db →
  ∃ sw' db', run_swarm_loop env turns sw db = (Ok sw', db') ∧ db_inv db' ∧ book_from env turns db db' ∧
    ph_status (sw_handle sw') = status_after (ph_status (sw_handle sw)) (events turns) ∧
    drained (∀ t, t ∈ turns → t.2 ≠ Recv false) sw sw'.
Proof.
  revert sw db. induction turns as [|t turns IH]; intros sw db Hinv.
  - exists sw, db. split_and!; [done|done| |done|by apply drained_none].
    exists (cache_intents db). rewrite intents_set_same by (by apply inv_coherent). split; [done|by left].
  - destruct (swarm_turn_run env t sw db Hinv) as (sw1 & db1 & Hrun1 & Hinv1 & Hb1 & Hs1 & Hd1).
    destruct (IH sw1 db1 Hinv1) as (sw' & db' & Hrun & Hinv' & Hb & Hs & Hd). exists sw', db'.
    destruct t as [[now now'] i]. cbn [run_swarm_loop]. rewrite (bind_step _ _ _ _ _ Hrun1). split_and!; [done|done| | |].
    + by eapply book_from_trans.
    + rewrite Hs, Hs1. unfold status_after. rewrite <-foldl_app. f_equal. unfold events. by rewrite <-omap_app.
    + eapply drained_impl; [|by eapply drained_trans]. intros Hall. split.
      * apply (Hall (now, now', i)). by left.
      * intros t Ht. apply Hall. by right.
Qed.
End loop.

(** ** Properties *)

(** The status of the mesh.  From a start, with any messages queued by the other
    tasks, the loop never fails; after any turns the peers and the addresses
    listed are without repetition and the count is the number of peers, the
    addresses are the ones announced, and a peer is listed exactly when the last
    connection event about it was an opening: these are the connected peers as
    long as each has one connection at a time, but a peer with two is dropped when
    one of them closes.  The queued messages are published in order. *)
Theorem swarm_status_correct `{Sha256} `{HexCodec} `{Secp256k1} `{Codec} `{GossipCodec}
    (env : option string) (id : string) (parses binds : string → bool) (config : P2pConfig)
    (sw : Swarm) (dials : list string) (queue : list GossipMessage)
    (turns : list (Z * Z * SwarmInput)) (db : Database)
    (Hinv : db_inv db)
    (Hstart : start_p2p_swarm id parses binds config = Some (sw, dials)) :
  ∃ sw' db', run_swarm_loop env turns
      (mkSwarm (mkHandle true queue (ph_status (sw_handle sw))) [] []) db = (Ok sw', db') ∧
    let st := ph_status (sw_handle sw') in
    NoDup (connected_peers st) ∧ connected_peers_count st = len (connected_peers st) ∧
    NoDup (listen_addrs st) ∧ (∀ a, a ∈ listen_addrs st ↔ NewListenAddr a ∈ events turns) ∧
    (∀ p, p ∈ connected_peers st ↔ last_conn p (events turns) = Some true) ∧
    (∀ p, one_at_a_time p (events turns) → (p ∈ connected_peers st ↔ open_conns p (events turns) = 1)) ∧
    (∀ p evs, events turns = evs ++ [ConnectionEstablished p; ConnectionEstablished p; ConnectionClosed p] →
       open_conns p (events turns) = open_conns p evs + 1 ∧ p ∉ connected_peers st) ∧
    ((∀ t, t ∈ turns → t.2 ≠ Recv false) → sw_published sw' ++ ph_queue (sw_handle sw') = queue) ∧
    sw_published sw' `sublist_of` queue.
Proof.
  unfold start_p2p_swarm in Hstart. destruct (negb _); [done|]. destruct (negb _); [done|].
  injection Hstart as <- _. cbn [ph_status sw_handle].
  destruct (run_swarm_loop_run env turns (mkSwarm (mkHandle true queue (initial_status id)) [] []) db Hinv)
    as (sw' & db' & Hrun & _ & _ & Hs & (taken & kept & Hq & Hpub & Hsub & Hall)).
  destruct (status_after_ok _ _ (events turns) (initial_status_ok id)) as [Hp Hc Ha Hal Hpl].
  cbn [app ph_status ph_queue sw_handle sw_published] in *. exists sw', db'. cbv zeta. rewrite Hs.
  split_and!; try done.
  - intros p Hone. rewrite Hpl. by apply last_conn_open.
  - intros p evs Hev. split.
    + rewrite Hev. unfold open_conns. rewrite omap_app, foldl_app. cbn.
      rewrite !decide_True by done. cbn. lia.
    + rewrite Hpl, Hev. change [?a; ?b; ?c] with ([a; b] ++ [c]). rewrite (assoc_L (++)), last_conn_snoc. cbn.
      by rewrite decide_True.
  - intros Hok. by rewrite Hpub, Hq, Hall.
  - rewrite Hpub, Hq. by apply sublist_inserts_r.
Qed.

(** C14: what the mesh can do to the store.  After any turns, against any peers, only
    the order book may have changed, it is coherent and within its capacity, and
    an intent in it was there before or arrived on the intents topic and passed
    the whole validation, with the chains registered and the clock of its arrival;
    and an intent that passes is stored when the live book has room. *)
Theorem swarm_inbound_safe `{Sha256} `{HexCodec} `{Secp256k1} `{Codec} `{GossipCodec}
    (env : option string) (turns : list (Z * Z * SwarmInput)) (sw : Swarm) (db : Database)
    (Hinv : db_inv db) :
  ∃ sw' db', run_swarm_loop env turns sw db = (Ok sw', db') ∧ db_inv db' ∧
    cache_blocks db' = cache_blocks db ∧ cache_parents db' = cache_parents db ∧
    cache_siblings db' = cache_siblings db ∧ cache_meta db' = cache_meta db ∧
    (∀ id i, cache_intents db' !! id = Some i → cache_intents db !! id = Some i ∨
       id = intent_id i ∧ ∃ now now' data,
         (now, now', Event (GossipsubMessage TOPIC_INTENTS data)) ∈ turns ∧ de_intent data = Some i ∧
         validate_swap_intent env now (known_chain_ids db) i = Ok ()) ∧
    (∀ now now' data i, de_intent data = Some i →
       validate_swap_intent env now (known_chain_ids db') i = Ok () →
       Z.of_nat (size (filter (live now') (cache_intents db'))) < MAX_ACTIVE_INTENTS →
       ∃ db'', swarm_event env now now' (GossipsubMessage TOPIC_INTENTS data) sw' db' = (Ok sw', db'') ∧
         cache_intents db'' !! intent_id i = Some i).
Proof.
  destruct (run_swarm_loop_run env turns sw db Hinv) as (sw' & db' & Hrun & Hinv' & (c & -> & Hc) & _ & _).
  exists sw', (intents_set c db). split_and!; try done.
  - intros id i Hi. destruct (Hc id i Hi) as [?|(-> & [[now now'] t] & Ht & data & Hd & Hdi & Hv)]; [by left|right].
    split; [done|]. exists now, now', data. cbn in Hd, Hv. by subst t.
  - intros now now' data i Hd Hv Hroom.
    destruct (inbound_intent_run env now now' data _ Hinv') as (o & c' & Hin & _ & _ & Hst).
    destruct (Hst i Hd Hv Hroom) as [-> ->]. eexists. split.
    + cbn [swarm_event]. rewrite bool_decide_true by done. rewrite (bind_step _ _ _ _ _ Hin).
      by destruct sw' as [[] ? ?].
    + cbn. apply lookup_insert_eq.
Qed.

(** ** The theorems at concrete inputs

    A node that knows two chains, and a peer that sends it one valid intent. *)

Definition toy_ecdsa : Secp256k1 := {|
  PublicKey := bytes;
  Signature := bytes;
  PublicKey_from_slice := Ok;
  Signature_from_compact := Ok;
  verify_ecdsa _ sig _ := if bool_decide (sig = replicate 64 x07) then Ok () else Err "incorrect signature"%string
|}.

Definition toy_gossip : GossipCodec.
Proof.
  refine {| json_bytes v := match v with JStr s => String.list_byte_of_string s | _ => [] end;
            intent_value i := JStr (pos_string (encode i));
            de_intent b := decode (string_pos (String.string_of_list_byte b)) |}.
  intros i. rewrite String.string_of_list_byte_of_string, string_pos_string. apply decode_encode.
Defined.

#[local] Existing Instances toy_hash plain_hex toy_codec toy_gossip toy_ecdsa.

Definition sample_offer : SwapIntentMessage :=
  mkIntent "psob-swap" 1 "offer-1" (hex_enc (replicate 33 x02)) 8224 50 10 20 "addr" 1000 2000
    "adaptor-v1" "" "" "" (hex_enc (replicate 64 x07)).
Definition sample_registry : Database :=
  ((_ ← upsert_chain 8224 "junkcoin" "http://a"; upsert_chain 50 "craftcoin" "http://b") fresh_db).2.
Definition sample_swarm_config : P2pConfig := mkP2p 9000 "0.0.0.0" [] true.
Definition sample_turns : list (Z * Z * SwarmInput) :=
  [(1500, 1500, Event (ConnectionEstablished "peer"));
   (1500, 1501, Event (GossipsubMessage TOPIC_INTENTS (json_bytes (intent_value sample_offer))))].

Lemma sample_registry_inv : db_inv sample_registry.
Proof.
  assert (∀ c n u db, db_inv db → db_inv (upsert_chain c n u db).2) as Hup.
  { intros c n u db Hinv. pose proof Hinv as [Hco Hf _ _].
    rewrite (upsert_chain_run c n u db (co_meta _ Hco) Hf). cbn [snd].
    apply meta_set_inv; [apply chain_key_schema|done]. }
  change (db_inv (upsert_chain 50 "craftcoin" "http://b" (upsert_chain 8224 "junkcoin" "http://a" fresh_db).2).2).
  apply Hup, Hup, fresh_inv.
Qed.

Lemma swarm_status_correct_witness :
  ∃ sw', (run_swarm_loop None sample_turns (mkSwarm (mkHandle true [] (initial_status "me")) [] [])
           sample_registry).1 = Ok sw' ∧
    ("peer"%string ∈ connected_peers (ph_status (sw_handle sw')) ↔
     last_conn "peer" (events sample_turns) = Some true).
Proof.
  destruct (swarm_status_correct None "me" (λ _, true) (λ _, true) sample_swarm_config
              (mkSwarm (mkHandle true [] (initial_status "me")) [] []) [] [] sample_turns sample_registry
              sample_registry_inv eq_refl) as (sw' & db' & Hrun & _ & _ & _ & _ & Hp & _).
  exists sw'. split; [exact (f_equal fst Hrun)|exact (Hp "peer"%string)].
Defined.

Lemma swarm_inbound_safe_witness :
  db_inv sample_registry ∧
  ∃ sw' db', run_swarm_loop None sample_turns (mkSwarm (mkHandle true [] (initial_status "me")) [] [])
           sample_registry = (Ok sw', db') ∧
    cache_intents db' !! "offer-1"%string = Some sample_offer ∧ cache_meta db' = cache_meta sample_registry.
Proof.
  split; [exact sample_registry_inv|].
  destruct (swarm_inbound_safe None sample_turns (mkSwarm (mkHandle true [] (initial_status "me")) [] [])
              sample_registry sample_registry_inv) as (sw' & db' & Hrun & _ & _ & _ & _ & Hm & _).
  exists sw', db'. split; [exact Hrun|]. split; [|exact Hm].
  change db' with (Ok (E:=DbError) sw', db').2. rewrite <-Hrun. vm_compute. reflexivity.
Defined.
