(* ===== verification/Server.v ===== *)
(** * The REST API

    [src/server.rs]: the response records and every handler ([Security] has the
    middleware, [Api] the routes, [Metrics] the counting of requests).  A handler is
    a sequence of sections over the store and the gossip handle, the type [H], that
    ends in a value or an [ApiError].
    The configuration is an argument, like the clock, the package version and the
    [PSOB_REQUIRE_SIGNATURES] variable; the rendering of errors is the class
    [ErrorText].  Query and path extraction, JSON rendering of the responses, CORS
    header matching, logging and the OpenAPI document are the frameworks' and are
    left out. *)

From S2P Require Export P2p Split.

#[local] Open Scope Z_scope.

(** ** Errors *)

Inductive ApiError :=
  | BadRequest (m : string)
  | NotFound (m : string)
  | Internal (m : string).

(** The messages of the errors of the other components. *)
Class ErrorText := { db_text : DbError → string; swap_text : SwapError → string }.

Definition api_status (e : ApiError) : Z :=
  match e with BadRequest _ => 400 | NotFound _ => 404 | Internal _ => 500 end.
Definition into_response (e : ApiError) : Z * Json :=
  let '(code, message) := match e with
    | BadRequest m => ("bad_request"%string, m)
    | NotFound m => ("not_found"%string, m)
    | Internal m => ("internal_error"%string, m)
    end in
  (api_status e, JObj [("error", JObj [("code", JStr code); ("message", JStr message)])]%string).

(** ** Responses *)

Record Paged A := mkPaged { pg_total : Z; pg_limit : Z; pg_offset : Z; pg_items : list A }.
Arguments mkPaged {A}.
Arguments pg_total {A}.
Arguments pg_limit {A}.
Arguments pg_offset {A}.
Arguments pg_items {A}.
Definition paged {A} (total : Z) (page : Page) (items : list A) : Paged A :=
  mkPaged total (page_limit page) (page_offset page) items.

Record HealthResponse := mkHealth {
  he_status : string;
  he_service : string;
  he_version : string;
  he_schema_version : Z;
  he_configured_chains : Z;
  he_total_blocks : Z;
  he_p2p_enabled : bool
}.
Record ChainStatus := mkChainStatus {
  ct_chain_id : Z;
  ct_name : string;
  ct_electrs_url : string;
  ct_cursor_height : option Z;
  ct_pow_limit_bits : string;
  ct_blocks : Z;
  ct_min_height : option Z;
  ct_max_height : option Z;
  ct_ingested : bool
}.
Record ChainsResponse := mkChains { cr_count : Z; cr_chains : list ChainStatus }.
Record ChainLeg := mkLeg { cl_chain_id : Z; cl_name : option string; cl_height : Z; cl_block_hash : string }.
Record SiblingSummary := mkSummaryOf {
  ss_parent_hash : string;
  ss_ltc_height : Z;
  ss_legs_count : Z;
  ss_legs : list ChainLeg
}.
Record SiblingBlockItem := mkSiblingItem {
  si_chain_id : Z;
  si_height : Z;
  si_block_hash : string;
  si_auxpow_hex : option string
}.
Record SiblingDetail := mkSiblingDetail {
  sd_parent_hash : string;
  sd_ltc_height : option Z;
  sd_parent_state : Z;
  sd_sibling_count : Z;
  sd_siblings : list SiblingBlockItem
}.
Record BlockResponse := mkBlockResponse {
  br_chain_id : Z;
  br_height : Z;
  br_block_hash : string;
  br_parent_hash : string;
  br_ltc_height : option Z;
  br_parent_state : Z;
  br_has_auxpow : bool;
  br_header_len : Z;
  br_wire_len : Z;
  br_raw_auxpow_hex : option string;
  br_verification : option VerificationReport
}.
Record ProofResponse := mkProofResponse {
  pf_chain_id : Z;
  pf_height : Z;
  pf_block_hash : string;
  pf_parent_hash : string;
  pf_parent_chain_id : option Z;
  pf_parent_merkle_branch : list string;
  pf_parent_index : Z;
  pf_chain_merkle_branch : list string;
  pf_chain_index : Z;
  pf_coinbase_tx : string;
  pf_parent_header : string;
  pf_auxpow_hex : string;
  pf_ltc_height : option Z;
  pf_parent_state : Z;
  pf_coinbase_txid : string
}.
Record BlocksResponse := mkBlocksResponse { bl_chain_id : Z; bl_blocks : list BlockResponse }.
Record CoSettleQuery := mkCoSettleQuery {
  q_a_chain : Z;
  q_a_height : option Z;
  q_b_chain : Z;
  q_b_height : option Z
}.
Record CoSettleLeg := mkCoSettleLeg {
  co_chain_id : Z;
  co_height : Z;
  co_block_hash : string;
  co_parent_hash : string;
  co_ltc_height : option Z;
  co_is_auxpow : bool
}.
Record CoSettleResponse := mkCoSettle {
  cs_co_settled : bool;
  cs_shared_ltc_parent : option string;
  cs_ltc_height : option Z;
  cs_epoch : option string;
  cs_a : CoSettleLeg;
  cs_b : CoSettleLeg
}.
Record EpochBlockItem := mkEpochItem {
  ei_chain_id : Z;
  ei_height : Z;
  ei_ltc_height : Z;
  ei_block_hash : string
}.
Record EpochResponse := mkEpoch {
  ep_ltc_start : Z;
  ep_ltc_end : Z;
  ep_total_blocks : Z;
  ep_limit : Z;
  ep_offset : Z;
  ep_blocks : list EpochBlockItem
}.
Record VerifyRequest := mkVerifyRequest {
  vr_chain_id : Z;
  vr_wire_hex : string;
  vr_pow_limit_bits : option Z
}.
Record VerifyResponse := mkVerifyResponse {
  ve_valid : bool;
  ve_pow_checked : bool;
  ve_chain_id : Z;
  ve_block_hash : string;
  ve_parent_hash : string;
  ve_parent_chain_id : option Z;
  ve_coinbase_root_hex : string;
  ve_n_size : Z;
  ve_nonce : Z;
  ve_chain_branch_depth : Z;
  ve_chain_index : Z;
  ve_verification : VerificationReport
}.
Record StatsChain := mkStatsChain {
  sc_chain_id : Z;
  sc_name : string;
  sc_cursor_height : option Z;
  sc_blocks : Z;
  sc_min_height : option Z;
  sc_max_height : option Z
}.
Record StatsResponse := mkStatsResponse {
  sr_version : string;
  sr_uptime_seconds : Z;
  sr_total_blocks : Z;
  sr_total_parents : Z;
  sr_sibling_groups : Z;
  sr_chains : list StatsChain
}.
Definition MAX_WIRE_HEX_LEN : Z := 1000000.

(** ** The monad of the handlers *)

Record AppState := mkApp { as_db : Database; as_p2p : option P2pHandle }.

(** A handler that has replied, or that runs a section of the shared state and goes
    on with what it returns.  The tasks and the other requests of the process run
    between two sections. *)
Inductive H (A : Type) : Type :=
  | Reply (r : Result ApiError A)
  | Call (B : Type) (f : AppState → B * AppState) (k : B → H A).
Arguments Reply {A} r.
Arguments Call {A B} f k.

(** The handler alone on the state. *)
Fixpoint run {A} (m : H A) (s : AppState) : Result ApiError A * AppState :=
  match m with
  | Reply r => (r, s)
  | Call f k => let '(b, s) := f s in run (k b) s
  end.
Coercion run : H >-> Funclass.

Fixpoint andThen {A B} (k : A → H B) (m : H A) : H B :=
  match m with
  | Reply (Ok a) => k a
  | Reply (Err e) => Reply (Err e)
  | Call f l => Call f (λ b, andThen k (l b))
  end.
#[export] Instance Hd_ret : MRet H := λ A a, Reply (Ok a).
#[export] Instance Hd_bind : MBind H := λ A B k m, andThen k m.
Definition fail_api {A} (e : ApiError) : H A := Reply (Err e).
Definition get_app : H AppState := Call (λ s, (s, s)) (λ s, Reply (Ok s)).

(** The sections of a storage call, one after the other. *)
Fixpoint sections {A} (p : Steps Database A) : H (Result DbError A) :=
  match p with
  | Finished r => mret r
  | Step f k => Call (λ s, let '(b, db) := f (as_db s) in (b, mkApp db (as_p2p s))) (λ b, sections (k b))
  end.
(** A storage call with its [map_err], and with [.ok()]; [reads] for a read
    transaction. *)
Definition on_db {A} (err : DbError → ApiError) (p : Steps Database A) : H A :=
  r ← sections p; match r with Ok a => mret a | Err e => fail_api (err e) end.
Definition try_db {A} (p : Steps Database A) : H (option A) := r ← sections p; mret (result_ok r).
Definition reads {A} (f : Database → A) : H A := Call (λ s, (f (as_db s), s)) (λ a, Reply (Ok a)).
Definition or_fail {A} (o : option A) (e : ApiError) : H A :=
  match o with Some a => mret a | None => fail_api e end.

Lemma run_bind {A B} (m : H A) (k : A → H B) s :
  (m ≫= k) s = match m s with (Ok a, s) => k a s | (Err e, s) => (Err e, s) end.
Proof.
  revert s. unfold mbind, Hd_bind. induction m as [[a|e]|C f l IH]; intros s; cbn; [done..|].
  destruct (f s) as [c s']. apply IH.
Qed.
Lemma sections_run {A} (p : Steps Database A) s :
  sections p s = let '(r, db) := run_steps p (as_db s) in (Ok r, mkApp db (as_p2p s)).
Proof.
  revert s. induction p as [r|B f k IH]; intros s; cbn; [by destruct s|]. destruct (f (as_db s)) as [b db].
  exact (IH b (mkApp db (as_p2p s))).
Qed.
Lemma on_db_run {A} err (p : Steps Database A) (m : M A) `{!is_call p m} s :
  on_db err p s = let '(r, db) := m (as_db s) in (map_err err r, mkApp db (as_p2p s)).
Proof.
  unfold on_db. rewrite run_bind, sections_run, is_call_run. by destruct (m (as_db s)) as [[a|e] db].
Qed.
Lemma try_db_run {A} (p : Steps Database A) (m : M A) `{!is_call p m} s :
  try_db p s = let '(r, db) := m (as_db s) in (Ok (result_ok r), mkApp db (as_p2p s)).
Proof.
  unfold try_db. rewrite run_bind, sections_run, is_call_run. by destruct (m (as_db s)).
Qed.
(** A call that only reads. *)
Lemma on_db_query {A} err (p : Steps Database A) (f : Database → A) `{!is_query p f} s :
  on_db err p s = (Ok (f (as_db s)), s).
Proof. unfold on_db. rewrite run_bind, sections_run, is_query_run. by destruct s. Qed.

Fixpoint mapM_A {A B} (f : A → H B) (l : list A) : H (list B) :=
  match l with
  | [] => mret []
  | x :: l => y ← f x; ys ← mapM_A f l; mret (y :: ys)
  end.

(** ** Helpers *)

Definition chain_config (config : Config) (chain_id : Z) : option AuxChain :=
  List.find (λ c, ac_chain_id c =? chain_id) (cfg_chains config).
Definition chain_name (config : Config) (chain_id : Z) : option string :=
  ac_name <$> chain_config config chain_id.
Definition pow_limit_for (config : Config) (chain_id : Z) : option Z :=
  ac_pow_limit_bits <$> chain_config config chain_id.

Section server.
Context `{Sha256} `{HexCodec} `{Secp256k1} `{Codec} `{GossipCodec} `{ErrorText}.
Context (config : Config).

Definition display_hex (le : bytes) : string := hex_encode (rev le).
Definition le_of_display (hex_str : string) : Result string bytes :=
  v ← map_err (λ e, "invalid hex: " +:+ e) (hex_decode hex_str);
  if negb (len v =? 32) then Err ("expected a 32-byte hash, got " +:+ pretty (len v)) else Ok (rev v).

(** [From<anyhow::Error>]. *)
Definition internal (e : DbError) : ApiError := Internal (db_text e).
Definition block_label (chain_id height : Z) : string :=
  "block " +:+ pretty chain_id +:+ "@" +:+ pretty height.

Definition leg_of (e : Z * Z) : ChainLeg := mkLeg e.1 (chain_name config e.1) e.2 EmptyString.
Definition summary_of_group (g : SharedParent) : SiblingSummary :=
  mkSummaryOf (display_hex (shp_parent_hash_le g)) (shp_ltc_height g) (len (shp_legs g))
    (leg_of <$> shp_legs g).

Definition parent_height (info : option StoredParent) : option Z := p ← info; sp_ltc_height p.
Definition parent_state_of (info : option StoredParent) : Z := from_option sp_parent_state 0 info.

Definition block_from_stored (block : StoredBlock) : H BlockResponse :=
  let parent_bytes := db_parent_hash block in
  info ← match parent_bytes with
         | Some pb => on_db internal (get_parent_steps pb)
         | None => mret None
         end;
  mret (mkBlockResponse (sb_chain_id block) (sb_height block) (display_hex (sb_hash_le block))
          (from_option display_hex EmptyString parent_bytes) (parent_height info) (parent_state_of info)
          (bool_decide (is_Some (aux (sb_header block)))) (len (raw (sb_header block)))
          (Z.of_nat (String.length (sb_wire_hex block)) / 2) (Some (sb_wire_hex block)) None).

Definition proof_from_stored (block : StoredBlock) : H ProofResponse :=
  a ← or_fail (aux (sb_header block))
        (Internal (block_label (sb_chain_id block) (sb_height block) +:+ " has no AuxPoW witness"));
  let parent_bytes := sha256d (parent_header a) in
  info ← on_db internal (get_parent_steps parent_bytes);
  let cb_txid := sha256d (coinbase_tx a) in
  mret (mkProofResponse (sb_chain_id block) (sb_height block) (display_hex (sb_hash_le block))
          (display_hex parent_bytes) (parent_chain_id a) (hex_encode <$> parent_merkle_branch a)
          (parent_index a) (hex_encode <$> chain_merkle_branch a) (chain_index a)
          (hex_encode (coinbase_tx a)) (hex_encode (parent_header a)) (sb_wire_hex block)
          (parent_height info) (parent_state_of info) (display_hex cb_txid)).

(** ** Swap intents *)

(** Using the handle, if there is one. *)
Definition with_p2p {A} (f : P2pHandle → A * P2pHandle) : H (option A) :=
  Call (λ s, match as_p2p s with
             | Some h => let '(a, h) := f h in (Some a, mkApp (as_db s) (Some h))
             | None => (None, s)
             end) (λ r, Reply (Ok r)).

Definition create_swap_intent (env : option string) (now now' : Z) (intent : SwapIntentMessage) : H Json :=
  registry ← on_db internal chain_registry_steps;
  _ ← match validate_swap_intent env now (registry_ids registry) intent with
      | Ok _ => mret ()
      | Err e => fail_api (BadRequest ("invalid swap intent: " +:+ swap_text e))
      end;
  _ ← on_db (λ e, Internal ("could not store intent: " +:+ db_text e)) (insert_intent_steps now' intent);
  _ ← with_p2p (broadcast_intent intent);
  mret (JObj [("status", JStr "accepted"); ("intent_id", JStr (intent_id intent))]%string).

Definition list_swap_intents (now_prune now : Z) (from to : option Z) (proto : option string)
    (limit offset : option Z) : H (Z * list SwapIntentMessage) :=
  let page := Page_new limit offset in
  r ← on_db (λ e, Internal ("could not list intents: " +:+ db_text e))
        (list_intents_steps now_prune now from to proto page);
  mret (r.2, r.1).

(** ** Co-settlement *)

Definition cosettle_leg (chain_id height : Z) (block : StoredBlock) (parent_le : option bytes) :
    H CoSettleLeg :=
  let block_hash := display_hex (sb_hash_le block) in
  match aux (sb_header block), parent_le with
  | Some _, Some p =>
      info ← try_db (get_parent_steps p);
      mret (mkCoSettleLeg chain_id height block_hash (display_hex p) (parent_height (mjoin info)) true)
  | _, _ => mret (mkCoSettleLeg chain_id height block_hash EmptyString None false)
  end.

Definition cosettle_token (q : CoSettleQuery) (a_height b_height : Z) (p : bytes) : bytes :=
  sha256d (as_bytes (pretty (q_a_chain q) +:+ "/" +:+ pretty a_height +:+ "/" +:+ pretty (q_b_chain q)
    +:+ "/" +:+ pretty b_height +:+ "/" +:+ display_hex p +:+ "/" +:+ display_hex p)).

Definition leg_height (chain_id : Z) (height : option Z) : H Z :=
  match height with
  | Some h => mret h
  | None =>
      l ← reads (latest_height chain_id);
      or_fail l (NotFound ("no blocks indexed for chain " +:+ pretty chain_id))
  end.
Definition indexed_block (chain_id height : Z) : H StoredBlock :=
  b ← on_db internal (block_at_steps chain_id height);
  or_fail b (NotFound (block_label chain_id height +:+ " is not indexed")).

Definition cosettle_handler (q : CoSettleQuery) : H CoSettleResponse :=
  a_height ← leg_height (q_a_chain q) (q_a_height q);
  b_height ← leg_height (q_b_chain q) (q_b_height q);
  ba ← indexed_block (q_a_chain q) a_height;
  bb ← indexed_block (q_b_chain q) b_height;
  let pa := db_parent_hash ba in
  let pb := db_parent_hash bb in
  shared ← match pa, pb with
           | Some x, Some y =>
               if bool_decide (x = y) then
                 info ← on_db internal (get_parent_steps x);
                 mret (Some (display_hex x, parent_height info,
                             display_hex (cosettle_token q a_height b_height x)))
               else mret None
           | _, _ => mret None
           end;
  a_leg ← cosettle_leg (q_a_chain q) a_height ba pa;
  b_leg ← cosettle_leg (q_b_chain q) b_height bb pb;
  mret (match shared with
        | Some (p, h, token) => mkCoSettle true (Some p) h (Some token) a_leg b_leg
        | None => mkCoSettle false None None None a_leg b_leg
        end).

(** ** Status and lists *)

Definition health_handler (version : string) : H HealthResponse :=
  s ← get_app;
  mret (mkHealth "ok" "psob-indexer" version SCHEMA_VERSION (len (cfg_chains config))
          (total_blocks (as_db s)) (bool_decide (is_Some (as_p2p s)))).

Definition chain_status (chain_id : Z) (name electrs pow_limit : string) (ingested : bool) : H ChainStatus :=
  cursor ← on_db internal (cursor_height_steps chain_id);
  stats ← on_db internal stats_steps;
  let st := List.find (λ c, cs_chain_id c =? chain_id) (st_chains stats) in
  mret (mkChainStatus chain_id name electrs cursor pow_limit (from_option cs_blocks 0 st)
          (s ← st; cs_min_height s) (s ← st; cs_max_height s) ingested).

Definition chains_handler : H ChainsResponse :=
  configured ← mapM_A (λ c, chain_status (ac_chain_id c) (ac_name c) (ac_electrs c)
                              ("0x" +:+ fmt_08x (ac_pow_limit_bits c)) true) (cfg_chains config);
  known ← mapM_A (λ k, chain_status (kc_chain_id k) (kc_name k) (kc_electrs k) "0x00000000" false)
            (cfg_known_chains config);
  let chains := configured ++ known in
  mret (mkChains (len chains) chains).

Definition siblings_handler (min_legs chain_id limit offset : option Z) : H (Paged SiblingSummary) :=
  let page := Page_new limit offset in
  '(parents, total) ← on_db internal (shared_mainnet_parents_steps (default 2 min_legs) page chain_id);
  mret (paged total page (summary_of_group <$> parents)).

Definition sibling_detail_handler (parent_hash_hex : string) (include_auxpow : option bool) : H SiblingDetail :=
  parent_bytes ← match le_of_display parent_hash_hex with
                 | Ok b => mret b
                 | Err e => fail_api (BadRequest e)
                 end;
  info ← on_db internal (get_parent_steps parent_bytes);
  info ← or_fail info (NotFound ("parent hash " +:+ parent_hash_hex +:+ " is not indexed"));
  '(siblings, total) ← reads (sibling_blocks_range parent_bytes Page_default);
  let include_aux := default false include_auxpow in
  let items := (λ s, mkSiblingItem (sb_chain_id s) (sb_height s) (display_hex (sb_hash_le s))
                       (if include_aux : bool then Some (sb_wire_hex s) else None)) <$> siblings in
  mret (mkSiblingDetail parent_hash_hex (sp_ltc_height info) (sp_parent_state info) total items).

(** The bounds of [blocks_handler]. *)
Definition blocks_bounds (from to : option Z) : Result ApiError (Z * Z) :=
  match from, to with
  | Some f, Some t =>
      if t <? f then Err (BadRequest "from must be <= to")
      else if 10000 <? saturating_sub t f
           then Err (BadRequest "requested block range exceeds maximum of 10000")
           else Ok (f, t)
  | Some f, None => Ok (f, u64_max)
  | None, Some t => Ok (0, t)
  | None, None => Ok (0, u64_max)
  end.

Definition blocks_handler (chain_id from to limit offset : option Z) : H BlocksResponse :=
  chain_id ← or_fail chain_id (BadRequest "chain_id query parameter is required");
  let page := Page_new limit offset in
  '(from, to) ← match blocks_bounds from to with Ok b => mret b | Err e => fail_api e end;
  blocks ← reads (blocks_range chain_id from to page);
  items ← mapM_A block_from_stored blocks;
  mret (mkBlocksResponse chain_id items).

Definition set_verification (r : BlockResponse) (v : option VerificationReport) : BlockResponse :=
  mkBlockResponse (br_chain_id r) (br_height r) (br_block_hash r) (br_parent_hash r) (br_ltc_height r)
    (br_parent_state r) (br_has_auxpow r) (br_header_len r) (br_wire_len r) (br_raw_auxpow_hex r) v.

Definition block_detail_handler (chain_id height : Z) : H BlockResponse :=
  block ← indexed_block chain_id height;
  response ← block_from_stored block;
  mret (match aux (sb_header block), pow_limit_for config chain_id with
        | Some a, Some pl =>
            set_verification response (Some (verify_aux_header (raw (sb_header block)) a chain_id pl))
        | _, _ => response
        end).

Definition proof_handler (chain_id height : Z) : H ProofResponse :=
  block ← indexed_block chain_id height;
  proof_from_stored block.

Definition epoch_handler (ltc_start ltc_end : Z) (chain_id limit offset : option Z) : H EpochResponse :=
  if ltc_end <? ltc_start then fail_api (BadRequest "ltc_start must be <= ltc_end") else
  if 10000 <? saturating_sub ltc_end ltc_start
  then fail_api (BadRequest "requested epoch range exceeds maximum of 10000") else
  let page := Page_new limit offset in
  '(blocks, total) ← on_db internal (epoch_blocks_steps ltc_start ltc_end chain_id page);
  let items := (λ e : Z * Z * Z * bytes, let '(c, h, l, hash_le) := e in
                  mkEpochItem c h l (display_hex hash_le)) <$> blocks in
  mret (mkEpoch ltc_start ltc_end total (page_limit page) (page_offset page) items).

Definition epoch_latest_handler (min_legs : option Z) : H SiblingSummary :=
  g ← on_db internal (latest_sibling_group_steps (default 2 min_legs));
  g ← or_fail g (NotFound "no sibling groups indexed yet");
  mret (summary_of_group g).

(** ** Verification on request *)

Definition verify_handler (req : VerifyRequest) : H VerifyResponse :=
  let n := Z.of_nat (String.length (vr_wire_hex req)) in
  if MAX_WIRE_HEX_LEN <? n
  then fail_api (BadRequest ("wire_hex too large: " +:+ pretty n +:+ " bytes (max "
                             +:+ pretty MAX_WIRE_HEX_LEN +:+ ")")) else
  wire ← match hex_decode (vr_wire_hex req) with
         | Ok w => mret w
         | Err e => fail_api (BadRequest ("wire_hex is not valid hex: " +:+ e))
         end;
  pow_limit ← or_fail (pow_limit_for config (vr_chain_id req))
                (BadRequest "chain not configured on this indexer; cannot vouch for its pow limit");
  '(aux_block, report) ← match verify_wire_block wire (vr_chain_id req) pow_limit with
                         | Ok r => mret r
                         | Err e => fail_api (BadRequest ("cannot parse CAuxPow wire: "
                                                          +:+ display_parse_error e))
                         end;
  mret (mkVerifyResponse (valid report) false (vr_chain_id req) (AuxBlock_block_hash_display aux_block)
          (AuxBlock_parent_hash_display aux_block) (parent_chain_id (ab_aux aux_block))
          (coinbase_root_hex report) (n_size report) (nonce report) (chain_branch_depth report)
          (report_chain_index report) report).

Definition stats_chain (c : ChainStats) : H StatsChain :=
  cursor ← try_db (cursor_height_steps (cs_chain_id c));
  mret (mkStatsChain (cs_chain_id c)
          (default ("chain" +:+ pretty (cs_chain_id c)) (chain_name config (cs_chain_id c)))
          (mjoin cursor) (cs_blocks c) (cs_min_height c) (cs_max_height c)).

Definition stats_handler (version : string) (uptime : Z) : H StatsResponse :=
  st ← on_db internal stats_steps;
  chains ← mapM_A stats_chain (st_chains st);
  mret (mkStatsResponse version uptime (st_total_blocks st) (st_total_parents st) (st_sibling_groups st) chains).

(** ** The mesh *)

Definition p2p_status_handler : H P2pStatus :=
  s ← get_app;
  match as_p2p s with
  | Some h => mret (ph_status h)
  | None => fail_api (Internal "P2P subsystem is not enabled on this node")
  end.

Definition p2p_peers_handler : H (Z * list string) :=
  s ← get_app;
  match as_p2p s with
  | Some h => mret (connected_peers_count (ph_status h), connected_peers (ph_status h))
  | None => fail_api (Internal "P2P subsystem is not enabled")
  end.

Definition p2p_broadcast_handler (intent : SwapIntentMessage) : H Json :=
  sent ← with_p2p (broadcast_intent intent);
  s ← get_app;
  match sent, as_p2p s with
  | Some true, Some h =>
      mret (JObj [("status", JStr "broadcasted"); ("intent_id", JStr (intent_id intent));
                  ("peer_count", json_num (connected_peers_count (ph_status h)))]%string)
  | Some false, _ => fail_api (Internal "gossip channel closed (swarm down)")
  | _, _ => fail_api (Internal "P2P subsystem is not enabled")
  end.
End server.
