(* ===== verification/Security.v ===== *)
(** * The request gate

    The middleware of [src/server.rs] ([security_middleware], [constant_time_eq])
    and the choice of the CORS layer in [create_router], with the theorem on how
    many requests of a client can pass.  Time is a number of nanoseconds; a client
    address is its text, and parsing one from [x-forwarded-for] is an argument; a
    header is [None] when it is absent or not visible ASCII.  The buckets are
    locked while a request is counted, so requests are a sequence. *)

From S2P Require Export Server.

#[local] Open Scope Z_scope.

Record HttpRequest := mkRequest {
  rq_authorization : option string;
  rq_peer : option string;
  rq_forwarded_for : option string
}.

Inductive Verdict := Unauthorized | RateLimited | Pass.
#[export] Instance Verdict_eq_dec : EqDecision Verdict.
Proof. solve_decision. Defined.

Abbreviation Buckets := (gmap string (Z * Z)).
Definition MAX_BUCKETS : Z := 65536.
Definition WINDOW : Z := 60 * 1000000000.

Definition constant_time_eq (a b : bytes) : bool :=
  if negb (len a =? len b) then false
  else foldl (λ diff xy, Z.lor diff (Z.lxor (b2z xy.1) (b2z xy.2))) 0 (zip a b) =? 0.

(** The CORS layer [create_router] picks; [is_header] is [HeaderValue]'s parser. *)
Inductive CorsPolicy := CorsPermissive | CorsNone | CorsOrigins (l : list string).
Definition cors_policy (is_header : string → bool) (config : Config) : CorsPolicy :=
  if existsb (λ o, bool_decide (o = "*"%string)) (cfg_cors_origins config) then CorsPermissive else
  match List.filter is_header (cfg_cors_origins config) with
  | [] => CorsNone
  | origins => CorsOrigins origins
  end.

Section gate.
Context (parse_ip : string → option string) (config : Config).

Definition authorized (req : HttpRequest) : bool :=
  match cfg_auth_token config with
  | Some expected =>
      match rq_authorization req with
      | Some v => constant_time_eq (as_bytes v) (as_bytes ("Bearer " +:+ expected))
      | None => false
      end
  | None => true
  end.

Definition client_ip (req : HttpRequest) : option string :=
  match rq_peer req with
  | Some ip => Some ip
  | None => v ← rq_forwarded_for req; s ← hd_error (split_on ","%char v); parse_ip (trim s)
  end.

(** The counting of one request. *)
Definition rate_check (limit now : Z) (ip : string) (buckets : Buckets) : bool * Buckets :=
  let buckets := if MAX_BUCKETS <? Z.of_nat (size buckets) then ∅ else buckets in
  let '(count, start) := default (0, now) (buckets !! ip) in
  let '(count, start) := if 60 <=? Z.max 0 (now - start) / 1000000000 then (0, now) else (count, start) in
  if limit <=? count then (false, <[ip := (count, start)]> buckets)
  else (true, <[ip := (count + 1, start)]> buckets).

Definition security_middleware (now : Z) (req : HttpRequest) (buckets : Buckets) : Verdict * Buckets :=
  if negb (authorized req) then (Unauthorized, buckets) else
  match cfg_rate_limit_per_min config with
  | Some limit =>
      match client_ip req with
      | Some ip =>
          let '(ok, buckets) := rate_check limit now ip buckets in
          (if ok : bool then Pass else RateLimited, buckets)
      | None => (Pass, buckets)
      end
  | None => (Pass, buckets)
  end.

(** A sequence of requests, each with its time. *)
Fixpoint gate_run (reqs : list (Z * HttpRequest)) (buckets : Buckets) : list Verdict * Buckets :=
  match reqs with
  | [] => ([], buckets)
  | (now, req) :: reqs =>
      let '(v, buckets) := security_middleware now req buckets in
      let '(vs, buckets) := gate_run reqs buckets in
      (v :: vs, buckets)
  end.
End gate.

(** ** The comparison *)

Lemma as_bytes_inj (s t : string) : as_bytes s = as_bytes t → s = t.
Proof.
  revert t. induction s as [|c s IH]; intros [|d t]; cbn; try done. intros [= Hc Ht].
  f_equal; [|by apply IH]. rewrite <-(Ascii.ascii_of_byte_of_ascii c), Hc. apply Ascii.ascii_of_byte_of_ascii.
Qed.

Lemma diff_zero (l : list (byte * byte)) d :
  0 ≤ d → foldl (λ diff xy, Z.lor diff (Z.lxor (b2z xy.1) (b2z xy.2))) d l = 0 ↔ d = 0 ∧ Forall (λ xy, xy.1 = xy.2) l.
Proof.
  revert d. induction l as [|[x y] l IH]; intros d Hd; cbn [foldl fst snd].
  - split; [done|by intros [? _]].
  - pose proof (b2z_range x). pose proof (b2z_range y).
    assert (0 ≤ Z.lxor (b2z x) (b2z y)) by (apply Z.lxor_nonneg; lia).
    rewrite IH by (apply Z.lor_nonneg; lia). rewrite Z.lor_eq_0_iff, Z.lxor_eq_0_iff, Forall_cons. cbn.
    split; [|by intros (-> & -> & ?)]. intros [[-> Hxy] ?]. split_and!; [done| |done].
    by rewrite <-(z2b_b2z x), <-(z2b_b2z y), Hxy.
Qed.

Lemma constant_time_eq_spec a b : constant_time_eq a b = true ↔ a = b.
Proof.
  unfold constant_time_eq, len. destruct (_ =? _) eqn:Hl; cbn [negb]; reflect_bools.
  2: { split; [done|]. by intros ->. }
  rewrite Z.eqb_eq, diff_zero by done. apply Nat2Z.inj in Hl. revert b Hl.
  induction a as [|x a IH]; intros [|y b] Hl; try done. cbn in Hl. injection Hl as Hl.
  cbn [zip zip_with]. rewrite Forall_cons. cbn. destruct (IH b Hl) as [IH1 IH2]. split.
  - intros (_ & -> & Hf). by rewrite IH1.
  - intros [= -> ->]. split_and!; [done|done|by apply IH2].
Qed.

(** ** The rate limit *)

(** The times within a window of one minute from [t]. *)
Definition count_in (t : Z) (l : list Z) : Z :=
  len (List.filter (λ x, (t <=? x) && (x <? t + WINDOW)) l).

Lemma count_in_app t a b : count_in t (a ++ b) = count_in t a + count_in t b.
Proof. unfold count_in, len. rewrite List.filter_app, length_app. lia. Qed.
Lemma count_in_bounds t l : 0 ≤ count_in t l ≤ len l.
Proof. unfold count_in, len. pose proof (List.filter_length_le (λ x, (t <=? x) && (x <? t + WINDOW)) l). lia. Qed.
Lemma count_in_none t l : Forall (λ x, x < t ∨ t + WINDOW ≤ x) l → count_in t l = 0.
Proof.
  intros Hl. unfold count_in. induction Hl as [|x l Hx Hl IH]; [done|]. cbn.
  destruct (t <=? x) eqn:?, (x <? t + WINDOW) eqn:?; cbn; reflect_bools; [lia|done..].
Qed.
Lemma count_in_all t l : Forall (λ x, t ≤ x < t + WINDOW) l → count_in t l = len l.
Proof.
  intros Hl. unfold count_in, len. induction Hl as [|x l Hx Hl IH]; [done|]. cbn.
  destruct (t <=? x) eqn:?, (x <? t + WINDOW) eqn:?; cbn [andb]; reflect_bools; try lia. cbn. lia.
Qed.

(** The passes of one client so far, its bucket, and a time after all of them. *)
Definition bucket_inv (limit : Z) (passes : list Z) (bucket : option (Z * Z)) (now : Z) : Prop :=
  match bucket with
  | None => passes = []
  | Some (count, start) => ∃ old cur, passes = old ++ cur ∧ len cur = count ∧ count ≤ limit ∧ start ≤ now ∧
      Forall (λ t, start ≤ t ≤ now ∧ t < start + WINDOW) cur ∧ Forall (λ t, t < start) old ∧
      ∀ t, count_in t old ≤ 2 * limit ∧ (start < t + WINDOW → count_in t old ≤ limit)
  end.

Lemma bucket_inv_later limit passes bucket now now' :
  bucket_inv limit passes bucket now → now ≤ now' → bucket_inv limit passes bucket now'.
Proof.
  destruct bucket as [[c s]|]; [|done]. cbn. intros (old & cur & ? & ? & ? & ? & Hc & ? & ?) Hle.
  exists old, cur. split_and!; try done; [lia|]. eapply Forall_impl; [exact Hc|]. cbv beta. lia.
Qed.

Lemma bucket_inv_bound limit passes bucket now t :
  0 ≤ limit → bucket_inv limit passes bucket now → count_in t passes ≤ 2 * limit.
Proof.
  intros Hl. destruct bucket as [[c s]|]; cbn [bucket_inv]; [|intros ->; change (0 ≤ 2 * limit); lia].
  intros (old & cur & -> & <- & Hle & _ & Hcur & _ & Hold). rewrite count_in_app.
  destruct (Hold t) as [H2 H1]. pose proof (count_in_bounds t cur). destruct (decide (s < t + WINDOW)).
  - specialize (H1 l). lia.
  - rewrite (count_in_none t cur); [lia|]. eapply Forall_impl; [exact Hcur|]. cbv beta. lia.
Qed.

(** One count of the client [ip]. *)
(** A check that starts a window. *)
Lemma fresh_window limit now' ip (buckets : Buckets) passes ok buckets' :
  0 ≤ limit → (∀ t, count_in t passes ≤ 2 * limit) →
  (if limit <=? 0 then (false, <[ip := (0, now')]> buckets)
   else (true, <[ip := (0 + 1, now')]> buckets)) = (ok, buckets') →
  Forall (λ t, t < now') passes → (∀ t, now' < t + WINDOW → count_in t passes ≤ limit) →
  bucket_inv limit (if ok then passes ++ [now'] else passes) (buckets' !! ip) now' ∧
  (∃ e, buckets' = <[ip := e]> buckets) ∧ (ok = false → limit ≤ count_in (now' - WINDOW + 1) passes).
Proof.
  intros Hl Hall Hrun Hold Hcount. pose proof (count_in_bounds (now' - WINDOW + 1) passes).
  assert (0 < WINDOW) by done.
  destruct (limit <=? 0) eqn:Hz; reflect_bools; injection Hrun as <- <-; rewrite lookup_insert_eq;
    (split; [|split; [by eexists|intros; done || lia]]); cbn [bucket_inv].
  - exists passes, []. rewrite app_nil_r. split_and!; [done|done|lia|lia|constructor|done|].
    intros t. split; [apply Hall|apply Hcount].
  - exists passes, [now']. split_and!; [done|done|lia|lia| |done|].
    + constructor; [lia|constructor].
    + intros t. split; [apply Hall|apply Hcount].
Qed.

Lemma rate_check_step limit now now' ip (buckets : Buckets) passes ok buckets' :
  0 ≤ limit → now ≤ now' → Z.of_nat (size buckets) ≤ MAX_BUCKETS →
  bucket_inv limit passes (buckets !! ip) now →
  rate_check limit now' ip buckets = (ok, buckets') →
  bucket_inv limit (if ok then passes ++ [now'] else passes) (buckets' !! ip) now' ∧
  (∃ e, buckets' = <[ip := e]> buckets) ∧
  (ok = false → limit ≤ count_in (now' - WINDOW + 1) passes).
Proof.
  intros Hl Hle Hsz Hinv Hrun. unfold rate_check in Hrun.
  destruct (MAX_BUCKETS <? _) eqn:Hmax; reflect_bools; [lia|]. clear Hmax.
  assert (∀ t, count_in t passes ≤ 2 * limit) as Hall by (intros t; by eapply bucket_inv_bound).
  apply (bucket_inv_later _ _ _ _ now') in Hinv; [|done].
  pose proof (fresh_window limit now' ip buckets passes ok buckets' Hl Hall) as Hfresh.
  destruct (buckets !! ip) as [[c s]|] eqn:Hb; cbn [default from_option id] in Hrun.
  - destruct Hinv as (old & cur & -> & <- & Hc & Hs & Hcur & Hold & Ho).
    destruct (60 <=? _) eqn:Hw; reflect_bools.
    + assert (s + WINDOW ≤ now') as Hnew.
      { unfold WINDOW. pose proof (Z.mul_div_le (Z.max 0 (now' - s)) 1000000000 ltac:(done)). lia. }
      apply Hfresh; [done|..].
      * apply Forall_app. split; eapply Forall_impl; [exact Hold| |exact Hcur|]; cbv beta; [|lia].
        assert (0 < WINDOW) by done. lia.
      * intros t Ht. rewrite count_in_app, (count_in_none t old).
        -- pose proof (count_in_bounds t cur). lia.
        -- eapply Forall_impl; [exact Hold|]. cbv beta. lia.
    + assert (now' < s + WINDOW) as Hin.
      { unfold WINDOW. pose proof (Z.mul_succ_div_gt (Z.max 0 (now' - s)) 1000000000 ltac:(done)). lia. }
      destruct (limit <=? len cur) eqn:Hz; reflect_bools; injection Hrun as <- <-; rewrite lookup_insert_eq;
        (split; [|split; [by eexists|]]); cbn [bucket_inv].
      * by exists old, cur.
      * intros _. rewrite count_in_app, (count_in_all _ cur).
        -- pose proof (count_in_bounds (now' - WINDOW + 1) old). lia.
        -- eapply Forall_impl; [exact Hcur|]. cbv beta. lia.
      * exists old, (cur ++ [now']). rewrite (assoc_L (++)). split_and!; try done.
        -- unfold len. rewrite length_app. cbn. unfold len. lia.
        -- lia.
        -- apply Forall_app. split; [done|]. constructor; [lia|constructor].
      * done.
  - cbn in Hinv. subst passes. destruct (60 <=? _) eqn:Hw; (apply Hfresh; [done|constructor|]); intros t _; change (0 ≤ limit); lia.
Qed.

Section run.
Context (parse_ip : string → option string) (config : Config).

(** The times at which requests of one client passed. *)
Definition passed (ip : string) (reqs : list (Z * HttpRequest)) (vs : list Verdict) : list Z :=
  omap (λ e : (Z * HttpRequest) * Verdict,
    if decide (client_ip parse_ip e.1.2 = Some ip ∧ e.2 = Pass) then Some e.1.1 else None) (zip reqs vs).

Lemma security_rate now req buckets limit :
  authorized config req = true → cfg_rate_limit_per_min config = Some limit →
  security_middleware parse_ip config now req buckets
  = match client_ip parse_ip req with
    | Some ip => let r := rate_check limit now ip buckets in (if r.1 then Pass else RateLimited, r.2)
    | None => (Pass, buckets)
    end.
Proof.
  intros Ha Hl. unfold security_middleware. rewrite Ha, Hl. cbn [negb].
  destruct (client_ip parse_ip req) as [ip|]; [|done]. by destruct (rate_check limit now ip buckets).
Qed.

Lemma security_unauthorized now req buckets :
  authorized config req = false → security_middleware parse_ip config now req buckets = (Unauthorized, buckets).
Proof. intros Ha. unfold security_middleware. by rewrite Ha. Qed.

(** One request, seen by the client [ip]. *)
Lemma security_step limit (clients : gset string) ip last now req (buckets : Buckets) passes :
  cfg_rate_limit_per_min config = Some limit → 0 ≤ limit → Z.of_nat (size clients) ≤ MAX_BUCKETS →
  (∀ c, client_ip parse_ip req = Some c → c ∈ clients) → dom buckets ⊆ clients → last ≤ now →
  bucket_inv limit passes (buckets !! ip) last →
  let '(v, buckets') := security_middleware parse_ip config now req buckets in
  dom buckets' ⊆ clients ∧
  bucket_inv limit (passes ++ passed ip [(now, req)] [v]) (buckets' !! ip) now ∧
  (v = RateLimited → client_ip parse_ip req = Some ip → limit ≤ count_in (now - WINDOW + 1) passes).
Proof.
  intros Hlim Hl Hsz Hcl Hdom Hle Hinv.
  assert (Z.of_nat (size buckets) ≤ MAX_BUCKETS) as Hb.
  { rewrite <-size_dom. pose proof (subseteq_size (dom buckets) clients Hdom). lia. }
  pose proof (bucket_inv_later _ _ _ _ now Hinv Hle) as Hlater.
  destruct (authorized config req) eqn:Ha.
  2: { rewrite (security_unauthorized _ _ _ Ha). unfold passed. cbn. rewrite decide_False by naive_solver.
       rewrite app_nil_r. done. }
  rewrite (security_rate _ _ _ _ Ha Hlim). unfold passed. cbn.
  destruct (client_ip parse_ip req) as [c|] eqn:Hc.
  2: { rewrite decide_False by naive_solver. by rewrite app_nil_r. }
  destruct (rate_check limit now c buckets) as [ok buckets'] eqn:Hrun. cbn [fst snd].
  destruct (decide (c = ip)) as [->|Hne].
  - destruct (rate_check_step limit last now ip buckets passes ok buckets' Hl Hle Hb Hinv Hrun)
      as (Hinv' & [e ->] & Hrej). split_and!.
    + rewrite dom_insert_L. apply union_subseteq. split; [|done]. apply singleton_subseteq_l. by apply Hcl.
    + destruct ok; [rewrite decide_True by done; done|].
      rewrite decide_False by naive_solver. by rewrite app_nil_r.
    + intros Hv _. apply Hrej. by destruct ok.
  - rewrite decide_False by naive_solver. rewrite app_nil_r.
    assert (∃ e, buckets' = <[c := e]> buckets) as [e ->].
    { unfold rate_check in Hrun. destruct (MAX_BUCKETS <? _) eqn:?; reflect_bools; [lia|].
      destruct (default _ _) as [n s]. destruct (if 60 <=? _ then _ else _) as [n' s'].
      destruct (limit <=? n'); injection Hrun as <- <-; by eexists. }
    split_and!.
    + rewrite dom_insert_L. apply union_subseteq. split; [|done]. apply singleton_subseteq_l. by apply Hcl.
    + by rewrite lookup_insert_ne.
    + intros _ [= ?]. done.
Qed.

Lemma gate_run_spec limit (clients : gset string) ip reqs :
  cfg_rate_limit_per_min config = Some limit → 0 ≤ limit → Z.of_nat (size clients) ≤ MAX_BUCKETS →
  (∀ r c, r ∈ reqs → client_ip parse_ip r.2 = Some c → c ∈ clients) →
  StronglySorted (λ a b : Z * HttpRequest, a.1 ≤ b.1) reqs →
  ∀ last (buckets : Buckets) passes, dom buckets ⊆ clients → Forall (λ r : Z * HttpRequest, last ≤ r.1) reqs →
  bucket_inv limit passes (buckets !! ip) last →
  let vs := (gate_run parse_ip config reqs buckets).1 in
  length vs = length reqs ∧
  (∀ t, count_in t (passes ++ passed ip reqs vs) ≤ 2 * limit) ∧
  (∀ k now req, reqs !! k = Some (now, req) → client_ip parse_ip req = Some ip → vs !! k = Some RateLimited →
     limit ≤ count_in (now - WINDOW + 1) (passes ++ passed ip (take k reqs) (take k vs))).
Proof.
  intros Hlim Hl Hsz. induction reqs as [|[now req] reqs IH]; intros Hcl Hs last buckets passes Hdom Hall Hinv vs.
  - subst vs. cbn [gate_run fst]. split_and!; [done| |done]. intros t.
    change (passed ip [] []) with (@nil Z). rewrite app_nil_r. by eapply bucket_inv_bound.
  - apply StronglySorted_inv in Hs as [Hs Hhd]. apply Forall_cons in Hall as [Hle _]. cbn in Hle.
    pose proof (security_step limit clients ip last now req buckets passes Hlim Hl Hsz
                  ltac:(intros c; apply (Hcl (now, req)); left) Hdom Hle Hinv) as Hstep.
    subst vs. cbn [gate_run]. destruct (security_middleware parse_ip config now req buckets) as [v buckets'].
    destruct Hstep as (Hdom' & Hinv' & Hrej).
    specialize (IH ltac:(intros r c Hr; apply Hcl; by right) Hs now buckets' _ Hdom' Hhd Hinv').
    destruct (gate_run parse_ip config reqs buckets') as [vs buckets'']. cbn [fst] in *.
    destruct IH as (Hlen & Hb & Hr).
    assert (∀ l m, (passes ++ passed ip [(now, req)] [v]) ++ passed ip l m
                   = passes ++ passed ip ((now, req) :: l) (v :: m)) as Heq.
    { intros l m. rewrite <-(assoc_L (++)). unfold passed. f_equal. cbn. by case_decide. }
    split_and!.
    + cbn. by rewrite Hlen.
    + intros t. rewrite <-Heq. apply Hb.
    + intros [|k] now0 req0; cbn [lookup list_lookup take].
      * intros [= <- <-] Hc [= ->]. change (passed ip [] []) with (@nil Z). rewrite app_nil_r. by apply Hrej.
      * intros Hk Hc Hv. rewrite <-Heq. by apply (Hr k now0 req0).
Qed.
End run.

(** ** Properties *)

(** C17: the rate limit.  With a limit of [limit] requests a minute and at most
    65,536 clients, over any requests with a monotone clock: every request gets a
    verdict; in no span of 60 seconds do more than twice the limit pass for one
    client (the windows are fixed, so two of them meet in a span); a client is
    turned away only when its limit of requests passed in the last 60 seconds;
    and an authorized request whose client is unknown always passes.  Beyond
    65,536 clients every count is forgotten: the next client passes, whatever
    its count was. *)
Theorem rate_limit_correct (parse_ip : string → option string) (config : Config) (limit : Z)
    (reqs : list (Z * HttpRequest)) (clients : gset string)
    (Hlim : cfg_rate_limit_per_min config = Some limit) (Hl : 0 ≤ limit)
    (Hsorted : StronglySorted (λ a b, a.1 ≤ b.1) reqs)
    (Hclients : ∀ r ip, r ∈ reqs → client_ip parse_ip r.2 = Some ip → ip ∈ clients)
    (Hfew : Z.of_nat (size clients) ≤ MAX_BUCKETS) :
  let vs := (gate_run parse_ip config reqs ∅).1 in
  length vs = length reqs ∧
  (∀ ip t, count_in t (passed parse_ip ip reqs vs) ≤ 2 * limit) ∧
  (∀ k now req ip, reqs !! k = Some (now, req) → client_ip parse_ip req = Some ip →
     vs !! k = Some RateLimited →
     limit ≤ count_in (now - WINDOW + 1) (passed parse_ip ip (take k reqs) (take k vs))) ∧
  (∀ now req buckets, authorized config req = true → client_ip parse_ip req = None →
     security_middleware parse_ip config now req buckets = (Pass, buckets)) ∧
  (∀ now req ip (buckets : Buckets), authorized config req = true → client_ip parse_ip req = Some ip →
     MAX_BUCKETS < Z.of_nat (size buckets) → 0 < limit →
     security_middleware parse_ip config now req buckets = (Pass, {[ip := (1, now)]})).
Proof.
  assert (∀ ip, let vs := (gate_run parse_ip config reqs ∅).1 in
    length vs = length reqs ∧ (∀ t, count_in t ([] ++ passed parse_ip ip reqs vs) ≤ 2 * limit) ∧
    (∀ k now req, reqs !! k = Some (now, req) → client_ip parse_ip req = Some ip → vs !! k = Some RateLimited →
       limit ≤ count_in (now - WINDOW + 1) ([] ++ passed parse_ip ip (take k reqs) (take k vs)))) as Hrun.
  { intros ip. destruct reqs as [|[t0 r0] reqs]; [split_and!; [done|intros t; change (0 ≤ 2 * limit); lia|done]|].
    apply (gate_run_spec parse_ip config limit clients ip _ Hlim Hl Hfew Hclients Hsorted t0); [done| |done].
    apply StronglySorted_inv in Hsorted as [_ Hall]. constructor; [done|exact Hall]. }
  intros vs. split_and!.
  - by destruct (Hrun EmptyString).
  - intros ip. by destruct (Hrun ip) as (_ & ? & _).
  - intros k now req ip. destruct (Hrun ip) as (_ & _ & Hr). apply Hr.
  - intros now req buckets Ha Hc. by rewrite (security_rate _ _ _ _ _ _ Ha Hlim), Hc.
  - intros now req ip buckets Ha Hc Hmany Hpos. rewrite (security_rate _ _ _ _ _ _ Ha Hlim), Hc. cbv zeta.
    unfold rate_check. destruct (MAX_BUCKETS <? _) eqn:?; reflect_bools; [|lia]. rewrite lookup_empty.
    cbn [default from_option id]. rewrite Z.sub_diag. change (60 <=? _) with false. cbn iota beta.
    destruct (limit <=? 0) eqn:?; reflect_bools; [lia|done].
Qed.

(** ** The theorem at a concrete input

    Two requests a minute; the third of one client is turned away. *)

Definition sample_limited : Config :=
  mkConfig [] [] "db" (mkResolver "" "" "" None) 1 None 0 None (mkRetry 0 0 0 0) (mkHttp 0 0) [] ""
    (mkP2p 0 "" [] true) None (Some 2).
Definition sample_requests : list (Z * HttpRequest) :=
  (λ t, (t, mkRequest None (Some "10.0.0.1"%string) None)) <$> [1; 2; 3].

Lemma rate_limit_correct_witness :
  (gate_run (λ _, None) sample_limited sample_requests ∅).1 = [Pass; Pass; RateLimited] ∧
  ∀ t, count_in t (passed (λ _, None) "10.0.0.1" sample_requests [Pass; Pass; RateLimited]) ≤ 2 * 2.
Proof.
  assert ((gate_run (λ _, None) sample_limited sample_requests ∅).1 = [Pass; Pass; RateLimited]) as Hv
    by (vm_compute; reflexivity).
  split; [exact Hv|].
  assert (∀ r ip, r ∈ sample_requests → client_ip (λ _, None) r.2 = Some ip →
            ip ∈ ({["10.0.0.1"%string]} : gset string)) as Hc.
  { intros r ip (t & -> & _)%list_elem_of_fmap Hip. apply (f_equal (default EmptyString)) in Hip. cbn in Hip.
    rewrite <-Hip. apply elem_of_singleton. reflexivity. }
  destruct (rate_limit_correct (λ _, None) sample_limited 2 sample_requests {["10.0.0.1"%string]} eq_refl
              ltac:(lia) ltac:(repeat constructor; cbn; lia) Hc ltac:(rewrite size_singleton; done))
    as (_ & Hb & _).
  rewrite Hv in Hb. exact (Hb "10.0.0.1"%string).
Defined.
