(* ===== verification/Api.v ===== *)
(** * Serving a request

    The routes of [create_router] in [src/server.rs] and the whole path of a
    request: the gate, then the handler of its route.  A request is typed: the
    extraction of its parameters is axum's. *)

From S2P Require Export Security P2pThm.

#[local] Open Scope Z_scope.

Inductive ApiRequest :=
  | GetHealth
  | GetChains
  | GetSiblings (min_legs chain_id limit offset : option Z)
  | GetSibling (parent_hash_hex : string) (include_auxpow : option bool)
  | GetBlocks (chain_id from to limit offset : option Z)
  | GetBlock (chain_id height : Z)
  | GetProof (chain_id height : Z)
  | GetEpoch (ltc_start ltc_end : Z) (chain_id limit offset : option Z)
  | GetEpochLatest (min_legs : option Z)
  | PostVerify (req : VerifyRequest)
  | GetStats
  | GetP2pStatus
  | GetP2pPeers
  | PostP2pBroadcast (intent : SwapIntentMessage)
  | GetIntents (from to : option Z) (protocol : option string) (limit offset : option Z)
  | PostIntent (intent : SwapIntentMessage)
  | GetCoSettle (q : CoSettleQuery).

Inductive ApiBody :=
  | BHealth (r : HealthResponse)
  | BChains (r : ChainsResponse)
  | BSiblings (r : Paged SiblingSummary)
  | BSibling (r : SiblingDetail)
  | BBlocks (r : BlocksResponse)
  | BBlock (r : BlockResponse)
  | BProof (r : ProofResponse)
  | BEpoch (r : EpochResponse)
  | BSummary (r : SiblingSummary)
  | BVerify (r : VerifyResponse)
  | BStats (r : StatsResponse)
  | BP2pStatus (r : P2pStatus)
  | BP2pPeers (count : Z) (peers : list string)
  | BIntents (total : Z) (intents : list SwapIntentMessage)
  | BCoSettle (r : CoSettleResponse)
  | BJson (v : Json).

(** The clock of a request (twice, for the calls that read it twice), the uptime
    and the constants of the process. *)
Record RequestEnv := mkEnv {
  env_signatures : option string;
  env_now : Z;
  env_now' : Z;
  env_uptime : Z;
  env_version : string
}.

Section api.
Context `{Sha256} `{HexCodec} `{Secp256k1} `{Codec} `{GossipCodec} `{ErrorText}.
Context (parse_ip : string → option string) (config : Config).

Definition as_body {A} (f : A → ApiBody) (m : H A) : H ApiBody := a ← m; mret (f a).

Definition dispatch (e : RequestEnv) (req : ApiRequest) : H ApiBody :=
  match req with
  | GetHealth => as_body BHealth (health_handler config (env_version e))
  | GetChains => as_body BChains (chains_handler config)
  | GetSiblings m c l o => as_body BSiblings (siblings_handler config m c l o)
  | GetSibling p i => as_body BSibling (sibling_detail_handler p i)
  | GetBlocks c f t l o => as_body BBlocks (blocks_handler c f t l o)
  | GetBlock c h => as_body BBlock (block_detail_handler config c h)
  | GetProof c h => as_body BProof (proof_handler c h)
  | GetEpoch a b c l o => as_body BEpoch (epoch_handler a b c l o)
  | GetEpochLatest m => as_body BSummary (epoch_latest_handler config m)
  | PostVerify r => as_body BVerify (verify_handler config r)
  | GetStats => as_body BStats (stats_handler config (env_version e) (env_uptime e))
  | GetP2pStatus => as_body BP2pStatus p2p_status_handler
  | GetP2pPeers => as_body (λ r : Z * list string, BP2pPeers r.1 r.2) p2p_peers_handler
  | PostP2pBroadcast i => as_body BJson (p2p_broadcast_handler i)
  | GetIntents f t p l o =>
      as_body (λ r : Z * list SwapIntentMessage, BIntents r.1 r.2)
        (list_swap_intents (env_now e) (env_now' e) f t p l o)
  | PostIntent i => as_body BJson (create_swap_intent (env_signatures e) (env_now e) (env_now' e) i)
  | GetCoSettle q => as_body BCoSettle (cosettle_handler q)
  end.

(** The status of the reply, its body when the handler succeeded, and the new
    state.  [time] is the clock of the middleware. *)
Record ServerState := mkServer { sv_app : AppState; sv_buckets : Buckets }.
Definition serve (e : RequestEnv) (time : Z) (http : HttpRequest) (req : ApiRequest) (s : ServerState) :
    (Z * option ApiBody) * ServerState :=
  let '(v, buckets) := security_middleware parse_ip config time http (sv_buckets s) in
  match v with
  | Unauthorized => ((401, None), mkServer (sv_app s) buckets)
  | RateLimited => ((429, None), mkServer (sv_app s) buckets)
  | Pass =>
      let '(r, app) := dispatch e req (sv_app s) in
      (match r with Ok b => (200, Some b) | Err err => (api_status err, None) end, mkServer app buckets)
  end.
End api.
