(* ===== verification/ApiThm.v ===== *)
(** * The API: what a request can do

    No request changes anything of the store but the order book: what each
    handler and each step of it keeps, through the hint database [keeps]. *)

From S2P Require Export Api IngestThm.

#[local] Open Scope Z_scope.

Section keeps.
Context `{Sha256} `{HexCodec} `{Secp256k1} `{Codec} `{GossipCodec} `{ErrorText}.
Context (config : Config).

(** The handler keeps the invariant of the store and leaves all of it but the
    order book. *)
Definition keeps {A} (m : H A) : Prop := ∀ s, db_inv (as_db s) →
  db_inv (as_db (m s).2) ∧ ∃ c, as_db (m s).2 = intents_set c (as_db s).

Lemma keeps_same {A} (m : H A) :
  (∀ s, db_inv (as_db s) → as_db (m s).2 = as_db s) → keeps m.
Proof.
  intros Hm s Hinv. rewrite Hm by done. split; [done|]. exists (cache_intents (as_db s)).
  rewrite intents_set_same; [done|by apply inv_coherent].
Qed.

Lemma keeps_bind {A B} (m : H A) (k : A → H B) : keeps m → (∀ a, keeps (k a)) → keeps (m ≫= k).
Proof.
  intros Hm Hk s Hinv. destruct (Hm s Hinv) as [Hinv1 [c1 Hc1]]. rewrite run_bind.
  destruct (m s) as [[a|e] s1]; cbn [snd] in *; [|by eauto].
  destruct (Hk a s1 Hinv1) as [Hinv2 [c2 Hc2]]. split; [done|]. exists c2. rewrite Hc2, Hc1. by destruct (as_db s).
Qed.

Lemma keeps_ret {A} (a : A) : keeps (mret a).
Proof. by apply keeps_same. Qed.
Lemma keeps_fail {A} e : keeps (fail_api (A:=A) e).
Proof. by apply keeps_same. Qed.
Lemma keeps_get_app : keeps get_app.
Proof. by apply keeps_same. Qed.
Lemma keeps_reads {A} (f : Database → A) : keeps (reads f).
Proof. by apply keeps_same. Qed.
Lemma keeps_or_fail {A} (o : option A) e : keeps (or_fail o e).
Proof. by destruct o; apply keeps_same. Qed.
Lemma keeps_with_p2p {A} (f : P2pHandle → A * P2pHandle) : keeps (with_p2p f).
Proof.
  apply keeps_same. intros s _. cbn. destruct (as_p2p s) as [h|]; [|done]. by destruct (f h).
Qed.
Lemma keeps_mapM {A B} (f : A → H B) l : (∀ a, keeps (f a)) → keeps (mapM_A f l).
Proof.
  intros Hf. induction l as [|x l IH]; [apply keeps_ret|]. cbn [mapM_A].
  apply keeps_bind; [done|]. intros y. apply keeps_bind; [done|]. intros ys. apply keeps_ret.
Qed.

(** The storage calls of the handlers. *)
Lemma keeps_query {A} err (p : Steps Database A) (f : Database → A) `{!is_query p f} : keeps (on_db err p).
Proof. apply keeps_same. intros s _. by erewrite on_db_query by apply _. Qed.
Lemma keeps_get_parent err p : keeps (on_db err (get_parent_steps p)).
Proof. apply keeps_same. intros s Hinv. erewrite on_db_run by apply _. by rewrite get_parent_run by (by apply inv_coherent). Qed.
Lemma keeps_try_parent p : keeps (try_db (get_parent_steps p)).
Proof. apply keeps_same. intros s Hinv. erewrite try_db_run by apply _. by rewrite get_parent_run by (by apply inv_coherent). Qed.
Lemma keeps_block_at err c h : keeps (on_db err (block_at_steps c h)).
Proof. apply keeps_same. intros s Hinv. erewrite on_db_run by apply _. by rewrite block_at_run by (by apply inv_coherent). Qed.
Lemma keeps_cursor err c : keeps (on_db err (cursor_height_steps c)).
Proof.
  apply keeps_same. intros s Hinv. erewrite on_db_run by apply _. by rewrite cursor_height_run by (by apply co_meta, inv_coherent).
Qed.
Lemma keeps_try_cursor c : keeps (try_db (cursor_height_steps c)).
Proof.
  apply keeps_same. intros s Hinv. erewrite try_db_run by apply _. by rewrite cursor_height_run by (by apply co_meta, inv_coherent).
Qed.
Lemma keeps_insert_intent err now i : keeps (on_db err (insert_intent_steps now i)).
Proof.
  intros s Hinv. pose proof (insert_intent_run now i _ (inv_coherent _ Hinv) (inv_faults _ Hinv)) as Hrun.
  cbv zeta in Hrun. erewrite on_db_run by apply _. destruct (insert_intent now i (as_db s)) as [r db'] eqn:E. cbn. split.
  - eapply step_inv; [done|]. by eapply step_insert_intent.
  - destruct (_ <=? _); injection Hrun as _ ->; by eexists.
Qed.
Lemma keeps_list_intents err now now' f t p page : keeps (on_db err (list_intents_steps now now' f t p page)).
Proof.
  intros s Hinv. pose proof (prune_expired_run now _ (inv_coherent _ Hinv) (inv_faults _ Hinv)) as Hrun.
  assert (as_db (on_db err (list_intents_steps now now' f t p page) s).2
          = intents_set (filter (live now) (cache_intents (as_db s))) (as_db s)) as Heq.
  { erewrite on_db_run by apply _. unfold list_intents. by rewrite (bind_step _ _ _ _ _ Hrun). }
  rewrite Heq. split; [|by eexists]. eapply step_inv; [done|]. by eapply step_prune_expired_intents.
Qed.
End keeps.

Create HintDb keeps.
#[export] Hint Extern 2 (keeps (on_db _ _)) => (eapply keeps_query; apply _) : keeps.
#[export] Hint Resolve keeps_ret keeps_fail keeps_get_app keeps_reads keeps_or_fail keeps_with_p2p
  keeps_get_parent keeps_try_parent keeps_block_at keeps_cursor keeps_try_cursor keeps_insert_intent
  keeps_list_intents : keeps.

(** [keeps_steps] walks through the statements of a handler. *)
Ltac keeps_steps :=
  repeat first
    [ solve [eauto with keeps]
    | apply keeps_bind; [|intros ?]
    | apply keeps_mapM; intros ?
    | case_match ].

Section dispatch.
Context `{Sha256} `{HexCodec} `{Secp256k1} `{Codec} `{GossipCodec} `{ErrorText}.
Context (config : Config).

Lemma keeps_block_from_stored b : keeps (block_from_stored b).
Proof. unfold block_from_stored. keeps_steps. Qed.
#[local] Hint Resolve keeps_block_from_stored : keeps.
Lemma keeps_indexed_block c h : keeps (indexed_block c h).
Proof. unfold indexed_block. keeps_steps. Qed.
#[local] Hint Resolve keeps_indexed_block : keeps.
Lemma keeps_leg_height c o : keeps (leg_height c o).
Proof. unfold leg_height. keeps_steps. Qed.
#[local] Hint Resolve keeps_leg_height : keeps.
Lemma keeps_cosettle_leg c h b p : keeps (cosettle_leg c h b p).
Proof. unfold cosettle_leg. keeps_steps. Qed.
#[local] Hint Resolve keeps_cosettle_leg : keeps.
Lemma keeps_chain_status c n u p i : keeps (chain_status c n u p i).
Proof. unfold chain_status. keeps_steps. Qed.
#[local] Hint Resolve keeps_chain_status : keeps.
Lemma keeps_stats_chain c : keeps (stats_chain config c).
Proof. unfold stats_chain. keeps_steps. Qed.
#[local] Hint Resolve keeps_stats_chain : keeps.
Lemma keeps_cosettle q : keeps (cosettle_handler q).
Proof. unfold cosettle_handler. keeps_steps. Qed.
Lemma keeps_verify r : keeps (verify_handler config r).
Proof. unfold verify_handler. keeps_steps. Qed.
Lemma keeps_proof c h : keeps (proof_handler c h).
Proof. unfold proof_handler, proof_from_stored. keeps_steps. Qed.
#[local] Hint Resolve keeps_cosettle keeps_verify keeps_proof : keeps.

Lemma dispatch_keeps e req : keeps (dispatch config e req).
Proof.
  destruct req; cbn [dispatch]; unfold as_body, health_handler, chains_handler, siblings_handler,
    sibling_detail_handler, blocks_handler, block_detail_handler, epoch_handler, epoch_latest_handler,
    stats_handler, p2p_status_handler, p2p_peers_handler, p2p_broadcast_handler, list_swap_intents,
    create_swap_intent; keeps_steps.
Qed.
End dispatch.
