(* ===== verification/ServerThm.v ===== *)
(** * The handlers: theorems

    What the handlers answer over a coherent store: the read handlers leave the
    state as it is, a block is shown with the report of its re-verification, a
    proof carries the whole witness, a verification request agrees with the
    guest, two legs are co-settled exactly when they share a parent, and an
    accepted intent reaches the order books of the peers. *)

From S2P Require Export ApiThm.

#[local] Open Scope Z_scope.

(** ** Runs of the handlers *)

Lemma hbind_step {A B} (m : H A) (k : A → H B) s a s' : m s = (Ok a, s') → (m ≫= k) s = k a s'.
Proof. intros Hm. by rewrite run_bind, Hm. Qed.
Lemma hbind_fail {A B} (m : H A) (k : A → H B) s e s' : m s = (Err e, s') → (m ≫= k) s = (Err e, s').
Proof. intros Hm. by rewrite run_bind, Hm. Qed.

Lemma app_eta (s : AppState) : mkApp (as_db s) (as_p2p s) = s.
Proof. by destruct s. Qed.

Section runs.
Context `{Sha256} `{HexCodec} `{Secp256k1} `{Codec} `{GossipCodec} `{ErrorText}.
Context (config : Config).
Implicit Types (s : AppState) (b : StoredBlock).

Lemma parent_run err p s :
  coherent (as_db s) → on_db err (get_parent_steps p) s = (Ok (cache_parents (as_db s) !! p), s).
Proof. intros Hco. erewrite on_db_run by apply _. rewrite get_parent_run by done. cbn. by rewrite app_eta. Qed.

Lemma try_parent_run p s :
  coherent (as_db s) → try_db (get_parent_steps p) s = (Ok (Some (cache_parents (as_db s) !! p)), s).
Proof. intros Hco. erewrite try_db_run by apply _. rewrite get_parent_run by done. cbn. by rewrite app_eta. Qed.

Lemma indexed_block_run c h s :
  coherent (as_db s) →
  indexed_block c h s = (match cache_blocks (as_db s) !! (c, h) with
                         | Some b => Ok b
                         | None => Err (NotFound (block_label c h +:+ " is not indexed"))
                         end, s).
Proof.
  intros Hco. unfold indexed_block. rewrite (hbind_step _ _ s (cache_blocks (as_db s) !! (c, h)) s).
  - by destruct (_ !! _).
  - erewrite on_db_run by apply _. rewrite block_at_run by done. cbn. by rewrite app_eta.
Qed.

(** The parent's record, and the response built for a stored block. *)
Definition parent_info (db : Database) (b : StoredBlock) : option StoredParent :=
  p ← db_parent_hash b; cache_parents db !! p.
Definition block_response (db : Database) (b : StoredBlock) : BlockResponse :=
  mkBlockResponse (sb_chain_id b) (sb_height b) (display_hex (sb_hash_le b))
    (from_option display_hex EmptyString (db_parent_hash b)) (parent_height (parent_info db b))
    (parent_state_of (parent_info db b)) (bool_decide (is_Some (aux (sb_header b))))
    (len (raw (sb_header b))) (Z.of_nat (String.length (sb_wire_hex b)) / 2) (Some (sb_wire_hex b)) None.

Lemma block_from_stored_run b s :
  coherent (as_db s) → block_from_stored b s = (Ok (block_response (as_db s) b), s).
Proof.
  intros Hco. unfold block_from_stored, block_response, parent_info.
  destruct (db_parent_hash b) as [p|]; [|done]. by rewrite (hbind_step _ _ _ _ _ (parent_run _ p s Hco)).
Qed.

Lemma block_detail_run c h s :
  coherent (as_db s) →
  block_detail_handler config c h s
  = (match cache_blocks (as_db s) !! (c, h) with
     | Some b => Ok (set_verification (block_response (as_db s) b)
         (a ← aux (sb_header b); pl ← pow_limit_for config c;
          Some (verify_aux_header (raw (sb_header b)) a c pl)))
     | None => Err (NotFound (block_label c h +:+ " is not indexed"))
     end, s).
Proof.
  intros Hco. unfold block_detail_handler. pose proof (indexed_block_run c h s Hco) as Hrun.
  destruct (cache_blocks (as_db s) !! (c, h)) as [b|]; [|by rewrite (hbind_fail _ _ _ _ _ Hrun)].
  rewrite (hbind_step _ _ _ _ _ Hrun), (hbind_step _ _ _ _ _ (block_from_stored_run b s Hco)).
  destruct (aux (sb_header b)) as [a|]; [|done]. cbn. by destruct (pow_limit_for config c).
Qed.

Lemma proof_run c h s b a :
  coherent (as_db s) → cache_blocks (as_db s) !! (c, h) = Some b → aux (sb_header b) = Some a →
  ∃ r, proof_handler c h s = (Ok r, s) ∧
    pf_chain_id r = sb_chain_id b ∧ pf_height r = sb_height b ∧
    pf_block_hash r = display_hex (sb_hash_le b) ∧ pf_parent_hash r = display_hex (sha256d (parent_header a)) ∧
    pf_parent_merkle_branch r = hex_encode <$> parent_merkle_branch a ∧ pf_parent_index r = parent_index a ∧
    pf_chain_merkle_branch r = hex_encode <$> chain_merkle_branch a ∧ pf_chain_index r = chain_index a ∧
    pf_coinbase_tx r = hex_encode (coinbase_tx a) ∧ pf_parent_header r = hex_encode (parent_header a) ∧
    pf_auxpow_hex r = sb_wire_hex b.
Proof.
  intros Hco Hb Ha. unfold proof_handler. pose proof (indexed_block_run c h s Hco) as Hrun. rewrite Hb in Hrun.
  rewrite (hbind_step _ _ _ _ _ Hrun). unfold proof_from_stored. rewrite Ha.
  rewrite (hbind_step (or_fail (Some a) _) _ s a s) by done.
  rewrite (hbind_step _ _ _ _ _ (parent_run _ _ s Hco)). eexists. split; [reflexivity|]. by split_and!.
Qed.

Lemma leg_height_run c o s :
  leg_height c o s
  = (match o with
     | Some h => Ok h
     | None => match latest_height c (as_db s) with
               | Some h => Ok h
               | None => Err (NotFound ("no blocks indexed for chain " +:+ pretty c))
               end
     end, s).
Proof.
  unfold leg_height. destruct o as [h|]; [done|].
  rewrite (hbind_step _ _ s (latest_height c (as_db s)) s) by done. by destruct (latest_height _ _).
Qed.

Lemma cosettle_leg_run c h b s :
  coherent (as_db s) →
  cosettle_leg c h b (db_parent_hash b) s
  = (Ok (mkCoSettleLeg c h (display_hex (sb_hash_le b)) (from_option display_hex EmptyString (db_parent_hash b))
           (parent_height (parent_info (as_db s) b)) (bool_decide (is_Some (aux (sb_header b))))), s).
Proof.
  intros Hco. unfold cosettle_leg, parent_info, db_parent_hash. destruct (aux (sb_header b)) as [a|]; [|done].
  cbn [fmap option_fmap option_map from_option mbind option_bind].
  by rewrite (hbind_step _ _ _ _ _ (try_parent_run _ s Hco)).
Qed.
End runs.

(** ** The co-settlement token *)

Lemma display_hex_inj `{HexCodec} p q : display_hex p = display_hex q → p = q.
Proof.
  unfold display_hex. intros Heq%(f_equal hex_decode). rewrite !hex_decode_encode in Heq.
  injection Heq as Heq. by rewrite <-(rev_involutive p), Heq, rev_involutive.
Qed.

Lemma le_of_display_hex `{HexCodec} p : length p = 32%nat → le_of_display (display_hex p) = Ok p.
Proof.
  intros Hp. unfold le_of_display, display_hex. rewrite hex_decode_encode. cbn. unfold len.
  rewrite length_rev, Hp. cbn. by rewrite rev_involutive.
Qed.

Lemma string_app_length_inj (a b c d : string) :
  String.length a = String.length b → a +:+ c = b +:+ d → a = b ∧ c = d.
Proof.
  revert b. induction a as [|x a IH]; intros [|y b]; cbn; try done. intros [= Hl] [= -> Heq].
  by destruct (IH b Hl Heq) as [-> ->].
Qed.

Lemma twice_inj (s t : string) : s +:+ "/" +:+ s = t +:+ "/" +:+ t → s = t.
Proof.
  intros Heq. pose proof (f_equal String.length Heq) as Hl. rewrite !string_length_app in Hl. cbn in Hl.
  apply string_app_length_inj in Heq as [-> _]; [done|lia].
Qed.

(** The query and the heights a token is made from. *)
Definition token_text `{HexCodec} (q : CoSettleQuery) (ha hb : Z) (p : bytes) : string :=
  pretty (q_a_chain q) +:+ "/" +:+ pretty ha +:+ "/" +:+ pretty (q_b_chain q)
    +:+ "/" +:+ pretty hb +:+ "/" +:+ display_hex p +:+ "/" +:+ display_hex p.

Lemma token_text_inj `{HexCodec} q q' ha hb ha' hb' p p' :
  0 ≤ q_a_chain q → 0 ≤ q_b_chain q → 0 ≤ ha → 0 ≤ hb →
  0 ≤ q_a_chain q' → 0 ≤ q_b_chain q' → 0 ≤ ha' → 0 ≤ hb' →
  token_text q ha hb p = token_text q' ha' hb' p' →
  q_a_chain q = q_a_chain q' ∧ ha = ha' ∧ q_b_chain q = q_b_chain q' ∧ hb = hb' ∧ p = p'.
Proof.
  intros ? ? ? ? ? ? ? ? Heq. unfold token_text in Heq.
  assert (¬ is_digit "/"%char) as Hs by (intros [x Hx]; vm_compute in Hx; discriminate).
  do 4 (change ("/" +:+ ?r) with (String "/"%char r) in Heq;
        apply (number_unique "/"%char) in Heq as [? Heq]; [|done..]).
  apply twice_inj in Heq. by apply display_hex_inj in Heq.
Qed.

(** ** The block of a leg *)

Definition leg_block `{Sha256} `{HexCodec} `{Codec} (db : Database) (c : Z) (o : option Z) : option (Z * StoredBlock) :=
  h ← match o with Some h => Some h | None => latest_height c db end;
  b ← cache_blocks db !! (c, h); Some (h, b).

Lemma leg_block_run `{Sha256} `{HexCodec} `{Secp256k1} `{Codec} `{GossipCodec} `{ErrorText} c o s :
  coherent (as_db s) →
  match leg_block (as_db s) c o with
  | Some (h, b) => leg_height c o s = (Ok h, s) ∧ indexed_block c h s = (Ok b, s)
  | None => ∃ m, (leg_height c o s = (Err (NotFound m), s)) ∨
              ∃ h, leg_height c o s = (Ok h, s) ∧ indexed_block c h s = (Err (NotFound m), s)
  end.
Proof.
  intros Hco. unfold leg_block. rewrite leg_height_run.
  destruct o as [h|]; [|destruct (latest_height c (as_db s)) as [h|]]; cbn.
  3: { eexists. by left. }
  all: pose proof (indexed_block_run c h s Hco) as Hrun; destruct (_ !! _) as [b|]; cbn; [done|eexists; right; eauto].
Qed.

(** What is shown for the height of a parent is what its row has. *)
Definition classified_at (db : Database) (p : bytes) (shown : option Z) : Prop :=
  ∀ h, shown = Some h ↔ ∃ sp, cache_parents db !! p = Some sp ∧ sp_ltc_height sp = Some h.
Lemma classified_at_parent db p : classified_at db p (parent_height (cache_parents db !! p)).
Proof.
  intros h. destruct (cache_parents db !! p) as [sp|]; cbn; [|split; [done|by intros (? & ? & _)]].
  split; [by exists sp|by intros (? & [= <-] & ?)].
Qed.

(** A leg shows that block, its parent and the height the parent was classified at. *)
Definition shows_leg `{Sha256} `{HexCodec} (db : Database) (c h : Z) (b : StoredBlock) (l : CoSettleLeg) : Prop :=
  co_chain_id l = c ∧ co_height l = h ∧ co_block_hash l = display_hex (sb_hash_le b) ∧
  match db_parent_hash b with
  | Some p => co_is_auxpow l = true ∧ co_parent_hash l = display_hex p ∧ classified_at db p (co_ltc_height l)
  | None => co_is_auxpow l = false ∧ co_parent_hash l = EmptyString ∧ co_ltc_height l = None
  end.
Lemma shows_leg_run `{Sha256} `{HexCodec} db c h b :
  shows_leg db c h b (mkCoSettleLeg c h (display_hex (sb_hash_le b)) (from_option display_hex EmptyString (db_parent_hash b))
    (parent_height (parent_info db b)) (bool_decide (is_Some (aux (sb_header b))))).
Proof.
  do 3 (split; [done|]). unfold parent_info, db_parent_hash. cbn. destruct (aux (sb_header b)) as [a|]; [|done].
  split; [done|]. split; [done|]. apply classified_at_parent.
Qed.

(** ** Properties *)

(** C12: co-settlement.  The answer is a 404 exactly when a leg has no block at its
    height (the chain's latest when none is given); otherwise it shows both
    blocks, each with the hash of its own parent and the height, if any, in that
    parent's stored row, says co-settled exactly when both embed the same parent, and
    then shows that parent, the height in its stored row, and a token: the double
    SHA-256 of a text that determines both chains, both heights and the parent.
    Nothing changes in the store. *)
Theorem cosettle_correct `{Sha256} `{HexCodec} `{Secp256k1} `{Codec} `{GossipCodec} `{ErrorText}
    (q : CoSettleQuery) (s : AppState) (Hco : coherent (as_db s)) :
  let db := as_db s in
  match leg_block db (q_a_chain q) (q_a_height q), leg_block db (q_b_chain q) (q_b_height q) with
  | Some (ha, ba), Some (hb, bb) =>
      ∃ r, cosettle_handler q s = (Ok r, s) ∧
      (cs_co_settled r = true ↔ ∃ p, db_parent_hash ba = Some p ∧ db_parent_hash bb = Some p) ∧
      shows_leg db (q_a_chain q) ha ba (cs_a r) ∧ shows_leg db (q_b_chain q) hb bb (cs_b r) ∧
      (if cs_co_settled r then
         ∃ p, db_parent_hash ba = Some p ∧ cs_shared_ltc_parent r = Some (display_hex p) ∧
           classified_at db p (cs_ltc_height r) ∧
           cs_epoch r = Some (display_hex (sha256d (as_bytes (token_text q ha hb p)))) ∧
           (∀ q' ha' hb' p', 0 ≤ q_a_chain q → 0 ≤ q_b_chain q → 0 ≤ ha → 0 ≤ hb →
              0 ≤ q_a_chain q' → 0 ≤ q_b_chain q' → 0 ≤ ha' → 0 ≤ hb' →
              token_text q ha hb p = token_text q' ha' hb' p' →
              q_a_chain q = q_a_chain q' ∧ ha = ha' ∧ q_b_chain q = q_b_chain q' ∧ hb = hb' ∧ p = p')
       else cs_shared_ltc_parent r = None ∧ cs_ltc_height r = None ∧ cs_epoch r = None)
  | _, _ => ∃ m, cosettle_handler q s = (Err (NotFound m), s)
  end.
Proof.
  intros db. pose proof (leg_block_run (q_a_chain q) (q_a_height q) s Hco) as Ha.
  pose proof (leg_block_run (q_b_chain q) (q_b_height q) s Hco) as Hb. subst db. unfold cosettle_handler.
  destruct (leg_block (as_db s) (q_a_chain q) _) as [[ha ba]|].
  2: { destruct Ha as (m & [Ha|(h & Ha & Hi)]); [exists m; by rewrite (hbind_fail _ _ _ _ _ Ha)|].
       rewrite (hbind_step _ _ _ _ _ Ha).
       destruct (leg_block (as_db s) (q_b_chain q) _) as [[hb bb]|].
       - destruct Hb as [Hb _]. exists m. by rewrite (hbind_step _ _ _ _ _ Hb), (hbind_fail _ _ _ _ _ Hi).
       - destruct Hb as (m' & [Hb|(h' & Hb & _)]).
         + exists m'. by rewrite (hbind_fail _ _ _ _ _ Hb).
         + exists m. by rewrite (hbind_step _ _ _ _ _ Hb), (hbind_fail _ _ _ _ _ Hi). }
  destruct Ha as [Ha Hia]. rewrite (hbind_step _ _ _ _ _ Ha).
  destruct (leg_block (as_db s) (q_b_chain q) _) as [[hb bb]|].
  2: { destruct Hb as (m & [Hb|(h & Hb & Hi)]); exists m; [by rewrite (hbind_fail _ _ _ _ _ Hb)|].
       by rewrite (hbind_step _ _ _ _ _ Hb), (hbind_step _ _ _ _ _ Hia), (hbind_fail _ _ _ _ _ Hi). }
  destruct Hb as [Hb Hib].
  rewrite (hbind_step _ _ _ _ _ Hb), (hbind_step _ _ _ _ _ Hia), (hbind_step _ _ _ _ _ Hib). cbv zeta.
  set (shared := match db_parent_hash ba, db_parent_hash bb with
                 | Some x, Some y => if bool_decide (x = y)
                     then Some (display_hex x, parent_height (cache_parents (as_db s) !! x),
                                display_hex (cosettle_token q ha hb x)) else None
                 | _, _ => None end).
  rewrite (hbind_step _ _ s shared s).
  2: { subst shared. destruct (db_parent_hash ba) as [x|]; [|done]. destruct (db_parent_hash bb) as [y|]; [|done].
       case_bool_decide; [|done]. by rewrite (hbind_step _ _ _ _ _ (parent_run _ x s Hco)). }
  rewrite (hbind_step _ _ _ _ _ (cosettle_leg_run _ _ ba s Hco)).
  rewrite (hbind_step _ _ _ _ _ (cosettle_leg_run _ _ bb s Hco)).
  pose proof (shows_leg_run (as_db s) (q_a_chain q) ha ba) as Hsa.
  pose proof (shows_leg_run (as_db s) (q_b_chain q) hb bb) as Hsb.
  match type of Hsa with shows_leg _ _ _ _ ?l => set (la := l) in * end.
  match type of Hsb with shows_leg _ _ _ _ ?l => set (lb := l) in * end. clearbody la lb.
  eexists. split; [reflexivity|]. subst shared.
  destruct (db_parent_hash ba) as [x|], (db_parent_hash bb) as [y|];
    try (cbn; split_and!; [split; [done|by intros (? & ? & ?)]|done..]).
  case_bool_decide as Hxy; cbn.
  - subst y. split; [split; [by eexists|done]|]. split; [done|]. split; [done|]. exists x. split; [done|]. split; [done|].
    split; [apply classified_at_parent|]. split; [done|]. intros *. apply token_text_inj.
  - split; [split; [done|]|done]. by intros (p & [= ->] & [= ->]).
Qed.

(** A configured limit is a [u32]. *)
Lemma config_limit cfg cid plb : config_ok cfg → pow_limit_for cfg cid = Some plb → is_u32 plb.
Proof.
  intros Hok. unfold pow_limit_for, chain_config. intros (c & Hc & ->)%fmap_Some.
  apply List.find_some in Hc as [Hin%list_elem_of_In _]. pose proof (ok_chain _ Hok) as Hall.
  rewrite Forall_forall in Hall. by destruct (Hall c Hin).
Qed.

(** C13: verification on request.  It changes nothing and ignores the limit the caller
    sends; it answers when the payload is at most a million digits of hex, the
    chain is configured and the payload parses, and otherwise with 400; the answer
    claims no proof-of-work check, shows the hashes of the block, and its verdict
    under the configured limit is the guest's on the one-header chain of that
    block. *)
Theorem verify_handler_correct `{Sha256} `{HexCodec} `{Secp256k1} `{Codec} `{GossipCodec} `{ErrorText}
    (config : Config) (cid : Z) (hex : string) (limit : option Z) (s : AppState)
    (Hok : config_ok config) :
  verify_handler config (mkVerifyRequest cid hex limit) s
  = ((verify_handler config (mkVerifyRequest cid hex None) s).1, s) ∧
  match (verify_handler config (mkVerifyRequest cid hex limit) s).1 with
  | Ok v => ∃ wire plb b, Z.of_nat (String.length hex) ≤ MAX_WIRE_HEX_LEN ∧ hex_decode hex = Ok wire ∧
      pow_limit_for config cid = Some plb ∧ AuxBlock_from_wire wire = Ok b ∧
      ve_pow_checked v = false ∧ ve_chain_id v = cid ∧
      ve_block_hash v = display_hex (sha256d (ab_base b)) ∧
      ve_parent_hash v = display_hex (sha256d (parent_header (ab_aux b))) ∧
      (len wire ≤ usize_max → (ve_valid v = true ↔
         verify_psob_chain [AuxBlock_header b] (slice (ab_base b) 4 36) cid plb = Some (Ok ())))
  | Err e => api_status e = 400 ∧
      (MAX_WIRE_HEX_LEN < Z.of_nat (String.length hex) ∨ (∃ m, hex_decode hex = Err m) ∨
       pow_limit_for config cid = None ∨
       ∃ wire m, hex_decode hex = Ok wire ∧ parse_auxpow wire = Err m)
  end.
Proof.
  assert (∀ l, verify_handler config (mkVerifyRequest cid hex l) s
    = (if MAX_WIRE_HEX_LEN <? Z.of_nat (String.length hex)
       then Err (BadRequest ("wire_hex too large: " +:+ pretty (Z.of_nat (String.length hex)) +:+ " bytes (max "
                             +:+ pretty MAX_WIRE_HEX_LEN +:+ ")")) else
       match hex_decode hex with
       | Err e => Err (BadRequest ("wire_hex is not valid hex: " +:+ e))
       | Ok wire =>
       match pow_limit_for config cid with
       | None => Err (BadRequest "chain not configured on this indexer; cannot vouch for its pow limit")
       | Some plb =>
       match AuxBlock_from_wire wire with
       | Err e => Err (BadRequest ("cannot parse CAuxPow wire: " +:+ display_parse_error e))
       | Ok b => let r := verify_aux_header (ab_base b) (ab_aux b) cid plb in
           Ok (mkVerifyResponse (valid r) false cid (AuxBlock_block_hash_display b)
             (AuxBlock_parent_hash_display b) (parent_chain_id (ab_aux b)) (coinbase_root_hex r) (n_size r)
             (nonce r) (chain_branch_depth r) (report_chain_index r) r)
       end end end, s)) as Hrun.
  { intros l. unfold verify_handler. cbn [vr_wire_hex vr_chain_id]. destruct (_ <? _); [done|].
    destruct (hex_decode hex) as [wire|e]; [|done]. rewrite (hbind_step (mret wire) _ s wire s) by done.
    destruct (pow_limit_for config cid) as [plb|]; [|done]. rewrite (hbind_step (or_fail _ _) _ s plb s) by done.
    unfold verify_wire_block. by destruct (AuxBlock_from_wire wire). }
  split; [by rewrite (Hrun limit), (Hrun None)|]. rewrite Hrun. destruct (_ <? _) eqn:Hlen; reflect_bools; cbn [fst].
  - by auto.
  - destruct (hex_decode hex) as [wire|e]; [|by eauto].
    destruct (pow_limit_for config cid) as [plb|] eqn:Hplb; [|by eauto].
    destruct (AuxBlock_from_wire wire) as [b|e] eqn:Hb.
    + exists wire, plb, b. split_and!; try done. intros Hfit. cbv zeta. cbn [ve_valid].
      assert (is_u32 plb) as Hu by (by eapply config_limit).
      unfold AuxBlock_from_wire in Hb. apply bind_Ok in Hb as ([base a] & Hp & [= <-]). cbn [ab_base ab_aux].
      apply parse_auxpow_iff in Hp as (_ & w & rest & Hw & _); [|done]. destruct (aux_wire_wf a w Hw) as [Ha _].
      rewrite report_valid_light. unfold AuxBlock_header. cbn [ab_base ab_aux].
      rewrite (light_psob base a cid plb _ Hu eq_refl (aux_wf_parent a Ha)).
      destruct (light_verify base a cid plb) as [h|] eqn:E; [|done].
      split; [|done]. intros _. by apply light_verify_spec in E as [-> _].
    + split; [done|]. right. right. right. unfold AuxBlock_from_wire in Hb.
      destruct (parse_auxpow wire) as [[base a]|e'] eqn:Hp; [done|]. by eauto.
Qed.

Lemma listed_intent `{Sha256} `{HexCodec} `{Secp256k1} `{Codec} `{GossipCodec} `{ErrorText}
    (t : Z) (i : SwapIntentMessage) (s : AppState) :
  db_inv (as_db s) → cache_intents (as_db s) !! intent_id i = Some i → t < expiry i →
  ∃ total intents s', list_swap_intents t t None None None None None s = (Ok (total, intents), s') ∧
    (total ≤ 20 → i ∈ intents).
Proof.
  intros Hinv Hi Ht. pose proof (prune_expired_run t _ (inv_coherent _ Hinv) (inv_faults _ Hinv)) as Hrun.
  set (db1 := intents_set (filter (live t) (cache_intents (as_db s))) (as_db s)) in Hrun.
  set (all := sort_by (λ a b, timestamp b <=? timestamp a) (List.filter (λ i, (t <? expiry i)
    && matches None (from_chain i) && matches None (to_chain i) && matches None (protocol i))
    (map_to_list (cache_intents db1)).*2)).
  exists (len all), (page_of (Page_new None None) all), (mkApp db1 (as_p2p s)). split.
  - unfold list_swap_intents. rewrite (hbind_step _ _ s (page_of (Page_new None None) all, len all)
      (mkApp db1 (as_p2p s))); [done|].
    erewrite on_db_run by apply _. unfold list_intents. by rewrite (bind_step _ _ _ _ _ Hrun).
  - intros Hlen. unfold page_of. change (drop _ all) with all. rewrite take_ge by (unfold len in Hlen; cbn; lia).
    unfold all. rewrite elem_of_sort_by, elem_of_filter_bool. split.
    + cbn. destruct (t <? expiry i) eqn:?; reflect_bools; [done|lia].
    + apply list_elem_of_fmap. exists (intent_id i, i). split; [done|]. apply elem_of_map_to_list.
      by apply map_lookup_filter_Some.
Qed.

(** C15: posting an intent.  One that fails the validation is answered with 400 and
    changes nothing; a full book answers 500; otherwise the intent is stored under
    its id in the book of the live intents, is on the first page of the listing
    until it expires (while the book has at most a page), and, with a running
    mesh, is queued on the intents topic as a message that any peer which would
    itself accept the intent, with room in its book, stores. *)
Theorem post_intent_correct `{Sha256} `{HexCodec} `{Secp256k1} `{Codec} `{GossipCodec} `{ErrorText}
    (env : option string) (now now' : Z) (i : SwapIntentMessage) (s : AppState) (Hinv : db_inv (as_db s)) :
  let book := filter (live now') (cache_intents (as_db s)) in
  ∃ r s', create_swap_intent env now now' i s = (r, s') ∧ db_inv (as_db s') ∧
    cache_blocks (as_db s') = cache_blocks (as_db s) ∧
    match validate_swap_intent env now (known_chain_ids (as_db s)) i with
    | Err e => r = Err (BadRequest ("invalid swap intent: " +:+ swap_text e)) ∧ s' = s
    | Ok _ =>
        if decide (Z.of_nat (size book) < MAX_ACTIVE_INTENTS) then
          is_ok r = true ∧ cache_intents (as_db s') = <[intent_id i := i]> book ∧
          (∀ t, t < expiry i → ∃ total intents s'',
             list_swap_intents t t None None None None None s' = (Ok (total, intents), s'') ∧
             (total ≤ 20 → i ∈ intents)) ∧
          (∀ h, as_p2p s = Some h → ph_open h = true → ∃ m h', as_p2p s' = Some h' ∧
             ph_queue h' = ph_queue h ++ [m] ∧
             ∀ penv t t' sw db, db_inv db → validate_swap_intent penv t (known_chain_ids db) i = Ok () →
               Z.of_nat (size (filter (live t') (cache_intents db))) < MAX_ACTIVE_INTENTS →
               ∃ sw' db', swarm_event penv t t' (GossipsubMessage (gm_topic m) (gm_payload m)) sw db = (Ok sw', db') ∧
                 cache_intents db' !! intent_id i = Some i)
        else (∃ m, r = Err (Internal m)) ∧ cache_intents (as_db s') = book ∧ as_p2p s' = as_p2p s
    end.
Proof.
  intros book. unfold create_swap_intent. set (db := as_db s) in *.
  rewrite (hbind_step _ _ s (chain_registry db) s) by (by erewrite on_db_query by apply _).
  fold (known_chain_ids db).
  destruct (validate_swap_intent env now (known_chain_ids db) i) as [[]|e] eqn:Hv.
  2: { eexists _, s. split_and!; [reflexivity|done..]. }
  rewrite (hbind_step (mret ()) _ s () s) by done.
  pose proof (insert_intent_run now' i db (inv_coherent _ Hinv) (inv_faults _ Hinv)) as Hrun. cbv zeta in Hrun.
  fold book in Hrun.
  assert (∀ r db', insert_intent now' i db = (r, db') → db_inv db') as Hstep.
  { intros r db' Hr. eapply step_inv; [exact Hinv|]. by eapply step_insert_intent. }
  rewrite Hrun in Hstep. destruct (_ <=? _) eqn:Hcap; reflect_bools.
  - eexists _, (mkApp (intents_set book db) (as_p2p s)). destruct (decide _) as [?|_]; [lia|]. split_and!.
    + eapply hbind_fail. erewrite on_db_run by apply _. fold db. by rewrite Hrun.
    + by eapply Hstep.
    + done.
    + by eexists.
    + done.
    + done.
  - destruct (decide _) as [_|?]; [|lia]. set (db1 := intents_set (<[intent_id i := i]> book) db) in *.
    assert (db_inv db1) as Hinv1 by (by eapply Hstep).
    rewrite (hbind_step _ _ s () (mkApp db1 (as_p2p s))) by (erewrite on_db_run by apply _; fold db; by rewrite Hrun).
    set (s1 := mkApp db1 ((λ h, (broadcast_intent i h).2) <$> as_p2p s)).
    assert (∃ o, with_p2p (broadcast_intent i) (mkApp db1 (as_p2p s)) = (Ok o, s1)) as [o Hp].
    { unfold with_p2p, s1. cbn. destruct (as_p2p s) as [h|]; [|by eexists]. cbn.
      by destruct (broadcast_intent i h); eexists. }
    rewrite (hbind_step _ _ _ _ _ Hp). eexists _, s1. split_and!; try done.
    + intros t Ht. apply listed_intent; [done| |done]. cbn. apply lookup_insert_eq.
    + intros h Hh Hopen. subst s1. rewrite Hh. cbn. unfold broadcast_intent, publish_json. rewrite Hopen. cbn.
      eexists _, _. split_and!; [reflexivity|reflexivity|]. intros penv t t' sw db2 Hinv2 Hv2 Hroom.
      destruct (inbound_intent_run penv t t' (json_bytes (intent_value i)) db2 Hinv2) as (o' & c & Hin & _ & _ & Hst).
      destruct (Hst i (de_intent_value i) Hv2 Hroom) as [-> ->]. eexists _, _. split.
      * cbn [swarm_event gm_topic gm_payload]. rewrite bool_decide_true by done. by rewrite (bind_step _ _ _ _ _ Hin).
      * cbn. apply lookup_insert_eq.
Qed.

(** ** The theorems at concrete inputs *)

Definition toy_errors : ErrorText := {| db_text _ := "storage"%string; swap_text _ := "intent"%string |}.
#[local] Existing Instances toy_hash plain_hex toy_codec toy_gossip toy_ecdsa toy_errors.

Definition sample_app (db : Database) : AppState := mkApp db (Some (mkHandle true [] (initial_status "me"))).

Lemma cosettle_correct_witness :
  coherent sample_db ∧
  ∃ r, cosettle_handler (mkCoSettleQuery 8224 None 50 (Some 7)) (sample_app sample_db) = (Ok r, sample_app sample_db) ∧
    cs_co_settled r = true.
Proof.
  assert (coherent sample_db) as Hco by exact (proj1 (proj2 sample_ready)). split; [exact Hco|].
  pose proof (cosettle_correct (mkCoSettleQuery 8224 None 50 (Some 7)) (sample_app sample_db) Hco) as Hc.
  cbv zeta in Hc. cbn [q_a_chain q_a_height q_b_chain q_b_height as_db sample_app] in Hc.
  destruct (leg_block sample_db 8224 None) as [[ha ba]|] eqn:Ha; [|exfalso; vm_compute in Ha; discriminate].
  destruct (leg_block sample_db 50 (Some 7)) as [[hb bb]|] eqn:Hb; [|exfalso; vm_compute in Hb; discriminate].
  destruct Hc as (r & Hrun & Hiff & _). exists r. split; [exact Hrun|]. apply Hiff.
  exists sample_parent. split.
  - assert (db_parent_hash <$> (snd <$> leg_block sample_db 8224 None) = Some (Some sample_parent)) as Hp
      by (vm_compute; reflexivity).
    rewrite Ha in Hp. exact (f_equal (λ o, default None o) Hp).
  - assert (db_parent_hash <$> (snd <$> leg_block sample_db 50 (Some 7)) = Some (Some sample_parent)) as Hp
      by (vm_compute; reflexivity).
    rewrite Hb in Hp. exact (f_equal (λ o, default None o) Hp).
Defined.

Lemma verify_handler_correct_witness :
  config_ok sample_cfg ∧
  verify_handler sample_cfg (mkVerifyRequest 8224 (hex_enc (mined_wire 1)) (Some 1)) (sample_app fresh_db)
  = ((verify_handler sample_cfg (mkVerifyRequest 8224 (hex_enc (mined_wire 1)) None) (sample_app fresh_db)).1,
     sample_app fresh_db).
Proof.
  split; [exact sample_config_ok|].
  exact (proj1 (verify_handler_correct sample_cfg 8224 (hex_enc (mined_wire 1)) (Some 1) (sample_app fresh_db)
           sample_config_ok)).
Defined.

Lemma post_intent_correct_witness :
  db_inv sample_registry ∧
  ∃ r s', create_swap_intent None 1500 1501 sample_offer (sample_app sample_registry) = (r, s') ∧ is_ok r = true ∧
    db_inv (as_db s').
Proof.
  split; [exact sample_registry_inv|].
  destruct (post_intent_correct None 1500 1501 sample_offer (sample_app sample_registry) sample_registry_inv)
    as (r & s' & Hrun & Hinv & _).
  exists r, s'. split; [exact Hrun|]. split; [|exact Hinv].
  change r with (r, s').1. rewrite <-Hrun. vm_compute. reflexivity.
Defined.
