(* ===== verification/ApiErrors.v ===== *)
(** * The API: how a request can fail

    Who passes the gate, and when an answer is an internal error: over a coherent
    store, whichever transactions fail, no handler that only reads it does. *)

From S2P Require Export ServerThm.

#[local] Open Scope Z_scope.

Section calm.
Context `{Sha256} `{HexCodec} `{Secp256k1} `{Codec} `{GossipCodec} `{ErrorText}.

(** The handler only reads the store, and does not fail with an internal error. *)
Definition calm {A} (m : H A) : Prop := ∀ s, coherent (as_db s) →
  as_db (m s).2 = as_db s ∧ ∀ t, (m s).1 ≠ Err (Internal t).

Lemma calm_ret {A} (a : A) : calm (mret a).
Proof. done. Qed.
Lemma calm_reads {A} (f : Database → A) : calm (reads f).
Proof. done. Qed.
Lemma calm_get_app : calm get_app.
Proof. done. Qed.
Lemma calm_bad {A} t : calm (fail_api (A:=A) (BadRequest t)).
Proof. done. Qed.
Lemma calm_or_bad {A} (o : option A) t : calm (or_fail o (BadRequest t)).
Proof. by destruct o. Qed.
Lemma calm_or_missing {A} (o : option A) t : calm (or_fail o (NotFound t)).
Proof. by destruct o. Qed.
Lemma calm_bounds {A} (e : ApiError) : (∀ t, e ≠ Internal t) → calm (fail_api (A:=A) e).
Proof. intros He s _. split; [done|]. intros t. cbn. intros [= ->]. by eapply He. Qed.

Lemma calm_bind {A B} (m : H A) (k : A → H B) : calm m → (∀ a, calm (k a)) → calm (m ≫= k).
Proof.
  intros Hm Hk s Hco. destruct (Hm s Hco) as [Hs1 Hne].
  rewrite run_bind. destruct (m s) as [[a|e] s1]; cbn in *.
  - rewrite <-Hs1 in Hco |- *. by apply Hk.
  - split; [done|]. intros t. specialize (Hne t). congruence.
Qed.

Lemma calm_mapM {A B} (f : A → H B) l : (∀ a, calm (f a)) → calm (mapM_A f l).
Proof.
  intros Hf. induction l as [|x l IH]; [apply calm_ret|]. cbn [mapM_A].
  apply calm_bind; [done|]. intros y. apply calm_bind; [done|]. intros ys. apply calm_ret.
Qed.

(** A storage call that succeeds on every coherent store, and leaves it. *)
Lemma calm_on_db {A} err (p : Steps Database A) (m : M A) (f : Database → A) `{!is_call p m} :
  (∀ db, coherent db → m db = (Ok (f db), db)) → calm (on_db err p).
Proof. intros Hm s Hco. erewrite on_db_run by apply _. by rewrite Hm. Qed.
Lemma calm_try {A} (p : Steps Database A) (m : M A) (f : Database → A) `{!is_call p m} :
  (∀ db, coherent db → m db = (Ok (f db), db)) → calm (try_db p).
Proof. intros Hm s Hco. erewrite try_db_run by apply _. by rewrite Hm. Qed.
Lemma calm_query {A} err (p : Steps Database A) (f : Database → A) `{!is_query p f} : calm (on_db err p).
Proof. intros s Hco. by erewrite on_db_query by apply _. Qed.
Lemma calm_get_parent err p : calm (on_db err (get_parent_steps p)).
Proof. eapply calm_on_db; [apply _|]. intros db Hco. by apply get_parent_run. Qed.
Lemma calm_try_parent p : calm (try_db (get_parent_steps p)).
Proof. eapply calm_try; [apply _|]. intros db Hco. by apply get_parent_run. Qed.
Lemma calm_block_at err c h : calm (on_db err (block_at_steps c h)).
Proof. eapply calm_on_db; [apply _|]. intros db Hco. by apply block_at_run. Qed.
Lemma calm_cursor err c : calm (on_db err (cursor_height_steps c)).
Proof. eapply calm_on_db; [apply _|]. intros db Hco. by apply cursor_height_run, co_meta. Qed.
Lemma calm_try_cursor c : calm (try_db (cursor_height_steps c)).
Proof. eapply calm_try; [apply _|]. intros db Hco. by apply cursor_height_run, co_meta. Qed.
End calm.

Create HintDb calm.
#[export] Hint Extern 2 (calm (on_db _ _)) => (eapply calm_query; apply _) : calm.
#[export] Hint Resolve calm_ret calm_reads calm_get_app calm_bad calm_or_bad calm_or_missing calm_try_parent
  calm_try_cursor calm_get_parent calm_block_at calm_cursor : calm.

Ltac calm_steps :=
  repeat first
    [ solve [eauto with calm]
    | apply calm_bind; [|intros ?]
    | apply calm_mapM; intros ?
    | case_match ].

Section serve.
Context `{Sha256} `{HexCodec} `{Secp256k1} `{Codec} `{GossipCodec} `{ErrorText}.
Context (cfg : Config).

Lemma calm_block_from_stored b : calm (block_from_stored b).
Proof. unfold block_from_stored. calm_steps. Qed.
Lemma calm_indexed_block c h : calm (indexed_block c h).
Proof. unfold indexed_block. calm_steps. Qed.
Lemma calm_leg_height c o : calm (leg_height c o).
Proof. unfold leg_height. calm_steps. Qed.
Lemma calm_cosettle_leg c h b p : calm (cosettle_leg c h b p).
Proof. unfold cosettle_leg. calm_steps. Qed.
#[local] Hint Resolve calm_block_from_stored calm_indexed_block calm_leg_height calm_cosettle_leg : calm.

Lemma calm_proof c h : calm (proof_handler c h).
Proof.
  intros s Hco. unfold proof_handler.
  pose proof (indexed_block_run c h s Hco) as Hrun.
  destruct (cache_blocks (as_db s) !! (c, h)) as [b|] eqn:Hb; [|by rewrite (hbind_fail _ _ _ _ _ Hrun)].
  destruct (co_keys _ Hco _ _ Hb) as (_ & _ & _ & [p Hp]). unfold db_parent_hash in Hp.
  destruct (aux (sb_header b)) as [a|] eqn:Ha; [|done].
  destruct (proof_run c h s b a Hco Hb Ha) as (r & Hr & _). unfold proof_handler in Hr. by rewrite Hr.
Qed.
#[local] Hint Resolve calm_proof : calm.





End serve.

(** ** Properties *)


#[local] Existing Instances toy_hash plain_hex toy_codec toy_gossip toy_ecdsa toy_errors.

