(* ===== verification/System.v ===== *)
(** * The running node

    [src/main.rs]: what the process does with the store over one run from a new
    database: the registered chains, then the rounds of the ingest loops, the
    turns of the swarm and the requests, in any order, each of them whole and
    without a failing transaction.  The invariants of the storage and of the ingest
    loops hold in all these states; [Process] lifts the restrictions. *)

From S2P Require Export ApiErrors.

#[local] Open Scope Z_scope.

Section system.
Context `{Sha256} `{HexCodec} `{Secp256k1} `{Codec} `{GossipCodec} `{ErrorText}.
Context (parse_ip : string → option string) (cfg : Config).

Definition register_known : M unit :=
  for_each (λ k, upsert_chain (kc_chain_id k) (kc_name k) (kc_electrs k)) (cfg_known_chains cfg).

(** The store of a running node. *)
Inductive running : Database → Prop :=
  | running_start db : register_known fresh_db = (Ok (), db) → running db
  | running_round chain p2p jitter node st db st' msgs delay db' :
      running db → chain ∈ cfg_chains cfg → node_typed node →
      chain_round cfg chain p2p jitter node st db = Some (st', msgs, delay, db') → running db'
  | running_swarm env turns sw sw' db db' :
      running db → run_swarm_loop env turns sw db = (Ok sw', db') → running db'
  | running_request e time http req st reply st' :
      running (as_db (sv_app st)) → serve parse_ip cfg e time http req st = (reply, st') →
      running (as_db (sv_app st')).

Lemma intents_ingest_inv limits c db :
  ingest_inv limits db → db_inv (intents_set c db) → ingest_inv limits (intents_set c db).
Proof.
  intros [_ Hpk Hch] Hinv. split; [done|exact Hpk|]. intros cid plb Hl Hc.
  by apply (chain_inv_same cid plb db); [apply Hch| |].
Qed.

Lemma register_inv limits ks : ∀ db db',
  ingest_inv limits db →
  for_each (λ k, upsert_chain (kc_chain_id k) (kc_name k) (kc_electrs k)) ks db = (Ok (), db') →
  ingest_inv limits db'.
Proof.
  induction ks as [|k ks IH]; intros db db' Hinv; [by intros [= <-]|]. cbn [for_each].
  destruct (upsert_step limits (kc_chain_id k) (kc_name k) (kc_electrs k) db Hinv) as (db1 & Hrun & Hinv1 & _).
  rewrite (bind_step _ _ _ _ _ Hrun). by apply IH.
Qed.

Lemma fresh_ingest_inv limits : ingest_inv limits fresh_db.
Proof.
  split; [apply fresh_inv|apply fresh_known|]. intros cid plb _ _. split; cbn; intros; simplify_map_eq.
Qed.

Lemma running_inv db : config_ok cfg → running db → ingest_inv (limits_of cfg) db.
Proof.
  intros Hok. induction 1 as [db Hreg|chain p2p jitter node st db st' msgs delay db' _ IH Hin Hnt Hrun
    |env turns sw sw' db db' _ IH Hrun|e time http req st reply st' _ IH Hrun].
  - eapply register_inv; [apply fresh_ingest_inv|exact Hreg].
  - by eapply (chain_round_inv _ cfg chain p2p jitter node st db _ _ _ _ IH
                (config_typed _ _ _ Hok Hin Hnt) (limits_of_chain _ _ Hok Hin)).
  - destruct (run_swarm_loop_run env turns sw db (ii_db _ _ IH)) as (sw1 & db1 & Hrun' & Hinv' & (c & -> & _) & _).
    rewrite Hrun in Hrun'. injection Hrun' as -> ->. by apply intents_ingest_inv.
  - unfold serve in Hrun. destruct (security_middleware _ _ _ _ _) as [v buckets].
    destruct v; [by injection Hrun as _ <-..|].
    destruct (dispatch_keeps cfg e req (sv_app st) (ii_db _ _ IH)) as [Hinv' [c Hc]].
    destruct (dispatch cfg e req (sv_app st)) as [r app]. injection Hrun as _ <-. cbn in *.
    rewrite Hc in *. by apply intents_ingest_inv.
Qed.
End system.

(** ** A running node

    A node that ingested one block. *)

#[local] Existing Instances toy_hash plain_hex toy_codec toy_gossip toy_ecdsa toy_errors.

Lemma sample_running : running (λ _, None) sample_cfg sample_ingested.
Proof.
  assert (running (λ _, None) sample_cfg fresh_db) as Hfresh by (apply running_start; vm_compute; reflexivity).
  destruct (sample_round_Some fresh_db (fresh_ingest_inv _)) as (st & msgs & delay & db & Hrun).
  unfold sample_ingested, sample_state, sample_round. rewrite Hrun.
  exact (running_round (λ _, None) sample_cfg sample_chain_cfg true 0 sample_node (mkLoop 0 ∅)
           fresh_db st msgs delay db Hfresh sample_in sample_typed Hrun).
Qed.
