(* ===== verification/Uplink.v ===== *)
(** * The services of the ingestor

    The construction of [Ingestor] and of the client of a chain in [src/ingest.rs]:
    the policy, the clients and the resolver they use, and the tasks it spawns; and
    what the answers of a node mean when they are those of these clients: a height
    of a parent is one that an explorer of the configuration reported for that very
    parent. *)

From S2P Require Export Resolve IngestThm.

#[local] Open Scope Z_scope.

(** ** Construction *)

Definition http_policy (config : Config) : HttpPolicy :=
  mkPolicy (hc_timeout (cfg_http config)) (rt_max_retries (cfg_retry config)) (rt_base_backoff (cfg_retry config))
    (rt_max_backoff (cfg_retry config)) (rt_min_request_interval (cfg_retry config)).

Definition resolver_of (config : Config) : ParentResolver :=
  let r := cfg_resolver config in
  with_policy_and_fallback (rc_base r) (rc_api_key r) (rc_chain_slug r) (http_policy config) (rc_fallback_base r).
Definition client_of (config : Config) (chain : AuxChain) : ElectrsClient :=
  with_policy (ac_electrs chain) (http_policy config).

(** The shared parts, the announced parents among them; [p2p] says whether there is
    a handle. *)
Record Ingestor := mkIngestor {
  in_config : Config;
  in_resolver : ParentResolver;
  in_p2p : bool;
  in_announced : gset bytes
}.
Definition with_services (config : Config) (p2p : bool) : Ingestor :=
  mkIngestor config (resolver_of config) p2p ∅.
Definition Ingestor_new (config : Config) : Ingestor := with_services config false.

(** A task for each chain, with the client of its loop. *)
Definition spawn_all (i : Ingestor) : list (AuxChain * ElectrsClient) :=
  (λ chain, (chain, client_of (in_config i) chain)) <$> cfg_chains (in_config i).

(** ** What the answers of a node mean *)

Section uplink.
Context `{Sha256} `{HexCodec} `{DecodeSummary}.
Context (config : Config) (received : Log).

(** Among all that the process received there is a successful reply, of the explorer
    of the configuration or of its fallback, about the parent at that height. *)
Definition reported (p : bytes) (h : Z) : Prop :=
  found_in (resolver_of config) (hex_encode (rev p)) received h.

(** The answers of a node: typed, and the resolver's are those of [resolve], run
    against any world, whose events are among those of the process. *)
Record uplink (node : Node) : Prop := {
  up_typed : node_typed node;
  up_resolve : ∀ p h, resolve_parent node p = Ok (Some h) → ∃ w n n' events,
    resolve w (resolver_of config) p n = (Ok (Some h), n') ∧ net_log n' = events ++ net_log n ∧ events ⊆ received
}.

Lemma found_in_subset r hash_hex log log' h : log ⊆ log' → found_in r hash_hex log h → found_in r hash_hex log' h.
Proof. intros Hsub (url & st & body & s & Hin & Hrest). exists url, st, body, s. split; [by apply Hsub|done]. Qed.

Lemma uplink_reported node p h :
  config_ok config → uplink node → resolve_parent node p = Ok (Some h) → reported p h.
Proof.
  intros Hok [_ Hup] Hr. destruct (Hup p h Hr) as (w & n & n' & events & Hrun & Hlog & Hsub).
  destruct (ok_backoff _ Hok) as [Hb Hm].
  destruct (resolve_loop_run w (resolver_of config) (hex_encode (rev p))
              (Z.to_nat (hp_max_retries (pr_policy (resolver_of config))) + 1) false n Hb ltac:(cbn in *; lia))
    as (o & log & Hrun' & Hl & _). unfold resolve in Hrun. rewrite Hrun' in Hrun. injection Hrun as -> <-.
  cbn in Hlog. apply app_inv_tail in Hlog as <-. eapply found_in_subset; [exact Hsub|]. by apply (ll_found _ _ _ _ _ _ Hl).
Qed.
End uplink.

(** The tip that a client reads is a [u64]. *)
Lemma client_tip_typed `{Decode} w c n t n' : client_tip_height w c n = (Ok t, n') → is_u64 t.
Proof.
  unfold client_tip_height. intros (s & n1 & _ & Hr)%bindH_Ok. unfold liftH in Hr.
  destruct (parse_u64 (trim s)) as [v|] eqn:Hv; [|done]. injection Hr as <- _. by eapply parse_u64_range.
Qed.

(** There is one task for each chain, and no two have the same id. *)
Lemma spawn_all_chains config p2p :
  config_ok config → (spawn_all (with_services config p2p)).*1 = cfg_chains config ∧
  NoDup (ac_chain_id <$> (spawn_all (with_services config p2p)).*1).
Proof.
  intros Hok. assert ((spawn_all (with_services config p2p)).*1 = cfg_chains config) as Hs.
  { unfold spawn_all. cbn. rewrite <-list_fmap_compose. by apply list_fmap_id. }
  split; [done|]. rewrite Hs. pose proof (ok_ids _ Hok) as Hn. by apply NoDup_app in Hn as [Hn _].
Qed.
