(* ===== verification/Promises.v ===== *)
(** * What a handler promises

    A handler is a sequence of sections on a state that the other tasks change
    between them.  What it replies can rest on what its sections returned and on what
    always holds: [promises Q m] says that the replies of [m] satisfy [Q] whatever
    happens between its sections, as long as the state stays good, and that its own
    sections keep it so and leave the handle of the mesh where there is one.
    [Answers] proves it of each handler. *)

From S2P Require Export Sound System.

#[local] Open Scope Z_scope.

(** ** Good states *)

Section good.
Context `{Sha256} `{HexCodec} `{Codec} `{GossipCodec}.
Context (vouch : Vouch).

(** An announcement of blocks that verified: the tallest block of a batch with its
    payload and its parent, or a parent with its height and legs of two chains. *)
Definition honest_announcement (a : Announcement) : Prop :=
  match a with
  | AnnounceHeader c h hash parent ltc_height wire =>
      ∃ b p, good_block vouch (c, h) b ∧ db_parent_hash b = Some p ∧
        hash = display_hash (sb_hash_le b) ∧ parent = display_hash p ∧ wire = sb_wire_hex b ∧
        height_ok vouch p ltc_height
  | AnnounceSibling parent ltc_height legs =>
      (∃ p, parent = display_hash p ∧ vo_height vouch p ltc_height) ∧
      (∃ l l', l ∈ legs ∧ l' ∈ legs ∧ l.1.1 ≠ l'.1.1) ∧
      Forall (λ leg : Z * Z * string, ∃ b, good_block vouch leg.1 b ∧ leg.2 = display_hash (sb_hash_le b)) legs
  end.
Definition gossip_of (a : Announcement) : GossipMessage :=
  match a with
  | AnnounceHeader c h hash parent ltc_height wire =>
      mkGossip TOPIC_HEADERS (json_bytes (header_json c h hash parent ltc_height wire))
  | AnnounceSibling parent ltc_height legs => mkGossip TOPIC_SIBLINGS (json_bytes (sibling_json parent ltc_height legs))
  end.
(** What the node may publish. *)
Definition honest (g : GossipMessage) : Prop :=
  (∃ a, honest_announcement a ∧ g = gossip_of a) ∨
  ∃ i, g = mkGossip TOPIC_INTENTS (json_bytes (intent_value i)).

Definition good_handle (h : P2pHandle) : Prop := Forall honest (ph_queue h).
Record good_app (s : AppState) : Prop := {
  ga_sound : sound vouch (as_db s);
  ga_handle : ∀ h, as_p2p s = Some h → good_handle h
}.

Lemma publish_good topic payload h :
  honest (mkGossip topic (json_bytes payload)) → good_handle h → good_handle (publish_json topic payload h).2.
Proof.
  intros Hg Hh. unfold publish_json. destruct (ph_open h); [|done]. cbn. apply Forall_app. split; [done|by constructor].
Qed.
Lemma broadcast_good i h : good_handle h → good_handle (broadcast_intent i h).2.
Proof. apply publish_good. right. by eexists. Qed.
Lemma announce_good a h : honest_announcement a → good_handle h → good_handle (announce a h).2.
Proof. intros Ha. destruct a; apply publish_good; left; eexists; (split; [exact Ha|done]). Qed.

(** ** The judgement *)

Definition same_mesh (s s' : AppState) : Prop := as_p2p s = None ↔ as_p2p s' = None.
#[export] Instance same_mesh_equiv : Equivalence same_mesh.
Proof. unfold same_mesh. split; [by intros s|by intros s s' ->|by intros s s' s'' -> ->]. Qed.

Fixpoint promises {A} (Q : A → Prop) (m : H A) : Prop :=
  match m with
  | Reply (Ok a) => Q a
  | Reply (Err _) => True
  | Call f k => ∀ s, good_app s → good_app (f s).2 ∧ same_mesh s (f s).2 ∧ promises Q (k (f s).1)
  end.

Lemma promises_run {A} (Q : A → Prop) (m : H A) : ∀ s,
  promises Q m → good_app s → good_app (m s).2 ∧ same_mesh s (m s).2 ∧ ∀ a, (m s).1 = Ok a → Q a.
Proof.
  induction m as [[a|e]|B f k IH]; intros s Hm Hs; cbn in *; [split_and!; [done..|]; by intros ? [= <-]|done|].
  specialize (Hm s Hs). destruct (f s) as [b s']. destruct Hm as (Hs' & Hmesh & Hm). cbn in Hmesh.
  destruct (IH b s' Hm Hs') as (Hs2 & Hmesh2 & HQ). split_and!; [done| |done]. by etrans.
Qed.

Lemma promises_bind {A B} (P : A → Prop) (Q : B → Prop) (m : H A) (k : A → H B) :
  promises P m → (∀ a, P a → promises Q (k a)) → promises Q (m ≫= k).
Proof.
  intros Hm Hk. induction m as [[a|e]|C f l IH]; cbn; [by apply Hk|done|].
  intros s Hs. destruct (Hm s Hs) as (Hs' & Hmesh & Hl). split; [done|]. split; [done|]. by apply IH.
Qed.
Lemma promises_weaken {A} (P Q : A → Prop) (m : H A) : promises P m → (∀ a, P a → Q a) → promises Q m.
Proof.
  intros Hm HPQ. induction m as [[a|e]|C f l IH]; cbn; [by apply HPQ|done|].
  intros s Hs. destruct (Hm s Hs) as (Hs' & Hmesh & Hl). split; [done|]. split; [done|]. by apply IH.
Qed.
Lemma promises_ret {A} (Q : A → Prop) (a : A) : Q a → promises Q (mret a).
Proof. done. Qed.
Lemma promises_fail {A} (Q : A → Prop) e : promises Q (fail_api e).
Proof. done. Qed.
Lemma promises_or_fail {A} (Q : A → Prop) (o : option A) e : (∀ a, o = Some a → Q a) → promises Q (or_fail o e).
Proof. destruct o as [a|]; [|done]. intros Ho. by apply Ho. Qed.
Lemma promises_get_app : promises (λ s, good_app s) get_app.
Proof. intros s Hs. by split. Qed.
Lemma promises_reads {A} (Q : A → Prop) (f : Database → A) :
  (∀ db, sound vouch db → Q (f db)) → promises Q (reads f).
Proof. intros Hf s Hs. split; [done|]. split; [done|]. apply Hf, Hs. Qed.
Lemma promises_sections {A} (Q : Result DbError A → Prop) (p : Steps Database A) :
  secure (sound vouch) Q p → promises Q (sections p).
Proof.
  induction p as [r|B f k IH]; [done|]. intros Hp s Hs. destruct (Hp _ (ga_sound _ Hs)) as [Hs' Hk].
  cbn. destruct (f (as_db s)) as [b db]. cbn in *. split; [by split; [|apply Hs]|]. split; [done|by apply IH].
Qed.
Lemma promises_on_db {A} (Q : A → Prop) err (p : Steps Database A) :
  secure (sound vouch) (may Q) p → promises Q (on_db err p).
Proof. intros Hp. eapply promises_bind; [by apply promises_sections|]. by intros [a|e]. Qed.
Lemma promises_try {A} (Q : A → Prop) (p : Steps Database A) :
  secure (sound vouch) (may Q) p → promises (λ o, ∀ a, o = Some a → Q a) (try_db p).
Proof. intros Hp. eapply promises_bind; [by apply promises_sections|]. intros [a|e] Hr; cbn; [by intros ? [= <-]|done]. Qed.
Lemma promises_with_p2p {A} (f : P2pHandle → A * P2pHandle) :
  (∀ h, good_handle h → good_handle (f h).2) → promises (λ _, True) (with_p2p f).
Proof.
  intros Hf s Hs. destruct s as [db [h|]]; [|done]. cbn. pose proof (Hf h (ga_handle _ Hs h eq_refl)) as Hh.
  destruct (f h) as [a h']. split; [|by split]. split; [apply Hs|]. by intros ? [= <-].
Qed.
Lemma promises_mapM {A B} (Q : A → B → Prop) (f : A → H B) (l : list A) :
  (∀ a, a ∈ l → promises (Q a) (f a)) → promises (λ ys, Forall2 Q l ys) (mapM_A f l).
Proof.
  induction l as [|x l IH]; intros Hf; [cbn; by constructor|]. cbn [mapM_A].
  eapply promises_bind; [apply Hf; set_solver|]. intros y Hy.
  eapply promises_bind; [apply IH; intros; apply Hf; set_solver|]. intros ys Hys. cbn. by constructor.
Qed.
End good.

Create HintDb promises.
#[export] Hint Resolve promises_ret promises_fail promises_get_app : promises.
