(* ===== verification/Answers.v ===== *)
(** * The answers

    What the replies of the handlers of [src/server.rs] are worth, however the
    tasks of the process interleave with their sections: every block, proof, leg and
    item shown belongs to a block that verified, the height shown for a parent is one
    that an explorer reported for it, a co-settlement is two blocks of one parent, an
    intent was validated. *)

From S2P Require Export Uplink Promises.

#[local] Open Scope Z_scope.

(** ** What anyone can check *)

Lemma mapM_hex_decode `{HexCodec} (l : list bytes) : Forall2 (λ x y, hex_decode x = Ok y) (hex_encode <$> l) l.
Proof. induction l as [|b l IH]; cbn; constructor; [apply hex_decode_encode|done]. Qed.

(** The guest accepts the one-header chain of the block. *)
Definition guest_accepts `{Sha256} (b : AuxBlock) (cid plb : Z) : Prop :=
  verify_psob_chain [AuxBlock_header b] (slice (ab_base b) 4 36) cid plb = Some (Ok ()).

(** The witness decoded from a proof response. *)
Definition proof_witness `{HexCodec} (p : ProofResponse) (a : AuxPow) : Prop :=
  hex_decode (pf_coinbase_tx p) = Ok (coinbase_tx a) ∧
  hex_decode (pf_parent_header p) = Ok (parent_header a) ∧
  Forall2 (λ x y, hex_decode x = Ok y) (pf_parent_merkle_branch p) (parent_merkle_branch a) ∧
  Forall2 (λ x y, hex_decode x = Ok y) (pf_chain_merkle_branch p) (chain_merkle_branch a) ∧
  pf_parent_index p = parent_index a ∧ pf_chain_index p = chain_index a.

(** The guest accepts what the node accepts. *)
Lemma light_guest_accepts `{Sha256} base a cid plb wire id :
  is_u32 plb → len wire ≤ usize_max → parse_auxpow wire = Ok (base, a) → light_verify base a cid plb = Ok id →
  guest_accepts (mkAuxBlock base a wire) cid plb.
Proof.
  intros Hplb Hfit Hp Hlv. unfold guest_accepts, AuxBlock_header. cbn [ab_base ab_aux].
  apply parse_auxpow_iff in Hp as (_ & w & rest & Hw & _); [|done]. destruct (aux_wire_wf a w Hw) as [Ha _].
  pose proof Hlv as (-> & _ & _)%light_verify_spec; [|done].
  rewrite (light_psob base a cid plb _ Hplb eq_refl (aux_wf_parent a Ha)). by rewrite Hlv.
Qed.

Section answers.
Context `{Sha256} `{HexCodec} `{Secp256k1} `{Codec} `{GossipCodec} `{ErrorText} `{DecodeSummary}.
Context (cfg : Config) (received : Log).

(** An intent that passed the validation, at some time and with some registry. *)
Definition validated (i : SwapIntentMessage) : Prop :=
  ∃ env now known, validate_swap_intent env now known i = Ok ().
Definition vouch_of : Vouch := mkVouch (limits_of cfg) validated (reported cfg received).

(** The height shown for the parent with this display hash, if any, was reported. *)
Definition known_at (parent : string) (height : option Z) : Prop :=
  ∃ p, parent = display_hex p ∧ height_ok vouch_of p height.

(** The payload [w] of a configured chain [c]: it parses into the block with these
    hashes, and the guest accepts it. *)
Definition verified (c : Z) (hash parent w : string) : Prop :=
  ∃ chain wire b, chain ∈ cfg_chains cfg ∧ ac_chain_id chain = c ∧ w = hex_encode wire ∧
    AuxBlock_from_wire wire = Ok b ∧ hash = AuxBlock_block_hash_display b ∧
    parent = AuxBlock_parent_hash_display b ∧ guest_accepts b c (ac_pow_limit_bits chain).

Definition shown (r : BlockResponse) : Prop :=
  (∃ w, br_raw_auxpow_hex r = Some w ∧ verified (br_chain_id r) (br_block_hash r) (br_parent_hash r) w) ∧
  known_at (br_parent_hash r) (br_ltc_height r).
(** A group: its parent is at the height shown, its legs are verified blocks of it. *)
Definition grouped (s : SiblingSummary) : Prop :=
  ∃ p, ss_parent_hash s = display_hex p ∧ reported cfg received p (ss_ltc_height s) ∧ ss_legs_count s = len (ss_legs s) ∧
    Forall (λ l, ∃ b, anchored vouch_of p b ∧ block_key b = (cl_chain_id l, cl_height l)) (ss_legs s).
(** A leg of a co-settlement is that block. *)
Definition leg_shown (c h : Z) (b : StoredBlock) (l : CoSettleLeg) : Prop :=
  co_chain_id l = c ∧ co_height l = h ∧ co_block_hash l = display_hex (sb_hash_le b) ∧ co_is_auxpow l = true ∧
  ∃ p, db_parent_hash b = Some p ∧ co_parent_hash l = display_hex p ∧ height_ok vouch_of p (co_ltc_height l).
Definition settled (q : CoSettleQuery) (r : CoSettleResponse) : Prop :=
  ∃ ha hb ba bb, good_block vouch_of (q_a_chain q, ha) ba ∧ good_block vouch_of (q_b_chain q, hb) bb ∧
    (∀ h, q_a_height q = Some h → ha = h) ∧ (∀ h, q_b_height q = Some h → hb = h) ∧
    leg_shown (q_a_chain q) ha ba (cs_a r) ∧ leg_shown (q_b_chain q) hb bb (cs_b r) ∧
    (cs_co_settled r = true ↔ db_parent_hash ba = db_parent_hash bb) ∧
    (cs_co_settled r = true → ∃ p, db_parent_hash ba = Some p ∧ cs_shared_ltc_parent r = Some (display_hex p) ∧
       cs_epoch r = Some (display_hex (cosettle_token q ha hb p)) ∧ height_ok vouch_of p (cs_ltc_height r)).

(** An item of the list of a parent is a verified block, with its payload when shown. *)
Definition listed (i : SiblingBlockItem) : Prop :=
  ∃ b, good_block vouch_of (si_chain_id i, si_height i) b ∧ si_block_hash i = display_hex (sb_hash_le b) ∧
    (∃ q, verified (si_chain_id i) (si_block_hash i) q (sb_wire_hex b)) ∧
    ∀ w, si_auxpow_hex i = Some w → w = sb_wire_hex b.
Definition within_bounds (from to : option Z) (h : Z) : Prop :=
  (∀ f, from = Some f → f ≤ h) ∧ ∀ t, to = Some t → h ≤ t.

(** What an answer to the request is. *)
Definition answers (e : RequestEnv) (req : ApiRequest) (body : ApiBody) : Prop :=
  match req with
  | GetBlock c h => ∃ r rep, body = BBlock r ∧ br_chain_id r = c ∧ br_height r = h ∧ shown r ∧
      br_verification r = Some rep ∧ valid rep = true
  | GetBlocks c f t _ _ => ∃ r, body = BBlocks r ∧ Some (bl_chain_id r) = c ∧
      Forall (λ b, Some (br_chain_id b) = c ∧ within_bounds f t (br_height b) ∧ shown b) (bl_blocks r)
  | GetProof c h => ∃ r a, body = BProof r ∧ pf_chain_id r = c ∧ pf_height r = h ∧
      verified c (pf_block_hash r) (pf_parent_hash r) (pf_auxpow_hex r) ∧ proof_witness r a ∧
      known_at (pf_parent_hash r) (pf_ltc_height r) ∧
      ∃ base, pf_block_hash r = hash_display (sha256d base) ∧ commits (sha256d base) a c
  | GetSibling p _ => ∃ r pb, body = BSibling r ∧ sd_parent_hash r = p ∧
      le_of_display p = Ok pb ∧ height_ok vouch_of pb (sd_ltc_height r) ∧
      Forall listed (sd_siblings r)
  | GetSiblings _ _ _ _ => ∃ r, body = BSiblings r ∧ Forall grouped (pg_items r)
  | GetEpochLatest _ => ∃ r, body = BSummary r ∧ grouped r
  | GetEpoch _ _ _ _ _ => ∃ r, body = BEpoch r ∧
      Forall (λ i, ∃ b p, good_block vouch_of (ei_chain_id i, ei_height i) b ∧ ei_block_hash i = display_hex (sb_hash_le b) ∧
        db_parent_hash b = Some p ∧ reported cfg received p (ei_ltc_height i)) (ep_blocks r)
  | GetCoSettle q => ∃ r, body = BCoSettle r ∧ settled q r
  | GetIntents _ _ _ _ _ => ∃ n l, body = BIntents n l ∧ Forall (λ i, validated i ∧ env_now' e < expiry i) l
  | PostIntent i => validated i
  | _ => True
  end.
End answers.

(** ** What is read from a sound store *)

Section reads.
Context `{Sha256} `{HexCodec} `{Codec}.
Context (vouch : Vouch).
Abbreviation good_block := (good_block vouch).
Abbreviation anchored := (anchored vouch).

Lemma good_block_key k b : good_block k b → good_block (block_key b) b.
Proof. intros Hg. by rewrite <-(proj1 Hg). Qed.

Lemma range_loop_good page rows : ∀ skipped out (P : StoredBlock → Prop),
  Forall (λ r : Z * Z * bytes, ∃ b, r.2 = enc_block b ∧ P b) rows → Forall P out → Forall P (range_loop page skipped out rows).
Proof.
  induction rows as [|r rows IH]; intros skipped out P Hr Ho; [done|].
  apply Forall_cons in Hr as [(b & Hb & HP) Hr]. cbn [range_loop].
  destruct (_ <=? _); [done|]. destruct (_ <? _); [by apply IH|]. rewrite Hb, dec_enc_block. apply IH; [done|].
  apply Forall_app. split; [done|by constructor].
Qed.

Lemma blocks_range_good c from to page db :
  sound vouch db →
  Forall (λ b, sb_chain_id b = c ∧ from ≤ sb_height b ≤ to ∧ good_block (block_key b) b) (blocks_range c from to page db).
Proof.
  intros [[Hb _ _] _ _ _ _]. unfold blocks_range. destruct (_ <? _); [constructor|]. apply range_loop_good; [|constructor].
  apply Forall_forall. intros [k v] [Hv Hr]%elem_of_block_rows. destruct (Hb k v Hv) as (b & -> & Hg). exists b.
  apply in_range_true in Hr. split; [done|]. pose proof Hg as [-> _]. destruct Hr as (<- & Hlo & Hhi).
  split_and!; [done..|by eapply good_block_key].
Qed.

Lemma sibling_loop_good t page keys : ∀ total out,
  (∀ k v, t !! k = Some v → ∃ b, v = enc_block b ∧ good_block k b) →
  Forall (λ b, good_block (block_key b) b) out →
  Forall (λ b, good_block (block_key b) b) (sibling_loop t page total out keys).1.
Proof.
  induction keys as [|k keys IH]; intros total out Ht Ho; [done|]. cbn [sibling_loop].
  destruct (t !! k) as [v|] eqn:Hv; [|by apply IH]. destruct (Ht k v Hv) as (b & -> & Hg). rewrite dec_enc_block.
  destruct (_ && _); apply IH; try done. apply Forall_app. split; [done|]. constructor; [|done]. by eapply good_block_key.
Qed.
Lemma sibling_range_good p page db :
  sound vouch db → Forall (λ b, good_block (block_key b) b) (sibling_blocks_range p page db).1.
Proof. intros [[Hb _ _] _ _ _ _]. by apply sibling_loop_good. Qed.
Lemma siblings_good p db : sound vouch db → Forall (λ b, good_block (block_key b) b) (siblings_for_parent p db).
Proof.
  intros Hs. unfold siblings_for_parent. destruct (cache_siblings db !! p) as [l|] eqn:Hl; [|by apply sibling_range_good].
  eapply Forall_impl; [by eapply so_siblings|]. by intros b [? _].
Qed.

(** A group: its height and its legs. *)
Definition good_group (g : SharedParent) : Prop :=
  vo_height vouch (shp_parent_hash_le g) (shp_ltc_height g) ∧
  Forall (λ l, ∃ b, anchored (shp_parent_hash_le g) b ∧ block_key b = l) (shp_legs g).

Lemma secure_shared_parents m page f :
  secure (sound vouch) (may (λ r, Forall good_group r.1)) (shared_mainnet_parents_steps m page f).
Proof.
  eapply secure_may_bind.
  { apply (secure_scan _ good_group). intros db p sp Hs Hsp. destruct (sp_ltc_height sp) as [lh|] eqn:Hh; [|apply secure_none].
    apply secure_reading. intros db' Hs'. apply secure_ret. intros g Hg. apply bind_Some in Hg as (l & Hl & Hg). cbv zeta in Hg.
    destruct (_ <=? _); [|done]. injection Hg as <-. split; [by apply (so_parents _ _ Hs _ _ Hsp)|]. cbn [shp_legs shp_parent_hash_le].
    apply Forall_forall. intros [c h] (_ & (b & Hb & <- & <-) & _)%elem_of_legs. exists b. split; [|done].
    pose proof (so_siblings _ _ Hs' _ _ Hl) as Ha. rewrite Forall_forall in Ha. by apply Ha. }
  intros groups Hg. rewrite Forall_forall in Hg. apply secure_ret. apply Forall_forall. intros g Hin%elem_of_page.
  rewrite elem_of_sort_by in Hin. by apply Hg.
Qed.
Lemma secure_latest_group m :
  secure (sound vouch) (may (λ o, ∀ g, o = Some g → good_group g)) (latest_sibling_group_steps m).
Proof.
  eapply secure_may_bind; [apply secure_shared_parents|]. intros [l total] Hl. apply secure_ret. cbn [fst] in *. intros g [l' ->]%last_Some.
  apply Forall_app in Hl as [_ Hl]. by apply Forall_cons in Hl as [Hl _].
Qed.

Lemma secure_epoch_blocks a b f page :
  secure (sound vouch) (may (λ r : list (Z * Z * Z * bytes) * Z, Forall (λ e, ∃ s p, good_block e.1.1 s ∧ e.2 = sb_hash_le s ∧
    db_parent_hash s = Some p ∧ vo_height vouch p e.1.2) r.1)) (epoch_blocks_steps a b f page).
Proof.
  eapply secure_may_bind.
  { apply (secure_scan _ (Forall (λ e : Z * Z * Z * bytes, ∃ s p, good_block e.1.1 s ∧ e.2 = sb_hash_le s ∧
      db_parent_hash s = Some p ∧ vo_height vouch p e.1.2))).
    intros db p sp Hs Hsp. destruct (sp_ltc_height sp) as [lh|] eqn:Hh; [|apply secure_none].
    destruct (_ && _); [|apply secure_none]. apply secure_reading. intros db' Hs'. apply secure_ret.
    intros rows Hrows. apply bind_Some in Hrows as (l & Hl & [= <-]). apply Forall_forall. intros e He.
    unfold epoch_rows in He. apply list_elem_of_omap in He as (s & Hin & He). destruct (matches _ _); [|done].
    injection He as <-. exists s, p. pose proof (so_siblings _ _ Hs' _ _ Hl) as Ha. rewrite Forall_forall in Ha.
    destruct (Ha s Hin) as [Hg Hp]. split_and!; [exact Hg|done|exact Hp|]. by eapply (so_parents _ _ Hs). }
  intros rows Hr. apply secure_ret. cbn [fst]. apply Forall_forall. intros e He%elem_of_page.
  rewrite elem_of_sort_by in He. apply list_elem_of_In, in_concat in He as (l & Hl%list_elem_of_In & He%list_elem_of_In).
  rewrite Forall_forall in Hr. specialize (Hr _ Hl). rewrite Forall_forall in Hr. by apply Hr.
Qed.
End reads.

(** ** The handlers *)

Section handlers.
Context `{Sha256} `{HexCodec} `{Secp256k1} `{Codec} `{GossipCodec} `{ErrorText} `{DecodeSummary}.
Context (cfg : Config) (received : Log) (Hok : config_ok cfg).
Abbreviation vouch := (vouch_of cfg received).
Abbreviation shown := (shown cfg received).
Abbreviation grouped := (grouped cfg received).
Abbreviation settled := (settled cfg received).
Abbreviation known_at := (known_at cfg received).
Abbreviation promises := (promises vouch).
Abbreviation good_block := (good_block vouch).

Lemma limits_of_inv c plb :
  limits_of cfg c = Some plb → ∃ chain, chain ∈ cfg_chains cfg ∧ ac_chain_id chain = c ∧ ac_pow_limit_bits chain = plb.
Proof.
  unfold limits_of. destruct (List.find _ _) as [chain|] eqn:Hf; [|done]. intros [= <-].
  apply find_some in Hf as [Hin Hid]. exists chain. reflect_bools. split; [by apply list_elem_of_In|done].
Qed.

(** A good block, taken apart. *)
Lemma good_block_inv c h b :
  good_block (c, h) b → sb_chain_id b = c ∧ sb_height b = h ∧ ∃ chain a wire,
    chain ∈ cfg_chains cfg ∧ ac_chain_id chain = c ∧ pow_limit_for cfg c = Some (ac_pow_limit_bits chain) ∧
    aux (sb_header b) = Some a ∧ sb_wire_hex b = hex_encode wire ∧ parse_auxpow wire = Ok (raw (sb_header b), a) ∧
    light_verify (raw (sb_header b)) a c (ac_pow_limit_bits chain) = Ok (sb_hash_le b) ∧
    sb_hash_le b = sha256d (raw (sb_header b)) ∧ commits (sha256d (raw (sb_header b))) a c ∧
    guest_accepts (mkAuxBlock (raw (sb_header b)) a wire) c (ac_pow_limit_bits chain).
Proof.
  intros (Hk & plb & Hl & wire & a & Hfit & Hhex & Hp & Haux & Hlv). injection Hk as Hc Hh. cbn [fst] in Hl. rewrite <-Hc in Hlv.
  change (limits_of cfg c = Some plb) in Hl. pose proof Hl as (chain & Hin & Hid & <-)%limits_of_inv.
  pose proof (ok_chain _ Hok) as Hch. rewrite Forall_forall in Hch. destruct (Hch chain Hin) as [_ Hplb _ _].
  pose proof Hlv as (Hhash & _ & Hcom)%light_verify_spec; [|done].
  split; [done|]. split; [done|]. exists chain, a, wire. split_and!; try done. by eapply light_guest_accepts.
Qed.

Lemma good_verified c h b :
  good_block (c, h) b → ∃ p, db_parent_hash b = Some p ∧
    verified cfg c (display_hex (sb_hash_le b)) (display_hex p) (sb_wire_hex b).
Proof.
  intros (_ & _ & chain & a & wire & Hin & Hid & _ & Ha & Hw & Hp & _ & Hhash & _ & Hg)%good_block_inv.
  exists (sha256d (parent_header a)). split; [unfold db_parent_hash; by rewrite Ha|].
  exists chain, wire, (mkAuxBlock (raw (sb_header b)) a wire). split_and!; try done.
  - unfold AuxBlock_from_wire. by rewrite Hp.
  - by rewrite Hhash.
Qed.

Lemma promises_indexed c h : promises (good_block (c, h)) (indexed_block c h).
Proof.
  unfold indexed_block. eapply promises_bind.
  - apply promises_on_db, secure_gives, secure_block_at.
  - intros o Ho. by apply promises_or_fail.
Qed.

Lemma promises_parent err p : promises (λ o, height_ok vouch p (parent_height o)) (on_db err (get_parent_steps p)).
Proof.
  apply promises_on_db. eapply secure_weaken; [apply secure_get_parent|]. intros [[sp|]|e] Ho; [by apply Ho|done..].
Qed.

Lemma promises_response c h b :
  good_block (c, h) b →
  promises (λ r, br_chain_id r = c ∧ br_height r = h ∧ shown r) (block_from_stored b).
Proof.
  intros Hg. pose proof (good_block_inv c h b Hg) as (Hc & Hh & _). destruct (good_verified c h b Hg) as (p & Hp & Hv).
  unfold block_from_stored. rewrite Hp. eapply promises_bind; [apply promises_parent|]. intros info Hi.
  apply promises_ret. split_and!; [done..|]. split; [|by exists p]. exists (sb_wire_hex b). split; [done|]. cbn. by rewrite Hc.
Qed.

Lemma promises_block_detail c h :
  promises (λ r, ∃ rep, br_chain_id r = c ∧ br_height r = h ∧ shown r ∧ br_verification r = Some rep ∧ valid rep = true)
    (block_detail_handler cfg c h).
Proof.
  unfold block_detail_handler. eapply promises_bind; [apply promises_indexed|]. intros b Hg.
  eapply promises_bind; [by apply promises_response|]. intros r (Hc & Hh & Hs).
  pose proof (good_block_inv c h b Hg) as (_ & _ & chain & a & wire & _ & _ & Hpl & Ha & _ & _ & Hlv & _).
  rewrite Ha, Hpl. apply promises_ret. eexists. split_and!; [done|done|exact Hs|done|].
  by rewrite report_valid_light, Hlv.
Qed.

Lemma promises_proof c h :
  promises (λ r, ∃ a, pf_chain_id r = c ∧ pf_height r = h ∧ verified cfg c (pf_block_hash r) (pf_parent_hash r) (pf_auxpow_hex r) ∧
      proof_witness r a ∧ known_at (pf_parent_hash r) (pf_ltc_height r) ∧ ∃ base, pf_block_hash r = hash_display (sha256d base) ∧ commits (sha256d base) a c)
    (proof_handler c h).
Proof.
  unfold proof_handler. eapply promises_bind; [apply promises_indexed|]. intros b Hg.
  pose proof (good_block_inv c h b Hg) as (Hc & Hh & chain & a & wire & _ & _ & _ & Ha & _ & _ & _ & Hhash & Hcom & _).
  destruct (good_verified c h b Hg) as (p & Hp & Hv). unfold db_parent_hash in Hp. rewrite Ha in Hp. injection Hp as <-.
  unfold proof_from_stored. rewrite Ha. cbn [or_fail]. eapply promises_bind; [by apply (promises_ret _ (λ x, x = a))|].
  intros a' ->. eapply promises_bind; [apply promises_parent|]. intros info Hi. apply promises_ret. exists a.
  split_and!; [done|done|exact Hv| |by eexists|exists (raw (sb_header b)); split; [cbn; by rewrite Hhash|done]].
  unfold proof_witness. cbn. split_and!; try apply hex_decode_encode; try apply mapM_hex_decode; done.
Qed.

Lemma promises_blocks c f t l o :
  promises (λ r, Some (bl_chain_id r) = c ∧
    Forall (λ b, Some (br_chain_id b) = c ∧ within_bounds f t (br_height b) ∧ shown b) (bl_blocks r)) (blocks_handler c f t l o).
Proof.
  unfold blocks_handler. eapply promises_bind; [by apply (promises_or_fail _ (λ x, c = Some x))|]. intros cid ->.
  eapply (promises_bind _ (λ b, ∀ h, b.1 ≤ h ≤ b.2 → within_bounds f t h)).
  { unfold blocks_bounds. destruct f as [f|], t as [t|]; [destruct (_ <? _); [done|]; destruct (_ <? _); [done|]|..];
      apply promises_ret; intros h ?; cbn in *; split; intros ? [= <-]; lia. }
  intros [from to] Hft.
  eapply promises_bind; [apply promises_reads; intros db Hs; exact (blocks_range_good vouch cid from to _ db Hs)|].
  intros blocks Hb. rewrite Forall_forall in Hb.
  eapply promises_bind; [apply (promises_mapM _ (λ b r, Some (br_chain_id r) = Some cid ∧ within_bounds f t (br_height r) ∧ shown r))|].
  - intros b Hin. destruct (Hb b Hin) as (Hc & Hh & Hg).
    eapply promises_weaken; [by apply (promises_response (sb_chain_id b) (sb_height b))|].
    intros r (Hr & Hrh & Hsh). rewrite Hr, Hc, Hrh. split_and!; [done|by apply Hft|done].
  - intros items Hi. apply promises_ret. split; [done|]. cbn. by eapply Forall2_Forall_r, Forall_true.
Qed.

Lemma grouped_summary g : good_group vouch g → grouped (summary_of_group cfg g).
Proof.
  intros [Hh Hg]. exists (shp_parent_hash_le g). unfold summary_of_group. cbn. split; [done|]. split; [done|].
  split; [unfold len; by rewrite length_fmap|]. apply Forall_fmap. eapply Forall_impl; [exact Hg|]. intros [c h] (b & Ha & Hk). by exists b.
Qed.

Lemma promises_siblings m c l o : promises (λ r, Forall grouped (pg_items r)) (siblings_handler cfg m c l o).
Proof.
  unfold siblings_handler.
  eapply (promises_bind _ (λ r, Forall (good_group vouch) r.1)); [apply promises_on_db, secure_shared_parents|].
  intros [parents total] Hp. cbn [fst] in Hp. apply promises_ret. cbn. apply Forall_fmap.
  eapply Forall_impl; [exact Hp|]. apply grouped_summary.
Qed.

Lemma promises_epoch_latest m : promises grouped (epoch_latest_handler cfg m).
Proof.
  unfold epoch_latest_handler.
  eapply (promises_bind _ (λ o, ∀ g, o = Some g → good_group vouch g)).
  { apply promises_on_db, secure_latest_group. }
  intros o Ho. eapply promises_bind; [by apply promises_or_fail|]. intros g Hg. by apply promises_ret, grouped_summary.
Qed.

Lemma promises_epoch a b c l o :
  promises (λ r, Forall (λ i, ∃ s p, good_block (ei_chain_id i, ei_height i) s ∧ ei_block_hash i = display_hex (sb_hash_le s) ∧
      db_parent_hash s = Some p ∧ reported cfg received p (ei_ltc_height i)) (ep_blocks r)) (epoch_handler a b c l o).
Proof.
  unfold epoch_handler. destruct (_ <? _); [done|]. destruct (_ <? _); [done|].
  eapply (promises_bind _ (λ r : list (Z * Z * Z * bytes) * Z, Forall (λ e, ∃ s p, good_block e.1.1 s ∧ e.2 = sb_hash_le s ∧
      db_parent_hash s = Some p ∧ vo_height vouch p e.1.2) r.1));
    [apply promises_on_db, secure_epoch_blocks|].
  intros [blocks total] Hb. cbn [fst] in Hb. apply promises_ret. cbn. apply Forall_fmap. eapply Forall_impl; [exact Hb|].
  intros [[[ci h] lt] hash] (s & p & Hg & Hh & Hp & Hr). exists s, p. cbn in *. by subst.
Qed.

Lemma promises_sibling_detail p inc :
  promises (λ r, ∃ pb, sd_parent_hash r = p ∧ le_of_display p = Ok pb ∧ height_ok vouch pb (sd_ltc_height r) ∧
    Forall (listed cfg received) (sd_siblings r))
    (sibling_detail_handler p inc).
Proof.
  unfold sibling_detail_handler.
  eapply (promises_bind _ (λ pb, le_of_display p = Ok pb)); [by destruct (le_of_display p)|]. intros pb Hpb.
  eapply promises_bind; [apply promises_parent|]. intros info Hinfo.
  eapply (promises_bind _ (λ sp, height_ok vouch pb (sp_ltc_height sp))); [apply promises_or_fail; by intros sp ->|]. intros sp Hsp.
  eapply (promises_bind _ (λ r : list StoredBlock * Z, Forall (λ b, good_block (block_key b) b) r.1));
    [apply promises_reads; intros db Hs; exact (sibling_range_good vouch pb _ db Hs)|].
  intros [siblings total] Hb. cbn [fst] in Hb. apply promises_ret. exists pb. split_and!; [done..|]. cbn. apply Forall_fmap.
  eapply Forall_impl; [exact Hb|]. intros b Hg. destruct (good_verified _ _ b Hg) as (q & _ & Hv). exists b.
  split_and!; [done|done|by exists (display_hex q)|]. cbn. intros w. destruct (default false inc); congruence.
Qed.

(** ** Co-settlement *)

Lemma promises_leg_height c o : promises (λ h, ∀ x, o = Some x → h = x) (leg_height c o).
Proof.
  unfold leg_height. destruct o as [x|]; [apply promises_ret; congruence|].
  eapply (promises_bind _ (λ _, True)); [by apply promises_reads|]. intros l _. by apply promises_or_fail.
Qed.

Lemma promises_cosettle_leg c h b p :
  db_parent_hash b = Some p → promises (leg_shown cfg received c h b) (cosettle_leg c h b (Some p)).
Proof.
  intros Hp. unfold cosettle_leg. assert (∃ a, aux (sb_header b) = Some a) as [a ->].
  { unfold db_parent_hash in Hp. destruct (aux (sb_header b)); [by eexists|done]. }
  eapply promises_bind; [eapply promises_try, secure_gives, secure_get_parent|]. intros info Hi.
  apply promises_ret. do 4 (split; [done|]). exists p. split_and!; [done..|].
  destruct info as [[sp|]|]; [|done..]. by apply (Hi (Some sp)).
Qed.

Lemma promises_cosettle q : promises (settled q) (cosettle_handler q).
Proof.
  unfold cosettle_handler.
  eapply promises_bind; [apply promises_leg_height|]. intros ha Hha.
  eapply promises_bind; [apply promises_leg_height|]. intros hb Hhb.
  eapply promises_bind; [apply promises_indexed|]. intros ba Hba.
  eapply promises_bind; [apply promises_indexed|]. intros bb Hbb.
  destruct (good_verified _ _ ba Hba) as (pa & Hpa & _). destruct (good_verified _ _ bb Hbb) as (pb & Hpb & _).
  rewrite Hpa, Hpb. cbv zeta.
  eapply (promises_bind _ (λ o : option (string * option Z * string), match o with
    | Some (p, lh, token) => pa = pb ∧ p = display_hex pa ∧ token = display_hex (cosettle_token q ha hb pa) ∧ height_ok vouch pa lh
    | None => pa ≠ pb
    end)).
  { case_bool_decide as Heq; [|by apply promises_ret]. subst pb.
    eapply promises_bind; [apply promises_parent|]. intros info Hi. by apply promises_ret. }
  intros shared Hshared. eapply promises_bind; [by apply promises_cosettle_leg|]. intros la Hla.
  eapply promises_bind; [by apply promises_cosettle_leg|]. intros lb Hlb. apply promises_ret.
  exists ha, hb, ba, bb. rewrite Hpa, Hpb. destruct shared as [[[p lh] token]|]; cbn; split_and!; try done.
  - by destruct Hshared as (-> & _).
  - destruct Hshared as (_ & -> & -> & Hlh). by exists pa.
  - split; [done|]. intros [= ->]. done.
Qed.

(** ** Intents *)

Lemma promises_list_intents now now' f t p l o :
  promises (λ r : Z * list SwapIntentMessage, Forall (λ i, validated i ∧ now' < expiry i) r.2)
    (list_swap_intents now now' f t p l o).
Proof.
  unfold list_swap_intents.
  eapply (promises_bind _ (λ r : list SwapIntentMessage * Z, Forall (λ i, validated i ∧ now' < expiry i) r.1));
    [apply promises_on_db, (secure_list_intents vouch)|].
  intros r Hr. by apply promises_ret.
Qed.

Lemma promises_create env now now' i : promises (λ _, validated i) (create_swap_intent env now now' i).
Proof.
  unfold create_swap_intent. eapply (promises_bind _ (λ _, True)); [apply promises_on_db, secure_gives, secure_chain_registry|]. intros known _.
  destruct (validate_swap_intent env now (registry_ids known) i) as [[]|e] eqn:Hv; [|done].
  assert (validated i) as Hi by (by exists env, now, (registry_ids known)).
  eapply (promises_bind _ (λ _, True)); [by apply promises_ret|]. intros _ _.
  eapply (promises_bind _ (λ _, True)); [by apply promises_on_db, secure_insert_intent|]. intros _ _.
  eapply promises_bind; [apply promises_with_p2p, broadcast_good|]. intros _ _. by apply promises_ret.
Qed.

(** ** The other handlers: what they leave *)

Lemma promises_chain_status c n e p i : promises (λ _, True) (chain_status c n e p i).
Proof.
  unfold chain_status. eapply (promises_bind _ (λ _, True)); [apply promises_on_db, secure_gives, secure_cursor_height|]. intros cu _.
  eapply (promises_bind _ (λ _, True)); [apply promises_on_db, secure_stats|]. intros st _. by apply promises_ret.
Qed.
Lemma promises_chains : promises (λ _, True) (chains_handler cfg).
Proof.
  unfold chains_handler. eapply promises_bind; [apply (promises_mapM _ (λ _ _, True)); intros; apply promises_chain_status|].
  intros ys _. eapply promises_bind; [apply (promises_mapM _ (λ _ _, True)); intros; apply promises_chain_status|].
  intros zs _. by apply promises_ret.
Qed.
Lemma promises_stats v u : promises (λ _, True) (stats_handler cfg v u).
Proof.
  unfold stats_handler. eapply (promises_bind _ (λ _, True)); [apply promises_on_db, secure_stats|]. intros st _.
  eapply promises_bind; [apply (promises_mapM _ (λ _ _, True))|]; [|intros ys _; by apply promises_ret].
  intros c _. unfold stats_chain. eapply promises_bind; [eapply promises_try, secure_gives, secure_cursor_height|]. intros cu _. by apply promises_ret.
Qed.
Lemma promises_broadcast i : promises (λ _, True) (p2p_broadcast_handler i).
Proof.
  unfold p2p_broadcast_handler. eapply promises_bind; [apply promises_with_p2p, broadcast_good|]. intros sent _.
  eapply promises_bind; [apply promises_get_app|]. intros s _. by destruct sent as [[]|]; destruct (as_p2p s).
Qed.
Lemma promises_p2p_status : promises (λ _, True) p2p_status_handler.
Proof. unfold p2p_status_handler. eapply promises_bind; [apply promises_get_app|]. intros s _. by destruct (as_p2p s). Qed.
Lemma promises_p2p_peers : promises (λ _, True) p2p_peers_handler.
Proof. unfold p2p_peers_handler. eapply promises_bind; [apply promises_get_app|]. intros s _. by destruct (as_p2p s). Qed.
Lemma promises_health v : promises (λ _, True) (health_handler cfg v).
Proof. unfold health_handler. eapply promises_bind; [apply promises_get_app|]. intros s _. by apply promises_ret. Qed.
Lemma promises_verify r : promises (λ _, True) (verify_handler cfg r).
Proof.
  unfold verify_handler. destruct (_ <? _); [done|].
  eapply (promises_bind _ (λ _, True)); [by destruct (hex_decode _)|]. intros w _.
  eapply (promises_bind _ (λ _, True)); [by apply promises_or_fail|]. intros pl _.
  eapply (promises_bind _ (λ _, True)); [by destruct (verify_wire_block _ _ _)|]. by intros [b rep] _.
Qed.

(** ** Every request *)

Lemma promises_as_body {A} (P : A → Prop) Q f (m : H A) : promises P m → (∀ a, P a → Q (f a)) → promises Q (as_body f m).
Proof. intros Hm Hf. eapply promises_bind; [exact Hm|]. intros a Ha. by apply promises_ret, Hf. Qed.

Lemma dispatch_promises e req : promises (answers cfg received e req) (dispatch cfg e req).
Proof.
  destruct req; cbn [dispatch answers]; (eapply promises_as_body;
    [first [apply promises_health|apply promises_chains|apply promises_siblings|apply promises_sibling_detail
      |apply promises_blocks|apply promises_block_detail|apply promises_proof|apply promises_epoch
      |apply promises_epoch_latest|apply promises_verify|apply promises_stats|apply promises_p2p_status
      |apply promises_p2p_peers|apply promises_broadcast|apply promises_list_intents|apply promises_create
      |apply promises_cosettle]|]); try done; naive_solver.
Qed.
End handlers.
