(* ===== verification/Threads.v ===== *)
(** * The tasks, one section at a time

    [Tasks] has what a task does between two of its calls; here each step is the
    sequence of its sections on what the tasks share: the set of announced parents,
    the store and the queue of the mesh.  The set is updated first, under its lock,
    and the parent and its siblings are read after it.  Run alone, the sections are
    the step; in any company they keep the store sound, publish nothing but honest
    announcements, queue one message at most, and end in a phase that is not a panic,
    but for the delay of a failed tick capped at the last [u64].  The last section is
    the intents from the mesh. *)

From S2P Require Export Answers.

#[local] Open Scope Z_scope.

(** ** The sections *)

(** The set of announced parents, and the state the handlers see too. *)
Definition Shared : Type := gset bytes * AppState.
Definition store_of (s : Shared) : Database := as_db s.2.

Fixpoint on_store {A} (p : Steps Database A) : Steps Shared A :=
  match p with
  | Finished r => Finished r
  | Step f k => Step (λ s : Shared, let '(b, db) := f (as_db s.2) in (b, (s.1, mkApp db (as_p2p s.2))))
                  (λ b, on_store (k b))
  end.

(** A message through the task's clone of the handle. *)
Definition publish_section `{GossipCodec} (a : Announcement) (s : Shared) : Shared :=
  (s.1, mkApp (as_db s.2) ((λ h, (announce a h).2) <$> as_p2p s.2)).

Definition liftR_steps {S A} (ctx : string) (r : Result string A) : Steps S A :=
  match r with Ok a => mret a | Err _ => stop (DbAnyhow ctx) end.

Section threads.
Context `{Sha256} `{HexCodec} `{Codec} `{GossipCodec}.
Context (config : Config) (chain : AuxChain) (p2p : bool) (node : Node).

Definition tick_steps (fails : Z) (p : Steps Database Phase) : Steps Shared Phase :=
  r ← attempt (on_store p);
  mret (match r with Ok ph => ph | Err e => after_error fails e end).

Definition start_cursor_steps : Steps Database Z :=
  cursor ← cursor_height_steps (ac_chain_id chain);
  match cursor with
  | Some c => mret c
  | None =>
      match (match ac_start_height chain with Some h => Some h | None => cfg_start_height config end) with
      | Some h => mret h
      | None => stop (DbAnyhow ("fresh DB: PSOB_START_HEIGHT must be set (or per-chain in PSOB_CHAINS) for chain "
                                +:+ ac_name chain +:+ " (" +:+ pretty (ac_chain_id chain) +:+ ")"))
      end
  end.

Definition poll_steps (fails : Z) : Steps Database Phase :=
  tip ← liftR_steps "tip_height" (tip_height node);
  cursor ← start_cursor_steps;
  if tip <? cursor then mret (Tip [] []) else
  let start := u64_saturating_add cursor 1 in
  let end_ := Z.min (u64_wrap (cursor + cfg_max_batch config)) tip in
  if end_ <? start then mret (Tip [] []) else
  items ← liftR_steps "fetch" (fetch node (window start end_));
  mret (Fetched fails cursor items).

Definition check_window_steps (fails cursor : Z) (items : list (Z * string * bytes)) : Steps Database Phase :=
  prev_hash ← (if cursor =? 0 then mret None
               else b ← block_at_steps (ac_chain_id chain) cursor; mret (sb_hash_le <$> b));
  let start := u64_saturating_add cursor 1 in
  let '(pending, stale) := walk chain prev_hash [] items in
  mret (match stale with
        | Some h => Rolling fails start pending h
        | None => Storing fails start pending
        end).

Definition prune_window_steps (last_ : Z) : Steps Database unit :=
  match cfg_max_kept_blocks config with
  | None => mret ()
  | Some max_kept =>
      let below := u64_saturating_add (saturating_sub last_ max_kept) 1 in
      if negb (1 <? below) then mret () else
      stats ← stats_steps;
      match c ← List.find (λ c, cs_chain_id c =? ac_chain_id chain) (st_chains stats);
            cs_min_height c with
      | Some min =>
          if min <? below then _ ← prune_before_steps (ac_chain_id chain) below; mret () else mret ()
      | None => mret ()
      end
  end.

(** [announce_batch_tip]: a block without a witness is a panic. *)
Definition announce_tip_steps (batch : IngestBatch) : Steps Shared unit :=
  match head batch, p2p with
  | None, _ | _, false => mret ()
  | Some h, true =>
      match parent_hash_of h with
      | None => stop DbPanic
      | Some parent =>
          p ← attempt (on_store (get_parent_steps parent));
          let ltc_height := match p with Ok (Some p) => sp_ltc_height p | _ => None end in
          writing (publish_section (AnnounceHeader (ac_chain_id chain) (sb_height h) (display_hash (sb_hash_le h))
                                      (display_hash parent) ltc_height (sb_wire_hex h)))
      end
  end.

(** [HashSet::insert] under the lock. *)
Definition first_time (parent : bytes) : Steps Shared bool :=
  Step (λ s : Shared, (bool_decide (parent ∉ s.1), ({[parent]} ∪ s.1, s.2))) (λ b, Finished (Ok b)).

Definition announce_group_steps (parent : bytes) : Steps Shared unit :=
  if negb p2p then mret () else
  first ← first_time parent;
  if negb first then mret () else
  info ← attempt (on_store (get_parent_steps parent));
  match info with
  | Ok (Some parent_info) =>
      match sp_ltc_height parent_info with
      | None => mret ()
      | Some ltc_height =>
          siblings ← on_store (siblings_for_parent_steps parent);
          if Z.of_nat (size (lowest_heights siblings)) <? 2 then mret () else
          writing (publish_section (AnnounceSibling (display_hash parent) ltc_height (announced_legs siblings)))
      end
  | _ => mret ()
  end.

(** A call after [ingest_chain]: a panic ends the task. *)
Definition announcing_steps (next : Phase) (p : Steps Shared unit) : Steps Shared Phase :=
  r ← attempt p; mret (match r with Ok _ => next | Err _ => Panicked end).

Definition task_steps (ph : Phase) : Steps Shared Phase :=
  match ph with
  | Idle n => tick_steps n (_ ← upsert_chain_steps (ac_chain_id chain) (ac_name chain) (ac_electrs chain); mret (Polling n))
  | Failing n => mret (after_failure config n)
  | Polling n => tick_steps n (poll_steps n)
  | Fetched n cursor items => tick_steps n (check_window_steps n cursor items)
  | Rolling n start pending h =>
      tick_steps n (_ ← rollback_from_steps (ac_chain_id chain) h; mret (Storing n start pending))
  | Storing n start [] => tick_steps n (mret (Listing n []))
  | Storing n start pending =>
      tick_steps n (_ ← insert_blocks_steps (insert_rows_of pending);
                    mret (Advancing n (default (saturating_sub start 1) (sb_height <$> last pending)) pending))
  | Advancing n last_ pending =>
      tick_steps n (_ ← set_cursor_height_steps (ac_chain_id chain) last_; mret (Pruning n last_ pending))
  | Pruning n last_ pending => tick_steps n (_ ← prune_window_steps last_; mret (Listing n pending))
  | Listing n pending =>
      tick_steps n (parents ← unclassified_parents_steps; mret (Classifying n pending parents []))
  | Classifying n pending [] found => tick_steps n (mret (Tip pending found))
  | Classifying n pending (p :: todo) found =>
      let ltc_height := match resolve_parent node p with Ok o => o | Err _ => None end in
      tick_steps n (_ ← classify_parent_steps p ltc_height;
                    mret (Classifying n pending todo (match ltc_height with Some _ => found ++ [p] | None => found end)))
  | Tip [] found => mret (Groups found)
  | Tip pending found => announcing_steps (Groups found) (announce_tip_steps (mkBatch pending found))
  | Groups [] => mret (Idle 0)
  | Groups (p :: found) => announcing_steps (Groups found) (announce_group_steps p)
  | Panicked => mret Panicked
  end.
End threads.

(** ** Run alone, the sections of a step are the step *)

Lemma run_on_store {A} (p : Steps Database A) (s : Shared) :
  run_steps (on_store p) s =
  ((run_steps p (as_db s.2)).1, (s.1, mkApp (run_steps p (as_db s.2)).2 (as_p2p s.2))).
Proof.
  revert s. induction p as [r|B f k IH]; intros s; cbn; [by destruct s as [? []]|].
  destruct (f (as_db s.2)) as [b db]. by rewrite IH.
Qed.
Lemma run_attempt_on_store {A B} (p : Steps Database A) (m : M A) (k : Result DbError A → Steps Shared B) (s : Shared) :
  is_call p m →
  run_steps (attempt (on_store p) ≫= k) s = run_steps (k (m (as_db s.2)).1) (s.1, mkApp (m (as_db s.2)).2 (as_p2p s.2)).
Proof. intros Hp. by rewrite run_steps_bind, run_attempt, run_on_store, !Hp. Qed.

(** The messages, onto the handle. *)
Definition publish_all_to `{GossipCodec} (msgs : list Announcement) (h : P2pHandle) : P2pHandle :=
  foldl (λ h a, (announce a h).2) h msgs.

Lemma announce_len `{GossipCodec} a h : len (ph_queue (announce a h).2) ≤ len (ph_queue h) + 1.
Proof.
  assert (∀ t p, len (ph_queue (publish_json t p h).2) ≤ len (ph_queue h) + 1) as Hp; [|destruct a; apply Hp].
  intros t p. unfold publish_json. destruct (ph_open h); cbn [snd ph_queue]; [rewrite len_app|]; unfold len; cbn; lia.
Qed.
Lemma publish_all_len `{GossipCodec} msgs h : len (ph_queue (publish_all_to msgs h)) ≤ len (ph_queue h) + len msgs.
Proof.
  revert h. induction msgs as [|a msgs IH]; intros h; [unfold len; cbn; lia|]. cbn [publish_all_to foldl].
  pose proof (IH (announce a h).2) as Hl. unfold publish_all_to in Hl. rewrite len_cons.
  pose proof (announce_len a h). lia.
Qed.

Section alone.
Context `{Sha256} `{HexCodec} `{Codec} `{GossipCodec}.
Context (config : Config) (chain : AuxChain) (p2p : bool) (node : Node).

(** The state after a step of [Tasks] that sent the messages. *)
Definition after_step (out : TaskState * list Announcement) (p2p_handle : option P2pHandle) : Result DbError Phase * Shared :=
  let '((ph, announced, db), msgs) := out in
  (Ok ph, (announced, mkApp db (publish_all_to msgs <$> p2p_handle))).

Lemma run_tick n (p : Steps Database Phase) (m : M Phase) announced app :
  is_call p m → run_steps (tick_steps n p) (announced, app) = after_step (Tasks.tick n m announced (as_db app)) (as_p2p app).
Proof.
  intros Hp. unfold tick_steps. rewrite (run_attempt_on_store _ m) by done. unfold Tasks.tick. cbn.
  destruct (m (as_db app)) as [[a|e] db]; cbn; by destruct (as_p2p app).
Qed.
Lemma run_tick_then {A} n (p : Steps Database A) (m : M A) (K : A → Phase) announced app :
  is_call p m → run_steps (tick_steps n (a ← p; mret (K a))) (announced, app)
    = after_step (Tasks.tick n (a ← m; mret (K a)) announced (as_db app)) (as_p2p app).
Proof. intros Hp. apply run_tick. apply is_call_bind; [done|]. intros a. apply is_call_ret. Qed.

Lemma is_call_liftR {A} ctx (r : Result string A) : is_call (liftR_steps ctx r) (liftR ctx r).
Proof. by destruct r. Qed.
Lemma is_call_start_cursor : is_call (start_cursor_steps config chain) (start_cursor config chain).
Proof.
  apply is_call_bind; [apply is_call_cursor_height|]. intros [c|]; [done|].
  destruct (ac_start_height chain); [done|]. by destruct (cfg_start_height config).
Qed.
Lemma is_call_poll n : is_call (poll_steps config chain node n) (poll config chain node n).
Proof.
  apply is_call_bind; [apply is_call_liftR|]. intros tip. apply is_call_bind; [apply is_call_start_cursor|]. intros cursor.
  destruct (_ <? _); [done|]. cbv zeta. destruct (_ <? _); [done|].
  apply is_call_bind; [apply is_call_liftR|]. done.
Qed.
Lemma is_call_check_window n cursor items : is_call (check_window_steps chain n cursor items) (check_window chain n cursor items).
Proof.
  apply is_call_bind.
  - destruct (_ =? _); [done|]. apply is_call_bind; [apply is_call_block_at|done].
  - intros prev. cbv zeta. by destruct (walk _ _ _ _).
Qed.
Lemma is_call_prune_window last_ : is_call (prune_window_steps config chain last_) (prune_window config chain last_).
Proof.
  intros db. unfold prune_window_steps, prune_window, prune_rows. destruct (cfg_max_kept_blocks config) as [k|]; [|done].
  cbv zeta. destruct (negb _); [done|]. rewrite run_steps_bind, run_stats. unfold mbind, M_bind, get_db.
  destruct (option_bind _ _ _ _) as [min|]; [|done]. destruct (_ <? _); [|done].
  etrans; [apply run_steps_bind|]. rewrite is_call_prune_before. by destruct (prune_before _ _ db) as [[?|?] ?].
Qed.

Lemma run_tip batch announced app :
  run_steps (announce_tip_steps chain p2p batch) (announced, app) =
  let '(r, db) := announce_batch_tip p2p chain batch (as_db app) in
  (match r with Ok _ => Ok () | Err e => Err e end,
   (announced, mkApp db (publish_all_to (option_list (default None (result_ok r))) <$> as_p2p app))).
Proof.
  unfold announce_tip_steps, announce_batch_tip. assert (∀ o : option P2pHandle, publish_all_to [] <$> o = o) as Hn by by intros [].
  destruct app as [db handle]. destruct (head batch) as [h|]; [|cbn; by rewrite Hn]. destruct p2p; [|cbn; by rewrite Hn].
  destruct (parent_hash_of h) as [p|]; [|cbn; by rewrite Hn]. rewrite (run_attempt_on_store _ (get_parent p)) by apply _.
  unfold mbind, M_bind, try. cbn. by destruct (get_parent p db).
Qed.

Lemma run_group p announced app :
  run_steps (announce_group_steps p2p p) (announced, app) =
  let '(r, db) := announce_sibling_group p2p announced p (as_db app) in
  (match r with Ok _ => Ok () | Err e => Err e end,
   (match r with Ok r => r.1 | Err _ => announced end,
    mkApp db (publish_all_to (match r with Ok r => option_list r.2 | Err _ => [] end) <$> as_p2p app))).
Proof.
  unfold announce_group_steps, announce_sibling_group. destruct app as [db handle].
  assert (∀ o : option P2pHandle, publish_all_to [] <$> o = o) as Hn by by intros [].
  destruct p2p; cbn [negb]; [|cbn; by rewrite Hn]. unfold first_time. cbn [run_steps mbind Steps_bind steps_bind fst snd].
  destruct (decide (p ∈ announced)) as [Hin|Hin].
  - rewrite bool_decide_false, bool_decide_true by tauto. cbn. rewrite Hn. do 2 f_equal. set_solver.
  - rewrite bool_decide_true, bool_decide_false by tauto. cbn [negb]. cbv zeta.
    etrans; [apply (run_attempt_on_store _ (get_parent p)), _|]. unfold mbind, M_bind, try, get_db. cbn [fst snd as_db as_p2p].
    destruct (get_parent p db) as [[[sp|]|e] db1]; cbn [fst snd]; [|by destruct handle..].
    destruct (sp_ltc_height sp) as [lh|]; [|by destruct handle].
    etrans; [apply run_steps_bind|]. rewrite run_on_store, run_siblings_for_parent. cbn [fst snd as_db as_p2p].
    destruct (_ <? 2); [by destruct handle|done].
Qed.

(** The sections of a step, one after the other, are the step. *)
Lemma run_task ph announced app :
  run_steps (task_steps config chain p2p node ph) (announced, app) =
  after_step (advance config chain p2p node ph announced (as_db app)) (as_p2p app).
Proof.
  assert (∀ o : option P2pHandle, publish_all_to [] <$> o = o) as Hn by by intros [].
  destruct ph as [n|n|n|n cursor items|n start pending h|n start pending|n last_ pending
    |n last_ pending|n pending|n pending todo found|pending found|found|]; cbn [task_steps advance].
  - apply run_tick_then, _.
  - cbn. rewrite Hn. by destruct app.
  - apply run_tick, is_call_poll.
  - apply run_tick, is_call_check_window.
  - apply run_tick_then, _.
  - destruct pending; [by apply run_tick|]. apply (run_tick_then _ _ _ (λ _, _)), _.
  - apply run_tick_then, _.
  - apply run_tick_then, is_call_prune_window.
  - apply run_tick. intros db. rewrite run_steps_bind, run_unclassified. done.
  - destruct todo; [by apply run_tick|]. apply (run_tick_then _ _ _ (λ _, _)), _.
  - destruct pending as [|b bs]; [cbn; rewrite Hn; by destruct app|]. unfold announcing_steps, announcing.
    rewrite run_steps_bind, run_attempt, run_tip. by destruct (announce_batch_tip _ _ _ _) as [[o|e] db].
  - destruct found as [|p found]; [cbn; rewrite Hn; by destruct app|]. unfold announcing_steps, announcing.
    rewrite run_steps_bind, run_attempt, run_group. by destruct (announce_sibling_group _ _ _ _) as [[o|e] db].
  - cbn. rewrite Hn. by destruct app.
Qed.
End alone.

(** ** The messages of a step

    How many messages are still to be queued, at most, whatever happens between the
    sections: one in each step of a task. *)

Definition queue_of (app : AppState) : list GossipMessage := from_option ph_queue [] (as_p2p app).

Fixpoint at_most {A} (n : nat) (p : Steps Shared A) : Prop :=
  match p with
  | Finished _ => True
  | Step f k =>
      ((∀ s, queue_of (f s).2.2 = queue_of s.2) ∧ ∀ b, at_most n (k b)) ∨
      ∃ m, n = S m ∧ (∀ s, len (queue_of (f s).2.2) ≤ len (queue_of s.2) + 1) ∧ ∀ b, at_most m (k b)
  end.

Lemma at_most_mono {A} (p : Steps Shared A) : ∀ n m, (n ≤ m)%nat → at_most n p → at_most m p.
Proof.
  induction p as [r|B f k IH]; intros n m Hle; [done|]. intros [[Hf Hk]|(n' & -> & Hf & Hk)].
  - left. split; [done|]. intros b. by eapply IH.
  - right. destruct m as [|m]; [lia|]. exists m. split_and!; [done..|]. intros b. eapply IH; [|apply Hk]. lia.
Qed.
Lemma at_most_bind {A B} (p : Steps Shared A) (k : A → Steps Shared B) m : ∀ n,
  at_most n p → (∀ a, at_most m (k a)) → at_most (n + m) (p ≫= k).
Proof.
  unfold mbind, Steps_bind. induction p as [[a|e]|C f l IH]; intros n Hp Hk; cbn [steps_bind].
  - eapply at_most_mono; [|apply Hk]. lia.
  - done.
  - destruct Hp as [[Hf Hl]|(n' & -> & Hf & Hl)].
    + left. split; [done|]. intros b. by apply IH.
    + right. exists (n' + m)%nat. split_and!; [done..|]. intros b. by apply IH.
Qed.
Lemma at_most_attempt {A} (p : Steps Shared A) : ∀ n, at_most n p → at_most n (attempt p).
Proof.
  induction p as [r|B f k IH]; intros n; [done|]. intros [[Hf Hk]|(m & -> & Hf & Hk)]; cbn [attempt at_most].
  - left. split; [done|]. intros b. by apply IH.
  - right. exists m. split_and!; [done..|]. intros b. by apply IH.
Qed.
Lemma at_most_store {A} (p : Steps Database A) : at_most 0 (on_store p).
Proof.
  induction p as [r|B f k IH]; [done|]. left. split; [|done]. intros s. cbn. by destruct (f (as_db s.2)).
Qed.

Section messages.
Context `{Sha256} `{HexCodec} `{Codec} `{GossipCodec}.
Context (config : Config) (chain : AuxChain) (p2p : bool) (node : Node).

Lemma at_most_publish a : at_most 1 (writing (publish_section a)).
Proof.
  right. exists 0%nat. split_and!; [done| |done]. intros [announced [db [h|]]]; [|cbn; lia]. apply announce_len.
Qed.
Lemma at_most_tick n p : at_most 1 (tick_steps n p).
Proof.
  apply (at_most_mono _ 0); [lia|]. apply (at_most_bind _ _ 0 0); [apply at_most_attempt, at_most_store|done].
Qed.
Lemma at_most_tip batch : at_most 1 (announce_tip_steps chain p2p batch).
Proof.
  unfold announce_tip_steps. destruct (head batch) as [b|]; [|done]. destruct p2p; [|done].
  destruct (parent_hash_of b); [|done]. eapply (at_most_bind _ _ 1 0); [apply at_most_attempt, at_most_store|].
  intros r. apply at_most_publish.
Qed.
Lemma at_most_group p : at_most 1 (announce_group_steps p2p p).
Proof.
  unfold announce_group_steps. destruct (negb p2p); [done|]. apply (at_most_bind _ _ 1 0); [by left|].
  intros first. destruct (negb first); [done|]. apply (at_most_bind _ _ 1 0); [apply at_most_attempt, at_most_store|].
  intros [[sp|]|e]; [|done..]. destruct (sp_ltc_height sp); [|done].
  apply (at_most_bind _ _ 1 0); [apply at_most_store|]. intros sibs. destruct (_ <? 2); [done|apply at_most_publish].
Qed.
Lemma at_most_announcing next p : at_most 1 p → at_most 1 (announcing_steps next p).
Proof. intros Hp. eapply (at_most_bind _ _ 0 1); [by apply at_most_attempt|done]. Qed.
Lemma at_most_task ph : at_most 1 (task_steps config chain p2p node ph).
Proof.
  destruct ph; cbn [task_steps]; try done; try apply at_most_tick.
  - destruct pending; apply at_most_tick.
  - destruct todo; apply at_most_tick.
  - destruct pending; [done|]. apply at_most_announcing, at_most_tip.
  - destruct found; [done|]. apply at_most_announcing, at_most_group.
Qed.
End messages.

(** ** In any company, a step ends well *)

Section company.
Context `{Sha256} `{HexCodec} `{Codec} `{GossipCodec}.
Context (vouch : Vouch) (config : Config) (chain : AuxChain) (p2p : bool) (node : Node).
Context (Htyped : typed config chain node) (Hlim : vo_limit vouch (ac_chain_id chain) = Some (ac_pow_limit_bits chain)).
Context (Hheights : ∀ p h, resolve_parent node p = Ok (Some h) → vo_height vouch p h).
Context (Hbackoff : 0 ≤ rt_base_backoff (cfg_retry config) ≤ rt_max_backoff (cfg_retry config)).

Definition accepted (b : StoredBlock) : Prop :=
  sb_chain_id b = ac_chain_id chain ∧ valid_stored (ac_pow_limit_bits chain) b.

(** What a task carries from step to step: payloads that fit in memory, and blocks
    that verified; it panics in a delay whose cap is the last [u64] only. *)
Definition phase_ok (ph : Phase) : Prop :=
  match ph with
  | Fetched _ _ items => Forall (λ i, len i.2 ≤ usize_max) items
  | Rolling _ _ pending _ | Storing _ _ pending | Advancing _ _ pending | Pruning _ _ pending
  | Listing _ pending | Classifying _ pending _ _ | Tip pending _ => Forall accepted pending
  | Idle _ | Failing _ | Polling _ | Groups _ => True
  | Panicked => u64_max ≤ rt_max_backoff (cfg_retry config)
  end.

(** The store is sound, the messages in the queue are honest, and there is a handle
    when the task has one. *)
Definition good_shared (s : Shared) : Prop := good_app vouch s.2 ∧ bool_decide (is_Some (as_p2p s.2)) = p2p.

Lemma secure_on_store {A} Q (p : Steps Database A) : secure (sound vouch) Q p → secure good_shared Q (on_store p).
Proof.
  induction p as [r|B f k IH]; [done|]. intros Hp s [[Hs Hh] Hmesh]. destruct (Hp _ Hs) as [Hs' Hk].
  destruct (f (as_db s.2)) as [b db]. split; [by split|by apply IH].
Qed.

Lemma walk_accepted items : ∀ prev pending,
  Forall (λ i, len i.2 ≤ usize_max) items → Forall accepted pending →
  Forall accepted (walk chain prev pending items).1.
Proof.
  induction items as [|[[h locator] wire] items IH]; intros prev pending Hi Hp; [done|].
  apply Forall_cons in Hi as [Hw Hi]. cbn [walk]. destruct (check_wire chain locator wire) as [[id b]|] eqn:Hc; [|done].
  destruct (match prev with Some p => _ | None => _ end); [done|]. apply IH; [done|].
  apply Forall_app. split; [done|]. constructor; [|constructor]. split; [done|].
  by apply (check_wire_valid chain locator wire id b h Hw Hc).
Qed.

Lemma insert_rows_good pending :
  Forall accepted pending → Forall (λ r, good_block vouch r.1 r.2) (insert_rows_of pending).
Proof.
  intros Hp. unfold insert_rows_of. apply Forall_fmap. eapply Forall_impl; [exact Hp|].
  intros b [Hc Hv]. split; [done|]. cbn. rewrite Hc. by eexists.
Qed.

Lemma after_failure_ok n : phase_ok (after_failure config n).
Proof.
  unfold after_failure. destruct (backoff_delay config n 0) as [d|] eqn:Hd; [done|]. cbn.
  destruct (decide (rt_max_backoff (cfg_retry config) < u64_max)) as [Hlt|]; [|lia].
  destruct (backoff_delay_Some config n 0) as [d Hs]; [lia..|congruence].
Qed.
Lemma after_error_ok n e : e ≠ DbPanic → phase_ok (after_error n e).
Proof. by destruct e. Qed.
Lemma secure_tick n p :
  secure (sound vouch) (may phase_ok) p → secure good_shared (gives phase_ok) (tick_steps n p).
Proof.
  intros Hp. eapply secure_gives_bind; [by apply secure_attempt, secure_on_store|].
  intros [ph|e] Hr; [done|]. by apply after_error_ok.
Qed.
Lemma secure_tick_then {A} n (p : Steps Database A) (K : A → Phase) :
  secure (sound vouch) (may (λ _, True)) p → (∀ a, phase_ok (K a)) →
  secure good_shared (gives phase_ok) (tick_steps n (a ← p; mret (K a))).
Proof. intros Hp HK. apply secure_tick. eapply secure_may_bind; [exact Hp|]. intros a _. apply HK. Qed.

Lemma secure_liftR {A} (P : A → Prop) ctx (r : Result string A) :
  (∀ a, r = Ok a → P a) → secure (sound vouch) (may P) (liftR_steps ctx r).
Proof. destruct r; intros Hr; [by apply Hr|done]. Qed.
Lemma secure_start_cursor : secure (sound vouch) (may (λ _, True)) (start_cursor_steps config chain).
Proof.
  eapply secure_gives_bind; [apply secure_cursor_height|]. intros [c|] _; [done|].
  destruct (ac_start_height chain); [done|]. by destruct (cfg_start_height config).
Qed.
Lemma secure_poll n : secure (sound vouch) (may phase_ok) (poll_steps config chain node n).
Proof.
  eapply secure_may_bind; [by apply (secure_liftR (λ _, True))|]. intros tip _.
  eapply secure_may_bind; [apply secure_start_cursor|]. intros cursor _.
  destruct (_ <? _); [constructor|]. cbv zeta. destruct (_ <? _); [constructor|].
  eapply secure_may_bind; [apply (secure_liftR (λ items, Forall (λ i, len i.2 ≤ usize_max) items))|done].
  intros items (_ & _ & Hi)%(fetch_items config chain node _ _ Htyped). done.
Qed.
Lemma secure_check_window n cursor items :
  Forall (λ i, len i.2 ≤ usize_max) items → secure (sound vouch) (may phase_ok) (check_window_steps chain n cursor items).
Proof.
  intros Hi. eapply (secure_may_bind _ (λ _, True)).
  - destruct (_ =? _); [done|]. eapply secure_gives_bind; [apply secure_block_at|done].
  - intros prev _. cbv zeta. pose proof (walk_accepted items prev [] Hi (Forall_nil_2 _)) as Hw.
    destruct (walk chain prev [] items) as [pending [h|]]; exact Hw.
Qed.
Lemma secure_prune_window last_ : secure (sound vouch) (may (λ _, True)) (prune_window_steps config chain last_).
Proof.
  unfold prune_window_steps. destruct (cfg_max_kept_blocks config); [|done]. cbv zeta. destruct (negb _); [done|].
  eapply secure_may_bind; [apply secure_stats|]. intros st _. destruct (mbind _ _); [|done]. destruct (_ <? _); [|done].
  eapply secure_may_bind; [apply secure_prune_before|done].
Qed.

(** Every announced leg is a sibling, and every chain of the siblings has a leg. *)
Lemma legs_siblings sibs leg :
  leg ∈ announced_legs sibs → ∃ s, s ∈ sibs ∧ leg = (sb_chain_id s, sb_height s, display_hash (sb_hash_le s)).
Proof.
  unfold announced_legs. intros (s & Hs & Hleg)%list_elem_of_omap. case_bool_decide; [|done]. injection Hleg as <-. by exists s.
Qed.
Lemma siblings_legs sibs s :
  s ∈ sibs → ∃ leg, leg ∈ announced_legs sibs ∧ leg.1.1 = sb_chain_id s.
Proof.
  intros Hs. pose proof (add_legs_spec None sibs (sb_chain_id s)) as Hl. fold (lowest_heights sibs) in Hl.
  destruct (lowest_heights sibs !! sb_chain_id s) as [h|] eqn:Hh; [|by destruct (Hl eq_refl s Hs)].
  destruct Hl as (_ & (b & Hb & Hc & Hbh) & _). exists (sb_chain_id b, sb_height b, display_hash (sb_hash_le b)).
  split; [|done]. unfold announced_legs. apply list_elem_of_omap. exists b. split; [done|].
  rewrite bool_decide_true; [done|]. by rewrite Hc, Hh, Hbh.
Qed.

Lemma publish_section_good a s : honest_announcement vouch a → good_shared s → good_shared (publish_section a s).
Proof.
  intros Ha [[Hs Hh] Hmesh]. destruct s as [announced [db [h|]]]; [|by split; [split|]]. cbn in *. split; [|done].
  split; [done|]. intros ? [= <-]. apply announce_good; [done|]. by apply Hh.
Qed.

Lemma secure_publish a : honest_announcement vouch a → secure good_shared (gives (λ _, True)) (writing (publish_section a)).
Proof. intros Ha s Hs. split; [by apply publish_section_good|done]. Qed.

Lemma secure_tip batch :
  Forall accepted (batch_blocks batch) → secure good_shared (gives (λ _, True)) (announce_tip_steps chain p2p batch).
Proof.
  intros Hp. unfold announce_tip_steps. destruct (head batch) as [b|] eqn:Hh; [|done].
  destruct p2p; [|done]. unfold head in Hh. apply last_Some in Hh as [l Hl]. rewrite Hl in Hp.
  apply Forall_app in Hp as [_ Hp]. apply Forall_cons in Hp as [[Hc Hv] _].
  pose proof Hv as (wire & a & _ & _ & _ & Ha & _). unfold parent_hash_of, db_parent_hash. rewrite Ha. cbn [fmap option_fmap option_map].
  eapply secure_gives_bind; [by apply secure_attempt, secure_on_store, (secure_gives (sound vouch)), secure_get_parent|].
  intros r Hr. apply secure_publish.
  exists b, (sha256d (parent_header a)). split_and!; try done.
  - split; [by unfold block_key; rewrite Hc|]. by eexists.
  - unfold db_parent_hash. by rewrite Ha.
  - destruct r as [[sp|]|e]; [by apply Hr|done..].
Qed.

Lemma group_honest p lh sibs :
  vo_height vouch p lh → Forall (λ b, good_block vouch (block_key b) b) sibs → 2 ≤ Z.of_nat (size (lowest_heights sibs)) →
  honest_announcement vouch (AnnounceSibling (display_hash p) lh (announced_legs sibs)).
Proof.
  intros Hlh Hs Hsize. split; [|split]; [by exists p| |].
  - destruct (proj1 (two_lowest_heights sibs) Hsize) as (b & b' & Hb & Hb' & Hne).
    destruct (siblings_legs sibs b Hb) as (l & Hl & Hc). destruct (siblings_legs sibs b' Hb') as (l' & Hl' & Hc').
    exists l, l'. split_and!; [done..|congruence].
  - apply Forall_forall. intros leg (s & Hin & ->)%legs_siblings. exists s. split; [|done].
    rewrite Forall_forall in Hs. by apply Hs.
Qed.

Lemma secure_siblings p :
  secure (sound vouch) (gives (Forall (λ b, good_block vouch (block_key b) b))) (siblings_for_parent_steps p).
Proof.
  apply secure_reading. intros db Hs. destruct (cache_siblings db !! p) as [l|] eqn:Hl.
  - cbn. eapply Forall_impl; [by eapply so_siblings|]. by intros b [? _].
  - intros db' Hs'. split; [done|]. cbn. by apply sibling_range_good.
Qed.
Lemma secure_group p : secure good_shared (gives (λ _, True)) (announce_group_steps p2p p).
Proof.
  unfold announce_group_steps. destruct (negb _); [done|].
  apply (secure_gives_bind _ (λ _, True)); [by intros s Hs|]. intros first _. destruct (negb _); [done|].
  eapply secure_gives_bind; [by apply secure_attempt, secure_on_store, (secure_gives (sound vouch)), secure_get_parent|].
  intros [[sp|]|e] Hr; [|done..]. destruct (sp_ltc_height sp) as [lh|] eqn:Hlh; [|done].
  eapply secure_gives_bind; [apply secure_on_store, secure_siblings|]. intros sibs Hs.
  destruct (_ <? 2) eqn:Hsize; [done|]. reflect_bools. apply secure_publish, group_honest; [|done|lia]. by apply (Hr sp).
Qed.

Lemma secure_announcing next (p : Steps Shared unit) :
  secure good_shared (gives (λ _, True)) p → phase_ok next → secure good_shared (gives phase_ok) (announcing_steps next p).
Proof.
  intros Hp Hn. unfold announcing_steps. induction p as [[a|e]|B f k IH]; [done..|].
  intros s Hs. destruct (Hp s Hs) as [Hs' Hk]. split; [done|by apply IH].
Qed.

(** Whatever happens between its sections, a step of a task keeps the store sound
    and its messages honest, and the task panics in no call. *)
Lemma secure_task ph : phase_ok ph → secure good_shared (gives phase_ok) (task_steps config chain p2p node ph).
Proof.
  intros Hph. destruct ph as [n|n|n|n cursor items|n start pending h|n start pending|n last_ pending
    |n last_ pending|n pending|n pending todo found|pending found|found|]; cbn [task_steps].
  - apply secure_tick_then; [apply secure_upsert_chain|done].
  - apply after_failure_ok.
  - apply secure_tick, secure_poll.
  - by apply secure_tick, secure_check_window.
  - apply secure_tick_then; [apply secure_rollback_from|done].
  - destruct pending as [|b bs]; [by apply secure_tick|].
    apply secure_tick_then; [by apply secure_insert_blocks, insert_rows_good|done].
  - apply secure_tick_then; [apply secure_set_cursor_height|done].
  - apply secure_tick_then; [apply secure_prune_window|done].
  - apply secure_tick_then; [apply secure_unclassified|done].
  - destruct todo as [|p todo]; [by apply secure_tick|]. apply secure_tick_then; [|done].
    apply secure_classify_parent. intros h. destruct (resolve_parent node p) as [o|] eqn:Hr; [|done].
    intros ->. by apply Hheights.
  - destruct pending as [|b bs]; [done|]. by apply secure_announcing; [apply secure_tip|].
  - destruct found as [|p found]; [done|]. by apply secure_announcing; [apply secure_group|].
  - done.
Qed.

(** ** A task that runs alone comes back to its poll *)

Context (Hmax : rt_max_backoff (cfg_retry config) < u64_max).

Lemma advance_ok ph announced app :
  phase_ok ph → good_shared (announced, app) →
  let '((ph', announced', db'), msgs) := advance config chain p2p node ph announced (as_db app) in
  phase_ok ph' ∧ good_shared (announced', mkApp db' (publish_all_to msgs <$> as_p2p app)).
Proof.
  intros Hph Hs. destruct (secure_run _ _ _ _ (secure_task ph Hph) Hs) as [Hs' Hph']. rewrite run_task in Hs', Hph'.
  by destruct (advance _ _ _ _ _ _ _) as [[[ph' announced'] db'] msgs].
Qed.

Definition comes_back (ph : Phase) : Prop := phase_ok ph → ∀ announced app, good_shared (announced, app) →
  ∃ msgs n announced' db', goes config chain p2p node (ph, announced, as_db app) msgs (Idle n, announced', db').

Lemma comes_back_step ph :
  (∀ announced db, comes_back (advance config chain p2p node ph announced db).1.1.1) → comes_back ph.
Proof.
  intros Hs Hph announced app Happ. specialize (Hs announced (as_db app)). pose proof (advance_ok ph announced app Hph Happ) as Hok.
  destruct (advance config chain p2p node ph announced (as_db app)) as [[[ph' announced1] db1] msgs1] eqn:Hadv.
  destruct Hok as [Hph' Happ']. destruct (Hs Hph' _ _ Happ') as (msgs & n & announced2 & db2 & Hg).
  eexists _, n, announced2, db2. eapply goes_step; [exact Hadv|exact Hg].
Qed.
Lemma comes_back_idle n : comes_back (Idle n).
Proof. intros _ announced app _. eexists _, n, announced, _. apply goes_refl. Qed.

Lemma comes_back_panicked : comes_back Panicked.
Proof. intros Hp. cbn in Hp. lia. Qed.
Lemma comes_back_failing n : comes_back (Failing n).
Proof.
  apply comes_back_step. intros announced db. cbn. unfold after_failure.
  destruct (backoff_delay config n 0); [apply comes_back_idle|apply comes_back_panicked].
Qed.

Lemma comes_back_tick n (m : M Phase) ph :
  (∀ announced db, advance config chain p2p node ph announced db = Tasks.tick n m announced db) →
  (∀ db ph' db', m db = (Ok ph', db') → comes_back ph') → comes_back ph.
Proof.
  intros Hadv Hm. apply comes_back_step. intros announced db. rewrite Hadv. unfold Tasks.tick.
  destruct (m db) as [[ph'|e] db1] eqn:E; [by eapply Hm|].
  destruct e; solve [apply comes_back_failing | apply comes_back_panicked].
Qed.
Lemma comes_back_then {A} n (m : M A) (K : A → Phase) ph :
  (∀ announced db, advance config chain p2p node ph announced db = Tasks.tick n (a ← m; mret (K a)) announced db) →
  (∀ a, comes_back (K a)) → comes_back ph.
Proof.
  intros Hadv HK. eapply comes_back_tick; [exact Hadv|].
  intros db ph' db' (a & db1 & _ & [= <- _])%M_bind_Ok. apply HK.
Qed.

Lemma comes_back_groups found : comes_back (Groups found).
Proof.
  induction found as [|p found IH]; apply comes_back_step; intros announced db; cbn [advance]; [apply comes_back_idle|].
  unfold announcing. destruct (announce_sibling_group p2p announced p db) as [[a|e] db1]; [exact IH|apply comes_back_panicked].
Qed.
Lemma comes_back_tip pending found : comes_back (Tip pending found).
Proof.
  apply comes_back_step. intros announced db. destruct pending as [|b bs]; cbn [advance]; [apply comes_back_groups|].
  unfold announcing. destruct (announce_batch_tip _ _ _ db) as [[a|e] db1]; [apply comes_back_groups|apply comes_back_panicked].
Qed.
Lemma comes_back_classifying n pending todo : ∀ found, comes_back (Classifying n pending todo found).
Proof.
  induction todo as [|p todo IH]; intros found.
  - apply (comes_back_tick n (mret (Tip pending found))); [done|]. intros db ph' db' [= <- _]. apply comes_back_tip.
  - eapply comes_back_then; [intros ? ?; reflexivity|]. intros ?. apply IH.
Qed.
Lemma comes_back_listing n pending : comes_back (Listing n pending).
Proof.
  apply (comes_back_then n get_db (λ db, Classifying n pending (unclassified_parents db) [])); [done|].
  intros db. apply comes_back_classifying.
Qed.
Lemma comes_back_pruning n last_ pending : comes_back (Pruning n last_ pending).
Proof. eapply comes_back_then; [intros ? ?; reflexivity|]. intros ?. apply comes_back_listing. Qed.
Lemma comes_back_advancing n last_ pending : comes_back (Advancing n last_ pending).
Proof. eapply comes_back_then; [intros ? ?; reflexivity|]. intros ?. apply comes_back_pruning. Qed.
Lemma comes_back_storing n start pending : comes_back (Storing n start pending).
Proof.
  destruct pending as [|b bs].
  - apply (comes_back_tick n (mret (Listing n []))); [done|]. intros db ph' db' [= <- _]. apply comes_back_listing.
  - eapply comes_back_then; [intros ? ?; reflexivity|]. intros ?. apply comes_back_advancing.
Qed.
Lemma comes_back_rolling n start pending h : comes_back (Rolling n start pending h).
Proof. eapply comes_back_then; [intros ? ?; reflexivity|]. intros ?. apply comes_back_storing. Qed.
Lemma comes_back_fetched n cursor items : comes_back (Fetched n cursor items).
Proof.
  apply (comes_back_tick n (check_window chain n cursor items)); [done|]. intros db ph' db' Hw.
  unfold check_window in Hw. apply M_bind_Ok in Hw as (prev & db1 & _ & Hw). cbv zeta in Hw.
  destruct (walk chain prev [] items) as [pending [h|]]; injection Hw as <- _;
    [apply comes_back_rolling|apply comes_back_storing].
Qed.
Lemma phase_comes_back ph : comes_back ph.
Proof.
  destruct ph as [n|n|n|n cursor items|n start pending h|n start pending|n last_ pending
    |n last_ pending|n pending|n pending todo found|pending found|found|].
  - apply comes_back_idle.
  - apply comes_back_failing.
  - apply (comes_back_tick n (poll config chain node n)); [done|].
    intros db ph' db' [->|(cursor & items & ->)]%poll_cases; [apply comes_back_tip|apply comes_back_fetched].
  - apply comes_back_fetched.
  - apply comes_back_rolling.
  - apply comes_back_storing.
  - apply comes_back_advancing.
  - apply comes_back_pruning.
  - apply comes_back_listing.
  - apply comes_back_classifying.
  - apply comes_back_tip.
  - apply comes_back_groups.
  - apply comes_back_panicked.
Qed.
End company.

(** ** The intents from the mesh *)

Section mesh.
Context `{Sha256} `{HexCodec} `{Secp256k1} `{Codec} `{GossipCodec}.

Definition inbound_steps (env : option string) (now now' : Z) (data : bytes) : Steps Database unit :=
  match de_intent data with
  | None => mret ()
  | Some intent =>
      registry ← chain_registry_steps;
      match validate_swap_intent env now (registry_ids registry) intent with
      | Err _ => mret ()
      | Ok _ => _ ← attempt (insert_intent_steps now' intent); mret ()
      end
  end.

(** A turn of the swarm: what it does to the swarm at once, and to the store. *)
Definition swarm_moves (i : SwarmInput) (sw : Swarm) : Swarm :=
  let h := sw_handle sw in
  match i with
  | Recv published =>
      match ph_queue h with
      | [] => sw
      | msg :: queue =>
          mkSwarm (mkHandle (ph_open h) queue (ph_status h))
            (if published : bool then sw_published sw ++ [msg] else sw_published sw) (sw_explicit sw)
      end
  | Event e =>
      mkSwarm (mkHandle (ph_open h) (ph_queue h) (status_event e (ph_status h))) (sw_published sw)
        (match e with MdnsDiscovered l => sw_explicit sw ++ l.*1 | _ => sw_explicit sw end)
  end.
Definition swarm_steps (env : option string) (now now' : Z) (i : SwarmInput) : Steps Database unit :=
  match i with
  | Event (GossipsubMessage topic data) =>
      if bool_decide (topic = TOPIC_INTENTS) then inbound_steps env now now' data else mret ()
  | _ => mret ()
  end.

Lemma run_inbound env now now' data db :
  run_steps (inbound_steps env now now' data) db =
  let '(r, db') := inbound_intent env now now' data db in (match r with Ok _ => Ok () | Err e => Err e end, db').
Proof.
  unfold inbound_steps, inbound_intent. destruct (de_intent data) as [i|]; [|done].
  rewrite run_steps_bind, is_query_run. unfold mbind, M_bind, get_db, known_chain_ids. cbn [fst snd].
  destruct (validate_swap_intent _ _ _ i); [|done]. etrans; [apply run_steps_bind|]. rewrite run_attempt, is_call_insert_intent.
  unfold try. by destruct (insert_intent now' i db).
Qed.

(** Without interference it is the turn. *)
Lemma swarm_turn_steps env now now' i sw db :
  swarm_turn env now now' i sw db = (Ok (swarm_moves i sw), (run_steps (swarm_steps env now now' i) db).2).
Proof.
  destruct i as [published|e]; cbn [swarm_turn swarm_moves swarm_steps].
  - by destruct (ph_queue (sw_handle sw)).
  - destruct e; cbn [swarm_event status_event]; try (by destruct sw as [[]]).
    case_bool_decide; [|by destruct sw as [[]]]. rewrite run_inbound. unfold mbind, M_bind.
    pose proof (inbound_intent env now now' data db) as _. destruct (inbound_intent env now now' data db) as [[o|e] db'] eqn:Hi;
      [done|]. unfold inbound_intent in Hi. destruct (de_intent data); [|done]. unfold mbind, M_bind, get_db, try in Hi.
    destruct (validate_swap_intent _ _ _ _); [|done]. by destruct (insert_intent _ _ db) as [[?|?] ?].
Qed.

Lemma secure_inbound vouch env now now' data :
  (∀ env now known i, validate_swap_intent env now known i = Ok () → vo_intent vouch i) →
  secure (sound vouch) (gives (λ _, True)) (inbound_steps env now now' data).
Proof.
  intros Hv. unfold inbound_steps. destruct (de_intent data) as [i|]; [|done].
  eapply secure_gives_bind; [apply secure_chain_registry|]. intros registry _.
  destruct (validate_swap_intent _ _ _ i) as [[]|e] eqn:Hi; [|done].
  eapply secure_gives_bind; [by eapply secure_attempt, secure_insert_intent, Hv|done].
Qed.
Lemma secure_swarm vouch env now now' i :
  (∀ env now known i, validate_swap_intent env now known i = Ok () → vo_intent vouch i) →
  secure (sound vouch) (gives (λ _, True)) (swarm_steps env now now' i).
Proof.
  intros Hv. destruct i as [|e]; [done|]. destruct e; try done. cbn [swarm_steps]. destruct (bool_decide _); [|done].
  by apply secure_inbound.
Qed.
End mesh.
