(* ===== verification/Process.v ===== *)
(** * The process, with everything that can happen to it

    [src/main.rs] at the granularity of a section of the shared state: an operation
    on one entry of a map, a transaction, a message into the queue of the mesh.  The
    ingest tasks of the chains, the swarm and the requests in flight step in any
    order; a section that queues a message waits for a slot of the channel; any
    transaction may fail; the process may stop between any two sections, in the
    middle of a call of the database too, and open the database again.  The
    theorems of [Served]: every answer is backed by blocks that verified, and so is
    every message published. *)

From S2P Require Export Threads.

#[local] Open Scope Z_scope.

(** ** The process *)

(** A request that passed the gate, and what is left of its handler. *)
Record InFlight := mkInFlight { fl_env : RequestEnv; fl_request : ApiRequest; fl_handler : H ApiBody }.

(** What the tasks and the handlers share; what is left of the step of each task, and
    of the message the swarm is at; the requests. *)
Record ProcessState := mkProcess {
  ps_db : Database;
  ps_announced : gset bytes;
  ps_tasks : Z → Steps Shared Phase;
  ps_swarm : option Swarm;
  ps_gossip : Steps Database unit;
  ps_buckets : Buckets;
  ps_requests : list InFlight
}.
(** The tasks by chain; one that was spawned and has not run is before its first tick. *)
Definition spawned : Z → Steps Shared Phase := λ _, mret (Idle 0).
Definition set_task (id : Z) (left : Steps Shared Phase) (tasks : Z → Steps Shared Phase) : Z → Steps Shared Phase :=
  λ c, if decide (c = id) then left else tasks c.
Definition task_of (s : ProcessState) (chain : AuxChain) : Steps Shared Phase := ps_tasks s (ac_chain_id chain).
Definition has_mesh (s : ProcessState) : bool := bool_decide (is_Some (ps_swarm s)).

Definition ps_app (s : ProcessState) : AppState := mkApp (ps_db s) (sw_handle <$> ps_swarm s).
Definition ps_shared (s : ProcessState) : Shared := (ps_announced s, ps_app s).
Definition set_handle (h : option P2pHandle) (sw : option Swarm) : option Swarm :=
  match sw, h with Some sw, Some h => Some (mkSwarm h (sw_published sw) (sw_explicit sw)) | _, _ => sw end.
(** The process after a section of a handler, and of a task. *)
Definition after_call (app : AppState) (requests : list InFlight) (s : ProcessState) : ProcessState :=
  mkProcess (as_db app) (ps_announced s) (ps_tasks s) (set_handle (as_p2p app) (ps_swarm s)) (ps_gossip s) (ps_buckets s)
    requests.
Definition after_section (shared : Shared) (chain : AuxChain) (left : Steps Shared Phase) (s : ProcessState) : ProcessState :=
  mkProcess (as_db shared.2) shared.1 (set_task (ac_chain_id chain) left (ps_tasks s)) (set_handle (as_p2p shared.2) (ps_swarm s))
    (ps_gossip s) (ps_buckets s) (ps_requests s).

(** A section that would queue a message waits when the channel has no slot. *)
Definition waits (before after : AppState) : Prop :=
  ∃ h h', as_p2p before = Some h ∧ as_p2p after = Some h' ∧ ph_queue h' ≠ ph_queue h ∧ has_slot h = false.

Section process.
Context `{Sha256} `{HexCodec} `{Secp256k1} `{Codec} `{GossipCodec} `{ErrorText} `{DecodeSummary}.
Context (parse_ip : string → option string) (cfg : Config) (received : Log).
Abbreviation vouch := (vouch_of cfg received).

(** The task of a chain goes on to its next step, with what its node answers, or
    through the next section of the one it is at. *)
Inductive task_runs (chain : AuxChain) (node : Node) : ProcessState → ProcessState → Prop :=
  | task_turn s ph :
      task_of s chain = Finished (Ok ph) →
      task_runs chain node s (after_section (ps_shared s) chain (task_steps cfg chain (has_mesh s) node ph) s)
  | task_section s B (f : Shared → B * Shared) k b shared :
      task_of s chain = Step f k → f (ps_shared s) = (b, shared) → ¬ waits (ps_app s) shared.2 →
      task_runs chain node s (after_section shared chain (k b) s).

(** [main] on the tables [d]: it opens them, registers the known chains, starts the
    swarm, or goes on without it, and spawns the tasks. *)
Definition starts (d : Disk) (s : ProcessState) : Prop :=
  ∃ fs db db' id parses binds, open d false = Ok db ∧ register_known cfg (set_faults fs db) = (Ok (), db') ∧
    s = mkProcess db' ∅ spawned (fst <$> start_p2p_swarm id parses binds (cfg_p2p cfg)) (mret ()) ∅ [].
(** It may fail before that, and be started again. *)
Inductive boots : Disk → ProcessState → Prop :=
  | boots_up d s : starts d s → boots d s
  | boots_again d fs db e db' s :
      open d false = Ok db → register_known cfg (set_faults fs db) = (Err e, db') → boots (disk db') s → boots d s.

(** Everything that can happen, when [received] is all that the process received
    from the explorers. *)
Inductive executing : ProcessState → Prop :=
  | exec_start s : boots empty_disk s → executing s
  | exec_task s chain node s' :
      executing s → chain ∈ cfg_chains cfg → uplink cfg received node → task_runs chain node s s' → executing s'
  | exec_turn s env now now' i sw :
      executing s → ps_swarm s = Some sw → ps_gossip s = mret () →
      executing (mkProcess (ps_db s) (ps_announced s) (ps_tasks s) (Some (swarm_moves i sw))
                   (swarm_steps env now now' i) (ps_buckets s) (ps_requests s))
  | exec_gossip s B (f : Database → B * Database) k b db :
      executing s → ps_gossip s = Step f k → f (ps_db s) = (b, db) →
      executing (mkProcess db (ps_announced s) (ps_tasks s) (ps_swarm s) (k b) (ps_buckets s) (ps_requests s))
  | exec_arrive s e time http req verdict buckets :
      executing s → security_middleware parse_ip cfg time http (ps_buckets s) = (verdict, buckets) →
      executing (mkProcess (ps_db s) (ps_announced s) (ps_tasks s) (ps_swarm s) (ps_gossip s) buckets
                   (match verdict with
                    | Pass => mkInFlight e req (dispatch cfg e req) :: ps_requests s
                    | Unauthorized | RateLimited => ps_requests s
                    end))
  | exec_call s before after e req B (f : AppState → B * AppState) k b app :
      executing s → ps_requests s = before ++ mkInFlight e req (Call f k) :: after → f (ps_app s) = (b, app) →
      ¬ waits (ps_app s) app →
      executing (after_call app (before ++ mkInFlight e req (k b) :: after) s)
  | exec_leave s before fl after :
      executing s → ps_requests s = before ++ fl :: after →
      executing (after_call (ps_app s) (before ++ after) s)
  | exec_transactions s fs :
      executing s →
      executing (mkProcess (set_faults fs (ps_db s)) (ps_announced s) (ps_tasks s) (ps_swarm s) (ps_gossip s) (ps_buckets s)
                   (ps_requests s))
  | exec_restart s s' : executing s → boots (disk (ps_db s)) s' → executing s'.

(** ** The invariant *)

Definition good_swarm (sw : Swarm) : Prop := good_handle vouch (sw_handle sw) ∧ Forall (honest vouch) (sw_published sw).
Definition backed (fl : InFlight) : Prop := promises vouch (answers cfg received (fl_env fl) (fl_request fl)) (fl_handler fl).
(** What is left of a step of the task. *)
Definition task_ok (mesh : bool) (chain : AuxChain) (left : Steps Shared Phase) : Prop :=
  secure (good_shared vouch mesh) (gives (phase_ok cfg chain)) left.

(** The store is sound, whatever is left of the steps of the tasks and of the swarm
    keeps it so, nothing but honest messages is published, every request in flight will
    get an answer that is backed, and a step of a task queues one more message at
    most. *)
Record process_ok (s : ProcessState) : Prop := {
  po_sound : sound vouch (ps_db s);
  po_tasks : ∀ chain, chain ∈ cfg_chains cfg → task_ok (has_mesh s) chain (task_of s chain);
  po_swarm : ∀ sw, ps_swarm s = Some sw → good_swarm sw;
  po_gossip : secure (sound vouch) (gives (λ _, True)) (ps_gossip s);
  po_requests : Forall backed (ps_requests s);
  po_sends : ∀ c, at_most 1 (ps_tasks s c)
}.

Lemma registered_sound d fs db r db' :
  sound_disk vouch d → open d false = Ok db → register_known cfg (set_faults fs db) = (r, db') → sound vouch db'.
Proof.
  intros Hd Ho Hr.
  pose proof (is_call_each (λ k, upsert_chain_steps (kc_chain_id k) (kc_name k) (kc_electrs k)) _ (cfg_known_chains cfg)
                (λ k, is_call_upsert_chain _ _ _) (set_faults fs db)) as Hrun.
  destruct (secure_run _ _ _ (set_faults fs db) (secure_each (sound vouch)
      (λ k, upsert_chain_steps (kc_chain_id k) (kc_name k) (kc_electrs k)) (cfg_known_chains cfg)
      (λ k _, secure_upsert_chain vouch _ _ _)) (set_faults_sound vouch _ _ (open_sound vouch d false db Hd Ho))) as [Hs _].
  unfold register_known in Hr. by rewrite Hrun, Hr in Hs.
Qed.

Lemma boots_ok d s : boots d s → sound_disk vouch d → process_ok s.
Proof.
  induction 1 as [d s (fs & db & db' & id & parses & binds & Ho & Hr & ->)|d fs db e db' s Ho Hr _ IH]; intros Hd.
  - split; cbn; [by eapply registered_sound| | |done|constructor|done].
    + done.
    + unfold start_p2p_swarm. intros sw. destruct (negb _); [done|]. destruct (negb _); [done|].
      intros [= <-]. by split; constructor.
  - apply IH, so_disk. by eapply registered_sound.
Qed.

Lemma task_ok_same mesh chain chain' left :
  config_ok cfg → chain ∈ cfg_chains cfg → chain' ∈ cfg_chains cfg → ac_chain_id chain = ac_chain_id chain' →
  task_ok mesh chain left → task_ok mesh chain' left.
Proof.
  intros Hok Hin Hin' Heq Ht. eapply secure_weaken; [exact Ht|].
  pose proof (limits_of_chain _ _ Hok Hin) as Hl. pose proof (limits_of_chain _ _ Hok Hin') as Hl'.
  rewrite Heq, Hl' in Hl. injection Hl as Hl. intros [ph|e]; [|done]. cbn. unfold phase_ok, accepted. by rewrite Heq, Hl.
Qed.

Lemma ps_app_good s : process_ok s → good_app vouch (ps_app s).
Proof.
  intros [Hso _ Hsw _ _ _]. split; [done|]. cbn. destruct (ps_swarm s) as [sw|]; [|done]. intros h [= <-]. by apply Hsw.
Qed.
Lemma ps_shared_good s : process_ok s → good_shared vouch (has_mesh s) (ps_shared s).
Proof.
  intros Hs. split; [by apply ps_app_good|]. unfold has_mesh. cbn. by destruct (ps_swarm s).
Qed.

Lemma set_handle_good h sw sw' :
  (∀ h', h = Some h' → good_handle vouch h') → (∀ sw0, sw = Some sw0 → good_swarm sw0) →
  set_handle h sw = Some sw' → good_swarm sw'.
Proof.
  unfold set_handle. intros Hh Hsw Heq. destruct sw as [sw|]; [|done]. destruct (Hsw sw eq_refl) as [Hh0 Hp0].
  destruct h as [h|]; injection Heq as <-; [|done]. split; [by apply Hh|done].
Qed.
Lemma has_mesh_set h sw : bool_decide (is_Some (set_handle h sw)) = bool_decide (is_Some sw).
Proof. by destruct sw, h. Qed.

Lemma after_call_ok app requests s :
  good_app vouch app → Forall backed requests → process_ok s → process_ok (after_call app requests s).
Proof.
  intros [Hso Hh] Hr [_ Hta Hsw Hgo _ Hse]. split; cbn; [done| |by intros sw; apply set_handle_good|done..].
  intros chain Hin. unfold has_mesh. cbn. rewrite has_mesh_set. by apply Hta.
Qed.
Lemma after_section_ok shared chain left s :
  config_ok cfg → chain ∈ cfg_chains cfg → good_app vouch shared.2 → task_ok (has_mesh s) chain left → at_most 1 left →
  process_ok s → process_ok (after_section shared chain left s).
Proof.
  intros Hok Hin [Hso Hh] Hl Hm [_ Hta Hsw Hgo Hre Hse].
  split; cbn; [done| |by intros sw; apply set_handle_good|done|done|intros c; unfold set_task; by case_decide].
  intros chain' Hin'. unfold has_mesh, task_of. cbn. rewrite has_mesh_set.
  unfold set_task. case_decide as Hid; [by apply (task_ok_same _ chain)|by apply Hta].
Qed.

Lemma task_steps_ok chain node s ph :
  config_ok cfg → chain ∈ cfg_chains cfg → uplink cfg received node → phase_ok cfg chain ph →
  task_ok (has_mesh s) chain (task_steps cfg chain (has_mesh s) node ph).
Proof.
  intros Hok Hin Hup. apply secure_task.
  - by apply config_typed, (up_typed _ _ _ Hup).
  - by apply limits_of_chain.
  - intros p h. by apply uplink_reported.
  - apply (ok_backoff _ Hok).
Qed.

Lemma task_runs_ok chain node s s' :
  config_ok cfg → chain ∈ cfg_chains cfg → uplink cfg received node → process_ok s → task_runs chain node s s' → process_ok s'.
Proof.
  intros Hok Hin Hup Hs Hr. pose proof (po_tasks _ Hs chain Hin) as Ht. pose proof (ps_shared_good s Hs) as Hg.
  destruct Hr as [s ph Hph|s B f k b shared Hf Hb _].
  - rewrite Hph in Ht. apply after_section_ok; [done..|by apply ps_app_good| |apply at_most_task|done]. by apply task_steps_ok.
  - rewrite Hf in Ht. destruct (Ht _ Hg) as [Hg' Hk]. rewrite Hb in Hg', Hk. apply after_section_ok; [done..|apply Hg'|done| |done].
    pose proof (po_sends _ Hs (ac_chain_id chain)) as Hm. fold (task_of s chain) in Hm. rewrite Hf in Hm.
    destruct Hm as [[_ Hm]|(n & Hn & _ & Hm)]; [done|]. apply (at_most_mono _ n); [lia|apply Hm].
Qed.

Lemma swarm_moves_good i sw : good_swarm sw → good_swarm (swarm_moves i sw).
Proof.
  intros [Hh Hp]. destruct i as [published|e]; cbn; [|done]. unfold good_handle in Hh.
  destruct (ph_queue (sw_handle sw)) as [|msg queue] eqn:Hq.
  - split; [|done]. unfold good_handle. rewrite Hq. constructor.
  - apply Forall_cons in Hh as [Hm Hh]. split; [done|]. cbn. destruct published; [|done].
    apply Forall_app. split; [done|by constructor].
Qed.

Lemma executing_ok s : config_ok cfg → executing s → process_ok s.
Proof.
  intros Hok. induction 1 as [s Hs|s chain node s' _ IH Hin Hup Hr|s env now now' i sw _ [Hso Hta Hsw Hgo Hre Hse] Heq _
    |s B f k b db _ [Hso Hta Hsw Hgo Hre Hse] Hf Hb|s e time http req verdict buckets _ [Hso Hta Hsw Hgo Hre Hse] Hgate
    |s before after e req B f k b app _ IH Hreq Hrun _|s before fl after _ IH Hreq|s fs _ [Hso Hta Hsw Hgo Hre Hse]
    |s s' _ [Hso _ _ _ _ _] Hs].
  - apply (boots_ok _ _ Hs). by split; cbn; intros; simplify_map_eq.
  - by eapply task_runs_ok.
  - split; cbn; [done| | |apply secure_swarm; by intros env' t known i' Hv; exists env', t, known|done|done].
    + unfold has_mesh in *. rewrite Heq in Hta. exact Hta.
    + intros ? [= <-]. by apply swarm_moves_good, Hsw.
  - rewrite Hf in Hgo. destruct (Hgo _ Hso) as [Hso' Hk]. rewrite Hb in Hso', Hk. by split.
  - split; [done..| |done]. cbn. destruct verdict; [done..|]. constructor; [|done]. by apply dispatch_promises.
  - pose proof (ps_app_good s IH) as Hg. pose proof (po_requests s IH) as Hr. rewrite Hreq in Hr.
    apply Forall_app in Hr as [Hr1 Hr2]. apply Forall_cons in Hr2 as [Hr Hr2].
    destruct (Hr (ps_app s) Hg) as (Hg' & _ & Hk). rewrite Hrun in Hg', Hk.
    apply after_call_ok; [done| |done]. apply Forall_app. split; [done|by constructor].
  - pose proof (ps_app_good s IH) as Hg. pose proof (po_requests s IH) as Hr. rewrite Hreq in Hr.
    apply Forall_app in Hr as [Hr1 Hr2]. apply Forall_cons in Hr2 as [_ Hr2].
    apply after_call_ok; [done| |done]. by apply Forall_app.
  - split; [by apply set_faults_sound|done..].
  - apply (boots_ok _ _ Hs), Hso.
Qed.

(** ** Without interference *)

Lemma after_call_app app requests s : same_mesh (ps_app s) app → ps_app (after_call app requests s) = app.
Proof.
  unfold same_mesh, ps_app. cbn. intros [Hn Hn']. destruct app as [db [h|]]; cbn in *; destruct (ps_swarm s) as [sw|]; cbn in *; try done.
  - by specialize (Hn eq_refl).
  - by specialize (Hn' eq_refl).
Qed.
Lemma after_section_shared shared chain left s :
  bool_decide (is_Some (as_p2p shared.2)) = has_mesh s → ps_shared (after_section shared chain left s) = shared.
Proof.
  unfold has_mesh, ps_shared, ps_app. destruct shared as [announced [db [h|]]]; cbn;
    by destruct (ps_swarm s) as [sw|].
Qed.
Lemma task_of_after shared chain left s : task_of (after_section shared chain left s) chain = left.
Proof. unfold task_of. cbn. unfold set_task. by rewrite decide_True. Qed.
Lemma has_mesh_after shared chain left s : has_mesh (after_section shared chain left s) = has_mesh s.
Proof. apply has_mesh_set. Qed.

(** The task of [chain] ran alone from [s] to [s']: the rest of the process is as it
    was, but for the messages in the queue of the mesh. *)
Inductive alone (chain : AuxChain) (node : Node) : ProcessState → ProcessState → Prop :=
  | alone_refl s : alone chain node s s
  | alone_step s s1 s2 : task_runs chain node s s1 → alone chain node s1 s2 → alone chain node s s2.
Lemma alone_trans chain node s s1 s2 : alone chain node s s1 → alone chain node s1 s2 → alone chain node s s2.
Proof. induction 1; [done|]. intros. eapply alone_step; eauto. Qed.
Lemma alone_executing chain node s s' :
  chain ∈ cfg_chains cfg → uplink cfg received node → alone chain node s s' → executing s → executing s'.
Proof. intros Hin Hup. induction 1; [done|]. intros. by eapply IHalone, exec_task. Qed.

(** What the task leaves as it is. *)
Definition rest (s : ProcessState) : option (list GossipMessage * list string) * Steps Database unit * Buckets * list InFlight :=
  ((λ sw, (sw_published sw, sw_explicit sw)) <$> ps_swarm s, ps_gossip s, ps_buckets s, ps_requests s).
Lemma rest_after shared chain left s : rest (after_section shared chain left s) = rest s.
Proof. unfold rest. cbn. by destruct (ps_swarm s), (as_p2p shared.2). Qed.

(** How many messages are waiting. *)
Definition queued (s : ProcessState) : Z := len (queue_of (ps_app s)).

Lemma has_room s app : queued s < CHANNEL_CAPACITY → ¬ waits (ps_app s) app.
Proof.
  intros Hq (h & h' & Hh & _ & _ & Hs). unfold queued, queue_of in Hq. rewrite Hh in Hq. cbn in Hq.
  unfold has_slot in Hs. apply orb_false_iff in Hs as [_ Hs]. reflect_bools. lia.
Qed.
Lemma same_queue s app : queue_of app = queue_of (ps_app s) → ¬ waits (ps_app s) app.
Proof. intros Hq (h & h' & Hh & Hh' & Hne & _). unfold queue_of in Hq. by rewrite Hh, Hh' in Hq. Qed.

(** The sections that are left of a step, one after the other, when the channel has
    room for their messages. *)
Lemma alone_sections chain node (p : Steps Shared Phase) : ∀ n s,
  config_ok cfg → chain ∈ cfg_chains cfg → uplink cfg received node → process_ok s → task_of s chain = p →
  at_most n p → queued s + Z.of_nat n ≤ CHANNEL_CAPACITY →
  ∃ s', alone chain node s s' ∧ task_of s' chain = Finished (run_steps p (ps_shared s)).1 ∧
    ps_shared s' = (run_steps p (ps_shared s)).2 ∧ rest s' = rest s ∧ has_mesh s' = has_mesh s.
Proof.
  induction p as [r|B f k IH]; intros n s Hok Hin Hup Hs Hp Hm Hq; [by exists s; split_and!; [apply alone_refl|..]|].
  pose proof (po_tasks _ Hs chain Hin) as Ht. rewrite Hp in Ht. destruct (Ht _ (ps_shared_good s Hs)) as [[_ Hmesh] _].
  cbn [run_steps]. destruct (f (ps_shared s)) as [b shared] eqn:Hf. cbn [snd] in Hmesh.
  assert (∃ m, at_most m (k b) ∧ len (queue_of shared.2) + Z.of_nat m ≤ CHANNEL_CAPACITY ∧ ¬ waits (ps_app s) shared.2)
    as (m & Hkm & Hqm & Hw).
  { destruct Hm as [[Hsame Hk]|(m & -> & Hone & Hk)].
    - specialize (Hsame (ps_shared s)). rewrite Hf in Hsame. exists n. split; [done|]. split.
      + cbn in Hsame. rewrite Hsame. exact Hq.
      + by apply same_queue.
    - specialize (Hone (ps_shared s)). rewrite Hf in Hone. exists m. split; [done|].
      cbn [snd ps_shared] in Hone. unfold queued in Hq. split; [lia|]. apply has_room. unfold queued. lia. }
  assert (task_runs chain node s (after_section shared chain (k b) s)) as Hr by (by eapply task_section).
  destruct (IH b m (after_section shared chain (k b) s)) as (s' & Ha & Ht' & Hsh & Hrest & Hme);
    [done..|by eapply task_runs_ok|apply task_of_after|done| |].
  { unfold queued. pose proof (after_section_shared shared chain (k b) s Hmesh) as Hsh. apply (f_equal snd) in Hsh.
    cbn [snd ps_shared] in Hsh. by rewrite Hsh. }
  rewrite after_section_shared in Ht', Hsh by done. rewrite rest_after in Hrest. rewrite has_mesh_after in Hme.
  exists s'. split_and!; [by eapply alone_step|done..].
Qed.

(** A step of the task is the step of [Tasks]. *)
Lemma alone_advance chain node s ph ph' announced db msgs :
  config_ok cfg → chain ∈ cfg_chains cfg → uplink cfg received node → process_ok s → task_of s chain = mret ph →
  queued s < CHANNEL_CAPACITY →
  advance cfg chain (has_mesh s) node ph (ps_announced s) (ps_db s) = ((ph', announced, db), msgs) →
  ∃ s', alone chain node s s' ∧ task_of s' chain = mret ph' ∧
    ps_shared s' = (announced, mkApp db (publish_all_to msgs <$> as_p2p (ps_app s))) ∧ rest s' = rest s ∧
    has_mesh s' = has_mesh s.
Proof.
  intros Hok Hin Hup Hs Hph Hq Hadv. pose proof (task_turn chain node s ph Hph) as Hr.
  pose proof (task_runs_ok _ _ _ _ Hok Hin Hup Hs Hr) as Hs1.
  assert (ps_shared (after_section (ps_shared s) chain (task_steps cfg chain (has_mesh s) node ph) s) = ps_shared s) as Hsame
    by (apply after_section_shared; unfold has_mesh; cbn; by destruct (ps_swarm s)).
  destruct (alone_sections chain node _ 1 _ Hok Hin Hup Hs1 (task_of_after _ _ _ _) (at_most_task _ _ _ _ _))
    as (s' & Ha & Ht & Hsh & Hrest & Hm).
  { unfold queued. apply (f_equal snd) in Hsame. cbn [snd ps_shared] in Hsame. rewrite Hsame. unfold queued in Hq. lia. }
  rewrite Hsame in Ht, Hsh.
  unfold ps_shared in Ht at 1, Hsh at 2. rewrite run_task in Ht, Hsh. cbn [as_db ps_app] in Ht, Hsh. rewrite Hadv in Ht, Hsh.
  exists s'. split_and!; [by eapply alone_step|done|done|by rewrite Hrest, rest_after|by rewrite Hm, has_mesh_after].
Qed.

Lemma alone_ok chain node s s' :
  config_ok cfg → chain ∈ cfg_chains cfg → uplink cfg received node → alone chain node s s' → process_ok s → process_ok s'.
Proof. intros Hok Hin Hup. induction 1; [done|]. intros Hs. by eapply IHalone, task_runs_ok. Qed.

(** And so its rounds are, when the channel has room for all they announce. *)
Lemma alone_goes chain node s msgs ph0 ph announced db :
  config_ok cfg → chain ∈ cfg_chains cfg → uplink cfg received node → process_ok s → task_of s chain = mret ph0 →
  goes cfg chain (has_mesh s) node (ph0, ps_announced s, ps_db s) msgs (ph, announced, db) →
  queued s + len msgs < CHANNEL_CAPACITY →
  ∃ s', alone chain node s s' ∧ task_of s' chain = mret ph ∧
    ps_shared s' = (announced, mkApp db (publish_all_to msgs <$> as_p2p (ps_app s))) ∧ rest s' = rest s.
Proof.
  intros Hok Hin Hup Hs Ht Hg. remember (ph0, ps_announced s, ps_db s) as t eqn:Hst.
  remember (has_mesh s) as p2p eqn:Hp2p. remember (ph, announced, db) as t' eqn:Hst'. revert s ph0 Hs Ht Hp2p Hst Hst'.
  induction Hg as [t|ph1 ann1 db1 [[ph2 ann2] db2] msgs1 t2 msgs2 Hadv _ IH]; intros s ph0 Hs Ht Hp2p Hst Hst' Hq.
  - rewrite Hst in Hst'. injection Hst' as <- <- <-. exists s. split_and!; [apply alone_refl|done| |done].
    unfold ps_shared, ps_app. by destruct (ps_swarm s) as [[]|].
  - injection Hst as -> -> ->. rewrite Hp2p in Hadv. rewrite len_app in Hq.
    pose proof (len_nonneg msgs1). pose proof (len_nonneg msgs2).
    destruct (alone_advance _ _ _ _ _ _ _ _ Hok Hin Hup Hs Ht ltac:(lia) Hadv) as (s1 & Ha1 & Ht1 & Hsh1 & Hrest1 & Hm1).
    pose proof (alone_ok _ _ _ _ Hok Hin Hup Ha1 Hs) as Hs1.
    pose proof (f_equal fst Hsh1) as Hann. pose proof (f_equal (λ s, as_db s.2) Hsh1) as Hdb. cbn in Hann, Hdb.
    assert (as_p2p (ps_app s1) = publish_all_to msgs1 <$> as_p2p (ps_app s)) as Hhandle by exact (f_equal (λ s, as_p2p s.2) Hsh1).
    destruct (IH s1 ph2 Hs1 Ht1) as (s2 & Ha2 & Ht2 & Hsh2 & Hrest2); [congruence| |done| |].
    { by rewrite Hann, Hdb. }
    { unfold queued, queue_of in *. rewrite Hhandle. pose proof (publish_all_len msgs1) as Hl.
      destruct (as_p2p (ps_app s)) as [h|]; cbn in *; [specialize (Hl h)|]; lia. }
    exists s2. split_and!; [by eapply alone_trans|done| |congruence]. rewrite Hsh2, Hhandle.
    destruct (as_p2p (ps_app s)) as [h|]; [|done]. cbn. unfold publish_all_to. by rewrite foldl_app.
Qed.

(** ** With the swarm only

    The task of [chain] and the swarm ran from [s] to [s']: the swarm ended the message
    it was at, and took messages from its queue. *)
Inductive helped (chain : AuxChain) (node : Node) : ProcessState → ProcessState → Prop :=
  | helped_refl s : helped chain node s s
  | helped_task s s1 s2 : task_runs chain node s s1 → helped chain node s1 s2 → helped chain node s s2
  | helped_gossip s B (f : Database → B * Database) k b db s2 :
      ps_gossip s = Step f k → f (ps_db s) = (b, db) →
      helped chain node (mkProcess db (ps_announced s) (ps_tasks s) (ps_swarm s) (k b) (ps_buckets s) (ps_requests s)) s2 →
      helped chain node s s2
  | helped_recv s sw published s2 :
      ps_swarm s = Some sw → ps_gossip s = mret () →
      helped chain node (mkProcess (ps_db s) (ps_announced s) (ps_tasks s) (Some (swarm_moves (Recv published) sw))
                           (mret ()) (ps_buckets s) (ps_requests s)) s2 →
      helped chain node s s2.

Lemma helped_trans chain node s s1 s2 : helped chain node s s1 → helped chain node s1 s2 → helped chain node s s2.
Proof.
  induction 1; [done|intros; eapply helped_task; eauto|intros; eapply helped_gossip; eauto|intros; eapply helped_recv; eauto].
Qed.
Lemma alone_helped chain node s s' : alone chain node s s' → helped chain node s s'.
Proof. induction 1; [apply helped_refl|by eapply helped_task]. Qed.
Lemma helped_executing chain node s s' :
  chain ∈ cfg_chains cfg → uplink cfg received node → helped chain node s s' → executing s → executing s'.
Proof.
  intros Hin Hup. induction 1 as [|s s1 s2 Hr _ IH|s B f k b db s2 Hg Hf _ IH|s sw published s2 Hsw Hg _ IH]; intros Hex; [done|..]; apply IH.
  - by eapply exec_task.
  - by eapply exec_gossip.
  - by apply (exec_turn s None 0 0 (Recv published) sw).
Qed.

(** What neither changes: the other tasks, the buckets and the requests. *)
Definition bystanders (chain : AuxChain) (s s' : ProcessState) : Prop :=
  (∀ c, c ≠ ac_chain_id chain → ps_tasks s' c = ps_tasks s c) ∧ ps_buckets s' = ps_buckets s ∧ ps_requests s' = ps_requests s.
#[export] Instance bystanders_preorder chain : PreOrder (bystanders chain).
Proof.
  split; [by intros s|]. intros s1 s2 s3 (Ht & Hb & Hr) (Ht' & Hb' & Hr'). split_and!; [|congruence..].
  intros c Hc. by rewrite Ht', Ht.
Qed.
Lemma alone_bystanders chain node s s' : alone chain node s s' → bystanders chain s s'.
Proof.
  induction 1 as [s|s s1 s2 Hr _ IH]; [done|]. transitivity s1; [|done].
  destruct Hr; (split; [|done]); intros c Hc; cbn; unfold set_task; by rewrite decide_False.
Qed.

(** The swarm ends its message. *)
Lemma swarm_ends chain node (p : Steps Database unit) : ∀ s,
  process_ok s → ps_gossip s = p →
  ∃ s', helped chain node s s' ∧ ps_gossip s' = mret () ∧ task_of s' chain = task_of s chain ∧ has_mesh s' = has_mesh s ∧
    bystanders chain s s'.
Proof.
  induction p as [[[]|e]|B f k IH]; intros s Hs Hp.
  - exists s. by split_and!; [apply helped_refl|..].
  - pose proof (po_gossip _ Hs) as Hg. by rewrite Hp in Hg.
  - destruct (f (ps_db s)) as [b db] eqn:Hf.
    set (s1 := mkProcess db (ps_announced s) (ps_tasks s) (ps_swarm s) (k b) (ps_buckets s) (ps_requests s)).
    destruct (IH b s1) as (s' & Hh & Hg & Ht & Hm & Hb); [|done|].
    { destruct Hs as [Hso Hta Hsw Hgo Hre Hse]. rewrite Hp in Hgo. destruct (Hgo _ Hso) as [Hso' Hk]. rewrite Hf in Hso', Hk. by split. }
    exists s'. split_and!; [by eapply helped_gossip|done..|by transitivity s1].
Qed.

(** And takes all the messages of its queue. *)
Lemma swarm_drains chain node : ∀ q s,
  ps_gossip s = mret () → queue_of (ps_app s) = q →
  ∃ s', helped chain node s s' ∧ ps_gossip s' = mret () ∧ queued s' = 0 ∧ ps_db s' = ps_db s ∧ ps_announced s' = ps_announced s ∧
    task_of s' chain = task_of s chain ∧ has_mesh s' = has_mesh s ∧ bystanders chain s s'.
Proof.
  induction q as [|msg q IH]; intros s Hg Hq.
  { exists s. split_and!; try done; [apply helped_refl|]. unfold queued. by rewrite Hq. }
  destruct (ps_swarm s) as [sw|] eqn:Hsw; [|by unfold queue_of, ps_app in Hq; rewrite Hsw in Hq].
  assert (ph_queue (sw_handle sw) = msg :: q) as Hsq by (by unfold queue_of, ps_app in Hq; rewrite Hsw in Hq).
  set (s1 := mkProcess (ps_db s) (ps_announced s) (ps_tasks s) (Some (swarm_moves (Recv true) sw)) (mret ()) (ps_buckets s) (ps_requests s)).
  destruct (IH s1) as (s' & Hh & Hg' & Hz & Hdb & Ha & Ht & Hm & Hb); [done| |].
  { unfold queue_of, ps_app. cbn. by rewrite Hsq. }
  exists s'. split_and!; [by eapply helped_recv|done..| |by transitivity s1].
  rewrite Hm. unfold has_mesh. cbn. by rewrite Hsw.
Qed.

(** The rounds of a task whose messages the swarm takes. *)
Lemma helped_goes chain node s msgs ph0 ph announced db :
  config_ok cfg → chain ∈ cfg_chains cfg → uplink cfg received node → executing s → task_of s chain = mret ph0 →
  ps_gossip s = mret () →
  goes cfg chain (has_mesh s) node (ph0, ps_announced s, ps_db s) msgs (ph, announced, db) →
  ∃ s', helped chain node s s' ∧ task_of s' chain = mret ph ∧ bystanders chain s s'.
Proof.
  intros Hok Hin Hup Hs Ht Hgo Hg. remember (ph0, ps_announced s, ps_db s) as t eqn:Hst.
  remember (has_mesh s) as p2p eqn:Hp2p. remember (ph, announced, db) as t' eqn:Hst'. revert s ph0 Hs Ht Hgo Hp2p Hst Hst'.
  induction Hg as [t|ph1 ann1 db1 [[ph2 ann2] db2] msgs1 t2 msgs2 Hadv _ IH]; intros s ph0 Hs Ht Hgo Hp2p Hst Hst'.
  - rewrite Hst in Hst'. injection Hst' as <- <- <-. by exists s; split_and!; [apply helped_refl|..].
  - injection Hst as -> -> ->. rewrite Hp2p in Hadv.
    destruct (swarm_drains chain node _ s Hgo eq_refl) as (s0 & Hh0 & Hg0 & Hq0 & Hdb0 & Ha0 & Ht0 & Hm0 & Hb0).
    pose proof (helped_executing _ _ _ _ Hin Hup Hh0 Hs) as Hs0.
    rewrite <-Hm0, <-Ha0, <-Hdb0 in Hadv. rewrite Ht in Ht0.
    destruct (alone_advance _ _ _ _ _ _ _ _ Hok Hin Hup (executing_ok _ Hok Hs0) Ht0 ltac:(rewrite Hq0; done) Hadv)
      as (s1 & Ha1 & Ht1 & Hsh1 & Hrest1 & Hm1). pose proof (alone_helped _ _ _ _ Ha1) as Hh1.
    pose proof (f_equal fst Hsh1) as Hann. pose proof (f_equal (λ s, as_db s.2) Hsh1) as Hdb. cbn in Hann, Hdb.
    assert (ps_gossip s1 = mret ()) as Hg1 by (unfold rest in Hrest1; injection Hrest1; congruence).
    destruct (IH s1 ph2) as (s2 & Hh2 & Ht2 & Hb2); [by eapply helped_executing|done|done|congruence|by rewrite Hann, Hdb|done|].
    exists s2. split_and!; [|done|].
    + eapply helped_trans; [exact Hh0|]. by eapply helped_trans.
    + etransitivity; [exact Hb0|]. etransitivity; [by eapply alone_bystanders|done].
Qed.

(** No section of the handler waits, when it runs alone. *)
Fixpoint flows {A} (m : H A) (s : AppState) : Prop :=
  match m with
  | Reply _ => True
  | Call f k => queue_of (f s).2 = queue_of s ∧ flows (k (f s).1) (f s).2
  end.

(** A request that meets no interference and queues nothing is answered, with what its
    handler returns alone. *)
Lemma executing_runs (m : H ApiBody) : ∀ s before after e req,
  config_ok cfg → executing s → ps_requests s = before ++ mkInFlight e req m :: after → flows m (ps_app s) →
  ∃ s', executing s' ∧ ps_requests s' = before ++ mkInFlight e req (Reply (m (ps_app s)).1) :: after ∧
    ps_app s' = (m (ps_app s)).2.
Proof.
  induction m as [r|B f k IH]; intros s before after e req Hok Hex Hreq Hfl; [by exists s|].
  pose proof (executing_ok s Hok Hex) as Hpo. pose proof (po_requests s Hpo) as Hr. rewrite Hreq in Hr.
  apply Forall_app in Hr as [_ Hr]. apply Forall_cons in Hr as [Hr _]. destruct Hfl as [Hq Hfl].
  destruct (Hr (ps_app s) (ps_app_good s Hpo)) as (_ & Hmesh & _). cbn [run]. destruct (f (ps_app s)) as [b app] eqn:Hf.
  pose proof (after_call_app app (before ++ mkInFlight e req (k b) :: after) s Hmesh) as Happ'.
  destruct (IH b (after_call app (before ++ mkInFlight e req (k b) :: after) s) before after e req) as (s' & Hex' & Hr' & Happ);
    [done|by eapply exec_call; [..|by apply same_queue]|done|by rewrite Happ'|].
  rewrite Happ' in Hr', Happ. by exists s'.
Qed.
End process.
