(* ===== verification/Served.v ===== *)
(** * What the process serves

    The theorems on the states of [Process]: what a client that asks for a block can
    check, what every answer and every published message is worth, and that no task
    dies. *)

From S2P Require Export Process.

#[local] Open Scope Z_scope.

(** ** What is served *)

(** A payload that parses into a block the node accepts is reported valid. *)
Lemma post_verify_valid `{Sha256} `{HexCodec} `{Secp256k1} `{Codec} `{GossipCodec} `{ErrorText}
    cfg e s cid plb wire base a id :
  pow_limit_for cfg cid = Some plb → parse_auxpow wire = Ok (base, a) → light_verify base a cid plb = Ok id →
  Z.of_nat (String.length (hex_encode wire)) ≤ MAX_WIRE_HEX_LEN →
  ∃ v, dispatch cfg e (PostVerify (mkVerifyRequest cid (hex_encode wire) None)) s = (Ok (BVerify v), s) ∧
    ve_valid v = true ∧ ve_block_hash v = hash_display (sha256d base).
Proof.
  intros Hpl Hp Hlv Hlen.
  assert (∃ v, verify_handler cfg (mkVerifyRequest cid (hex_encode wire) None) s = (Ok v, s) ∧
            ve_valid v = true ∧ ve_block_hash v = hash_display (sha256d base)) as (v & Hv & Hvalid & Hbh).
  { eexists. split.
    - unfold verify_handler. cbn [vr_wire_hex vr_chain_id].
      destruct (_ <? _) eqn:?; reflect_bools; [lia|]. rewrite hex_decode_encode.
      rewrite (hbind_step (mret wire) _ s wire s) by done. rewrite Hpl.
      rewrite (hbind_step (or_fail _ _) _ s plb s) by done.
      unfold verify_wire_block, AuxBlock_from_wire. rewrite Hp. reflexivity.
    - cbn [ve_valid ve_block_hash ab_base ab_aux]. split; [by rewrite report_valid_light, Hlv|done]. }
  exists v. cbn [dispatch]. unfold as_body. by rewrite (hbind_step _ _ _ _ _ Hv).
Qed.

(** One that is too long is not parsed. *)
Lemma post_verify_long `{Sha256} `{HexCodec} `{Secp256k1} `{Codec} `{GossipCodec} `{ErrorText} cfg e s cid hex limit :
  MAX_WIRE_HEX_LEN < Z.of_nat (String.length hex) →
  ∃ m, dispatch cfg e (PostVerify (mkVerifyRequest cid hex limit)) s = (Err (BadRequest m), s).
Proof.
  intros Hlen. eexists. cbn [dispatch]. unfold as_body, verify_handler. cbn [vr_wire_hex]. apply Z.ltb_lt in Hlen.
  rewrite Hlen. reflexivity.
Qed.

Section served.
Context `{Sha256} `{HexCodec} `{Secp256k1} `{Codec} `{GossipCodec} `{ErrorText}.
Context (vouch : Vouch) (config : Config).

Lemma block_at_sound c h db :
  sound vouch db → ∃ o db', block_at c h db = (Ok o, db') ∧ sound vouch db' ∧ ∀ b, o = Some b → good_block vouch (c, h) b.
Proof.
  intros Hs. destruct (secure_run _ _ _ _ (secure_block_at vouch c h) Hs) as [Hs' Ho]. rewrite is_call_run in Hs', Ho.
  destruct (block_at c h db) as [[o|e] db']; [|done]. by exists o, db'.
Qed.
Lemma get_parent_sound p db : sound vouch db → ∃ o db', get_parent p db = (Ok o, db') ∧ sound vouch db'.
Proof.
  intros Hs. destruct (secure_run _ _ _ _ (secure_get_parent vouch p) Hs) as [Hs' Ho]. rewrite is_call_run in Hs', Ho.
  destruct (get_parent p db) as [[o|e] db']; [|done]. by exists o, db'.
Qed.

Lemma indexed_run c h s o db :
  block_at c h (as_db s) = (Ok o, db) →
  indexed_block c h s = (match o with
                         | Some b => Ok b
                         | None => Err (NotFound (block_label c h +:+ " is not indexed"))
                         end, mkApp db (as_p2p s)).
Proof.
  intros Hrun. unfold indexed_block. rewrite (hbind_step _ _ s o (mkApp db (as_p2p s))).
  - by destruct o.
  - erewrite on_db_run by apply _. by rewrite Hrun.
Qed.

Lemma parent_sound err p s :
  sound vouch (as_db s) → ∃ o s', on_db err (get_parent_steps p) s = (Ok o, s') ∧ sound vouch (as_db s').
Proof.
  intros Hs. destruct (get_parent_sound p _ Hs) as (o & db' & Hrun & Hs').
  exists o, (mkApp db' (as_p2p s)). erewrite on_db_run by apply _. by rewrite Hrun.
Qed.

Lemma detail_sound c h s b a db pl :
  sound vouch db → block_at c h (as_db s) = (Ok (Some b), db) → aux (sb_header b) = Some a →
  pow_limit_for config c = Some pl →
  ∃ r s', block_detail_handler config c h s = (Ok r, s') ∧
    br_chain_id r = sb_chain_id b ∧ br_height r = sb_height b ∧
    br_block_hash r = display_hex (sb_hash_le b) ∧ br_parent_hash r = display_hex (sha256d (parent_header a)) ∧
    br_raw_auxpow_hex r = Some (sb_wire_hex b) ∧
    br_verification r = Some (verify_aux_header (raw (sb_header b)) a c pl).
Proof.
  intros Hs Hrun Ha Hpl. unfold block_detail_handler. rewrite (hbind_step _ _ _ _ _ (indexed_run c h s _ db Hrun)).
  set (s1 := mkApp db (as_p2p s)).
  destruct (parent_sound internal (sha256d (parent_header a)) s1 Hs) as (o & s2 & Hp & _).
  assert (db_parent_hash b = Some (sha256d (parent_header a))) as Hph by (unfold db_parent_hash; by rewrite Ha).
  eexists _, s2. split.
  - erewrite hbind_step; [|unfold block_from_stored; rewrite Hph; by rewrite (hbind_step _ _ _ _ _ Hp)].
    rewrite Ha, Hpl. reflexivity.
  - done.
Qed.

Lemma proof_sound c h s b a db :
  sound vouch db → block_at c h (as_db s) = (Ok (Some b), db) → aux (sb_header b) = Some a →
  ∃ r s', proof_handler c h s = (Ok r, s') ∧ pf_block_hash r = display_hex (sb_hash_le b) ∧
    pf_auxpow_hex r = sb_wire_hex b ∧ proof_witness r a.
Proof.
  intros Hs Hrun Ha. unfold proof_handler. rewrite (hbind_step _ _ _ _ _ (indexed_run c h s _ db Hrun)).
  set (s1 := mkApp db (as_p2p s)).
  destruct (parent_sound internal (sha256d (parent_header a)) s1 Hs) as (o & s2 & Hp & _).
  eexists _, s2. split.
  - unfold proof_from_stored. rewrite Ha, (hbind_step (or_fail (Some a) _) _ s1 a s1) by done.
    by rewrite (hbind_step _ _ _ _ _ Hp).
  - split; [done|]. split; [done|]. unfold proof_witness. cbn.
    split_and!; try apply hex_decode_encode; try apply mapM_hex_decode; done.
Qed.
End served.

(** ** Properties *)

(** C1: a served block verifies.  In any state of the process, whatever the nodes,
    the explorers, the peers and the clients sent, however the sections of
    their calls interleaved, whichever transactions failed and wherever the process
    was stopped, inside a call too, and started again: a block of a configured chain is answered with 404 when it
    is not stored, and otherwise with a valid report and the wire payload.  Parsed
    by anyone, the payload gives the block with the hashes shown, the guest accepts
    its one-header chain under the configured limit, and the proof endpoint answers
    with the whole witness, which commits to that block.  Posted to the verification
    endpoint, a payload of at most 1,000,000 hex digits is answered valid, with that
    block's hash; a longer one (a node may append any bytes to a block) with 400. *)
Theorem served_block_verifies `{Sha256} `{HexCodec} `{Secp256k1} `{Codec} `{GossipCodec} `{ErrorText} `{DecodeSummary}
    (parse_ip : string → option string) (cfg : Config) (received : Log) (chain : AuxChain) (h : Z) (e : RequestEnv)
    (ps : ProcessState) (s : AppState)
    (Hok : config_ok cfg) (Hr : executing parse_ip cfg received ps) (Hin : chain ∈ cfg_chains cfg) (Hs : as_db s = ps_db ps) :
  let cid := ac_chain_id chain in
  match (block_at cid h (as_db s)).1 with
  | Ok (Some _) => ∃ r rep p wire b s1 s2,
      dispatch cfg e (GetBlock cid h) s = (Ok (BBlock r), s1) ∧
      br_chain_id r = cid ∧ br_height r = h ∧ br_verification r = Some rep ∧ valid rep = true ∧
      br_raw_auxpow_hex r = Some (hex_encode wire) ∧ AuxBlock_from_wire wire = Ok b ∧
      br_block_hash r = AuxBlock_block_hash_display b ∧ br_parent_hash r = AuxBlock_parent_hash_display b ∧
      guest_accepts b cid (ac_pow_limit_bits chain) ∧
      (Z.of_nat (String.length (hex_encode wire)) ≤ MAX_WIRE_HEX_LEN → ∃ v,
         dispatch cfg e (PostVerify (mkVerifyRequest cid (hex_encode wire) None)) s = (Ok (BVerify v), s) ∧
         ve_valid v = true ∧ ve_block_hash v = br_block_hash r) ∧
      (MAX_WIRE_HEX_LEN < Z.of_nat (String.length (hex_encode wire)) → ∃ m,
         dispatch cfg e (PostVerify (mkVerifyRequest cid (hex_encode wire) None)) s = (Err (BadRequest m), s)) ∧
      dispatch cfg e (GetProof cid h) s = (Ok (BProof p), s2) ∧
      pf_auxpow_hex p = hex_encode wire ∧ pf_block_hash p = br_block_hash r ∧
      proof_witness p (ab_aux b) ∧ commits (sha256d (ab_base b)) (ab_aux b) cid
  | Ok None => ∃ m s1, dispatch cfg e (GetBlock cid h) s = (Err (NotFound m), s1) ∧
      dispatch cfg e (GetProof cid h) s = (Err (NotFound m), s1)
  | Err _ => False
  end.
Proof.
  intros cid. destruct (executing_ok parse_ip cfg received ps Hok Hr) as [Hso _ _ _ _ _]. rewrite <-Hs in Hso.
  pose proof (ok_chain _ Hok) as Hch. rewrite Forall_forall in Hch. destruct (Hch chain Hin) as [_ Hplb _ _].
  pose proof (limits_of_chain _ _ Hok Hin) as Hlim. fold cid in Hlim.
  set (plb := ac_pow_limit_bits chain) in *.
  destruct (block_at_sound (vouch_of cfg received) cid h _ Hso) as (o & db & Hrun & Hdb & Hgood). rewrite Hrun. cbn [fst].
  destruct o as [sb|].
  2: { pose proof (indexed_run cid h s None db Hrun) as Hidx. eexists _, _. split.
       - cbn [dispatch]. unfold as_body. apply hbind_fail. apply hbind_fail. exact Hidx.
       - cbn [dispatch]. unfold as_body. apply hbind_fail. apply hbind_fail. exact Hidx. }
  destruct (Hgood sb eq_refl) as (Hk & plb' & Hl & wire & a & Hfit & Hhex & Hp & Haux & Hlv).
  cbn [fst] in Hl. change (limits_of cfg cid = Some plb') in Hl. rewrite Hlim in Hl. injection Hl as <-. unfold block_key in Hk. injection Hk as Hk1 Hk2.
  rewrite <-Hk1 in Hlv. assert (pow_limit_for cfg cid = Some plb) as Hpl by exact Hlim.
  pose proof Hlv as (Hhash & Hrules & Hcom)%light_verify_spec; [|done]. set (base := raw (sb_header sb)) in *.
  destruct (detail_sound (vouch_of cfg received) cfg cid h s sb a db plb Hdb Hrun Haux Hpl)
    as (r & s1 & Hrd & Hr1 & Hr2 & Hr3 & Hr4 & Hr5 & Hr6).
  destruct (proof_sound (vouch_of cfg received) cid h s sb a db Hdb Hrun Haux) as (p & s2 & Hrp & Hp1 & Hp2 & Hp3).
  eexists r, _, p, wire, (mkAuxBlock base a wire), s1, s2. split_and!.
  - cbn [dispatch]. unfold as_body. by rewrite (hbind_step _ _ _ _ _ Hrd).
  - congruence.
  - congruence.
  - exact Hr6.
  - rewrite report_valid_light. fold base. by rewrite Hlv.
  - by rewrite Hr5, Hhex.
  - unfold AuxBlock_from_wire. by rewrite Hp.
  - rewrite Hr3, Hhash. done.
  - exact Hr4.
  - by eapply light_guest_accepts.
  - intros Hlen. destruct (post_verify_valid cfg e s cid plb wire base a _ Hpl Hp Hlv Hlen) as (v & Hd & Hvalid & Hbh).
    exists v. split_and!; [done..|]. by rewrite Hbh, Hr3, Hhash.
  - apply post_verify_long.
  - cbn [dispatch]. unfold as_body. by rewrite (hbind_step _ _ _ _ _ Hrp).
  - by rewrite Hp2.
  - by rewrite Hp1, Hr3.
  - exact Hp3.
  - exact Hcom.
Qed.

(** C2: every answer is backed.  Let [received] hold all that the explorers of the
    resolver ever sent.  However the sections of the requests interleaved with those of
    the tasks, the swarm, failing transactions and restarts, an answered request got
    this: a block of that chain and height, with a payload that parses into the block
    shown and that the guest accepts, and a valid report; the blocks of a range, within
    it, with such payloads and no report; a proof whose witness commits to the block;
    groups and epochs of verified blocks of the parent; for the siblings of a parent,
    verified blocks (not claimed to be its own: the index may keep stale rows); two
    verified legs, co-settled exactly when they have one parent, with its token; intents
    that were validated and have not expired.  The height shown for a parent, on a leg
    too, is one that an explorer of the configuration reported, in a successful reply
    in [received] about that very parent. *)
Theorem every_answer_backed `{Sha256} `{HexCodec} `{Secp256k1} `{Codec} `{GossipCodec} `{ErrorText} `{DecodeSummary}
    (parse_ip : string → option string) (cfg : Config) (received : Log) (ps : ProcessState) (e : RequestEnv) (req : ApiRequest) (body : ApiBody)
    (Hok : config_ok cfg) (Hr : executing parse_ip cfg received ps) (Hin : mkInFlight e req (Reply (Ok body)) ∈ ps_requests ps) :
  answers cfg received e req body.
Proof.
  pose proof (po_requests _ _ _ (executing_ok parse_ip cfg received ps Hok Hr)) as Hp. rewrite Forall_forall in Hp. apply (Hp _ Hin).
Qed.

(** C3: what is published.  In any state of the process, a message that gossipsub
    accepted from this node is a header announcement whose payload parses into the
    block with the hashes announced and is accepted by the guest, or a sibling
    announcement with legs on two chains at least, each the hash of such a block, or
    an intent; and the height it announces for a parent is one that an explorer
    reported for it. *)
Theorem published_verified `{Sha256} `{HexCodec} `{Secp256k1} `{Codec} `{GossipCodec} `{ErrorText} `{DecodeSummary}
    (parse_ip : string → option string) (cfg : Config) (received : Log) (ps : ProcessState) (sw : Swarm) (g : GossipMessage)
    (Hok : config_ok cfg) (Hr : executing parse_ip cfg received ps) (Hsw : ps_swarm ps = Some sw) (Hg : g ∈ sw_published sw) :
  (∃ c h hash parent lh w,
     g = mkGossip TOPIC_HEADERS (json_bytes (header_json c h hash parent lh w)) ∧ verified cfg c hash parent w ∧
     known_at cfg received parent lh) ∨
  (∃ parent lh legs,
     g = mkGossip TOPIC_SIBLINGS (json_bytes (sibling_json parent lh legs)) ∧ known_at cfg received parent (Some lh) ∧
     (∃ l l', l ∈ legs ∧ l' ∈ legs ∧ l.1.1 ≠ l'.1.1) ∧
     Forall (λ leg, ∃ q w, verified cfg leg.1.1 leg.2 q w) legs) ∨
  ∃ i, g = mkGossip TOPIC_INTENTS (json_bytes (intent_value i)).
Proof.
  destruct (po_swarm _ _ _ (executing_ok parse_ip cfg received ps Hok Hr) sw Hsw) as [_ Hp]. rewrite Forall_forall in Hp.
  destruct (Hp g Hg) as [(a & Ha & ->)|Hi]; [|by right; right]. destruct a as [c h hash parent lh w|parent lh legs].
  - left. destruct Ha as (b & p & Hb & Hpar & -> & -> & -> & Hlh). eexists _, _, _, _, _, _. split; [reflexivity|].
    destruct (good_verified cfg received Hok c h b Hb) as (p' & Hp' & Hv). rewrite Hpar in Hp'. injection Hp' as <-.
    split; [done|by exists p].
  - right. left. eexists _, _, _. split; [reflexivity|]. destruct Ha as ((p & -> & Hlh) & Htwo & Hl). split; [by exists p; split; [|intros ? [= <-]]|].
    split; [done|].
    eapply Forall_impl; [exact Hl|]. intros [[c h] hash] (b & Hb & ->). cbn in *.
    destruct (good_verified cfg received Hok c h b Hb) as (q & _ & Hv). by eexists _, _.
Qed.

(** C6: no task dies or hangs.  In any state of the process, in the middle of a call
    too, the task of a configured chain has not panicked, when the cap of the backoff
    is below the last [u64] of milliseconds (with that cap and that base, the delay
    after a failed tick panics); and nothing that stands in its way needs more than
    the swarm: with any answers of its node and of the resolver, there are steps of
    this task and of the swarm alone, which ends the message it is at and takes those
    that fill the channel, after which the task is back at its poll, in a state of the
    process again, where the other tasks, the requests and the counts of the limiter
    are where they were. *)
Theorem task_comes_back `{Sha256} `{HexCodec} `{Secp256k1} `{Codec} `{GossipCodec} `{ErrorText} `{DecodeSummary}
    (parse_ip : string → option string) (cfg : Config) (received : Log) (chain : AuxChain) (node : Node) (ps : ProcessState)
    (Hok : config_ok cfg) (Hcap : rt_max_backoff (cfg_retry cfg) < u64_max)
    (Hr : executing parse_ip cfg received ps) (Hin : chain ∈ cfg_chains cfg) (Hup : uplink cfg received node) :
  task_of ps chain ≠ mret Panicked ∧ (∀ e, task_of ps chain ≠ Finished (Err e)) ∧
  ∃ n ps', helped cfg chain node ps ps' ∧ executing parse_ip cfg received ps' ∧ task_of ps' chain = mret (Idle n) ∧
    bystanders chain ps ps'.
Proof.
  pose proof (executing_ok parse_ip cfg received ps Hok Hr) as Hs. pose proof (po_tasks _ _ _ Hs chain Hin) as Ht.
  split; [intros Hp; rewrite Hp in Ht; cbn in Ht; lia|]. split; [intros e He; by rewrite He in Ht|].
  destruct (swarm_ends cfg received chain node _ ps Hs eq_refl) as (s1 & Hh1 & Hg1 & Ht1 & Hm1 & Hb1).
  destruct (swarm_drains cfg chain node _ s1 Hg1 eq_refl) as (s2 & Hh2 & Hg2 & Hq2 & _ & _ & Ht2 & Hm2 & Hb2).
  pose proof (helped_trans _ _ _ _ _ _ Hh1 Hh2) as Hh. rewrite Ht1 in Ht2.
  pose proof (helped_executing parse_ip cfg received _ _ _ _ Hin Hup Hh Hr) as Hr2.
  pose proof (executing_ok parse_ip cfg received s2 Hok Hr2) as Hs2.
  destruct (alone_sections cfg received chain node _ 1 s2 Hok Hin Hup Hs2 Ht2 (po_sends _ _ _ Hs (ac_chain_id chain)))
    as (s3 & Ha3 & Ht3 & Hsh3 & Hrest3 & Hm3); [rewrite Hq2; done|].
  rewrite <-Hm1, <-Hm2 in Ht. destruct (secure_run _ _ _ _ Ht (ps_shared_good _ _ _ Hs2)) as [Hg3 Hph3]. rewrite <-Hsh3 in Hg3.
  destruct (run_steps (task_of ps chain) (ps_shared s2)).1 as [ph|e]; [|done]. cbn [gives] in Hph3.
  pose proof (alone_executing parse_ip cfg received _ _ _ _ Hin Hup Ha3 Hr2) as Hr3.
  destruct (phase_comes_back (vouch_of cfg received) cfg chain (has_mesh s2) node (config_typed _ _ _ Hok Hin (up_typed _ _ _ Hup))
              (limits_of_chain _ _ Hok Hin) (λ p h, uplink_reported cfg received node p h Hok Hup)
              (ok_backoff _ Hok) Hcap ph Hph3 _ _ Hg3)
    as (msgs & n & announced & db & Hg).
  assert (ps_gossip s3 = mret ()) as Hgo3 by (unfold rest in Hrest3; injection Hrest3; congruence).
  rewrite <-Hm3 in Hg.
  destruct (helped_goes parse_ip cfg received chain node s3 msgs ph _ _ _ Hok Hin Hup Hr3 Ht3 Hgo3 Hg) as (s4 & Hh4 & Ht4 & Hb4).
  pose proof (alone_helped _ _ _ _ _ Ha3) as Hh3.
  exists n, s4. assert (helped cfg chain node ps s4) as Hall by (eapply helped_trans; [exact Hh|by eapply helped_trans]).
  split_and!; [done|by eapply helped_executing|done|].
  etransitivity; [exact Hb1|]. etransitivity; [exact Hb2|]. etransitivity; [by eapply alone_bystanders|done].
Qed.

(** The order book of any state of the process, and the one it would start again
    with, hold validated intents only. *)
Lemma book_validated `{Sha256} `{HexCodec} `{Secp256k1} `{Codec} `{GossipCodec} `{ErrorText} `{DecodeSummary}
    (parse_ip : string → option string) (cfg : Config) (received : Log) (ps : ProcessState) :
  config_ok cfg → executing parse_ip cfg received ps →
  (∀ id i, cache_intents (ps_db ps) !! id = Some i → validated i) ∧
  (∀ id v i, t_intents (disk (ps_db ps)) !! id = Some v → dec_intent v = Some i → validated i).
Proof.
  intros Hok Hr. destruct (po_sound _ _ _ (executing_ok parse_ip cfg received ps Hok Hr)) as [[_ _ Hd] _ _ Hi]. by split.
Qed.

(** ** The theorem at a concrete input

    A node that ingested one block, lost a transaction, and was restarted. *)

#[local] Existing Instances toy_hash plain_hex toy_codec toy_gossip toy_ecdsa toy_errors toy_summary.

(** The explorer of the resolver found the parent of the block. *)
Definition sample_explorer : World :=
  mkWorld (λ _ _ _, Response 200 (Some (String.list_byte_of_string (display_hash (mined_parent 1))))) (λ _, 0) (λ _, 0).
Definition sample_received : Log :=
  net_log (resolve sample_explorer (resolver_of sample_cfg) (mined_parent 1) fresh_net).2.
Lemma sample_resolves p h : resolve_parent sample_node p = Ok (Some h) → p = mined_parent 1 ∧ h = 2800000.
Proof.
  unfold sample_node, resolve_parent. destruct (bool_decide _) eqn:Hb; intros Heq; [|discriminate Heq].
  apply bool_decide_eq_true in Hb. split; [exact Hb|]. by injection Heq.
Qed.
Lemma sample_uplink : uplink sample_cfg sample_received sample_node.
Proof.
  split; [exact sample_typed|]. intros p h (-> & ->)%sample_resolves.
  exists sample_explorer, fresh_net, (resolve sample_explorer (resolver_of sample_cfg) (mined_parent 1) fresh_net).2, sample_received.
  split; [vm_compute; reflexivity|]. split; [symmetry; apply app_nil_r|by intros e].
Qed.

Definition sample_swarm : Swarm := mkSwarm (mkHandle true [] (initial_status "me")) [] [].
Definition sample_process : ProcessState := mkProcess fresh_db ∅ spawned (Some sample_swarm) (mret ()) ∅ [].

Lemma sample_start : executing (λ _, None) sample_cfg sample_received sample_process.
Proof.
  apply exec_start, boots_up. exists [], fresh_db, fresh_db, "me"%string, (λ _, true), (λ _, true).
  split; [reflexivity|]. split; [|reflexivity]. vm_compute. reflexivity.
Qed.

(** After the first round, which announces the block. *)
Definition sample_queued : Swarm := mkSwarm (publish_all_to sample_state.1.1.2 (sw_handle sample_swarm)) [] [].
Lemma sample_executing : ∃ announced tasks,
  executing (λ _, None) sample_cfg sample_received
    (mkProcess sample_ingested announced tasks (Some sample_queued) (mret ()) ∅ []).
Proof.
  pose proof (round_goes sample_cfg sample_chain_cfg true 0 sample_node (mkLoop 0 ∅) fresh_db) as Hg.
  assert (len sample_state.1.1.2 < 1000) as Hroom by (vm_compute; reflexivity).
  destruct (sample_round_Some fresh_db (fresh_ingest_inv _)) as (st & msgs & delay & db & Hrun).
  unfold sample_queued, sample_ingested, sample_state, sample_round in *. rewrite Hrun in *. cbn [default snd fst from_option id] in *.
  destruct (alone_goes sample_cfg sample_received sample_chain_cfg sample_node sample_process msgs _ _ _ _ sample_config_ok
              sample_in sample_uplink (executing_ok _ _ _ _ sample_config_ok sample_start) eq_refl Hg Hroom)
    as (s & Ha & _ & Hsh & Hrest).
  pose proof (alone_executing (λ _, None) sample_cfg sample_received _ _ _ _ sample_in sample_uplink Ha sample_start) as Hex.
  exists (ps_announced s), (ps_tasks s). destruct s as [db' announced tasks [[h pub expl]|] gossip buckets reqs]; [|done].
  unfold rest in Hrest. cbn in *. injection Hsh as _ -> ->. injection Hrest as -> -> -> -> ->. exact Hex.
Qed.

Definition sample_env : RequestEnv := mkEnv None 1500 1501 0 "0.1.0".

Lemma served_block_verifies_witness :
  ∃ ps, executing (λ _, None) sample_cfg sample_received ps ∧
  ∃ r rep s1, dispatch sample_cfg sample_env (GetBlock 8224 1) (sample_app (ps_db ps))
    = (Ok (BBlock r), s1) ∧ br_verification r = Some rep ∧ valid rep = true.
Proof.
  destruct sample_executing as (announced & tasks & Hex). eexists. split; [exact Hex|].
  pose proof (served_block_verifies (λ _, None) sample_cfg sample_received sample_chain_cfg 1 sample_env
                _ (sample_app sample_ingested) sample_config_ok Hex sample_in eq_refl) as Hs. cbv zeta in Hs.
  change (ac_chain_id sample_chain_cfg) with 8224 in Hs. cbn [as_db sample_app] in Hs.
  rewrite sample_block_1 in Hs. destruct Hs as (r & rep & p & wire & b & s1 & s2 & Hd & _ & _ & Hv & Hok & _).
  exists r, rep, s1. split; [exact Hd|]. split; [exact Hv|exact Hok].
Defined.

(** A request for the block, answered call by call. *)
Definition sample_request : ApiRequest := GetBlock 8224 1.
(** The handler alone on the state of such a process: the height of the parent is
    the one the explorer reported. *)
Definition shown_height (r : Result ApiError ApiBody) : option Z :=
  match r with Ok (BBlock b) => br_ltc_height b | _ => None end.
Lemma shown_height_inv x h : shown_height x = Some h → ∃ r, x = Ok (BBlock r) ∧ br_ltc_height r = Some h.
Proof. destruct x as [[]|]; try done. intros Hh. by eexists. Qed.
Lemma sample_height handle :
  shown_height (dispatch sample_cfg sample_env sample_request (mkApp sample_ingested handle)).1 = Some 2800000.
Proof. vm_compute. reflexivity. Qed.

(** It queues nothing. *)
Lemma sample_flows handle : flows (dispatch sample_cfg sample_env sample_request) (mkApp sample_ingested handle).
Proof. vm_compute. tauto. Qed.

Lemma sample_answered : ∃ ps r,
  executing (λ _, None) sample_cfg sample_received ps ∧
  ps_requests ps = [mkInFlight sample_env sample_request (Reply (Ok (BBlock r)))] ∧ br_ltc_height r = Some 2800000.
Proof.
  destruct sample_executing as (announced & tasks & Hex).
  pose proof (exec_arrive (λ _, None) sample_cfg sample_received _ sample_env 0 (mkRequest None None None) sample_request Pass ∅ Hex eq_refl) as Ha.
  match type of Ha with executing _ _ _ ?s =>
    pose proof (eq_refl : ps_db s = sample_ingested) as Hdb; remember s as ps0 eqn:Hps end.
  assert (ps_requests ps0 = [] ++ mkInFlight sample_env sample_request (dispatch sample_cfg sample_env sample_request) :: []) as Hreq
    by (by rewrite Hps).
  assert (flows (dispatch sample_cfg sample_env sample_request) (ps_app ps0)) as Hfl
    by (unfold ps_app; rewrite Hdb; apply sample_flows).
  destruct (executing_runs (λ _, None) sample_cfg sample_received _ ps0 [] [] _ _ sample_config_ok Ha Hreq Hfl) as (s & Hs & Hr & _).
  unfold ps_app in Hr. rewrite Hdb in Hr. set (handle := sw_handle <$> ps_swarm ps0) in Hr.
  destruct (shown_height_inv _ _ (sample_height handle)) as (r & Hd & Hh).
  rewrite Hd in Hr. exists s, r. split_and!; [exact Hs|exact Hr|exact Hh].
Qed.

Lemma every_answer_backed_witness : ∃ ps e r,
  executing (λ _, None) sample_cfg sample_received ps ∧ mkInFlight e sample_request (Reply (Ok (BBlock r))) ∈ ps_requests ps ∧
  br_ltc_height r = Some 2800000 ∧ answers sample_cfg sample_received e sample_request (BBlock r).
Proof.
  destruct sample_answered as (ps & r & Hex & Hr & Hh). exists ps, sample_env, r. split; [exact Hex|].
  assert (mkInFlight sample_env sample_request (Reply (Ok (BBlock r))) ∈ ps_requests ps) as Hin by (rewrite Hr; left).
  split; [exact Hin|]. split; [exact Hh|].
  exact (every_answer_backed (λ _, None) sample_cfg sample_received ps sample_env sample_request (BBlock r) sample_config_ok Hex Hin).
Defined.

(** The swarm publishes the announcement of the block. *)
Lemma sample_published : ∃ ps sw g,
  executing (λ _, None) sample_cfg sample_received ps ∧ ps_swarm ps = Some sw ∧ g ∈ sw_published sw ∧ gm_topic g = TOPIC_HEADERS.
Proof.
  destruct sample_executing as (announced & tasks & Hex). set (sw := sample_queued) in *.
  destruct (ph_queue (sw_handle sw)) as [|g q] eqn:Hq; [exfalso; revert Hq; by vm_compute|].
  assert (gm_topic g = TOPIC_HEADERS) as Ht.
  { assert (gm_topic <$> hd_error (ph_queue (sw_handle sw)) = Some TOPIC_HEADERS) as Hh by (vm_compute; reflexivity).
    rewrite Hq in Hh. by injection Hh. }
  clearbody sw. exists (mkProcess sample_ingested announced tasks (Some (swarm_moves (Recv true) sw)) (mret ()) ∅ []),
    (swarm_moves (Recv true) sw), g.
  split_and!; [|reflexivity|cbn; rewrite Hq; cbn; set_solver|done].
  exact (exec_turn _ _ _ _ None 0 0 (Recv true) sw Hex eq_refl eq_refl).
Qed.

Lemma published_verified_witness : ∃ ps sw g,
  executing (λ _, None) sample_cfg sample_received ps ∧ ps_swarm ps = Some sw ∧ g ∈ sw_published sw ∧
  ∃ c h hash parent lh w, g = mkGossip TOPIC_HEADERS (json_bytes (header_json c h hash parent lh w)) ∧
    verified sample_cfg c hash parent w.
Proof.
  destruct sample_published as (ps & sw & g & Hex & Hsw & Hg & Ht). exists ps, sw, g.
  split; [exact Hex|]. split; [exact Hsw|]. split; [exact Hg|].
  destruct (published_verified (λ _, None) sample_cfg sample_received ps sw g sample_config_ok Hex Hsw Hg)
    as [(c & h & hash & parent & lh & w & Heq & Hv & _)|[(parent & lh & legs & Heq & _)|(i & Heq)]]; [by eexists _, _, _, _, _, _| |]; rewrite Heq in Ht; discriminate Ht.
Defined.

Lemma task_comes_back_witness :
  ∃ ps, executing (λ _, None) sample_cfg sample_received ps ∧ task_of ps sample_chain_cfg ≠ mret Panicked ∧
  ∃ n ps', helped sample_cfg sample_chain_cfg sample_node ps ps' ∧ task_of ps' sample_chain_cfg = mret (Idle n).
Proof.
  destruct sample_executing as (announced & tasks & Hex). eexists. split; [exact Hex|].
  destruct (task_comes_back (λ _, None) sample_cfg sample_received sample_chain_cfg sample_node _
              sample_config_ok ltac:(vm_compute; reflexivity) Hex sample_in sample_uplink)
    as (Hp & _ & n & ps' & Hh & _ & Ht & _).
  split; [exact Hp|]. exists n, ps'. split; [exact Hh|exact Ht].
Defined.
