(* ===== verification/Races.v ===== *)
(** * What two calls can do to each other

    The calls of [src/db.rs] are sequences of sections ([Split]), and the sections of
    two calls interleave.  What holds of every section holds however they do
    ([Sound], [Process]); here is what a call promises alone and not in company: a
    rollback and an insertion under the same parent lose the parent, and the order
    book may grow past its capacity. *)

From S2P Require Export Sound DbThm.

#[local] Open Scope Z_scope.

(** ** Two calls at once *)

(** The sections of the two, in some order, from [s]: their results and the state
    they leave. *)
Inductive interleaved {S A B} : Steps S A → Steps S B → S → Result DbError A * Result DbError B * S → Prop :=
  | both_done r r' s : interleaved (Finished r) (Finished r') s (r, r', s)
  | first_goes {C} (f : S → C * S) k q s out :
      interleaved (k (f s).1) q (f s).2 out → interleaved (Step f k) q s out
  | second_goes {C} (f : S → C * S) k p s out :
      interleaved p (k (f s).1) (f s).2 out → interleaved p (Step f k) s out.

(** An order, [true] for the first. *)
Fixpoint play {S A B} (order : list bool) (p : Steps S A) (q : Steps S B) (s : S) :
    option (Result DbError A * Result DbError B * S) :=
  match p, q with
  | Finished r, Finished r' => Some (r, r', s)
  | _, _ =>
      match order with
      | [] => None
      | true :: order => match p with Step f k => play order (k (f s).1) q (f s).2 | Finished _ => play order p q s end
      | false :: order => match q with Step f k => play order p (k (f s).1) (f s).2 | Finished _ => play order p q s end
      end
  end.

Lemma play_interleaved {S A B} order : ∀ (p : Steps S A) (q : Steps S B) s out,
  play order p q s = Some out → interleaved p q s out.
Proof.
  induction order as [|[] order IH]; intros p q s out; destruct p as [r|C f k], q as [r'|D g l]; cbn; intros Hp;
    try discriminate Hp; try (injection Hp as <-; constructor).
  all: try (by apply first_goes, IH); try (by apply second_goes, IH); by apply IH in Hp.
Qed.

Lemma first_runs {S A B C} (p : Steps S C) (k : C → Steps S A) (q : Steps S B) s c s' out :
  run_steps p s = (Ok c, s') → interleaved (k c) q s' out → interleaved (p ≫= k) q s out.
Proof.
  revert s. unfold mbind, Steps_bind. induction p as [[a|e]|D f l IH]; intros s; cbn; [by intros [= -> ->]|done|].
  intros Hr Hi. apply first_goes. destruct (f s) as [b s1]. by apply IH.
Qed.
Lemma second_runs {S A B C} (p : Steps S C) (k : C → Steps S B) (q : Steps S A) s c s' out :
  run_steps p s = (Ok c, s') → interleaved q (k c) s' out → interleaved q (p ≫= k) s out.
Proof.
  revert s. unfold mbind, Steps_bind. induction p as [[a|e]|D f l IH]; intros s; cbn; [by intros [= -> ->]|done|].
  intros Hr Hi. apply second_goes. destruct (f s) as [b s1]. by apply IH.
Qed.

(** ** The order book *)

Section book.
Context `{Sha256} `{HexCodec} `{Codec}.

(** Nothing in the book has expired. *)
Definition fresh_book (now : Z) (db : Database) : Prop := ∀ id i, cache_intents db !! id = Some i → now < expiry i.

Lemma nothing_expired now db : fresh_book now db → run_steps (prune_expired_intents_steps now) db = (Ok 0, db).
Proof.
  intros Hf. unfold prune_expired_intents_steps.
  rewrite run_steps_bind, (run_scan _ _ (λ e, if expiry e.2 <=? now then Some e.1 else None)) by done.
  replace (omap _ _) with (@nil string); [done|]. symmetry.
  assert (∀ id i, (id, i) ∈ map_to_list (cache_intents db) → now < expiry i) as Hl.
  { intros id i Hin%elem_of_map_to_list. by eapply Hf. }
  induction (map_to_list (cache_intents db)) as [|[id i] l IH]; [done|]. cbn.
  destruct (_ <=? _) eqn:E; reflect_bools; [specialize (Hl id i ltac:(left)); lia|]. apply IH. set_solver.
Qed.

(** The capacity is checked in one section and the intent inserted in another: with
    one place left, two insertions at once both succeed, and the book holds more
    than its maximum. *)
Theorem capacity_exceeded (now : Z) (i j : SwapIntentMessage) (db : Database) :
  Z.of_nat (size (cache_intents db)) = MAX_ACTIVE_INTENTS - 1 → fresh_book now db → faults db = [] →
  cache_intents db !! intent_id i = None → cache_intents db !! intent_id j = None → intent_id i ≠ intent_id j →
  ∃ db', interleaved (insert_intent_steps now i) (insert_intent_steps now j) db (Ok (), Ok (), db') ∧
    Z.of_nat (size (cache_intents db')) = MAX_ACTIVE_INTENTS + 1.
Proof.
  intros Hsize Hfresh Hf Hi Hj Hne. eexists. split.
  - eapply first_runs; [by apply nothing_expired|]. eapply second_runs; [by apply nothing_expired|].
    apply first_goes, second_goes. cbn [fst snd]. rewrite (proj2 (Z.leb_gt _ _)) by lia.
    apply first_goes, first_goes, second_goes, second_goes. cbn. unfold write_txn. cbn. rewrite Hf. cbn. constructor.
  - cbn. rewrite map_size_insert_None by (rewrite lookup_insert_ne; done). rewrite map_size_insert_None by done. lia.
Qed.
End book.

(** ** A rollback and an insertion under one parent *)

#[local] Existing Instances toy_hash toy_codec.

(** One block of a chain under the parent; a block of another chain is inserted under
    it while the first chain rolls back. *)
Definition before_race : Database := (insert_blocks [sample_row 8224 10] (mkDb empty_disk ∅ ∅ ∅ ∅ ∅ [])).2.
Definition race (order : list bool) : option (Result DbError Z * Result DbError unit * Database) :=
  play order (rollback_from_steps 8224 10) (insert_blocks_steps [sample_row 50 7]) before_race.
(** The rollback finds the list of the parent empty; the insertion finds the parent
    known; the rollback drops it. *)
Definition bad_order : list bool := repeat true 7 ++ repeat false 4 ++ repeat true 9.

(** The parent is known, to be classified, and listed with its block. *)
Definition parent_kept (out : option (Result DbError Z * Result DbError unit * Database)) : bool :=
  match out with
  | Some (Ok 1, Ok _, db) =>
      bool_decide (cache_blocks db !! (50, 7) = Some (sample_block 50 7)) &&
      bool_decide (sample_parent ∈ unclassified_parents db)
  | _ => false
  end.
Definition parent_lost (out : option (Result DbError Z * Result DbError unit * Database)) : bool :=
  match out with
  | Some (Ok 1, Ok _, db) =>
      bool_decide (cache_blocks db !! (50, 7) = Some (sample_block 50 7)) &&
      bool_decide (db_parent_hash (sample_block 50 7) = Some sample_parent) &&
      match (get_parent sample_parent db).1 with Ok None => true | _ => false end &&
      bool_decide (unclassified_parents db = [])
  | _ => false
  end.

(** One call after the other, in either order, the block of the other chain keeps
    its parent; interleaved, both calls succeed and the block stays, but its parent
    is gone: it will not be classified, and no group or epoch will show the block. *)
Theorem rollback_loses_parent :
  parent_kept (race (repeat true 30 ++ repeat false 30)) = true ∧
  parent_kept (race (repeat false 30 ++ repeat true 30)) = true ∧
  ∃ out, interleaved (rollback_from_steps 8224 10) (insert_blocks_steps [sample_row 50 7]) before_race out ∧
    parent_lost (Some out) = true.
Proof.
  split; [vm_compute; reflexivity|]. split; [vm_compute; reflexivity|].
  assert (parent_lost (race bad_order) = true) as Hlost by (vm_compute; reflexivity).
  destruct (race bad_order) as [out|] eqn:Hrace; [|discriminate Hlost].
  exists out. split; [by eapply play_interleaved|exact Hlost].
Qed.
