(* ===== verification/Wasm.v ===== *)
(** * The WASM verifier

    [crates/psob-wasm/src/lib.rs]: the verdict a wallet computes from a wire
    payload, and the packing of the answer.  The module is built for wasm32, so it
    parses with a [usize] of 32 bits: what the node parses it parses to the same
    object, but a cast that drops the high bits makes it parse payloads that the
    node rejects.  [1 << depth] wraps as in a release build.  The rendering of the
    object, and the address the allocator gives to the buffer, are arguments.  The
    theorem compares the verdict with the node's. *)

From S2P Require Export Swap.

#[local] Open Scope Z_scope.

Record WasmVerdict := mkVerdict {
  wv_valid : bool;
  wv_chain_id : Z;
  wv_block_hash : string;
  wv_parent_hash : string;
  wv_parent_chain_id : option Z;
  wv_header_format : bool;
  wv_proof1 : bool;
  wv_proof2 : bool;
  wv_anti_grind_ok : option bool;
  wv_n_size : Z;
  wv_nonce : Z;
  wv_chain_index : Z;
  wv_chain_branch_depth : Z
}.

(** [buf.as_ptr() as u64 | (buf.len() as u64) << 32]. *)
Definition pack (ptr n : Z) : Z := Z.lor ptr (u64_wrap (Z.shiftl n 32)).

Section wasm.
Context `{Sha256} `{HexCodec}.

(** The coinbase's tail, its two numbers and the slot it commits to. *)
Definition anti_grind (a : AuxPow) (chain_id : Z) : Z * Z * option bool :=
  match (pos ← find_subslice (coinbase_tx a) AUXPOW_MAGIC;
         let tail_pos := Z.of_nat pos + len AUXPOW_MAGIC in
         get_range (coinbase_tx a) tail_pos (tail_pos + 40)) with
  | Some tail =>
      let n_size := le_num (slice tail 32 36) in
      let nonce := le_num (slice tail 36 40) in
      let depth := u32_wrap (len (chain_merkle_branch a)) in
      let rand := nonce in
      let rand := u32_wrapping_add (u32_wrapping_mul rand 1103515245) 12345 in
      let rand := u32_wrapping_add rand chain_id in
      let rand := u32_wrapping_add (u32_wrapping_mul rand 1103515245) 12345 in
      let expected := rand mod (u32_shl 1 depth) in
      (n_size, nonce, Some ((n_size =? u32_shl 1 depth) && (chain_index a =? expected)))
  | None => (0, 0, None)
  end.

Definition can_take_headers (base : bytes) : bool :=
  let bits := le_num (slice base 72 76) in
  match expand_target bits with
  | Some t => match expand_target CHAIN_POW_LIMIT_BITS with Some pl => target_leq t pl | None => false end
  | None => false
  end.

Definition verify_to_json (wire : bytes) (chain_id : Z) : option WasmVerdict :=
  '(base, a) ← result_ok (parse_auxpow (U := usize32) wire);
  let id := sha256d base in
  let parent_id := sha256d (parent_header a) in
  let verdict := verify_auxpow_commitment id a chain_id in
  let '(n_size, nonce, index_ok) := anti_grind a chain_id in
  Some (mkVerdict verdict chain_id (hex_encode (rev id)) (hex_encode (rev parent_id)) (parent_chain_id a)
          (can_take_headers base)
          ((parent_index a =? 0) && match parent_chain_id a with Some p => negb (p =? chain_id) | None => false end)
          verdict index_ok n_size nonce (chain_index a) (len (chain_merkle_branch a))).

(** The text of the answer; [to_string] is an argument. *)
Definition psb_verify_json (to_string : WasmVerdict → option string) (data : bytes) (chain_id : Z) : string :=
  match verify_to_json data chain_id with
  | Some x => match to_string x with
              | Some s => s +:+ String (Ascii.ascii_of_N 10) EmptyString
              | None => "{" +:+ json_key "valid" +:+ "false," +:+ json_key "fatal" +:+ json_str "serialize" +:+ "}"
              end
  | None => "{" +:+ json_key "valid" +:+ "false," +:+ json_key "fatal" +:+ json_str "parse" +:+ "}"
  end.

(** The new contents of the static buffer, at [ptr], and the packed answer. *)
Definition psb_verify_alloc (to_string : WasmVerdict → option string) (ptr : Z) (data : bytes)
    (chain_id : Z) : bytes * Z :=
  let buf := as_bytes (psb_verify_json to_string data chain_id) in (buf, pack ptr (len buf)).
Definition psb_status (ptr : Z) : bytes * Z :=
  let buf := as_bytes ("psob-wasm:ok0" +:+ String (Ascii.ascii_of_N 10) EmptyString) in (buf, pack ptr (len buf)).
End wasm.

(** The caller gets the address and the length back. *)
Lemma pack_unpack ptr n :
  is_u32 ptr → is_u32 n → Z.land (pack ptr n) u32_max = ptr ∧ Z.shiftr (pack ptr n) 32 = n.
Proof.
  unfold is_u32, u32_max, pack, u64_wrap. intros Hp Hn.
  assert (Z.shiftl n 32 mod 2 ^ 64 = Z.shiftl n 32) as ->.
  { apply Z.mod_small. rewrite Z.shiftl_mul_pow2 by lia. lia. }
  split.
  - change (2 ^ 32 - 1) with (Z.ones 32). rewrite Z.land_lor_distr_l, !Z.land_ones by lia.
    rewrite (Z.mod_small ptr), Z.shiftl_mul_pow2, Z.mod_mul by lia. apply Z.lor_0_r.
  - rewrite Z.shiftr_lor, Z.shiftr_shiftl_l, Z.sub_diag, Z.shiftl_0_r by lia.
    rewrite (Z.shiftr_div_pow2 ptr), Z.div_small by lia. done.
Qed.

(** ** Parsing with 32 bits *)

(** What succeeds with 64 bits succeeds with 32, with the same value, which has [P]. *)
Definition narrows {A} (P : A → Prop) (r32 r64 : AuxPowParseResult A) : Prop :=
  ∀ a, r64 = Ok a → r32 = Ok a ∧ P a.
(** A cursor into a buffer of the 32-bit address space. *)
Definition in_reach (c : Cursor) : Prop := 0 ≤ cp c ≤ len (cb c) ∧ len (cb c) < 2 ^ 32.

Lemma narrows_bind {A B} (P : A → Prop) (Q : B → Prop) r32 r64 k32 k64 :
  narrows P r32 r64 → (∀ a, P a → narrows Q (k32 a) (k64 a)) → narrows Q (r32 ≫= k32) (r64 ≫= k64).
Proof. intros Hr Hk b (a & Ha & Hb)%bind_Ok. destruct (Hr a Ha) as [-> Hp]. by apply Hk. Qed.
Lemma narrows_ret {A} (P : A → Prop) a : P a → narrows P (Ok a) (Ok a).
Proof. by intros Hp b [= <-]. Qed.
Lemma narrows_err {A} (P : A → Prop) r e : narrows P r (Err e).
Proof. by intros b. Qed.
Lemma narrows_map_err {A} (P : A → Prop) h r32 r64 : narrows P r32 r64 → narrows P (map_err h r32) (map_err h r64).
Proof. intros Hr a Ha. destruct r64; [|done]. injection Ha as ->. by destruct (Hr a eq_refl) as [-> ?]. Qed.
Lemma narrows_weaken {A} (P Q : A → Prop) r32 r64 : narrows P r32 r64 → (∀ a, P a → Q a) → narrows Q r32 r64.
Proof. intros Hr Hq a Ha. destruct (Hr a Ha). auto. Qed.
Lemma narrows_repeat {A} (P : A → Prop) n f32 f64 a :
  (∀ a, P a → narrows P (f32 a) (f64 a)) → P a → narrows P (repeat_Z n f32 a) (repeat_Z n f64 a).
Proof.
  intros Hf. rewrite !repeat_Z_nat. revert a. induction (Z.to_nat n) as [|k IH]; intros a Ha; cbn [repeat_nat].
  - by apply narrows_ret.
  - eapply narrows_bind; [by apply Hf|]. intros b Hb. by apply IH.
Qed.

Lemma narrows_take c n :
  in_reach c → 0 ≤ n →
  narrows (λ r, in_reach r.2 ∧ n < 2 ^ 32) (take_bytes (U := usize32) c n) (take_bytes c n).
Proof.
  intros [Hc Hl] Hn [s c']. unfold take_bytes, usize_checked_add.
  destruct (_ <=? 2 ^ @usize_bits usize64 - 1) eqn:E; [|done]. cbn [ok_or mbind Result_bind].
  destruct (_ <? _) eqn:E2; [done|]. reflect_bools. intros [= <- <-].
  change (@usize_bits usize32) with 32.
  destruct (_ <=? 2 ^ 32 - 1) eqn:E3; reflect_bools; [|lia]. cbn [ok_or mbind Result_bind].
  destruct (_ <? _) eqn:E4; reflect_bools; [lia|]. split; [done|]. unfold in_reach. cbn. lia.
Qed.
Lemma narrows_take_reach c n :
  in_reach c → 0 ≤ n →
  narrows (λ r, in_reach r.2) (take_bytes (U := usize32) c n) (take_bytes c n).
Proof. intros Hc Hn. eapply narrows_weaken; [by apply narrows_take|]. by intros r [? _]. Qed.

Lemma varint_u64 c n c' : in_reach c → varint c = Ok (n, c') → is_u64 n.
Proof.
  intros [Hc Hl] Hv. destruct c as [b p]. cbn [cb cp] in *.
  assert (mkCursor b p = cursor_at (take (Z.to_nat p) b) (drop (Z.to_nat p) b)) as Heq.
  { unfold cursor_at. rewrite take_drop. f_equal. unfold len in *. rewrite length_take. lia. }
  rewrite Heq in Hv. apply parses_varint in Hv as (w & _ & Hw & _).
  - by eapply varint_enc_range.
  - rewrite take_drop. unfold usize_max, u64_max. lia.
Qed.
Lemma narrows_varint c :
  in_reach c → narrows (λ r, in_reach r.2 ∧ is_u64 r.1) (varint (U := usize32) c) (varint c).
Proof.
  intros Hc [n c'] Hv. pose proof (varint_u64 c n c' Hc Hv) as Hn. revert Hv.
  enough (narrows (λ r, in_reach r.2) (varint (U := usize32) c) (varint c)) as Hw
    by (intros Hv; by destruct (Hw _ Hv)).
  unfold varint. eapply narrows_bind; [by apply narrows_take_reach|]. intros [s c1] Hc1. cbn [snd] in Hc1. cbv zeta.
  repeat (case_decide; [eapply narrows_bind; [by apply narrows_take_reach|]; intros [s' c2] Hc2; by apply narrows_ret|]).
  by apply narrows_ret.
Qed.

(** A length that was cast, and the bytes it counts. *)
Lemma narrows_sized {B} (Q : B → Prop) h c n (k32 k64 : bytes * Cursor → AuxPowParseResult B) :
  in_reach c → is_u64 n →
  (∀ s c', in_reach c' → as_usize (U := usize32) n = as_usize n → narrows Q (k32 (s, c')) (k64 (s, c'))) →
  narrows Q (map_err h (take_bytes (U := usize32) c (as_usize (U := usize32) n)) ≫= k32)
    (map_err h (take_bytes c (as_usize n)) ≫= k64).
Proof.
  intros Hc Hn Hk b (r & Hr & Hb)%bind_Ok. assert (0 ≤ as_usize n) as H0 by (rewrite as_usize_id by done; apply Hn).
  destruct (narrows_map_err _ h _ _ (narrows_take c (as_usize n) Hc H0) r Hr) as [E [Hc' Hlt]].
  assert (as_usize (U := usize32) n = as_usize n) as Heq.
  { rewrite (as_usize_id n) in Hlt |- * by done. unfold as_usize. apply Z.mod_small.
    change (@usize_bits usize32) with 32. unfold is_u64 in Hn. lia. }
  rewrite Heq, E. destruct r as [s c']. by apply (Hk s c').
Qed.

(** A step that reads a fixed field or a varint. *)
Ltac narrow_field := eapply narrows_bind; [apply narrows_take_reach; [done|lia]|]; intros [? ?] ?; cbn [snd] in *.
Ltac narrow_varint := eapply narrows_bind; [by apply narrows_varint|]; intros [? ?] [? ?]; cbn [fst snd] in *.

Lemma narrows_input st :
  in_reach st.2 → narrows (λ st, in_reach st.2) (take_input (U := usize32) st) (take_input st).
Proof.
  destruct st as [l c]. cbn [snd]. intros Hc. unfold take_input. narrow_field. narrow_varint. cbv zeta.
  apply narrows_sized; [done..|]. intros s c' Hc' ->. narrow_field. by apply narrows_ret.
Qed.
Lemma narrows_output st :
  in_reach st.2 → narrows (λ st, in_reach st.2) (take_output (U := usize32) st) (take_output st).
Proof.
  destruct st as [l c]. cbn [snd]. intros Hc. unfold take_output. narrow_field. narrow_varint. cbv zeta.
  apply narrows_sized; [done..|]. intros s c' Hc' ->. by apply narrows_ret.
Qed.
Lemma map_err_id {E A} (r : Result E A) : map_err (λ e, e) r = r.
Proof. by destruct r. Qed.
Lemma narrows_item c : in_reach c → narrows in_reach (take_item (U := usize32) c) (take_item c).
Proof.
  intros Hc. unfold take_item. narrow_varint.
  pose proof (narrows_sized in_reach (λ e, e) c0 z (λ '(_, c), Ok c) (λ '(_, c), Ok c)) as Hs.
  rewrite !map_err_id in Hs. apply Hs; [done..|]. intros s c' Hc' _. by apply narrows_ret.
Qed.
Lemma narrows_witness c : in_reach c → narrows in_reach (take_witness (U := usize32) c) (take_witness c).
Proof. intros Hc. unfold take_witness. narrow_varint. apply narrows_repeat; [apply narrows_item|done]. Qed.
Lemma narrows_counts c :
  in_reach c → narrows (λ r, in_reach r.2) (take_counts (U := usize32) c) (take_counts c).
Proof.
  intros Hc. unfold take_counts. narrow_varint. destruct (_ =? 0); [|by apply narrows_ret]. narrow_field.
  destruct (negb _); [apply narrows_err|]. narrow_varint. destruct (_ =? 0); [apply narrows_err|by apply narrows_ret].
Qed.
Lemma narrows_tx c : in_reach c → narrows (λ r, in_reach r.2) (take_tx (U := usize32) c) (take_tx c).
Proof.
  intros Hc. unfold take_tx. narrow_field. eapply narrows_bind; [by apply narrows_counts|].
  intros [[nin sw] c1] Hc1. cbn [snd] in Hc1. cbv zeta.
  eapply narrows_bind; [apply narrows_repeat; [apply narrows_input|done]|]. intros [l2 c2] Hc2. cbn [snd] in Hc2.
  narrow_varint. eapply narrows_bind; [apply narrows_repeat; [apply narrows_output|done]|].
  intros [l4 c4] Hc4. cbn [snd] in Hc4.
  eapply (narrows_bind in_reach); [destruct sw; [apply narrows_repeat; [apply narrows_witness|done]|by apply narrows_ret]|].
  intros c5 Hc5. narrow_field. by apply narrows_ret.
Qed.
Lemma narrows_branch c : in_reach c → narrows (λ r, in_reach r.2) (branch (U := usize32) c) (branch c).
Proof.
  intros Hc. unfold branch. narrow_varint. cbv zeta. destruct (Z.shiftl 1 20 <? as_usize (U := usize64) z) eqn:Hz; [apply narrows_err|]. reflect_bools.
  assert (as_usize (U := usize32) z = as_usize z) as ->.
  { rewrite (as_usize_id z) in Hz |- * by done. unfold as_usize. apply Z.mod_small.
    change (@usize_bits usize32) with 32. change (Z.shiftl 1 20) with (2 ^ 20) in Hz. unfold is_u64 in *. lia. }
  apply Z.ltb_ge in Hz as ->. apply narrows_repeat; [|done].
  intros [l c1] Hc1. unfold branch_step, hash32. narrow_field. by apply narrows_ret.
Qed.

(** What the node parses, the wallet parses, to the same object. *)
Lemma parse_narrows wire r :
  len wire < 2 ^ 32 → parse_auxpow wire = Ok r → parse_auxpow (U := usize32) wire = Ok r.
Proof.
  intros Hl Hr. enough (narrows (λ _, True) (parse_auxpow (U := usize32) wire) (parse_auxpow wire)) as Hn
    by (by destruct (Hn r Hr)). clear Hr. unfold parse_auxpow.
  destruct (_ <? _) eqn:E1; [apply narrows_err|]. cbv zeta. destruct (_ =? _); [apply narrows_err|]. reflect_bools.
  assert (in_reach (mkCursor wire HEADER_LEN)) as Hc by (unfold in_reach, HEADER_LEN in *; cbn; lia).
  eapply narrows_bind; [by apply narrows_tx|]. intros [[cbtx ce] c1] Hc1. cbn [snd] in Hc1. unfold hash32, u32_le.
  narrow_field. eapply narrows_bind; [by apply narrows_branch|]. intros [b1 c3] Hc3. cbn [snd] in Hc3.
  eapply (narrows_bind (λ r, in_reach r.2)); [narrow_field; by apply narrows_ret|]. intros [i1 c4] Hc4. cbn [snd] in Hc4.
  eapply narrows_bind; [by apply narrows_branch|]. intros [b2 c5] Hc5. cbn [snd] in Hc5.
  eapply (narrows_bind (λ r, in_reach r.2)); [narrow_field; by apply narrows_ret|]. intros [i2 c6] Hc6. cbn [snd] in Hc6.
  eapply narrows_bind; [apply narrows_map_err, narrows_take_reach; [done|unfold HEADER_LEN; lia]|].
  intros [ph c7] _. by apply narrows_ret.
Qed.
Lemma parse_base32 wire base a :
  parse_auxpow (U := usize32) wire = Ok (base, a) → len base = 80.
Proof.
  unfold parse_auxpow. destruct (_ <? _) eqn:E; [done|]. cbv zeta. destruct (_ =? _); [done|]. reflect_bools.
  intros ([[cbtx ce] c1] & _ & Hr)%bind_Ok. repeat (apply bind_Ok in Hr as ([? ?] & _ & Hr)).
  injection Hr as <- _. unfold HEADER_LEN in *. rewrite len_slice; lia.
Qed.

(** ** The verdict against the other verifiers *)

Lemma anti_grind_commits `{Sha256} h a cid :
  verify_auxpow_commitment h a cid = true →
  let out := verify_proof2 h a cid in
  anti_grind a cid = (p2_n_size out, p2_nonce out, Some true).
Proof.
  unfold verify_auxpow_commitment, verify_proof2, anti_grind.
  destruct (negb (parent_index a =? 0)); [done|]. destruct (parent_chain_id a) as [pid|]; [|done].
  destruct (negb (pid =? cid) && _); [|done]. destruct (parent_merkle_root a) as [root|]; [|done]. cbv zeta.
  destruct (negb (bool_decide _)); [done|]. destruct (30 <? len (chain_merkle_branch a)) eqn:Hd; [done|]. reflect_bools.
  destruct (find_subslice (coinbase_tx a) AUXPOW_MAGIC) as [i|]; [|done]. cbn [mbind option_bind].
  destruct (find_subslice (drop (i + 1) (coinbase_tx a)) AUXPOW_MAGIC); [done|].
  destruct (get_range _ _ _) as [tail|]; [|done].
  destruct (bool_decide (slice tail 0 32 = _)); cbn [negb]; [|done].
  assert (u32_wrap (len (chain_merkle_branch a)) = len (chain_merkle_branch a)) as ->.
  { unfold u32_wrap. apply Z.mod_small. unfold len in *. lia. }
  destruct (le_num (slice tail 32 36) =? _) eqn:Hn; cbn [negb]; [|done].
  intros Hidx. unfold get_expected_index in Hidx. cbv zeta in Hidx. by rewrite Hidx.
Qed.

Lemma can_take_headers_spec base :
  80 ≤ len base →
  can_take_headers base = true ↔
  compact_valid (le_num (slice base 72 76)) ∧
  compact_value (le_num (slice base 72 76)) ≤ compact_value CHAIN_POW_LIMIT_BITS.
Proof.
  intros Hl. unfold can_take_headers. assert (is_u32 (le_num (slice base 72 76))) as Hb by (apply slice_u32; lia).
  assert (is_u32 CHAIN_POW_LIMIT_BITS) as Hp by (unfold is_u32, u32_max, CHAIN_POW_LIMIT_BITS; lia).
  assert (compact_valid CHAIN_POW_LIMIT_BITS) as Hpv by (apply (bool_decide_unpack _); vm_compute; exact I).
  rewrite !expand_target_spec by done.
  destruct (decide (compact_valid (le_num _))) as [Hv|Hv]; [|split; [done|by intros []]].
  destruct (decide (compact_valid CHAIN_POW_LIMIT_BITS)); [|done].
  rewrite target_leq_compact by done. rewrite Z.leb_le. tauto.
Qed.

(** ** Properties *)

(** C25: the wallet's verdict.  For a payload of less than 2^32 bytes, it is given
    exactly when the payload parses with a [usize] of 32 bits, which it does, to the
    same object, whenever the indexer parses it (the converse fails:
    [wasm_parses_more]); [valid] is the guest's merged-mining commitment of what was
    parsed, and then the two partial verdicts and the slot check are positive with
    the numbers of the indexer's report; the header rules are apart: the indexer's
    check under the network's limit passes exactly when [valid] and [header_format]
    hold and the header itself carries the chain id asked for, which nothing in the
    answer tells. *)
Theorem wasm_verdict_correct `{Sha256} `{HexCodec} (wire : bytes) (cid : Z) (Hfit : len wire < 2 ^ 32) :
  match verify_to_json wire cid with
  | None => ∃ e e', parse_auxpow (U := usize32) wire = Err e ∧ parse_auxpow wire = Err e'
  | Some v => ∃ base a, parse_auxpow (U := usize32) wire = Ok (base, a) ∧
      (∀ r, parse_auxpow wire = Ok r → r = (base, a)) ∧
      (wv_valid v = true ↔ commits (sha256d base) a cid) ∧ wv_proof2 v = wv_valid v ∧
      (wv_valid v = true → wv_proof1 v = true ∧ wv_anti_grind_ok v = Some true ∧
         wv_n_size v = p2_n_size (verify_proof2 (sha256d base) a cid) ∧
         wv_nonce v = p2_nonce (verify_proof2 (sha256d base) a cid) ∧ wv_parent_chain_id v = Some LTC_CHAIN_ID) ∧
      wv_block_hash v = hash_display (sha256d base) ∧
      (light_verify base a cid CHAIN_POW_LIMIT_BITS = Ok (sha256d base) ↔
         wv_valid v = true ∧ wv_header_format v = true ∧ le_num (slice base 0 4) / 2 ^ 16 = cid)
  end.
Proof.
  unfold verify_to_json. pose proof (parse_narrows wire) as Hn.
  destruct (parse_auxpow (U := usize32) wire) as [[base a]|e] eqn:Hp.
  2: { destruct (parse_auxpow (U := usize64) wire) as [r|e'] eqn:Hp'; [by specialize (Hn r Hfit eq_refl)|by exists e, e']. }
  cbn [mbind option_bind result_ok].
  destruct (anti_grind a cid) as [[n nonce] ok] eqn:Hag. exists base, a. split; [done|].
  split; [intros r Hr; specialize (Hn r Hfit Hr); congruence|]. clear Hn.
  pose proof (verify_auxpow_spec (sha256d base) a cid (length_sha256d _)) as Hiff.
  pose proof (parse_base32 wire base a Hp) as Hlen.
  assert (is_u32 CHAIN_POW_LIMIT_BITS) as Hpl by (unfold is_u32, u32_max, CHAIN_POW_LIMIT_BITS; lia).
  assert (compact_valid CHAIN_POW_LIMIT_BITS) as Hpv by (apply (bool_decide_unpack _); vm_compute; exact I).
  cbn [wv_valid wv_proof1 wv_proof2 wv_anti_grind_ok wv_n_size wv_nonce wv_parent_chain_id wv_block_hash wv_header_format].
  split_and!; [done|done| |done|].
  - intros Hv. pose proof (anti_grind_commits _ _ _ Hv) as Hc. cbv zeta in Hc. rewrite Hag in Hc.
    injection Hc as -> -> ->. unfold verify_auxpow_commitment in Hv.
    destruct (parent_index a =? 0); [|done]. destruct (parent_chain_id a) as [pid|]; [|done].
    cbn [negb andb] in Hv |- *. destruct (negb (pid =? cid)); [|done].
    destruct (pid =? LTC_CHAIN_ID) eqn:Hltc; [|done]. reflect_bools. by subst pid.
  - rewrite light_verify_spec, Hiff, can_take_headers_spec by (done || lia). split.
    + intros (_ & [? ? ? ? ?] & ?). done.
    + intros (? & [? ?] & ?). split_and!; [done| |done]. by split.
Qed.

(** ** The theorem at a concrete input *)

Lemma wasm_verdict_correct_witness :
  len sample_wire < 2 ^ 32 ∧
  is_Some (@verify_to_json toy_hash plain_hex sample_wire 8224).
Proof.
  assert (len sample_wire < 2 ^ 32) as Hl by (vm_compute; reflexivity). split; [exact Hl|].
  pose proof (@wasm_verdict_correct toy_hash plain_hex sample_wire 8224 Hl) as Hw.
  destruct (@verify_to_json toy_hash plain_hex sample_wire 8224) as [v|] eqn:Hv; [by eexists|].
  vm_compute in Hv. discriminate Hv.
Defined.

(** The length of the coinbase's first script written as 2^32: the indexer rejects the
    payload, the wallet drops the high bits and parses it. *)
Definition wrapped_wire : bytes :=
  sample_base ++ le_bytes 4 1 ++ [x01] ++ replicate 36 x11 ++ [xff] ++ le_bytes 8 (2 ^ 32) ++ replicate 4 xff
    ++ [x00] ++ le_bytes 4 0 ++ replicate 32 x00 ++ [x00] ++ le_bytes 4 0 ++ [x00] ++ le_bytes 4 0 ++ replicate 80 x00.
Lemma wasm_parses_more :
  is_ok (parse_auxpow wrapped_wire) = false ∧ is_ok (parse_auxpow (U := usize32) wrapped_wire) = true.
Proof. by vm_compute. Qed.
