(* ===== verification/Explain.v ===== *)
(** * The explain tool

    [src/bin/psob-explain.rs]: its arguments, the one maintenance command, and what
    it reports of a database: the shared parents, the invariant of the top group
    and the epoch's blocks by chain.  The text printed is left out; a report is the
    data printed. *)

From S2P Require Export System.

#[local] Open Scope Z_scope.

(** ** Arguments *)

Record ExplainArgs := mkArgs {
  xa_ltc_start : option Z;
  xa_ltc_end : option Z;
  xa_min_legs : Z;
  xa_prune_chain : option Z
}.
Definition args_default : ExplainArgs := mkArgs None None 2 None.

(** The flags from the third argument on; a flag's value is the next argument,
    whatever it is, and a value that does not parse unsets the flag, except
    [--legs], which keeps what it had. *)
Fixpoint parse_flags (args : list string) (a : ExplainArgs) : option ExplainArgs :=
  match args with
  | [] => Some a
  | flag :: rest =>
      let value := hd_error rest in
      let next a := match rest with [] => Some a | _ :: rest => parse_flags rest a end in
      if bool_decide (flag = "--prune-chain"%string)
      then next (mkArgs (xa_ltc_start a) (xa_ltc_end a) (xa_min_legs a) (value ≫= parse_u32))
      else if bool_decide (flag = "--ltc-start"%string)
      then next (mkArgs (value ≫= parse_u64) (xa_ltc_end a) (xa_min_legs a) (xa_prune_chain a))
      else if bool_decide (flag = "--ltc-end"%string)
      then next (mkArgs (xa_ltc_start a) (value ≫= parse_u64) (xa_min_legs a) (xa_prune_chain a))
      else if bool_decide (flag = "--legs"%string)
      then next (mkArgs (xa_ltc_start a) (xa_ltc_end a) (default (xa_min_legs a) (value ≫= parse_u64)) (xa_prune_chain a))
      else None
  end.

(** ** The report *)

Section explain.
Context `{Sha256} `{HexCodec} `{Codec}.

Definition root_committed_in_coinbase (coinbase_tx chain_root : bytes) : bool :=
  match find_subslice coinbase_tx AUXPOW_MAGIC with
  | None => false
  | Some magic_at =>
      match get_range coinbase_tx (Z.of_nat magic_at + 4) (Z.of_nat magic_at + 4 + 32) with
      | None => false
      | Some tail => bool_decide (rev tail = chain_root)
      end
  end.

(** A sibling's chain root; [None] is the [expect] on a block without a witness. *)
Definition sibling_root (b : StoredBlock) : option (Z * Z * bytes) :=
  a ← aux (sb_header b);
  Some (sb_chain_id b, sb_height b,
        merkle_fold_branch (sha256d (raw (sb_header b))) (chain_merkle_branch a) (chain_index a)).

Record GroupCheck := mkGroupCheck {
  gc_roots : list (Z * Z * bytes);
  gc_all_same : bool;
  gc_committed : bool
}.

(** The invariant check on a group; [None] is a panic. *)
Definition check_group (siblings : list StoredBlock) : option GroupCheck :=
  roots ← mapM sibling_root siblings;
  first ← hd_error roots;
  top ← hd_error siblings;
  a ← aux (sb_header top);
  Some (mkGroupCheck roots (forallb (λ r : Z * Z * bytes, bool_decide (r.2 = first.2)) roots)
          (root_committed_in_coinbase (coinbase_tx a) first.2)).

(** The rows of an epoch by chain, in the order of the chains. *)
Definition add_row (m : gmap Z (list (Z * Z * bytes))) (r : Z * Z * Z * bytes) :=
  let '(c, h, l, x) := r in <[c := default [] (m !! c) ++ [(h, l, x)]]> m.
Definition rows_by_chain (rows : list (Z * Z * Z * bytes)) : list (Z * list (Z * Z * bytes)) :=
  sort_by (λ a b, a.1 <=? b.1) (map_to_list (foldl add_row ∅ rows)).

Inductive ExplainOutcome :=
  | Usage
  | UnknownFlag
  | OpenFailed (e : DbError)
  | PruneDone (removed : Z)
  | PruneFailed (e : DbError)
  | Panicked
  | Explained (shared : list SharedParent) (group : option GroupCheck)
      (epoch : option (list (Z * list (Z * Z * bytes)))).

(** The invariant check on the top group, if there is one. *)
Definition check_top (shared : list SharedParent) (db : Database) : option (option GroupCheck) :=
  match shared with
  | [] => Some None
  | top :: _ => Some <$> check_group (siblings_for_parent (shp_parent_hash_le top) db)
  end.

(** [main], on the disk the path names. *)
Definition explain (args : list string) (d : Disk) : ExplainOutcome :=
  match args with
  | _ :: _ :: flags =>
      match parse_flags flags args_default with
      | None => UnknownFlag
      | Some a =>
          match open d false with
          | Err e => OpenFailed e
          | Ok db =>
              match xa_prune_chain a with
              | Some c => match (prune_before c u64_max db).1 with
                          | Ok n => PruneDone n
                          | Err e => PruneFailed e
                          end
              | None =>
                  let shared := (shared_mainnet_parents (xa_min_legs a) (Page_new (Some 10) (Some 0)) None db).1 in
                  match check_top shared db with
                  | None => Panicked
                  | Some group =>
                      Explained shared group
                        (match xa_ltc_start a, xa_ltc_end a with
                         | Some s, Some e => Some (rows_by_chain (epoch_blocks s e None Page_default db).1)
                         | _, _ => None
                         end)
                  end
              end
          end
      end
  | _ => Usage
  end.
End explain.

(** ** The coinbase of a committing block *)

Lemma commits_root_shown `{Sha256} h a cid :
  length h = 32%nat → commits h a cid →
  root_committed_in_coinbase (coinbase_tx a) (merkle_fold_branch h (chain_merkle_branch a) (chain_index a)) = true.
Proof.
  intros Hh Hc. destruct (commits_magic _ _ _ Hc) as (pre & nonce & post & Hocc & _ & Huniq & _). cbv zeta in *.
  set (root := merkle_fold_branch h _ _) in *.
  assert (length (rev root) = 32%nat) as Hr by (rewrite length_rev; by apply length_merkle_fold).
  assert (AUXPOW_MAGIC ≠ []) as Hne by done.
  destruct (proj2 (find_subslice_unique (coinbase_tx a) AUXPOW_MAGIC (length pre) Hne)
              (ex_intro _ pre (ex_intro _ _ (conj Hocc (conj eq_refl Huniq))))) as [Hf _].
  unfold root_committed_in_coinbase. rewrite Hf. unfold occurs in Hocc.
  assert (get_range (coinbase_tx a) (Z.of_nat (length pre) + 4) (Z.of_nat (length pre) + 4 + 32) = Some (rev root)) as ->.
  { apply (get_range_middle_eq _ (pre ++ AUXPOW_MAGIC) (rev root) (le_bytes 4 (2 ^ len (chain_merkle_branch a)) ++ le_bytes 4 nonce ++ post)).
    - by rewrite Hocc, <-(assoc_L (++)).
    - unfold len. rewrite length_app. cbn. lia.
    - unfold len. rewrite length_app, Hr. cbn. lia. }
  by rewrite rev_involutive, bool_decide_true.
Qed.

Lemma root_committed_unique cb r r' :
  root_committed_in_coinbase cb r = true → root_committed_in_coinbase cb r' = true → r = r'.
Proof.
  unfold root_committed_in_coinbase. destruct (find_subslice cb _); [|done]. destruct (get_range _ _ _); [|done].
  rewrite !bool_decide_eq_true. congruence.
Qed.

(** ** The check of a group *)

(** The stored blocks are of configured chains. *)
Definition configured (cfg : Config) (db : Database) : Prop :=
  ∀ k b, cache_blocks db !! k = Some b → ∃ chain, chain ∈ cfg_chains cfg ∧ ac_chain_id chain = k.1.

Lemma mapM_Some_Forall {A B} (f : A → option B) (P : A → B → Prop) (l : list A) :
  (∀ x, x ∈ l → ∃ y, f x = Some y ∧ P x y) → ∃ k, mapM f l = Some k ∧ Forall2 P l k.
Proof.
  induction l as [|x l IH]; intros Hf; [by exists []|].
  destruct (Hf x ltac:(left)) as (y & Hy & HP).
  destruct IH as (k & Hk & Hall); [intros z Hz; apply Hf; by right|].
  exists (y :: k). cbn. rewrite Hy. cbn. rewrite Hk. cbn. split; [done|by constructor].
Qed.

(** What [sibling_root] says of a block whose witness commits to it. *)
Definition root_of `{Sha256} (b : StoredBlock) (r : Z * Z * bytes) : Prop :=
  ∃ a, aux (sb_header b) = Some a ∧ r.1 = block_key b ∧
    r.2 = merkle_fold_branch (sha256d (raw (sb_header b))) (chain_merkle_branch a) (chain_index a) ∧
    root_committed_in_coinbase (coinbase_tx a) r.2 = true.

Lemma stored_root `{Sha256} `{HexCodec} `{Codec} cfg db b :
  config_ok cfg → ingest_inv (limits_of cfg) db → configured cfg db →
  cache_blocks db !! block_key b = Some b → ∃ r, sibling_root b = Some r ∧ root_of b r.
Proof.
  intros Hok Hinv Hconf Hb. destruct (Hconf _ _ Hb) as (chain & Hin & Hid). cbn in Hid.
  pose proof (ok_chain _ Hok) as Hch. rewrite Forall_forall in Hch. destruct (Hch chain Hin) as [Hu Hplb _ _].
  destruct (ii_chains _ _ Hinv _ _ (limits_of_chain _ _ Hok Hin) Hu) as [Hval _ _ _]. rewrite Hid in Hval.
  destruct (Hval _ _ Hb) as (w & a & _ & _ & _ & Ha & Hlv). apply light_verify_spec in Hlv as (_ & _ & Hc); [|done].
  unfold sibling_root. rewrite Ha. eexists. split; [reflexivity|]. exists a. split_and!; [done|done|done|].
  eapply commits_root_shown; [apply length_sha256d|exact Hc].
Qed.

Lemma check_group_spec `{Sha256} `{HexCodec} `{Codec} (l : list StoredBlock) :
  l ≠ [] → (∀ b, b ∈ l → ∃ r, sibling_root b = Some r ∧ root_of b r) →
  ∃ g, check_group l = Some g ∧ gc_committed g = true ∧ Forall2 root_of l (gc_roots g) ∧
    (gc_all_same g = true ↔ ∀ r r', r ∈ gc_roots g → r' ∈ gc_roots g → r.2 = r'.2).
Proof.
  intros Hne Hl. unfold check_group. destruct (mapM_Some_Forall _ _ l Hl) as (roots & -> & Hall). cbn [mbind option_bind].
  destruct l as [|b l]; [done|]. destruct roots as [|r roots]; [by inversion Hall|]. cbn [hd_error mbind option_bind].
  apply Forall2_cons in Hall as [Hb Hall]. pose proof Hb as (a & Ha & _ & Hr & Hcom). rewrite Ha. cbn [mbind option_bind].
  eexists. split; [reflexivity|]. cbn [gc_committed gc_roots gc_all_same]. split_and!; [done|by constructor|].
  rewrite forallb_forall. split.
  - intros Hs x y Hx%list_elem_of_In%Hs Hy%list_elem_of_In%Hs. reflect_bools. congruence.
  - intros Hs x Hx%list_elem_of_In. apply bool_decide_eq_true. apply Hs; [done|left].
Qed.

Lemma rows_by_chain_spec rows c rs :
  (c, rs) ∈ rows_by_chain rows ↔ rs ≠ [] ∧ rs = omap (λ r : Z * Z * Z * bytes,
    let '(c', h, l, x) := r in if decide (c' = c) then Some (h, l, x) else None) rows.
Proof.
  unfold rows_by_chain. rewrite elem_of_sort_by, elem_of_map_to_list.
  assert (∀ c, foldl add_row ∅ rows !! c
    = let rs := omap (λ r : Z * Z * Z * bytes, let '(c', h, l, x) := r in
                 if decide (c' = c) then Some (h, l, x) else None) rows in
      match rs with [] => None | _ => Some rs end) as Heq.
  { clear c rs. induction rows as [|[[[c h] l] x] rows IH] using rev_ind; intros c'; [done|].
    rewrite foldl_app, omap_app. cbn. destruct (decide (c = c')) as [<-|Hne].
    - rewrite lookup_insert_eq, IH. cbv zeta. destruct (omap _ rows); done.
    - rewrite lookup_insert_ne, IH by done. cbv zeta. by rewrite app_nil_r. }
  rewrite Heq. cbv zeta. destruct (omap _ rows) as [|y ys]; split; try done.
  - intros [Hne ->]. done.
  - intros [= <-]. done.
  - intros [_ ->]. done.
Qed.

(** ** Properties *)

(** The report.  Run on the disk of a node whose blocks are all of configured
    chains, with flags that parse and at least one leg required, the tool reports:
    the first ten shared parents; for the first of them the chain root of each
    stored block under it, without a panic, committed by the block's own coinbase
    and, for the first block, found in its coinbase by the tool; the roots are
    called the same when all the blocks share one coinbase; and the blocks of an
    epoch, each under its chain, in the order of the rows. *)
Theorem explain_correct `{Sha256} `{HexCodec} `{Secp256k1} `{Codec} `{GossipCodec} `{ErrorText}
    (parse_ip : string → option string) (cfg : Config) (db : Database) (bin path : string)
    (flags : list string) (a : ExplainArgs)
    (Hok : config_ok cfg) (Hr : running parse_ip cfg db) (Hconf : configured cfg db)
    (Hflags : parse_flags flags args_default = Some a) (Hprune : xa_prune_chain a = None)
    (Hlegs : 1 ≤ xa_min_legs a) :
  ∃ db' shared group epoch, open (disk db) false = Ok db' ∧
    explain (bin :: path :: flags) (disk db) = Explained shared group epoch ∧
    shared = (shared_mainnet_parents (xa_min_legs a) (Page_new (Some 10) (Some 0)) None db').1 ∧
    match shared with
    | [] => group = None
    | top :: _ => ∃ g l, group = Some g ∧ gc_committed g = true ∧ l ≠ [] ∧ Forall2 root_of l (gc_roots g) ∧
        (∀ b, b ∈ l ↔ (block_at (sb_chain_id b) (sb_height b) db).1 = Ok (Some b) ∧
           db_parent_hash b = Some (shp_parent_hash_le top)) ∧
        ((∀ b b', b ∈ l → b' ∈ l → coinbase_tx <$> aux (sb_header b) = coinbase_tx <$> aux (sb_header b')) →
           gc_all_same g = true)
    end ∧
    (∀ s e, xa_ltc_start a = Some s → xa_ltc_end a = Some e → ∃ groups, epoch = Some groups ∧
       ∀ c rs, (c, rs) ∈ groups ↔ rs ≠ [] ∧ rs = omap (λ r : Z * Z * Z * bytes,
         let '(c', h, l, x) := r in if decide (c' = c) then Some (h, l, x) else None)
         (epoch_blocks s e None Page_default db').1).
Proof.
  pose proof (running_inv parse_ip cfg _ Hok Hr) as Hinv. pose proof Hinv as [[Hco _ Hs _] _ _].
  destruct (open_run db Hco Hs) as (db' & Hopen & [Hd Hb Hp Hsib Hm Hi] & Hco' & _). exists db'.
  set (shared := (shared_mainnet_parents (xa_min_legs a) (Page_new (Some 10) (Some 0)) None db').1).
  assert (∃ group, check_top shared db' = Some group ∧
    match shared with
    | [] => group = None
    | top :: _ => ∃ g l, group = Some g ∧ gc_committed g = true ∧ l ≠ [] ∧ Forall2 root_of l (gc_roots g) ∧
        (∀ b, b ∈ l ↔ (block_at (sb_chain_id b) (sb_height b) db).1 = Ok (Some b) ∧
           db_parent_hash b = Some (shp_parent_hash_le top)) ∧
        ((∀ b b', b ∈ l → b' ∈ l → coinbase_tx <$> aux (sb_header b) = coinbase_tx <$> aux (sb_header b')) →
           gc_all_same g = true)
    end) as (group & Hgroup & Hspec).
  { destruct shared as [|top rest] eqn:Hsh; [by exists None|]. unfold check_top.
    set (l := siblings_for_parent (shp_parent_hash_le top) db').
    assert (∀ b, b ∈ l ↔ cache_blocks db !! block_key b = Some b ∧ db_parent_hash b = Some (shp_parent_hash_le top)) as Hl.
    { intros b. unfold l. by rewrite siblings_for_parent_spec, elem_of_sibling_blocks, Hb by done. }
    assert (l ≠ []) as Hne.
    { assert (top ∈ shared_groups (xa_min_legs a) None db') as (sp & sl & _ & _ & Hsl & Hlg & Hlen)%elem_of_shared_groups.
      { assert (top ∈ shared) as Hin by (rewrite Hsh; left). unfold shared, shared_mainnet_parents in Hin.
        cbn [fst] in Hin. unfold page_of in Hin. apply elem_of_take in Hin as (i & Hin & _).
        rewrite lookup_drop in Hin. apply list_elem_of_lookup_2 in Hin. by apply elem_of_sort_by in Hin. }
      unfold l, siblings_for_parent. rewrite Hsl. intros ->. rewrite Hlg in Hlen. change (len (legs_of None [])) with 0 in Hlen. lia. }
    destruct (check_group_spec l Hne) as (g & Hg & Hcom & Hroots & Hsame).
    { intros b [Hbb _]%Hl. by eapply stored_root. }
    exists (Some g). rewrite Hg. split; [done|]. exists g, l. split_and!; try done.
    - intros b. rewrite Hl, block_at_Some by done. done.
    - intros Hcb. apply Hsame. intros r r' Hir Hir'. apply list_elem_of_lookup in Hir as [i Hir], Hir' as [j Hir'].
      destruct (Forall2_lookup_r _ _ _ _ _ Hroots Hir) as (b & Hbl & a1 & Ha1 & _ & _ & Hc1).
      destruct (Forall2_lookup_r _ _ _ _ _ Hroots Hir') as (b' & Hbl' & a2 & Ha2 & _ & _ & Hc2).
      specialize (Hcb b b' ltac:(by eapply list_elem_of_lookup_2) ltac:(by eapply list_elem_of_lookup_2)).
      rewrite Ha1, Ha2 in Hcb. injection Hcb as Hcb. rewrite Hcb in Hc1. by eapply root_committed_unique. }
  eexists shared, group, _. split; [done|]. split; [|split; [done|split; [exact Hspec|]]].
  - cbn [explain]. rewrite Hflags, Hopen, Hprune. cbv zeta. fold shared. rewrite Hgroup. reflexivity.
  - intros s e -> ->. eexists. split; [reflexivity|]. intros c rs. apply rows_by_chain_spec.
Qed.

#[local] Existing Instances toy_hash plain_hex toy_codec toy_gossip toy_ecdsa toy_errors.

Lemma sample_configured : configured sample_cfg sample_ingested.
Proof.
  intros k b Hk. exists sample_chain_cfg. split; [exact sample_in|].
  assert (forallb (λ e : Z * Z * StoredBlock, e.1.1 =? 8224) (map_to_list (cache_blocks sample_ingested)) = true) as Hall
    by (vm_compute; reflexivity).
  rewrite forallb_forall in Hall. specialize (Hall (k, b)). rewrite <-list_elem_of_In, elem_of_map_to_list in Hall.
  apply Hall in Hk. apply Z.eqb_eq in Hk. symmetry. exact Hk.
Qed.

Lemma explain_correct_witness :
  configured sample_cfg sample_ingested ∧
  ∃ shared group epoch, explain ["psob-explain"; "db"; "--ltc-start"; "1"; "--ltc-end"; "9"]%string (disk sample_ingested)
    = Explained shared group epoch ∧ is_Some epoch.
Proof.
  split; [exact sample_configured|].
  destruct (explain_correct (λ _, None) sample_cfg sample_ingested "psob-explain" "db"
              ["--ltc-start"; "1"; "--ltc-end"; "9"]%string (mkArgs (Some 1) (Some 9) 2 None)
              sample_config_ok sample_running sample_configured ltac:(vm_compute; reflexivity) eq_refl ltac:(cbn; lia))
    as (db' & shared & group & epoch & _ & Hrun & _ & _ & Hep).
  exists shared, group, epoch. split; [exact Hrun|].
  destruct (Hep 1 9 eq_refl eq_refl) as (gs & -> & _). exists gs. reflexivity.
Defined.
