(* ===== verification/Sha2.v ===== *)
(** * SHA-256

    The published hash function (FIPS 180-4), as an instance of the class [Sha256]
    that the rest of the library takes as a parameter: with it the model runs on
    real blocks ([UnitTests], [StoreTests]).  No theorem of the library rests on it. *)

From S2P Require Export AuxPow.

#[local] Open Scope Z_scope.

(** ** The functions of the standard, on 32-bit words *)

Definition word (x : Z) : Z := Z.land x u32_max.
Definition rotr (n x : Z) : Z := Z.lor (Z.shiftr x n) (Z.shiftl (Z.land x (Z.ones n)) (32 - n)).
Definition Ch (x y z : Z) : Z := Z.lxor (Z.land x y) (Z.land (Z.lxor x u32_max) z).
Definition Maj (x y z : Z) : Z := Z.lxor (Z.lxor (Z.land x y) (Z.land x z)) (Z.land y z).
Definition big_sigma0 (x : Z) : Z := Z.lxor (Z.lxor (rotr 2 x) (rotr 13 x)) (rotr 22 x).
Definition big_sigma1 (x : Z) : Z := Z.lxor (Z.lxor (rotr 6 x) (rotr 11 x)) (rotr 25 x).
Definition small_sigma0 (x : Z) : Z := Z.lxor (Z.lxor (rotr 7 x) (rotr 18 x)) (Z.shiftr x 3).
Definition small_sigma1 (x : Z) : Z := Z.lxor (Z.lxor (rotr 17 x) (rotr 19 x)) (Z.shiftr x 10).

(** The constants are the first 32 bits of the fractional parts of the cube roots of
    the first 64 primes, and of the square roots of the first eight. *)
Definition is_prime (n : Z) : bool :=
  forallb (λ d, negb (n mod d =? 0)) (seqZ 2 (Z.sqrt n - 1)).
Definition primes : list Z := List.filter is_prime (seqZ 2 310).
Fixpoint cube_root (fuel : nat) (lo hi n : Z) : Z :=
  match fuel with
  | O => lo
  | S fuel =>
      let mid := (lo + hi) / 2 in
      if mid ^ 3 <=? n then cube_root fuel mid hi n else cube_root fuel lo mid n
  end.
Definition round_constants : list Z :=
  Eval vm_compute in (λ p, word (cube_root 40 0 (2 ^ 36) (p * 2 ^ 96))) <$> primes.
Definition initial_hash : list Z := Eval vm_compute in (λ p, word (Z.sqrt (p * 2 ^ 64))) <$> take 8 primes.

Lemma length_constants : length round_constants = 64%nat ∧ length initial_hash = 8%nat.
Proof. done. Qed.

(** ** Padding and parsing *)

(** The message, a one bit, zeros up to 56 bytes modulo 64, and the bit length. *)
Definition padded (data : bytes) : bytes :=
  data ++ x80 :: replicate (Z.to_nat ((55 - len data) mod 64)) x00 ++ rev (le_bytes 8 (8 * len data)).

Fixpoint chunks {A} (fuel n : nat) (l : list A) : list (list A) :=
  match fuel, l with
  | S fuel, _ :: _ => take n l :: chunks fuel n (drop n l)
  | _, _ => []
  end.
Definition be_words (l : bytes) : list Z := (λ w, le_num (rev w)) <$> chunks (length l) 4 l.

(** ** The compression function *)

(** The next words of the schedule, from a window of the last sixteen. *)
Fixpoint schedule (n : nat) (w : list Z) : list Z :=
  match n with
  | O => []
  | S n =>
      let next := word (small_sigma1 (nth 14 w 0) + nth 9 w 0 + small_sigma0 (nth 1 w 0) + nth 0 w 0) in
      next :: schedule n (drop 1 w ++ [next])
  end.

Definition round (v : list Z) (kw : Z * Z) : list Z :=
  match v with
  | [a; b; c; d; e; f; g; h] =>
      let t1 := h + big_sigma1 e + Ch e f g + kw.1 + kw.2 in
      let t2 := big_sigma0 a + Maj a b c in
      [word (t1 + t2); a; b; c; word (d + t1); e; f; g]
  | _ => v
  end.
Definition compress (h block : list Z) : list Z :=
  zip_with (λ x y, word (x + y)) h
    (foldl round h (zip round_constants (block ++ schedule 48 block))).

Definition fips_sha256 (data : bytes) : bytes :=
  let blocks := chunks (length data + 2) 16 (be_words (padded data)) in
  concat ((λ w, rev (le_bytes 4 w)) <$> foldl compress initial_hash blocks).

(** ** The digest has 32 bytes *)

Lemma length_round v kw : length v = 8%nat → length (round v kw) = 8%nat.
Proof. intros Hv. do 8 (destruct v as [|? v]; [done|]). by destruct v. Qed.
Lemma length_rounds kws v : length v = 8%nat → length (foldl round v kws) = 8%nat.
Proof. revert v. induction kws as [|kw kws IH]; intros v Hv; [done|]. by apply IH, length_round. Qed.
Lemma length_compress h block : length h = 8%nat → length (compress h block) = 8%nat.
Proof. intros Hh. unfold compress. rewrite length_zip_with, length_rounds by done. lia. Qed.

Lemma length_fips_sha256 data : length (fips_sha256 data) = 32%nat.
Proof.
  unfold fips_sha256. generalize (chunks (length data + 2) 16 (be_words (padded data))). intros blocks.
  assert (length (foldl compress initial_hash blocks) = 8%nat) as Hl.
  { assert (length initial_hash = 8%nat) as Hi by done. revert Hi. generalize initial_hash as h.
    induction blocks as [|b blocks IH]; intros h Hh; [done|]. by apply IH, length_compress. }
  generalize dependent (foldl compress initial_hash blocks). intros l Hl.
  do 8 (destruct l as [|? l]; [done|]). destruct l; [|done]. cbn [fmap list_fmap concat].
  by rewrite !length_app, !length_rev, !length_le_bytes.
Qed.

Definition sha2 : Sha256 := {| sha256 := fips_sha256; length_sha256 := length_fips_sha256 |}.

(** ** The test vectors of the standard *)

Definition digest (data : bytes) : Z := le_num (rev (fips_sha256 data)).

Example digest_empty : digest [] = 0xe3b0c44298fc1c149afbf4c8996fb92427ae41e4649b934ca495991b7852b855.
Proof. vm_compute. reflexivity. Qed.
Example digest_abc : digest [x61; x62; x63] = 0xba7816bf8f01cfea414140de5dae2223b00361a396177a9cb410ff61f20015ad.
Proof. vm_compute. reflexivity. Qed.
(** Two blocks. *)
Example digest_448_bits :
  digest (concat ((λ i, z2b <$> [i; i + 1; i + 2; i + 3]) <$> seqZ 97 14)) =
    0x248d6a61d20638b8e5c026930c3e6039a33ce45964ff2167f6ecedd419db06c1.
Proof. vm_compute. reflexivity. Qed.
(** A padding that needs a block of its own. *)
Example digest_64_bytes : digest (replicate 64 x61) = 0xffe054fe7ae0cb6dc65c3af9b61d5209f439851db43d0ba5997337df154668eb.
Proof. vm_compute. reflexivity. Qed.
