(* ===== verification/Fixtures.v ===== *)
(** * Real blocks

    The test fixtures of [crates/common/tests/fixtures/]: the wire payloads of two
    JunkCoin blocks, as the explorer served them.  The parent coinbase of the second
    is SegWit-serialized. *)

From stdpp Require Export strings.

#[local] Open Scope string_scope.

Definition jkc_1095600_header : string :=
  ("0401202087af667fdcdf63fb35d0a0281f54ec745a977fa0bdb7ad231aa05b61497145c59521a27135fe9d0579418bffbfa0" +:+
   "a24cc097240d10c26a863219357dc61081f9d2d5866a212c011a000000000100000001000000000000000000000000000000" +:+
   "0000000000000000000000000000000000ffffffff64035d44302cfabe6d6d856775823f9d12f2c43856509ad788b2a6362e" +:+
   "bd5447ccaa319c03c29649abea20000000f09f909f092f4632506f6f6c2f6200000000000000000000000000000000000000" +:+
   "000000000000000000000000000000000500b91e05800300058002bfe74425000000001976a914dfd88711bf5d20f2ac7049" +:+
   "ba28d053a89186ce9288ac0000000000000000266a24aa21a9ed1e6428b5bdcb106ad3fcec5b0e2f7eb492029b01f13b0bf0" +:+
   "cb1ddd8f9747d4c6d2f27f4036dc0f5232e34ca533a11d4635e25a28945c19bc61ebeecc1c0000000000000007beef6a7c81" +:+
   "dc4decdee4a36e7e408b49ea142cd9d5c1470994883be644ac8dae1f236384c920de002480ddedbf0ab8eed3a4d69b60931d" +:+
   "d12d7db1007aa1930cc6e38af25d4e355c69252a119140ff10c7ccb1eaf8d5091c5c62ac9768a0b80f24369f4fb2065ee166" +:+
   "387d79cf7b59261ebfb30e488fd8044ab48d726f28189743ef5e778bb7698bcfa246092fd352825e4dc650f5fb1c0d44bc23" +:+
   "2db1e0fd84b4af11ff96a0a36e72b42a8eacbca5229329684fe2174b49ca2a81b200fab87404e8b0dbb4d460d0fd28517ee3" +:+
   "d2538cca2a91a551947b1157df39c9b9c71b8000000000050f00000000000000000000000000000000000000000000000000" +:+
   "0000000000003feee5244c18afb612c4846a8bf1b07759fedbdec9d139ade9f4c82736e17fe883728309e038674ec1ff0cb6" +:+
   "0d35b899346118eaa11682f75ce131c1999baa9e8b236d3c8a52f66819a091650e5b53434b8204c8c8773af8c73edbcb6188" +:+
   "4f61a17dc133d36ce600d58c4c7eb84718b270c188b3bafa310fdf259fff9f5a084d0e000000140000206b34ca5589e6a8ef" +:+
   "b27b682ac92b13f308d0ed346ede04c5b5ae5925c7cd12c67a1bab7fad37a00c9a5cc14b7342df6d7ba0e574d91106a09088" +:+
   "fe874c376ff813d6866a0e9d3119a524497d").

Definition jkc_1098227_header : string :=
  ("04012020f2f8bf17c9df4a08584b501500e3ffc44d24967398777ef3b6870cef8577492fd138e3142f684ce86e3af5703fbc" +:+
   "3abf9af7ce3691045eee43af33e8f8682cf1763e896a2230011a000000000200000000010100000000000000000000000000" +:+
   "00000000000000000000000000000000000000ffffffff4403594830fabe6d6db54187c39a9202ee098bef69a861fbf9c009" +:+
   "310c4f1267073f60a45d441aaafa20000000000000005a554c55506f6f4c2d4c544300003d28541a0000ffffffff02255d42" +:+
   "25000000001976a914f8394bea504520ac3ef09fd6a5adf70bede47dae88ac0000000000000000266a24aa21a9ed60338794" +:+
   "a467be7522196f9ef50c8b6336b4f9ce5db32de5e1c091906b3e489c01200000000000000000000000000000000000000000" +:+
   "0000000000000000000000000000000000000000000000000000000000000000000000000000000000000000000000000698" +:+
   "3d1dde4f99fa17963c36da5507f170ff1199a8e6b1aab8ace96e78ee75efcc82dea2e6bbd0ddf0a317f98a6fda666b5b1386" +:+
   "4ef0a8bb13293245209088ea931cc1fdc6a91598ef5c7512d66ea8edda39dbedbd9f1407bc1c1a26c25d72255fe14e8ff1c1" +:+
   "4174e44b1a7241184c7dbcd872e7385e780b479e7a94219c8b8650583d3f44477442fb9ef86edbd5ff0063c8ef18b7ac027c" +:+
   "22802a3ea894ab7c77ca06f34714d66476d3a8bd565ae4ae034469f70c0fe355276f7b242035a4dea5000000000500000000" +:+
   "00000000000000000000000000000000000000000000000000000000e2f61c3f71d1defd3fa999dfa36953755c6906897999" +:+
   "62b48bebd836974e8cf908a89d7f8a876d85b1709e268493559c8473035db453b98d05ae07d6cab100f1b68c6e59643f7fb2" +:+
   "ec8dcb56686d8812969bd4b18d2277c9556d2ca6fa2cda7337208c6555c5f3ee684204aea75111d5d6a5ea0f0bc3de41c4cb" +:+
   "685df5d5abeb1e00000000000020c762b3e9da87652bac61cb3cae76a5ca8c49afaf1eb928de7f625875084d7b41e6c98e5e" +:+
   "bbf6bf3da615295f846c7b52dbea2cc05869e908af8a260d4fd71d21143e896a0e9d31193e7c3184").
