(* ===== verification/UnitTests.v ===== *)
(** * The unit tests of the repository

    The tests of [crates/common], [src/verify.rs], [src/swap.rs], [src/config.rs] and
    [crates/chain-rpc], translated like the code they test and run on the model with
    the real SHA-256 and the real blocks.  A test that panics is [None].  Left out:
    the tests that sign (the model has the verifier of secp256k1 only), parse TOML,
    or need the network. *)

From S2P Require Export Sha2 Fixtures Abi TxParse Verify Swap Config.

#[local] Open Scope Z_scope.
#[local] Existing Instances sha2 plain_hex.

(** ** Tests *)

Definition Test : Type := option ().
Definition assert (b : bool) : Test := if b then Some () else None.
Definition assert_eq {A} `{EqDecision A} (x y : A) : Test := assert (bool_decide (x = y)).
(** [unwrap] and [expect]. *)
Definition unwrap {E A} (r : Result E A) : option A := result_ok r.
Definition is_err {E A} (r : Result E A) : bool := negb (is_ok r).

(** The names of the tests that panic. *)
Definition failing (suite : list (string * Test)) : list string :=
  omap (λ t, match t.2 with Some _ => None | None => Some t.1 end) suite.

Definition zeros (n : nat) : bytes := replicate n x00.
(** [&l[a..b] == x], and a write into a slice. *)
Definition slice_is (l : bytes) (a b : Z) (x : bytes) : Test := s ← get_range l a b; assert_eq s x.
Definition write (l : bytes) (off : Z) (x : bytes) : bytes := blit l off x.

(** ** Work and targets *)

Definition be (hex_tail : string) : option bytes :=
  bytes ← unwrap (hex_decode hex_tail); Some (zeros (32 - length bytes) ++ bytes).

Definition work_target_one_is_2_pow_255 : Test :=
  target ← be "01"; work ← block_work target;
  assert_eq work (x80 :: zeros 31).
Definition work_target_ffff_is_2_pow_240 : Test :=
  target ← be "ffff"; work ← block_work target;
  assert_eq work (x00 :: x01 :: zeros 30).
Definition work_target_all_ones_is_one : Test :=
  work ← block_work (replicate 32 xff);
  assert_eq work (zeros 31 ++ [x01]).
Definition add_be_carries_across_bytes : Test :=
  acc ← be "ff"; one ← be "01"; sum ← be "0100";
  assert_eq (u256_add_be acc one) sum.
Definition divmod_basic : Test :=
  n ← be "0100"; d ← be "10"; qr ← u256_divmod n d;
  _ ← assert_eq qr.1 d;
  _ ← assert_eq qr.2 (zeros 32);
  n ← be "0101"; r ← be "01"; qr ← u256_divmod n d;
  _ ← assert_eq qr.1 d;
  assert_eq qr.2 r.

Definition expand_target_matches_powlimit_and_rejects_invalid : Test :=
  pl ← expand_target CHAIN_POW_LIMIT_BITS;
  _ ← slice_is pl 0 5 [x00; x00; x0f; xff; xff];
  _ ← slice_is pl 5 32 (zeros 27);
  g ← expand_target 0x1e0ffff0;
  _ ← assert (target_leq g pl);
  _ ← assert_eq (expand_target (Z.lor 0x1e800000 0x00ffffff)) None;
  _ ← assert_eq (expand_target 0x1d000000) None;
  _ ← assert_eq (expand_target 0xff7fffff) None;
  easy ← expand_target 0x2000ffff;
  _ ← assert (negb (target_leq easy pl));
  s33 ← expand_target 0x210000ab;
  _ ← assert_eq s33 (x00 :: xab :: zeros 30);
  s33b ← expand_target 0x210012ab;
  _ ← slice_is s33b 0 2 [x12; xab];
  s34 ← expand_target 0x220000ab;
  _ ← assert_eq s34 (xab :: zeros 31);
  assert_eq (expand_target 0x220001ab) None.

(** ** Journals *)

Definition layout_journal : Journal.t :=
  Journal.mk (replicate 32 x11) (replicate 32 x22) 0xdeadbeef (replicate 20 xab) 7 (replicate 32 x33) 0x1e0fffff
    (replicate 32 x44) (replicate 20 x55) 3 0x2020.
Definition journal_abi_encode_layout : Test :=
  let enc := Journal.abi_encode layout_journal in
  _ ← assert_eq (len enc) 352;
  _ ← slice_is enc 0 32 (replicate 32 x11);
  _ ← slice_is enc 32 64 (replicate 32 x22);
  _ ← slice_is enc 64 88 (zeros 24);
  _ ← slice_is enc 88 96 (be_bytes 8 0xdeadbeef);
  _ ← slice_is enc 96 108 (zeros 12);
  _ ← slice_is enc 108 128 (replicate 20 xab);
  _ ← slice_is enc 128 156 (zeros 28);
  _ ← slice_is enc 156 160 (be_bytes 4 7);
  _ ← slice_is enc 160 192 (replicate 32 x33);
  _ ← slice_is enc 192 220 (zeros 28);
  _ ← slice_is enc 220 224 (be_bytes 4 0x1e0fffff);
  _ ← slice_is enc 224 256 (replicate 32 x44);
  _ ← slice_is enc 256 276 (replicate 20 x55);
  _ ← slice_is enc 276 288 (zeros 12);
  _ ← slice_is enc 288 312 (zeros 24);
  _ ← slice_is enc 312 320 (be_bytes 8 3);
  _ ← slice_is enc 320 348 (zeros 28);
  slice_is enc 348 352 (be_bytes 4 0x2020).

Definition journal_abi_roundtrip : Test :=
  let j := Journal.mk (replicate 32 x11) (replicate 32 x22) 100000000 (replicate 20 xab) 20 (replicate 32 x33)
             0x1e0fffff (replicate 32 x44) (replicate 20 x55) 1 0x2020 in
  decoded ← unwrap (Journal.abi_decode (Journal.abi_encode j));
  assert_eq decoded j.
Definition journal_abi_decode_rejects_bad_length : Test :=
  _ ← assert (is_err (Journal.abi_decode (zeros 351)));
  _ ← assert (is_err (Journal.abi_decode (zeros 353)));
  assert (is_ok (Journal.abi_decode (zeros 352))).

Definition withdrawal_journal_abi_layout_and_roundtrip : Test :=
  let j := WithdrawalJournal.mk (replicate 32 x11) (replicate 20 xab) 0xdeadbeef (replicate 32 x33) 7 0x1e0fffff
             (replicate 32 x44) 0x2020 in
  let enc := WithdrawalJournal.abi_encode j in
  _ ← assert_eq (len enc) 256;
  _ ← slice_is enc 0 32 (replicate 32 x11);
  _ ← slice_is enc 32 52 (replicate 20 xab);
  _ ← slice_is enc 52 64 (zeros 12);
  _ ← slice_is enc 88 96 (be_bytes 8 0xdeadbeef);
  _ ← slice_is enc 96 128 (replicate 32 x33);
  _ ← slice_is enc 156 160 (be_bytes 4 7);
  _ ← slice_is enc 188 192 (be_bytes 4 0x1e0fffff);
  _ ← slice_is enc 192 224 (replicate 32 x44);
  _ ← slice_is enc 224 252 (zeros 28);
  _ ← slice_is enc 252 256 (be_bytes 4 0x2020);
  decoded ← unwrap (WithdrawalJournal.abi_decode enc);
  assert_eq decoded j.

(** ** Transactions *)

Definition p2pkh_spk (h : bytes) : bytes := [x76; xa9; x14] ++ h ++ [x88; xac].
Definition op_return32 (wid : bytes) : bytes := [x6a; x20] ++ wid.
Definition op_return20 (evm : bytes) : bytes := [x6a; x14] ++ evm.
Definition output_bytes (outputs : list (Z * bytes)) : bytes :=
  concat ((λ o, le_bytes 8 o.1 ++ [z2b (len o.2)] ++ o.2) <$> outputs).
Definition build_tx (outputs : list (Z * bytes)) : bytes :=
  le_bytes 4 1 ++ [x01] ++ replicate 32 x11 ++ le_bytes 4 0 ++ [x00] ++ le_bytes 4 0xffffffff ++
  [z2b (len outputs)] ++ output_bytes outputs ++ le_bytes 4 0.

Definition parse_deposit_real_tx_test : Test :=
  custody_hash160 ← unwrap (hex_decode "21998e2ce990cfc033740d2d5cecd022f9704782");
  tx ← unwrap (hex_decode (
    "0100000001e5e52f6792bb551016736f79b5f274342abe2df31ea1e5d222ebb5a671c7c5ce000000006b4830450221" +:+
    "00d90733b933d1e4241de865d3a7a4de896ef2c56c17e4e6bfd307904a5bead75d02205267e81d6dda431fa7575827" +:+
    "b74842e73198da128f0c92fa3a6adbcaf486147401210371475384443cef0c683ae4ba621581d5c8ae102e56114fc9" +:+
    "a6af0014ce3326c0ffffffff0300ca9a3b000000001976a91421998e2ce990cfc033740d2d5cecd022f970478288ac" +:+
    "48649211000000001976a91499cf3561c3200eee36f8975be8ad980d1a22222988ac0000000000000000186a166a14" +:+
    "9583ca25ec7770b1d575d0c4c76b79ce257e664500000000"));
  assert (bool_decide (is_Some (parse_deposit_outputs tx custody_hash160))).

Definition parse_deposit_happy_path_and_sums_custody : Test :=
  let custody := replicate 20 x11 in
  let evm := replicate 20 x22 in
  let tx := build_tx [(300000000, p2pkh_spk custody); (0, op_return20 evm);
                      (200000000, p2pkh_spk custody); (1, p2pkh_spk (replicate 20 x99))] in
  r ← parse_deposit_outputs tx custody;
  _ ← assert_eq r.1 500000000;
  assert_eq r.2 evm.

Definition parse_deposit_rejects_custody_pattern_hidden_in_op_return : Test :=
  let custody := replicate 20 x11 in
  let payload := le_bytes 8 999000000 ++ [x19] ++ p2pkh_spk custody in
  let opret := [x6a; x4c; z2b (len payload)] ++ payload in
  let tx := build_tx [(1, p2pkh_spk (replicate 20 x99)); (0, opret); (0, op_return20 (replicate 20 x22))] in
  assert_eq (parse_deposit_outputs tx custody) None.

Definition parse_deposit_rejects_coinbase : Test :=
  let custody := replicate 20 x11 in
  let outputs := [(500000000, p2pkh_spk custody); (0, op_return20 (replicate 20 x22))] in
  let tx := le_bytes 4 1 ++ [x01] ++ zeros 32 ++ le_bytes 4 0xffffffff ++ [x03] ++ [x03; xab; xcd] ++
            le_bytes 4 0xffffffff ++ [z2b (len outputs)] ++ output_bytes outputs ++ le_bytes 4 0 in
  assert_eq (parse_deposit_outputs tx custody) None.

Definition parse_deposit_rejects_trailing_bytes_and_missing_recipient : Test :=
  let custody := replicate 20 x11 in
  let tx := build_tx [(500000000, p2pkh_spk custody)] in
  _ ← assert_eq (parse_deposit_outputs tx custody) None;
  let tx2 := build_tx [(500000000, p2pkh_spk custody); (0, op_return20 (replicate 20 x22))] in
  assert_eq (parse_deposit_outputs (tx2 ++ [xde]) custody) None.

Definition parse_withdrawal_happy_path : Test :=
  let recipient := replicate 20 x33 in
  let wid := replicate 32 x44 in
  let tx := build_tx [(450000000, p2pkh_spk recipient); (0, op_return32 wid); (10000000, p2pkh_spk (replicate 20 x99))] in
  r ← parse_withdrawal_outputs tx recipient;
  _ ← assert_eq r.1 450000000;
  assert_eq r.2 wid.

Definition parse_withdrawal_rejects_missing_binding_or_recipient : Test :=
  let recipient := replicate 20 x33 in
  let tx := build_tx [(450000000, p2pkh_spk recipient)] in
  _ ← assert_eq (parse_withdrawal_outputs tx recipient) None;
  let tx2 := build_tx [(450000000, p2pkh_spk (replicate 20 x77)); (0, op_return32 (replicate 32 x44))] in
  assert_eq (parse_withdrawal_outputs tx2 recipient) None.

(** [crates/chain-rpc]: what [find_payouts] keys on. *)
Definition payout_content_match_predicate : Test :=
  let recipient := replicate 20 x33 in
  let wid := replicate 32 x44 in
  let outputs := [(450000000, p2pkh_spk recipient); (0, op_return32 wid); (10000000, p2pkh_spk (replicate 20 x99))] in
  let tx := le_bytes 4 1 ++ [x01] ++ replicate 32 x11 ++ le_bytes 4 0 ++ [x00] ++ le_bytes 4 0xffffffff ++
            [z2b (len outputs)] ++ output_bytes outputs ++ le_bytes 4 0 in
  _ ← assert_eq (parse_withdrawal_outputs tx recipient) (Some (450000000, wid));
  assert_eq (parse_withdrawal_outputs tx (replicate 20 x77)) None.

(** ** The commitment and the header chain *)

(** [while get_expected_index(nonce, other, height) == chain_index { other += 1 }];
    a test that runs out of fuel panics. *)
Fixpoint other_chain (fuel : nat) (nonce other height chain_index : Z) : option Z :=
  match fuel with
  | O => None
  | S fuel =>
      if get_expected_index nonce other height =? chain_index
      then other_chain fuel nonce (u32_wrapping_add other 1) height chain_index else Some other
  end.

Definition auxpow_commitment_verifies_and_rejects_tampering : Test :=
  let aux_block_hash := replicate 32 x11 in
  let chain_id := 0x2020 in
  let nonce := 0x12345678 in
  let height := 3 in
  let chain_index := get_expected_index nonce chain_id height in
  let chain_branch := [replicate 32 x22; replicate 32 x23; replicate 32 x24] in
  let chain_root := merkle_fold_branch aux_block_hash chain_branch chain_index in
  let coinbase := [xde; xad] ++ AUXPOW_MAGIC ++ rev chain_root ++ le_bytes 4 (u32_shl 1 height) ++
                  le_bytes 4 nonce ++ zeros 4 in
  let parent_sib := replicate 32 x33 in
  let parent_root := merkle_fold_branch (sha256d coinbase) [parent_sib] 0 in
  let parent_header := write (write (zeros 80) 0 (le_bytes 4 (u32_shl LTC_CHAIN_ID 16))) 36 parent_root in
  let aux := mkAuxPow coinbase [parent_sib] 0 chain_branch chain_index parent_header in
  _ ← assert (verify_auxpow_commitment aux_block_hash aux chain_id);
  _ ← assert (negb (verify_auxpow_commitment (replicate 32 x99) aux chain_id));
  other ← other_chain 100 nonce (Z.lxor chain_id 1) height chain_index;
  _ ← assert (negb (verify_auxpow_commitment aux_block_hash aux other));
  let self_mined := mkAuxPow coinbase [parent_sib] 0 chain_branch chain_index
                      (write parent_header 0 (le_bytes 4 (u32_shl chain_id 16))) in
  assert (negb (verify_auxpow_commitment aux_block_hash self_mined chain_id)).

(** One header of the fixture, over the previous id and nonce. *)
Definition fixture_header (depth : nat) (prev : bytes) (nonce : Z) : BlockHeader * bytes * Z :=
  let chain_id := 0x2020 in
  let bits := CHAIN_POW_LIMIT_BITS in
  let hdr := zeros 80 in
  let hdr := write hdr 0 (le_bytes 4 (Z.lor (u32_shl chain_id 16) 1)) in
  let hdr := write hdr 4 prev in
  let hdr := write hdr 36 (replicate 32 xaa) in
  let hdr := write hdr 72 (le_bytes 4 bits) in
  let id := sha256d hdr in
  let chain_branch := (λ k, replicate 32 (z2b (0x40 + Z.of_nat k))) <$> seq 0 depth in
  let nonce := u32_wrapping_add (u32_wrapping_mul nonce 1103515245) 12345 in
  let chain_index := get_expected_index nonce chain_id (Z.of_nat depth) in
  let chain_root := merkle_fold_branch id chain_branch chain_index in
  let coinbase := [xde; xad] ++ AUXPOW_MAGIC ++ rev chain_root ++ le_bytes 4 (u32_shl 1 (Z.of_nat depth)) ++
                  le_bytes 4 nonce ++ [xcc] in
  let parent := zeros 80 in
  let parent := write parent 0 (le_bytes 4 (u32_shl LTC_CHAIN_ID 16)) in
  let parent := write parent 4 (replicate 32 x55) in
  let parent := write parent 36 (sha256d coinbase) in
  let parent := write parent 72 (le_bytes 4 bits) in
  (mkBlockHeader hdr (Some (mkAuxPow coinbase [] 0 chain_branch chain_index parent)), id, nonce).
Fixpoint psob_headers (n depth : nat) (prev : bytes) (nonce : Z) : list BlockHeader :=
  match n with
  | O => []
  | S n => let '(h, id, nonce) := fixture_header depth prev nonce in h :: psob_headers n depth id nonce
  end.
Definition psob_fixture (n depth : nat) : list BlockHeader * bytes * Z :=
  (psob_headers n depth (replicate 32 x33) 0x12345678, replicate 32 x33, 0x2020).

(** A panic of the verifier is a panic of the test. *)
Definition chain_rejected (headers : list BlockHeader) (checkpoint : bytes) (chain_id plb : Z) : Test :=
  r ← verify_psob_chain headers checkpoint chain_id plb; assert (is_err r).

Definition psob_chain_verifies_valid_witness : Test :=
  let '(headers, checkpoint, chain_id) := psob_fixture 3 2 in
  r ← verify_psob_chain headers checkpoint chain_id CHAIN_POW_LIMIT_BITS;
  assert (is_ok r).
Definition psob_chain_rejects_broken_link : Test :=
  let '(headers, checkpoint, chain_id) := psob_fixture 2 2 in
  let headers := alter (λ h, mkBlockHeader (write (raw h) 4 (replicate 32 x99)) (aux h)) 1%nat headers in
  chain_rejected headers checkpoint chain_id CHAIN_POW_LIMIT_BITS.
Definition psob_chain_rejects_missing_aux_or_wrong_chain_id : Test :=
  let '(headers, checkpoint, chain_id) := psob_fixture 2 2 in
  _ ← chain_rejected (alter (λ h, mkBlockHeader (raw h) None) 0%nat headers) checkpoint chain_id CHAIN_POW_LIMIT_BITS;
  _ ← chain_rejected headers checkpoint (Z.lxor chain_id 1) CHAIN_POW_LIMIT_BITS;
  chain_rejected headers checkpoint chain_id 0x1d00ffff.

(** A change of the witness of the first header. *)
Definition with_aux (f : AuxPow → AuxPow) (headers : list BlockHeader) : list BlockHeader :=
  alter (λ h, mkBlockHeader (raw h) (f <$> aux h)) 0%nat headers.
Definition flip_last (branch : list bytes) : list bytes :=
  alter (alter (λ b, z2b (Z.lxor (b2z b) 1)) 0%nat) (length branch - 1)%nat branch.
Definition flip_chain_branch (a : AuxPow) : AuxPow :=
  mkAuxPow (coinbase_tx a) (parent_merkle_branch a) (parent_index a) (flip_last (chain_merkle_branch a))
    (chain_index a) (parent_header a).
Definition psob_chain_rejects_tampered_commitment : Test :=
  let '(headers, checkpoint, chain_id) := psob_fixture 2 2 in
  chain_rejected (with_aux flip_chain_branch headers) checkpoint chain_id CHAIN_POW_LIMIT_BITS.
Definition psob_chain_rejects_wrong_slot_for_nonce : Test :=
  let '(headers, checkpoint, chain_id) := psob_fixture 1 2 in
  header ← headers !! 0%nat;
  a ← aux header;
  nonce ← get_range (coinbase_tx a) (len (coinbase_tx a) - 5) (len (coinbase_tx a) - 1);
  let expected := get_expected_index (le_num nonce) chain_id (len (chain_merkle_branch a)) in
  let slot := (expected + 1) mod (u32_shl 1 (len (chain_merkle_branch a))) in
  let headers := with_aux (λ a, mkAuxPow (coinbase_tx a) (parent_merkle_branch a) (parent_index a)
                                  (chain_merkle_branch a) slot (parent_header a)) headers in
  chain_rejected headers checkpoint chain_id CHAIN_POW_LIMIT_BITS.

(** ** Real blocks *)

Definition JKC : Z := 8224.
Definition POW_LIMIT : Z := CHAIN_POW_LIMIT_BITS.

Definition parses_live_jkc_block : Test :=
  raw ← unwrap (hex_decode jkc_1095600_header);
  ba ← unwrap (parse_auxpow raw);
  let '(base, aux) := ba in
  _ ← assert_eq (len base) HEADER_LEN;
  version ← index_u32_le base 0;
  _ ← assert_eq (Z.shiftr version 16) 8224;
  _ ← assert (verify_auxpow_commitment (sha256d base) aux 8224);
  _ ← assert_eq (len (parent_header aux)) HEADER_LEN;
  _ ← assert_eq (parent_index aux) 0;
  assert (bool_decide (parent_chain_id aux ≠ Some 8224)).

Definition rejects_truncated_and_non_auxpow : Test :=
  _ ← assert_eq (parse_auxpow (zeros 8)) (Err (TruncatedHeader 8));
  assert_eq (parse_auxpow (zeros 80)) (Err NoAuxPow).

Definition rejects_bad_coinbase : Test :=
  assert_eq (parse_auxpow (zeros 80 ++ zeros 8))
    (Err (BadCoinbase "zero inputs (segwit marker without flag 0x01)")).

Definition parses_segwit_serialized_parent_coinbase : Test :=
  raw ← unwrap (hex_decode jkc_1098227_header);
  ba ← unwrap (parse_auxpow raw);
  let '(base, aux) := ba in
  let folded := merkle_fold_branch (sha256d (coinbase_tx aux)) (parent_merkle_branch aux) (parent_index aux) in
  root ← parent_merkle_root aux;
  _ ← assert_eq folded root;
  _ ← slice_is (coinbase_tx aux) 4 5 [x01];
  _ ← assert (bool_decide (is_Some (find_subslice (coinbase_tx aux) AUXPOW_MAGIC)));
  assert (verify_auxpow_commitment (sha256d base) aux 8224).

Definition live_jkc_block_fully_verifies : Test :=
  wire ← unwrap (hex_decode jkc_1095600_header);
  report ← unwrap (verify_auxpow_wire wire JKC POW_LIMIT);
  _ ← assert (valid report);
  _ ← assert_eq (block_hash report) "216ccca027bde174293a775e52d861dabe4e45028847189d100d9e75d0c6fbf4"%string;
  _ ← assert (step_ok (header_format report) && step_ok (proof1_coinbase_to_parent_root report));
  _ ← assert (step_ok (proof2_aux_to_chain_root report) && step_ok (anti_grind_lcg_slot report));
  _ ← assert_eq (chain_root_hex report) (coinbase_root_hex report);
  assert_eq (n_size report) (u32_shl 1 (chain_branch_depth report)).

Definition tampered_commitment_is_detected_step_by_step : Test :=
  wire ← unwrap (hex_decode jkc_1095600_header);
  ba ← unwrap (parse_auxpow wire);
  base ← get_range wire 0 80;
  let report := verify_aux_header base (flip_chain_branch ba.2) JKC POW_LIMIT in
  _ ← assert (negb (valid report));
  _ ← assert (negb (step_ok (proof2_aux_to_chain_root report)));
  assert (step_ok (proof1_coinbase_to_parent_root report)).

Definition wrong_chain_id_is_rejected : Test :=
  wire ← unwrap (hex_decode jkc_1095600_header);
  report ← unwrap (verify_auxpow_wire wire 50 POW_LIMIT);
  _ ← assert (negb (valid report));
  assert (negb (step_ok (header_format report))).

Definition truncated_wire_is_rejected : Test :=
  wire ← unwrap (hex_decode jkc_1095600_header);
  wire ← get_range wire 0 40;
  assert (is_err (verify_auxpow_wire wire JKC POW_LIMIT)).

Definition non_auxpow_payload_is_rejected : Test :=
  let wire := write (zeros 80) 0 (le_bytes 4 (Z.lor (u32_shl JKC 16) 1)) in
  assert (is_err (verify_auxpow_wire wire JKC POW_LIMIT)).

(** ** Swap intents *)

Definition base_intent : SwapIntentMessage :=
  mkIntent "psob-swap" 1 "test-intent-1" "" 8211 63 1000000 2000000 "LUCKYRECEIVEADDRESS"
    1700000000 (1700000000 + 86400) "adaptor-v1" "" "" "" "".

(** The fields of a JSON object, as the literal of the test spells them. *)
Definition quoted (s : string) : string := str1 dq +:+ s +:+ str1 dq.
Definition str_field (k v : string) : string := quoted k +:+ ":" +:+ quoted v.
Definition num_field (k v : string) : string := quoted k +:+ ":" +:+ v.
Definition json_literal (fields : list string) : string := "{" +:+ String.concat "," fields +:+ "}".

Definition canonical_json_contract : Test :=
  let intent := mkIntent "psob-swap" 1 "test-intent-1" "02abcdef" 8211 63 1000000 2000000 "LUCKYRECEIVEADDRESS"
    1700000000 (1700000000 + 86400) "adaptor-v1"
    "02aaaaaaaaaaaaaaaaaaaaaaaaaaaaaaaaaaaaaaaaaaaaaaaaaaaaaaaaaaaaaaaaaa"
    "npub1testmakernegotiationkeyexample000000000000000000000000000000" "MAKERREFUNDADDRESS" "" in
  assert_eq (canonical_intent_json intent) (json_literal [
    str_field "protocol" "psob-swap"; num_field "version" "1"; str_field "intent_id" "test-intent-1";
    str_field "maker_pubkey" "02abcdef"; num_field "from_chain" "8211"; num_field "to_chain" "63";
    num_field "from_amount" "1000000"; num_field "to_amount" "2000000";
    str_field "maker_receive_address" "LUCKYRECEIVEADDRESS";
    str_field "adaptor_point" "02aaaaaaaaaaaaaaaaaaaaaaaaaaaaaaaaaaaaaaaaaaaaaaaaaaaaaaaaaaaaaaaaaa";
    str_field "maker_npub" "npub1testmakernegotiationkeyexample000000000000000000000000000000";
    str_field "maker_refund_address" "MAKERREFUNDADDRESS"; num_field "timestamp" "1700000000";
    num_field "expiry" "1700086400"; str_field "settlement" "adaptor-v1"]).

(** ** Configuration *)

Definition parses_chain_spec_with_optional_start_height : Test :=
  chains ← unwrap (parse_chain_specs
    ("JKC|8224|https://junk-api.s3na.xyz|0x1e0fffff|1095300," +:+ "DINGO|50|https://dingo-api.s3na.xyz|0x1e0fffff"));
  _ ← assert_eq (len chains) 2;
  c0 ← chains !! 0%nat;
  c1 ← chains !! 1%nat;
  _ ← assert_eq (ac_chain_id c0) 8224;
  _ ← assert_eq (ac_start_height c0) (Some 1095300);
  _ ← assert_eq (ac_start_height c1) None;
  assert_eq (ac_pow_limit_bits c0) 0x1e0fffff.

Definition rejects_malformed_entries : Test :=
  _ ← assert (is_err (parse_chain_specs "JKC|not_a_number|url|0x1e0fffff"));
  _ ← assert (is_err (parse_chain_specs "JKC|8224||0x1e0fffff"));
  chains ← unwrap (parse_chain_specs "");
  assert_eq (len chains) 0.

Definition parses_known_chains_and_rejects_shadowed_ids : Test :=
  known ← unwrap (parse_known_chain_specs "LTC|8192|https://ltc-api.s3na.xyz/");
  _ ← assert_eq (len known) 1;
  k0 ← known !! 0%nat;
  _ ← assert_eq (kc_chain_id k0) 8192;
  _ ← assert_eq (kc_name k0) "LTC"%string;
  _ ← assert_eq (kc_electrs k0) "https://ltc-api.s3na.xyz"%string;
  _ ← assert (is_err (parse_known_chain_specs "LTC|nope|https://ltc-api.s3na.xyz"));
  _ ← assert (is_err (parse_known_chain_specs "LTC|8192"));
  none ← unwrap (parse_known_chain_specs "");
  _ ← assert_eq (len none) 0;
  chains ← unwrap (parse_chain_specs "JKC|8224|https://junk-api.s3na.xyz|0x1e0fffff");
  _ ← unwrap (check_known_chain_ids chains known);
  shadow ← unwrap (parse_known_chain_specs "JKC|8224|https://junk-api.s3na.xyz");
  match check_known_chain_ids chains shadow with
  | Err (DuplicateKnownChainId 8224) => Some ()
  | _ => None
  end.

(** The entry that the TOML reader gives. *)
Definition parses_file_chains : Test :=
  chains ← unwrap (parse_file_chains [mkChainEntry "JKC" 8224 "https://junk-api.s3na.xyz" "0x1e0fffff" (Some 1095300)]);
  _ ← assert_eq (len chains) 1;
  c0 ← chains !! 0%nat;
  _ ← assert_eq (ac_chain_id c0) 8224;
  assert_eq (ac_start_height c0) (Some 1095300).

Definition parent_chain_slug_is_normalized_and_validated : Test :=
  slug ← unwrap (normalize_parent_chain "  Litecoin ");
  _ ← assert_eq slug "litecoin"%string;
  _ ← assert (is_err (normalize_parent_chain "ltccoin"));
  assert (is_ok (normalize_parent_chain "BITCOIN")).

Definition chain_name_is_trimmed_and_derived_when_empty : Test :=
  _ ← assert_eq (normalize_chain_name "  JKC " 8224) "JKC"%string;
  assert_eq (normalize_chain_name "" 8224) "chain8224"%string.

Definition rejects_duplicate_chain_ids : Test :=
  match parse_chain_specs "JKC|8224|https://a|0x1e0fffff,DINGO|8224|https://b|0x1e0fffff" with
  | Err (DuplicateChainId _) => Some ()
  | _ => None
  end.

(** ** The run *)

Definition unit_tests : list (string * Test) := [
  ("work_target_one_is_2_pow_255", work_target_one_is_2_pow_255);
  ("work_target_ffff_is_2_pow_240", work_target_ffff_is_2_pow_240);
  ("work_target_all_ones_is_one", work_target_all_ones_is_one);
  ("add_be_carries_across_bytes", add_be_carries_across_bytes);
  ("divmod_basic", divmod_basic);
  ("expand_target_matches_powlimit_and_rejects_invalid", expand_target_matches_powlimit_and_rejects_invalid);
  ("journal_abi_encode_layout", journal_abi_encode_layout);
  ("journal_abi_roundtrip", journal_abi_roundtrip);
  ("journal_abi_decode_rejects_bad_length", journal_abi_decode_rejects_bad_length);
  ("withdrawal_journal_abi_layout_and_roundtrip", withdrawal_journal_abi_layout_and_roundtrip);
  ("parse_deposit_real_tx_test", parse_deposit_real_tx_test);
  ("parse_deposit_happy_path_and_sums_custody", parse_deposit_happy_path_and_sums_custody);
  ("parse_deposit_rejects_custody_pattern_hidden_in_op_return",
   parse_deposit_rejects_custody_pattern_hidden_in_op_return);
  ("parse_deposit_rejects_coinbase", parse_deposit_rejects_coinbase);
  ("parse_deposit_rejects_trailing_bytes_and_missing_recipient",
   parse_deposit_rejects_trailing_bytes_and_missing_recipient);
  ("parse_withdrawal_happy_path", parse_withdrawal_happy_path);
  ("parse_withdrawal_rejects_missing_binding_or_recipient", parse_withdrawal_rejects_missing_binding_or_recipient);
  ("payout_content_match_predicate", payout_content_match_predicate);
  ("auxpow_commitment_verifies_and_rejects_tampering", auxpow_commitment_verifies_and_rejects_tampering);
  ("psob_chain_verifies_valid_witness", psob_chain_verifies_valid_witness);
  ("psob_chain_rejects_broken_link", psob_chain_rejects_broken_link);
  ("psob_chain_rejects_missing_aux_or_wrong_chain_id", psob_chain_rejects_missing_aux_or_wrong_chain_id);
  ("psob_chain_rejects_tampered_commitment", psob_chain_rejects_tampered_commitment);
  ("psob_chain_rejects_wrong_slot_for_nonce", psob_chain_rejects_wrong_slot_for_nonce);
  ("parses_live_jkc_block", parses_live_jkc_block);
  ("rejects_truncated_and_non_auxpow", rejects_truncated_and_non_auxpow);
  ("rejects_bad_coinbase", rejects_bad_coinbase);
  ("parses_segwit_serialized_parent_coinbase", parses_segwit_serialized_parent_coinbase);
  ("live_jkc_block_fully_verifies", live_jkc_block_fully_verifies);
  ("tampered_commitment_is_detected_step_by_step", tampered_commitment_is_detected_step_by_step);
  ("wrong_chain_id_is_rejected", wrong_chain_id_is_rejected);
  ("truncated_wire_is_rejected", truncated_wire_is_rejected);
  ("non_auxpow_payload_is_rejected", non_auxpow_payload_is_rejected);
  ("canonical_json_contract", canonical_json_contract);
  ("parses_chain_spec_with_optional_start_height", parses_chain_spec_with_optional_start_height);
  ("rejects_malformed_entries", rejects_malformed_entries);
  ("parses_known_chains_and_rejects_shadowed_ids", parses_known_chains_and_rejects_shadowed_ids);
  ("parses_file_chains", parses_file_chains);
  ("parent_chain_slug_is_normalized_and_validated", parent_chain_slug_is_normalized_and_validated);
  ("chain_name_is_trimmed_and_derived_when_empty", chain_name_is_trimmed_and_derived_when_empty);
  ("rejects_duplicate_chain_ids", rejects_duplicate_chain_ids)
]%string.

(** The model passes the tests. *)
Lemma unit_tests_pass : failing unit_tests = [].
Proof. vm_compute. reflexivity. Qed.
