(* ===== verification/StoreTests.v ===== *)
(** * The tests of the store

    The tests of [src/db.rs], translated like the code they test and run on the
    model, over blocks made from the real fixture with the real SHA-256.  A file of
    its own is the empty disk; reopening it is opening the tables of the database
    that was dropped.  The clock of [insert_intent] and [list_intents] stands still. *)

From S2P Require Export UnitTests DbThm.

#[local] Open Scope Z_scope.
(** ** A codec of linear cost

    A block is a tape of fields: a byte string is its bytes, each behind a mark, and
    an end; a list is its items, each behind a mark, and an end. *)

Fixpoint put_bytes (b : bytes) (rest : bytes) : bytes :=
  match b with [] => x00 :: rest | x :: b => x01 :: x :: put_bytes b rest end.
Fixpoint get_bytes (t : bytes) : option (bytes * bytes) :=
  match t with
  | x00 :: rest => Some ([], rest)
  | x01 :: x :: t => r ← get_bytes t; Some (x :: r.1, r.2)
  | _ => None
  end.
Fixpoint put_list (l : list bytes) (rest : bytes) : bytes :=
  match l with [] => x00 :: rest | b :: l => x01 :: put_bytes b (put_list l rest) end.
Fixpoint get_list (fuel : nat) (t : bytes) : option (list bytes * bytes) :=
  match fuel, t with
  | S _, x00 :: rest => Some ([], rest)
  | S fuel, x01 :: t => b ← get_bytes t; l ← get_list fuel b.2; Some (b.1 :: l.1, l.2)
  | _, _ => None
  end.
Definition put_num (z : Z) : bytes → bytes := put_bytes (pos_bytes (encode z)).
Definition get_num (t : bytes) : option (Z * bytes) := r ← get_bytes t; z ← decode (bytes_pos r.1); Some (z, r.2).

Lemma get_put_bytes b rest : get_bytes (put_bytes b rest) = Some (b, rest).
Proof. induction b as [|x b IH]; [done|]. cbn. by rewrite IH. Qed.
Lemma length_put_bytes b rest : (length rest < length (put_bytes b rest))%nat.
Proof. induction b as [|x b IH]; cbn in *; lia. Qed.
Lemma get_put_list l : ∀ rest fuel, (length l < fuel)%nat → get_list fuel (put_list l rest) = Some (l, rest).
Proof.
  induction l as [|b l IH]; intros rest [|fuel] Hf; cbn in Hf; [lia|done|lia|].
  cbn -[put_bytes get_bytes]. rewrite get_put_bytes. cbn -[put_bytes get_bytes]. by rewrite IH by lia.
Qed.
Lemma length_put_list l rest : (length l + length rest < length (put_list l rest))%nat.
Proof.
  induction l as [|b l IH]; cbn -[put_bytes]; [lia|]. pose proof (length_put_bytes b (put_list l rest)). lia.
Qed.
Lemma get_put_num z rest : get_num (put_num z rest) = Some (z, rest).
Proof. unfold get_num, put_num. rewrite get_put_bytes. cbn. by rewrite bytes_pos_bytes, decode_encode. Qed.

Definition put_aux (a : option AuxPow) (rest : bytes) : bytes :=
  match a with
  | None => x00 :: rest
  | Some a =>
      x01 :: put_bytes (coinbase_tx a) (put_list (parent_merkle_branch a) (put_num (parent_index a)
        (put_list (chain_merkle_branch a) (put_num (chain_index a) (put_bytes (parent_header a) rest)))))
  end.
Definition get_aux (t : bytes) : option (option AuxPow * bytes) :=
  match t with
  | x00 :: rest => Some (None, rest)
  | x01 :: t =>
      a ← get_bytes t; b ← get_list (length a.2) a.2; c ← get_num b.2;
      d ← get_list (length c.2) c.2; e ← get_num d.2; f ← get_bytes e.2;
      Some (Some (mkAuxPow a.1 b.1 c.1 d.1 e.1 f.1), f.2)
  | _ => None
  end.
(** Reads back what was put, field by field. *)
Ltac read_back :=
  repeat first
    [ rewrite get_put_bytes | rewrite get_put_num
    | match goal with |- context [get_list _ (put_list ?l ?r)] =>
        rewrite (get_put_list l r) by (pose proof (length_put_list l r); lia) end
    | progress cbn -[put_bytes put_list put_num get_bytes get_list get_num
                     String.list_byte_of_string String.string_of_list_byte] ].
Lemma get_put_aux a rest : get_aux (put_aux a rest) = Some (a, rest).
Proof. destruct a as [[co pb pi cb ci ph]|]; [|done]. unfold put_aux, get_aux. by read_back. Qed.

Definition put_block (b : StoredBlock) : bytes :=
  put_bytes (sb_hash_le b) (put_num (sb_chain_id b) (put_num (sb_height b) (put_bytes (raw (sb_header b))
    (put_aux (aux (sb_header b)) (put_bytes (String.list_byte_of_string (sb_wire_hex b)) []))))).
Definition get_block (t : bytes) : option StoredBlock :=
  h ← get_bytes t; c ← get_num h.2; n ← get_num c.2; r ← get_bytes n.2; a ← get_aux r.2; w ← get_bytes a.2;
  Some (mkBlock h.1 c.1 n.1 (mkBlockHeader r.1 a.1) (String.string_of_list_byte w.1)).
Lemma get_put_block b : get_block (put_block b) = Some b.
Proof.
  destruct b as [h c n [r a] w]. unfold get_block, put_block. read_back. rewrite get_put_aux. read_back.
  by rewrite String.string_of_list_byte_of_string.
Qed.

Definition tape_codec : Codec := {|
  enc_block := put_block; dec_block := get_block; dec_enc_block := get_put_block;
  enc_parent := @enc_parent toy_codec; dec_parent := @dec_parent toy_codec;
  dec_enc_parent := @dec_enc_parent toy_codec;
  enc_intent := @enc_intent toy_codec; dec_intent := @dec_intent toy_codec;
  dec_enc_intent := @dec_enc_intent toy_codec
|}.

(** ** The tests *)

#[local] Existing Instances sha2 plain_hex tape_codec.

(** A test over a database is a run from a fresh one; an error it does not expect
    panics. *)
Definition must (t : Test) : M unit := λ db, (match t with Some _ => Ok () | None => Err DbPanic end, db).
Definition look {A} (f : Database → A) : M A := λ db, (Ok (f db), db).
Definition on_fresh_db (m : M unit) : Test :=
  db ← unwrap (open empty_disk false);
  match (m db).1 with Ok _ => Some () | Err _ => None end.

Definition DINGO : Z := 50.

Definition fixture_block (chain_id height mask : Z) : option StoredBlock :=
  wire ← unwrap (hex_decode jkc_1095600_header);
  ba ← unwrap (parse_auxpow wire);
  let '(base, aux) := ba in
  version ← index_u32_le base 0;
  let hdr := write base 0 (le_bytes 4 (Z.lor (Z.lor (u32_shl chain_id 16) (Z.land version 0xffff)) mask)) in
  let hdr := write hdr 76 (le_bytes 4 (Z.lxor (u32_wrap height) mask)) in
  let hash := sha256d hdr in
  let coinbase := match find_subslice (coinbase_tx aux) AUXPOW_MAGIC with
                  | Some pos => write (coinbase_tx aux) (Z.of_nat pos + len AUXPOW_MAGIC) (rev hash)
                  | None => coinbase_tx aux
                  end in
  let aux := mkAuxPow coinbase (parent_merkle_branch aux) (parent_index aux) (chain_merkle_branch aux)
               (chain_index aux) (parent_header aux) in
  Some (mkBlock hash chain_id height (mkBlockHeader hdr (Some aux)) (hex_encode hdr)).
Definition fixture (chain_id height mask : Z) : M StoredBlock := λ db,
  (ok_or (fixture_block chain_id height mask) DbPanic, db).

Definition open_writes_schema_version_and_rejects_old : Test :=
  db ← unwrap (open empty_disk false);
  let '(v, db) := get_meta META_SCHEMA_VERSION db in
  v ← unwrap v;
  _ ← assert_eq v (Some "2"%string);
  let '(r, db) := set_meta META_SCHEMA_VERSION "1" db in
  _ ← unwrap r;
  match open (disk db) false with
  | Err (DbAnyhow msg) => assert_eq msg ("database schema v1 is incompatible with this indexer (needs v2): " +:+
                                        "delete the db file and re-ingest")
  | _ => None
  end.

Definition sibling_grouping_and_pagination : Test := on_fresh_db (
  jkc ← fixture 8224 100 1;
  dingo ← fixture DINGO 200 2;
  jkc2 ← fixture 8224 101 3;
  _ ← insert_blocks [(8224, 100, jkc); (DINGO, 200, dingo); (8224, 101, jkc2)];
  parent_hash ← λ db, (ok_or (db_parent_hash jkc) DbPanic, db);
  siblings ← look (siblings_for_parent parent_hash);
  _ ← must (assert_eq (len siblings) 3);
  page1 ← look (sibling_blocks_range parent_hash (Page_new (Some 2) (Some 0)));
  _ ← must (assert_eq (len page1.1) 2);
  _ ← must (assert_eq page1.2 3);
  range ← look (blocks_range 8224 90 200 Page_default);
  _ ← must (assert_eq (len range) 2);
  let ltc_h := 347000 in
  _ ← classify_parent parent_hash (Some ltc_h);
  groups ← look (shared_mainnet_parents 2 Page_default None);
  _ ← must (assert_eq (shp_ltc_height <$> groups.1) [ltc_h]);
  _ ← must (assert_eq ((λ g, len (shp_legs g)) <$> groups.1) [2]);
  epoch ← look (epoch_blocks ltc_h ltc_h (Some DINGO) Page_default);
  must (assert_eq ((λ r, r.1.1.1) <$> epoch.1) [DINGO])).

Definition test_intent (id : string) (from to expiry : Z) : SwapIntentMessage :=
  mkIntent "psob-swap" 1 id (String.concat "" (replicate 33 "02"%string)) from to 100000000 200000000 "addr"
    1000 expiry "adaptor-v1" "" "" "" (String.concat "" (replicate 64 "00"%string)).
Definition swap_intent_store_and_list (now : Z) : Test := on_fresh_db (
  _ ← insert_intent now (test_intent "a" 8224 50 (now + 1000));
  _ ← insert_intent now (test_intent "b" 8224 50 (now + 1000));
  _ ← insert_intent now (test_intent "c" 50 8224 (now - 10));
  all ← list_intents now now None None None Page_default;
  _ ← must (assert_eq all.2 2);
  _ ← must (assert_eq (len all.1) 2);
  filtered ← list_intents now now (Some 8224) (Some 50) None Page_default;
  _ ← must (assert_eq (len filtered.1) 2);
  other ← list_intents now now (Some 50) (Some 8224) None Page_default;
  _ ← must (assert_eq (len other.1) 0);
  c ← look (λ db, cache_intents db !! "c"%string);
  must (assert_eq c None)).

(** The heights 100 to 105, one block at a time. *)
Definition insert_window : M unit :=
  for_each (λ h, b ← fixture 8224 h 1; insert_block 8224 h b) (seqZ 100 6).

Definition rollback_removes_blocks_caches_and_cursor : Test := on_fresh_db (
  _ ← insert_window;
  _ ← set_cursor_height 8224 105;
  cursor ← cursor_height 8224;
  _ ← must (assert_eq cursor (Some 105));
  removed ← rollback_from 8224 103;
  _ ← must (assert_eq removed 3);
  b ← block_at 8224 103;
  _ ← must (assert_eq b None);
  b ← block_at 8224 101;
  _ ← must (assert (bool_decide (is_Some b)));
  cursor ← cursor_height 8224;
  must (assert_eq cursor (Some 102))).

(** [s.chains.iter().find(..).unwrap()]. *)
Definition chain_of (chain_id : Z) : M ChainStats := λ db,
  (ok_or (List.find (λ c, cs_chain_id c =? chain_id) (st_chains (stats db))) DbPanic, db).

Definition stats_are_consistent : Test := on_fresh_db (
  b1 ← fixture 8224 1 1;
  b2 ← fixture 8224 2 2;
  b3 ← fixture DINGO 1 3;
  _ ← insert_blocks [(8224, 1, b1); (8224, 2, b2); (DINGO, 1, b3)];
  s ← look stats;
  _ ← must (assert_eq (st_total_blocks s) 3);
  _ ← must (assert_eq (len (st_chains s)) 2);
  jkc ← chain_of 8224;
  _ ← must (assert_eq (cs_blocks jkc) 2);
  _ ← must (assert_eq (cs_min_height jkc) (Some 1));
  must (assert_eq (cs_max_height jkc) (Some 2))).

Definition prune_before_keeps_bounded_window : Test := on_fresh_db (
  _ ← insert_window;
  removed ← prune_before 8224 103;
  _ ← must (assert_eq removed 3);
  b ← block_at 8224 102;
  _ ← must (assert_eq b None);
  b ← block_at 8224 103;
  _ ← must (assert (bool_decide (is_Some b)));
  count ← look (chain_block_count 8224);
  _ ← must (assert_eq count 3);
  chain ← chain_of 8224;
  _ ← must (assert_eq (cs_min_height chain) (Some 103));
  _ ← must (assert_eq (cs_max_height chain) (Some 105));
  again ← prune_before 8224 103;
  must (assert_eq again 0)).

Definition store_tests : list (string * Test) := [
  ("open_writes_schema_version_and_rejects_old", open_writes_schema_version_and_rejects_old);
  ("sibling_grouping_and_pagination", sibling_grouping_and_pagination);
  ("swap_intent_store_and_list", swap_intent_store_and_list 1700000000);
  ("rollback_removes_blocks_caches_and_cursor", rollback_removes_blocks_caches_and_cursor);
  ("stats_are_consistent", stats_are_consistent);
  ("prune_before_keeps_bounded_window", prune_before_keeps_bounded_window)
]%string.

(** The model passes the tests. *)
Lemma store_tests_pass : failing store_tests = [].
Proof. vm_compute. reflexivity. Qed.
